(* ===== verification/_CoqProject ===== *)
-Q . S2P
Prelude.v
DList.v
HashModel.v
HashRepr.v
HashFacts.v
HashInsert.v
HashOps.v
HashLoops.v
HashCopy.v
HashSort.v
HashWalk.v
HashNumeric.v
HashSpec.v
Qsort.v
SortSpec.v
LListModel.v
LListSpec.v
Stack.v
PtrStack.v
DynArray.v
ZListModel.v
ZListSpec.v
ObjModel.v
ObjSpec.v
ObjTheorems.v
GcModel.v
GcGraph.v
GcSpec.v
GcScan.v
GcCollect.v
GcRoots.v
GcPhases.v
GcTheorems.v
TsHashModel.v
TsHashSpec.v
TsHashTheorems.v
Base64.v
WordLogic.v
MmModel.v
MmReallocModel.v
MmShutdownModel.v
MmBits.v
MmRepr.v
MmTrie.v
MmFree.v
MmSearch.v
MmLayout.v
MmHole.v
MmJoin.v
MmSegments.v
MmRelease.v
MmHeap.v
MmApart.v
MmTake.v
MmAlloc.v
MmResize.v
MmRegrow.v
MmRealloc.v
MmApi.v
MmProgram.v
MmStart.v
MmShutdown.v
MmRequests.v
MmArena.v
MmTheorems.v
