(* ===== verification/Prelude.v ===== *)
(** * The core data structures of the Zend engine

    This development models the data structures that the PHP 5.6 interpreter of this
    repository is built on, and proves what makes them correct.  Paths are relative to
    [src/src/].

    ** The parts of the program, and where they are modelled

    - The hash table, [Zend/zend_hash.c] and [.h], which holds PHP arrays, symbol
      tables, properties and classes: [HashModel], every operation of the release
      build.  A [HashTable] is a record of the fields of the C structure; the buckets
      are objects of a memory, with the four links of the C structure.  [HashRepr] has
      the representation invariant (the global list, the chains, the slots of
      [arBuckets], [pInternalPointer]); [HashFacts], [HashInsert], [HashLoops],
      [HashOps], [HashCopy], [HashSort], [HashWalk] and [HashNumeric] prove the
      operations by groups; [HashSpec] states the contract: a table is an association
      list from keys to values in order of insertion, and each operation refines the
      operation on lists.
    - Sorting, [Zend/zend_qsort.c]: [Qsort], with its explicit stack of segments;
      [SortSpec] states that [zend_qsort] stops, sorts and permutes, and that
      [zend_hash_sort] does.
    - The linked list, [Zend/zend_llist.c]: [LListModel] and [LListSpec].  [DList] has
      the doubly linked segments that the hash table, the linked list and the ring of
      roots share: a class [Linked] of cells with a next and a previous link, with
      an instance for each of the four lists.
    - The stacks, [Zend/zend_stack.c] and [Zend/zend_ptr_stack.c], and the growing array,
      [Zend/zend_dynamic_array.c]: [Stack], [PtrStack], [DynArray].
    - The resource lists, [Zend/zend_list.c]: [ZListModel], on the hash tables of
      [HashModel] in two memories (entries, and types with their destructors);
      [ZListSpec] proves the life of a resource against the contract of hash tables.
    - The objects store, [Zend/zend_objects_API.c], and the buffer of possible roots of
      the cycle collector, [Zend/zend_gc.c] and [.h]: [ObjModel], one state since each
      calls the other; [ObjSpec] has their invariants and [ObjTheorems] what they
      promise.  Destructors, deallocators, clone functions and the collector, where the
      buffer calls it, are parameters, functions on the whole state; the theorems ask of
      them what the callers rely on ([ObjSpec.safe_callback]).
    - The walks of the cycle collector, [Zend/zend_gc.c]: [GcModel], on the state of
      [ObjModel], with the arrays and property tables of [HashModel].  [GcGraph] says
      what a depth-first walk of a graph of counted references does, and when scanning
      it is exact; [GcSpec] shows that marking and going back to black are such walks of
      the graph of values and objects, [GcScan] that scanning keeps the invariant of
      [GcGraph], [GcCollect] that collecting threads the list of values to free;
      [GcRoots] and [GcPhases] are the loops over the roots; [GcTheorems] has the
      theorem.  The handler [get_gc] of a class is a parameter, which is asked to leave
      the state alone and to tell the same each time.
    - The hash table shared by threads, [Zend/zend_ts_hash.c]: [TsHashModel], where the
      functions are programs of atomic actions on the readers-writer lock and of accesses
      to the tables of [HashModel], and threads interleave; [TsHashSpec] has the
      invariant of the lock, by induction on the steps, [TsHashTheorems] mutual
      exclusion, progress, and three defects.
    - The memory manager, [Zend/zend_alloc.c]: [MmModel], the heap of the release build
      (free lists, trees of large blocks, the list of rests, the cache, segments, the
      memory limit), [MmReallocModel], reallocation and the functions that the engine
      calls, from [_emalloc] to [zend_memory_usage], and [MmShutdownModel], the end of a
      request and of the process.  Here memory is words at addresses and the blocks are
      what the words say.  [WordLogic] is a separation logic for programs on words, on Iris's interface of
      logics; [MmBits] has the arithmetic of sizes and bitmaps, [MmRepr] regions of words
      and rings, [MmTrie] the trees, [MmFree] the free lists, [MmSearch] the searches;
      [MmLayout] says that a segment is cut into blocks from its start to its guard, no
      two free ones side by side, [MmHole], [MmJoin] and [MmSegments] how blocks are
      split, merged and found; [MmRelease] and [MmTake] are the two halves of freeing and
      allocating, [MmHeap] the invariant of the heap, [MmAlloc] the contracts of both
      ([mm_at heap limit k drift L] is a heap whose blocks in use are [L], and whose usage
      is their sizes and [drift]), [MmStart] the start of a heap.  Reallocation is in
      [MmResize] (in place), [MmRegrow] (with its segment) and [MmRealloc] (the whole);
      [MmApi] has the functions of the allocation manager, [MmProgram] programs that call
      them, and the blocks with sizes and contents that these refine; [MmApart] takes a
      heap apart whose blocks nobody uses ([abandoned]), [MmShutdown] makes a new one of it
      ([fresh], which is also what the start leaves), [MmRequests] runs a program after the
      other on it; [MmTheorems] has the theorems.  The storage below the heap, which gets segments from the system and can
      grow them up to a capacity, is a class of operations with their laws
      ([MmSegments.Storage]) and [MmArena] an instance; [zend_error] and
      [zend_error_noreturn], which report that memory is exhausted or that a size
      overflows, are parameters asked to leave the heap a heap.
    - The base64 codec of the standard extension, [ext/standard/base64.c], with the
      overflow check of its allocation, [safe_address] of [Zend/zend_alloc.c]: [Base64].
      The state is the block of bytes that it writes, which starts uninitialised.

    ** How the code is modelled

    A C function is a function in the state and error monad [M] of this file: it is
    [Done] with a result and a new state, or leaves by [Bailout] ([zend_bailout], after
    a fatal error), or is [Stuck], where the C program has undefined behaviour: a read
    through a pointer that is not allocated, of an indeterminate value, or outside of
    an array.  A theorem that a run is [Done] therefore excludes use after free and
    double free.  Addresses are positive numbers, given out once; [NULL] is [None].
    Integers are [Z] with the wrap-around of their width written out ([u32], [u64],
    [s32], [s64]), for the LP64 build.  Callbacks that the model does not look into are
    recorded in a trace of events, in order, so that theorems can say which elements
    were destroyed, how often and in which order; callbacks whose results matter are
    functions.  Outside of the memory manager,
    allocation gives a new address and never fails ([emalloc] bails out).

    Loops over pointers have fuel, the address that the memory would give out next,
    which bounds the length of any list without repetition ([fuel_of], [length_lt_brk]):
    the theorems conclude [Done], so the fuel is enough.  The loops over the objects
    store take theirs as an argument, as do the recursive walks of the collector, for
    which any number above that of the nodes is enough.  [Qsort] has the fuel [work], which [zend_qsort]
    computes from the number of elements and its theorem proves sufficient.  The loops of
    the memory manager down a tree have 65 steps, one more than a size has bits; those along
    a list the number of words of memory, which no list without repetition exceeds.

    ** What the theorems show

    - Refinement and function of the hash table: insertion, update, deletion, lookup,
      growth, numeric string keys, copying, merging, sorting, renumbering, traversal,
      iteration with callbacks that delete, saved positions, destruction in both orders.
    - The hash function is the recurrence of Bernstein that its comment claims.
    - Termination and correctness of the quicksort for any comparison function that is
      a total preorder, within its stack of segments.
    - Linked lists, stacks and the pointer stack refine lists; the versions of the
      pointer stack unrolled for two and three pointers do what the general ones do.
    - Resources are destroyed once, when their last reference goes, by the destructor of
      their type; fetching one checks its type; the shutdown of a module frees the
      resources of its types and nothing else.
    - Objects: a released object has its destructor called at most once and its storage
      freed exactly once, unless the destructor keeps it alive, even when the callbacks
      fail; handles are reused; the root buffer loses no entry.
    - The cycle collector finds exactly the garbage: of what the purple roots reach, the
      values to which no reference from outside leads, directly or not; it puts each into
      the list to free once, and restores the counts and colours of what is alive.
    - The memory manager: an allocation gives a block of its own that is aligned and large
      enough, or the program is bailed out; freeing always succeeds; reallocation gives a
      block of the size asked for with the old contents; none reports a corruption,
      touches memory that is not the heap's, or breaks the heap.  So any program that
      allocates, clears, resizes, frees, reads and writes its blocks sees what it would on
      blocks of its own, and the usage reported is the size of its blocks.  After a
      shutdown the heap is as at the start, whatever the request left behind, even if it
      was bailed out for lack of memory; so all the requests of a process are served as if
      each was the first.  The search of the trees finds an exact fit if there is one and
      a block that is large enough whenever there is one.
    - Base64: decoding gives back what was encoded, for any bytes, and decoding any
      bytes stays inside the string and its block and ends.
    - Shared tables: no two threads access a table in conflict, and threads that use one
      table do not deadlock.
    - Defects of the code, each with a theorem: stale keys after sorting, resource
      numbers that wrap, a dynamic array of size zero, three in the locking of shared
      tables, and four in the memory manager, by examples in [MmTheorems]: in the search for
      the smallest block, in the list of rests, in a reallocation that the system refuses,
      and in the usage after an error.

    ** What is not modelled

    - The debug build (consistency checks, display functions).
    - Of [Zend/zend_objects_API.c], the proxy objects, which call the executor; of
      [Zend/zend_gc.c], the second part of [gc_collect_cycles], which calls destructors
      and then destroys and frees the values of the list.  The theorem on the collector
      is about heaps in which no suspect is the symbol table.
    - Hash tables have theorems for every operation but [zend_hash_splice],
      [zend_hash_compare], [zend_hash_minmax], [zend_hash_merge_ex] and
      [zend_hash_update_current_key_ex], which are modelled only.
    - Of [Zend/zend_alloc.c], the handlers of the storage (calls of the operating system),
      the settings from the environment, custom handlers, heaps inside their own memory,
      the copies of strings ([_estrdup] and others), cookies and heap protection.  The theorems on
      reallocation ask for sizes up to 2^62, or that wrap around at once, and for a storage
      that can grow a segment up to the limit: what happens otherwise is an example.
    - Of [ext/standard], all but base64.
    - The compiler, the virtual machine, streams, the other
      extensions, server interfaces and the vendored libraries: other components, or
      input and output. *)

From Stdlib Require Export ZArith Lia Sorting.Sorted.
From Stdlib.Strings Require Byte String.
From stdpp Require Export base tactics numbers gmap list.

#[export] Set Default Proof Using "Type".

Local Open Scope Z_scope.

(** ** Machine integers

    The build modelled is the LP64 one: [uint] and [int] have 32 bits,
    [ulong], [long], [size_t] and pointers have 64. *)

Definition u8 (z : Z) : Z := z mod 2 ^ 8.
Definition u32 (z : Z) : Z := z mod 2 ^ 32.
Definition u64 (z : Z) : Z := z mod 2 ^ 64.
Definition s32 (z : Z) : Z := (z + 2 ^ 31) mod 2 ^ 32 - 2 ^ 31.
Definition s64 (z : Z) : Z := (z + 2 ^ 63) mod 2 ^ 64 - 2 ^ 63.
Definition LONG_MAX : Z := 2 ^ 63 - 1.
Definition LONG_MIN : Z := - 2 ^ 63.
Definition SUCCESS : Z := 0.
Definition FAILURE : Z := -1.

Lemma u32_small z : 0 ≤ z < 2 ^ 32 → u32 z = z.
Proof. intros. by apply Z.mod_small. Qed.

Lemma u32_range z : 0 ≤ u32 z < 2 ^ 32.
Proof. apply Z.mod_pos_bound. lia. Qed.

Lemma u32_idemp z : u32 (u32 z) = u32 z.
Proof. unfold u32. by rewrite Zmod_mod. Qed.

Lemma u64_small z : 0 ≤ z < 2 ^ 64 → u64 z = z.
Proof. intros. by apply Z.mod_small. Qed.

Lemma u64_range z : 0 ≤ u64 z < 2 ^ 64.
Proof. apply Z.mod_pos_bound. lia. Qed.

Lemma s32_small z : - 2 ^ 31 ≤ z < 2 ^ 31 → s32 z = z.
Proof. intros. unfold s32. rewrite Z.mod_small; lia. Qed.

(** Bytes; [char] is signed, as on x86. *)
Abbreviation bytes := (list Byte.byte).
Definition byte_Z (b : Byte.byte) : Z := Z.of_N (Byte.to_N b).
Definition schar (b : Byte.byte) : Z := if byte_Z b <? 128 then byte_Z b else byte_Z b - 256.
Definition str (s : String.string) : bytes := String.list_byte_of_string s.

#[export] Instance byte_eq_dec : EqDecision Byte.byte := Byte.byte_eq_dec.

(** [memcmp]: the sign of the first difference of unsigned bytes. *)
Fixpoint memcmp (s t : bytes) : Z :=
  match s, t with
  | a :: s', b :: t' =>
      if byte_Z a <? byte_Z b then -1 else if byte_Z b <? byte_Z a then 1 else memcmp s' t'
  | _, _ => 0
  end.

(** ** Effects

    [outcome W A] is what a call does from a store of type [W]: it returns a
    value in a new store, it leaves by [zend_bailout] ([longjmp] after a fatal
    error), or it is [Stuck]: the C program dereferences a pointer that is not
    allocated, reads an indeterminate value, or does not terminate. *)

Inductive outcome (W A : Type) : Type :=
| Done (a : A) (w : W)
| Bailout (w : W)
| Stuck.
Arguments Done {W A} a w.
Arguments Bailout {W A} w.
Arguments Stuck {W A}.

Definition M (W A : Type) : Type := W → outcome W A.

Definition ret {W A} (a : A) : M W A := λ w, Done a w.
Definition bind {W A B} (m : M W A) (k : A → M W B) : M W B :=
  λ w, match m w with
       | Done a w' => k a w'
       | Bailout w' => Bailout w'
       | Stuck => Stuck
       end.
Definition stuck {W A} : M W A := λ _, Stuck.
Definition bailout {W A} : M W A := λ w, Bailout w.
(** an [option] computed by pure code whose [None] is undefined behaviour *)
Definition of_option {W A} (o : option A) : M W A :=
  match o with Some a => ret a | None => stuck end.

Declare Scope effect_scope.
Delimit Scope effect_scope with eff.
Notation "'let!' x ':=' m 'in' k" := (bind m (λ x, k))
  (at level 10, x name, m at level 100, k at level 200) : effect_scope.
Notation "'let!' ' p ':=' m 'in' k" := (bind m (λ x, match x with p => k end))
  (at level 10, p pattern, m at level 100, k at level 200) : effect_scope.
Notation "m ';;;' k" := (bind m (λ _, k)) (at level 199, right associativity) : effect_scope.

(** ** Word memory

    Memory that the code carves up itself: words at addresses.  An address without a word
    is not the program's. *)

Abbreviation words := (gmap Z Z).

Definition load_word (l : Z) : M words Z := λ w, match w !! l with Some v => Done v w | None => Stuck end.
Definition store_word (l v : Z) : M words unit := λ w,
  match w !! l with Some _ => Done tt (<[l := v]> w) | None => Stuck end.
(** the fuel of a loop that visits no word twice *)
Definition words_fuel : M words nat := λ w, Done (S (size w)) w.

(** ** Memory

    A store of C objects of one type [N] at addresses of type [ptr], the next
    address never given out, and the trace of calls to callbacks (destructors,
    copy constructors, ...), newest last.  [NULL] is [None]. *)

Abbreviation ptr := positive.

Record mem (N E : Type) : Type := Mem {
  cells : gmap ptr N;
  brk : ptr;
  trace : list E
}.
Arguments Mem {N E} cells brk trace.
Arguments cells {N E} m.
Arguments brk {N E} m.
Arguments trace {N E} m.

Definition with_cells {N E} (f : gmap ptr N → gmap ptr N) (w : mem N E) : mem N E :=
  Mem (f (cells w)) (brk w) (trace w).

Definition load {N E} (p : ptr) : M (mem N E) N :=
  λ w, match cells w !! p with Some n => Done n w | None => Stuck end.
Definition store {N E} (p : ptr) (f : N → N) : M (mem N E) unit :=
  λ w, match cells w !! p with
       | Some _ => Done tt (with_cells (alter f p) w)
       | None => Stuck
       end.
(** a write through a pointer that is tested against [NULL] first *)
Definition store_opt {N E} (o : option ptr) (f : N → N) : M (mem N E) unit :=
  match o with Some p => store p f | None => ret tt end.
Definition alloc {N E} (n : N) : M (mem N E) ptr :=
  λ w, Done (brk w) (Mem (<[brk w := n]> (cells w)) (Pos.succ (brk w)) (trace w)).
(** an object whose initial contents may mention its own address *)
Definition alloc_with {N E} (f : ptr → N) : M (mem N E) ptr := λ w, alloc (f (brk w)) w.
(** [if (o) { o->... } else { ... }]: a link write that falls back on a field
    of the list header; [a] is the header then, [a0] the header otherwise *)
Definition store_or {N E A} (o : option ptr) (f : N → N) (a a0 : A) : M (mem N E) A :=
  match o with Some p => bind (store p f) (λ _, ret a) | None => ret a0 end.
(** [free]: a double free, or a free of [NULL]'s complement, is [Stuck] *)
Definition free {N E} (p : ptr) : M (mem N E) unit :=
  λ w, match cells w !! p with
       | Some _ => Done tt (with_cells (delete p) w)
       | None => Stuck
       end.
Definition emit {N E} (e : E) : M (mem N E) unit :=
  λ w, Done tt (Mem (cells w) (brk w) (trace w ++ [e])).
(** a bound on the length of any list of distinct live addresses: the fuel of
    the pointer-chasing loops *)
Definition fuel_of {N E} (w : mem N E) : nat := Pos.to_nat (brk w).
Definition get_fuel {N E} : M (mem N E) nat := λ w, Done (fuel_of w) w.

(** Only addresses below [brk] are live. *)
Definition mem_ok {N E} (w : mem N E) : Prop := ∀ p, is_Some (cells w !! p) → (p < brk w)%positive.

Definition alter_opt {N} (o : option ptr) (f : N → N) (h : gmap ptr N) : gmap ptr N :=
  match o with Some p => alter f p h | None => h end.

(** [f] sees the same things at the addresses [l] of two heaps. *)
Definition agree {N X} (f : N → X) (h h' : gmap ptr N) (l : list ptr) : Prop :=
  ∀ p, p ∈ l → f <$> h' !! p = f <$> h !! p.

(** ** Run equations *)

Section run.
Context {N E : Type}.
Implicit Types (w : mem N E) (p : ptr) (h : gmap ptr N).

Lemma bind_Done {W A B} (m : M W A) (k : A → M W B) (w : W) a (w' : W) :
  m w = Done a w' → bind m k w = k a w'.
Proof. unfold bind. by intros ->. Qed.

Lemma bind_assoc {W A B C} (m : M W A) (k : A → M W B) (k' : B → M W C) (w : W) :
  bind (bind m k) k' w = bind m (λ x, bind (k x) k') w.
Proof. unfold bind. by destruct (m w). Qed.

Lemma load_Done p w n : cells w !! p = Some n → load p w = Done n w.
Proof. unfold load. by intros ->. Qed.

Lemma store_Done p f w : is_Some (cells w !! p) → store p f w = Done tt (with_cells (alter f p) w).
Proof. unfold store. by intros [? ->]. Qed.

Lemma store_opt_Done o f w :
  (∀ p, o = Some p → is_Some (cells w !! p)) →
  store_opt o f w = Done tt (with_cells (alter_opt o f) w).
Proof.
  destruct o as [p|]; simpl; intros H.
  - by apply store_Done, H.
  - unfold ret, with_cells. by destruct w.
Qed.

Lemma store_or_Done {A} o f (a a0 : A) w :
  (∀ p, o = Some p → is_Some (cells w !! p)) →
  store_or o f a a0 w =
    Done (match o with Some _ => a | None => a0 end) (with_cells (alter_opt o f) w).
Proof.
  destruct o as [p|]; simpl; intros H.
  - by rewrite (bind_Done _ _ _ _ _ (store_Done _ f _ (H p eq_refl))).
  - unfold ret, with_cells. by destruct w.
Qed.

Lemma free_Done p w : is_Some (cells w !! p) → free p w = Done tt (with_cells (delete p) w).
Proof. unfold free. by intros [? ->]. Qed.

Lemma lookup_alter_opt_ne o (f : N → N) h p :
  o ≠ Some p → alter_opt o f h !! p = h !! p.
Proof. destruct o as [q|]; simpl; [|done]. intros. apply lookup_alter_ne. congruence. Qed.

Lemma is_Some_alter_opt o (f : N → N) h p : is_Some (alter_opt o f h !! p) ↔ is_Some (h !! p).
Proof. destruct o; simpl; [|done]. by rewrite lookup_alter_is_Some. Qed.

Lemma alter_opt_proj {X} (g : N → X) o f h p :
  (∀ n, g (f n) = g n) → g <$> alter_opt o f h !! p = g <$> h !! p.
Proof.
  intros Hg. destruct o as [q|]; simpl; [|done]. rewrite lookup_alter.
  case_decide; subst; [|done]. destruct (h !! p); simpl; by rewrite ?Hg.
Qed.

(** *** Agreement of heaps *)

Lemma agree_refl {X} (f : N → X) h l : agree f h h l.
Proof. by intros p ?. Qed.

Lemma agree_trans {X} (f : N → X) h1 h2 h3 l : agree f h1 h2 l → agree f h2 h3 l → agree f h1 h3 l.
Proof. intros H1 H2 p Hp. rewrite (H2 p Hp). by apply H1. Qed.

Lemma agree_sym {X} (f : N → X) h1 h2 l : agree f h1 h2 l → agree f h2 h1 l.
Proof. intros H p Hp. symmetry. by apply H. Qed.

Lemma agree_subset {X} (f : N → X) h1 h2 l l' :
  (∀ p, p ∈ l' → p ∈ l) → agree f h1 h2 l → agree f h1 h2 l'.
Proof. intros Hs H p Hp. apply H. by apply Hs. Qed.

Lemma agree_alter_opt {X} (f : N → X) o g h l : (∀ n, f (g n) = f n) → agree f h (alter_opt o g h) l.
Proof. intros Hg p _. by apply alter_opt_proj. Qed.

Lemma agree_alter {X} (f : N → X) q g h l : (∀ n, f (g n) = f n) → agree f h (alter g q h) l.
Proof. apply (agree_alter_opt f (Some q)). Qed.

Lemma agree_insert {X} (f : N → X) q n h l : q ∉ l → agree f h (<[q:=n]> h) l.
Proof. intros Hq p Hp. rewrite lookup_insert_ne; [done|]. by intros ->. Qed.

Lemma agree_delete {X} (f : N → X) q h l : q ∉ l → agree f h (delete q h) l.
Proof. intros Hq p Hp. rewrite lookup_delete_ne; [done|]. by intros ->. Qed.

Lemma agree_lookup {X} (f : N → X) h h' l p x :
  agree f h h' l → p ∈ l → f <$> h !! p = Some x → f <$> h' !! p = Some x.
Proof. intros H Hp <-. by apply H. Qed.

Lemma agree_id h h' l (X : Type) (f : N → X) : agree id h h' l → agree f h h' l.
Proof.
  intros H p Hp. specialize (H p Hp). rewrite !option_fmap_id in H. by rewrite H.
Qed.

End run.

(** [agree] through a stack of writes to fields the view does not see *)
Ltac solve_agree :=
  repeat first
    [ apply agree_refl
    | eapply agree_trans; [|apply agree_alter_opt; reflexivity]
    | eapply agree_trans; [|apply agree_alter; reflexivity] ].

(** ** Lists *)

Section lists.
Context {A : Type}.
Implicit Types l : list A.

Lemma nodup_middle l1 l2 (p : A) : NoDup (l1 ++ p :: l2) → (p ∉ l1) ∧ (p ∉ l2) ∧ NoDup (l1 ++ l2).
Proof.
  intros (H1 & H2 & H3)%NoDup_app. apply NoDup_cons in H3 as [H3 H4].
  split; [|split]; [|done|].
  - intros Hp. apply (H2 p Hp). left.
  - apply NoDup_app. split; [done|]. split; [|done]. intros x Hx Hx2. apply (H2 x Hx). by right.
Qed.

Lemma insert_middle i l1 l2 (x y : A) : i = length l1 → <[i := y]> (l1 ++ x :: l2) = l1 ++ y :: l2.
Proof. intros ->. rewrite <-(Nat.add_0_r (length l1)). by rewrite insert_app_r. Qed.

(** An injection of a duplicate-free list of addresses below [b] bounds its length. *)
Lemma length_lt_brk (l : list ptr) (b : ptr) :
  NoDup l → (∀ p, p ∈ l → (p < b)%positive) → (length l < Pos.to_nat b)%nat.
Proof.
  intros Hnd Hlt.
  assert (Hsub : (Pos.to_nat <$> l) ⊆+ seq 1 (Pos.to_nat b - 1)).
  { apply NoDup_submseteq; [by apply NoDup_fmap_2; [apply _|]|].
    intros x (p & -> & Hp)%list_elem_of_fmap. apply elem_of_seq. specialize (Hlt p Hp). lia. }
  apply submseteq_length in Hsub. rewrite length_fmap, length_seq in Hsub. lia.
Qed.

End lists.

(** a decidable statement without variables *)
Ltac vm_decide := refine (bool_decide_eq_true_1 _ _); vm_compute; reflexivity.
