(* ===== verification/DList.v ===== *)
(** * Doubly linked lists in memory

    The pointer structure that [zend_hash.c] (twice: the global list of a table
    and the chain of a slot) and [zend_llist.c] share.  A node type says by an
    instance of [Linked] which two of its fields are the links; [seg] describes
    a segment of such a list by the sequence of its addresses, and the lemmas
    are those of unlinking a node and of linking a new one. *)

From S2P Require Import Prelude.

(** ** Links and segments *)

Class Linked (N : Type) := {
  nx : N → option ptr;
  pv : N → option ptr;
  set_nx : option ptr → N → N;
  set_pv : option ptr → N → N;
  nx_set_nx o n : nx (set_nx o n) = o;
  nx_set_pv o n : nx (set_pv o n) = nx n;
  pv_set_pv o n : pv (set_pv o n) = o;
  pv_set_nx o n : pv (set_nx o n) = pv n;
}.

Definition lnk {N} (L : Linked N) (n : N) : option ptr * option ptr := (pv n, nx n).

Definition head_or (l : list ptr) (d : option ptr) : option ptr :=
  match l with [] => d | q :: _ => Some q end.
Fixpoint last_or (l : list ptr) (d : option ptr) : option ptr :=
  match l with [] => d | q :: l' => last_or l' (Some q) end.

(** [seg L h prev l next]: in heap [h] the nodes [l] are linked in this order,
    the first one's back link is [prev] and the last one's forward link [next]. *)
Fixpoint seg {N} (L : Linked N) (h : gmap ptr N) (prev : option ptr) (l : list ptr)
    (next : option ptr) : Prop :=
  match l with
  | [] => True
  | p :: l' => lnk L <$> h !! p = Some (prev, head_or l' next) ∧ seg L h (Some p) l' next
  end.

(** A search along the forward links from [p], with fuel: the address of the
    first node for which [test] answers [Some true]. *)
Fixpoint search_from {N E} (L : Linked N) (test : N → option bool) (fuel : nat)
    (p : option ptr) : M (mem N E) (option ptr) :=
  match p with
  | None => ret None
  | Some q =>
      match fuel with
      | O => stuck
      | S fuel' =>
          bind (load q) (λ n,
          bind (of_option (test n)) (λ b : bool,
          if b then ret (Some q) else search_from L test fuel' (nx n)))
      end
  end.

(** ** Lemmas *)

Section lemmas.
Context {N : Type} (L : Linked N).
Implicit Types (h : gmap ptr N) (l : list ptr) (prev next : option ptr).

Lemma head_or_None l : head_or l None = head l.
Proof. by destruct l. Qed.

Lemma last_or_snoc l p d : last_or (l ++ [p]) d = Some p.
Proof. revert d. by induction l as [|q l IH]; simpl. Qed.

Lemma last_or_last l d : last_or l d = match last l with Some q => Some q | None => d end.
Proof.
  destruct l as [|p l _] using rev_ind; [done|]. by rewrite last_or_snoc, last_snoc.
Qed.

Lemma last_or_None l : last_or l None = last l.
Proof. rewrite last_or_last. by destruct (last l). Qed.

Lemma head_or_app l1 l2 d : head_or (l1 ++ l2) d = head_or l1 (head_or l2 d).
Proof. by destruct l1. Qed.

Lemma last_or_app l1 l2 d : last_or (l1 ++ l2) d = last_or l2 (last_or l1 d).
Proof. revert d. induction l1 as [|p l1 IH]; simpl; auto. Qed.

Lemma seg_app h prev l1 l2 next :
  seg L h prev (l1 ++ l2) next ↔
  seg L h prev l1 (head_or l2 next) ∧ seg L h (last_or l1 prev) l2 next.
Proof.
  revert prev. induction l1 as [|p l1 IH]; intros prev; simpl; [tauto|].
  rewrite IH, head_or_app. tauto.
Qed.

Lemma seg_agree h h' prev l next :
  agree (lnk L) h h' l → seg L h prev l next → seg L h' prev l next.
Proof.
  revert prev. induction l as [|p l IH]; intros prev Hag; simpl; [done|].
  intros [Hp Hl]. split.
  - rewrite (Hag p); [done|left].
  - apply IH; [|done]. eapply agree_subset; [|done]. by right.
Qed.

Lemma seg_live h prev l next p : seg L h prev l next → p ∈ l → is_Some (h !! p).
Proof.
  revert prev. induction l as [|q l IH]; intros prev; simpl.
  - by intros _ ?%elem_of_nil.
  - intros [Hq Hl] [->|Hp]%elem_of_cons; [|by eapply IH].
    destruct (h !! q); [eauto|done].
Qed.

Lemma seg_middle h prev l1 p l2 next :
  seg L h prev (l1 ++ p :: l2) next →
  lnk L <$> h !! p = Some (last_or l1 prev, head_or l2 next).
Proof. by intros [_ [? _]]%seg_app. Qed.

Lemma seg_lookup h l i p :
  seg L h None l None → l !! i = Some p →
  lnk L <$> h !! p = Some (match i with O => None | S j => l !! j end, l !! S i).
Proof.
  intros Hs Hi. rewrite <-(take_drop_middle l i p Hi) in Hs.
  rewrite (seg_middle _ _ _ _ _ _ Hs), last_or_None, head_or_None.
  pose proof (lookup_lt_Some _ _ _ Hi) as Hlt. f_equal. f_equal.
  - rewrite last_lookup, length_take_le by lia. destruct i as [|j]; [done|].
    simpl. apply lookup_take_lt. lia.
  - rewrite head_lookup, lookup_drop. f_equal. lia.
Qed.

(** *** Writing one link *)

Lemma seg_alter_other h o f prev l next :
  (∀ p, o = Some p → p ∉ l) → seg L h prev l next → seg L (alter_opt o f h) prev l next.
Proof.
  intros Ho. apply seg_agree. intros p Hp. rewrite lookup_alter_opt_ne; [done|].
  intros ->. by apply (Ho p).
Qed.

Lemma seg_alter_last h prev l next x :
  NoDup l → seg L h prev l next → seg L (alter_opt (last l) (set_nx x) h) prev l x.
Proof.
  destruct l as [|p l _] using rev_ind; [done|]. rewrite last_snoc. cbn [alter_opt].
  intros (_ & Hp & _)%NoDup_app [Hl [Hs _]]%seg_app. apply seg_app. simpl. split.
  - apply (seg_alter_other h (Some p)); [|done]. intros ? [= <-] Hin. apply (Hp p Hin). left.
  - split; [|done]. rewrite lookup_alter_eq. destruct (h !! p) as [n|]; simpl in *; [|done].
    unfold lnk in *. rewrite pv_set_nx, nx_set_nx. congruence.
Qed.

Lemma seg_alter_head h prev l next x :
  NoDup l → seg L h prev l next → seg L (alter_opt (head l) (set_pv x) h) x l next.
Proof.
  destruct l as [|p l]; [done|]. simpl. intros [Hp _]%NoDup_cons [Hs Hl]. split.
  - rewrite lookup_alter_eq. destruct (h !! p) as [n|]; simpl in *; [|done].
    unfold lnk in *. rewrite pv_set_pv, nx_set_pv. congruence.
  - apply (seg_alter_other h (Some p)); [|done]. by intros ? [= <-].
Qed.

(** *** Unlinking and linking *)

(** Neighbours of [p] take over its links. *)
Lemma seg_unlink h l1 p l2 :
  NoDup (l1 ++ p :: l2) → seg L h None (l1 ++ p :: l2) None →
  seg L (alter_opt (head l2) (set_pv (last l1)) (alter_opt (last l1) (set_nx (head l2)) h))
    None (l1 ++ l2) None.
Proof.
  intros Hnd Hs. pose proof Hnd as (Hp1 & Hp2 & _)%nodup_middle.
  pose proof Hnd as (Hn1 & H12 & [_ Hn2]%NoDup_cons)%NoDup_app.
  apply seg_app in Hs as [Hs1 [_ Hs2]]. apply seg_app.
  rewrite last_or_None, head_or_None. split.
  - apply seg_alter_other; [|by eapply seg_alter_last].
    intros q Hq Hin. apply (H12 q Hin). right. by apply head_Some_elem_of.
  - eapply seg_alter_head; [done|]. apply seg_alter_other; [|exact Hs2].
    intros q Hq%last_Some_elem_of Hin. apply (H12 q Hq). by right.
Qed.

(** A node [p] that already points at its neighbours is linked between them. *)
Lemma seg_link h l1 p l2 :
  NoDup (l1 ++ p :: l2) → seg L h None (l1 ++ l2) None →
  lnk L <$> h !! p = Some (last l1, head l2) →
  seg L (alter_opt (head l2) (set_pv (Some p)) (alter_opt (last l1) (set_nx (Some p)) h))
    None (l1 ++ p :: l2) None.
Proof.
  intros Hnd Hs Hp. pose proof Hnd as (Hp1 & Hp2 & _)%nodup_middle.
  pose proof Hnd as (Hn1 & H12 & [_ Hn2]%NoDup_cons)%NoDup_app.
  apply seg_app in Hs as [Hs1 Hs2]. rewrite head_or_None in Hs1. rewrite last_or_None in Hs2.
  apply seg_app. simpl. rewrite last_or_None, head_or_None. repeat split.
  - apply seg_alter_other; [|by eapply seg_alter_last].
    intros q Hq%head_Some_elem_of Hin. apply (H12 q Hin). by right.
  - rewrite !lookup_alter_opt_ne; [done| |].
    + intros Hq%last_Some_elem_of. done.
    + intros Hq%head_Some_elem_of. done.
  - eapply seg_alter_head; [done|]. apply seg_alter_other; [|exact Hs2].
    intros q Hq%last_Some_elem_of Hin. apply (H12 q Hq). by right.
Qed.

(** *** At the ends *)

Lemma seg_link_head h p l :
  NoDup (p :: l) → seg L h None l None → lnk L <$> h !! p = Some (None, head l) →
  seg L (alter_opt (head l) (set_pv (Some p)) h) None (p :: l) None.
Proof. apply (seg_link h [] p l). Qed.

Lemma seg_link_tail h p l :
  NoDup (l ++ [p]) → seg L h None l None → lnk L <$> h !! p = Some (last l, None) →
  seg L (alter_opt (last l) (set_nx (Some p)) h) None (l ++ [p]) None.
Proof. intros Hnd Hs. apply (seg_link h l p []); [done|]. by rewrite app_nil_r. Qed.

(** *** Searching *)

Lemma search_from_spec {E} (w : mem N E) test (P : ptr → bool) fuel prev l :
  seg L (cells w) prev l None →
  (∀ p, p ∈ l → ∃ n, cells w !! p = Some n ∧ test n = Some (P p)) →
  (length l ≤ fuel)%nat →
  search_from L test fuel (head l) w = Done (list_find (λ p, P p) l ≫= λ x, Some x.2) w.
Proof.
  revert prev fuel. induction l as [|p l IH]; intros prev fuel Hs HP Hfuel; [by destruct fuel|].
  destruct fuel as [|fuel]; simpl in *; [lia|]. destruct Hs as [Hp Hs].
  destruct (HP p) as (n & Hn & Ht); [left|]. rewrite Hn in Hp. unfold lnk in Hp. simplify_eq/=.
  rewrite (bind_Done _ _ _ _ _ (load_Done _ _ _ Hn)), Ht. simpl. unfold bind, ret at 1.
  destruct (P p) eqn:HPp; simpl.
  - done.
  - assert (nx n = head l) as -> by (rewrite <-head_or_None; congruence).
    rewrite (IH (Some p)); [|done| |lia].
    + unfold ret. by destruct (list_find _ l) as [[]|].
    + intros q Hq. apply HP. by right.
Qed.

End lemmas.
