(* ===== verification/HashModel.v ===== *)
(** * [Zend/zend_hash.c], [Zend/zend_hash.h]: the hash table, operation by operation

    A [HashTable] is a record of the C structure's fields; its buckets are
    objects of a shared memory [mem (Bucket V) (event V)] and refer to each
    other by address, so that several tables live in one memory and a freed
    bucket that is still referenced makes an operation [Stuck].  [V] is the
    content of the data area of a bucket. *)

From S2P Require Import Prelude DList.
Local Open Scope Z_scope.
Local Open Scope effect_scope.

(** ** Keys

    A [const char *arKey]: the pointer is compared as a pointer and its bytes
    are compared with [memcmp], so both are kept.  Interned strings are unique
    per content; the key of a bucket that is not interned is stored right after
    the bucket, at [p + 1]; a caller's buffer is at an address of its own. *)
Inductive kptr : Type :=
| KNull
| KInterned (s : bytes)
| KOwn (p : ptr) (s : bytes)
| KExt (a : Z) (s : bytes)
| KUndef.

Definition kbytes (k : kptr) : option bytes :=
  match k with
  | KInterned s | KOwn _ s | KExt _ s => Some s
  | KNull | KUndef => None
  end.

(** [k1 == k2]; [None] when a pointer is indeterminate. *)
Definition ptr_eq (k1 k2 : kptr) : option bool :=
  match k1, k2 with
  | KUndef, _ | _, KUndef => None
  | KNull, KNull => Some true
  | KInterned s, KInterned t => Some (bool_decide (s = t))
  | KOwn p _, KOwn q _ => Some (bool_decide (p = q))
  | KExt a _, KExt b _ => Some (a =? b)
  | _, _ => Some false
  end.

(** the first [n] bytes at [k] *)
Definition read_bytes (k : kptr) (n : Z) : option bytes :=
  if n =? 0 then Some []
  else match kbytes k with
       | Some s => if n <=? Z.of_nat (length s) then Some (take (Z.to_nat n) s) else None
       | None => None
       end.

Definition memcmp_keys (k1 k2 : kptr) (n : Z) : option Z :=
  match read_bytes k1 n, read_bytes k2 n with
  | Some s, Some t => Some (memcmp s t)
  | _, _ => None
  end.

Definition IS_INTERNED (k : kptr) : option bool :=
  match k with KInterned _ => Some true | KUndef => None | _ => Some false end.

(** ** The hash function (DJBX33A) *)

Definition hash_step (hash : Z) (c : Byte.byte) : Z :=
  u64 (u64 (u64 (Z.shiftl hash 5) + hash) + schar c).

(** the [switch (nKeyLength)] and its fall-through cases *)
Fixpoint hash_switch (hash : Z) (arKey : bytes) {struct arKey} : Z :=
  match arKey with
  | [] => hash
  | c :: arKey' => hash_switch (hash_step hash c) arKey'
  end.

(** one round of the unrolled loop *)
Definition hash_round (hash : Z) (c0 c1 c2 c3 c4 c5 c6 c7 : Byte.byte) : Z :=
  let hash := hash_step hash c0 in
  let hash := hash_step hash c1 in
  let hash := hash_step hash c2 in
  let hash := hash_step hash c3 in
  let hash := hash_step hash c4 in
  let hash := hash_step hash c5 in
  let hash := hash_step hash c6 in
  hash_step hash c7.

(** the loop unrolled eight times *)
Fixpoint hash_unrolled (hash : Z) (arKey : bytes) {struct arKey} : Z :=
  match arKey with
  | c0 :: c1 :: c2 :: c3 :: c4 :: c5 :: c6 :: c7 :: arKey' =>
      hash_unrolled (hash_round hash c0 c1 c2 c3 c4 c5 c6 c7) arKey'
  | _ => hash_switch hash arKey
  end.

Definition zend_inline_hash_func (arKey : bytes) : Z := hash_unrolled 5381 arKey.
Definition zend_hash_func (arKey : bytes) : Z := zend_inline_hash_func arKey.

(** ** Buckets *)

(** [p->pData] points at the inline slot [p->pDataPtr], or at a block. *)
Inductive data (V : Type) : Type :=
| AtDataPtr (v : V)
| AtBlock (v : V).
Arguments AtDataPtr {V} v.
Arguments AtBlock {V} v.

Definition data_val {V} (d : data V) : V := match d with AtDataPtr v | AtBlock v => v end.
Definition data_write {V} (v : V) (d : data V) : data V :=
  match d with AtDataPtr _ => AtDataPtr v | AtBlock _ => AtBlock v end.
Definition sizeof_ptr : Z := 8.
Definition INIT_DATA {V} (pData : V) (nDataSize : Z) : data V :=
  if nDataSize =? sizeof_ptr then AtDataPtr pData else AtBlock pData.
(** whatever the old area was, it is freed, allocated or reallocated to fit *)
Definition UPDATE_DATA {V} (old : data V) (pData : V) (nDataSize : Z) : data V :=
  if nDataSize =? sizeof_ptr then AtDataPtr pData
  else match old with AtDataPtr _ => AtBlock pData | AtBlock _ => AtBlock pData end.

Record Bucket (V : Type) : Type := MkBucket {
  b_h : Z;
  nKeyLength : Z;
  pData : data V;
  pListNext : option ptr;
  pListLast : option ptr;
  pNext : option ptr;
  pLast : option ptr;
  arKey : kptr
}.
Arguments MkBucket {V}.
Arguments b_h {V}. Arguments nKeyLength {V}. Arguments pData {V}. Arguments pListNext {V}.
Arguments pListLast {V}. Arguments pNext {V}. Arguments pLast {V}. Arguments arKey {V}.

Section setters.
Context {V : Type}.
Implicit Type b : Bucket V.
Definition set_b_h x b := MkBucket x (nKeyLength b) (pData b) (pListNext b) (pListLast b) (pNext b) (pLast b) (arKey b).
Definition set_nKeyLength x b := MkBucket (b_h b) x (pData b) (pListNext b) (pListLast b) (pNext b) (pLast b) (arKey b).
Definition set_pData (x : data V) b := MkBucket (b_h b) (nKeyLength b) x (pListNext b) (pListLast b) (pNext b) (pLast b) (arKey b).
Definition set_pListNext x b := MkBucket (b_h b) (nKeyLength b) (pData b) x (pListLast b) (pNext b) (pLast b) (arKey b).
Definition set_pListLast x b := MkBucket (b_h b) (nKeyLength b) (pData b) (pListNext b) x (pNext b) (pLast b) (arKey b).
Definition set_pNext x b := MkBucket (b_h b) (nKeyLength b) (pData b) (pListNext b) (pListLast b) x (pLast b) (arKey b).
Definition set_pLast x b := MkBucket (b_h b) (nKeyLength b) (pData b) (pListNext b) (pListLast b) (pNext b) x (arKey b).
Definition set_arKey x b := MkBucket (b_h b) (nKeyLength b) (pData b) (pListNext b) (pListLast b) (pNext b) (pLast b) x.
End setters.

(** the two lists a bucket is on *)
Definition glob {V} : Linked (Bucket V).
Proof. refine {| nx := pListNext; pv := pListLast; set_nx := set_pListNext; set_pv := set_pListLast |}; done. Defined.
Definition chain {V} : Linked (Bucket V).
Proof. refine {| nx := pNext; pv := pLast; set_nx := set_pNext; set_pv := set_pLast |}; done. Defined.

(** ** Tables *)

Record HashTable : Type := MkHashTable {
  nTableSize : Z;
  nTableMask : Z;
  nNumOfElements : Z;
  nNextFreeElement : Z;
  pInternalPointer : option ptr;
  pListHead : option ptr;
  pListTail : option ptr;
  arBuckets : list (option ptr);
  pDestructor : bool;
  persistent : bool;
  nApplyCount : Z;
  bApplyProtection : bool
}.

Definition set_nTableSize x t := MkHashTable x (nTableMask t) (nNumOfElements t) (nNextFreeElement t) (pInternalPointer t) (pListHead t) (pListTail t) (arBuckets t) (pDestructor t) (persistent t) (nApplyCount t) (bApplyProtection t).
Definition set_nTableMask x t := MkHashTable (nTableSize t) x (nNumOfElements t) (nNextFreeElement t) (pInternalPointer t) (pListHead t) (pListTail t) (arBuckets t) (pDestructor t) (persistent t) (nApplyCount t) (bApplyProtection t).
Definition set_nNumOfElements x t := MkHashTable (nTableSize t) (nTableMask t) x (nNextFreeElement t) (pInternalPointer t) (pListHead t) (pListTail t) (arBuckets t) (pDestructor t) (persistent t) (nApplyCount t) (bApplyProtection t).
Definition set_nNextFreeElement x t := MkHashTable (nTableSize t) (nTableMask t) (nNumOfElements t) x (pInternalPointer t) (pListHead t) (pListTail t) (arBuckets t) (pDestructor t) (persistent t) (nApplyCount t) (bApplyProtection t).
Definition set_pInternalPointer x t := MkHashTable (nTableSize t) (nTableMask t) (nNumOfElements t) (nNextFreeElement t) x (pListHead t) (pListTail t) (arBuckets t) (pDestructor t) (persistent t) (nApplyCount t) (bApplyProtection t).
Definition set_pListHead x t := MkHashTable (nTableSize t) (nTableMask t) (nNumOfElements t) (nNextFreeElement t) (pInternalPointer t) x (pListTail t) (arBuckets t) (pDestructor t) (persistent t) (nApplyCount t) (bApplyProtection t).
Definition set_pListTail x t := MkHashTable (nTableSize t) (nTableMask t) (nNumOfElements t) (nNextFreeElement t) (pInternalPointer t) (pListHead t) x (arBuckets t) (pDestructor t) (persistent t) (nApplyCount t) (bApplyProtection t).
Definition set_arBuckets x t := MkHashTable (nTableSize t) (nTableMask t) (nNumOfElements t) (nNextFreeElement t) (pInternalPointer t) (pListHead t) (pListTail t) x (pDestructor t) (persistent t) (nApplyCount t) (bApplyProtection t).
Definition set_nApplyCount x t := MkHashTable (nTableSize t) (nTableMask t) (nNumOfElements t) (nNextFreeElement t) (pInternalPointer t) (pListHead t) (pListTail t) (arBuckets t) (pDestructor t) (persistent t) x (bApplyProtection t).
Definition set_bApplyProtection x t := MkHashTable (nTableSize t) (nTableMask t) (nNumOfElements t) (nNextFreeElement t) (pInternalPointer t) (pListHead t) (pListTail t) (arBuckets t) (pDestructor t) (persistent t) (nApplyCount t) x.

(** [static const Bucket *uninitialized_bucket = NULL;], an array of one slot *)
Definition uninitialized_bucket : list (option ptr) := [None].

Definition HASH_UPDATE : Z := Z.shiftl 1 0.
Definition HASH_ADD : Z := Z.shiftl 1 1.
Definition HASH_NEXT_INSERT : Z := Z.shiftl 1 2.
Definition HASH_DEL_KEY : Z := 0.
Definition HASH_DEL_INDEX : Z := 1.
Definition HASH_DEL_KEY_QUICK : Z := 2.
Definition HASH_KEY_IS_STRING : Z := 1.
Definition HASH_KEY_IS_LONG : Z := 2.
Definition HASH_KEY_NON_EXISTENT : Z := 3.
Definition HASH_UPDATE_KEY_IF_NONE : Z := 0.
Definition HASH_UPDATE_KEY_IF_BEFORE : Z := 1.
Definition HASH_UPDATE_KEY_IF_AFTER : Z := 2.
Definition HASH_UPDATE_KEY_ANYWAY : Z := 3.
Definition ZEND_HASH_APPLY_KEEP : Z := 0.
Definition ZEND_HASH_APPLY_REMOVE : Z := Z.shiftl 1 0.
Definition ZEND_HASH_APPLY_STOP : Z := Z.shiftl 1 1.

(** [flag & F] as a condition *)
Definition flag_set (flag f : Z) : bool := negb (Z.land flag f =? 0).

(** What callbacks were called with. *)
Inductive event (V : Type) : Type :=
| EvDtor (v : V)
| EvCopy (v : V).
Arguments EvDtor {V} v.
Arguments EvCopy {V} v.

Record zend_hash_key : Type := MkKey { k_arKey : kptr; k_nKeyLength : Z; k_h : Z }.

(** ** Operations *)

Section operations.
Context {V : Type}.
Implicit Types (ht : HashTable) (b : Bucket V) (p q : ptr).
Abbreviation HM := (M (mem (Bucket V) (event V))).

(** *** Macros *)

(** [ht->arBuckets[i]] and [ht->arBuckets[i] = x] *)
Definition rd_slot ht (i : Z) : HM (option ptr) := of_option (arBuckets ht !! Z.to_nat i).
Definition wr_slot ht (i : Z) (x : option ptr) : HM HashTable :=
  if decide (Z.to_nat i < length (arBuckets ht))%nat
  then ret (set_arBuckets (<[Z.to_nat i := x]> (arBuckets ht)) ht)
  else stuck.

Definition CONNECT_TO_BUCKET_DLLIST (element : ptr) (list_head : option ptr) : HM unit :=
  store element (set_pNext list_head) ;;;
  store element (set_pLast None) ;;;
  store_opt list_head (set_pLast (Some element)).

Definition CONNECT_TO_GLOBAL_DLLIST_EX (element : ptr) ht (last next : option ptr) : HM HashTable :=
  store element (set_pListLast last) ;;;
  store element (set_pListNext next) ;;;
  let! ht := store_or last (set_pListNext (Some element)) ht (set_pListHead (Some element) ht) in
  store_or next (set_pListLast (Some element)) ht (set_pListTail (Some element) ht).

Definition CONNECT_TO_GLOBAL_DLLIST (element : ptr) ht : HM HashTable :=
  let! ht := CONNECT_TO_GLOBAL_DLLIST_EX element ht (pListTail ht) None in
  ret (match pInternalPointer ht with
       | None => set_pInternalPointer (Some element) ht
       | Some _ => ht
       end).

(** [zend_error(E_ERROR, ...)] does not return. *)
Definition HASH_PROTECT_RECURSION ht : HM HashTable :=
  if bApplyProtection ht then
    if nApplyCount ht >=? 3 then bailout
    else ret (set_nApplyCount (u8 (nApplyCount ht + 1)) ht)
  else ret ht.

Definition HASH_UNPROTECT_RECURSION ht : HashTable :=
  if bApplyProtection ht then set_nApplyCount (u8 (nApplyCount ht - 1)) ht else ht.

Definition memset_arBuckets ht : HashTable :=
  set_arBuckets (replicate (Z.to_nat (nTableSize ht)) None) ht.

Definition CHECK_INIT ht : HashTable :=
  if nTableMask ht =? 0
  then set_nTableMask (u32 (nTableSize ht - 1)) (memset_arBuckets ht)
  else ht.

(** [if (ht->pDestructor) ht->pDestructor(p->pData)] *)
Definition call_dtor ht (v : V) : HM unit :=
  if pDestructor ht then emit (EvDtor v) else ret tt.

(** *** Creation *)

(** [while ((1U << i) < nSize) i++;] *)
Fixpoint init_shift (fuel : nat) (i nSize : Z) : Z :=
  match fuel with
  | O => i
  | S fuel' => if u32 (Z.shiftl 1 i) <? nSize then init_shift fuel' (i + 1) nSize else i
  end.

Definition _zend_hash_init (nSize : Z) (pDestructor persistent : bool) : HashTable :=
  let nTableSize :=
    if nSize >=? 2 ^ 31 then 2 ^ 31 else u32 (Z.shiftl 1 (init_shift 32 3 nSize)) in
  {| nTableSize := nTableSize;
     nTableMask := 0;
     nNumOfElements := 0;
     nNextFreeElement := 0;
     pInternalPointer := None;
     pListHead := None;
     pListTail := None;
     arBuckets := uninitialized_bucket;
     pDestructor := pDestructor;
     persistent := persistent;
     nApplyCount := 0;
     bApplyProtection := true |}.

Definition _zend_hash_init_ex (nSize : Z) (pDestructor persistent bApplyProtection : bool) : HashTable :=
  set_bApplyProtection bApplyProtection (_zend_hash_init nSize pDestructor persistent).

Definition zend_hash_set_apply_protection ht (bApplyProtection : bool) : HashTable :=
  set_bApplyProtection bApplyProtection ht.

(** *** Growing *)

Fixpoint rehash_loop (fuel : nat) ht (p : option ptr) : HM HashTable :=
  match p with
  | None => ret ht
  | Some p =>
      match fuel with
      | O => stuck
      | S fuel' =>
          let! b := load p in
          let nIndex := Z.land (b_h b) (nTableMask ht) in
          let! list_head := rd_slot ht nIndex in
          CONNECT_TO_BUCKET_DLLIST p list_head ;;;
          let! ht := wr_slot ht nIndex (Some p) in
          rehash_loop fuel' ht (pListNext b)
      end
  end.

Definition zend_hash_rehash ht : HM HashTable :=
  if nNumOfElements ht =? 0 then ret ht
  else
    let! fuel := get_fuel in
    rehash_loop fuel (memset_arBuckets ht) (pListHead ht).

Fixpoint reindex_loop (fuel : nat) (only_integer_keys : bool) ht (offset : Z) (p : option ptr)
    : HM (HashTable * Z) :=
  match p with
  | None => ret (ht, offset)
  | Some p =>
      match fuel with
      | O => stuck
      | S fuel' =>
          let! b := load p in
          let! offset :=
            (if negb only_integer_keys || (nKeyLength b =? 0)
             then store p (set_b_h offset) ;;; store p (set_nKeyLength 0) ;;; ret (u64 (offset + 1))
             else ret offset) in
          let! b := load p in
          let nIndex := Z.land (b_h b) (nTableMask ht) in
          let! list_head := rd_slot ht nIndex in
          CONNECT_TO_BUCKET_DLLIST p list_head ;;;
          let! ht := wr_slot ht nIndex (Some p) in
          reindex_loop fuel' only_integer_keys ht offset (pListNext b)
      end
  end.

Definition zend_hash_reindex ht (only_integer_keys : bool) : HM HashTable :=
  if nNumOfElements ht =? 0 then ret (set_nNextFreeElement 0 ht)
  else
    let! fuel := get_fuel in
    let! '(ht, offset) := reindex_loop fuel only_integer_keys (memset_arBuckets ht) 0 (pListHead ht) in
    ret (set_nNextFreeElement offset ht).

(** [perealloc] keeps the old slots; the new ones are indeterminate until
    [zend_hash_rehash] clears the array. *)
Definition zend_hash_do_resize ht : HM HashTable :=
  if u32 (Z.shiftl (nTableSize ht) 1) >? 0 then
    let size := u32 (Z.shiftl (nTableSize ht) 1) in
    let ht := set_arBuckets (resize (Z.to_nat size) None (arBuckets ht)) ht in
    let ht := set_nTableSize size ht in
    let ht := set_nTableMask (u32 (nTableSize ht - 1)) ht in
    zend_hash_rehash ht
  else ret ht.

Definition ZEND_HASH_IF_FULL_DO_RESIZE ht : HM HashTable :=
  if nNumOfElements ht >? nTableSize ht then zend_hash_do_resize ht else ret ht.

(** *** Looking up *)

(** the condition of the loops over a chain that look for a string key *)
Definition string_test (key : kptr) (len h : Z) (b : Bucket V) : option bool :=
  match ptr_eq (arKey b) key with
  | None => None
  | Some true => Some true
  | Some false =>
      if (b_h b =? h) && (nKeyLength b =? len)
      then (λ c, c =? 0) <$> memcmp_keys (arKey b) key len
      else Some false
  end.

Definition index_test (h : Z) (b : Bucket V) : option bool :=
  Some ((b_h b =? h) && (nKeyLength b =? 0)).

(** [while (p != NULL) { if (test) ...; p = p->pNext; }] *)
Definition chain_search (test : Bucket V → option bool) (p : option ptr) : HM (option ptr) :=
  let! fuel := get_fuel in
  search_from chain test fuel p.

(** The results [Some p] and [None] of the find functions stand for [SUCCESS]
    with [*pData = p->pData], and [FAILURE]. *)
Definition zend_hash_quick_find ht (key : kptr) (len h : Z) : HM (option ptr) :=
  let nIndex := Z.land h (nTableMask ht) in
  let! p := rd_slot ht nIndex in
  chain_search (string_test key len h) p.

Definition zend_hash_find ht (key : kptr) (len : Z) : HM (option ptr) :=
  let! s := of_option (read_bytes key len) in
  let h := zend_inline_hash_func s in
  let nIndex := Z.land h (nTableMask ht) in
  let! p := rd_slot ht nIndex in
  chain_search (string_test key len h) p.

Definition zend_hash_quick_exists ht (key : kptr) (len h : Z) : HM Z :=
  let nIndex := Z.land h (nTableMask ht) in
  let! p := rd_slot ht nIndex in
  let! r := chain_search (string_test key len h) p in
  ret (match r with Some _ => 1 | None => 0 end).

Definition zend_hash_exists ht (key : kptr) (len : Z) : HM Z :=
  let! s := of_option (read_bytes key len) in
  let h := zend_inline_hash_func s in
  let nIndex := Z.land h (nTableMask ht) in
  let! p := rd_slot ht nIndex in
  let! r := chain_search (string_test key len h) p in
  ret (match r with Some _ => 1 | None => 0 end).

Definition zend_hash_index_find ht (h : Z) : HM (option ptr) :=
  let nIndex := Z.land h (nTableMask ht) in
  let! p := rd_slot ht nIndex in
  chain_search (index_test h) p.

Definition zend_hash_index_exists ht (h : Z) : HM Z :=
  let nIndex := Z.land h (nTableMask ht) in
  let! p := rd_slot ht nIndex in
  let! r := chain_search (index_test h) p in
  ret (match r with Some _ => 1 | None => 0 end).

Definition zend_hash_num_elements ht : Z := nNumOfElements ht.
Definition zend_hash_next_free_element ht : Z := nNextFreeElement ht.

(** *** Adding and updating *)

(** the new bucket: its own copy of the key, or the interned key itself *)
Definition new_bucket (key : kptr) (s : bytes) (len h : Z) (d : data V) (interned : bool) (p : ptr) : Bucket V :=
  {| b_h := h; nKeyLength := len; pData := d; pListNext := None; pListLast := None;
     pNext := None; pLast := None; arKey := if interned then key else KOwn p s |}.

(** replacing the data of the bucket found, the same in the three functions *)
Definition update_found ht p (v : V) (nDataSize : Z) : HM (HashTable * Z * option ptr) :=
  let! b := load p in
  call_dtor ht (data_val (pData b)) ;;;
  store p (λ b, set_pData (UPDATE_DATA (pData b) v nDataSize) b) ;;;
  ret (ht, SUCCESS, Some p).

(** The third component of the result is the bucket whose [pData] is stored in
    [*pDest]; it is [None] when [*pDest] is not written. *)
Definition _zend_hash_add_or_update ht (key : kptr) (len : Z) (v : V) (nDataSize flag : Z)
    : HM (HashTable * Z * option ptr) :=
  let ht := CHECK_INIT ht in
  let! s := of_option (read_bytes key len) in
  let h := zend_inline_hash_func s in
  let nIndex := Z.land h (nTableMask ht) in
  let! list_head := rd_slot ht nIndex in
  let! found := chain_search (string_test key len h) list_head in
  match found with
  | Some p =>
      if flag_set flag HASH_ADD then ret (ht, FAILURE, None)
      else update_found ht p v nDataSize
  | None =>
      let! interned := of_option (IS_INTERNED key) in
      let! p := alloc_with (new_bucket key s len h (INIT_DATA v nDataSize) interned) in
      let! list_head := rd_slot ht nIndex in
      CONNECT_TO_BUCKET_DLLIST p list_head ;;;
      let! ht := CONNECT_TO_GLOBAL_DLLIST p ht in
      let! ht := wr_slot ht nIndex (Some p) in
      let ht := set_nNumOfElements (u32 (nNumOfElements ht + 1)) ht in
      let! ht := ZEND_HASH_IF_FULL_DO_RESIZE ht in
      ret (ht, SUCCESS, Some p)
  end.

Definition _zend_hash_quick_add_or_update ht (key : kptr) (len h : Z) (v : V) (nDataSize flag : Z)
    : HM (HashTable * Z * option ptr) :=
  let ht := CHECK_INIT ht in
  let nIndex := Z.land h (nTableMask ht) in
  let! list_head := rd_slot ht nIndex in
  let! found := chain_search (string_test key len h) list_head in
  match found with
  | Some p =>
      if flag_set flag HASH_ADD then ret (ht, FAILURE, None)
      else update_found ht p v nDataSize
  | None =>
      let! interned := of_option (IS_INTERNED key) in
      let! s := of_option (read_bytes key len) in
      let! p := alloc_with (new_bucket key s len h (INIT_DATA v nDataSize) interned) in
      let! list_head := rd_slot ht nIndex in
      CONNECT_TO_BUCKET_DLLIST p list_head ;;;
      let! ht := wr_slot ht nIndex (Some p) in
      let! ht := CONNECT_TO_GLOBAL_DLLIST p ht in
      let ht := set_nNumOfElements (u32 (nNumOfElements ht + 1)) ht in
      let! ht := ZEND_HASH_IF_FULL_DO_RESIZE ht in
      ret (ht, SUCCESS, Some p)
  end.

Definition zend_hash_update ht key len v nDataSize :=
  _zend_hash_add_or_update ht key len v nDataSize HASH_UPDATE.
Definition zend_hash_add ht key len v nDataSize :=
  _zend_hash_add_or_update ht key len v nDataSize HASH_ADD.
Definition zend_hash_quick_update ht key len h v nDataSize :=
  _zend_hash_quick_add_or_update ht key len h v nDataSize HASH_UPDATE.
Definition zend_hash_quick_add ht key len h v nDataSize :=
  _zend_hash_quick_add_or_update ht key len h v nDataSize HASH_ADD.

(** [dummy] stands for [(void * ) 1]. *)
Definition zend_hash_add_empty_element ht (key : kptr) (len : Z) (dummy : V) : HM (HashTable * Z) :=
  let! '(ht, r, _) := zend_hash_add ht key len dummy sizeof_ptr in ret (ht, r).

Definition _zend_hash_index_update_or_next_insert ht (h : Z) (v : V) (nDataSize flag : Z)
    : HM (HashTable * Z * option ptr) :=
  let ht := CHECK_INIT ht in
  let h := if flag_set flag HASH_NEXT_INSERT then nNextFreeElement ht else h in
  let nIndex := Z.land h (nTableMask ht) in
  let! list_head := rd_slot ht nIndex in
  let! found := chain_search (index_test h) list_head in
  match found with
  | Some p =>
      if flag_set flag HASH_NEXT_INSERT || flag_set flag HASH_ADD then ret (ht, FAILURE, None)
      else update_found ht p v nDataSize
  | None =>
      let! p := alloc_with (new_bucket KNull [] 0 h (INIT_DATA v nDataSize) true) in
      let! list_head := rd_slot ht nIndex in
      CONNECT_TO_BUCKET_DLLIST p list_head ;;;
      let! ht := wr_slot ht nIndex (Some p) in
      let! ht := CONNECT_TO_GLOBAL_DLLIST p ht in
      let ht :=
        if s64 h >=? s64 (nNextFreeElement ht)
        then set_nNextFreeElement (if h <? LONG_MAX then h + 1 else LONG_MAX) ht
        else ht in
      let ht := set_nNumOfElements (u32 (nNumOfElements ht + 1)) ht in
      let! ht := ZEND_HASH_IF_FULL_DO_RESIZE ht in
      ret (ht, SUCCESS, Some p)
  end.

Definition zend_hash_index_update ht h v nDataSize :=
  _zend_hash_index_update_or_next_insert ht h v nDataSize HASH_UPDATE.
Definition zend_hash_next_index_insert ht v nDataSize :=
  _zend_hash_index_update_or_next_insert ht 0 v nDataSize HASH_NEXT_INSERT.

(** *** Deleting *)

Definition i_zend_hash_bucket_delete ht p : HM HashTable :=
  let! b := load p in
  let! ht :=
    (match pLast b with
     | Some q => store q (set_pNext (pNext b)) ;;; ret ht
     | None => wr_slot ht (Z.land (b_h b) (nTableMask ht)) (pNext b)
     end) in
  store_opt (pNext b) (set_pLast (pLast b)) ;;;
  let! ht := store_or (pListLast b) (set_pListNext (pListNext b)) ht (set_pListHead (pListNext b) ht) in
  let! ht := store_or (pListNext b) (set_pListLast (pListLast b)) ht (set_pListTail (pListLast b) ht) in
  let ht :=
    if decide (pInternalPointer ht = Some p) then set_pInternalPointer (pListNext b) ht else ht in
  let ht := set_nNumOfElements (u32 (nNumOfElements ht - 1)) ht in
  call_dtor ht (data_val (pData b)) ;;;
  free p ;;;
  ret ht.

Definition zend_hash_bucket_delete ht p : HM HashTable := i_zend_hash_bucket_delete ht p.

(** the condition of the loop of [zend_hash_del_key_or_index] *)
Definition del_test (key : kptr) (len h : Z) (b : Bucket V) : option bool :=
  if (b_h b =? h) && (nKeyLength b =? len) then
    if nKeyLength b =? 0 then Some true
    else (λ c, c =? 0) <$> memcmp_keys (arKey b) key len
  else Some false.

Definition zend_hash_del_key_or_index ht (key : kptr) (len h flag : Z) : HM (HashTable * Z) :=
  let! h :=
    (if flag =? HASH_DEL_KEY
     then let! s := of_option (read_bytes key len) in ret (zend_inline_hash_func s)
     else ret h) in
  let nIndex := Z.land h (nTableMask ht) in
  let! list_head := rd_slot ht nIndex in
  let! found := chain_search (del_test key len h) list_head in
  match found with
  | Some p => let! ht := i_zend_hash_bucket_delete ht p in ret (ht, SUCCESS)
  | None => ret (ht, FAILURE)
  end.

Definition zend_hash_del ht key len := zend_hash_del_key_or_index ht key len 0 HASH_DEL_KEY.
Definition zend_hash_quick_del ht key len h := zend_hash_del_key_or_index ht key len h HASH_DEL_KEY_QUICK.
Definition zend_hash_index_del ht h := zend_hash_del_key_or_index ht KNull 0 h HASH_DEL_INDEX.

(** the loop of [zend_hash_destroy] and [zend_hash_clean] over the global list *)
Fixpoint destroy_loop (fuel : nat) ht (p : option ptr) : HM unit :=
  match p with
  | None => ret tt
  | Some q =>
      match fuel with
      | O => stuck
      | S fuel' =>
          let! b := load q in
          call_dtor ht (data_val (pData b)) ;;;
          free q ;;;
          destroy_loop fuel' ht (pListNext b)
      end
  end.

Definition zend_hash_destroy ht : HM unit :=
  let! fuel := get_fuel in
  destroy_loop fuel ht (pListHead ht).

Definition zend_hash_clean ht : HM HashTable :=
  let p := pListHead ht in
  let ht := if nTableMask ht =? 0 then ht else memset_arBuckets ht in
  let ht := set_pListHead None ht in
  let ht := set_pListTail None ht in
  let ht := set_nNumOfElements 0 ht in
  let ht := set_nNextFreeElement 0 ht in
  let ht := set_pInternalPointer None ht in
  let! fuel := get_fuel in
  destroy_loop fuel ht p ;;;
  ret ht.

(** [while (end(ht) != NULL) zend_hash_bucket_delete(ht, end(ht));] *)
Fixpoint graceful_loop (fuel : nat) (end_of : HashTable → option ptr) ht : HM HashTable :=
  match end_of ht with
  | None => ret ht
  | Some p =>
      match fuel with
      | O => stuck
      | S fuel' => let! ht := zend_hash_bucket_delete ht p in graceful_loop fuel' end_of ht
      end
  end.

(** The array of slots is freed and the table is not used any more. *)
Definition zend_hash_graceful_destroy ht : HM unit :=
  let! fuel := get_fuel in
  graceful_loop fuel pListHead ht ;;;
  ret tt.

Definition zend_hash_graceful_reverse_destroy ht : HM unit :=
  let! fuel := get_fuel in
  graceful_loop fuel pListTail ht ;;;
  ret tt.

(** *** Applying a function to the elements

    A callback gets the state [a] it shares with its caller, the key and the
    data; it returns the new state, the data as it leaves it, and its result. *)
Definition callback (A : Type) : Type := A → zend_hash_key → V → A * V * Z.

Fixpoint apply_loop {A} (step : Bucket V → option ptr) (apply_func : callback A) (fuel : nat)
    (a : A) ht (p : option ptr) : HM (A * HashTable) :=
  match p with
  | None => ret (a, ht)
  | Some p =>
      match fuel with
      | O => stuck
      | S fuel' =>
          let! b := load p in
          let '(a, v, result) :=
            apply_func a (MkKey (arKey b) (nKeyLength b) (b_h b)) (data_val (pData b)) in
          store p (λ b, set_pData (data_write v (pData b)) b) ;;;
          let! b := load p in
          let p_next := step b in
          let! ht :=
            (if flag_set result ZEND_HASH_APPLY_REMOVE then zend_hash_bucket_delete ht p else ret ht) in
          if flag_set result ZEND_HASH_APPLY_STOP then ret (a, ht)
          else apply_loop step apply_func fuel' a ht p_next
      end
  end.

Definition zend_hash_apply {A} ht (apply_func : A → V → A * V * Z) (a : A) : HM (A * HashTable) :=
  let! ht := HASH_PROTECT_RECURSION ht in
  let! fuel := get_fuel in
  let! '(a, ht) := apply_loop pListNext (λ a _ v, apply_func a v) fuel a ht (pListHead ht) in
  ret (a, HASH_UNPROTECT_RECURSION ht).

(** [argument] points at an object that the callback may change. *)
Definition zend_hash_apply_with_argument {A} ht (apply_func : V → A → A * V * Z) (argument : A)
    : HM (A * HashTable) :=
  let! ht := HASH_PROTECT_RECURSION ht in
  let! fuel := get_fuel in
  let! '(a, ht) := apply_loop pListNext (λ a _ v, apply_func v a) fuel argument ht (pListHead ht) in
  ret (a, HASH_UNPROTECT_RECURSION ht).

(** The variable arguments [args] are the same at every call. *)
Definition zend_hash_apply_with_arguments {A B} ht (apply_func : V → list B → zend_hash_key → A → A * V * Z)
    (args : list B) (a : A) : HM (A * HashTable) :=
  let! ht := HASH_PROTECT_RECURSION ht in
  let! fuel := get_fuel in
  let! '(a, ht) := apply_loop pListNext (λ a k v, apply_func v args k a) fuel a ht (pListHead ht) in
  ret (a, HASH_UNPROTECT_RECURSION ht).

Definition zend_hash_reverse_apply {A} ht (apply_func : A → V → A * V * Z) (a : A) : HM (A * HashTable) :=
  let! ht := HASH_PROTECT_RECURSION ht in
  let! fuel := get_fuel in
  let! '(a, ht) := apply_loop pListLast (λ a _ v, apply_func a v) fuel a ht (pListTail ht) in
  ret (a, HASH_UNPROTECT_RECURSION ht).

(** *** Copying and merging *)

(** [if (pCopyConstructor) pCopyConstructor(new_entry);] *)
Definition copy_construct (pCopyConstructor : option (V → V)) (new_entry : option ptr) : HM unit :=
  match pCopyConstructor, new_entry with
  | None, _ => ret tt
  | Some _, None => stuck
  | Some f, Some p =>
      let! b := load p in
      emit (EvCopy (data_val (pData b))) ;;;
      store p (λ b, set_pData (data_write (f (data_val (pData b))) (pData b)) b)
  end.

Fixpoint copy_loop (fuel : nat) (setTargetPointer : bool) (source : HashTable)
    (pCopyConstructor : option (V → V)) (size : Z) (target : HashTable) (p : option ptr) : HM HashTable :=
  match p with
  | None => ret target
  | Some p =>
      match fuel with
      | O => stuck
      | S fuel' =>
          let target :=
            if setTargetPointer && bool_decide (pInternalPointer source = Some p)
            then set_pInternalPointer None target else target in
          let! b := load p in
          let! '(target, _, new_entry) :=
            (if negb (nKeyLength b =? 0)
             then zend_hash_quick_update target (arKey b) (nKeyLength b) (b_h b) (data_val (pData b)) size
             else zend_hash_index_update target (b_h b) (data_val (pData b)) size) in
          copy_construct pCopyConstructor new_entry ;;;
          let! b := load p in
          copy_loop fuel' setTargetPointer source pCopyConstructor size target (pListNext b)
      end
  end.

Definition zend_hash_copy (target source : HashTable) (pCopyConstructor : option (V → V)) (size : Z)
    : HM HashTable :=
  let setTargetPointer := match pInternalPointer target with None => true | Some _ => false end in
  let! fuel := get_fuel in
  let! target := copy_loop fuel setTargetPointer source pCopyConstructor size target (pListHead source) in
  ret (match pInternalPointer target with
       | None => set_pInternalPointer (pListHead target) target
       | Some _ => target
       end).

(** [if (r == SUCCESS && pCopyConstructor) pCopyConstructor(t);] *)
Definition copy_on_success (pCopyConstructor : option (V → V)) (r : Z) (t : option ptr) : HM unit :=
  if r =? SUCCESS then copy_construct pCopyConstructor t else ret tt.

Fixpoint merge_loop (fuel : nat) (mode : Z) (pCopyConstructor : option (V → V)) (size : Z)
    (target : HashTable) (p : option ptr) : HM HashTable :=
  match p with
  | None => ret target
  | Some p =>
      match fuel with
      | O => stuck
      | S fuel' =>
          let! b := load p in
          let! target :=
            (if nKeyLength b >? 0 then
               let! '(target, r, t) :=
                 _zend_hash_quick_add_or_update target (arKey b) (nKeyLength b) (b_h b)
                   (data_val (pData b)) size mode in
               copy_on_success pCopyConstructor r t ;;; ret target
             else
               let! absent :=
                 (if mode =? HASH_UPDATE then ret true
                  else let! e := zend_hash_index_exists target (b_h b) in ret (e =? 0)) in
               if (absent : bool) then
                 let! '(target, r, t) := zend_hash_index_update target (b_h b) (data_val (pData b)) size in
                 copy_on_success pCopyConstructor r t ;;; ret target
               else ret target) in
          let! b := load p in
          merge_loop fuel' mode pCopyConstructor size target (pListNext b)
      end
  end.

Definition _zend_hash_merge (target source : HashTable) (pCopyConstructor : option (V → V)) (size : Z)
    (overwrite : bool) : HM HashTable :=
  let mode := if overwrite then HASH_UPDATE else HASH_ADD in
  let! fuel := get_fuel in
  let! target := merge_loop fuel mode pCopyConstructor size target (pListHead source) in
  ret (set_pInternalPointer (pListHead target) target).

(** the checker of [zend_hash_merge_ex]; [pParam] is part of the closure *)
Definition merge_checker : Type := HashTable → V → zend_hash_key → bool.

Definition zend_hash_replace_checker_wrapper (target : HashTable) (source_data : V) (b : Bucket V)
    (merge_checker_func : merge_checker) : bool :=
  merge_checker_func target source_data (MkKey (arKey b) (nKeyLength b) (b_h b)).

Fixpoint merge_ex_loop (fuel : nat) (pCopyConstructor : option (V → V)) (size : Z)
    (pMergeSource : merge_checker) (target : HashTable) (p : option ptr) : HM HashTable :=
  match p with
  | None => ret target
  | Some p =>
      match fuel with
      | O => stuck
      | S fuel' =>
          let! b := load p in
          let! target :=
            (if zend_hash_replace_checker_wrapper target (data_val (pData b)) b pMergeSource then
               let! '(target, r, t) :=
                 zend_hash_quick_update target (arKey b) (nKeyLength b) (b_h b) (data_val (pData b)) size in
               copy_on_success pCopyConstructor r t ;;; ret target
             else ret target) in
          let! b := load p in
          merge_ex_loop fuel' pCopyConstructor size pMergeSource target (pListNext b)
      end
  end.

Definition zend_hash_merge_ex (target source : HashTable) (pCopyConstructor : option (V → V)) (size : Z)
    (pMergeSource : merge_checker) : HM HashTable :=
  let! fuel := get_fuel in
  let! target := merge_ex_loop fuel pCopyConstructor size pMergeSource target (pListHead source) in
  ret (set_pInternalPointer (pListHead target) target).

(** *** Traversal *)

Record HashPointer : Type := MkHashPointer { hp_pos : option ptr; hp_h : Z }.

Definition zend_hash_get_pointer ht : HM (HashPointer * Z) :=
  match pInternalPointer ht with
  | Some p => let! b := load p in ret (MkHashPointer (Some p) (b_h b), 1)
  | None => ret (MkHashPointer None 0, 0)
  end.

(** [while (p != NULL) { if (p == ptr->pos) ...; p = p->pNext; }] *)
Fixpoint set_pointer_loop (fuel : nat) (pos : ptr) ht (p : option ptr) : HM (HashTable * Z) :=
  match p with
  | None => ret (ht, 0)
  | Some p =>
      match fuel with
      | O => stuck
      | S fuel' =>
          if decide (p = pos) then ret (set_pInternalPointer (Some p) ht, 1)
          else let! b := load p in set_pointer_loop fuel' pos ht (pNext b)
      end
  end.

Definition zend_hash_set_pointer ht (pt : HashPointer) : HM (HashTable * Z) :=
  match hp_pos pt with
  | None => ret (set_pInternalPointer None ht, 1)
  | Some pos =>
      if decide (pInternalPointer ht = Some pos) then ret (ht, 1)
      else
        let! p := rd_slot ht (Z.land (hp_h pt) (nTableMask ht)) in
        let! fuel := get_fuel in
        set_pointer_loop fuel pos ht p
  end.

(** A [HashPosition *pos]: [None] is [NULL] and means the internal pointer. *)
Definition pos_get ht (pos : option (option ptr)) : option ptr :=
  match pos with Some c => c | None => pInternalPointer ht end.
Definition pos_set ht (pos : option (option ptr)) (c : option ptr) : HashTable * option (option ptr) :=
  match pos with Some _ => (ht, Some c) | None => (set_pInternalPointer c ht, None) end.

Definition zend_hash_internal_pointer_reset_ex ht (pos : option (option ptr)) :=
  pos_set ht pos (pListHead ht).

Definition zend_hash_internal_pointer_end_ex ht (pos : option (option ptr)) :=
  pos_set ht pos (pListTail ht).

Definition zend_hash_move_forward_ex ht (pos : option (option ptr))
    : HM (HashTable * option (option ptr) * Z) :=
  match pos_get ht pos with
  | Some p => let! b := load p in ret (pos_set ht pos (pListNext b), SUCCESS)
  | None => ret (ht, pos, FAILURE)
  end.

Definition zend_hash_move_backwards_ex ht (pos : option (option ptr))
    : HM (HashTable * option (option ptr) * Z) :=
  match pos_get ht pos with
  | Some p => let! b := load p in ret (pos_set ht pos (pListLast b), SUCCESS)
  | None => ret (ht, pos, FAILURE)
  end.

(** What [zend_hash_get_current_key_ex] returns with [HASH_KEY_IS_STRING] (the
    key itself, or a copy without its last byte, and its length), with
    [HASH_KEY_IS_LONG], and otherwise. *)
Inductive current_key : Type :=
| KeyIsString (str_index : kptr) (str_length : Z)
| KeyIsDup (str_index : bytes) (str_length : Z)
| KeyIsLong (num_index : Z)
| KeyNonExistent.

Definition zend_hash_get_current_key_ex ht (duplicate : bool) (pos : option (option ptr)) : HM current_key :=
  match pos_get ht pos with
  | Some p =>
      let! b := load p in
      if negb (nKeyLength b =? 0) then
        if duplicate then
          let! s := of_option (read_bytes (arKey b) (nKeyLength b - 1)) in
          ret (KeyIsDup s (nKeyLength b))
        else ret (KeyIsString (arKey b) (nKeyLength b))
      else ret (KeyIsLong (b_h b))
  | None => ret KeyNonExistent
  end.

(** the part of [zval] this function writes *)
Inductive zval_key : Type :=
| Z_NULL
| Z_STRING (s : bytes)
| Z_LONG (l : Z).

Definition zend_hash_get_current_key_zval_ex ht (pos : option (option ptr)) : HM zval_key :=
  match pos_get ht pos with
  | None => ret Z_NULL
  | Some p =>
      let! b := load p in
      if negb (nKeyLength b =? 0) then
        let! s := of_option (read_bytes (arKey b) (nKeyLength b - 1)) in
        ret (Z_STRING s)
      else ret (Z_LONG (s64 (b_h b)))
  end.

Definition zend_hash_get_current_key_type_ex ht (pos : option (option ptr)) : HM Z :=
  match pos_get ht pos with
  | Some p =>
      let! b := load p in
      ret (if negb (nKeyLength b =? 0) then HASH_KEY_IS_STRING else HASH_KEY_IS_LONG)
  | None => ret HASH_KEY_NON_EXISTENT
  end.

Definition zend_hash_get_current_data_ex ht (pos : option (option ptr)) : HM (option ptr) :=
  match pos_get ht pos with
  | Some p => let! b := load p in ret (Some p)
  | None => ret None
  end.

(** [while (r) { if (r == q) ...; r = r->pListLast; }]: is [q] before? *)
Fixpoint before_loop (fuel : nat) (q : ptr) (r : option ptr) : HM bool :=
  match r with
  | None => ret false
  | Some r =>
      if decide (r = q) then ret true
      else match fuel with
           | O => stuck
           | S fuel' => let! b := load r in before_loop fuel' q (pListLast b)
           end
  end.

(** The search for the target key: [inl r] when the function returns [r] at
    once, [inr (q, h)] with the bucket that has the key and its hash. *)
Definition update_key_search ht (b : Bucket V) (key_type : Z) (str_index : kptr)
    (str_length num_index : Z) : HM (Z + option ptr * Z) :=
  if key_type =? HASH_KEY_IS_LONG then
    if (nKeyLength b =? 0) && (b_h b =? num_index) then ret (inl SUCCESS)
    else
      let! list_head := rd_slot ht (Z.land num_index (nTableMask ht)) in
      let! q := chain_search (index_test num_index) list_head in
      ret (inr (q, num_index))
  else if key_type =? HASH_KEY_IS_STRING then
    let! s := of_option (read_bytes str_index str_length) in
    let h := zend_inline_hash_func s in
    let! same := of_option (string_test str_index str_length h b) in
    if (same : bool) then ret (inl SUCCESS)
    else
      let! list_head := rd_slot ht (Z.land h (nTableMask ht)) in
      let! q := chain_search (string_test str_index str_length h) list_head in
      ret (inr (q, h))
  else ret (inl FAILURE).

(** The bucket moves when its key does not fit: the copy has no key yet. *)
Definition update_key_realloc ht p (str_index : kptr) (str_length : Z) (pos : option (option ptr))
    : HM (HashTable * ptr * option (option ptr)) :=
  let! b := load p in
  let! i1 := of_option (IS_INTERNED (arKey b)) in
  let! i2 := of_option (IS_INTERNED str_index) in
  if negb (Bool.eqb i1 i2) || (negb i1 && negb (nKeyLength b =? str_length)) then
    let! q := alloc (MkBucket 0 str_length (pData b) None None None None KUndef) in
    let! ht := CONNECT_TO_GLOBAL_DLLIST_EX q ht (pListLast b) (pListNext b) in
    let ht := if decide (pInternalPointer ht = Some p) then set_pInternalPointer (Some q) ht else ht in
    let pos := match pos with Some _ => Some (Some q) | None => None end in
    free p ;;;
    ret (ht, q, pos)
  else ret (ht, p, pos).

Definition zend_hash_update_current_key_ex ht (key_type : Z) (str_index : kptr)
    (str_length num_index mode : Z) (pos : option (option ptr))
    : HM (HashTable * option (option ptr) * Z) :=
  match pos_get ht pos with
  | None => ret (ht, pos, FAILURE)
  | Some p =>
      let str_length := if key_type =? HASH_KEY_IS_LONG then 0 else str_length in
      let! b := load p in
      let! found := update_key_search ht b key_type str_index str_length num_index in
      match found with
      | inl r => ret (ht, pos, r)
      | inr (q, h) =>
          let! '(ht, deleted) :=
            (match q with
             | None => ret (ht, false)
             | Some q =>
                 let! before :=
                   (if mode =? HASH_UPDATE_KEY_ANYWAY then ret None
                    else let! fuel := get_fuel in
                         let! r := before_loop fuel q (pListLast b) in ret (Some r)) in
                 if match before with
                    | Some r => flag_set mode (if (r : bool) then HASH_UPDATE_KEY_IF_AFTER
                                               else HASH_UPDATE_KEY_IF_BEFORE)
                    | None => false
                    end
                 then let! ht := zend_hash_bucket_delete ht p in ret (ht, true)
                 else let! ht := zend_hash_bucket_delete ht q in ret (ht, false)
             end) in
          if (deleted : bool) then ret (ht, pos, FAILURE)
          else
            let! b := load p in
            store_opt (pNext b) (set_pLast (pLast b)) ;;;
            let! ht :=
              (match pLast b with
               | Some l => store l (set_pNext (pNext b)) ;;; ret ht
               | None => wr_slot ht (Z.land (b_h b) (nTableMask ht)) (pNext b)
               end) in
            let! '(ht, p, pos) := update_key_realloc ht p str_index str_length pos in
            store p (set_b_h h) ;;;
            let! ht :=
              (if key_type =? HASH_KEY_IS_LONG then
                 ret (if s64 num_index >=? s64 (nNextFreeElement ht)
                      then set_nNextFreeElement (if num_index <? LONG_MAX then num_index + 1 else LONG_MAX) ht
                      else ht)
               else
                 store p (set_nKeyLength str_length) ;;;
                 let! interned := of_option (IS_INTERNED str_index) in
                 let! s := of_option (read_bytes str_index str_length) in
                 store p (set_arKey (if (interned : bool) then str_index else KOwn p s)) ;;;
                 ret ht) in
            let! b := load p in
            let nIndex := Z.land (b_h b) (nTableMask ht) in
            let! list_head := rd_slot ht nIndex in
            CONNECT_TO_BUCKET_DLLIST p list_head ;;;
            let! ht := wr_slot ht nIndex (Some p) in
            ret (ht, pos, SUCCESS)
      end
  end.

(** *** Splicing *)

(** [for (pos = 0, p = ht->pListHead; pos < offset && p; pos++, p = p->pListNext);] *)
Fixpoint splice_skip (fuel : nat) (offset pos : Z) (p : option ptr) : HM (Z * option ptr) :=
  if pos <? offset then
    match p with
    | None => ret (pos, None)
    | Some p =>
        match fuel with
        | O => stuck
        | S fuel' => let! b := load p in splice_skip fuel' offset (pos + 1) (pListNext b)
        end
    end
  else ret (pos, p).

(** [while (pos < offset + length && p) { ... pos++; }]; [stop] is the sum *)
Fixpoint splice_remove (fuel : nat) (pCopyConstructor : option (V → V)) (stop pos : Z)
    ht (removed : option HashTable) (p : option ptr) : HM (HashTable * option HashTable * option ptr) :=
  if pos <? stop then
    match p with
    | None => ret (ht, removed, None)
    | Some p =>
        match fuel with
        | O => stuck
        | S fuel' =>
            let! b := load p in
            let! removed :=
              (match removed with
               | None => ret None
               | Some rm =>
                   let! '(rm, _, new_entry) :=
                     (if nKeyLength b =? 0
                      then zend_hash_next_index_insert rm (data_val (pData b)) sizeof_ptr
                      else zend_hash_quick_update rm (arKey b) (nKeyLength b) (b_h b)
                             (data_val (pData b)) sizeof_ptr) in
                   copy_construct pCopyConstructor new_entry ;;;
                   ret (Some rm)
               end) in
            let! b := load p in
            let p_next := pListNext b in
            let! ht := zend_hash_bucket_delete ht p in
            splice_remove fuel' pCopyConstructor stop (pos + 1) ht removed p_next
        end
    end
  else ret (ht, removed, p).

(** [for (i = 0; i < list_count; i++)] *)
Fixpoint splice_insert (nDataSize : Z) (pCopyConstructor : option (V → V)) (p : option ptr)
    (values : list V) ht : HM HashTable :=
  match values with
  | [] => ret ht
  | v :: values' =>
      let! q := alloc (MkBucket 0 0 (INIT_DATA v nDataSize) None None None None KNull) in
      let! last :=
        (match p with
         | Some p => let! b := load p in ret (pListLast b)
         | None => ret (pListTail ht)
         end) in
      let! ht := CONNECT_TO_GLOBAL_DLLIST_EX q ht last p in
      let ht := set_nNumOfElements (u32 (nNumOfElements ht + 1)) ht in
      copy_construct pCopyConstructor (Some q) ;;;
      splice_insert nDataSize pCopyConstructor p values' ht
  end.

(** [values] is [list], [None] when it is [NULL]. *)
Definition _zend_hash_splice ht (nDataSize : Z) (pCopyConstructor : option (V → V)) (offset length : Z)
    (values : option (list V)) (removed : option HashTable) : HM (HashTable * option HashTable) :=
  let ht := CHECK_INIT ht in
  let! fuel := get_fuel in
  let! '(pos, p) := splice_skip fuel offset 0 (pListHead ht) in
  let! '(ht, removed, p) :=
    splice_remove fuel pCopyConstructor (u32 (offset + length)) pos ht removed p in
  let! ht :=
    (match values with
     | None => ret ht
     | Some vs =>
         let! ht := splice_insert nDataSize pCopyConstructor p vs ht in
         ZEND_HASH_IF_FULL_DO_RESIZE ht
     end) in
  let! ht := zend_hash_reindex ht true in
  ret (ht, removed).

(** *** Sorting and comparing *)

(** [while (p) { arTmp[i] = p; p = p->pListNext; i++; }] *)
Fixpoint collect_loop (fuel : nat) (p : option ptr) : HM (list (ptr * Bucket V)) :=
  match p with
  | None => ret []
  | Some p =>
      match fuel with
      | O => stuck
      | S fuel' =>
          let! b := load p in
          let! arTmp := collect_loop fuel' (pListNext b) in
          ret ((p, b) :: arTmp)
      end
  end.

(** the stores that link [arTmp[0]], [arTmp[1]], ... *)
Fixpoint relink_loop (last : option ptr) (arTmp : list ptr) : HM unit :=
  match arTmp with
  | [] => ret tt
  | p :: arTmp' =>
      store p (set_pListLast last) ;;;
      store p (set_pListNext (head arTmp')) ;;;
      relink_loop (Some p) arTmp'
  end.

(** [sort_func(arTmp, i, sizeof(Bucket * ), compar)]; [compar] is given two
    elements of [arTmp], which it follows to the buckets. *)
Definition sort_func_t : Type := ∀ A : Type, (A → A → Z) → list A → option (list A).

Definition zend_hash_sort ht (sort_func : sort_func_t) (compar : Bucket V → Bucket V → Z)
    (renumber : bool) : HM HashTable :=
  if negb (nNumOfElements ht >? 1) && negb (renumber && (nNumOfElements ht >? 0)) then ret ht
  else
    let! fuel := get_fuel in
    let! arTmp := collect_loop fuel (pListHead ht) in
    let! arTmp := of_option (sort_func _ (λ x y, compar x.2 y.2) arTmp) in
    let arTmp := fst <$> arTmp in
    relink_loop None arTmp ;;;
    let ht := set_pListHead (head arTmp) ht in
    let ht := set_pInternalPointer (pListHead ht) ht in
    let ht := set_pListTail (last arTmp) ht in
    if renumber then zend_hash_reindex ht false else ret ht.

(** the loop of [zend_hash_compare], from [p1] and, when [ordered], [p2] *)
Fixpoint compare_loop (fuel : nat) (ht2 : HashTable) (compar : V → V → Z) (ordered : bool)
    (p1 p2 : option ptr) : HM Z :=
  match p1 with
  | None => ret 0
  | Some p1 =>
      match fuel with
      | O => stuck
      | S fuel' =>
          if ordered then
            match p2 with
            | None => ret 1
            | Some p2 =>
                let! b1 := load p1 in
                let! b2 := load p2 in
                let! result :=
                  (if (nKeyLength b1 =? 0) && (nKeyLength b2 =? 0) then
                     ret (if negb (b_h b1 =? b_h b2) then (if b_h b1 >? b_h b2 then 1 else -1) else 0)
                   else
                     let result := s32 (nKeyLength b1 - nKeyLength b2) in
                     if negb (result =? 0) then ret result
                     else of_option (memcmp_keys (arKey b1) (arKey b2) (nKeyLength b1))) in
                if negb (result =? 0) then ret result
                else
                  let result := compar (data_val (pData b1)) (data_val (pData b2)) in
                  if negb (result =? 0) then ret result
                  else compare_loop fuel' ht2 compar ordered (pListNext b1) (pListNext b2)
            end
          else
            let! b1 := load p1 in
            let! found :=
              (if nKeyLength b1 =? 0 then zend_hash_index_find ht2 (b_h b1)
               else zend_hash_quick_find ht2 (arKey b1) (nKeyLength b1) (b_h b1)) in
            match found with
            | None => ret 1
            | Some p2 =>
                let! b2 := load p2 in
                let result := compar (data_val (pData b1)) (data_val (pData b2)) in
                if negb (result =? 0) then ret result
                else compare_loop fuel' ht2 compar ordered (pListNext b1) None
            end
      end
  end.

(** The tables get back their apply counts on every path. *)
Definition zend_hash_compare (ht1 ht2 : HashTable) (compar : V → V → Z) (ordered : bool)
    : HM (HashTable * HashTable * Z) :=
  let! ht1 := HASH_PROTECT_RECURSION ht1 in
  let! ht2 := HASH_PROTECT_RECURSION ht2 in
  let result := s32 (nNumOfElements ht1 - nNumOfElements ht2) in
  let! result :=
    (if negb (result =? 0) then ret result
     else
       let! fuel := get_fuel in
       compare_loop fuel ht2 compar ordered (pListHead ht1) (if ordered then pListHead ht2 else None)) in
  ret (HASH_UNPROTECT_RECURSION ht1, HASH_UNPROTECT_RECURSION ht2, result).

Fixpoint minmax_loop (fuel : nat) (compar : Bucket V → Bucket V → Z) (flag : bool)
    (res : ptr) (p : option ptr) : HM ptr :=
  match p with
  | None => ret res
  | Some p =>
      match fuel with
      | O => stuck
      | S fuel' =>
          let! b := load p in
          let! r := load res in
          let res :=
            if flag then (if compar r b <? 0 then p else res)
            else (if compar r b >? 0 then p else res) in
          minmax_loop fuel' compar flag res (pListNext b)
      end
  end.

Definition zend_hash_minmax ht (compar : Bucket V → Bucket V → Z) (flag : bool) : HM (option ptr) :=
  if nNumOfElements ht =? 0 then ret None
  else
    match pListHead ht with
    | None => stuck
    | Some p =>
        let! b := load p in
        let! fuel := get_fuel in
        let! res := minmax_loop fuel compar flag p (pListNext b) in
        let! r := load res in
        ret (Some res)
    end.

(** *** Symbol tables: numeric strings are integer keys *)

(** [*tmp] for a pointer [tmp = key + i] *)
Definition char_at (key : bytes) (i : Z) : option Z :=
  if i <? 0 then None else schar <$> key !! Z.to_nat i.
Definition is_digit (c : Z) : bool := (48 <=? c) && (c <=? 57).
Definition MAX_LENGTH_OF_LONG : Z := 20.

(** [while (++tmp != end && *tmp >= '0' && *tmp <= '9') idx = ...;] gives the
    last [tmp] and [idx]; [None] when [tmp] runs out of the key *)
Fixpoint numeric_loop (fuel : nat) (key : bytes) (tmp end_ idx : Z) : option (Z * Z) :=
  match fuel with
  | O => None
  | S fuel' =>
      let tmp := tmp + 1 in
      if tmp =? end_ then Some (tmp, idx)
      else
        match char_at key tmp with
        | None => None
        | Some c =>
            if is_digit c
            then numeric_loop fuel' key tmp end_ (u64 (u64 (idx * 10) + (c - 48)))
            else Some (tmp, idx)
        end
  end.

(** The outer [None] is a read outside the key; [Some (Some idx)] means that
    [func] is run with [idx]. *)
Definition ZEND_HANDLE_NUMERIC_EX (key : bytes) (length : Z) : option (option Z) :=
  match char_at key 0 with
  | None => None
  | Some c0 =>
      let tmp := if c0 =? 45 then 1 else 0 in
      match char_at key tmp with
      | None => None
      | Some c =>
          if is_digit c then
            let end_ := length - 1 in
            match char_at key end_ with
            | None => None
            | Some e =>
                if negb (e =? 0) || ((c =? 48) && (length >? 2)) || (end_ - tmp >? MAX_LENGTH_OF_LONG - 1)
                then Some None
                else
                  match numeric_loop (Z.to_nat length) key tmp end_ (c - 48) with
                  | None => None
                  | Some (tmp, idx) =>
                      if tmp =? end_ then
                        if c0 =? 45 then
                          if u64 (idx - 1) >? LONG_MAX then Some None else Some (Some (u64 (0 - idx)))
                        else if idx >? LONG_MAX then Some None else Some (Some idx)
                      else Some None
                  end
            end
          else Some None
      end
  end.

(** [ZEND_HANDLE_NUMERIC(arKey, nKeyLength, func)] and the string case *)
Definition ZEND_HANDLE_NUMERIC {A} (key : kptr) (length : Z) (func : Z → HM A) (rest : HM A) : HM A :=
  let! s := of_option (kbytes key) in
  let! r := of_option (ZEND_HANDLE_NUMERIC_EX s length) in
  match r with Some idx => func idx | None => rest end.

Definition zend_symtable_update ht key len v nDataSize : HM (HashTable * Z * option ptr) :=
  ZEND_HANDLE_NUMERIC key len (λ idx, zend_hash_index_update ht idx v nDataSize)
    (zend_hash_update ht key len v nDataSize).

Definition zend_symtable_del ht key len : HM (HashTable * Z) :=
  ZEND_HANDLE_NUMERIC key len (λ idx, zend_hash_index_del ht idx) (zend_hash_del ht key len).

Definition zend_symtable_find ht key len : HM (option ptr) :=
  ZEND_HANDLE_NUMERIC key len (λ idx, zend_hash_index_find ht idx) (zend_hash_find ht key len).

Definition zend_symtable_exists ht key len : HM Z :=
  ZEND_HANDLE_NUMERIC key len (λ idx, zend_hash_index_exists ht idx) (zend_hash_exists ht key len).

Definition zend_symtable_update_current_key_ex ht key len mode pos
    : HM (HashTable * option (option ptr) * Z) :=
  ZEND_HANDLE_NUMERIC key len
    (λ idx, zend_hash_update_current_key_ex ht HASH_KEY_IS_LONG KNull 0 idx mode pos)
    (zend_hash_update_current_key_ex ht HASH_KEY_IS_STRING key len 0 mode pos).

End operations.

#[global] Abbreviation HM V := (M (mem (Bucket V) (event V))).
