(* ===== verification/HashRepr.v ===== *)
(** * The representation invariant of hash tables

    [tbl w ht order es]: in store [w] the table [ht] is well formed, its buckets
    in the order of the global list are at the addresses [order], and they hold
    the keys and values [es].  The pieces ([glob_ok], [chains_ok], ...) are kept
    apart because the operations break and restore them one at a time. *)

From S2P Require Import Prelude DList HashModel.
Local Open Scope Z_scope.

(** ** Abstract keys *)

Inductive key : Type :=
| KStr (s : bytes)
| KInt (h : Z).

#[export] Instance key_eq_dec : EqDecision key.
Proof. solve_decision. Defined.

Definition khash (k : key) : Z :=
  match k with KStr s => zend_inline_hash_func s | KInt h => h end.

(** ** The invariant *)

Section repr.
Context {V : Type}.
Implicit Types (ht : HashTable) (b : Bucket V) (p q : ptr) (order S : list ptr).
Implicit Types (h : gmap ptr (Bucket V)) (w : mem (Bucket V) (event V)) (es : list (key * V)).

Definition payload b : Z * Z * data V * kptr := (b_h b, nKeyLength b, pData b, arKey b).

Definition bkey b : key :=
  if nKeyLength b =? 0 then KInt (b_h b) else KStr (default [] (kbytes (arKey b))).

Definition key_ok p b : Prop :=
  0 ≤ b_h b < 2 ^ 64 ∧
  (nKeyLength b = 0 ∨
   ∃ s, s ≠ [] ∧ nKeyLength b = Z.of_nat (length s) ∧ b_h b = zend_inline_hash_func s ∧
        (arKey b = KInterned s ∨ arKey b = KOwn p s)).

(** bucket [p] holds key [e.1] and value [e.2] *)
Definition entry h p (e : key * V) : Prop :=
  ∃ b, h !! p = Some b ∧ key_ok p b ∧ bkey b = e.1 ∧ data_val (pData b) = e.2.

(** A numeric bucket has no string key left. *)
Definition clean h order : Prop :=
  ∀ p b, p ∈ order → h !! p = Some b → nKeyLength b = 0 → arKey b = KNull.

Definition glob_ok h (hd tl : option ptr) order : Prop :=
  NoDup order ∧ seg glob h None order None ∧ hd = head order ∧ tl = last order.

Definition in_slot h (mask : Z) (i : nat) p : Prop :=
  ∃ b, h !! p = Some b ∧ Z.land (b_h b) mask = Z.of_nat i.

(** the chains of the slots link exactly the buckets of [S] *)
Definition chains_ok h (slots : list (option ptr)) (mask : Z) S : Prop :=
  ∃ chains : list (list ptr),
    slots = head <$> chains ∧
    ∀ i ch, chains !! i = Some ch →
      NoDup ch ∧ seg chain h None ch None ∧
      ∀ p, p ∈ ch ↔ p ∈ S ∧ in_slot h mask i p.

(** the array has [2^k] slots, or a single one before the first insertion *)
Definition size_ok ht : Prop :=
  (∃ k, 3 ≤ k ≤ 31 ∧ nTableSize ht = 2 ^ k) ∧
  (nTableMask ht = 0 ∨ nTableMask ht = nTableSize ht - 1) ∧
  Z.of_nat (length (arBuckets ht)) = nTableMask ht + 1.

(** Integer keys, as signed numbers, are below [nNextFreeElement]. *)
Definition next_ok ht es : Prop :=
  0 ≤ nNextFreeElement ht ≤ LONG_MAX ∧
  ∀ i v, (KInt i, v) ∈ es → s64 i < nNextFreeElement ht ∨ nNextFreeElement ht = LONG_MAX.

Record repr h ht order es : Prop := {
  r_glob : glob_ok h (pListHead ht) (pListTail ht) order;
  r_num : nNumOfElements ht = Z.of_nat (length order);
  r_max : Z.of_nat (length order) < 2 ^ 32;
  r_cur : ∀ p, pInternalPointer ht = Some p → p ∈ order;
  r_size : size_ok ht;
  r_init : nTableMask ht = 0 → order = [];
  r_chains : chains_ok h (arBuckets ht) (nTableMask ht) order;
  r_entries : Forall2 (entry h) order es;
  r_keys : NoDup es.*1;
  r_next : next_ok ht es
}.

Record tbl w ht order es : Prop := {
  t_mem : mem_ok w;
  t_repr : repr (cells w) ht order es;
  t_clean : clean (cells w) order
}.

(** How an operation on a table with buckets [o] may change the store: it leaves
    alone what is not in [o], and its new buckets are at new addresses. *)
Record evolves w (o : list ptr) w' (o' : list ptr) : Prop := {
  e_frame : ∀ q, q ∉ o → is_Some (cells w !! q) → cells w' !! q = cells w !! q;
  e_brk : (brk w ≤ brk w')%positive;
  e_new : ∀ q, q ∈ o' → q ∈ o ∨ (brk w ≤ q)%positive
}.

(** ** The specification: association lists in insertion order *)

Fixpoint al_find (k : key) es : option V :=
  match es with
  | [] => None
  | (k', v) :: es' => if decide (k' = k) then Some v else al_find k es'
  end.

(** replace the value of [k] in place, or append *)
Fixpoint al_update (k : key) (v : V) es : list (key * V) :=
  match es with
  | [] => [(k, v)]
  | (k', v') :: es' => if decide (k' = k) then (k, v) :: es' else (k', v') :: al_update k v es'
  end.

Definition al_delete (k : key) es : list (key * V) := filter (λ e, e.1 ≠ k) es.

(** *** Basic facts *)

Lemma al_find_app k es es' :
  al_find k (es ++ es') = match al_find k es with Some v => Some v | None => al_find k es' end.
Proof. induction es as [|[k' v'] es IH]; simpl; [done|]. by case_decide. Qed.

Lemma al_find_None k es : al_find k es = None ↔ k ∉ es.*1.
Proof.
  induction es as [|[k' v] es IH]; simpl.
  - split; [|done]. intros _. apply not_elem_of_nil.
  - rewrite not_elem_of_cons. case_decide; subst.
    + split; [done|]. by intros [[] _].
    + rewrite IH. split; [intros; split; [congruence|done]|by intros []].
Qed.

Lemma al_find_Some k v es : NoDup es.*1 → al_find k es = Some v ↔ (k, v) ∈ es.
Proof.
  induction es as [|[k' v'] es IH]; simpl.
  - intros _. split; [done|]. by intros ?%elem_of_nil.
  - intros [Hk Hnd]%NoDup_cons. rewrite elem_of_cons. case_decide as Hd; subst.
    + split; [intros [= ->]; by left|]. intros [[= ->]|Hin]; [done|].
      destruct Hk. apply list_elem_of_fmap. by exists (k, v).
    + rewrite (IH Hnd). split; [by right|]. intros [[= <- <-]|]; done.
Qed.

Lemma al_update_absent k v es : k ∉ es.*1 → al_update k v es = es ++ [(k, v)].
Proof.
  induction es as [|[k' v'] es IH]; simpl; [done|].
  intros [Hne Hk]%not_elem_of_cons. rewrite decide_False by congruence. by rewrite IH.
Qed.

Lemma al_update_present k v v0 es1 es2 :
  k ∉ es1.*1 → al_update k v (es1 ++ (k, v0) :: es2) = es1 ++ (k, v) :: es2.
Proof.
  induction es1 as [|[k' v'] es1 IH]; simpl.
  - by rewrite decide_True.
  - intros [Hne Hk]%not_elem_of_cons. rewrite decide_False by congruence. by rewrite IH.
Qed.

Lemma al_delete_present k v es1 es2 :
  k ∉ es1.*1 → k ∉ es2.*1 → al_delete k (es1 ++ (k, v) :: es2) = es1 ++ es2.
Proof.
  intros H1 H2. unfold al_delete.
  assert (Hf : ∀ es, k ∉ es.*1 → filter (λ e : key * V, e.1 ≠ k) es = es).
  { intros es. induction es as [|e es IH]; [done|]. rewrite fmap_cons.
    intros [Hne Hk]%not_elem_of_cons. rewrite filter_cons_True by done. by rewrite IH. }
  rewrite filter_app, filter_cons_False by (simpl; tauto). by rewrite !Hf.
Qed.

Lemma al_delete_absent k es : k ∉ es.*1 → al_delete k es = es.
Proof.
  unfold al_delete. induction es as [|e es IH]; [done|]. rewrite fmap_cons.
  intros [Hne Hk]%not_elem_of_cons. rewrite filter_cons_True by done. by rewrite IH.
Qed.

End repr.
