(* ===== verification/HashFacts.v ===== *)
(** * Facts about the representation invariant of hash tables

    How the pieces of [tbl] survive the writes of the operations: a table seen
    through a heap that agrees on the relevant fields, a bucket linked into or
    unlinked from its chain, and the search of a chain for a key. *)

From S2P Require Import Prelude DList HashModel HashRepr.
Local Open Scope Z_scope.

Create HintDb hash discriminated.

(** [p] made the first bucket of the chain that starts at [hd] *)
Definition connect_cells {V} (p : ptr) (hd : option ptr) (h : gmap ptr (Bucket V)) : gmap ptr (Bucket V) :=
  alter_opt hd (set_pLast (Some p)) (alter (set_pLast None) p (alter (set_pNext hd) p h)).

(** [p] linked between [last] and [next] of the global list *)
Definition glob_cells {V} (p : ptr) (last next : option ptr) (h : gmap ptr (Bucket V)) : gmap ptr (Bucket V) :=
  alter_opt next (set_pListLast (Some p)) (alter_opt last (set_pListNext (Some p))
    (alter (set_pListNext next) p (alter (set_pListLast last) p h))).

#[global] Arguments connect_cells : simpl never.
#[global] Arguments glob_cells : simpl never.

(** the address of the bucket with key [k] *)
Fixpoint ptr_of {V} (k : key) (order : list ptr) (es : list (key * V)) : option ptr :=
  match order, es with
  | p :: order', (k', _) :: es' => if decide (k' = k) then Some p else ptr_of k order' es'
  | _, _ => None
  end.

(** a caller's key: the bytes [s] (with the final NUL) and their length *)
Definition key_arg {V} (h : gmap ptr (Bucket V)) (kp : kptr) (len : Z) (s : bytes) : Prop :=
  kbytes kp = Some s ∧ len = Z.of_nat (length s) ∧ s ≠ [] ∧
  ∀ q t b t', kp = KOwn q t → h !! q = Some b → arKey b = KOwn q t' → t' = t.

Section facts.
Context {V : Type}.
Implicit Types (ht : HashTable) (b : Bucket V) (p q : ptr) (order S : list ptr).
Implicit Types (h : gmap ptr (Bucket V)) (w : mem (Bucket V) (event V)) (es : list (key * V)).

(** ** Views *)

Lemma payload_spec h h' l p b :
  agree payload h h' l → p ∈ l → h !! p = Some b →
  ∃ b', h' !! p = Some b' ∧ payload b' = payload b.
Proof.
  intros Hag Hp Hb. specialize (Hag p Hp). rewrite Hb in Hag.
  destruct (h' !! p) as [b'|]; simpl in Hag; [|discriminate Hag]. exists b'. split; congruence.
Qed.

Lemma payload_inv b b' :
  payload b' = payload b →
  b_h b' = b_h b ∧ nKeyLength b' = nKeyLength b ∧ pData b' = pData b ∧ arKey b' = arKey b.
Proof. unfold payload. by intros [= -> -> -> ->]. Qed.

Lemma bkey_payload b b' : payload b' = payload b → bkey b' = bkey b.
Proof. intros (H1 & H2 & _ & H4)%payload_inv. unfold bkey. by rewrite H1, H2, H4. Qed.

Lemma key_ok_payload p b b' : payload b' = payload b → key_ok p b → key_ok p b'.
Proof. intros (H1 & H2 & _ & H4)%payload_inv. unfold key_ok. by rewrite H1, H2, H4. Qed.

Lemma entry_agree h h' l p (e : key * V) : agree payload h h' l → p ∈ l → entry h p e → entry h' p e.
Proof.
  intros Hag Hp (b & Hb & Hk & He & Hd). destruct (payload_spec _ _ _ _ _ Hag Hp Hb) as (b' & Hb' & Hpl).
  exists b'. split; [done|]. rewrite (bkey_payload _ _ Hpl).
  split; [by eapply key_ok_payload|]. split; [done|].
  apply payload_inv in Hpl as (_ & _ & -> & _). done.
Qed.

Lemma entries_agree h h' order es :
  agree payload h h' order → Forall2 (entry h) order es → Forall2 (entry h') order es.
Proof.
  intros Hag HF. apply Forall2_same_length_lookup_2; [by eapply Forall2_length|].
  intros i p e Hp He. eapply entry_agree; [done|by eapply list_elem_of_lookup_2|].
  by eapply Forall2_lookup_lr.
Qed.

Lemma clean_agree h h' order : agree payload h h' order → clean h order → clean h' order.
Proof.
  intros Hag Hc p b' Hp Hb' Hk. pose proof (Hag p Hp) as Hpl. rewrite Hb' in Hpl.
  destruct (h !! p) as [b|] eqn:Hb; simpl in Hpl; [|discriminate Hpl]. injection Hpl as Hh Hn Hd Ha.
  rewrite Ha. apply (Hc p b); [done|done|congruence].
Qed.

Lemma in_slot_agree h h' l mask i p :
  agree payload h h' l → p ∈ l → in_slot h mask i p ↔ in_slot h' mask i p.
Proof.
  intros Hag Hp. unfold in_slot. split; intros (b & Hb & Hi).
  - destruct (payload_spec _ _ _ _ _ Hag Hp Hb) as (b' & ? & (Hh & _)%payload_inv).
    exists b'. by rewrite Hh.
  - apply agree_sym in Hag.
    destruct (payload_spec _ _ _ _ _ Hag Hp Hb) as (b' & ? & (Hh & _)%payload_inv).
    exists b'. by rewrite Hh.
Qed.

Lemma chains_ok_agree h h' slots mask S :
  agree (lnk chain) h h' S → agree payload h h' S → chains_ok h slots mask S → chains_ok h' slots mask S.
Proof.
  intros Hl Hp (chains & -> & Hch). exists chains. split; [done|].
  intros i ch Hi. destruct (Hch i ch Hi) as (Hnd & Hs & Hmem). split; [done|]. split.
  - eapply seg_agree; [|done]. eapply agree_subset; [|done]. intros q ?. by apply Hmem.
  - intros q. rewrite Hmem. split; intros [HS Hin]; (split; [done|]).
    + by rewrite <-(in_slot_agree _ _ _ _ _ _ Hp HS).
    + by rewrite (in_slot_agree _ _ _ _ _ _ Hp HS).
Qed.

Lemma chains_ok_ext h slots mask S S' :
  (∀ q, q ∈ S ↔ q ∈ S') → chains_ok h slots mask S → chains_ok h slots mask S'.
Proof.
  intros HS (chains & -> & Hch). exists chains. split; [done|].
  intros i ch Hi. destruct (Hch i ch Hi) as (Hnd & Hs & Hmem). split; [done|].
  split; [done|]. intros q. by rewrite Hmem, HS.
Qed.

Lemma chains_ok_empty h n mask : chains_ok h (replicate n None) mask [].
Proof.
  exists (replicate n []). split; [by rewrite fmap_replicate|].
  intros i ch [-> _]%lookup_replicate. split; [constructor|]. split; [done|].
  intros q. split; [by intros ?%elem_of_nil|by intros [?%elem_of_nil _]].
Qed.

(** ** The writes seen through the views *)

Lemma agree_connect_glob p hd h l : agree (lnk glob) h (connect_cells p hd h) l.
Proof. unfold connect_cells. solve_agree. Qed.

Lemma agree_connect_payload p hd h l : agree payload h (connect_cells p hd h) l.
Proof. unfold connect_cells. solve_agree. Qed.

Lemma agree_glob_chain p last next h l : agree (lnk chain) h (glob_cells p last next h) l.
Proof. unfold glob_cells. solve_agree. Qed.

Lemma agree_glob_payload p last next h l : agree payload h (glob_cells p last next h) l.
Proof. unfold glob_cells. solve_agree. Qed.

Lemma lookup_connect_ne p hd h q : q ≠ p → hd ≠ Some q → connect_cells p hd h !! q = h !! q.
Proof.
  intros Hp Hh. unfold connect_cells.
  by rewrite lookup_alter_opt_ne, !lookup_alter_ne by congruence.
Qed.

Lemma lookup_glob_ne p last next h q :
  q ≠ p → last ≠ Some q → next ≠ Some q → glob_cells p last next h !! q = h !! q.
Proof.
  intros Hp Hl Hn. unfold glob_cells.
  by rewrite !lookup_alter_opt_ne, !lookup_alter_ne by congruence.
Qed.

Lemma is_Some_connect p hd h q : is_Some (connect_cells p hd h !! q) ↔ is_Some (h !! q).
Proof. unfold connect_cells. by rewrite is_Some_alter_opt, !lookup_alter_is_Some. Qed.

Lemma is_Some_glob p last next h q : is_Some (glob_cells p last next h !! q) ↔ is_Some (h !! q).
Proof. unfold glob_cells. by rewrite !is_Some_alter_opt, !lookup_alter_is_Some. Qed.

(** ** Slots *)

Lemma size_ok_slot ht i :
  size_ok ht → 0 ≤ i → ∃ x, 0 ≤ Z.land i (nTableMask ht) ∧
    arBuckets ht !! Z.to_nat (Z.land i (nTableMask ht)) = Some x.
Proof.
  intros ((k & Hk & Hs) & Hm & Hlen) Hi.
  assert (0 ≤ Z.land i (nTableMask ht) ≤ nTableMask ht) as Hb.
  { destruct Hm as [-> | ->]; [by rewrite Z.land_0_r|].
    rewrite Hs. replace (2 ^ k - 1) with (Z.ones k) by (rewrite Z.ones_equiv; lia).
    rewrite Z.land_ones by lia. pose proof (Z.mod_pos_bound i (2 ^ k)).
    rewrite Z.ones_equiv. lia. }
  destruct (lookup_lt_is_Some_2 (arBuckets ht) (Z.to_nat (Z.land i (nTableMask ht)))) as [x Hx]; [lia|].
  exists x. split; [lia|done].
Qed.

(** A bucket outside [S] becomes the head of its chain. *)
Lemma chains_ok_connect h slots mask S p b i hd :
  chains_ok h slots mask S → p ∉ S → h !! p = Some b → i = Z.land (b_h b) mask → 0 ≤ i →
  slots !! Z.to_nat i = Some hd →
  chains_ok (connect_cells p hd h) (<[Z.to_nat i := Some p]> slots) mask (p :: S).
Proof.
  intros (chains & -> & Hch) Hp Hb Hi Hpos Hhd.
  apply list_lookup_fmap_Some in Hhd as (ch & -> & Hci). 
  destruct (Hch _ _ Hci) as (Hnd & Hs & Hmem).
  assert (Hpch : p ∉ ch) by (intros ?%Hmem; tauto).
  pose proof (agree_connect_payload p (head ch) h (p :: S)) as Hpl.
  assert (Hpslot : ∀ j, in_slot h mask j p ↔ j = Z.to_nat i).
  { intros j. unfold in_slot. split.
    - intros (b' & Hb' & Hj). simplify_eq. lia.
    - intros ->. exists b. split; [done|]. lia. }
  exists (<[Z.to_nat i := p :: ch]> chains). split; [by rewrite list_fmap_insert|].
  intros j c Hj. apply list_lookup_insert_Some in Hj as [(<- & <- & _) | [Hne Hj]].
  - split; [by constructor|]. split.
    + unfold connect_cells. apply (seg_link_head chain).
      * by constructor.
      * apply (seg_alter_other chain _ (Some p)); [by intros ? [= <-]|].
        apply (seg_alter_other chain _ (Some p)); [by intros ? [= <-]|done].
      * rewrite !lookup_alter_eq, Hb. done.
    + intros q. rewrite elem_of_cons, Hmem, elem_of_cons. split.
      * intros [->|[HS Hsl]].
        -- split; [by left|]. rewrite <-(in_slot_agree _ _ _ _ _ _ Hpl) by left. by apply Hpslot.
        -- split; [by right|]. by rewrite <-(in_slot_agree _ _ _ _ _ _ Hpl) by (by right).
      * intros [[->|HS] Hsl]; [by left|]. right. split; [done|].
        by rewrite (in_slot_agree _ _ _ _ _ _ Hpl) by (by right).
  - destruct (Hch _ _ Hj) as (Hnd' & Hs' & Hmem'). split; [done|]. split.
    + eapply seg_agree; [|exact Hs']. intros q Hq. apply Hmem' in Hq as [HqS Hqj].
      rewrite lookup_connect_ne; [done| |].
      * intros ->. done.
      * intros Hhq%head_Some_elem_of%Hmem. destruct Hhq as [_ (b1 & Hb1 & H1)].
        destruct Hqj as (b2 & Hb2 & H2). simplify_eq. apply Hne. lia.
    + intros q. rewrite Hmem', elem_of_cons. split.
      * intros [HS Hsl]. split; [by right|].
        by rewrite <-(in_slot_agree _ _ _ _ _ _ Hpl) by (by right).
      * intros [[->|HS] Hsl].
        -- rewrite <-(in_slot_agree _ _ _ _ _ _ Hpl) in Hsl by left. apply Hpslot in Hsl. congruence.
        -- split; [done|]. by rewrite (in_slot_agree _ _ _ _ _ _ Hpl) by (by right).
Qed.

End facts.

(** [p] unlinked from its chain; [b] is its bucket *)
Definition unlink_chain_cells {V} (b : Bucket V) (h : gmap ptr (Bucket V)) : gmap ptr (Bucket V) :=
  alter_opt (pNext b) (set_pLast (pLast b)) (alter_opt (pLast b) (set_pNext (pNext b)) h).

(** [p] unlinked from the global list *)
Definition unlink_glob_cells {V} (b : Bucket V) (h : gmap ptr (Bucket V)) : gmap ptr (Bucket V) :=
  alter_opt (pListNext b) (set_pListLast (pListLast b))
    (alter_opt (pListLast b) (set_pListNext (pListNext b)) h).

#[global] Arguments unlink_chain_cells : simpl never.
#[global] Arguments unlink_glob_cells : simpl never.

Section unlink.
Context {V : Type}.
Implicit Types (ht : HashTable) (b : Bucket V) (p q : ptr) (order S : list ptr).
Implicit Types (h : gmap ptr (Bucket V)) (w : mem (Bucket V) (event V)) (es : list (key * V)).

Lemma agree_unlink_chain_glob b h l : agree (lnk glob) h (unlink_chain_cells b h) l.
Proof. unfold unlink_chain_cells. solve_agree. Qed.
Lemma agree_unlink_chain_payload b h l : agree payload h (unlink_chain_cells b h) l.
Proof. unfold unlink_chain_cells. solve_agree. Qed.
Lemma agree_unlink_glob_chain b h l : agree (lnk chain) h (unlink_glob_cells b h) l.
Proof. unfold unlink_glob_cells. solve_agree. Qed.
Lemma agree_unlink_glob_payload b h l : agree payload h (unlink_glob_cells b h) l.
Proof. unfold unlink_glob_cells. solve_agree. Qed.

Lemma chain_neighbours h slots mask S p b :
  chains_ok h slots mask S → p ∈ S → h !! p = Some b →
  0 ≤ Z.land (b_h b) mask → (Z.to_nat (Z.land (b_h b) mask) < length slots)%nat →
  (∀ q, pNext b = Some q ∨ pLast b = Some q → q ∈ S ∧ q ≠ p).
Proof.
  intros (chains & -> & Hch) Hp Hb Hpos Hlt q Hq. rewrite length_fmap in Hlt.
  apply lookup_lt_is_Some in Hlt as [ch Hci]. destruct (Hch _ _ Hci) as (Hnd & Hs & Hmem).
  assert (p ∈ ch) as (l1 & l2 & ->)%list_elem_of_split.
  { apply Hmem. split; [done|]. exists b. split; [done|]. lia. }
  pose proof (seg_middle _ _ _ _ _ _ _ Hs) as Hlk. rewrite Hb in Hlk. simpl in Hlk.
  injection Hlk as Hl Hn. rewrite last_or_None in Hl. rewrite head_or_None in Hn. simpl in Hl, Hn.
  rewrite Hl, Hn in Hq.
  apply nodup_middle in Hnd as (H1 & H2 & _).
  destruct Hq as [Hq%head_Some_elem_of|Hq%last_Some_elem_of]; (split; [apply Hmem|congruence]); set_solver.
Qed.

Lemma chains_ok_unlink h slots mask S S' p b i :
  chains_ok h slots mask S → p ∈ S → h !! p = Some b → i = Z.land (b_h b) mask → 0 ≤ i →
  (Z.to_nat i < length slots)%nat → (∀ q, q ∈ S' ↔ q ∈ S ∧ q ≠ p) →
  chains_ok (unlink_chain_cells b h)
    (match pLast b with Some _ => slots | None => <[Z.to_nat i := pNext b]> slots end) mask S'.
Proof.
  intros (chains & -> & Hch) Hp Hb Hi Hpos Hlt HS'. rewrite length_fmap in Hlt.
  apply lookup_lt_is_Some in Hlt as [ch Hci]. destruct (Hch _ _ Hci) as (Hnd & Hs & Hmem).
  assert (p ∈ ch) as (l1 & l2 & ->)%list_elem_of_split.
  { apply Hmem. split; [done|]. exists b. split; [done|]. lia. }
  pose proof (seg_middle _ _ _ _ _ _ _ Hs) as Hlk. rewrite Hb in Hlk. simpl in Hlk.
  injection Hlk as Hl Hn. rewrite last_or_None in Hl. rewrite head_or_None in Hn. simpl in Hl, Hn.
  pose proof Hnd as (Hp1 & Hp2 & Hnd')%nodup_middle.
  pose proof (agree_unlink_chain_payload b h S) as Hpl.
  assert (Hsl : ∀ j q, q ∈ S → in_slot (unlink_chain_cells b h) mask j q ↔ in_slot h mask j q).
  { intros j q Hq. by rewrite (in_slot_agree _ _ _ _ _ _ Hpl Hq). }
  exists (<[Z.to_nat i := l1 ++ l2]> chains). split.
  { rewrite list_fmap_insert, Hl, Hn. destruct l1 as [|x l1'] using rev_ind; [done|].
    rewrite last_snoc. symmetry. apply list_insert_id. rewrite list_lookup_fmap, Hci. simpl.
    by rewrite <-!app_assoc, !head_app; destruct l1'. }
  intros j c Hj. apply list_lookup_insert_Some in Hj as [(<- & <- & _) | [Hne Hj]].
  - split; [done|]. split.
    + unfold unlink_chain_cells. rewrite Hl, Hn. by apply (seg_unlink chain h l1 p l2).
    + intros q. rewrite HS'. split.
      * intros Hq. assert (q ≠ p) by (intros ->; set_solver).
        assert (q ∈ l1 ++ p :: l2) as [HqS Hqi]%Hmem by set_solver.
        split; [done|]. by apply Hsl.
      * intros [[HqS Hqp] Hqi]. rewrite Hsl in Hqi by done.
        assert (q ∈ l1 ++ p :: l2) by (by apply Hmem). set_solver.
  - destruct (Hch _ _ Hj) as (Hnd2 & Hs2 & Hmem2). split; [done|].
    assert (Hdis : ∀ q, q ∈ c → q ∉ l1 ++ p :: l2).
    { intros q [_ (b1 & Hb1 & H1)]%Hmem2 [_ (b2 & Hb2 & H2)]%Hmem. simplify_eq. apply Hne. lia. }
    split.
    + eapply seg_agree; [|exact Hs2]. intros q Hq. unfold unlink_chain_cells. rewrite Hl, Hn.
      rewrite !lookup_alter_opt_ne; [done| |].
      * intros Hq2%last_Some_elem_of. apply (Hdis q Hq). set_solver.
      * intros Hq2%head_Some_elem_of. apply (Hdis q Hq). set_solver.
    + intros q. rewrite HS'. split.
      * intros Hq. assert (q ≠ p) by (intros ->; apply (Hdis p Hq); set_solver).
        apply Hmem2 in Hq as [HqS Hqj]. split; [done|]. by apply Hsl.
      * intros [[HqS Hqp] Hqj]. rewrite Hsl in Hqj by done. by apply Hmem2.
Qed.

Lemma glob_ok_unlink h hd tl o1 p o2 b :
  glob_ok h hd tl (o1 ++ p :: o2) → h !! p = Some b →
  pListLast b = last o1 ∧ pListNext b = head o2 ∧
  glob_ok (unlink_glob_cells b h)
    (match pListLast b with Some _ => hd | None => pListNext b end)
    (match pListNext b with Some _ => tl | None => pListLast b end) (o1 ++ o2).
Proof.
  intros (Hnd & Hs & -> & ->) Hb.
  pose proof (seg_middle _ _ _ _ _ _ _ Hs) as Hlk. rewrite Hb in Hlk. simpl in Hlk.
  injection Hlk as Hl Hn. rewrite last_or_None in Hl. rewrite head_or_None in Hn. simpl in Hl, Hn.
  pose proof Hnd as (Hp1 & Hp2 & Hnd')%nodup_middle.
  split; [done|]. split; [done|]. split; [done|]. unfold unlink_glob_cells. rewrite Hl, Hn. split.
  { by apply (seg_unlink glob h o1 p o2). }
  split.
  - destruct o1 as [|x o1 _] using rev_ind; [done|]. rewrite last_snoc. by destruct o1.
  - destruct o2 as [|x o2]; simpl; [by rewrite app_nil_r|]. by rewrite !last_app_cons, last_cons_cons.
Qed.

End unlink.

Section search.
Context {V : Type}.
Implicit Types (ht : HashTable) (b : Bucket V) (p q : ptr) (order S : list ptr).
Implicit Types (h : gmap ptr (Bucket V)) (w : mem (Bucket V) (event V)) (es : list (key * V)).

(** ** Searching for a key *)

Lemma entry_hash h p (k : key) (v : V) b :
  entry h p (k, v) → h !! p = Some b → b_h b = khash k ∧ 0 ≤ b_h b < 2 ^ 64.
Proof.
  intros (b' & Hb' & [Hr Hk] & Hbk & _) Hb. simplify_eq. split; [|done].
  simpl in Hbk. subst k. unfold bkey. destruct Hk as [->|(s & Hs & Hn & Hh & Ha)]; [done|].
  rewrite Hn. destruct (Z.eqb_spec (Z.of_nat (length s)) 0) as [Hz|_].
  { destruct s; [done|]. simpl in Hz. lia. }
  rewrite Hh. by destruct Ha as [-> | ->].
Qed.

Lemma ptr_of_iff (k k' : key) (v : V) order es i p :
  NoDup order → NoDup es.*1 → length order = length es →
  order !! i = Some p → es !! i = Some (k', v) → ptr_of k order es = Some p ↔ k' = k.
Proof.
  revert es i. induction order as [|q order IH]; intros [|[k0 v0] es] i; simpl; try done.
  intros [Hq Ho]%NoDup_cons [Hk He]%NoDup_cons [= Hlen] Hi Hei.
  destruct i as [|i]; simplify_eq/=.
  - case_decide as Hd; [done|]. split; [|done]. intros Hp. exfalso. apply Hq.
    clear -Hp. revert es Hp. induction order as [|x order IH]; intros [|[k1 v1] es]; simpl; try done.
    case_decide; intros Hp; [simplify_eq; by left|]. right. by eapply IH.
  - case_decide as Hd; subst.
    + split.
      * intros [= ->]. exfalso. apply Hq. by eapply list_elem_of_lookup_2.
      * intros ->. exfalso. apply Hk. apply list_elem_of_fmap. exists (k, v). split; [done|].
        by eapply list_elem_of_lookup_2.
    + by eapply IH.
Qed.

Lemma ptr_of_Some (k : key) order es p :
  ptr_of k order es = Some p → length order = length es →
  ∃ o1 o2 (es1 es2 : list (key * V)) v,
    order = o1 ++ p :: o2 ∧ es = es1 ++ (k, v) :: es2 ∧ length o1 = length es1 ∧ k ∉ es1.*1.
Proof.
  revert es. induction order as [|q order IH]; intros [|[k0 v0] es]; simpl; try done.
  intros Hp [= Hlen]. case_decide as Hd; simplify_eq.
  - exists [], order, [], es, v0. simpl. split_and!; try done. apply not_elem_of_nil.
  - destruct (IH _ Hp Hlen) as (o1 & o2 & es1 & es2 & v & -> & -> & Hl & Hk).
    exists (q :: o1), o2, ((k0, v0) :: es1), es2, v. simpl. split_and!; try done; [by rewrite Hl|].
    apply not_elem_of_cons. split; [congruence|done].
Qed.

Lemma ptr_of_None (k : key) order es :
  length order = length es → ptr_of k order es = None ↔ k ∉ es.*1.
Proof.
  revert es. induction order as [|q order IH]; intros [|[k0 v0] es]; simpl; try done.
  - intros _. split; [|done]. intros _. apply not_elem_of_nil.
  - intros [= Hlen]. rewrite not_elem_of_cons. case_decide as Hd; subst.
    + split; [done|]. by intros [[] _].
    + rewrite (IH _ Hlen). split; [intros; split; [congruence|done]|by intros []].
Qed.

(** [ptr_of] and [al_find] are the address and the value of the same entry. *)
Lemma ptr_of_al_find (k : key) h order es :
  Forall2 (entry h) order es → 
  match ptr_of k order es with
  | Some p => ∃ b v, h !! p = Some b ∧ al_find k es = Some v ∧ data_val (pData b) = v
  | None => al_find k es = None
  end.
Proof.
  induction 1 as [|p [k' v] order es (b & Hb & _ & _ & Hv) _ IH]; simpl; [done|].
  case_decide; [|done]. exists b, v. by split_and!.
Qed.

Lemma index_test_entry h p (k : key) (v : V) b i :
  entry h p (k, v) → h !! p = Some b → index_test i b = Some (bool_decide (k = KInt i)).
Proof.
  intros (b' & Hb' & [_ Hk] & Hbk & _) Hb. rewrite Hb in Hb'. injection Hb' as <-. simpl in Hbk. subst k. unfold index_test, bkey. f_equal.
  destruct (Z.eqb_spec (nKeyLength b) 0) as [_|Hn].
  - rewrite andb_true_r. destruct (Z.eqb_spec (b_h b) i) as [->|Hne].
    + by rewrite bool_decide_true.
    + rewrite bool_decide_false; congruence.
  - rewrite andb_false_r. by rewrite bool_decide_false.
Qed.

Lemma memcmp_eq s t : length s = length t → memcmp s t = 0 ↔ s = t.
Proof.
  revert t. induction s as [|a s IH]; intros [|c t]; simpl; try done. intros [= Hl].
  destruct (Z.ltb_spec (byte_Z a) (byte_Z c)); [split; [done|intros [= -> ->]; lia]|].
  destruct (Z.ltb_spec (byte_Z c) (byte_Z a)); [split; [done|intros [= -> ->]; lia]|].
  rewrite (IH _ Hl). split; [|by intros [= -> ->]]. intros ->. f_equal.
  assert (byte_Z a = byte_Z c) as Hac by lia. unfold byte_Z in Hac.
  apply N2Z.inj in Hac.
  pose proof (Byte.of_to_N a) as H1. pose proof (Byte.of_to_N c) as H2. congruence.
Qed.

Lemma read_bytes_full (kp : kptr) (s : bytes) :
  kbytes kp = Some s → read_bytes kp (Z.of_nat (length s)) = Some s.
Proof.
  intros Hk. unfold read_bytes. rewrite Hk. destruct s as [|c s]; [done|].
  destruct (Z.eqb_spec (Z.of_nat (length (c :: s))) 0); [simpl in *; lia|].
  rewrite Z.leb_refl, Nat2Z.id. by rewrite take_ge.
Qed.

Lemma memcmp_keys_eq k1 k2 s t :
  kbytes k1 = Some s → kbytes k2 = Some t → length s = length t →
  ∃ c, memcmp_keys k1 k2 (Z.of_nat (length t)) = Some c ∧ (c = 0 ↔ s = t).
Proof.
  intros Hs Ht Hl. unfold memcmp_keys.
  rewrite (read_bytes_full _ _ Ht), <-Hl, (read_bytes_full _ _ Hs).
  eexists. split; [done|]. by apply memcmp_eq.
Qed.

(** the comparison of the bytes of a string bucket with a key of that length *)
Lemma string_bytes_test b kp len s t hh :
  kbytes (arKey b) = Some s → nKeyLength b = Z.of_nat (length s) → b_h b = zend_inline_hash_func s →
  kbytes kp = Some t → len = Z.of_nat (length t) → hh = zend_inline_hash_func t →
  (if (b_h b =? hh) && (nKeyLength b =? len)
   then (λ c, c =? 0) <$> memcmp_keys (arKey b) kp len else Some false) = Some (bool_decide (s = t)).
Proof.
  intros Hs Hn Hh Ht -> ->. rewrite Hn, Hh.
  destruct (Z.eqb_spec (Z.of_nat (length s)) (Z.of_nat (length t))) as [Hl|Hl].
  - apply Nat2Z.inj in Hl. destruct (memcmp_keys_eq _ _ _ _ Hs Ht Hl) as (c & -> & Hc).
    destruct (Z.eqb_spec (zend_inline_hash_func s) (zend_inline_hash_func t)) as [He|He]; simpl.
    + f_equal. destruct (Z.eqb_spec c 0) as [Hz|Hz].
      * by rewrite bool_decide_true by (by apply Hc).
      * rewrite bool_decide_false; [done|]. by rewrite <-Hc.
    + rewrite bool_decide_false; [done|]. congruence.
  - rewrite andb_false_r, bool_decide_false; [done|]. congruence.
Qed.

Lemma string_test_entry h order p (k : key) (v : V) b kp len s :
  entry h p (k, v) → h !! p = Some b → clean h order → p ∈ order → key_arg h kp len s →
  string_test kp len (zend_inline_hash_func s) b = Some (bool_decide (k = KStr s)).
Proof.
  intros (b' & Hb' & [_ Hk] & Hbk & _) Hb Hc Hp (Hs & Hlen & Hne & Hown). rewrite Hb in Hb'. injection Hb' as <-. simpl in Hbk. subst k len.
  unfold string_test, bkey. destruct Hk as [Hk0|(t & Ht & Hn & Hh & Ha)].
  - rewrite (Hc p b Hp Hb Hk0), Hk0.
    assert (ptr_eq KNull kp = Some false) as -> by (by destruct kp).
    rewrite bool_decide_false by done. destruct s; [done|].
    by rewrite andb_false_r.
  - assert (nKeyLength b =? 0 = false) as ->.
    { apply Z.eqb_neq. rewrite Hn. destruct t; [done|]. simpl. lia. }
    assert (kbytes (arKey b) = Some t) as Hkb by (by destruct Ha as [-> | ->]).
    rewrite Hkb. simpl. 
    rewrite (string_bytes_test b kp _ t s _ Hkb Hn Hh Hs eq_refl eq_refl).
    assert (Hiff : bool_decide (t = s) = bool_decide (KStr t = KStr s)).
    { apply bool_decide_ext. split; congruence. }
    rewrite <-Hiff. destruct (ptr_eq (arKey b) kp) as [[]|] eqn:He; [|done|].
    + rewrite bool_decide_true; [done|].
      destruct Ha as [Ha|Ha]; rewrite Ha in He; destruct kp as [|s'|q' s'|a' s'|]; simplify_eq/=.
      * by apply bool_decide_eq_true in He.
      * apply bool_decide_eq_true in He. subst q'. by eapply Hown.
    + exfalso. destruct Ha as [Ha|Ha]; rewrite Ha in He; by destruct kp.
Qed.

Lemma del_test_entry h p (k : key) (v : V) b kp len s :
  entry h p (k, v) → h !! p = Some b → kbytes kp = Some s → len = Z.of_nat (length s) → s ≠ [] →
  del_test kp len (zend_inline_hash_func s) b = Some (bool_decide (k = KStr s)).
Proof.
  intros (b' & Hb' & [_ Hk] & Hbk & _) Hb Hs Hlen Hne. rewrite Hb in Hb'. injection Hb' as <-. simpl in Hbk. subst k len. unfold del_test, bkey.
  destruct Hk as [Hk0|(t & Ht & Hn & Hh & Ha)].
  - rewrite Hk0. destruct s; [done|]. simpl. by rewrite andb_false_r.
  - assert (nKeyLength b =? 0 = false) as ->.
    { apply Z.eqb_neq. rewrite Hn. destruct t; [done|]. simpl. lia. }
    assert (kbytes (arKey b) = Some t) as Hkb by (by destruct Ha as [-> | ->]).
    rewrite Hkb. simpl. rewrite (string_bytes_test b kp _ t s _ Hkb Hn Hh Hs eq_refl eq_refl).
    f_equal. apply bool_decide_ext. split; congruence.
Qed.

Lemma del_test_index h p (k : key) (v : V) b i :
  entry h p (k, v) → h !! p = Some b → del_test KNull 0 i b = Some (bool_decide (k = KInt i)).
Proof.
  intros He Hb. rewrite <-(index_test_entry _ _ _ _ _ _ He Hb). unfold del_test, index_test.
  destruct ((b_h b =? i) && (nKeyLength b =? 0)) eqn:Ht; [|done].
  apply andb_true_iff in Ht as [_ ->]. done.
Qed.

Lemma chain_lookup w ht order es (k : key) test :
  mem_ok w → repr (cells w) ht order es → 0 ≤ khash k →
  (∀ p b k' v, p ∈ order → cells w !! p = Some b → entry (cells w) p (k', v) →
    test b = Some (bool_decide (k' = k))) →
  ∃ x, rd_slot ht (Z.land (khash k) (nTableMask ht)) w = Done x w ∧
       chain_search test x w = Done (ptr_of k order es) w.
Proof.
  intros Hmem [Hg _ _ _ Hsz _ (chains & Hsl & Hch) He Hk _] Hpos Ht.
  destruct (size_ok_slot ht _ Hsz Hpos) as (x & Hland & Hx). exists x.
  split. { unfold rd_slot. by rewrite Hx. }
  rewrite Hsl in Hx. apply list_lookup_fmap_Some in Hx as (ch & -> & Hci).
  destruct (Hch _ _ Hci) as (Hnd & Hs & Hin). destruct Hg as (Hnodup & Hgs & _).
  pose proof (Forall2_length _ _ _ He) as Hlen.
  unfold chain_search. rewrite (bind_Done _ _ _ (fuel_of w) w) by done.
  rewrite (search_from_spec chain w test (λ p, bool_decide (ptr_of k order es = Some p)) _ None ch).
  - f_equal. destruct (ptr_of k order es) as [p|] eqn:Hp.
    + assert (p ∈ ch) as Hpch.
      { destruct (ptr_of_Some _ _ _ _ Hp Hlen) as (o1 & o2 & es1 & es2 & v & Ho & Hes & Hl & _).
        assert (entry (cells w) p (k, v)) as Hent.
        { subst. apply Forall2_app_inv in He as [_ He]; [|done]. by apply Forall2_cons in He as [? _]. }
        apply Hin. split; [subst; set_solver|]. destruct Hent as (b & Hb & Hrest).
        assert (entry (cells w) p (k, v)) as Hent by (exists b; done).
        exists b. split; [done|]. rewrite (proj1 (entry_hash _ _ _ _ _ Hent Hb)). lia. }
      destruct (list_find _ ch) as [[i q]|] eqn:Hf; simpl.
      * apply list_find_Some in Hf as (_ & Hq & _). apply bool_decide_unpack in Hq. congruence.
      * apply list_find_None in Hf. rewrite Forall_forall in Hf. exfalso. apply (Hf p Hpch).
        by apply bool_decide_pack.
    + destruct (list_find _ ch) as [[i q]|] eqn:Hf; [|done].
      apply list_find_Some in Hf as (_ & Hq & _). by apply bool_decide_unpack in Hq.
  - done.
  - intros p [Hpo _]%Hin. apply list_elem_of_lookup in Hpo as [i Hi].
    destruct (lookup_lt_is_Some_2 es i) as [[k' v] Hei].
    { rewrite <-Hlen. by eapply lookup_lt_Some. }
    pose proof (Forall2_lookup_lr _ _ _ _ _ _ He Hi Hei) as Hent.
    destruct Hent as (b & Hb & Hrest). assert (entry (cells w) p (k', v)) as Hent by (exists b; done).
    exists b. split; [done|]. rewrite (Ht p b k' v); [|by eapply list_elem_of_lookup_2|done|done].
    f_equal. apply bool_decide_ext. symmetry. by eapply ptr_of_iff.
  - unfold fuel_of. apply Nat.lt_le_incl, length_lt_brk; [done|].
    intros p [_ (b & Hb & _)]%Hin. apply Hmem. by rewrite Hb.
Qed.

End search.
