(* ===== verification/HashInsert.v ===== *)
(** * Insertion and growth of hash tables

    [zend_hash_rehash] and [zend_hash_do_resize] rebuild the chains; the three
    functions that add or update an element refine [al_update] on the contents
    ([upd_post]). *)

From S2P Require Import Prelude DList HashModel HashRepr HashFacts.
Local Open Scope Z_scope.

(** what growing a table does not change *)
Definition ht_rest (ht : HashTable) :=
  (nNumOfElements ht, nNextFreeElement ht, pInternalPointer ht, pListHead ht, pListTail ht,
   (pDestructor ht, persistent ht, nApplyCount ht, bApplyProtection ht)).

(** what no operation on elements changes *)
Definition ht_cfg (ht : HashTable) := (pDestructor ht, persistent ht, nApplyCount ht, bApplyProtection ht).

(** only the chains of the buckets [S] were written *)
Record relinked {V} (S : list ptr) (w w' : mem (Bucket V) (event V)) : Prop := {
  rl_glob : ∀ l, agree (lnk glob) (cells w) (cells w') l;
  rl_payload : ∀ l, agree payload (cells w) (cells w') l;
  rl_frame : ∀ q, q ∉ S → cells w' !! q = cells w !! q;
  rl_live : ∀ q, is_Some (cells w' !! q) ↔ is_Some (cells w !! q);
  rl_brk : brk w' = brk w;
  rl_trace : trace w' = trace w
}.

(** *** Results of adding [k ↦ v], as functions of the contents *)
Definition upd_es {V} (add : bool) (k : key) (v : V) (es : list (key * V)) : list (key * V) :=
  match al_find k es with Some _ => if add then es else al_update k v es | None => es ++ [(k, v)] end.
Definition upd_result {V} (add : bool) (k : key) (es : list (key * V)) : Z :=
  match al_find k es with Some _ => if add then FAILURE else SUCCESS | None => SUCCESS end.
Definition upd_events {V} (dtor add : bool) (k : key) (es : list (key * V)) : list (event V) :=
  match al_find k es with
  | Some v0 => if add then [] else if dtor then [EvDtor v0] else []
  | None => []
  end.
Definition upd_order {V} (k : key) (es : list (key * V)) (order : list ptr) (fresh : ptr) : list ptr :=
  match al_find k es with Some _ => order | None => order ++ [fresh] end.
Definition upd_cur {V} (k : key) (es : list (key * V)) (cur : option ptr) (fresh : ptr) : option ptr :=
  match al_find k es, cur with None, None => Some fresh | _, _ => cur end.
Definition upd_next {V} (k : key) (es : list (key * V)) (next : Z) : Z :=
  match al_find k es, k with
  | None, KInt h => if s64 h >=? s64 next then (if h <? LONG_MAX then h + 1 else LONG_MAX) else next
  | _, _ => next
  end.

Record upd_post {V} (add : bool) (k : key) (v : V) w ht order es w' ht' order' (r : Z) (pd : option ptr) : Prop := {
  up_tbl : tbl w' ht' order' (upd_es add k v es);
  up_order : order' = upd_order k es order (brk w);
  up_evolves : evolves w order w' order';
  up_trace : trace w' = trace w ++ upd_events (pDestructor ht) add k es;
  up_result : r = upd_result add k es;
  up_dest : pd = if r =? SUCCESS then ptr_of k order' (upd_es add k v es) else None;
  up_cfg : ht_cfg ht' = ht_cfg ht;
  up_cur : pInternalPointer ht' = upd_cur k es (pInternalPointer ht) (brk w);
  up_next : nNextFreeElement ht' = upd_next k es (nNextFreeElement ht)
}.

Section insert.
Context {V : Type}.
Implicit Types (ht : HashTable) (b : Bucket V) (p q : ptr) (order S : list ptr).
Implicit Types (h : gmap ptr (Bucket V)) (w : mem (Bucket V) (event V)) (es : list (key * V)).

(** ** Run equations of the macros *)

Lemma rd_slot_Done ht i x w : arBuckets ht !! Z.to_nat i = Some x → rd_slot ht i w = Done x w.
Proof. unfold rd_slot. by intros ->. Qed.

Lemma wr_slot_Done ht i x w :
  (Z.to_nat i < length (arBuckets ht))%nat →
  wr_slot ht i x w = Done (set_arBuckets (<[Z.to_nat i := x]> (arBuckets ht)) ht) w.
Proof. intros Hlt. unfold wr_slot. by rewrite decide_True. Qed.

Lemma connect_run p hd w :
  is_Some (cells w !! p) → (∀ q, hd = Some q → is_Some (cells w !! q)) →
  CONNECT_TO_BUCKET_DLLIST p hd w = Done tt (with_cells (connect_cells p hd) w).
Proof.
  intros Hp Hhd. unfold CONNECT_TO_BUCKET_DLLIST.
  rewrite (bind_Done _ _ _ _ _ (store_Done p _ w Hp)).
  rewrite (bind_Done _ _ _ _ _ (store_Done p (set_pLast None) (with_cells (alter (set_pNext hd) p) w)
    ltac:(by simpl; rewrite lookup_alter_is_Some))).
  rewrite store_opt_Done; [done|]. intros q Hq. simpl. rewrite !lookup_alter_is_Some. by apply Hhd.
Qed.

Lemma global_ex_run p ht last next w :
  is_Some (cells w !! p) → (∀ q, last = Some q → is_Some (cells w !! q)) →
  (∀ q, next = Some q → is_Some (cells w !! q)) →
  CONNECT_TO_GLOBAL_DLLIST_EX p ht last next w =
    Done (let ht := match last with Some _ => ht | None => set_pListHead (Some p) ht end in
          match next with Some _ => ht | None => set_pListTail (Some p) ht end)
         (with_cells (glob_cells p last next) w).
Proof.
  intros Hp Hl Hn. unfold CONNECT_TO_GLOBAL_DLLIST_EX.
  rewrite (bind_Done _ _ _ _ _ (store_Done p _ w Hp)).
  rewrite (bind_Done _ _ _ _ _ (store_Done p (set_pListNext next) (with_cells (alter (set_pListLast last) p) w)
    ltac:(by simpl; rewrite lookup_alter_is_Some))).
  erewrite bind_Done; [|apply store_or_Done; intros q Hq; simpl; rewrite !lookup_alter_is_Some; by apply Hl].
  rewrite store_or_Done; [done|]. intros q Hq. simpl.
  rewrite is_Some_alter_opt, !lookup_alter_is_Some. by apply Hn.
Qed.

(** ** Rebuilding the chains *)

Lemma relinked_refl S w : relinked S w w.
Proof. split; intros; try done; apply agree_refl. Qed.

Lemma relinked_trans S w1 w2 w3 : relinked S w1 w2 → relinked S w2 w3 → relinked S w1 w3.
Proof.
  intros [] []. split; intros; try congruence.
  - eapply agree_trans; eauto.
  - eapply agree_trans; eauto.
  - rewrite rl_frame1 by done. auto.
  - rewrite rl_live1. auto.
Qed.

Lemma relinked_connect (S : list ptr) p hd w :
  p ∈ S → (∀ q, hd = Some q → q ∈ S) → relinked S w (with_cells (connect_cells p hd) w).
Proof.
  intros Hp Hhd. split; simpl; try done.
  - intros. apply agree_connect_glob.
  - intros. apply agree_connect_payload.
  - intros q Hq. apply lookup_connect_ne; [congruence|]. intros ->. by apply Hq, Hhd.
  - intros q. apply is_Some_connect.
Qed.

(** the head of a chain is a bucket of the table *)
Lemma slot_head_live h slots mask S i q :
  chains_ok h slots mask S → slots !! i = Some (Some q) → q ∈ S ∧ is_Some (h !! q).
Proof.
  intros (chains & -> & Hch) Hi. apply list_lookup_fmap_Some in Hi as (ch & Hq & Hci).
  destruct (Hch _ _ Hci) as (_ & Hs & Hmem). symmetry in Hq. apply head_Some_elem_of in Hq.
  split; [by apply Hmem|]. by eapply seg_live.
Qed.

Lemma rehash_loop_spec rest S w ht fuel :
  seg glob (cells w) (last_or S None) rest None → NoDup (S ++ rest) →
  chains_ok (cells w) (arBuckets ht) (nTableMask ht) S → size_ok ht →
  (∀ p, p ∈ rest → ∃ b, cells w !! p = Some b ∧ 0 ≤ b_h b) → (length rest ≤ fuel)%nat →
  ∃ w' slots, rehash_loop fuel ht (head rest) w = Done (set_arBuckets slots ht) w' ∧
    length slots = length (arBuckets ht) ∧
    chains_ok (cells w') slots (nTableMask ht) (S ++ rest) ∧ relinked (S ++ rest) w w'.
Proof.
  revert S w ht fuel. induction rest as [|p rest IH]; intros S w ht fuel Hs Hnd Hc Hsz Hb Hf.
  - exists w, (arBuckets ht). rewrite app_nil_r. destruct fuel; simpl; destruct ht;
      (split; [done|]; split; [done|]; split; [done|apply relinked_refl]).
  - destruct fuel as [|fuel]; simpl in Hf; [lia|]. destruct (Hb p) as (b & Hpb & Hbh); [left|].
    destruct (size_ok_slot ht (b_h b) Hsz Hbh) as (hd & Hland & Hhd).
    pose proof Hnd as (HpS & Hprest & _)%nodup_middle.
    destruct Hs as [Hpl Hs]. rewrite Hpb in Hpl. simpl in Hpl. injection Hpl as _ Hnext. simpl in Hnext.
    simpl. rewrite (bind_Done _ _ _ _ _ (load_Done _ _ _ Hpb)).
    rewrite (bind_Done _ _ _ _ _ (rd_slot_Done _ _ _ _ Hhd)).
    erewrite bind_Done; [|apply connect_run; [by rewrite Hpb|]].
    2: { intros q ->. eapply slot_head_live; [exact Hc|exact Hhd]. }
    erewrite bind_Done; [|apply wr_slot_Done; by eapply lookup_lt_Some].
    rewrite Hnext, head_or_None.
    pose proof (chains_ok_connect _ _ _ _ _ _ _ _ Hc HpS Hpb eq_refl Hland Hhd) as Hc'.
    edestruct (IH (S ++ [p])) as (w' & slots & Hrun & Hlen & Hch & Hrl).
    7: {
      rewrite Hrun. exists w', slots. rewrite <-app_assoc in Hch, Hrl. simpl in Hch, Hrl, Hlen.
      rewrite length_insert in Hlen. split; [by destruct ht|]. split; [done|]. split; [done|].
      eapply relinked_trans; [|exact Hrl]. apply relinked_connect; [set_solver|].
      intros q ->. apply elem_of_app. left. eapply slot_head_live; [exact Hc|exact Hhd]. }
    + rewrite last_or_snoc. eapply seg_agree; [|exact Hs]. apply agree_connect_glob.
    + by rewrite <-app_assoc.
    + simpl. eapply chains_ok_ext; [|exact Hc']. intros q. set_solver.
    + destruct Hsz as (? & ? & ?). split_and!; try done. simpl. by rewrite length_insert.
    + intros q Hq. destruct (Hb q) as (bq & Hbq & Hpos); [by right|].
      destruct (payload_spec _ _ [q] _ _ (agree_connect_payload p hd (cells w) [q]) ltac:(left) Hbq)
        as (b' & Hb' & (Hh & _)%payload_inv).
      exists b'. split; [done|]. by rewrite Hh.
    + lia.
Qed.

Lemma length_memset ht : length (arBuckets (memset_arBuckets ht)) = Z.to_nat (nTableSize ht).
Proof. simpl. apply length_replicate. Qed.

(** [zend_hash_rehash] makes the chains right, whatever they were. *)
Lemma rehash_spec w ht order :
  mem_ok w → glob_ok (cells w) (pListHead ht) (pListTail ht) order →
  (∀ p, p ∈ order → ∃ b, cells w !! p = Some b ∧ 0 ≤ b_h b) →
  nNumOfElements ht = Z.of_nat (length order) → order ≠ [] →
  (∃ k, 3 ≤ k ≤ 31 ∧ nTableSize ht = 2 ^ k) → nTableMask ht = nTableSize ht - 1 →
  ∃ w' slots, zend_hash_rehash ht w = Done (set_arBuckets slots ht) w' ∧
    size_ok (set_arBuckets slots ht) ∧
    chains_ok (cells w') slots (nTableMask ht) order ∧ relinked order w w'.
Proof.
  intros Hm (Hnd & Hs & Hhd & _) Hb Hn Hne Hsize Hmask. unfold zend_hash_rehash.
  rewrite Hn. destruct (Z.eqb_spec (Z.of_nat (length order)) 0) as [H0|_].
  { destruct order; [done|]. simpl in H0. lia. }
  rewrite (bind_Done _ _ _ (fuel_of w) w) by done. rewrite Hhd.
  destruct (rehash_loop_spec order [] w (memset_arBuckets ht) (fuel_of w)) as (w' & slots & Hrun & Hlen & Hc & Hrl).
  - done.
  - done.
  - simpl. apply chains_ok_empty.
  - split; [done|]. split; [by right|]. rewrite length_memset. simpl. destruct Hsize as (k & Hk & Hsz).
    pose proof (Z.pow_pos_nonneg 2 k ltac:(lia) ltac:(lia)). lia.
  - done.
  - unfold fuel_of. apply Nat.lt_le_incl, length_lt_brk; [done|].
    intros p (b & Hpb & _)%Hb. apply Hm. by rewrite Hpb.
  - exists w', slots. split; [rewrite Hrun; by destruct ht|]. split; [|done].
    split; [done|]. split; [by right|]. rewrite length_memset in Hlen. simpl. rewrite Hlen.
    destruct Hsize as (k & Hk & Hsz).
    pose proof (Z.pow_pos_nonneg 2 k ltac:(lia) ltac:(lia)). lia.
Qed.

Lemma entries_live h order es :
  Forall2 (entry h) order es → ∀ p, p ∈ order → ∃ b, h !! p = Some b ∧ key_ok p b.
Proof.
  induction 1 as [|p e order es (b & Hb & Hk & _) _ IH]; intros q Hq; [by apply elem_of_nil in Hq|].
  apply elem_of_cons in Hq as [->|Hq]; [eauto|by apply IH].
Qed.

Lemma glob_ok_agree h h' hd tl order :
  agree (lnk glob) h h' order → glob_ok h hd tl order → glob_ok h' hd tl order.
Proof. intros Hag (? & Hs & ? & ?). split_and!; try done. by eapply seg_agree. Qed.

Lemma mem_ok_relinked S w w' : relinked S w w' → mem_ok w → mem_ok w'.
Proof. intros [] Hm p Hp. rewrite rl_brk0. apply Hm. by apply rl_live0. Qed.

Lemma evolves_relinked w w' order : relinked order w w' → evolves w order w' order.
Proof. intros []. split; [intros; by apply rl_frame0|rewrite rl_brk0; lia|by left]. Qed.

Lemma evolves_refl w order : evolves w order w order.
Proof. split; [done|lia|by left]. Qed.

Lemma evolves_trans w1 o1 w2 o2 w3 o3 :
  mem_ok w1 → evolves w1 o1 w2 o2 → evolves w2 o2 w3 o3 → evolves w1 o1 w3 o3.
Proof.
  intros Hm [F1 B1 N1] [F2 B2 N2]. split.
  - intros q Hq Hlive. rewrite F2; [by apply F1| |by rewrite F1].
    intros [?|Hlt]%N1; [done|]. apply Hm in Hlive. lia.
  - lia.
  - intros q [Hq|Hq]%N2; [by apply N1|right; lia].
Qed.

(** Changes of the links alone keep [tbl], once the chains are right. *)
Lemma tbl_relinked w ht order es w' ht' :
  tbl w ht order es → relinked order w w' → ht_rest ht' = ht_rest ht → size_ok ht' →
  nTableMask ht' ≠ 0 → chains_ok (cells w') (arBuckets ht') (nTableMask ht') order → tbl w' ht' order es.
Proof.
  intros [Hm [Hg Hn Hmax Hcur Hsz0 Hinit Hch0 He Hk Hnx] Hc] Hrl Hrest Hsz Hmask Hch.
  unfold ht_rest in Hrest. injection Hrest as En Ef Ei Eh Et _ _ _ _.
  split.
  - by eapply mem_ok_relinked.
  - split; rewrite ?En, ?Eh, ?Et, ?Ei; try done.
    + eapply glob_ok_agree; [|done]. apply Hrl.
    + eapply entries_agree; [|done]. apply Hrl.
    + unfold next_ok. by rewrite Ef.
  - eapply clean_agree; [|done]. apply Hrl.
Qed.

Lemma resize_spec w ht order es :
  tbl w ht order es → order ≠ [] → 
  ∃ w' ht', ZEND_HASH_IF_FULL_DO_RESIZE ht w = Done ht' w' ∧ tbl w' ht' order es ∧
    relinked order w w' ∧ ht_rest ht' = ht_rest ht ∧
    nTableSize ht' = (if (nNumOfElements ht >? nTableSize ht) && (nTableSize ht <? 2 ^ 31)
                      then 2 * nTableSize ht else nTableSize ht).
Proof.
  intros Ht Hne. pose proof Ht as [Hm [Hg Hn Hmax Hcur Hsz Hinit Hch He Hk Hnx] Hc]. unfold ZEND_HASH_IF_FULL_DO_RESIZE, zend_hash_do_resize.
  destruct (nNumOfElements ht >? nTableSize ht).
  2: { exists w, ht. split; [done|]. split; [done|]. split; [apply relinked_refl|done]. }
  destruct Hsz as ((k & Hk3 & Hs) & Hmk & Hlen).
  assert (Z.shiftl (nTableSize ht) 1 = 2 ^ (k + 1)) as ->.
  { rewrite Hs, Z.shiftl_mul_pow2, Z.pow_add_r; lia. }
  destruct (Z.eq_dec k 31) as [->|Hk31].
  { replace (u32 (2 ^ (31 + 1)) >? 0) with false by reflexivity.
    rewrite Hs. exists w, ht. split; [done|]. split; [done|]. split; [apply relinked_refl|done]. }
  assert (2 ^ (k + 1) < 2 ^ 32) by (apply Z.pow_lt_mono_r; lia).
  assert (0 < 2 ^ (k + 1)) by (apply Z.pow_pos_nonneg; lia).
  rewrite (u32_small (2 ^ (k + 1))) by lia.
  destruct (Z.gtb_spec (2 ^ (k + 1)) 0) as [_|]; [|lia].
  set (ht1 := set_nTableMask _ _).
  assert (nTableMask ht1 = nTableSize ht1 - 1) as Hm1.
  { simpl. apply u32_small. lia. }
  destruct (rehash_spec w ht1 order) as (w' & slots & Hrun & Hsz' & Hch' & Hrl); try done.
  { intros p Hp. destruct (entries_live _ _ _ He p Hp) as (b & Hb & [[? _] _]). eauto. }
  { exists (k + 1). split; [lia|done]. }
  exists w', (set_arBuckets slots ht1). rewrite Hrun. split; [done|]. split; [|split; [done|split; [done|]]].
  2: { simpl. rewrite Hs. destruct (Z.ltb_spec (2 ^ k) (2 ^ 31)) as [_|Hge].
       - by rewrite Z.pow_add_r, Z.mul_comm by lia.
       - pose proof (Z.pow_lt_mono_r 2 k 31). lia. }
  eapply tbl_relinked; try done. change (nTableMask ht1 ≠ 0). rewrite Hm1. simpl.
  assert (2 ^ 1 < 2 ^ (k + 1)) by (apply Z.pow_lt_mono_r; lia). lia.
Qed.

(** [CHECK_INIT] allocates the array. *)
Lemma check_init_spec w ht order es :
  tbl w ht order es → tbl w (CHECK_INIT ht) order es ∧ nTableMask (CHECK_INIT ht) ≠ 0 ∧
    ht_rest (CHECK_INIT ht) = ht_rest ht.
Proof.
  intros Ht. pose proof Ht as [Hm [Hg Hn Hmax Hcur Hsz Hinit Hch He Hk Hnx] Hc]. unfold CHECK_INIT.
  destruct (Z.eqb_spec (nTableMask ht) 0) as [H0|H0]; [|done].
  pose proof (Hinit H0) as ->. destruct Hsz as ((k & Hk3 & Hs) & Hmk & Hlen).
  assert (2 ^ 3 ≤ 2 ^ k) by (apply Z.pow_le_mono_r; lia).
  assert (2 ^ k ≤ 2 ^ 31) by (apply Z.pow_le_mono_r; lia).
  assert (Hu : u32 (nTableSize ht - 1) = nTableSize ht - 1) by (apply u32_small; lia).
  assert (Hmask : u32 (nTableSize ht - 1) ≠ 0) by lia.
  split; [|done]. apply (tbl_relinked w ht [] es); [done|apply relinked_refl|done| |done|].
  - split; [by exists k|]. split; [right; apply Hu|].
    change (Z.of_nat (length (arBuckets (memset_arBuckets ht))) = u32 (nTableSize ht - 1) + 1).
    rewrite length_memset, Hu. lia.
  - apply chains_ok_empty.
Qed.

(** ** Linking a new bucket *)

(** the fields of the table after the new bucket [p] is linked in slot [i] *)
Definition linked_ht ht p i nx ht' : Prop :=
  nTableSize ht' = nTableSize ht ∧ nTableMask ht' = nTableMask ht ∧
  arBuckets ht' = <[Z.to_nat i := Some p]> (arBuckets ht) ∧
  nNumOfElements ht' = u32 (nNumOfElements ht + 1) ∧ nNextFreeElement ht' = nx ∧
  pListHead ht' = match pListTail ht with Some _ => pListHead ht | None => Some p end ∧
  pListTail ht' = Some p ∧
  pInternalPointer ht' = match pInternalPointer ht with Some c => Some c | None => Some p end ∧
  ht_cfg ht' = ht_cfg ht.

(** the store after the new bucket [b0] is linked *)
Definition linked_mem ht (b0 : Bucket V) (hd : option ptr) w : mem (Bucket V) (event V) :=
  Mem (glob_cells (brk w) (pListTail ht) None (connect_cells (brk w) hd (<[brk w := b0]> (cells w))))
    (Pos.succ (brk w)) (trace w).

Lemma fresh_not_in w ht order es : tbl w ht order es → brk w ∉ order.
Proof.
  intros [Hm [Hg Hn Hmax Hcur Hsz Hinit Hch He Hk Hnx] Hc] Hin.
  destruct (entries_live _ _ _ He _ Hin) as (b & Hb & _).
  assert (brk w < brk w)%positive by (apply Hm; by rewrite Hb). lia.
Qed.

Lemma glob_ok_append h hd tl order p b :
  glob_ok h hd tl order → p ∉ order → h !! p = Some b →
  glob_ok (glob_cells p tl None h) (match tl with Some _ => hd | None => Some p end) (Some p) (order ++ [p]).
Proof.
  intros (Hnd & Hs & -> & ->) Hp Hb. split.
  { apply NoDup_app. split; [done|]. split; [set_solver|]. apply NoDup_singleton. }
  split; [|split].
  - unfold glob_cells. apply (seg_link_tail glob).
    + apply NoDup_app. split; [done|]. split; [set_solver|]. apply NoDup_singleton.
    + apply (seg_alter_other glob _ (Some p)); [by intros ? [= <-]|].
      apply (seg_alter_other glob _ (Some p)); [by intros ? [= <-]|done].
    + rewrite !lookup_alter_eq, Hb. done.
  - destruct order as [|x order _] using rev_ind; [done|]. rewrite last_snoc. by destruct order.
  - by rewrite last_snoc.
Qed.

Lemma linked_spec w ht order es b0 k v i hd nx ht' :
  tbl w ht order es → nTableMask ht ≠ 0 → k ∉ es.*1 → Z.of_nat (length order) + 1 < 2 ^ 32 →
  key_ok (brk w) b0 → bkey b0 = k → data_val (pData b0) = v → (nKeyLength b0 = 0 → arKey b0 = KNull) →
  i = Z.land (b_h b0) (nTableMask ht) → 0 ≤ i → arBuckets ht !! Z.to_nat i = Some hd →
  nNextFreeElement ht ≤ nx ≤ LONG_MAX → (∀ j, k = KInt j → s64 j < nx ∨ nx = LONG_MAX) →
  linked_ht ht (brk w) i nx ht' →
  tbl (linked_mem ht b0 hd w) ht' (order ++ [brk w]) (es ++ [(k, v)]).
Proof.
  intros Ht Hmask Hk Hlen Hok Hbk Hv Hcl Hi Hpos Hhd Hnx Hj (E1 & E2 & E3 & E4 & E5 & E6 & E7 & E8 & E9).
  pose proof (fresh_not_in _ _ _ _ Ht) as Hfresh.
  destruct Ht as [Hm [Hg Hn Hmax Hcur Hsz Hinit Hch He Hkeys Hnext] Hc].
  set (p := brk w) in *. set (h1 := <[p:=b0]> (cells w)).
  assert (Hb0 : h1 !! p = Some b0) by apply lookup_insert_eq.
  assert (Hpl1 : agree payload (cells w) h1 order) by (by apply agree_insert).
  assert (Hpl : agree payload h1 (glob_cells p (pListTail ht) None (connect_cells p hd h1)) (order ++ [p])).
  { eapply agree_trans; [apply agree_connect_payload|apply agree_glob_payload]. }
  split.
  - intros q. unfold linked_mem. simpl. rewrite is_Some_glob, is_Some_connect, lookup_insert.
    case_decide; [subst; lia|]. intros Hq%Hm. lia.
  - assert (Hgl : glob_ok (connect_cells p hd h1) (pListHead ht) (pListTail ht) order).
    { eapply glob_ok_agree; [|exact Hg]. eapply agree_trans; [by apply agree_insert|apply agree_connect_glob]. }
    split; unfold linked_mem; simpl; fold p h1.
    + rewrite E6, E7. destruct (payload_spec h1 (connect_cells p hd h1) [p] p b0) as (b' & Hb' & _);
        [apply agree_connect_payload|left|done|]. by eapply glob_ok_append.
    + rewrite E4, Hn, length_app. simpl. rewrite u32_small; lia.
    + rewrite length_app. simpl. lia.
    + intros q. rewrite E8. destruct (pInternalPointer ht) as [c|].
      * intros [= <-]. apply elem_of_app. left. by apply Hcur.
      * intros [= <-]. set_solver.
    + destruct Hsz as (Ha & Hb & Hl). split; [by rewrite E1|]. rewrite E1, E2, E3, length_insert. done.
    + rewrite E2. done.
    + rewrite E2, E3. eapply chains_ok_agree; [apply agree_glob_chain|apply agree_glob_payload|].
      eapply (chains_ok_ext _ _ _ (p :: order)); [intros; set_solver|].
      eapply chains_ok_connect; try done.
      eapply chains_ok_agree; [by apply agree_insert|done|done].
    + apply Forall2_app.
      * eapply entries_agree; [eapply agree_subset; [|exact Hpl]; set_solver|]. by eapply entries_agree.
      * constructor; [|constructor]. eapply entry_agree; [exact Hpl|set_solver|]. by exists b0.
    + rewrite fmap_app. simpl. apply NoDup_app. split; [done|].
      split; [|apply NoDup_singleton]. intros x Hx ->%list_elem_of_singleton. done.
    + unfold next_ok in *. rewrite E5. destruct Hnext as [Hr Hlt]. split; [lia|].
      intros j v'. rewrite elem_of_app, list_elem_of_singleton. intros [Hin|[= <- <-]]; [|by apply Hj].
      destruct (Hlt _ _ Hin); lia.
  - apply (clean_agree _ _ _ Hpl). intros q b Hq Hb Hz.
    apply elem_of_app in Hq as [Hq| ->%list_elem_of_singleton].
    + apply (Hc q b Hq); [|done]. unfold h1 in Hb. rewrite lookup_insert_ne in Hb; [done|]. set_solver.
    + rewrite Hb0 in Hb. injection Hb as <-. by apply Hcl.
Qed.

Lemma evolves_linked w ht order es hd b0 :
  tbl w ht order es → (∀ q, hd = Some q → q ∈ order) →
  evolves w order (linked_mem ht b0 hd w) (order ++ [brk w]).
Proof.
  intros Ht Hhd. pose proof (fresh_not_in _ _ _ _ Ht) as Hfresh.
  destruct Ht as [Hm [(_ & _ & _ & Htl) _ _ _ _ _ _ _ _ _] Hc]. split; unfold linked_mem; simpl.
  - intros q Hq Hlive. apply Hm in Hlive. assert (q ≠ brk w) by (intros ->; lia).
    rewrite lookup_glob_ne; [|done|rewrite Htl; intros ?%last_Some_elem_of; done|done].
    rewrite lookup_connect_ne; [|done|intros ->; by apply Hq, Hhd]. by rewrite lookup_insert_ne.
  - lia.
  - intros q [?| ->%list_elem_of_singleton]%elem_of_app; [by left|right; lia].
Qed.

Lemma ptr_of_snoc (k : key) (v : V) order es p :
  length order = length es → k ∉ es.*1 → ptr_of k (order ++ [p]) (es ++ [(k, v)]) = Some p.
Proof.
  revert es. induction order as [|q order IH]; intros [|[k0 v0] es]; simpl; try done.
  - intros _ _. by rewrite decide_True.
  - intros [= Hl] [Hne Hk]%not_elem_of_cons. rewrite decide_False by congruence. by apply IH.
Qed.

(** after the linking: the growth, and the postcondition of the adders *)
Lemma insert_post add w ht0 ht order es b0 k v i hd nx ht' :
  tbl w ht order es → ht_rest ht = ht_rest ht0 → nTableMask ht ≠ 0 → k ∉ es.*1 →
  Z.of_nat (length order) + 1 < 2 ^ 32 →
  key_ok (brk w) b0 → bkey b0 = k → data_val (pData b0) = v → (nKeyLength b0 = 0 → arKey b0 = KNull) →
  i = Z.land (b_h b0) (nTableMask ht) → 0 ≤ i → arBuckets ht !! Z.to_nat i = Some hd →
  nNextFreeElement ht ≤ nx ≤ LONG_MAX → (∀ j, k = KInt j → s64 j < nx ∨ nx = LONG_MAX) →
  linked_ht ht (brk w) i nx ht' → nx = upd_next k es (nNextFreeElement ht0) →
  ∃ w' ht'', ZEND_HASH_IF_FULL_DO_RESIZE ht' (linked_mem ht b0 hd w) = Done ht'' w' ∧
    upd_post add k v w ht0 order es w' ht'' (order ++ [brk w]) SUCCESS (Some (brk w)).
Proof.
  intros Ht Hrest Hmask Hk Hlen Hok Hbk Hv Hcl Hi Hpos Hhd Hnx Hj Hl Hup.
  pose proof (linked_spec _ _ _ _ _ _ _ _ _ _ _ Ht Hmask Hk Hlen Hok Hbk Hv Hcl Hi Hpos Hhd Hnx Hj Hl) as Ht1.
  assert (Hf : al_find k es = None) by (by apply al_find_None).
  destruct (resize_spec _ _ _ _ Ht1) as (w' & ht'' & Hrun & Ht2 & Hrl & Hrest2 & _).
  { intros [_ ?]%app_eq_nil. done. }
  exists w', ht''. split; [exact Hrun|].
  destruct Hl as (E1 & E2 & E3 & E4 & E5 & E6 & E7 & E8 & E9).
  unfold ht_rest in Hrest, Hrest2. injection Hrest as R1 R2 R3 R4 R5 R6 R7 R8 R9.
  injection Hrest2 as Q1 Q2 Q3 Q4 Q5 Q6 Q7 Q8 Q9. unfold ht_cfg in E9. injection E9 as F1 F2 F3 F4.
  split; unfold upd_es, upd_order, upd_events, upd_result, upd_cur; rewrite ?Hf; try done.
  - eapply evolves_trans; [apply Ht| |apply evolves_relinked, Hrl].
    eapply evolves_linked; [done|]. intros q ->. eapply slot_head_live; [apply Ht|exact Hhd].
  - rewrite (rl_trace _ _ _ Hrl). by rewrite app_nil_r.
  - simpl. rewrite ptr_of_snoc; [done| |done]. destruct Ht as [_ [] _]. by eapply Forall2_length.
  - unfold ht_cfg. congruence.
  - rewrite Q3, E8, R3. by destruct (pInternalPointer ht0).
  - by rewrite Q2, E5.
Qed.

(** ** Replacing the data of a bucket *)

Lemma tbl_set_data w ht o1 p o2 es1 k v0 es2 (f : Bucket V → data V) b :
  tbl w ht (o1 ++ p :: o2) (es1 ++ (k, v0) :: es2) → length o1 = length es1 → cells w !! p = Some b →
  tbl (with_cells (alter (λ b, set_pData (f b) b) p) w) ht (o1 ++ p :: o2)
    (es1 ++ (k, data_val (f b)) :: es2).
Proof.
  intros [Hm [Hg Hn Hmax Hcur Hsz Hinit Hch He Hkeys Hnext] Hc] Hlen Hb.
  pose proof Hg as (Hnd & _). apply nodup_middle in Hnd as (Hp1 & Hp2 & _).
  set (g := λ b, set_pData (f b) b).
  assert (Hv : agree (lnk glob) (cells w) (alter g p (cells w)) (o1 ++ p :: o2)) by (by apply agree_alter).
  assert (Hv2 : agree (lnk chain) (cells w) (alter g p (cells w)) (o1 ++ p :: o2)) by (by apply agree_alter).
  assert (Hsame : ∀ q, (λ b, (b_h b, nKeyLength b, arKey b)) <$> alter g p (cells w) !! q =
                       (λ b, (b_h b, nKeyLength b, arKey b)) <$> cells w !! q).
  { intros q. by apply (alter_opt_proj _ (Some p)). }
  assert (Hslot : ∀ j q, in_slot (alter g p (cells w)) (nTableMask ht) j q ↔ in_slot (cells w) (nTableMask ht) j q).
  { intros j q. specialize (Hsame q). unfold in_slot.
    destruct (alter g p (cells w) !! q) as [b1|], (cells w !! q) as [b2|]; simpl in Hsame; try discriminate Hsame.
    - injection Hsame as E1 E2 E3.
      split; intros (b' & [= <-] & Hb'); eexists; (split; [done|]); congruence.
    - split; intros (b' & ? & _); done. }
  split; simpl.
  - intros q. simpl. rewrite lookup_alter_is_Some. apply Hm.
  - split; try done.
    + by eapply glob_ok_agree.
    + destruct Hch as (chains & -> & Hch). exists chains. split; [done|].
      intros i ch Hi. destruct (Hch i ch Hi) as (? & Hs & Hmem). split; [done|]. split.
      * eapply seg_agree; [|done]. eapply agree_subset; [|done]. intros q ?. by apply Hmem.
      * intros q. by rewrite Hslot.
    + apply Forall2_app_inv in He as [He1 He2]; [|done].
      apply Forall2_cons in He2 as [(b' & Hb' & Hok & Hbk & _) He2].
      rewrite Hb in Hb'. injection Hb' as <-. apply Forall2_app; [|constructor].
      * eapply entries_agree; [|done]. intros q Hq. rewrite lookup_alter_ne; [done|]. congruence.
      * exists (g b). rewrite lookup_alter_eq, Hb. done.
      * eapply entries_agree; [|done]. intros q Hq. rewrite lookup_alter_ne; [done|]. congruence.
    + rewrite fmap_app, fmap_cons in *. done.
    + destruct Hnext as [Hr Hlt]. split; [done|]. intros i v. rewrite elem_of_app, elem_of_cons.
      intros [Hin|[[= <- _]|Hin]]; [apply (Hlt i v)|apply (Hlt i v0)|apply (Hlt i v)];
        rewrite elem_of_app, elem_of_cons; tauto.
  - intros q b' Hq Hb' Hz. specialize (Hsame q). simpl in Hb'. fold g in Hb'. rewrite Hb' in Hsame.
    destruct (cells w !! q) as [b2|] eqn:Hb2; simpl in Hsame; [|discriminate Hsame].
    injection Hsame as E1 E2 E3. rewrite E3. apply (Hc q b2 Hq Hb2). congruence.
Qed.

Lemma evolves_alter w order p (f : Bucket V → Bucket V) :
  p ∈ order → evolves w order (with_cells (alter f p) w) order.
Proof.
  intros Hp. split; simpl; [|lia|by left]. intros q Hq _. rewrite lookup_alter_ne; [done|]. congruence.
Qed.

End insert.
