(* ===== verification/HashOps.v ===== *)
(** * The operations on elements refine the association list

    For each function of [zend_hash.c] that looks up, adds, updates or deletes
    an element: it returns (never [Stuck]), keeps [tbl], and does to the
    contents what the functions on association lists do. *)

From S2P Require Import Prelude DList HashModel HashRepr HashFacts HashInsert.
Local Open Scope Z_scope.

Section ops.
Context {V : Type}.
Implicit Types (ht : HashTable) (b : Bucket V) (p q : ptr) (order : list ptr).
Implicit Types (h : gmap ptr (Bucket V)) (w : mem (Bucket V) (event V)) (es : list (key * V)).

(** ** Searching *)

Lemma hash_range s : 0 ≤ zend_inline_hash_func s < 2 ^ 64.
Proof.
  unfold zend_inline_hash_func.
  assert (Hstep : ∀ x c, 0 ≤ hash_step x c < 2 ^ 64) by (intros; apply Z.mod_pos_bound; lia).
  assert (Hsw : ∀ t x, 0 ≤ x < 2 ^ 64 → 0 ≤ hash_switch x t < 2 ^ 64).
  { intros t. induction t as [|c t IH]; intros x Hx; cbn [hash_switch]; [done|]. apply IH, Hstep. }
  assert (Hun : ∀ n t x, (length t ≤ n)%nat → 0 ≤ x < 2 ^ 64 → 0 ≤ hash_unrolled x t < 2 ^ 64).
  { intros n. induction n as [|n IH]; intros t x Hl Hx.
    - destruct t; [|simpl in Hl; lia]. done.
    - do 8 (destruct t as [|? t]; [by apply (Hsw _ x Hx)|]). cbn [hash_unrolled].
      apply IH; [simpl in Hl; lia|]. apply Hstep. }
  apply (Hun (length s)); [done|lia].
Qed.

Lemma string_lookup w ht order es kp len s :
  tbl w ht order es → key_arg (cells w) kp len s →
  let hh := zend_inline_hash_func s in
  ∃ x, rd_slot ht (Z.land hh (nTableMask ht)) w = Done x w ∧
    chain_search (string_test kp len hh) x w = Done (ptr_of (KStr s) order es) w.
Proof.
  intros [Hm Hr Hc] Hk. apply (chain_lookup w ht order es (KStr s)); [done|done| |].
  - apply hash_range.
  - intros p b k' v Hp Hb He. by eapply string_test_entry.
Qed.

Lemma index_lookup w ht order es i :
  tbl w ht order es → 0 ≤ i →
  ∃ x, rd_slot ht (Z.land i (nTableMask ht)) w = Done x w ∧
    chain_search (index_test i) x w = Done (ptr_of (KInt i) order es) w.
Proof.
  intros [Hm Hr Hc] Hk. apply (chain_lookup w ht order es (KInt i)); [done|done|done|].
  intros p b k' v Hp Hb He. by eapply index_test_entry.
Qed.

Lemma quick_find_run w ht order es kp len s :
  tbl w ht order es → key_arg (cells w) kp len s →
  zend_hash_quick_find ht kp len (zend_inline_hash_func s) w = Done (ptr_of (KStr s) order es) w.
Proof.
  intros Ht Hk. destruct (string_lookup _ _ _ _ _ _ _ Ht Hk) as (x & Hx & Hrun).
  unfold zend_hash_quick_find. by rewrite (bind_Done _ _ _ _ _ Hx).
Qed.

Lemma key_arg_read h kp len s : key_arg h kp len s → read_bytes kp len = Some s.
Proof. intros (Hs & -> & _). by apply read_bytes_full. Qed.

Lemma find_run w ht order es kp len s :
  tbl w ht order es → key_arg (cells w) kp len s →
  zend_hash_find ht kp len w = Done (ptr_of (KStr s) order es) w.
Proof.
  intros Ht Hk. destruct (string_lookup _ _ _ _ _ _ _ Ht Hk) as (x & Hx & Hrun).
  unfold zend_hash_find. rewrite (key_arg_read _ _ _ _ Hk). unfold of_option.
  rewrite (bind_Done _ _ w s w) by done. by rewrite (bind_Done _ _ _ _ _ Hx).
Qed.

Lemma index_find_run w ht order es i :
  tbl w ht order es → 0 ≤ i → zend_hash_index_find ht i w = Done (ptr_of (KInt i) order es) w.
Proof.
  intros Ht Hi. destruct (index_lookup _ _ _ _ _ Ht Hi) as (x & Hx & Hrun).
  unfold zend_hash_index_find. by rewrite (bind_Done _ _ _ _ _ Hx).
Qed.

Lemma index_exists_run w ht order es i :
  tbl w ht order es → 0 ≤ i →
  zend_hash_index_exists ht i w =
    Done (match ptr_of (KInt i) order es with Some _ => 1 | None => 0 end) w.
Proof.
  intros Ht Hi. destruct (index_lookup _ _ _ _ _ Ht Hi) as (x & Hx & Hrun).
  unfold zend_hash_index_exists. rewrite (bind_Done _ _ _ _ _ Hx). by rewrite (bind_Done _ _ _ _ _ Hrun).
Qed.

(** ** Adding and updating *)

(** the common end of the adders when the key is there *)
Lemma found_post (add : bool) (k : key) (v : V) w ht0 ht order es p nDataSize :
  tbl w ht order es → ht_rest ht = ht_rest ht0 → ptr_of k order es = Some p →
  if add then upd_post true k v w ht0 order es w ht order FAILURE None
  else ∃ w', update_found ht p v nDataSize w = Done (ht, SUCCESS, Some p) w' ∧
         upd_post false k v w ht0 order es w' ht order SUCCESS (Some p).
Proof.
  intros Ht Hrest Hp. pose proof Ht as [Hm [Hg Hn Hmax Hcur Hsz Hinit Hch He Hkeys Hnext] Hc].
  unfold ht_rest in Hrest. injection Hrest as R1 R2 R3 R4 R5 R6 R7 R8 R9.
  pose proof (Forall2_length _ _ _ He) as Hlen.
  destruct (ptr_of_Some k order es p Hp Hlen) as (o1 & o2 & es1 & es2 & v0 & Ho & Hes & Hl & Hk1).
  assert (Hf : al_find k es = Some v0).
  { subst es. rewrite al_find_app. apply al_find_None in Hk1 as ->. simpl. by rewrite decide_True. }
  destruct add.
  { split; unfold upd_es, upd_order, upd_events, upd_result, upd_cur, upd_next; rewrite ?Hf; try done.
    - apply evolves_refl.
    - by rewrite app_nil_r.
    - unfold ht_cfg. congruence. }
  assert (∃ b, cells w !! p = Some b ∧ data_val (pData b) = v0) as (b & Hb & Hbv).
  { subst. apply Forall2_app_inv in He as [_ He]; [|done].
    apply Forall2_cons in He as [(b & ? & _ & _ & ?) _]. eauto. }
  set (w1 := Mem (cells w) (brk w) (trace w ++ upd_events (pDestructor ht) false k es)).
  assert (Hd : call_dtor ht (data_val (pData b)) w = Done tt w1).
  { unfold call_dtor, w1, upd_events. rewrite Hf, Hbv. destruct (pDestructor ht); [done|].
    unfold ret. rewrite app_nil_r. by destruct w. }
  eexists. unfold update_found. rewrite (bind_Done _ _ _ _ _ (load_Done _ _ _ Hb)).
  rewrite (bind_Done _ _ _ _ _ Hd).
  erewrite bind_Done by (apply store_Done; simpl; by rewrite Hb). split; [done|].
  assert (Hup : al_update k v es = es1 ++ (k, v) :: es2) by (subst es; by apply al_update_present).
  split; unfold upd_es, upd_order, upd_events, upd_result, upd_cur, upd_next; rewrite ?Hf; try done.
  - rewrite Hup. subst order es.
    assert (v = data_val (UPDATE_DATA (pData b) v nDataSize)) as Hvv.
    { unfold UPDATE_DATA. destruct (nDataSize =? sizeof_ptr), (pData b); done. }
    pose proof (tbl_set_data w1 ht o1 p o2 es1 k v0 es2 (λ b, UPDATE_DATA (pData b) v nDataSize) b) as Ht2.
    cbv beta in Ht2. rewrite <-Hvv in Ht2. apply Ht2; [|done|done]. by destruct Ht; split.
  - assert (Hpo : p ∈ order) by (subst order; set_solver).
    by destruct (evolves_alter w order p (λ b, set_pData (UPDATE_DATA (pData b) v nDataSize) b) Hpo); split.
  - simpl. unfold upd_events. by rewrite Hf, R6.
  - simpl. rewrite Hup. subst order. clear -Hl Hk1. revert es1 Hl Hk1.
    induction o1 as [|q o1 IH]; intros [|[k1 v1] es1]; simpl; try done; [by rewrite decide_True|].
    intros [= Hl] [Hne Hk]%not_elem_of_cons. rewrite decide_False by congruence. by apply IH.
  - unfold ht_cfg. congruence.
Qed.

Lemma key_arg_interned h kp len s :
  key_arg h kp len s → ∃ i, IS_INTERNED kp = Some i ∧ (i = true → kp = KInterned s).
Proof.
  intros (Hs & _). exists (match kp with KInterned _ => true | _ => false end).
  destruct kp; simplify_eq/=; done.
Qed.

Lemma new_bucket_string (kp : kptr) h len s (d : data V) i p :
  key_arg h kp len s → IS_INTERNED kp = Some i →
  let b := new_bucket kp s len (zend_inline_hash_func s) d i p in
  key_ok p b ∧ bkey b = KStr s ∧ data_val (pData b) = data_val d ∧ (nKeyLength b = 0 → arKey b = KNull).
Proof.
  intros (Hs & -> & Hne & _) Hi. simpl.
  assert (Hz : Z.of_nat (length s) ≠ 0) by (destruct s; [done|simpl; lia]).
  assert (kbytes (if i then kp else KOwn p s) = Some s) as Hk by (by destruct i).
  split_and!; [|unfold bkey; simpl|done|done].
  - split; [apply hash_range|]. right. exists s. split_and!; try done. simpl.
    destruct kp; simplify_eq/=; eauto.
  - destruct (Z.eqb_spec (Z.of_nat (length s)) 0); [done|]. by rewrite Hk.
Qed.

(** the linking part of the run, up to the growth: slot first, then list *)
Lemma link_run_quick w ht order es b0 i hd (f : ptr → Bucket V) :
  tbl w ht order es → arBuckets ht !! Z.to_nat i = Some hd → f (brk w) = b0 →
  ∃ ht1, linked_ht ht (brk w) i (nNextFreeElement ht) (set_nNumOfElements (u32 (nNumOfElements ht + 1)) ht1) ∧
    nNumOfElements ht1 = nNumOfElements ht ∧ nNextFreeElement ht1 = nNextFreeElement ht ∧
    ∀ A (K : ptr → HashTable → HM V A), bind (alloc_with f) (λ p, bind (rd_slot ht i) (λ list_head,
      bind (CONNECT_TO_BUCKET_DLLIST p list_head) (λ _,
      bind (wr_slot ht i (Some p)) (λ ht, bind (CONNECT_TO_GLOBAL_DLLIST p ht) (K p))))) w =
    K (brk w) ht1 (linked_mem ht b0 hd w).
Proof.
  intros Ht Hhd <-. pose proof Ht as [Hm [(Hnd & Hs & Hh & Htl) Hn Hmax Hcur Hsz Hinit Hch He Hkeys Hnext] Hc].
  eexists. split_and!; [| | |intros A K].
  4: {
  erewrite bind_Done by reflexivity. erewrite bind_Done by (by apply rd_slot_Done).
  erewrite bind_Done; [|apply connect_run; simpl; [by rewrite lookup_insert_eq|]].
  2: { intros q ->. destruct (slot_head_live _ _ _ _ _ _ Hch Hhd) as [_ ?].
       rewrite lookup_insert. by case_decide. }
  erewrite bind_Done by (apply wr_slot_Done; by eapply lookup_lt_Some).
  unfold CONNECT_TO_GLOBAL_DLLIST. rewrite !bind_assoc.
  erewrite bind_Done; [|apply global_ex_run; simpl].
  2: { rewrite is_Some_connect. by rewrite lookup_insert_eq. }
  2: { intros q. rewrite Htl. intros Hq%last_Some_elem_of. rewrite is_Some_connect, lookup_insert.
       case_decide; [done|]. by eapply seg_live. }
  2: done.
  unfold ret at 1. unfold bind at 1. reflexivity. }
  - simpl. unfold linked_ht. destruct (pListTail ht), ht as [? ? ? ? []]; simpl; done.
  - simpl. destruct (pListTail ht), ht as [? ? ? ? []]; simpl; done.
  - simpl. destruct (pListTail ht), ht as [? ? ? ? []]; simpl; done.
Qed.

Lemma quick_add_or_update_post w ht order es kp len s v nDataSize flag :
  tbl w ht order es → key_arg (cells w) kp len s → Z.of_nat (length order) + 1 < 2 ^ 32 →
  ∃ w' ht' order' r pd,
    _zend_hash_quick_add_or_update ht kp len (zend_inline_hash_func s) v nDataSize flag w = Done (ht', r, pd) w' ∧
    upd_post (flag_set flag HASH_ADD) (KStr s) v w ht order es w' ht' order' r pd.
Proof.
  intros Ht0 Hk Hlen. destruct (check_init_spec _ _ _ _ Ht0) as (Ht & Hmask & Hrest).
  unfold _zend_hash_quick_add_or_update. set (ht1 := CHECK_INIT ht) in *.
  destruct (string_lookup _ _ _ _ _ _ _ Ht Hk) as (x & Hx & Hrun). cbv zeta in Hx, Hrun.
  rewrite (bind_Done _ _ _ _ _ Hx). rewrite (bind_Done _ _ _ _ _ Hrun).
  destruct (ptr_of (KStr s) order es) as [p|] eqn:Hp.
  - destruct (flag_set flag HASH_ADD).
    + eexists w, ht1, order, _, _. split; [done|]. by apply (found_post true _ _ _ _ _ _ _ _ nDataSize Ht Hrest Hp).
    + destruct (found_post false _ v _ _ _ _ _ _ nDataSize Ht Hrest Hp) as (w' & Hw & Hpost).
      by exists w', ht1, order, SUCCESS, (Some p).
  - destruct (key_arg_interned _ _ _ _ Hk) as (i & Hi & _). rewrite Hi, (key_arg_read _ _ _ _ Hk).
    unfold of_option. erewrite bind_Done by reflexivity. erewrite bind_Done by reflexivity.
    destruct (new_bucket_string _ _ _ _ (INIT_DATA v nDataSize) i (brk w) Hk Hi) as (Hok & Hbk & Hd & Hcl).
    set (f := new_bucket _ _ _ _ _ _). unfold rd_slot in Hx.
    destruct (arBuckets ht1 !! _) as [hd|] eqn:Hhd; [|done].
    destruct (link_run_quick w ht1 order es (f (brk w)) _ hd f Ht Hhd eq_refl) as (ht2 & Hl & E1 & E2 & Hgo).
    rewrite Hgo, E1. pose proof Ht as [_ [_ _ _ _ Hsz _ _ He _ Hnx] _].
    edestruct (insert_post (flag_set flag HASH_ADD) w ht ht1 order es (f (brk w)) (KStr s) v) as (w' & ht3 & Hrun2 & Hpost);
      try done.
    { apply ptr_of_None in Hp; [done|]. by eapply Forall2_length. }
    { unfold f, INIT_DATA. simpl. by destruct (nDataSize =? sizeof_ptr). }
    { by destruct (size_ok_slot ht1 (b_h (f (brk w))) Hsz) as (? & ? & _); [apply hash_range|]. }
    { destruct Hnx. lia. }
    { unfold upd_next. unfold ht_rest in Hrest. injection Hrest as ? ->. by destruct (al_find _ _). }
    rewrite (bind_Done _ _ _ _ _ Hrun2). by eexists _, _, _, _, _.
Qed.

(** the linking part of the run in [_zend_hash_add_or_update]: list, then slot *)
Lemma link_run w ht order es b0 i hd (f : ptr → Bucket V) :
  tbl w ht order es → arBuckets ht !! Z.to_nat i = Some hd → f (brk w) = b0 →
  ∃ ht1, linked_ht ht (brk w) i (nNextFreeElement ht) (set_nNumOfElements (u32 (nNumOfElements ht + 1)) ht1) ∧
    nNumOfElements ht1 = nNumOfElements ht ∧
    ∀ A (K : ptr → HashTable → HM V A), bind (alloc_with f) (λ p, bind (rd_slot ht i) (λ list_head,
      bind (CONNECT_TO_BUCKET_DLLIST p list_head) (λ _,
      bind (CONNECT_TO_GLOBAL_DLLIST p ht) (λ ht, bind (wr_slot ht i (Some p)) (K p))))) w =
    K (brk w) ht1 (linked_mem ht b0 hd w).
Proof.
  intros Ht Hhd <-. pose proof Ht as [Hm [(Hnd & Hs & Hh & Htl) Hn Hmax Hcur Hsz Hinit Hch He Hkeys Hnext] Hc].
  eexists. split_and!; [| |intros A K].
  3: {
  erewrite bind_Done by reflexivity. erewrite bind_Done by (by apply rd_slot_Done).
  erewrite bind_Done; [|apply connect_run; simpl; [by rewrite lookup_insert_eq|]].
  2: { intros q ->. destruct (slot_head_live _ _ _ _ _ _ Hch Hhd) as [_ ?].
       rewrite lookup_insert. by case_decide. }
  unfold CONNECT_TO_GLOBAL_DLLIST. rewrite !bind_assoc.
  erewrite bind_Done; [|apply global_ex_run; simpl].
  2: { rewrite is_Some_connect. by rewrite lookup_insert_eq. }
  2: { intros q. rewrite Htl. intros Hq%last_Some_elem_of. rewrite is_Some_connect, lookup_insert.
       case_decide; [done|]. by eapply seg_live. }
  2: done.
  erewrite bind_Done by reflexivity. erewrite bind_Done; [reflexivity|].
  apply wr_slot_Done. apply lookup_lt_Some in Hhd.
  destruct (pListTail ht), ht as [? ? ? ? []]; exact Hhd. }
  - simpl. unfold linked_ht. destruct (pListTail ht), ht as [? ? ? ? []]; simpl; done.
  - simpl. destruct (pListTail ht), ht as [? ? ? ? []]; simpl; done.
Qed.

Lemma add_or_update_post w ht order es kp len s v nDataSize flag :
  tbl w ht order es → key_arg (cells w) kp len s → Z.of_nat (length order) + 1 < 2 ^ 32 →
  ∃ w' ht' order' r pd,
    _zend_hash_add_or_update ht kp len v nDataSize flag w = Done (ht', r, pd) w' ∧
    upd_post (flag_set flag HASH_ADD) (KStr s) v w ht order es w' ht' order' r pd.
Proof.
  intros Ht0 Hk Hlen. destruct (check_init_spec _ _ _ _ Ht0) as (Ht & Hmask & Hrest).
  unfold _zend_hash_add_or_update. set (ht1 := CHECK_INIT ht) in *.
  rewrite (key_arg_read _ _ _ _ Hk). erewrite bind_Done by reflexivity.
  destruct (string_lookup _ _ _ _ _ _ _ Ht Hk) as (x & Hx & Hrun). cbv zeta in Hx, Hrun.
  rewrite (bind_Done _ _ _ _ _ Hx). rewrite (bind_Done _ _ _ _ _ Hrun).
  destruct (ptr_of (KStr s) order es) as [p|] eqn:Hp.
  - destruct (flag_set flag HASH_ADD).
    + eexists w, ht1, order, _, _. split; [done|]. by apply (found_post true _ _ _ _ _ _ _ _ nDataSize Ht Hrest Hp).
    + destruct (found_post false _ v _ _ _ _ _ _ nDataSize Ht Hrest Hp) as (w' & Hw & Hpost).
      by exists w', ht1, order, SUCCESS, (Some p).
  - destruct (key_arg_interned _ _ _ _ Hk) as (i & Hi & _). rewrite Hi. erewrite bind_Done by reflexivity.
    destruct (new_bucket_string _ _ _ _ (INIT_DATA v nDataSize) i (brk w) Hk Hi) as (Hok & Hbk & Hd & Hcl).
    set (f := new_bucket _ _ _ _ _ _). unfold rd_slot in Hx.
    destruct (arBuckets ht1 !! _) as [hd|] eqn:Hhd; [|done].
    destruct (link_run w ht1 order es (f (brk w)) _ hd f Ht Hhd eq_refl) as (ht2 & Hl & E1 & Hgo).
    rewrite Hgo, E1. pose proof Ht as [_ [_ _ _ _ Hsz _ _ He _ Hnx] _].
    edestruct (insert_post (flag_set flag HASH_ADD) w ht ht1 order es (f (brk w)) (KStr s) v) as (w' & ht3 & Hrun2 & Hpost);
      try done.
    { apply ptr_of_None in Hp; [done|]. by eapply Forall2_length. }
    { unfold f, INIT_DATA. simpl. by destruct (nDataSize =? sizeof_ptr). }
    { by destruct (size_ok_slot ht1 (b_h (f (brk w))) Hsz) as (? & ? & _); [apply hash_range|]. }
    { destruct Hnx. lia. }
    { unfold upd_next. unfold ht_rest in Hrest. injection Hrest as ? ->. by destruct (al_find _ _). }
    rewrite (bind_Done _ _ _ _ _ Hrun2). by eexists _, _, _, _, _.
Qed.

(** *** Integer keys *)

Lemma s64_range z : - 2 ^ 63 ≤ s64 z < 2 ^ 63.
Proof. unfold s64. pose proof (Z.mod_pos_bound (z + 2 ^ 63) (2 ^ 64)). lia. Qed.

Lemma s64_id z : 0 ≤ z < 2 ^ 63 → s64 z = z.
Proof. intros. unfold s64. rewrite Z.mod_small; lia. Qed.

Lemma s64_small z : 0 ≤ z < 2 ^ 64 → 0 ≤ s64 z → s64 z = z.
Proof.
  intros Hz. unfold s64. destruct (decide (z < 2 ^ 63)).
  - rewrite Z.mod_small; lia.
  - replace (z + 2 ^ 63) with (z - 2 ^ 63 + 1 * 2 ^ 64) by lia. rewrite Z.mod_add by lia.
    rewrite Z.mod_small; lia.
Qed.

(** [nNextFreeElement] after the insertion of [h] *)
Lemma next_bounds (next h : Z) :
  0 ≤ next ≤ LONG_MAX → 0 ≤ h < 2 ^ 64 →
  let nx := if s64 h >=? s64 next then (if h <? LONG_MAX then h + 1 else LONG_MAX) else next in
  next ≤ nx ≤ LONG_MAX ∧ (s64 h < nx ∨ nx = LONG_MAX).
Proof.
  intros Hn Hh nx. unfold nx, LONG_MAX in *. rewrite (s64_id next) by lia.
  pose proof (s64_range h). destruct (Z.geb_spec (s64 h) next) as [Hge|Hlt]; [|lia].
  rewrite (s64_small h Hh) in * by lia. destruct (Z.ltb_spec h (2 ^ 63 - 1)); lia.
Qed.

Lemma index_update_or_next_insert_post w ht order es i v nDataSize flag :
  tbl w ht order es → 0 ≤ i < 2 ^ 64 → Z.of_nat (length order) + 1 < 2 ^ 32 →
  let k := if flag_set flag HASH_NEXT_INSERT then nNextFreeElement ht else i in
  let add := flag_set flag HASH_NEXT_INSERT || flag_set flag HASH_ADD in
  ∃ w' ht' order' r pd,
    _zend_hash_index_update_or_next_insert ht i v nDataSize flag w = Done (ht', r, pd) w' ∧
    upd_post add (KInt k) v w ht order es w' ht' order' r pd.
Proof.
  intros Ht0 Hi Hlen k add. destruct (check_init_spec _ _ _ _ Ht0) as (Ht & Hmask & Hrest).
  unfold _zend_hash_index_update_or_next_insert. set (ht1 := CHECK_INIT ht) in *.
  assert (Hnf : nNextFreeElement ht1 = nNextFreeElement ht) by (unfold ht_rest in Hrest; congruence).
  rewrite Hnf. fold k. fold add.
  assert (Hkr : 0 ≤ k < 2 ^ 64).
  { unfold k. destruct Ht0 as [_ [_ _ _ _ _ _ _ _ _ [Hnx _]] _]. unfold LONG_MAX in Hnx.
    destruct (flag_set flag HASH_NEXT_INSERT); lia. }
  destruct (index_lookup _ _ _ _ k Ht) as (x & Hx & Hrun); [lia|].
  rewrite (bind_Done _ _ _ _ _ Hx). rewrite (bind_Done _ _ _ _ _ Hrun).
  destruct (ptr_of (KInt k) order es) as [p|] eqn:Hp.
  - destruct add.
    + eexists w, ht1, order, _, _. split; [done|]. by apply (found_post true _ _ _ _ _ _ _ _ nDataSize Ht Hrest Hp).
    + destruct (found_post false _ v _ _ _ _ _ _ nDataSize Ht Hrest Hp) as (w' & Hw & Hpost).
      by exists w', ht1, order, SUCCESS, (Some p).
  - set (f := new_bucket _ _ _ _ _ _). unfold rd_slot in Hx.
    destruct (arBuckets ht1 !! _) as [hd|] eqn:Hhd; [|done].
    destruct (link_run_quick w ht1 order es (f (brk w)) _ hd f Ht Hhd eq_refl) as (ht2 & Hl & E1 & E2 & Hgo).
    rewrite Hgo. pose proof Ht as [_ [_ _ _ _ Hsz _ _ He _ [Hnx _]] _].
    assert (Hf : al_find (KInt k) es = None).
    { apply al_find_None, (ptr_of_None _ order); [by eapply Forall2_length|done]. }
    set (nx := upd_next (KInt k) es (nNextFreeElement ht)).
    destruct (next_bounds (nNextFreeElement ht) k) as [Hb1 Hb2]; [by rewrite <-Hnf|done|].
    assert (Hnxe : nx = if s64 k >=? s64 (nNextFreeElement ht) then if k <? LONG_MAX then k + 1 else LONG_MAX
                        else nNextFreeElement ht).
    { unfold nx, upd_next. by rewrite Hf. }
    set (ht3 := set_nNumOfElements _ _).
    assert (Hl3 : linked_ht ht1 (brk w) (Z.land k (nTableMask ht1)) nx ht3).
    { destruct Hl as (L1 & L2 & L3 & L4 & L5 & L6 & L7 & L8 & L9).
      unfold ht3. rewrite Hnxe, E2, Hnf. destruct (s64 k >=? s64 (nNextFreeElement ht)); unfold linked_ht;
        simpl in *; rewrite ?E1; split_and!; try done. by rewrite L5. }
    destruct (insert_post add w ht ht1 order es (f (brk w)) (KInt k) v (Z.land k (nTableMask ht1)) hd nx ht3) as (w' & ht4 & Hrun2 & Hpost); try done.
    { by apply al_find_None. }
    { split; [done|by left]. }
    { unfold f, INIT_DATA. simpl. by destruct (nDataSize =? sizeof_ptr). }
    { by destruct (size_ok_slot ht1 k Hsz) as (? & ? & _); [lia|]. }
    { rewrite Hnf, Hnxe. done. }
    { rewrite Hnxe. by intros j [= <-]. }
    rewrite (bind_Done _ _ _ _ _ Hrun2). by eexists _, _, _, _, _.
Qed.

(** ** Deleting *)

(** what deleting the bucket [p] with value [v] between [o1] and [o2] does *)
Record del_post (v : V) w ht o1 p o2 w' ht' : Prop := {
  dp_evolves : evolves w (o1 ++ p :: o2) w' (o1 ++ o2);
  dp_brk : brk w' = brk w;
  dp_trace : trace w' = trace w ++ (if pDestructor ht then [EvDtor v] else []);
  dp_freed : cells w' !! p = None;
  dp_dead : ∀ q, cells w !! q = None → cells w' !! q = None;
  dp_cfg : ht_cfg ht' = ht_cfg ht;
  dp_size : nTableSize ht' = nTableSize ht ∧ nTableMask ht' = nTableMask ht;
  dp_next : nNextFreeElement ht' = nNextFreeElement ht;
  dp_cur : pInternalPointer ht' =
    if decide (pInternalPointer ht = Some p) then head o2 else pInternalPointer ht
}.

Lemma unlink_chain_run {A} w ht b i (K : HashTable → HM V A) :
  (∀ q, pNext b = Some q ∨ pLast b = Some q → is_Some (cells w !! q)) →
  (Z.to_nat i < length (arBuckets ht))%nat →
  bind (match pLast b with
        | Some q => bind (store q (set_pNext (pNext b))) (λ _, ret ht)
        | None => wr_slot ht i (pNext b)
        end) (λ ht, bind (store_opt (pNext b) (set_pLast (pLast b))) (λ _, K ht)) w =
  K (set_arBuckets (match pLast b with Some _ => arBuckets ht
                    | None => <[Z.to_nat i := pNext b]> (arBuckets ht) end) ht)
    (with_cells (unlink_chain_cells b) w).
Proof.
  intros Hlive Hi. destruct (pLast b) as [q|] eqn:Hq.
  - rewrite bind_assoc. erewrite bind_Done by (apply store_Done; auto).
    erewrite bind_Done by reflexivity. erewrite bind_Done; [|apply store_opt_Done].
    + unfold unlink_chain_cells. rewrite Hq. by destruct ht.
    + intros q' Hq'. simpl. rewrite lookup_alter_is_Some. auto.
  - erewrite bind_Done by (by apply wr_slot_Done). erewrite bind_Done by (apply store_opt_Done; auto).
    unfold unlink_chain_cells. by rewrite Hq.
Qed.

Lemma unlink_glob_run {A} w ht b (K : HashTable → HM V A) :
  (∀ q, pListNext b = Some q ∨ pListLast b = Some q → is_Some (cells w !! q)) →
  bind (store_or (pListLast b) (set_pListNext (pListNext b)) ht (set_pListHead (pListNext b) ht)) (λ ht,
    bind (store_or (pListNext b) (set_pListLast (pListLast b)) ht (set_pListTail (pListLast b) ht)) K) w =
  K (let ht := match pListLast b with Some _ => ht | None => set_pListHead (pListNext b) ht end in
     match pListNext b with Some _ => ht | None => set_pListTail (pListLast b) ht end)
    (with_cells (unlink_glob_cells b) w).
Proof.
  intros Hlive. erewrite bind_Done by (apply store_or_Done; auto).
  erewrite bind_Done; [|apply store_or_Done; intros q Hq; simpl; rewrite is_Some_alter_opt; auto].
  done.
Qed.

Lemma unlink_lookup_ne b h q : pNext b ≠ Some q → pLast b ≠ Some q → unlink_chain_cells b h !! q = h !! q.
Proof. intros. unfold unlink_chain_cells. by rewrite !lookup_alter_opt_ne. Qed.

Lemma unlink_glob_lookup_ne b h q :
  pListNext b ≠ Some q → pListLast b ≠ Some q → unlink_glob_cells b h !! q = h !! q.
Proof. intros. unfold unlink_glob_cells. by rewrite !lookup_alter_opt_ne. Qed.

Lemma is_Some_unlink b h q : is_Some (unlink_chain_cells b h !! q) ↔ is_Some (h !! q).
Proof. unfold unlink_chain_cells. by rewrite !is_Some_alter_opt. Qed.

Lemma is_Some_unlink_glob b h q : is_Some (unlink_glob_cells b h !! q) ↔ is_Some (h !! q).
Proof. unfold unlink_glob_cells. by rewrite !is_Some_alter_opt. Qed.

Lemma bucket_delete_post w ht o1 p o2 es1 k v es2 :
  tbl w ht (o1 ++ p :: o2) (es1 ++ (k, v) :: es2) → length o1 = length es1 →
  ∃ w' ht', i_zend_hash_bucket_delete ht p w = Done ht' w' ∧
    tbl w' ht' (o1 ++ o2) (es1 ++ es2) ∧ del_post v w ht o1 p o2 w' ht'.
Proof.
  intros Ht Hl. pose proof Ht as [Hm [Hg Hn Hmax Hcur Hsz Hinit Hch He Hkeys Hnext] Hc].
  pose proof He as [He1 He2]%Forall2_app_inv; [|done].
  apply Forall2_cons in He2 as [(b & Hb & [Hbr Hok] & Hbk & Hbv) He2].
  destruct (size_ok_slot ht (b_h b) Hsz ltac:(lia)) as (hd & Hland & Hhd).
  pose proof (lookup_lt_Some _ _ _ Hhd) as Hlt. 
  assert (Hpin : p ∈ o1 ++ p :: o2) by set_solver.
  pose proof (chain_neighbours _ _ _ _ _ _ Hch Hpin Hb Hland Hlt) as Hnb.
  destruct (glob_ok_unlink _ _ _ _ _ _ _ Hg Hb) as (Hlast & Hnxt & Hg').
  pose proof Hg as (Hnd & Hseg & _). pose proof Hnd as (Hp1 & Hp2 & Hnd')%nodup_middle.
  assert (Hlive : ∀ q, q ∈ o1 ++ p :: o2 → is_Some (cells w !! q)) by (intros q; by eapply seg_live).
  assert (Hgn : ∀ q, pListNext b = Some q ∨ pListLast b = Some q → q ∈ o1 ++ p :: o2 ∧ q ≠ p).
  { intros q. rewrite Hlast, Hnxt. intros [Hq%head_Some_elem_of|Hq%last_Some_elem_of];
      (split; [set_solver|intros ->; done]). }
  unfold i_zend_hash_bucket_delete. rewrite (bind_Done _ _ _ _ _ (load_Done _ _ _ Hb)).
  rewrite unlink_chain_run; [|intros q Hq; apply Hlive; by apply Hnb|done].
  rewrite unlink_glob_run.
  2: { intros q Hq. simpl. apply is_Some_unlink, Hlive. by apply Hgn. }
  cbv beta zeta. set (slots := match pLast b with Some _ => arBuckets ht | None => _ end).
  set (ht1 := match pListNext b with
              | Some _ => match pListLast b with Some _ => _ | None => set_pListHead _ _ end
              | None => set_pListTail _ _ end).
  set (ht2 := if decide (pInternalPointer ht1 = Some p) then set_pInternalPointer _ ht1 else ht1).
  set (ht3 := set_nNumOfElements _ _).
  set (h2 := unlink_glob_cells b (unlink_chain_cells b (cells w))).
  set (w2 := Mem h2 (brk w) (trace w ++ (if pDestructor ht then [EvDtor v] else []))).
  assert (Hd : call_dtor ht3 (data_val (pData b)) (with_cells (unlink_glob_cells b)
    (with_cells (unlink_chain_cells b) w)) = Done tt w2).
  { unfold call_dtor. assert (pDestructor ht3 = pDestructor ht) as ->.
    { unfold ht3, ht2, ht1. destruct (decide _), (pListLast b), (pListNext b); done. }
    rewrite Hbv. unfold w2. destruct (pDestructor ht); [done|]. unfold ret. by rewrite app_nil_r. }
  rewrite (bind_Done _ _ _ _ _ Hd).
  erewrite bind_Done; [|apply free_Done; simpl; unfold h2].
  2: { apply is_Some_unlink_glob, is_Some_unlink. by rewrite Hb. }
  exists (with_cells (delete p) w2), ht3. split; [done|].
  assert (Hag : ∀ l, p ∉ l → agree payload (cells w) (delete p h2) l).
  { intros l Hpl. eapply agree_trans; [eapply agree_trans; [apply agree_unlink_chain_payload|
      apply agree_unlink_glob_payload]|by apply agree_delete]. }
  assert (Hpl : p ∉ o1 ++ o2) by set_solver.
  assert (E3 : ht_cfg ht3 = ht_cfg ht ∧ nTableSize ht3 = nTableSize ht ∧ nTableMask ht3 = nTableMask ht ∧
    nNextFreeElement ht3 = nNextFreeElement ht ∧ arBuckets ht3 = slots ∧
    nNumOfElements ht3 = u32 (nNumOfElements ht - 1) ∧
    pInternalPointer ht3 = (if decide (pInternalPointer ht = Some p) then head o2 else pInternalPointer ht) ∧
    pListHead ht3 = (match pListLast b with Some _ => pListHead ht | None => pListNext b end) ∧
    pListTail ht3 = (match pListNext b with Some _ => pListTail ht | None => pListLast b end)).
  { unfold ht3, ht2. assert (pInternalPointer ht1 = pInternalPointer ht) as ->.
    { unfold ht1. by destruct (pListLast b), (pListNext b). }
    rewrite <-Hnxt. unfold ht1.
    destruct (decide (pInternalPointer ht = Some p)), (pListLast b), (pListNext b); done. }
  destruct E3 as (E1 & E2 & E3 & E4 & E5 & E6 & E7 & E8 & E9). clearbody ht3.
  split.
  - split.
    + intros q. simpl. rewrite lookup_delete_is_Some. unfold h2.
      rewrite is_Some_unlink_glob, is_Some_unlink. intros [_ Hq]. by apply Hm.
    + split; simpl.
      * rewrite E8, E9. eapply glob_ok_agree; [by apply agree_delete|].
        assert (Hu : unlink_glob_cells b (unlink_chain_cells b (cells w)) = h2) by done. rewrite <-Hu.
        eapply glob_ok_unlink; [eapply glob_ok_agree; [apply agree_unlink_chain_glob|exact Hg]|].
        rewrite unlink_lookup_ne; [exact Hb| |]; intros Hq; by destruct (Hnb p ltac:(auto)).
      * rewrite E6, Hn, !length_app. simpl. rewrite u32_small; rewrite !length_app in Hmax; simpl in Hmax; lia.
      * rewrite !length_app in *. simpl in Hmax. lia.
      * intros q. rewrite E7. case_decide as Hd'.
        -- intros Hq%head_Some_elem_of. set_solver.
        -- intros Hq. pose proof (Hcur q Hq). assert (q ≠ p) by congruence. set_solver.
      * destruct Hsz as (S1 & S2 & S3). split; [by rewrite E2|]. rewrite E2, E3, E5. split; [done|].
        unfold slots. destruct (pLast b); [done|]. by rewrite length_insert.
      * rewrite E3. intros H0. apply Hinit in H0. by apply app_nil in H0 as [_ ?].
      * rewrite E3, E5. eapply chains_ok_agree.
        -- eapply agree_trans; [apply agree_unlink_glob_chain|by apply agree_delete].
        -- eapply agree_trans; [apply agree_unlink_glob_payload|by apply agree_delete].
        -- eapply chains_ok_unlink; [exact Hch|exact Hpin|exact Hb|done|done|done|].
           intros q. split; [intros Hq; split; [set_solver|intros ->; done]|set_solver].
      * eapply entries_agree; [by apply Hag|]. by apply Forall2_app.
      * rewrite fmap_app, fmap_cons in Hkeys. rewrite fmap_app. by apply nodup_middle in Hkeys as (_ & _ & ?).
      * unfold next_ok in *. rewrite E4. destruct Hnext as [Hr Hlt']. split; [done|].
        intros i v' Hin. apply (Hlt' i v'). rewrite elem_of_app in *. rewrite elem_of_cons. tauto.
    + eapply clean_agree; [by apply Hag|]. intros q b' Hq. apply Hc. set_solver.
  - split; try done.
    + split; simpl; [|lia|].
      * intros q Hq _. rewrite lookup_delete_ne by set_solver. unfold h2.
        rewrite unlink_glob_lookup_ne, unlink_lookup_ne; [done| | | |]; intros Hqq;
          [destruct (Hnb q ltac:(auto))|destruct (Hnb q ltac:(auto))|destruct (Hgn q ltac:(auto))|
           destruct (Hgn q ltac:(auto))]; done.
      * intros q Hq. left. set_solver.
    + simpl. apply lookup_delete_eq.
    + intros q Hq. simpl. destruct (decide (q = p)) as [->|Hqp]; [apply lookup_delete_eq|].
      rewrite lookup_delete_ne by done. unfold h2. apply eq_None_not_Some. rewrite is_Some_unlink_glob, is_Some_unlink, Hq. by intros [? ?].
Qed.

End ops.
