(* ===== verification/HashLoops.v ===== *)
(** * Deletion, destruction and iteration of hash tables

    The loops over the global list: [zend_hash_destroy] and its graceful
    variants, [zend_hash_clean], and the [zend_hash_apply] family. *)

From S2P Require Import Prelude DList HashModel HashRepr HashFacts HashInsert HashOps.
Local Open Scope Z_scope.

(** the destructor calls for the values [vs], in order *)
Definition dtor_events {V} (dtor : bool) (vs : list V) : list (event V) :=
  if dtor then EvDtor <$> vs else [].

(** the key a callback is shown *)
Definition zkey (z : zend_hash_key) : key :=
  if k_nKeyLength z =? 0 then KInt (k_h z) else KStr (default [] (kbytes (k_arKey z))).

(** What applying [g] to the elements [es] does: the final state, the elements
    kept (with the data as the callback left it), and the values deleted. *)
Fixpoint apply_spec {V A} (g : A → key → V → A * V * Z) (a : A) (es : list (key * V))
    : A * list (key * V) * list V :=
  match es with
  | [] => (a, [], [])
  | (k, v) :: es' =>
      let '(a, v', r) := g a k v in
      let '(a, kept, dead) :=
        if flag_set r ZEND_HASH_APPLY_STOP then (a, es', []) else apply_spec g a es' in
      if flag_set r ZEND_HASH_APPLY_REMOVE then (a, kept, v' :: dead) else (a, (k, v') :: kept, dead)
  end.

Section loops.
Context {V : Type}.
Implicit Types (ht : HashTable) (b : Bucket V) (p q : ptr) (order : list ptr).
Implicit Types (h : gmap ptr (Bucket V)) (w : mem (Bucket V) (event V)) (es : list (key * V)).

Lemma dtor_events_nil dtor : dtor_events dtor ([] : list V) = [].
Proof. by destruct dtor. Qed.

Lemma dtor_events_app dtor (l l' : list V) : dtor_events dtor (l ++ l') = dtor_events dtor l ++ dtor_events dtor l'.
Proof. destruct dtor; [|done]. apply fmap_app. Qed.

Lemma tbl_facts w ht order es :
  tbl w ht order es →
  NoDup order ∧ NoDup es.*1 ∧ length order = length es ∧ pListHead ht = head order ∧
  pListTail ht = last order ∧ (length order < fuel_of w)%nat ∧
  (∀ p, p ∈ order → is_Some (cells w !! p) ∧ (p < brk w)%positive).
Proof.
  intros [Hm [(Hnd & Hs & Hh & Ht) Hn Hmax Hcur Hsz Hinit Hch He Hkeys Hnext] Hc].
  assert (∀ p, p ∈ order → is_Some (cells w !! p) ∧ (p < brk w)%positive) as Hl.
  { intros p Hp. assert (is_Some (cells w !! p)) by (by eapply seg_live). split; [done|]. by apply Hm. }
  split_and!; try done; [by eapply Forall2_length|].
  apply length_lt_brk; [done|]. intros p Hp. by apply Hl.
Qed.

(** the bucket at a position of the global list *)
Lemma tbl_bucket w ht o1 p o2 es1 k v es2 :
  tbl w ht (o1 ++ p :: o2) (es1 ++ (k, v) :: es2) → length o1 = length es1 →
  ∃ b, cells w !! p = Some b ∧ key_ok p b ∧ bkey b = k ∧ data_val (pData b) = v ∧
       pListNext b = head o2 ∧ pListLast b = last o1.
Proof.
  intros [Hm [(Hnd & Hs & Hh & Ht) Hn Hmax Hcur Hsz Hinit Hch He Hkeys Hnext] Hc] Hl.
  apply Forall2_app_inv in He as [_ He]; [|done].
  apply Forall2_cons in He as [(b & Hb & Hok & Hbk & Hv) _].
  exists b. split_and!; try done.
  - pose proof (seg_middle _ _ _ _ _ _ _ Hs) as Hlk. rewrite Hb in Hlk. simpl in Hlk.
    injection Hlk as Hl1 Hn1. by rewrite head_or_None in Hn1.
  - pose proof (seg_middle _ _ _ _ _ _ _ Hs) as Hlk. rewrite Hb in Hlk. simpl in Hlk.
    injection Hlk as Hl1 Hn1. by rewrite last_or_None in Hl1.
Qed.

(** ** [zend_hash_del_key_or_index] *)

Lemma found_delete w ht order es k p :
  tbl w ht order es → ptr_of k order es = Some p →
  ∃ w' ht' order' v, i_zend_hash_bucket_delete ht p w = Done ht' w' ∧ al_find k es = Some v ∧
    tbl w' ht' order' (al_delete k es) ∧ (∀ q, q ∈ order' → q ∈ order) ∧
    (∀ q, q ∈ order → q ∉ order' → cells w' !! q = None) ∧
    trace w' = trace w ++ dtor_events (pDestructor ht) [v].
Proof.
  intros Ht Hp. destruct (tbl_facts _ _ _ _ Ht) as (_ & Hnd & Hlen & _).
  destruct (ptr_of_Some k order es p Hp Hlen) as (o1 & o2 & es1 & es2 & v & -> & -> & Hl & Hk1).
  destruct (bucket_delete_post _ _ _ _ _ _ _ _ _ Ht Hl) as (w' & ht' & Hrun & Ht' & [E1 E2 E3 E4 E9 E5 E6 E7 E8]).
  rewrite fmap_app, fmap_cons in Hnd. apply nodup_middle in Hnd as (_ & Hk2 & _).
  exists w', ht', (o1 ++ o2), v. rewrite al_find_app. rewrite (proj2 (al_find_None _ _) Hk1). simpl.
  rewrite decide_True by done. rewrite al_delete_present by done.
  split_and!; try done; [intros q; set_solver|]. intros q Hq Hn. assert (q = p) as -> by set_solver. done.
Qed.

Lemma del_post_of k w ht order es test i :
  tbl w ht order es → 
  (∃ x, rd_slot ht (Z.land i (nTableMask ht)) w = Done x w ∧
        chain_search test x w = Done (ptr_of k order es) w) →
  ∃ w' ht' order',
    bind (rd_slot ht (Z.land i (nTableMask ht))) (λ list_head, bind (chain_search test list_head) (λ found,
      match found with
      | Some p => bind (i_zend_hash_bucket_delete ht p) (λ ht, ret (ht, SUCCESS))
      | None => ret (ht, FAILURE)
      end)) w = Done (ht', match al_find k es with Some _ => SUCCESS | None => FAILURE end) w' ∧
    tbl w' ht' order' (al_delete k es) ∧ (∀ q, q ∈ order' → q ∈ order) ∧
    (∀ q, q ∈ order → q ∉ order' → cells w' !! q = None) ∧
    trace w' = trace w ++ match al_find k es with Some v => dtor_events (pDestructor ht) [v] | None => [] end.
Proof.
  intros Ht (x & Hx & Hrun). rewrite (bind_Done _ _ _ _ _ Hx), (bind_Done _ _ _ _ _ Hrun).
  destruct (ptr_of k order es) as [p|] eqn:Hp.
  - destruct (found_delete _ _ _ _ _ _ Ht Hp) as (w' & ht' & order' & v & Hd & Hf & Ht' & Hsub & Hdead & Htr).
    rewrite (bind_Done _ _ _ _ _ Hd), Hf. by exists w', ht', order'.
  - destruct (tbl_facts _ _ _ _ Ht) as (_ & _ & Hlen & _). apply ptr_of_None in Hp; [|done].
    rewrite (proj2 (al_find_None _ _) Hp), (al_delete_absent _ _ Hp), app_nil_r.
    by exists w, ht, order.
Qed.

(** ** Destruction *)

Lemma destroy_loop_spec ht0 rest w prev es fuel :
  seg glob (cells w) prev rest None → NoDup rest → Forall2 (entry (cells w)) rest es →
  (length rest ≤ fuel)%nat →
  ∃ w', destroy_loop fuel ht0 (head rest) w = Done tt w' ∧
    trace w' = trace w ++ dtor_events (pDestructor ht0) es.*2 ∧ brk w' = brk w ∧
    ∀ q, cells w' !! q = if decide (q ∈ rest) then None else cells w !! q.
Proof.
  revert w prev es fuel. induction rest as [|p rest IH]; intros w prev es fuel Hs Hnd He Hf.
  - inversion He; subst. exists w. split; [by destruct fuel|].
    split; [by rewrite dtor_events_nil, app_nil_r|]. split; [done|].
    intros q. by destruct (decide (q ∈ [])) as [?%elem_of_nil|].
  - destruct fuel as [|fuel]; simpl in Hf; [lia|]. apply NoDup_cons in Hnd as [Hp Hnd].
    destruct es as [|[k v] es]; [by inversion He|]. apply Forall2_cons in He as [(b & Hb & _ & _ & Hv) He].
    destruct Hs as [Hl Hs]. rewrite Hb in Hl. simpl in Hl. injection Hl as _ Hn. simpl in Hn, Hv.
    simpl. rewrite (bind_Done _ _ _ _ _ (load_Done _ _ _ Hb)).
    set (w1 := Mem (cells w) (brk w) (trace w ++ dtor_events (pDestructor ht0) [v])).
    assert (Hd : call_dtor ht0 (data_val (pData b)) w = Done tt w1).
    { unfold call_dtor, w1, dtor_events. rewrite Hv. destruct (pDestructor ht0); [done|].
      unfold ret. rewrite app_nil_r. by destruct w. }
    rewrite (bind_Done _ _ _ _ _ Hd). erewrite bind_Done by (apply free_Done; simpl; by rewrite Hb).
    rewrite Hn, head_or_None.
    destruct (IH (with_cells (delete p) w1) (Some p) es fuel) as (w' & Hrun & Htr & Hbrk & Hcell); [| |..].
    + eapply seg_agree; [|exact Hs]. simpl. by apply agree_delete.
    + done.
    + eapply entries_agree; [|exact He]. simpl. by apply agree_delete.
    + lia.
    + exists w'. split; [done|]. split.
      { rewrite Htr. simpl. rewrite <-app_assoc. f_equal. unfold dtor_events. by destruct (pDestructor ht0). }
      split; [done|]. intros q. rewrite Hcell. simpl. rewrite lookup_delete.
      destruct (decide (q ∈ rest)) as [Hq|Hq]; [rewrite decide_True; [done|by right]|].
      case_decide as Hpq; [subst; rewrite decide_True; [done|by left]|].
      rewrite decide_False; [done|]. rewrite elem_of_cons. intros [->|?]; done.
Qed.

Lemma graceful_loop_spec (fwd : bool) w ht order es fuel :
  tbl w ht order es → (length order ≤ fuel)%nat →
  ∃ w' ht', graceful_loop fuel (if fwd then pListHead else pListTail) ht w = Done ht' w' ∧ tbl w' ht' [] [] ∧
    evolves w order w' [] ∧ brk w' = brk w ∧
    (∀ q, q ∈ order ∨ cells w !! q = None → cells w' !! q = None) ∧
    trace w' = trace w ++ dtor_events (pDestructor ht) (if fwd then es.*2 else reverse es.*2).
Proof.
  intros Ht Hf. remember (length order) as n eqn:Hlen. revert w ht order es fuel Ht Hf Hlen.
  induction n as [|n IH]; intros w ht order es fuel Ht Hf Hlen;
    destruct (tbl_facts _ _ _ _ Ht) as (Hnd & _ & Hl & Hhd & Htl & _).
  - destruct order; [|done]. destruct es; [|done]. exists w, ht.
    split; [|split_and!; [done|apply evolves_refl|done|by intros ? [?%elem_of_nil|?]|]].
    + destruct fuel; simpl; destruct fwd; rewrite ?Hhd, ?Htl; done.
    + destruct fwd; by rewrite dtor_events_nil, app_nil_r.
  - assert (∃ o1 p o2 es1 k v es2, order = o1 ++ p :: o2 ∧ es = es1 ++ (k, v) :: es2 ∧
      length o1 = length es1 ∧ length (o1 ++ o2) = n ∧ (if fwd then pListHead else pListTail) ht = Some p ∧
      (if fwd then o1 = [] ∧ es1 = [] else o2 = [] ∧ es2 = []))
      as (o1 & p & o2 & es1 & k & v & es2 & -> & -> & Hl1 & Hln & Hend & Hside).
    { destruct fwd.
      - destruct order as [|p o2]; [done|]. destruct es as [|[k v] es2]; [done|].
        exists [], p, o2, [], k, v, es2. simpl in *. split_and!; try done. lia.
      - destruct order as [|p o1 _] using rev_ind; [done|].
        destruct es as [|[k v] es1 _] using rev_ind; [rewrite length_app in Hl; simpl in Hl; lia|].
        rewrite !length_app in *. simpl in *.
        exists o1, p, [], es1, k, v, []. rewrite last_snoc in Htl. rewrite app_nil_r. split_and!; try done; lia. }
    destruct (bucket_delete_post _ _ _ _ _ _ _ _ _ Ht Hl1) as (w1 & ht1 & Hrun & Ht1 & [E1 E2 E3 E4 E9 E5 E6 E7 E8]).
    destruct fuel as [|fuel]; [lia|]. cbn [graceful_loop]. rewrite Hend. unfold zend_hash_bucket_delete.
    rewrite (bind_Done _ _ _ _ _ Hrun).
    destruct (IH w1 ht1 _ _ fuel Ht1 ltac:(lia) (eq_sym Hln)) as (w' & ht' & Hrun' & Ht' & Hev & Hbrk & Hdead & Htr).
    exists w', ht'. split_and!; try done.
    + eapply evolves_trans; [apply Ht|exact E1|exact Hev].
    + congruence.
    + intros q Hq. apply Hdead. destruct Hq as [Hq|Hq]; [|by right; apply E9].
      destruct (decide (q = p)) as [->|Hne]; [by right|left; set_solver].
    + rewrite Htr, E3, <-app_assoc. f_equal.
      assert (pDestructor ht1 = pDestructor ht) as -> by (unfold ht_cfg in E5; congruence).
      unfold dtor_events. destruct (pDestructor ht); [|by destruct fwd].
      destruct fwd; destruct Hside as [-> ->].
      * done.
      * rewrite app_nil_r, fmap_app, reverse_app. done.
Qed.

(** ** Applying a callback *)

Lemma tbl_cfg w ht ht' order es :
  ht_rest (set_nApplyCount (nApplyCount ht) ht') = ht_rest ht → nTableSize ht' = nTableSize ht →
  nTableMask ht' = nTableMask ht → arBuckets ht' = arBuckets ht → tbl w ht order es → tbl w ht' order es.
Proof.
  unfold ht_rest. simpl. intros [= E1 E2 E3 E4 E5 E6 E7 E8] S1 S2 S3
    [Hm [Hg Hn Hmax Hcur Hsz Hinit Hch He Hkeys Hnext] Hc].
  split; [done| |done]. split; unfold size_ok, next_ok in *;
    rewrite ?E1, ?E2, ?E3, ?E4, ?E5, ?S1, ?S2, ?S3; done.
Qed.

(** one round of the loop *)
Lemma apply_step {A} (fwd : bool) (g : A → key → V → A * V * Z) (f : callback A) fuel a w ht o1 p o2 es1 k v es2 a1 v1 r :
  tbl w ht (o1 ++ p :: o2) (es1 ++ (k, v) :: es2) → length o1 = length es1 →
  (∀ a z v, f a z v = g a (zkey z) v) → g a k v = (a1, v1, r) →
  let step := if fwd then pListNext else pListLast in
  let remove := flag_set r ZEND_HASH_APPLY_REMOVE in
  ∃ w' ht', apply_loop step f (S fuel) a ht (Some p) w =
      (if flag_set r ZEND_HASH_APPLY_STOP then Done (a1, ht') w'
       else apply_loop step f fuel a1 ht' (if fwd then head o2 else last o1) w') ∧
    tbl w' ht' (o1 ++ (if remove then [] else [p]) ++ o2) (es1 ++ (if remove then [] else [(k, v1)]) ++ es2) ∧
    trace w' = trace w ++ (if remove then dtor_events (pDestructor ht) [v1] else []) ∧
    ht_cfg ht' = ht_cfg ht.
Proof.
  intros Ht Hl Hf Hg step remove.
  destruct (tbl_bucket _ _ _ _ _ _ _ _ _ Ht Hl) as (b & Hb & Hok & Hbk & Hv & Hnx & Hpv).
  cbn [apply_loop]. rewrite (bind_Done _ _ _ _ _ (load_Done _ _ _ Hb)).
  rewrite Hf. assert (zkey (MkKey (arKey b) (nKeyLength b) (b_h b)) = k) as -> by done.
  rewrite Hv, Hg. pose proof (tbl_set_data w ht o1 p o2 es1 k v es2 (λ b, data_write v1 (pData b)) b Ht Hl Hb) as Ht1.
  assert (data_val (data_write v1 (pData b)) = v1) as Hv1 by (by destruct (pData b)).
  cbv beta in Ht1. rewrite Hv1 in Ht1.
  erewrite bind_Done by (apply store_Done; by rewrite Hb).
  set (w1 := with_cells (alter (λ b, set_pData (data_write v1 (pData b)) b) p) w) in *.
  erewrite bind_Done by (apply load_Done; simpl; rewrite lookup_alter_eq, Hb; reflexivity).
  assert (step (set_pData (data_write v1 (pData b)) b) = if fwd then head o2 else last o1) as ->.
  { unfold step. by destruct fwd. }
  unfold remove. destruct (flag_set r ZEND_HASH_APPLY_REMOVE); simpl.
  - destruct (bucket_delete_post _ _ _ _ _ _ _ _ _ Ht1 Hl) as (w' & ht' & Hrun & Ht' & Hd).
    exists w', ht'. unfold zend_hash_bucket_delete. rewrite (bind_Done _ _ _ _ _ Hrun).
    split_and!; [by destruct (flag_set r _)|done| |apply Hd].
    rewrite (dp_trace _ _ _ _ _ _ _ _ Hd). done.
  - exists w1, ht. rewrite app_nil_r. split_and!; [|done..]. erewrite bind_Done by reflexivity.
    by destruct (flag_set r _).
Qed.

Lemma apply_forward {A} (g : A → key → V → A * V * Z) (f : callback A) es2 fuel a w ht o1 o2 es1 :
  tbl w ht (o1 ++ o2) (es1 ++ es2) → length o1 = length es1 → (length o2 ≤ fuel)%nat →
  (∀ a z v, f a z v = g a (zkey z) v) →
  ∃ w' ht' o2' a' kept dead, apply_loop pListNext f fuel a ht (head o2) w = Done (a', ht') w' ∧
    apply_spec g a es2 = (a', kept, dead) ∧ tbl w' ht' (o1 ++ o2') (es1 ++ kept) ∧
    trace w' = trace w ++ dtor_events (pDestructor ht) dead ∧ ht_cfg ht' = ht_cfg ht.
Proof.
  intros Ht Hl Hlen Hf. revert fuel a w ht o1 o2 es1 Ht Hl Hlen.
  induction es2 as [|[k v] es2 IH]; intros fuel a w ht o1 o2 es1 Ht Hl Hlen;
    destruct (tbl_facts _ _ _ _ Ht) as (_ & _ & Hll & _); rewrite !length_app in Hll.
  - destruct o2; [|simpl in Hll; lia]. exists w, ht, [], a, [], []. split_and!; try done.
    + by destruct fuel.
    + by rewrite dtor_events_nil, app_nil_r.
  - destruct o2 as [|p o2]; [simpl in Hll; lia|]. destruct fuel as [|fuel]; [simpl in Hlen; lia|].
    destruct (g a k v) as [[a1 v1] r] eqn:Hg. simpl apply_spec. rewrite Hg.
    destruct (apply_step true g f fuel _ _ _ _ _ _ _ _ _ _ _ _ _ Ht Hl Hf Hg) as (w1 & ht1 & Hr & Ht1 & Htr1 & Hcfg1).
    cbv match zeta in Hr. cbn [head]. rewrite Hr. clear Hr.
    destruct (flag_set r ZEND_HASH_APPLY_STOP).
    + destruct (flag_set r ZEND_HASH_APPLY_REMOVE); [exists w1, ht1, o2|exists w1, ht1, (p :: o2)];
        eexists _, _, _; split_and!; try done; by rewrite Htr1, ?dtor_events_nil.
    + assert (pDestructor ht1 = pDestructor ht) as Hdt by (unfold ht_cfg in Hcfg1; congruence).
      destruct (flag_set r ZEND_HASH_APPLY_REMOVE).
      * destruct (IH fuel a1 w1 ht1 o1 o2 es1 Ht1 Hl) as (w' & ht' & o2' & a' & kept & dead & -> & -> & Ht' & Htr & Hcfg);
          [simpl in Hlen; lia|].
        exists w', ht', o2', a', kept, (v1 :: dead). split_and!; try done; [|congruence].
        rewrite Htr, Htr1, Hdt, <-app_assoc. f_equal. unfold dtor_events. by destruct (pDestructor ht).
      * destruct (IH fuel a1 w1 ht1 (o1 ++ [p]) o2 (es1 ++ [(k, v1)]))
          as (w' & ht' & o2' & a' & kept & dead & -> & -> & Ht' & Htr & Hcfg).
        { by rewrite <-!app_assoc. } { rewrite !length_app. simpl. lia. } { simpl in Hlen; lia. }
        rewrite <-!app_assoc in Ht'. exists w', ht', (p :: o2'), a', ((k, v1) :: kept), dead.
        split_and!; try done; [|congruence]. by rewrite Htr, Htr1, Hdt, app_nil_r.
Qed.

Lemma apply_backward {A} (g : A → key → V → A * V * Z) (f : callback A) es1 fuel a w ht o1 o2 es2 :
  tbl w ht (o1 ++ o2) (reverse es1 ++ es2) → length o1 = length es1 → (length o1 ≤ fuel)%nat →
  (∀ a z v, f a z v = g a (zkey z) v) →
  ∃ w' ht' o1' a' kept dead, apply_loop pListLast f fuel a ht (last o1) w = Done (a', ht') w' ∧
    apply_spec g a es1 = (a', kept, dead) ∧ tbl w' ht' (o1' ++ o2) (reverse kept ++ es2) ∧
    trace w' = trace w ++ dtor_events (pDestructor ht) dead ∧ ht_cfg ht' = ht_cfg ht.
Proof.
  intros Ht Hl Hlen Hf. revert fuel a w ht o1 o2 es2 Ht Hl Hlen.
  induction es1 as [|[k v] es1 IH]; intros fuel a w ht o1 o2 es2 Ht Hl Hlen.
  - destruct o1; [|done]. exists w, ht, [], a, [], []. split_and!; try done.
    + by destruct fuel.
    + by rewrite dtor_events_nil, app_nil_r.
  - destruct o1 as [|p o1 _] using rev_ind; [done|]. rewrite length_app in Hl, Hlen. simpl in Hl, Hlen.
    destruct fuel as [|fuel]; [lia|]. rewrite reverse_cons, <-!app_assoc in Ht. rewrite last_snoc.
    destruct (g a k v) as [[a1 v1] r] eqn:Hg. simpl apply_spec. rewrite Hg.
    assert (Hl' : length o1 = length (reverse es1)) by (rewrite length_reverse; lia).
    destruct (apply_step false g f fuel _ _ _ _ _ _ _ _ _ _ _ _ _ Ht Hl' Hf Hg) as (w1 & ht1 & Hr & Ht1 & Htr1 & Hcfg1).
    cbv match zeta in Hr.  rewrite Hr. clear Hr.
    destruct (flag_set r ZEND_HASH_APPLY_STOP).
    + destruct (flag_set r ZEND_HASH_APPLY_REMOVE).
      * by exists w1, ht1, o1, a1, es1, [v1].
      * exists w1, ht1, (o1 ++ [p]), a1, ((k, v1) :: es1), []. rewrite reverse_cons, <-!app_assoc.
        split_and!; try done. by rewrite Htr1, dtor_events_nil.
    + assert (pDestructor ht1 = pDestructor ht) as Hdt by (unfold ht_cfg in Hcfg1; congruence).
      edestruct (IH fuel a1 w1 ht1 o1) as (w' & ht' & o1' & a' & kept & dead & -> & -> & Ht' & Htr & Hcfg);
        [exact Ht1|lia|lia|].
      destruct (flag_set r ZEND_HASH_APPLY_REMOVE).
      * exists w', ht', o1', a', kept, (v1 :: dead). split_and!; try done; [|congruence].
        rewrite Htr, Htr1, Hdt, <-app_assoc. f_equal. unfold dtor_events. by destruct (pDestructor ht).
      * exists w', ht', (o1' ++ [p]), a', ((k, v1) :: kept), dead.
        rewrite reverse_cons, <-!app_assoc. split_and!; try done; [|congruence].
        by rewrite Htr, Htr1, Hdt, app_nil_r.
Qed.

End loops.
