(* ===== verification/HashCopy.v ===== *)
(** * Copying and merging hash tables

    [zend_hash_copy] and [_zend_hash_merge] read one table while they update
    another one of the same memory: [tbl_frame] keeps the source intact. *)

From S2P Require Import Prelude DList HashModel HashRepr HashFacts HashInsert HashOps HashLoops.
Local Open Scope Z_scope.

Definition copied {V} (cc : option (V → V)) (v : V) : V := match cc with Some f => f v | None => v end.

(** One source element merged into the target's contents and events: [add]
    keeps the element that the target has, otherwise it is replaced. *)
Definition merge_step {V} (add dtor : bool) (cc : option (V → V))
    (st : list (key * V) * list (event V)) (e : key * V) : list (key * V) * list (event V) :=
  let '(es, evs) := st in
  let '(k, v) := e in
  let inserted := if add then bool_decide (al_find k es = None) else true in
  (upd_es add k (copied cc v) es,
   evs ++ upd_events dtor add k es ++
     (if inserted then match cc with Some _ => [EvCopy v] | None => [] end else [])).

Definition merge_spec {V} (add dtor : bool) (cc : option (V → V)) (es src : list (key * V)) :=
  foldl (merge_step add dtor cc) (es, []) src.

Section copying.
Context {V : Type}.
Implicit Types (ht : HashTable) (b : Bucket V) (p q : ptr) (order : list ptr).
Implicit Types (h : gmap ptr (Bucket V)) (w : mem (Bucket V) (event V)) (es : list (key * V)).

Lemma tbl_agree w w' ht order es :
  agree id (cells w) (cells w') order → mem_ok w' → tbl w ht order es → tbl w' ht order es.
Proof.
  intros Hag Hm' [Hm [Hg Hn Hmax Hcur Hsz Hinit Hch He Hkeys Hnext] Hc].
  split; [done| |]; [split; try done|].
  - eapply glob_ok_agree; [by apply agree_id|done].
  - eapply chains_ok_agree; [by apply agree_id|by apply agree_id|done].
  - eapply entries_agree; [by apply agree_id|done].
  - eapply clean_agree; [by apply agree_id|done].
Qed.

Lemma evolves_agree w o w' o' l :
  evolves w o w' o' → (∀ q, q ∈ l → q ∉ o) → (∀ q, q ∈ l → is_Some (cells w !! q)) →
  agree id (cells w) (cells w') l.
Proof. intros [F _ _] Hd Hl q Hq. rewrite (F q); [done|by apply Hd|by apply Hl]. Qed.

(** A table next to the one an operation changes is left alone. *)
Lemma tbl_frame w ht order es o w' o' :
  tbl w ht order es → evolves w o w' o' → mem_ok w' → (∀ q, q ∈ order → q ∉ o) →
  tbl w' ht order es ∧ ∀ q, q ∈ order → q ∉ o'.
Proof.
  intros Ht Hev Hm' Hd. destruct (tbl_facts _ _ _ _ Ht) as (_ & _ & _ & _ & _ & _ & Hl). split.
  - eapply tbl_agree; [|done|done]. eapply evolves_agree; [done|done|]. intros q Hq. by apply Hl.
  - intros q Hq [?|Hlt]%(e_new _ _ _ _ Hev); [by apply (Hd q)|]. destruct (Hl q Hq) as [_ ?]. lia.
Qed.

(** ** Changing the data of the bucket with a given key *)

Lemma ptr_of_set_data w ht order es k v p (f : Bucket V → data V) :
  tbl w ht order es → ptr_of k order es = Some p → al_find k es = Some v →
  ∃ b, cells w !! p = Some b ∧ data_val (pData b) = v ∧ p ∈ order ∧
    tbl (with_cells (alter (λ b, set_pData (f b) b) p) w) ht order (al_update k (data_val (f b)) es).
Proof.
  intros Ht Hp Hf. destruct (tbl_facts _ _ _ _ Ht) as (_ & Hnd & Hlen & _).
  destruct (ptr_of_Some k order es p Hp Hlen) as (o1 & o2 & es1 & es2 & v0 & -> & -> & Hl & Hk1).
  rewrite al_find_app, (proj2 (al_find_None _ _) Hk1) in Hf. simpl in Hf.
  rewrite decide_True in Hf by done. injection Hf as <-.
  destruct (tbl_bucket _ _ _ _ _ _ _ _ _ Ht Hl) as (b & Hb & _ & _ & Hv & _).
  exists b. split_and!; [done|done|set_solver|]. rewrite al_update_present by done.
  by eapply tbl_set_data.
Qed.

Lemma al_find_upd add k v es :
  (add = true → al_find k es = None) → NoDup es.*1 → al_find k (upd_es add k v es) = Some v.
Proof.
  intros Hadd Hnd. unfold upd_es. destruct (al_find k es) as [v0|] eqn:Hf.
  - destruct add; [by discriminate Hadd|].
    clear Hnd. induction es as [|[k' v'] es IH]; simpl in *; [done|].
    case_decide; simpl; [by rewrite decide_True|rewrite decide_False by done; by apply IH].
  - rewrite al_find_app, Hf. simpl. by rewrite decide_True.
Qed.

Lemma al_update_upd add k v v' es :
  (add = true → al_find k es = None) → al_update k v' (upd_es add k v es) = upd_es add k v' es.
Proof.
  intros Hadd. unfold upd_es. destruct (al_find k es) as [v0|] eqn:Hf.
  - destruct add; [by discriminate Hadd|].
    induction es as [|[k' x] es IH]; simpl in *; [done|].
    case_decide; simpl; [by rewrite decide_True|]. rewrite decide_False by done. by rewrite IH.
  - apply al_find_None in Hf. by rewrite al_update_present.
Qed.

(** the bucket whose data the adders return *)
Lemma upd_dest_bucket add k v w ht order es w' ht' order' r pd :
  NoDup es.*1 → upd_post add k v w ht order es w' ht' order' r pd → r = SUCCESS →
  ∃ p b, pd = Some p ∧ cells w' !! p = Some b ∧ data_val (pData b) = v ∧ bkey b = k.
Proof.
  intros Hnd [U1 _ _ _ U5 U6 _ _ _] Hr.
  assert (Hadd : add = true → al_find k es = None).
  { intros ->. rewrite U5 in Hr. unfold upd_result in Hr. by destruct (al_find k es). }
  pose proof (al_find_upd add k v es Hadd Hnd) as Hf. destruct (tbl_facts _ _ _ _ U1) as (_ & _ & Hl & _).
  rewrite Hr in U6. simpl in U6. destruct pd as [p|].
  - destruct (ptr_of_Some k order' _ p (eq_sym U6) Hl) as (o1 & o2 & es1 & es2 & v0 & -> & Hes & Hl1 & Hk1).
    rewrite Hes in U1. destruct (tbl_bucket _ _ _ _ _ _ _ _ _ U1 Hl1) as (b & Hb & _ & Hbk & Hv & _).
    exists p, b. split_and!; try done. rewrite Hes, al_find_app, (proj2 (al_find_None _ _) Hk1) in Hf. simpl in Hf.
    rewrite decide_True in Hf by done. congruence.
  - symmetry in U6. apply ptr_of_None in U6; [|done]. apply al_find_None in U6. congruence.
Qed.

(** what an insertion followed by the copy constructor does *)
Record merge_post (add : bool) (cc : option (V → V)) (k : key) (v : V) w ht order es w' ht' order' : Prop := {
  mp_tbl : tbl w' ht' order' (merge_step add (pDestructor ht) cc (es, []) (k, v)).1;
  mp_evolves : evolves w order w' order';
  mp_trace : trace w' = trace w ++ (merge_step add (pDestructor ht) cc (es, []) (k, v)).2;
  mp_cfg : ht_cfg ht' = ht_cfg ht;
  mp_len : (length order' ≤ S (length order))%nat
}.

Lemma upd_order_length k es order p : (length (upd_order (V := V) k es order p) ≤ S (length order))%nat.
Proof. unfold upd_order. destruct (al_find k es); rewrite ?length_app; simpl; lia. Qed.

Lemma copy_construct_post (add : bool) cc k v w ht order es w1 ht1 order1 r pd :
  NoDup es.*1 → mem_ok w → upd_post add k v w ht order es w1 ht1 order1 r pd →
  ∃ w', copy_on_success cc r pd w1 = Done tt w' ∧ merge_post add cc k v w ht order es w' ht1 order1.
Proof.
  intros Hnd Hm [U1 U2 U3 U4 U5 U6 U7 U8 U9].
  assert (Hlen : (length order1 ≤ S (length order))%nat) by (rewrite U2; apply upd_order_length).
  unfold copy_on_success. destruct (Z.eqb_spec r SUCCESS) as [Hr|Hr].
  - assert (Hadd : add = true → al_find k es = None).
    { intros ->. rewrite U5 in Hr. unfold upd_result in Hr. by destruct (al_find k es). }
    assert (Hins : (if add then bool_decide (al_find k es = None) else true) = true).
    { destruct add; [|done]. apply bool_decide_eq_true_2. by apply Hadd. }
    destruct cc as [f|]; simpl.
    + pose proof (al_find_upd add k v es Hadd Hnd) as Hf.
      destruct (tbl_facts _ _ _ _ U1) as (_ & _ & Hl1 & _).
      destruct pd as [p|]; [|symmetry in U6; apply ptr_of_None in U6; [|done]; apply al_find_None in U6; congruence].
      destruct (ptr_of_set_data w1 ht1 order1 _ k v p (λ b, data_write (f (data_val (pData b))) (pData b)) U1 (eq_sym U6) Hf)
        as (b & Hb & Hbv & Hpo & Ht').
      assert (Hw : data_val (data_write (f (data_val (pData b))) (pData b)) = f v) by (by destruct (pData b); simpl in *; subst).
      cbv beta in Ht'. rewrite Hw, al_update_upd in Ht' by done.
      set (w2 := Mem (alter (λ b, set_pData (data_write (f (data_val (pData b))) (pData b)) b) p (cells w1))
                   (brk w1) (trace w1 ++ [EvCopy v])).
      exists w2. split.
      { rewrite (bind_Done _ _ _ _ _ (load_Done _ _ _ Hb)), Hbv. erewrite bind_Done by reflexivity.
        by rewrite store_Done by (simpl; by rewrite Hb). }
      split; try done.
      * unfold merge_step. simpl. by destruct Ht'; split.
      * eapply evolves_trans; [done|exact U3|]. by destruct (evolves_alter w1 order1 p (λ b, set_pData (data_write (f (data_val (pData b))) (pData b)) b) Hpo); split.
      * unfold merge_step, w2. simpl. by rewrite Hins, U4, app_assoc.
    + exists w1. split; [done|]. split; try done. unfold merge_step. simpl. by rewrite Hins, U4, app_nil_r.
  - exists w1. split; [done|].
    assert (add = true ∧ ∃ v0, al_find k es = Some v0) as (-> & v0 & Hf).
    { rewrite U5 in Hr. unfold upd_result in Hr. destruct (al_find k es), add; eauto; done. }
    split; try done; unfold merge_step; simpl.
    + unfold upd_es in *. by rewrite Hf in *.
    + rewrite U4. rewrite bool_decide_eq_false_2 by (by rewrite Hf). by rewrite app_nil_r.
Qed.

(** *** One element of the source *)

Lemma source_key h p b : h !! p = Some b → key_ok p b → nKeyLength b ≠ 0 →
  ∃ s, bkey b = KStr s ∧ key_arg h (arKey b) (nKeyLength b) s ∧ b_h b = zend_inline_hash_func s.
Proof.
  intros Hb [_ [?|(s & Hne & Hlen & Hh & Hk)]] Hn; [done|].
  exists s. assert (kbytes (arKey b) = Some s) as Hs by (by destruct Hk as [-> | ->]).
  unfold bkey, key_arg. rewrite Hs. destruct (Z.eqb_spec (nKeyLength b) 0); [done|].
  split_and!; try done. intros q t b' t' Hq Hb' Ht'. destruct Hk as [Hk|Hk]; rewrite Hk in Hq; [done|].
  injection Hq as <- <-. rewrite Hb in Hb'. injection Hb' as <-. rewrite Hk in Ht'. by injection Ht'.
Qed.

Lemma source_quick w ht order es p b size flag :
  tbl w ht order es → cells w !! p = Some b → key_ok p b → nKeyLength b ≠ 0 →
  Z.of_nat (length order) + 1 < 2 ^ 32 →
  ∃ w' ht' order' r pd,
    _zend_hash_quick_add_or_update ht (arKey b) (nKeyLength b) (b_h b) (data_val (pData b)) size flag w = Done (ht', r, pd) w' ∧
    upd_post (flag_set flag HASH_ADD) (bkey b) (data_val (pData b)) w ht order es w' ht' order' r pd.
Proof.
  intros Ht Hb Hok Hn Hlen. destruct (source_key _ _ _ Hb Hok Hn) as (s & -> & Hka & ->).
  by apply quick_add_or_update_post.
Qed.

Lemma source_index w ht order es p b size flag :
  tbl w ht order es → key_ok p b → nKeyLength b = 0 → flag_set flag HASH_NEXT_INSERT = false →
  Z.of_nat (length order) + 1 < 2 ^ 32 →
  ∃ w' ht' order' r pd,
    _zend_hash_index_update_or_next_insert ht (b_h b) (data_val (pData b)) size flag w = Done (ht', r, pd) w' ∧
    upd_post (flag_set flag HASH_ADD) (bkey b) (data_val (pData b)) w ht order es w' ht' order' r pd.
Proof.
  intros Ht [Hr _] Hn Hfl Hlen. unfold bkey. rewrite Hn. simpl.
  pose proof (index_update_or_next_insert_post w ht order es (b_h b) (data_val (pData b)) size flag Ht Hr Hlen) as Hp.
  cbv zeta in Hp. rewrite Hfl in Hp. exact Hp.
Qed.

Lemma merge_foldl add dtor (cc : option (V → V)) l es evs :
  foldl (merge_step add dtor cc) (es, evs) l =
    ((merge_spec add dtor cc es l).1, evs ++ (merge_spec add dtor cc es l).2).
Proof.
  unfold merge_spec. revert es evs. induction l as [|[k v] l IH]; intros es evs; simpl; [by rewrite app_nil_r|].
  rewrite IH, (IH _ (upd_events _ _ _ _ ++ _)). simpl. by rewrite !app_assoc.
Qed.

Lemma merge_spec_cons add dtor (cc : option (V → V)) es e l :
  merge_spec add dtor cc es (e :: l) =
    ((merge_spec add dtor cc (merge_step add dtor cc (es, []) e).1 l).1,
     (merge_step add dtor cc (es, []) e).2 ++ (merge_spec add dtor cc (merge_step add dtor cc (es, []) e).1 l).2).
Proof.
  unfold merge_spec at 1. cbn [foldl]. rewrite (surjective_pairing (merge_step add dtor cc (es, []) e)) at 1.
  apply merge_foldl.
Qed.

Lemma tbl_set_cur w ht order es c :
  (∀ p, c = Some p → p ∈ order) → tbl w ht order es → tbl w (set_pInternalPointer c ht) order es.
Proof. intros Hc [Hm [] Hcl]. by split. Qed.

(** The two tables during a merge: [o1], [e1] of the source are done. *)
Record merging w (src tgt : HashTable) (o1 o2 : list ptr) e1 e2 ot et : Prop := {
  mg_src : tbl w src (o1 ++ o2) (e1 ++ e2);
  mg_tgt : tbl w tgt ot et;
  mg_disj : ∀ q, q ∈ o1 ++ o2 → q ∉ ot;
  mg_done : length o1 = length e1;
  mg_room : Z.of_nat (length ot + length o2) < 2 ^ 32
}.

Lemma merging_next add cc w src tgt o1 p o2 e1 k v e2 ot et w' tgt' ot' :
  merging w src tgt o1 (p :: o2) e1 ((k, v) :: e2) ot et → merge_post add cc k v w tgt ot et w' tgt' ot' →
  merging w' src tgt' (o1 ++ [p]) o2 (e1 ++ [(k, v)]) e2 ot' (merge_step add (pDestructor tgt) cc (et, []) (k, v)).1 ∧
  ∃ b, cells w' !! p = Some b ∧ pListNext b = head o2.
Proof.
  intros [M1 M2 M3 M4 M5] [P1 P2 P3 P4 P5].
  destruct (tbl_frame _ _ _ _ _ _ _ M1 P2 (t_mem _ _ _ _ P1) M3) as [Hs Hd]. split.
  - split; rewrite <-?app_assoc; simpl; try done.
    + rewrite !length_app. simpl. lia.
    + simpl in M5. lia.
  - destruct (tbl_bucket _ _ _ _ _ _ _ _ _ Hs M4) as (b & Hb & _ & _ & _ & Hn & _). eauto.
Qed.

Lemma upd_result_update k es : upd_result (V := V) false k es = SUCCESS.
Proof. unfold upd_result. by destruct (al_find k es). Qed.

Lemma copy_on_success_always (cc : option (V → V)) k v w ht order es w1 ht1 order1 r pd :
  upd_post (V := V) false k v w ht order es w1 ht1 order1 r pd →
  copy_on_success cc r pd = copy_construct cc pd.
Proof. intros [_ _ _ _ -> _ _ _ _]. unfold copy_on_success. by rewrite upd_result_update. Qed.

Lemma copy_loop_spec cc size stp src e2 fuel w tgt o1 o2 e1 ot et :
  merging w src tgt o1 o2 e1 e2 ot et → (length o2 ≤ fuel)%nat →
  ∃ w' tgt' ot', copy_loop fuel stp src cc size tgt (head o2) w = Done tgt' w' ∧
    tbl w' tgt' ot' (merge_spec false (pDestructor tgt) cc et e2).1 ∧ tbl w' src (o1 ++ o2) (e1 ++ e2) ∧
    (∀ q, q ∈ o1 ++ o2 → q ∉ ot') ∧
    trace w' = trace w ++ (merge_spec false (pDestructor tgt) cc et e2).2 ∧ ht_cfg tgt' = ht_cfg tgt.
Proof.
  revert fuel w tgt o1 o2 e1 ot et. induction e2 as [|[k v] e2 IH]; intros fuel w tgt o1 o2 e1 ot et Hmg Hfuel;
    pose proof Hmg as [M1 M2 M3 M4 M5]; destruct (tbl_facts _ _ _ _ M1) as (_ & _ & Hll & _);
    rewrite !length_app in Hll.
  { destruct o2; [|simpl in Hll; lia]. exists w, tgt, ot. split; [by destruct fuel|].
    split_and!; try done. by rewrite app_nil_r. }
  destruct o2 as [|p o2]; [simpl in Hll; lia|]. destruct fuel as [|fuel]; [simpl in Hfuel; lia|].
  cbn [head copy_loop]. set (tgt1 := if _ && _ then set_pInternalPointer None tgt else tgt).
  assert (tbl w tgt1 ot et ∧ pDestructor tgt1 = pDestructor tgt ∧ ht_cfg tgt1 = ht_cfg tgt) as (Ht1 & Hdt & Hcfg).
  { unfold tgt1. case_match; [|done]. split; [by apply tbl_set_cur|done]. }
  destruct (tbl_bucket _ _ _ _ _ _ _ _ _ M1 M4) as (b & Hb & Hok & Hbk & Hv & Hnx & _).
  rewrite (bind_Done _ _ _ _ _ (load_Done _ _ _ Hb)).
  assert (Hrun : ∃ w1 tgt2 ot1 r pd, (if negb (nKeyLength b =? 0)
      then zend_hash_quick_update tgt1 (arKey b) (nKeyLength b) (b_h b) (data_val (pData b)) size
      else zend_hash_index_update tgt1 (b_h b) (data_val (pData b)) size) w = Done (tgt2, r, pd) w1 ∧
    upd_post false k v w tgt1 ot et w1 tgt2 ot1 r pd).
  { subst k v. simpl in M5. destruct (Z.eqb_spec (nKeyLength b) 0) as [Hn|Hn]; simpl.
    - eapply source_index; try done. lia.
    - eapply (source_quick _ _ _ _ _ _ _ HASH_UPDATE); try done. lia. }
  destruct Hrun as (w1 & tgt2 & ot1 & r & pd & Hrun & Hpost). rewrite (bind_Done _ _ _ _ _ Hrun).
  destruct (copy_construct_post _ cc _ _ _ _ _ _ _ _ _ _ _ (r_keys _ _ _ _ (t_repr _ _ _ _ Ht1)) (t_mem _ _ _ _ Ht1) Hpost)
    as (w2 & Hcc & Hmp). rewrite (copy_on_success_always _ _ _ _ _ _ _ _ _ _ _ _ Hpost) in Hcc.
  rewrite (bind_Done _ _ _ _ _ Hcc).
  destruct (merging_next false cc w src tgt1 o1 p o2 e1 k v e2 ot et w2 tgt2 ot1) as [Hmg2 (b2 & Hb2 & Hnx2)];
    [by split|done|].
  rewrite (bind_Done _ _ _ _ _ (load_Done _ _ _ Hb2)), Hnx2. pose proof Hmp as [P1 P2 P3 P4 P5].
  destruct (IH fuel _ _ _ _ _ _ _ Hmg2) as (w' & tgt' & ot' & Hrun' & R1 & R2 & R3 & R4 & R5); [simpl in Hfuel; lia|].
  assert (pDestructor tgt2 = pDestructor tgt) as Hd2 by (unfold ht_cfg in P4; congruence).
  exists w', tgt', ot'. rewrite <-!app_assoc in R2. rewrite <-app_assoc in R3. rewrite Hd2, Hdt in R1, R4. rewrite Hdt in P3.
  rewrite merge_spec_cons. split_and!; try done; [|congruence].
  rewrite R4, P3. by rewrite <-app_assoc.
Qed.

(** *** [_zend_hash_merge] *)

Lemma upd_post_absent k v w ht order es w' ht' order' r pd :
  al_find k es = None → upd_post (V := V) false k v w ht order es w' ht' order' r pd →
  upd_post true k v w ht order es w' ht' order' r pd.
Proof.
  intros Hf [U1 U2 U3 U4 U5 U6 U7 U8 U9].
  split; unfold upd_es, upd_events, upd_result in *; rewrite Hf in *; done.
Qed.

Lemma merge_post_kept cc k v v0 w ht order es :
  tbl (V := V) w ht order es → al_find k es = Some v0 → merge_post true cc k v w ht order es w ht order.
Proof.
  intros Ht Hf. split; try done; unfold merge_step, upd_es, upd_events; rewrite ?Hf; simpl; try done.
  - apply evolves_refl.
  - by rewrite app_nil_r.
  - lia.
Qed.

(** one element of the source: the two cases of [zend_hash_merge] *)
Lemma merge_one (overwrite : bool) cc size w tgt ot et p b :
  tbl w tgt ot et → cells w !! p = Some b → key_ok p b → Z.of_nat (length ot) + 1 < 2 ^ 32 →
  let mode := if overwrite then HASH_UPDATE else HASH_ADD in
  ∃ w' tgt' ot',
    (if nKeyLength b >? 0 then
       bind (_zend_hash_quick_add_or_update tgt (arKey b) (nKeyLength b) (b_h b) (data_val (pData b)) size mode)
         (λ '(tgt, r, t), bind (copy_on_success cc r t) (λ _, ret tgt))
     else
       bind (if mode =? HASH_UPDATE then ret true
             else bind (zend_hash_index_exists tgt (b_h b)) (λ e, ret (e =? 0))) (λ absent : bool,
       if absent then
         bind (zend_hash_index_update tgt (b_h b) (data_val (pData b)) size)
           (λ '(tgt, r, t), bind (copy_on_success cc r t) (λ _, ret tgt))
       else ret tgt)) w = Done tgt' w' ∧
    merge_post (negb overwrite) cc (bkey b) (data_val (pData b)) w tgt ot et w' tgt' ot'.
Proof.
  intros Ht Hb Hok Hlen mode. pose proof (r_keys _ _ _ _ (t_repr _ _ _ _ Ht)) as Hnd.
  pose proof (t_mem _ _ _ _ Ht) as Hm.
  assert (Hgo : ∀ add (m : HM V (HashTable * Z * option ptr)), (∃ w' ht' order' r pd, m w = Done (ht', r, pd) w' ∧
      upd_post add (bkey b) (data_val (pData b)) w tgt ot et w' ht' order' r pd) →
    ∃ w' tgt' ot', bind m (λ '(tgt, r, t), bind (copy_on_success cc r t) (λ _, ret tgt)) w = Done tgt' w' ∧
      merge_post add cc (bkey b) (data_val (pData b)) w tgt ot et w' tgt' ot').
  { intros add m (w1 & ht1 & ot1 & r & pd & Hm1 & Hp).
    destruct (copy_construct_post _ cc _ _ _ _ _ _ _ _ _ _ _ Hnd Hm Hp) as (w2 & Hcc & Hmp).
    exists w2, ht1, ot1. rewrite (bind_Done _ _ _ _ _ Hm1). by rewrite (bind_Done _ _ _ _ _ Hcc). }
  assert (Hmode : negb overwrite = flag_set mode HASH_ADD) by (by destruct overwrite).
  pose proof Hok as [Hr Hk].
  assert (0 ≤ nKeyLength b) by (destruct Hk as [->|(s & _ & -> & _)]; lia).
  destruct (Z.gtb_spec (nKeyLength b) 0) as [Hn|Hn].
  - rewrite Hmode. apply Hgo. apply (source_quick w tgt ot et p b); try done. lia.
  - assert (Hz : nKeyLength b = 0) by lia.
    assert (Hix : ∃ w' ht' order' r pd, zend_hash_index_update tgt (b_h b) (data_val (pData b)) size w = Done (ht', r, pd) w' ∧
      upd_post false (bkey b) (data_val (pData b)) w tgt ot et w' ht' order' r pd).
    { apply (source_index w tgt ot et p b size HASH_UPDATE); done. }
    destruct overwrite; unfold mode; simpl.
    + by apply Hgo.
    + rewrite bind_assoc. rewrite (bind_Done _ _ _ _ _ (index_exists_run _ _ _ _ (b_h b) Ht ltac:(lia))).
      destruct (tbl_facts _ _ _ _ Ht) as (_ & _ & Hll & _).
      assert (Hbk : bkey b = KInt (b_h b)) by (unfold bkey; by rewrite Hz).
      destruct (ptr_of (KInt (b_h b)) ot et) as [q|] eqn:Hq; erewrite bind_Done by reflexivity; simpl.
      * exists w, tgt, ot. split; [done|].
        destruct (ptr_of_Some _ _ _ _ Hq Hll) as (? & ? & es1 & es2 & v0 & -> & -> & ? & Hn1).
        eapply merge_post_kept; [done|]. rewrite Hbk, al_find_app, (proj2 (al_find_None _ _) Hn1). simpl.
        by rewrite decide_True.
      * apply ptr_of_None in Hq; [|done]. apply Hgo.
        destruct Hix as (w1 & ht1 & ot1 & r & pd & ? & ?). exists w1, ht1, ot1, r, pd. split; [done|].
        apply upd_post_absent; [|done]. rewrite Hbk. by apply al_find_None.
Qed.

Lemma merge_loop_spec (overwrite : bool) cc size src e2 fuel w tgt o1 o2 e1 ot et :
  merging w src tgt o1 o2 e1 e2 ot et → (length o2 ≤ fuel)%nat →
  let sp := merge_spec (negb overwrite) (pDestructor tgt) cc et e2 in
  ∃ w' tgt' ot', merge_loop fuel (if overwrite then HASH_UPDATE else HASH_ADD) cc size tgt (head o2) w = Done tgt' w' ∧
    tbl w' tgt' ot' sp.1 ∧ tbl w' src (o1 ++ o2) (e1 ++ e2) ∧ (∀ q, q ∈ o1 ++ o2 → q ∉ ot') ∧
    trace w' = trace w ++ sp.2 ∧ ht_cfg tgt' = ht_cfg tgt.
Proof.
  revert fuel w tgt o1 o2 e1 ot et. induction e2 as [|[k v] e2 IH]; intros fuel w tgt o1 o2 e1 ot et Hmg Hfuel sp;
    pose proof Hmg as [M1 M2 M3 M4 M5]; destruct (tbl_facts _ _ _ _ M1) as (_ & _ & Hll & _);
    rewrite !length_app in Hll.
  { destruct o2; [|simpl in Hll; lia]. exists w, tgt, ot. split; [by destruct fuel|].
    split_and!; try done. by rewrite app_nil_r. }
  destruct o2 as [|p o2]; [simpl in Hll; lia|]. destruct fuel as [|fuel]; [simpl in Hfuel; lia|].
  destruct (tbl_bucket _ _ _ _ _ _ _ _ _ M1 M4) as (b & Hb & Hok & Hbk & Hv & Hnx & _).
  cbn [head merge_loop]. rewrite (bind_Done _ _ _ _ _ (load_Done _ _ _ Hb)).
  destruct (merge_one overwrite cc size w tgt ot et p b M2 Hb Hok) as (w2 & tgt2 & ot1 & Hrun & Hmp);
    [simpl in M5; lia|]. cbv zeta in Hrun. rewrite Hbk, Hv in Hmp.
  rewrite (bind_Done _ _ _ _ _ Hrun).
  destruct (merging_next _ cc w src tgt o1 p o2 e1 k v e2 ot et w2 tgt2 ot1 Hmg Hmp) as [Hmg2 (b2 & Hb2 & Hnx2)].
  rewrite (bind_Done _ _ _ _ _ (load_Done _ _ _ Hb2)), Hnx2. pose proof Hmp as [P1 P2 P3 P4 P5].
  destruct (IH fuel _ _ _ _ _ _ _ Hmg2) as (w' & tgt' & ot' & Hrun' & R1 & R2 & R3 & R4 & R5); [simpl in Hfuel; lia|].
  assert (pDestructor tgt2 = pDestructor tgt) as Hd2 by (unfold ht_cfg in P4; congruence).
  exists w', tgt', ot'. rewrite <-!app_assoc in R2. rewrite <-app_assoc in R3. rewrite Hd2 in R1, R4.
  unfold sp. rewrite merge_spec_cons. split_and!; try done; [|congruence].
  rewrite R4, P3. by rewrite <-app_assoc.
Qed.

End copying.
