(* ===== verification/HashSort.v ===== *)
(** * Renumbering, sorting and splicing hash tables

    [zend_hash_reindex] rebuilds the chains under new integer keys; the global
    list is reordered by [zend_hash_sort] and cut by [zend_hash_splice]. *)

From S2P Require Import Prelude DList HashModel HashRepr HashFacts HashInsert HashOps HashLoops HashCopy.
Local Open Scope Z_scope.

Definition is_int (k : key) : bool := match k with KInt _ => true | KStr _ => false end.

(** the contents with fresh integer keys from [off] on, for all the elements or
    only for those that have integer keys *)
Fixpoint renumber {V} (only_integer_keys : bool) (off : Z) (es : list (key * V)) : list (key * V) :=
  match es with
  | [] => []
  | (k, v) :: es' =>
      if negb only_integer_keys || is_int k then (KInt off, v) :: renumber only_integer_keys (off + 1) es'
      else (k, v) :: renumber only_integer_keys off es'
  end.

Fixpoint renumbered {V} (only_integer_keys : bool) (off : Z) (es : list (key * V)) : Z :=
  match es with
  | [] => off
  | (k, _) :: es' => renumbered only_integer_keys (if negb only_integer_keys || is_int k then off + 1 else off) es'
  end.

Definition str_keys {V} (es : list (key * V)) : list key := filter (λ k, is_int k = false) es.*1.

(** What reindexing may change: the chains, and the keys of the buckets [S]. *)
Record rekeyed {V} (S : list ptr) (w w' : mem (Bucket V) (event V)) : Prop := {
  rk_glob : ∀ l, agree (lnk glob) (cells w) (cells w') l;
  rk_arKey : ∀ l, agree arKey (cells w) (cells w') l;
  rk_frame : ∀ q, q ∉ S → cells w' !! q = cells w !! q;
  rk_live : ∀ q, is_Some (cells w' !! q) ↔ is_Some (cells w !! q);
  rk_brk : brk w' = brk w;
  rk_trace : trace w' = trace w
}.

Section reindexing.
Context {V : Type}.
Implicit Types (ht : HashTable) (b : Bucket V) (p q : ptr) (order S : list ptr).
Implicit Types (h : gmap ptr (Bucket V)) (w : mem (Bucket V) (event V)) (es : list (key * V)).

Lemma rekeyed_refl S w : rekeyed S w w.
Proof. split; intros; try done; apply agree_refl. Qed.

Lemma rekeyed_trans S w1 w2 w3 : rekeyed S w1 w2 → rekeyed S w2 w3 → rekeyed S w1 w3.
Proof.
  intros [A1 A2 A3 A4 A5 A6] [B1 B2 B3 B4 B5 B6]. split; intros; try congruence.
  - eapply agree_trans; eauto.
  - eapply agree_trans; eauto.
  - rewrite B3 by done. auto.
  - rewrite B4. auto.
Qed.

Lemma rekeyed_relinked S w w' : relinked S w w' → rekeyed S w w'.
Proof.
  intros [R1 R2 R3 R4 R5 R6]. split; try done. intros l q Hq. specialize (R2 l q Hq).
  destruct (cells w !! q), (cells w' !! q); simpl in *; try done; [|by discriminate R2..].
  f_equal. apply (inj Some) in R2. by injection R2.
Qed.

Lemma agree_alter_ne {X} (f : Bucket V → X) q g h l : q ∉ l → agree f h (alter g q h) l.
Proof. intros Hq p Hp. rewrite lookup_alter_ne; [done|]. by intros ->. Qed.

(** the writes of the key in one round of the loop *)
Lemma reindex_key_run only w p b k v off :
  cells w !! p = Some b → key_ok p b → bkey b = k → data_val (pData b) = v → 0 ≤ off < 2 ^ 32 →
  ∃ w1 b1,
    (if negb only || (nKeyLength b =? 0)
     then bind (store p (set_b_h off)) (λ _, bind (store p (set_nKeyLength 0)) (λ _, ret (u64 (off + 1))))
     else ret off) w = Done (renumbered only off [(k, v)]) w1 ∧
    cells w1 !! p = Some b1 ∧ rekeyed [p] w w1 ∧ (∀ l, agree (lnk chain) (cells w) (cells w1) l) ∧
    renumber only off [(k, v)] = [(bkey b1, v)] ∧ key_ok p b1 ∧ data_val (pData b1) = v ∧ arKey b1 = arKey b ∧
    pListNext b1 = pListNext b ∧ (only = true → nKeyLength b1 = 0 → nKeyLength b = 0).
Proof.
  intros Hb Hok Hbk Hv Hoff. assert (Hint : is_int k = (nKeyLength b =? 0)).
  { subst k. unfold bkey. by destruct (nKeyLength b =? 0). }
  simpl. rewrite Hint. destruct (negb only || (nKeyLength b =? 0)) eqn:Hc.
  - set (w1 := with_cells (λ h, alter (set_nKeyLength 0) p (alter (set_b_h off) p h)) w).
    exists w1, (set_nKeyLength 0 (set_b_h off b)). split_and!; try done.
    + erewrite bind_Done by (apply store_Done; by rewrite Hb).
      erewrite bind_Done by (apply store_Done; simpl; rewrite lookup_alter_eq, Hb; done).
      unfold u64, ret. rewrite Z.mod_small by lia. done.
    + unfold w1. simpl. by rewrite !lookup_alter_eq, Hb.
    + split; simpl; try done.
      * intros l. solve_agree.
      * intros l. solve_agree.
      * intros q Hq. rewrite !lookup_alter_ne by set_solver. done.
      * intros q. by rewrite !lookup_alter_is_Some.
    + intros l. simpl. solve_agree.
    + split; [simpl; lia|by left].
    + intros -> _. simpl in Hc. by apply Z.eqb_eq.
  - exists w, b. rewrite Hbk. by split_and!.
Qed.

Lemma reindex_loop_spec only rest es S w ht fuel off :
  seg glob (cells w) (last_or S None) rest None → NoDup (S ++ rest) →
  chains_ok (cells w) (arBuckets ht) (nTableMask ht) S → size_ok ht →
  Forall2 (entry (cells w)) rest es → 0 ≤ off → off + Z.of_nat (length rest) < 2 ^ 32 →
  (length rest ≤ fuel)%nat →
  ∃ w' slots, reindex_loop fuel only ht off (head rest) w =
      Done (set_arBuckets slots ht, renumbered only off es) w' ∧
    length slots = length (arBuckets ht) ∧
    chains_ok (cells w') slots (nTableMask ht) (S ++ rest) ∧ rekeyed (S ++ rest) w w' ∧
    agree payload (cells w) (cells w') S ∧
    Forall2 (entry (cells w')) rest (renumber only off es) ∧
    (only = true → clean (cells w) rest → clean (cells w') rest).
Proof.
  revert es S w ht fuel off. induction rest as [|p rest IH]; intros es S w ht fuel off Hs Hnd Hc Hsz He Hoff Hmax Hf.
  { inversion He; subst. exists w, (arBuckets ht). rewrite app_nil_r. split; [destruct fuel; simpl; by destruct ht|].
    by split_and!. }
  destruct fuel as [|fuel]; simpl in Hf; [lia|]. destruct es as [|[k v] es]; [by inversion He|].
  apply Forall2_cons in He as [(b & Hpb & Hok & Hbk & Hbv) He]. simpl in Hbk, Hbv, Hmax.
  pose proof Hnd as (HpS & Hprest & _)%nodup_middle.
  destruct Hs as [Hpl Hs]. rewrite Hpb in Hpl. simpl in Hpl. injection Hpl as _ Hnext. simpl in Hnext.
  cbn [reindex_loop head]. rewrite (bind_Done _ _ _ _ _ (load_Done _ _ _ Hpb)).
  destruct (reindex_key_run only w p b k v off Hpb Hok Hbk Hbv ltac:(lia))
    as (w1 & b1 & Hrun1 & Hb1 & Hrk1 & Hch1 & Hren & Hok1 & Hv1 & Hak1 & Hn1 & Hcl1).
  rewrite (bind_Done _ _ _ _ _ Hrun1), (bind_Done _ _ _ _ _ (load_Done _ _ _ Hb1)).
  assert (Hfr : ∀ q, q ≠ p → cells w1 !! q = cells w !! q) by (intros q Hq; apply Hrk1; set_solver).
  assert (HagS : ∀ l, p ∉ l → agree payload (cells w) (cells w1) l).
  { intros l Hl q Hq. rewrite Hfr; [done|]. by intros ->. }
  assert (Hc1 : chains_ok (cells w1) (arBuckets ht) (nTableMask ht) S).
  { eapply chains_ok_agree; [apply Hch1|by apply HagS|done]. }
  destruct (size_ok_slot ht (b_h b1) Hsz) as (hd & Hland & Hhd); [by destruct Hok1; lia|].
  rewrite (bind_Done _ _ _ _ _ (rd_slot_Done _ _ _ _ Hhd)).
  assert (HhdS : ∀ q, hd = Some q → q ∈ S ∧ is_Some (cells w1 !! q)).
  { intros q ->. eapply slot_head_live; [exact Hc1|exact Hhd]. }
  erewrite bind_Done; [|apply connect_run; [by rewrite Hb1|intros q Hq; by apply HhdS]].
  erewrite bind_Done; [|apply wr_slot_Done; by eapply lookup_lt_Some].
  rewrite Hn1, Hnext, head_or_None.
  pose proof (chains_ok_connect _ _ _ _ _ _ _ _ Hc1 HpS Hb1 eq_refl Hland Hhd) as Hc2.
  assert (Hoff' : 0 ≤ renumbered only off [(k, v)] ≤ off + 1) by (simpl; destruct (negb only || is_int k); lia).
  set (w2 := with_cells (connect_cells p hd) w1).
  assert (Hag2 : ∀ l, p ∉ l → agree payload (cells w) (cells w2) l).
  { intros l Hl. eapply agree_trans; [by apply HagS|apply agree_connect_payload]. }
  assert (Hrk2 : rekeyed (S ++ p :: rest) w w2).
  { eapply rekeyed_trans.
    - destruct Hrk1. split; try done. intros q Hq. apply Hfr. set_solver.
    - apply rekeyed_relinked, relinked_connect; [set_solver|]. intros q [? _]%HhdS. set_solver. }
  destruct (IH es (S ++ [p]) w2 (set_arBuckets (<[Z.to_nat (Z.land (b_h b1) (nTableMask ht)):=Some p]> (arBuckets ht)) ht)
    fuel (renumbered only off [(k, v)])) as (w' & slots & Hrun & Hlen & Hch & Hrk & Hpay & Hent & Hcl).
  - rewrite last_or_snoc. eapply seg_agree; [apply Hrk2|exact Hs].
  - by rewrite <-app_assoc.
  - simpl. eapply chains_ok_ext; [|exact Hc2]. intros q. set_solver.
  - destruct Hsz as (? & ? & ?). split_and!; try done. simpl. by rewrite length_insert.
  - eapply entries_agree; [by apply Hag2|done].
  - lia.
  - lia.
  - lia.
  - rewrite <-app_assoc in Hch, Hrk. simpl in Hch, Hrk, Hlen. rewrite length_insert in Hlen.
    exists w', slots. split; [rewrite Hrun; by destruct ht|]. split_and!; try done.
    + by eapply rekeyed_trans.
    + eapply agree_trans; [by apply Hag2|]. eapply agree_subset; [|exact Hpay]. set_solver.
    + assert (renumber only off ((k, v) :: es) = (bkey b1, v) :: renumber only (renumbered only off [(k, v)]) es) as ->.
      { simpl in *. by destruct (negb only || is_int k); injection Hren as ->. }
      constructor; [|done]. eapply (entry_agree (cells w2)); [exact Hpay|set_solver|].
      eapply (entry_agree (cells w1)); [apply (agree_connect_payload _ _ _ [p])|left|]. by exists b1.
    + intros Honly Hclean q b' [->|Hq]%elem_of_cons Hb' Hn'.
      * pose proof (rk_arKey _ _ _ Hrk [p] p ltac:(left)) as Hk'. rewrite Hb' in Hk'.
        pose proof (Hpay p ltac:(set_solver)) as Hpp.
        pose proof (agree_connect_payload p hd (cells w1) [p] p ltac:(left)) as Hpp1.
        fold (cells w2) in Hpp1. change (connect_cells p hd (cells w1)) with (cells w2) in Hpp1.
        rewrite Hb1 in Hpp1. rewrite Hpp1, Hb' in Hpp. simpl in Hpp. injection Hpp as _ E2 _ E4.
        rewrite E4, Hak1. apply (Hclean p b); [left|done|]. apply Hcl1; [done|]. congruence.
      * eapply Hcl; [done| |exact Hq|exact Hb'|exact Hn'].
        eapply clean_agree; [by apply Hag2|]. intros q' b'' Hq'. apply Hclean. by right.
Qed.

(** ** [zend_hash_reindex] *)

Lemma renumber_fst_int only off es i v :
  (KInt i, v) ∈ renumber (V := V) only off es → off ≤ i < renumbered only off es.
Proof.
  revert off. induction es as [|[k x] es IH]; intros off; simpl; [by intros ?%elem_of_nil|].
  assert (Hmono : ∀ es off, off ≤ renumbered (V := V) only off es).
  { clear. intros es. induction es as [|[k x] es IH]; intros off; simpl; [lia|].
    case_match; [specialize (IH (off + 1)); lia|apply IH]. }
  destruct (negb only || is_int k) eqn:Hc; rewrite elem_of_cons.
  - intros [[= -> ->]|Hin%IH]; [specialize (Hmono es (off + 1))|]; lia.
  - intros [[= <- ->]|Hin%IH]; [|lia]. simpl in Hc. by rewrite orb_true_r in Hc.
Qed.

Lemma renumber_fst_str only off es s v :
  (KStr s, v) ∈ renumber (V := V) only off es → (KStr s, v) ∈ es.
Proof.
  revert off. induction es as [|[k x] es IH]; intros off; simpl; [done|].
  case_match; rewrite !elem_of_cons; intros [[= ]|Hin%IH]; subst; auto.
Qed.

Lemma renumber_NoDup only off es : NoDup (str_keys es) → NoDup (renumber (V := V) only off es).*1.
Proof.
  revert off. induction es as [|[k x] es IH]; intros off; simpl; [intros; constructor|].
  unfold str_keys. rewrite fmap_cons, filter_cons. intros Hnd.
  assert (Hnd' : NoDup (str_keys es)) by (case_decide; [by apply NoDup_cons in Hnd as []|done]).
  destruct (negb only || is_int k) eqn:Hc; simpl; apply NoDup_cons; (split; [|by apply IH]).
  - intros ([k' v'] & Heq & Hin)%list_elem_of_fmap. simpl in Heq. subst k'.
    apply renumber_fst_int in Hin. lia.
  - intros ([k' v'] & Heq & Hin)%list_elem_of_fmap. simpl in Heq. subst k'.
    destruct k as [s|i]; [|simpl in Hc; by rewrite orb_true_r in Hc].
    apply renumber_fst_str in Hin. rewrite decide_True in Hnd by done. apply NoDup_cons in Hnd as [Hk _].
    apply Hk, list_elem_of_filter. split; [done|]. apply list_elem_of_fmap. by exists (KStr s, v').
Qed.

Lemma renumber_snd only off es : (renumber (V := V) only off es).*2 = es.*2.
Proof.
  revert off. induction es as [|[k v] es IH]; intros off; simpl; [done|].
  case_match; simpl; by rewrite IH.
Qed.

Lemma renumbered_bounds only off es : off ≤ renumbered (V := V) only off es ≤ off + Z.of_nat (length es).
Proof.
  revert off. induction es as [|[k v] es IH]; intros off; simpl; [lia|].
  case_match; [specialize (IH (off + 1))|specialize (IH off)]; lia.
Qed.

(** What is needed of a table to be reindexed: its chains and its integer keys
    may be wrong. *)
Record reindexable w ht order es : Prop := {
  rx_mem : mem_ok w;
  rx_glob : glob_ok (cells w) (pListHead ht) (pListTail ht) order;
  rx_num : nNumOfElements ht = Z.of_nat (length order);
  rx_max : Z.of_nat (length order) < 2 ^ 32;
  rx_cur : ∀ p, pInternalPointer ht = Some p → p ∈ order;
  rx_size : size_ok ht;
  rx_mask : nTableMask ht ≠ 0;
  rx_empty : order = [] → chains_ok (cells w) (arBuckets ht) (nTableMask ht) [];
  rx_entries : Forall2 (entry (cells w)) order es;
  rx_strs : NoDup (str_keys es)
}.

Lemma reindex_spec only w ht order es :
  reindexable w ht order es →
  ∃ w' ht', zend_hash_reindex ht only w = Done ht' w' ∧
    mem_ok w' ∧ repr (cells w') ht' order (renumber only 0 es) ∧ rekeyed order w w' ∧
    (only = true → clean (cells w) order → clean (cells w') order) ∧
    nNextFreeElement ht' = renumbered only 0 es ∧ ht_cfg ht' = ht_cfg ht ∧
    pInternalPointer ht' = pInternalPointer ht.
Proof.
  intros [Hm Hg Hn Hmax Hcur Hsz Hmask Hemp He Hstr]. pose proof Hg as (Hnd & Hs & Hhd & Htl).
  pose proof (Forall2_length _ _ _ He) as Hlen.
  pose proof (renumbered_bounds only 0 es) as Hrb.
  assert (Hnext : ∀ ht', nNextFreeElement ht' = renumbered only 0 es → next_ok ht' (renumber only 0 es)).
  { intros ht' Hq. unfold next_ok. rewrite Hq. split; [unfold LONG_MAX; lia|].
    intros i v Hin%renumber_fst_int. left. rewrite s64_id by lia. lia. }
  unfold zend_hash_reindex. rewrite Hn. destruct (Z.eqb_spec (Z.of_nat (length order)) 0) as [H0|Hne].
  { destruct order; [|done]. inversion He; subst. exists w, (set_nNextFreeElement 0 ht).
    split_and!; try done.
    split; try done; [by apply Hemp|by apply Hnext]. }
  rewrite (bind_Done _ _ _ (fuel_of w) w) by done. rewrite Hhd.
  assert (Hlen' : length (arBuckets (memset_arBuckets ht)) = length (arBuckets ht)).
  { rewrite length_memset. destruct Hsz as ((k & Hk & Hsz) & Hmk & Hl).
    pose proof (Z.pow_pos_nonneg 2 k ltac:(lia) ltac:(lia)). lia. }
  destruct (reindex_loop_spec only order es [] w (memset_arBuckets ht) (fuel_of w) 0) as
    (w' & slots & Hrun & Hsl & Hch & Hrk & _ & Hent & Hcl); try done.
  - simpl. apply chains_ok_empty.
  - destruct Hsz as (? & ? & ?). split_and!; try done. rewrite Hlen'. done.
  - unfold fuel_of. apply Nat.lt_le_incl, length_lt_brk; [done|]. intros p Hp. apply Hm. by eapply seg_live.
  - rewrite (bind_Done _ _ _ _ _ Hrun).
    eexists w', _. split; [reflexivity|]. simpl in Hch, Hrk.
    split_and!; try done.
    + intros q. rewrite (rk_live _ _ _ Hrk), (rk_brk _ _ _ Hrk). apply Hm.
    + split; simpl; try done.
      * eapply glob_ok_agree; [apply Hrk|done].
      * destruct Hsz as (? & ? & ?). split_and!; try done. simpl. by rewrite Hsl, Hlen'.
      * by apply renumber_NoDup.
      * by apply Hnext.
Qed.

Lemma evolves_rekeyed w w' order : rekeyed order w w' → evolves w order w' order.
Proof. intros [R1 R2 R3 R4 R5 R6]. split; [intros; by apply R3|rewrite R5; lia|by left]. Qed.

(** ** [zend_hash_sort] *)

Definition entry_of (x : ptr * Bucket V) : key * V := (bkey x.2, data_val (pData x.2)).

Lemma collect_loop_spec w rest es prev fuel :
  seg glob (cells w) prev rest None → Forall2 (entry (cells w)) rest es → (length rest ≤ fuel)%nat →
  ∃ arTmp, collect_loop fuel (head rest) w = Done arTmp w ∧ arTmp.*1 = rest ∧ entry_of <$> arTmp = es ∧
    Forall (λ x, cells w !! x.1 = Some x.2) arTmp.
Proof.
  revert es prev fuel. induction rest as [|p rest IH]; intros es prev fuel Hs He Hf.
  - inversion He; subst. exists []. by destruct fuel.
  - destruct fuel as [|fuel]; simpl in Hf; [lia|]. destruct es as [|[k v] es]; [by inversion He|].
    apply Forall2_cons in He as [(b & Hb & _ & Hk & Hv) He]. destruct Hs as [Hl Hs].
    rewrite Hb in Hl. simpl in Hl. injection Hl as _ Hn. simpl in Hn.
    destruct (IH es (Some p) fuel Hs He) as (arTmp & Hrun & H1 & H2 & H3); [lia|].
    exists ((p, b) :: arTmp). cbn [head collect_loop]. rewrite (bind_Done _ _ _ _ _ (load_Done _ _ _ Hb)).
    rewrite Hn, head_or_None, (bind_Done _ _ _ _ _ Hrun). split; [done|].
    split; [by rewrite fmap_cons, H1|]. split; [|by constructor].
    simpl in Hk, Hv. subst k v. rewrite fmap_cons, H2. done.
Qed.

Lemma relink_loop_spec l last w :
  NoDup l → (∀ p, p ∈ l → is_Some (cells w !! p)) →
  ∃ w', relink_loop last l w = Done tt w' ∧ seg glob (cells w') last l None ∧
    (∀ l', agree (lnk chain) (cells w) (cells w') l') ∧ (∀ l', agree payload (cells w) (cells w') l') ∧
    (∀ q, q ∉ l → cells w' !! q = cells w !! q) ∧
    (∀ q, is_Some (cells w' !! q) ↔ is_Some (cells w !! q)) ∧ brk w' = brk w ∧ trace w' = trace w.
Proof.
  revert last w. induction l as [|p l IH]; intros last w Hnd Hl.
  { exists w. split_and!; try done; intros; apply agree_refl. }
  apply NoDup_cons in Hnd as [Hp Hnd]. cbn [relink_loop].
  erewrite bind_Done by (apply store_Done, Hl; left).
  erewrite bind_Done by (apply store_Done; simpl; rewrite lookup_alter_is_Some; apply Hl; left).
  set (w1 := with_cells (alter (set_pListNext (head l)) p) (with_cells (alter (set_pListLast last) p) w)).
  assert (Hlive : ∀ q, is_Some (cells w1 !! q) ↔ is_Some (cells w !! q)).
  { intros q. simpl. by rewrite !lookup_alter_is_Some. }
  destruct (IH (Some p) w1 Hnd) as (w' & Hrun & Hs & Hc & Hpl & Hfr & Hlv & Hbrk & Htr).
  { intros q Hq. apply Hlive, Hl. by right. }
  exists w'. split; [exact Hrun|]. split_and!; try done.
  - split; [|exact Hs]. rewrite (Hfr p Hp). simpl. rewrite !lookup_alter_eq, head_or_None.
    destruct (Hl p ltac:(left)) as [b ->]. done.
  - intros l'. eapply agree_trans; [|apply Hc]. simpl. solve_agree.
  - intros l'. eapply agree_trans; [|apply Hpl]. simpl. solve_agree.
  - intros q [Hne Hq]%not_elem_of_cons. rewrite (Hfr q Hq). simpl. by rewrite !lookup_alter_ne.
  - intros q. by rewrite Hlv, Hlive.
Qed.

(** The promise of a sort function: it terminates with a permutation, and sorts
    when the comparison is a total preorder. *)
Definition total_preorder {A} (c : A → A → Z) : Prop :=
  (∀ x y, c x y ≤ 0 ∨ c y x ≤ 0) ∧ (∀ x y z, c x y ≤ 0 → c y z ≤ 0 → c x z ≤ 0) ∧
  (∀ x y, 0 < c x y ↔ c y x < 0).

Lemma entries_of w arTmp :
  Forall (λ x, cells w !! x.1 = Some x.2 ∧ key_ok x.1 x.2) arTmp →
  Forall2 (entry (cells w)) arTmp.*1 (entry_of <$> arTmp).
Proof.
  induction 1 as [|[p b] l [Hx Hok] _ IH]; [constructor|]. simpl. constructor; [|done]. by exists b.
Qed.

(** the part of the sort before the renumbering *)
Lemma sort_relink w ht order es arTmp arTmp' :
  tbl w ht order es → order ≠ [] → arTmp.*1 = order → entry_of <$> arTmp = es →
  Forall (λ x, cells w !! x.1 = Some x.2) arTmp → arTmp' ≡ₚ arTmp →
  let ht' := set_pListTail (last arTmp'.*1)
    (set_pInternalPointer (head arTmp'.*1) (set_pListHead (head arTmp'.*1) ht)) in
  ∃ w', relink_loop None arTmp'.*1 w = Done tt w' ∧ tbl w' ht' arTmp'.*1 (entry_of <$> arTmp') ∧
    evolves w order w' arTmp'.*1 ∧ trace w' = trace w.
Proof.
  intros [Hm [(Hnd & Hs & Hhd & Htl) Hn Hmax Hcur Hsz Hinit Hch He Hkeys Hnext] Hc] Hne H1 H2 Hall Hperm ht'.
  assert (Hpo : arTmp'.*1 ≡ₚ order) by (rewrite <-H1; by apply fmap_Permutation).
  assert (Hpe : entry_of <$> arTmp' ≡ₚ es) by (rewrite <-H2; by apply fmap_Permutation).
  assert (Hin : ∀ q, q ∈ arTmp'.*1 ↔ q ∈ order) by (intros q; by rewrite Hpo).
  destruct (relink_loop_spec arTmp'.*1 None w) as (w' & Hrun & Hs' & Hcc & Hpl & Hfr & Hlv & Hbrk & Htr).
  { by rewrite Hpo. } { intros p Hp%Hin. by eapply seg_live. }
  exists w'. split; [done|]. split; [|split; [|done]].
  - split.
    + intros q. rewrite Hlv, Hbrk. apply Hm.
    + split; simpl.
      * split_and!; try done. by rewrite Hpo.
      * by rewrite Hpo.
      * by rewrite Hpo.
      * intros q Hq%head_Some_elem_of. done.
      * done.
      * intros H0. by apply Hinit in H0.
      * eapply chains_ok_ext; [intros q; symmetry; apply Hin|]. by eapply chains_ok_agree.
      * eapply entries_agree; [apply Hpl|]. apply entries_of. rewrite Hperm.
        apply Forall_forall. intros x Hx. rewrite Forall_forall in Hall. split; [by apply Hall|].
        destruct (entries_live _ _ _ He x.1) as (b & Hb & Hok).
        { rewrite <-H1. apply list_elem_of_fmap. by exists x. }
        rewrite (Hall x Hx) in Hb. by injection Hb as ->.
      * by rewrite Hpe.
      * destruct Hnext as [Hr Hlt]. split; [done|]. intros i v. rewrite Hpe. apply Hlt.
    + eapply clean_agree; [apply Hpl|]. intros q b Hq%Hin. by apply Hc.
  - split; [intros q Hq _; apply Hfr; by rewrite Hin|rewrite Hbrk; lia|intros q Hq%Hin; by left].
Qed.

End reindexing.

(** A sort function given as an interface: [zend_qsort] implements it. *)
Class Sorting (sort_func : sort_func_t) : Prop := {
  sort_total A (c : A → A → Z) l :
    Z.of_nat (length l) < 2 ^ 32 → ∃ l', sort_func A c l = Some l' ∧ l' ≡ₚ l;
  sort_sorted A (c : A → A → Z) l l' :
    Z.of_nat (length l) < 2 ^ 32 → total_preorder c → sort_func A c l = Some l' → StronglySorted (λ x y, c x y ≤ 0) l'
}.

Section sorting.
Context {V : Type} (sort_func : sort_func_t) `{!Sorting sort_func}.
Implicit Types (ht : HashTable) (b : Bucket V) (order : list ptr).
Implicit Types (w : mem (Bucket V) (event V)) (es : list (key * V)).

(** the comparison of buckets sees the key and the value *)
Definition compares (compar : Bucket V → Bucket V → Z) (c : key * V → key * V → Z) : Prop :=
  total_preorder c ∧ ∀ x y, compar x.2 y.2 = c (entry_of x) (entry_of y).

Lemma sort_collected w ht order es compar c :
  tbl w ht order es → compares compar c → 
  ∃ arTmp arTmp', collect_loop (fuel_of w) (pListHead ht) w = Done arTmp w ∧
    sort_func _ (λ x y, compar x.2 y.2) arTmp = Some arTmp' ∧ arTmp' ≡ₚ arTmp ∧
    arTmp.*1 = order ∧ entry_of <$> arTmp = es ∧ Forall (λ x, cells w !! x.1 = Some x.2) arTmp ∧
    StronglySorted (λ x y, c x y ≤ 0) (entry_of <$> arTmp').
Proof using Type*.
  intros Ht [(Hc1 & Hc2 & Hc3) Hcc]. destruct (tbl_facts _ _ _ _ Ht) as (_ & _ & _ & -> & _ & Hf & _).
  destruct Ht as [_ [(Hnd & Hs & _) _ Hmax _ _ _ _ He _ _] _].
  destruct (collect_loop_spec w order es None (fuel_of w) Hs He ltac:(lia)) as (arTmp & Hrun & H1 & H2 & H3).
  assert (Hla : Z.of_nat (length arTmp) < 2 ^ 32) by (rewrite <-H1, length_fmap in Hmax; done).
  destruct (sort_total _ (λ x y : ptr * Bucket V, compar x.2 y.2) arTmp Hla) as (arTmp' & Hsort & Hp).
  exists arTmp, arTmp'. split_and!; try done.
  assert (Hss : StronglySorted (λ x y : ptr * Bucket V, compar x.2 y.2 ≤ 0) arTmp').
  { eapply sort_sorted; [exact Hla| |exact Hsort]. unfold total_preorder. split_and!; intros *; rewrite !Hcc; [apply Hc1|apply Hc2|apply Hc3]. }
  clear -Hss Hcc. induction Hss as [|x l _ IH Hx]; [constructor|]. simpl. constructor; [done|].
  apply Forall_fmap. eapply Forall_impl; [exact Hx|]. intros y. simpl. by rewrite Hcc.
Qed.

Lemma sort_spec w ht order es compar c (renum : bool) :
  tbl w ht order es → compares compar c → (if renum then order ≠ [] else 2 ≤ length order)%nat →
  ∃ w' ht' order' es', zend_hash_sort ht sort_func compar renum w = Done ht' w' ∧
    es' ≡ₚ es ∧ order' ≡ₚ order ∧ StronglySorted (λ x y, c x y ≤ 0) es' ∧
    mem_ok w' ∧ repr (cells w') ht' order' (if renum then renumber false 0 es' else es') ∧
    (renum = false → clean (cells w') order') ∧ evolves w order w' order' ∧ trace w' = trace w ∧
    pInternalPointer ht' = head order' ∧ ht_cfg ht' = ht_cfg ht ∧
    nNextFreeElement ht' = if renum then renumbered false 0 es' else nNextFreeElement ht.
Proof using Type*.
  intros Ht Hc Hlen. destruct (sort_collected w ht order es compar c Ht Hc)
    as (arTmp & arTmp' & Hrun & Hsort & Hp & H1 & H2 & H3 & Hss).
  assert (Hne : order ≠ []) by (destruct renum; [done|]; intros ->; simpl in Hlen; lia).
  unfold zend_hash_sort. pose proof (r_num _ _ _ _ (t_repr _ _ _ _ Ht)) as Hn.
  assert (negb (nNumOfElements ht >? 1) && negb (renum && (nNumOfElements ht >? 0)) = false) as ->.
  { rewrite Hn. destruct renum; simpl.
    - destruct (Z.gtb_spec (Z.of_nat (length order)) 0); [by rewrite andb_false_r|]. destruct order; [done|simpl in *; lia].
    - destruct (Z.gtb_spec (Z.of_nat (length order)) 1); [done|]. simpl in Hlen. lia. }
  rewrite (bind_Done _ _ _ (fuel_of w) w) by done. rewrite (bind_Done _ _ _ _ _ Hrun), Hsort.
  erewrite bind_Done by reflexivity. cbv zeta.
  destruct (sort_relink w ht order es arTmp arTmp' Ht Hne H1 H2 H3 Hp) as (w1 & Hrun1 & Ht1 & Hev & Htr).
  rewrite (bind_Done _ _ _ _ _ Hrun1). set (ht1 := set_pListTail _ _) in *.
  assert (Hpo : arTmp'.*1 ≡ₚ order) by (rewrite <-H1; by apply fmap_Permutation).
  assert (Hpe : entry_of <$> arTmp' ≡ₚ es) by (rewrite <-H2; by apply fmap_Permutation).
  destruct renum.
  - pose proof Ht1 as [Hm' [Hg' Hn' Hmax' Hcur' Hsz' Hinit' Hch' He' Hk' Hx'] Hc'].
    destruct (reindex_spec false w1 ht1 arTmp'.*1 (entry_of <$> arTmp'))
      as (w' & ht' & Hrun' & Hm2 & Hr2 & Hrk & _ & Hn2 & Hcfg & Hcur2).
    { split; try done.
      - intros H0. apply Hinit' in H0. rewrite H0 in Hpo. by apply Permutation_nil in Hpo.
      - intros H0. rewrite H0 in Hpo. by apply Permutation_nil in Hpo.
      - unfold str_keys. by apply NoDup_filter. }
    exists w', ht', arTmp'.*1, (entry_of <$> arTmp'). split_and!; try done.
    + eapply evolves_trans; [apply Ht|exact Hev|by apply evolves_rekeyed].
    + by rewrite (rk_trace _ _ _ Hrk).
  - exists w1, ht1, arTmp'.*1, (entry_of <$> arTmp'). destruct Ht1. by split_and!.
Qed.

End sorting.
