(* ===== verification/HashWalk.v ===== *)
(** * Traversal of hash tables: positions, saved pointers, comparison

    A position is an index into the contents: the bucket at [order !! i] holds
    [es !! i]. *)

From S2P Require Import Prelude DList HashModel HashRepr HashFacts HashInsert HashOps HashLoops.
Local Open Scope Z_scope.
Local Open Scope effect_scope.

(** The loop of the callers of the traversal functions:
    [for (zend_hash_internal_pointer_reset_ex(ht, &pos);
          zend_hash_get_current_data_ex(ht, &data, &pos) == SUCCESS;
          zend_hash_move_forward_ex(ht, &pos)) { ... }]
    It collects the keys and the data it sees. *)
Definition current_entry {V} (ht : HashTable) (pos : option (option ptr)) : HM V (option (key * V)) :=
  let! d := zend_hash_get_current_data_ex ht pos in
  match d with
  | None => ret None
  | Some p =>
      let! b := load p in
      let! k := zend_hash_get_current_key_ex ht false pos in
      match k with
      | KeyIsString s len => let! s := of_option (read_bytes s len) in ret (Some (KStr s, data_val (pData b)))
      | KeyIsLong i => ret (Some (KInt i, data_val (pData b)))
      | _ => stuck
      end
  end.

Fixpoint walk {V} (fuel : nat) (forward : bool) (ht : HashTable) (pos : option (option ptr)) : HM V (list (key * V)) :=
  let! e := current_entry ht pos in
  match e, fuel with
  | None, _ => ret []
  | _, O => stuck
  | Some e, S fuel' =>
      let! '(ht, pos, _) :=
        (if forward then zend_hash_move_forward_ex ht pos else zend_hash_move_backwards_ex ht pos) in
      let! es := walk fuel' forward ht pos in
      ret (e :: es)
  end.

Section walking.
Context {V : Type}.
Implicit Types (ht : HashTable) (b : Bucket V) (p q : ptr) (order : list ptr).
Implicit Types (h : gmap ptr (Bucket V)) (w : mem (Bucket V) (event V)) (es : list (key * V)).

(** the bucket of the [i]-th element *)
Lemma tbl_nth w ht order es i p :
  tbl w ht order es → order !! i = Some p →
  ∃ b k v, cells w !! p = Some b ∧ key_ok p b ∧ bkey b = k ∧ data_val (pData b) = v ∧ es !! i = Some (k, v) ∧
    pListNext b = order !! S i ∧ pListLast b = match i with O => None | S j => order !! j end.
Proof.
  intros [Hm [(Hnd & Hs & _) _ _ _ _ _ _ He _ _] Hc] Hi.
  destruct (Forall2_lookup_l _ _ _ _ _ He Hi) as ([k v] & Hv & b & Hb & Hok & Hk & Hd).
  exists b, k, v. pose proof (seg_lookup _ _ _ _ _ Hs Hi) as Hl. rewrite Hb in Hl. simpl in Hl.
  injection Hl as H1 H2. done.
Qed.

Lemma current_entry_run w ht order es pos i :
  tbl w ht order es → pos_get ht pos = order !! i → current_entry ht pos w = Done (es !! i) w.
Proof.
  intros Ht Hp. unfold current_entry, zend_hash_get_current_data_ex, zend_hash_get_current_key_ex. rewrite Hp.
  destruct (order !! i) as [p|] eqn:Hi.
  - destruct (tbl_nth _ _ _ _ _ _ Ht Hi) as (b & k & v & Hb & Hok & Hk & Hv & He & _).
    pose proof (load_Done p w b Hb) as Hld.
    rewrite bind_assoc, (bind_Done _ _ _ _ _ Hld). erewrite bind_Done by reflexivity.
    cbn match. rewrite (bind_Done _ _ _ _ _ Hld), bind_assoc, (bind_Done _ _ _ _ _ Hld), He. subst k v. unfold bkey.
    destruct Hok as [_ [Hz|(s & Hne & Hl & _ & Hk)]].
    + rewrite Hz. done.
    + destruct (Z.eqb_spec (nKeyLength b) 0) as [H0|H0]; [destruct s; [done|simpl in Hl; lia]|].
      assert (kbytes (arKey b) = Some s) as Hs by (by destruct Hk as [-> | ->]).
      erewrite bind_Done by reflexivity. rewrite Hl, (read_bytes_full _ _ Hs), Hs. done.
  - erewrite bind_Done by reflexivity. symmetry. f_equal. apply lookup_ge_None in Hi. apply lookup_ge_None.
    destruct (tbl_facts _ _ _ _ Ht) as (_ & _ & <- & _). done.
Qed.

(** moving a position, external ([Some _]) or the table's own ([None]) *)
Lemma move_run (forward : bool) w ht order es pos i p :
  tbl w ht order es → pos_get ht pos = Some p → order !! i = Some p →
  (if forward then zend_hash_move_forward_ex ht pos else zend_hash_move_backwards_ex ht pos) w =
    Done (pos_set ht pos (if forward then order !! S i else match i with O => None | S j => order !! j end), SUCCESS) w.
Proof.
  intros Ht Hp Hi. destruct (tbl_nth _ _ _ _ _ _ Ht Hi) as (b & k & v & Hb & _ & _ & _ & _ & Hn & Hl).
  destruct forward; unfold zend_hash_move_forward_ex, zend_hash_move_backwards_ex;
    rewrite Hp, (bind_Done _ _ _ _ _ (load_Done _ _ _ Hb)), ?Hn, ?Hl; done.
Qed.

Lemma walk_forward w ht order es c fuel i :
  tbl w ht order es → c = order !! i → (length es - i ≤ fuel)%nat →
  walk fuel true ht (Some c) w = Done (drop i es) w.
Proof.
  intros Ht -> Hf. destruct (tbl_facts _ _ _ _ Ht) as (_ & _ & Hl & _).
  revert i Hf. induction fuel as [|fuel IH]; intros i Hf; cbn [walk];
    rewrite (bind_Done _ _ _ _ _ (current_entry_run w ht order es (Some (order !! i)) i Ht eq_refl)).
  - destruct (es !! i) as [e|] eqn:He; [apply lookup_lt_Some in He; lia|].
    rewrite drop_ge; [done|]. by apply lookup_ge_None.
  - destruct (es !! i) as [e|] eqn:He.
    + destruct (lookup_lt_is_Some_2 order i) as [p Hp]; [apply lookup_lt_Some in He; lia|].
      rewrite Hp. rewrite (bind_Done _ _ _ _ _ (move_run true w ht order es (Some (Some p)) i p Ht eq_refl Hp)). simpl.
      rewrite (bind_Done _ _ _ _ _ (IH (S i) ltac:(lia))). by rewrite (drop_S _ _ _ He).
    + rewrite drop_ge; [done|]. by apply lookup_ge_None.
Qed.

Lemma walk_backward w ht order es fuel i :
  tbl w ht order es → (i ≤ length es)%nat → (i ≤ fuel)%nat →
  walk fuel false ht (Some (match i with O => None | S j => order !! j end)) w = Done (reverse (take i es)) w.
Proof.
  intros Ht Hi Hf. destruct (tbl_facts _ _ _ _ Ht) as (_ & _ & Hl & _).
  revert i Hi Hf. induction fuel as [|fuel IH]; intros i Hi Hf.
  - assert (i = 0)%nat as -> by lia. done.
  - destruct i as [|i]; [done|]. cbn [walk].
    rewrite (bind_Done _ _ _ _ _ (current_entry_run w ht order es (Some (order !! i)) i Ht eq_refl)).
    destruct (lookup_lt_is_Some_2 es i) as [e He]; [lia|]. destruct (lookup_lt_is_Some_2 order i) as [p Hp]; [lia|].
    rewrite He, Hp. rewrite (bind_Done _ _ _ _ _ (move_run false w ht order es (Some (Some p)) i p Ht eq_refl Hp)). simpl.
    rewrite (bind_Done _ _ _ _ _ (IH i ltac:(lia) ltac:(lia))). by rewrite (take_S_r _ _ _ He), reverse_snoc.
Qed.

(** ** Saved pointers *)

Lemma set_pointer_loop_spec w ht pos ch prev fuel :
  seg chain (cells w) prev ch None → (length ch ≤ fuel)%nat →
  set_pointer_loop fuel pos ht (head ch) w =
    Done (if bool_decide (pos ∈ ch) then (set_pInternalPointer (Some pos) ht, 1) else (ht, 0)) w.
Proof.
  revert prev fuel. induction ch as [|p ch IH]; intros prev fuel Hs Hf; [by destruct fuel|].
  destruct fuel as [|fuel]; simpl in Hf; [lia|]. cbn [head set_pointer_loop]. destruct Hs as [Hp Hs].
  destruct (decide (p = pos)) as [->|Hd].
  - rewrite bool_decide_eq_true_2 by left. done.
  - destruct (cells w !! p) as [b|] eqn:Hb; [|done]. simpl in Hp. injection Hp as _ Hn. simpl in Hn.
    rewrite (bind_Done _ _ _ _ _ (load_Done _ _ _ Hb)), Hn, head_or_None.
    rewrite (IH _ _ Hs) by lia. f_equal. rewrite (bool_decide_ext (pos ∈ p :: ch) (pos ∈ ch)); [done|].
    rewrite elem_of_cons. split; [intros [?|?]; [congruence|done]|by right].
Qed.

Lemma set_pointer_spec w ht order es pos hh :
  tbl w ht order es → 0 ≤ hh → (∀ b, pos ∈ order → cells w !! pos = Some b → b_h b = hh) →
  zend_hash_set_pointer ht (MkHashPointer (Some pos) hh) w =
    Done (if bool_decide (pos ∈ order) then (set_pInternalPointer (Some pos) ht, 1) else (ht, 0)) w.
Proof.
  intros Ht Hh Hb. pose proof Ht as [Hm [(Hnd & Hs & _) _ _ Hcur Hsz _ Hch He _ _] _].
  unfold zend_hash_set_pointer. simpl. destruct (decide (pInternalPointer ht = Some pos)) as [Hd|Hd].
  { rewrite bool_decide_eq_true_2 by (by apply Hcur). by destruct ht; simpl in *; subst. }
  destruct (size_ok_slot ht hh Hsz Hh) as (hd & Hland & Hhd).
  rewrite (bind_Done _ _ _ _ _ (rd_slot_Done _ _ _ _ Hhd)). rewrite (bind_Done _ _ _ (fuel_of w) w) by done.
  destruct Hch as (chains & Heq & Hch). rewrite Heq in Hhd.
  apply list_lookup_fmap_Some in Hhd as (ch & -> & Hci). destruct (Hch _ _ Hci) as (Hn & Hsc & Hmem).
  rewrite (set_pointer_loop_spec _ _ _ _ _ _ Hsc).
  - f_equal. rewrite (bool_decide_ext (pos ∈ ch) (pos ∈ order)); [done|]. rewrite Hmem. split; [by intros []|].
    intros Hp. split; [done|]. destruct (entries_live _ _ _ He pos Hp) as (b & Hpb & _).
    exists b. split; [done|]. rewrite (Hb b Hp Hpb). lia.
  - unfold fuel_of. apply Nat.lt_le_incl, length_lt_brk; [done|]. intros q [Hq _]%Hmem.
    apply Hm. by apply (seg_live _ _ _ _ _ _ Hs).
Qed.

End walking.
