(* ===== verification/HashNumeric.v ===== *)
(** * Numeric string keys

    [ZEND_HANDLE_NUMERIC] recognises exactly the decimal representations of the
    values of [long], as [print_long] writes them. *)

From S2P Require Import Prelude HashModel.
Local Open Scope Z_scope.

(** ** Decimal representation *)

Definition digit (d : Z) : Byte.byte := default Byte.x00 (Byte.of_N (Z.to_N (48 + d))).

(** the digits of [n], for [n < 10 ^ S fuel] *)
Fixpoint print_nat (fuel : nat) (n : Z) : bytes :=
  match fuel with
  | O => [digit n]
  | S fuel' => if n <? 10 then [digit n] else print_nat fuel' (n / 10) ++ [digit (n mod 10)]
  end.

Definition print_long (n : Z) : bytes :=
  if n <? 0 then Byte.x2d :: print_nat 19 (- n) else print_nat 19 n.

(** the value of a string of digits, from [idx] *)
Definition value (idx : Z) (ds : bytes) : Z := foldl (λ i c, i * 10 + (schar c - 48)) idx ds.
Definition all_digits (ds : bytes) : bool := forallb (λ c, is_digit (schar c)) ds.
Definition no_leading_zero (ds : bytes) : Prop :=
  match ds with [] => False | c :: ds' => schar c = 48 → ds' = [] end.

(** ** Digits *)

Lemma digit_cases d : 0 ≤ d < 10 → d ∈ [0; 1; 2; 3; 4; 5; 6; 7; 8; 9].
Proof.
  intros. assert (d = 0 ∨ d = 1 ∨ d = 2 ∨ d = 3 ∨ d = 4 ∨ d = 5 ∨ d = 6 ∨ d = 7 ∨ d = 8 ∨ d = 9) as Hd by lia.
  rewrite !elem_of_cons, elem_of_nil. tauto.
Qed.

Lemma schar_digit d : 0 ≤ d < 10 → schar (digit d) = 48 + d.
Proof.
  intros Hd%digit_cases. rewrite !elem_of_cons, elem_of_nil in Hd.
  by repeat (destruct Hd as [->|Hd]; [reflexivity|]).
Qed.

Lemma digit_schar c : is_digit (schar c) = true → digit (schar c - 48) = c ∧ 0 ≤ schar c - 48 < 10.
Proof.
  intros Hc. assert (Hr : 0 ≤ schar c - 48 < 10) by (unfold is_digit in Hc; lia). split; [|done].
  clear Hr. destruct c; try discriminate Hc; reflexivity.
Qed.

Lemma is_digit_digit d : 0 ≤ d < 10 → is_digit (schar (digit d)) = true.
Proof. intros Hd. rewrite schar_digit by done. unfold is_digit. lia. Qed.

Lemma value_app idx ds1 ds2 : value idx (ds1 ++ ds2) = value (value idx ds1) ds2.
Proof. apply foldl_app. Qed.

Lemma value_bounds ds idx :
  all_digits ds = true → 0 ≤ idx →
  idx * 10 ^ Z.of_nat (length ds) ≤ value idx ds < (idx + 1) * 10 ^ Z.of_nat (length ds).
Proof.
  revert idx. induction ds as [|c ds IH]; intros idx; simpl; [lia|].
  intros [Hc Hds]%andb_true_iff Hidx. destruct (digit_schar c Hc) as [_ Hr].
  specialize (IH (idx * 10 + (schar c - 48)) Hds ltac:(lia)).
  rewrite Nat2Z.inj_succ, Z.pow_succ_r by lia.
  pose proof (Z.pow_pos_nonneg 10 (Z.of_nat (length ds)) ltac:(lia) ltac:(lia)). 
  change (value idx (c :: ds)) with (value (idx * 10 + (schar c - 48)) ds). nia.
Qed.

(** ** Printing *)

Lemma print_nat_spec fuel n :
  0 ≤ n < 10 ^ Z.of_nat (S fuel) →
  value 0 (print_nat fuel n) = n ∧ all_digits (print_nat fuel n) = true ∧ no_leading_zero (print_nat fuel n) ∧
  (0 < n → ∃ c ds, print_nat fuel n = c :: ds ∧ schar c ≠ 48).
Proof.
  revert n. assert (Hone : ∀ n, 0 ≤ n < 10 → value 0 [digit n] = n ∧ all_digits [digit n] = true ∧
      no_leading_zero [digit n] ∧ (0 < n → ∃ c ds, [digit n] = c :: ds ∧ schar c ≠ 48)).
  { intros n Hn. simpl. rewrite is_digit_digit, schar_digit by done. split_and!; try done; [lia|].
    intros. exists (digit n), []. rewrite schar_digit by done. split; [done|lia]. }
  induction fuel as [|fuel IH]; intros n Hn; [by apply Hone|].
  cbn [print_nat]. destruct (Z.ltb_spec n 10) as [Hl|Hl]; [apply Hone; lia|].
  rewrite Nat2Z.inj_succ, Z.pow_succ_r in Hn by lia.
  assert (Hd : 1 ≤ n / 10) by (apply Z.div_le_lower_bound; lia).
  destruct (IH (n / 10)) as (H1 & H2 & H3 & H4); [split; [lia|apply Z.div_lt_upper_bound; lia]|].
  pose proof (Z.mod_pos_bound n 10 ltac:(lia)) as Hm.
  destruct H4 as (c & ds & Hp & Hc); [lia|]. split_and!.
  - rewrite value_app, H1. simpl. rewrite schar_digit by done. pose proof (Z.div_mod n 10). lia.
  - unfold all_digits in *. rewrite forallb_app, H2. simpl. by rewrite is_digit_digit.
  - rewrite Hp. simpl. done.
  - intros _. rewrite Hp. simpl. eauto.
Qed.

Lemma no_leading_zero_value ds :
  all_digits ds = true → no_leading_zero ds → (∃ c ds', ds = c :: ds' ∧ schar c ≠ 48) → 0 < value 0 ds.
Proof.
  intros Hd _ (c & ds' & -> & Hc). simpl in Hd. apply andb_true_iff in Hd as [Hdc Hd].
  destruct (digit_schar c Hdc) as [_ Hr].
  pose proof (value_bounds ds' (schar c - 48) Hd ltac:(lia)) as [Hb _].
  change (value 0 (c :: ds')) with (value (schar c - 48) ds').
  pose proof (Z.pow_pos_nonneg 10 (Z.of_nat (length ds')) ltac:(lia) ltac:(lia)). nia.
Qed.

(** A canonical string of digits is what is printed for its value. *)
Lemma print_nat_value fuel ds :
  all_digits ds = true → no_leading_zero ds → (length ds ≤ S fuel)%nat → print_nat fuel (value 0 ds) = ds.
Proof.
  revert fuel. induction ds as [|c ds IH] using rev_ind; intros fuel Hd Hz Hl; [done|].
  unfold all_digits in Hd. rewrite forallb_app in Hd. apply andb_true_iff in Hd as [Hds Hc]. simpl in Hc.
  rewrite andb_true_r in Hc. destruct (digit_schar c Hc) as [Hdc Hr]. rewrite length_app in Hl. simpl in Hl.
  destruct ds as [|c0 ds].
  { change (value 0 ([] ++ [c])) with (schar c - 48). cbn [app].
    destruct fuel; cbn [print_nat]; [by rewrite Hdc|]. destruct (Z.ltb_spec (schar c - 48) 10); [by rewrite Hdc|lia]. }
  assert (Hc0 : schar c0 ≠ 48).
  { intros H. simpl in Hz. apply Hz in H. by apply app_eq_nil in H as [_ ?]. }
  assert (Hzz : no_leading_zero (c0 :: ds)) by (by intros ?).
  assert (0 < value 0 (c0 :: ds)) as Hpos by (apply no_leading_zero_value; eauto).
  rewrite value_app. change (value ?x [c]) with (x * 10 + (schar c - 48)).
  destruct fuel as [|fuel]; [simpl in Hl; lia|]. cbn [print_nat].
  destruct (Z.ltb_spec (value 0 (c0 :: ds) * 10 + (schar c - 48)) 10) as [Hlt|Hge]; [lia|].
  assert ((value 0 (c0 :: ds) * 10 + (schar c - 48)) / 10 = value 0 (c0 :: ds)) as ->.
  { symmetry. apply (Z.div_unique_pos _ _ _ (schar c - 48)); lia. }
  assert ((value 0 (c0 :: ds) * 10 + (schar c - 48)) mod 10 = schar c - 48) as ->.
  { symmetry. apply (Z.mod_unique_pos _ _ (value 0 (c0 :: ds))); lia. }
  rewrite Hdc, IH; [done|done|done|simpl in *; lia].
Qed.

(** ** The loop of the macro *)

Lemma char_at_app pre c suf : char_at (pre ++ c :: suf) (Z.of_nat (length pre)) = Some (schar c).
Proof.
  unfold char_at. destruct (Z.ltb_spec (Z.of_nat (length pre)) 0); [lia|]. rewrite Nat2Z.id.
  by rewrite list_lookup_middle.
Qed.

Definition idx_step (i : Z) (c : Byte.byte) : Z := u64 (u64 (i * 10) + (schar c - 48)).

Lemma numeric_loop_spec fuel rest pre idx :
  (length rest < fuel)%nat →
  ∃ r, numeric_loop fuel (pre ++ rest ++ [Byte.x00]) (Z.of_nat (length pre) - 1)
         (Z.of_nat (length pre + length rest)) idx = Some r ∧
    if all_digits rest then r = (Z.of_nat (length pre + length rest), foldl idx_step idx rest)
    else r.1 ≠ Z.of_nat (length pre + length rest).
Proof.
  revert rest pre idx. induction fuel as [|fuel IH]; intros rest pre idx Hf; [lia|].
  cbn [numeric_loop]. rewrite Z.sub_add. destruct rest as [|c rest].
  - rewrite Nat.add_0_r, Z.eqb_refl. eexists. split; [done|]. done.
  - destruct (Z.eqb_spec (Z.of_nat (length pre)) (Z.of_nat (length pre + length (c :: rest)))) as [He|_].
    { simpl in He. lia. }
    simpl app. rewrite char_at_app. simpl all_digits. destruct (is_digit (schar c)); simpl.
    + destruct (IH rest (pre ++ [c]) (idx_step idx c)) as (r & Hr & Hspec); [simpl in Hf; lia|].
      rewrite <-app_assoc, length_app in Hr. simpl in Hr.
      replace (Z.of_nat (length pre + 1) - 1) with (Z.of_nat (length pre)) in Hr by lia.
      rewrite length_app in Hspec. simpl in Hspec.
      replace (length pre + 1 + length rest)%nat with (length pre + S (length rest))%nat in * by lia.
      exists r. split; [exact Hr|exact Hspec].
    + eexists. split; [done|]. simpl. lia.
Qed.

Lemma idx_step_value ds idx :
  all_digits ds = true → 0 ≤ idx → (idx + 1) * 10 ^ Z.of_nat (length ds) ≤ 2 ^ 64 →
  foldl idx_step idx ds = value idx ds.
Proof.
  revert idx. induction ds as [|c ds IH]; intros idx; simpl; [done|].
  intros [Hc Hds]%andb_true_iff Hidx Hb. destruct (digit_schar c Hc) as [_ Hr].
  rewrite Nat2Z.inj_succ, Z.pow_succ_r in Hb by lia.
  pose proof (Z.pow_pos_nonneg 10 (Z.of_nat (length ds)) ltac:(lia) ltac:(lia)).
  assert (idx * 10 + 9 < 2 ^ 64) by nia.
  assert (idx_step idx c = idx * 10 + (schar c - 48)) as ->.
  { unfold idx_step, u64. rewrite (Z.mod_small (idx * 10)) by lia. rewrite Z.mod_small; lia. }
  rewrite IH; [done|done|lia|nia].
Qed.

(** ** The macro *)

(** the macro on a key [sg ++ ds], [sg] being the optional minus sign *)
Definition numeric_spec (neg : bool) (ds : bytes) : option Z :=
  match ds with
  | c :: ds' =>
      if all_digits ds && negb ((schar c =? 48) && (1 <? Z.of_nat (length ds) + Z.b2z neg)) &&
         (Z.of_nat (length ds) <=? 19) then
        if neg then (if value 0 ds - 1 >? LONG_MAX then None else Some (u64 (- value 0 ds)))
        else if value 0 ds >? LONG_MAX then None else Some (value 0 ds)
      else None
  | [] => None
  end.

Lemma value_lt_19 c ds :
  all_digits (c :: ds) = true → (length (c :: ds) ≤ 19)%nat →
  foldl idx_step (schar c - 48) ds = value 0 (c :: ds) ∧ 0 ≤ value 0 (c :: ds) < 10 ^ 19.
Proof.
  intros Hd Hl. pose proof (value_bounds (c :: ds) 0 Hd ltac:(lia)) as Hb.
  simpl in Hd. apply andb_true_iff in Hd as [Hc Hd]. destruct (digit_schar c Hc) as [_ Hr].
  simpl length in *.
  pose proof (Z.pow_le_mono_r 10 (Z.of_nat (S (length ds))) 19 ltac:(lia) ltac:(lia)).
  split; [|lia]. rewrite idx_step_value; [done|done|lia|].
  pose proof (Z.pow_le_mono_r 10 (Z.of_nat (length ds)) 18 ltac:(lia) ltac:(lia)).
  assert (10 ^ 18 * 10 = 10 ^ 19) by done. assert (10 ^ 19 ≤ 2 ^ 64) by done. nia.
Qed.

Lemma handle_numeric_run neg ds :
  (neg = false → match ds with c :: _ => c ≠ Byte.x2d | [] => True end) →
  let t := (if neg then [Byte.x2d] else []) ++ ds in
  ZEND_HANDLE_NUMERIC_EX (t ++ [Byte.x00]) (Z.of_nat (length t + 1)) = Some (numeric_spec neg ds).
Proof.
  intros Hneg t. set (sg := if neg then [Byte.x2d] else []).
  assert (Hsg : t ++ [Byte.x00] = sg ++ ds ++ [Byte.x00]) by (unfold t; by rewrite <-app_assoc).
  assert (Hlen : Z.of_nat (length t + 1) = Z.of_nat (length sg + length ds) + 1) by (unfold t, sg; rewrite length_app; lia).
  rewrite Hsg, Hlen. clear t Hsg Hlen. unfold ZEND_HANDLE_NUMERIC_EX.
  assert (∃ c0, char_at (sg ++ ds ++ [Byte.x00]) 0 = Some c0 ∧ (c0 =? 45) = neg) as (c0 & -> & ->).
  { unfold sg. destruct neg; [by exists 45|]. destruct ds as [|c ds]; [by exists 0|].
    exists (schar c). split; [done|]. specialize (Hneg eq_refl). destruct c; try done. }
  assert ((if neg then 1 else 0) = Z.of_nat (length sg)) as Hsl by (unfold sg; by destruct neg). rewrite Hsl.
  destruct ds as [|c ds].
  { simpl app. rewrite char_at_app. done. }
  simpl app. rewrite char_at_app. destruct (is_digit (schar c)) eqn:Hc.
  2: { unfold numeric_spec. simpl. by rewrite Hc. }
  cbv zeta. rewrite Z.add_simpl_r.
  assert (char_at (sg ++ c :: ds ++ [Byte.x00]) (Z.of_nat (length sg + length (c :: ds))) = Some 0) as ->.
  { rewrite <-length_app, app_comm_cons, app_assoc. by rewrite char_at_app. }
  cbn [negb orb].
  assert ((Z.of_nat (length sg + length (c :: ds)) + 1 >? 2) = (1 <? Z.of_nat (length (c :: ds)) + Z.b2z neg)) as ->.
  { apply eq_true_iff_eq. rewrite Z.gtb_lt, Z.ltb_lt. destruct neg; unfold sg; cbn [length Z.b2z]; lia. }
  assert ((Z.of_nat (length sg + length (c :: ds)) - Z.of_nat (length sg) >? MAX_LENGTH_OF_LONG - 1) =
    negb (Z.of_nat (length (c :: ds)) <=? 19)) as ->.
  { unfold MAX_LENGTH_OF_LONG. apply eq_true_iff_eq. rewrite Z.gtb_lt, negb_true_iff, Z.leb_gt. lia. }
  unfold numeric_spec.
  destruct ((schar c =? 48) && (1 <? Z.of_nat (length (c :: ds)) + Z.b2z neg)) eqn:Hlz; cbn [negb orb];
    [by rewrite andb_false_r|].
  destruct (Z.leb_spec (Z.of_nat (length (c :: ds))) 19) as [Hl|Hl]; cbn [negb orb]; [|by rewrite andb_false_r].
  rewrite !andb_true_r.
  destruct (numeric_loop_spec (Z.to_nat (Z.of_nat (length sg + length (c :: ds)) + 1)) ds (sg ++ [c]) (schar c - 48))
    as ([tmp idx] & Hrun & Hspec); [simpl length; lia|].
  rewrite <-app_assoc, length_app in Hrun. cbn [app] in Hrun. rewrite length_app in Hspec.
  change (length [c]) with 1%nat in Hrun, Hspec.
  replace (Z.of_nat (length sg + 1) - 1) with (Z.of_nat (length sg)) in Hrun by lia.
  replace (length sg + 1 + length ds)%nat with (length sg + length (c :: ds))%nat in Hrun, Hspec by (simpl; lia).
  rewrite Hrun. assert (all_digits (c :: ds) = all_digits ds) as -> by (simpl; by rewrite Hc).
  cbn match. destruct (all_digits ds) eqn:Hd; cbn [andb].
  - injection Hspec as -> ->. cbn [length]. rewrite !Z.eqb_refl. cbn [negb orb].
    destruct (value_lt_19 c ds) as [-> Hv]; [simpl; by rewrite Hc|lia|]. assert (10 ^ 19 < 2 ^ 64) by done.
    destruct neg; [|by destruct (value 0 (c :: ds) >? LONG_MAX)].
    assert (u64 (value 0 (c :: ds) - 1) >? LONG_MAX = (value 0 (c :: ds) - 1 >? LONG_MAX)) as ->.
    { assert (0 < value 0 (c :: ds)); [|unfold u64; rewrite Z.mod_small; lia].
      assert (schar c ≠ 48) as Hc0.
      { intros H0. apply andb_false_iff in Hlz as [Hlz%Z.eqb_neq|Hlz%Z.ltb_ge]; [done|cbn [length Z.b2z] in Hlz; lia]. }
      apply no_leading_zero_value; [simpl; by rewrite Hc|by intros ?|eauto]. }
    by destruct (_ >? LONG_MAX).
  - simpl in Hspec. destruct (Z.eqb_spec tmp (Z.of_nat (length sg + length (c :: ds)))); [done|]. done.
Qed.

(** ** What is accepted *)

Lemma print_nat_length fuel k n :
  0 ≤ n < 10 ^ Z.of_nat (S k) → (k ≤ fuel)%nat → (1 ≤ length (print_nat fuel n) ≤ S k)%nat.
Proof.
  revert k n. induction fuel as [|fuel IH]; intros k n Hn Hk; cbn [print_nat]; [simpl; lia|].
  destruct (Z.ltb_spec n 10); [simpl; lia|]. rewrite length_app. simpl length.
  destruct k as [|k]; [simpl in Hn; lia|]. rewrite Nat2Z.inj_succ, Z.pow_succ_r in Hn by lia.
  destruct (IH k (n / 10)); [split; [apply Z.div_pos; lia|apply Z.div_lt_upper_bound; lia]|lia|]. lia.
Qed.

(** the strings that are printed for the numbers below [10 ^ 19] *)
Lemma canonical_iff ds n :
  0 ≤ n < 10 ^ 19 →
  ds = print_nat 19 n ↔ all_digits ds = true ∧ no_leading_zero ds ∧ (length ds ≤ 19)%nat ∧ value 0 ds = n.
Proof.
  intros Hn. split.
  - intros ->. destruct (print_nat_spec 19 n) as (H1 & H2 & H3 & _); [split; [lia|]; etrans; [apply Hn|done]|].
    split_and!; try done. apply (print_nat_length 19 18); [exact Hn|lia].
  - intros (H1 & H2 & H3 & <-). symmetry. apply print_nat_value; [done|done|lia].
Qed.

Lemma no_leading_zero_test (neg : bool) c ds :
  (schar c =? 48) && (1 <? Z.of_nat (length (c :: ds)) + Z.b2z neg) = false ↔
  no_leading_zero (c :: ds) ∧ (neg = true → schar c ≠ 48).
Proof.
  rewrite andb_false_iff, Z.eqb_neq, Z.ltb_ge. simpl no_leading_zero. cbn [length]. split.
  - intros [H|H]; [by split|]. destruct neg; cbn [Z.b2z] in H; [lia|]. split; [|done].
    intros _. destruct ds; [done|]. cbn [length] in H. lia.
  - intros [H1 H2]. destruct (decide (schar c = 48)) as [He|]; [|by left]. right.
    rewrite (H1 He). destruct neg; [by destruct (H2 eq_refl)|]. simpl. lia.
Qed.

Lemma numeric_spec_iff (neg : bool) ds i :
  numeric_spec neg ds = Some i ↔
  ∃ n, (if neg then 1 ≤ n ≤ - LONG_MIN else 0 ≤ n ≤ LONG_MAX) ∧ ds = print_nat 19 n ∧ i = u64 (if neg then - n else n).
Proof.
  assert (Hb : - LONG_MIN < 10 ^ 19 ∧ LONG_MAX < 10 ^ 19 ∧ - LONG_MIN = LONG_MAX + 1) by done.
  unfold numeric_spec. destruct ds as [|c ds].
  { split; [done|]. intros (n & Hn & Hp & _).
    pose proof (print_nat_length 19 18 n) as Hl. rewrite <-Hp in Hl. simpl in Hl.
    change (Z.of_nat 19) with 19 in Hl. destruct neg; lia. }
  split.
  - destruct (all_digits (c :: ds) && _ && _) eqn:Hc; [|done].
    apply andb_true_iff in Hc as [[Hd Hz]%andb_true_iff Hl]. apply negb_true_iff, no_leading_zero_test in Hz as [Hz Hn].
    apply Z.leb_le in Hl. destruct (value_lt_19 c ds Hd ltac:(lia)) as [_ Hv]. intros Hi.
    assert (Hcan : c :: ds = print_nat 19 (value 0 (c :: ds))) by (apply canonical_iff; [done|]; split_and!; try done; lia).
    exists (value 0 (c :: ds)). destruct neg.
    + destruct (Z.gtb_spec (value 0 (c :: ds) - 1) LONG_MAX); [done|].
      assert (0 < value 0 (c :: ds)) by (apply no_leading_zero_value; eauto).
      split; [lia|]. split; [done|]. by injection Hi as <-.
    + destruct (Z.gtb_spec (value 0 (c :: ds)) LONG_MAX); [done|]. split; [lia|]. split; [done|].
      injection Hi as <-. unfold u64. rewrite Z.mod_small; [done|]. unfold LONG_MAX in *. lia.
  - intros (n & Hn & Hp & ->). assert (Hn' : 0 ≤ n < 10 ^ 19) by (destruct neg; lia).
    pose proof Hp as (Hd & Hz & Hl & Hv)%canonical_iff; [|done].
    rewrite Hd, (proj2 (Z.leb_le _ _)), Hv by lia.
    assert (Hz' : (schar c =? 48) && (1 <? Z.of_nat (length (c :: ds)) + Z.b2z neg) = false).
    { apply no_leading_zero_test. split; [done|]. intros ->.
      destruct (print_nat_spec 19 n) as (_ & _ & _ & (c' & ds' & Hp' & Hc')); [split; [lia|]; etrans; [apply Hn'|done]|lia|].
      rewrite <-Hp in Hp'. injection Hp' as -> _. done. }
    rewrite Hz'. simpl. destruct neg.
    + destruct (Z.gtb_spec (n - 1) LONG_MAX); [lia|done].
    + destruct (Z.gtb_spec n LONG_MAX); [lia|]. f_equal. unfold u64. rewrite Z.mod_small; [done|].
      unfold LONG_MAX in *. lia.
Qed.

Lemma print_nat_no_minus n : 0 ≤ n < 10 ^ 19 → match print_nat 19 n with c :: _ => c ≠ Byte.x2d | [] => True end.
Proof.
  intros Hn. destruct (print_nat_spec 19 n) as (_ & Hd & _); [split; [lia|]; etrans; [apply Hn|done]|].
  destruct (print_nat 19 n) as [|c ds]; [done|]. intros ->. done.
Qed.

Lemma handle_numeric_iff t i :
  ZEND_HANDLE_NUMERIC_EX (t ++ [Byte.x00]) (Z.of_nat (length t + 1)) = Some (Some i) ↔
  ∃ n, LONG_MIN ≤ n ≤ LONG_MAX ∧ t = print_long n ∧ i = u64 n.
Proof.
  assert (Hb : - LONG_MIN < 10 ^ 19 ∧ 0 < LONG_MAX < 10 ^ 19 ∧ LONG_MIN < 0) by done.
  assert (t = Byte.x2d :: tail t ∨ match t with c :: _ => c ≠ Byte.x2d | [] => True end) as [Ht|Ht].
  { destruct t as [|c t]; [by right|]. destruct (decide (c = Byte.x2d)) as [->|]; [by left|by right]. }
  - rewrite Ht. pose proof (handle_numeric_run true (tail t) ltac:(done)) as Hr. cbv zeta in Hr. cbn [app] in Hr.
    cbn [app tail]. rewrite Hr.
    rewrite (inj_iff Some), numeric_spec_iff. split.
    + intros (n & Hn & Hd & ->). exists (- n). split; [lia|]. split; [|done]. unfold print_long.
      destruct (Z.ltb_spec (- n) 0); [|lia]. rewrite Z.opp_involutive. by rewrite Hd.
    + intros (n & Hn & Hd & ->). unfold print_long in Hd. destruct (Z.ltb_spec n 0).
      * injection Hd as Hd. exists (- n). split; [lia|]. split; [done|]. by rewrite Z.opp_involutive.
      * pose proof (print_nat_no_minus n ltac:(lia)) as Hm. rewrite <-Hd in Hm. done.
  - pose proof (handle_numeric_run false t ltac:(done)) as Hr. cbv zeta in Hr. cbn [app] in Hr. rewrite Hr.
    rewrite (inj_iff Some), numeric_spec_iff. split.
    + intros (n & Hn & Hd & ->). exists n. split; [lia|]. split; [|done]. unfold print_long.
      by destruct (Z.ltb_spec n 0); [lia|].
    + intros (n & Hn & Hd & ->). unfold print_long in Hd. destruct (Z.ltb_spec n 0).
      * subst t. done.
      * exists n. split; [lia|done].
Qed.

Lemma handle_numeric_total t :
  ∃ r, ZEND_HANDLE_NUMERIC_EX (t ++ [Byte.x00]) (Z.of_nat (length t + 1)) = Some r.
Proof.
  destruct t as [|c t]; [by eexists|]. destruct (decide (c = Byte.x2d)) as [->|Hc].
  - exists (numeric_spec true t). by apply (handle_numeric_run true t).
  - exists (numeric_spec false (c :: t)). by apply (handle_numeric_run false (c :: t)).
Qed.
