(* ===== verification/HashSpec.v ===== *)
(** * The contract of hash tables

    The properties of [Zend/zend_hash.c]: each operation terminates without
    touching freed memory and does what the association list does. *)

From S2P Require Import Prelude DList HashModel HashRepr HashFacts HashInsert HashOps HashLoops HashCopy HashSort.
From S2P Require Import HashWalk HashNumeric.
Local Open Scope Z_scope.

(** ** A table to try the theorems on: ["a" => 10, 0 => 20] *)

Definition empty_mem {V} : mem (Bucket V) (event V) := Mem ∅ 1 [].
Definition key_a : bytes := [Byte.x61; Byte.x00].
Definition run_or {W A} (m : outcome W A) (d : W * A) : W * A := match m with Done a w => (w, a) | _ => d end.

Definition sample0 : HashTable := _zend_hash_init 2 true false.
Definition sample1 : mem (Bucket Z) (event Z) * HashTable :=
  (λ x, (x.1, x.2.1.1)) (run_or (zend_hash_update sample0 (KExt 7 key_a) 2 10 8 empty_mem) (empty_mem, (sample0, 0, None))).
Definition sample2 : mem (Bucket Z) (event Z) * HashTable :=
  (λ x, (x.1, x.2.1.1)) (run_or (zend_hash_next_index_insert sample1.2 20 8 sample1.1) (empty_mem, (sample0, 0, None))).
Definition sample_es : list (key * Z) := [(KStr key_a, 10); (KInt 0, 20)].

(** the hash function as a polynomial modulo [2 ^ 64] *)
Definition djbx33a (s : bytes) : Z := foldl (λ h c, (h * 33 + schar c) mod 2 ^ 64) 5381 s.

Section create.
Context {V : Type}.
Implicit Types (w : mem (Bucket V) (event V)).

Lemma init_shift_spec fuel i nSize :
  3 ≤ i ≤ 31 → i + Z.of_nat fuel = 35 → nSize ≤ 2 ^ 31 →
  let k := init_shift fuel i nSize in i ≤ k ≤ 31 ∧ nSize ≤ 2 ^ k ∧ (i < k → 2 ^ (k - 1) < nSize).
Proof.
  revert i. induction fuel as [|fuel IH]; intros i Hi Hf Hn k; [lia|]. unfold k. cbn [init_shift].
  assert (u32 (Z.shiftl 1 i) = 2 ^ i) as ->.
  { rewrite Z.shiftl_1_l. unfold u32. apply Z.mod_small.
    pose proof (Z.pow_lt_mono_r 2 i 32 ltac:(lia) ltac:(lia) ltac:(lia)).
    pose proof (Z.pow_pos_nonneg 2 i ltac:(lia) ltac:(lia)). lia. }
  destruct (Z.ltb_spec (2 ^ i) nSize) as [Hlt|Hge]; [|split_and!; intros; lia].
  assert (i ≠ 31) by (intros ->; lia).
  destruct (IH (i + 1)) as (H2 & H3 & H4); [lia|lia|done|]. split_and!; try lia.
  destruct (decide (i + 1 < init_shift fuel (i + 1) nSize)); [auto|]. intros _.
  assert (init_shift fuel (i + 1) nSize = i + 1) as -> by lia. rewrite Z.add_simpl_r. done.
Qed.

Lemma init_size nSize d pers :
  ∃ k, 3 ≤ k ≤ 31 ∧ nTableSize (_zend_hash_init nSize d pers) = 2 ^ k ∧
    (nSize ≤ 2 ^ 31 → nSize ≤ 2 ^ k) ∧ (3 < k → 2 ^ (k - 1) < nSize).
Proof.
  unfold _zend_hash_init. simpl. destruct (Z.geb_spec nSize (2 ^ 31)) as [Hge|Hlt].
  - exists 31. by split_and!; try lia.
  - destruct (init_shift_spec 32 3 nSize) as (H1 & H2 & H3); [lia|done|lia|].
    exists (init_shift 32 3 nSize). split_and!; try lia; try exact H3.
    rewrite Z.shiftl_1_l. apply u32_small.
    pose proof (Z.pow_lt_mono_r 2 (init_shift 32 3 nSize) 32 ltac:(lia) ltac:(lia) ltac:(lia)).
    pose proof (Z.pow_pos_nonneg 2 (init_shift 32 3 nSize) ltac:(lia) ltac:(lia)). lia.
Qed.

Lemma init_tbl w nSize d pers : mem_ok w → tbl w (_zend_hash_init nSize d pers) [] [].
Proof.
  intros Hm. destruct (init_size nSize d pers) as (k & Hk & Hsz & _). split; [done| |by intros ? ? ?%elem_of_nil].
  split; try done; simpl; try lia.
  - split_and!; try done. constructor.
  - split; [by exists k|]. split; [by left|done].
  - apply (chains_ok_empty _ 1).
  - constructor.
  - split; [unfold LONG_MAX; simpl; lia|]. by intros ? ? ?%elem_of_nil.
Qed.

Lemma empty_mem_ok : mem_ok (empty_mem (V := V)).
Proof. intros p [? Hp]. unfold empty_mem in Hp. simpl in Hp. by rewrite lookup_empty in Hp. Qed.

Lemma key_arg_ext (h : gmap ptr (Bucket V)) a s : s ≠ [] → key_arg h (KExt a s) (Z.of_nat (length s)) s.
Proof. intros Hs. by split_and!. Qed.

End create.

Lemma sample_tbl : tbl sample2.1 sample2.2 [1%positive; 2%positive] sample_es ∧
  trace sample2.1 = [] ∧ ht_cfg sample2.2 = (true, false, 0, true).
Proof.
  pose proof (init_tbl (V := Z) empty_mem 2 true false empty_mem_ok) as H0. change (_zend_hash_init 2 true false) with sample0 in H0.
  destruct (add_or_update_post empty_mem sample0 [] [] (KExt 7 key_a) 2 key_a 10 8 HASH_UPDATE H0)
    as (w1 & ht1 & o1 & r1 & d1 & Hr1 & [U1 U2 _ U4 _ _ U7 _ _]); [by apply key_arg_ext|done|].
  assert (sample1 = (w1, ht1)) as E1 by (unfold sample1, zend_hash_update; by rewrite Hr1).
  destruct (index_update_or_next_insert_post w1 ht1 o1 _ 0 20 8 HASH_NEXT_INSERT U1)
    as (w2 & ht2 & o2 & r2 & d2 & Hr2 & [X1 X2 _ X4 _ _ X7 _ _]); [lia|by rewrite U2|].
  assert (sample2 = (w2, ht2)) as -> by (unfold sample2, zend_hash_next_index_insert; rewrite E1; cbn [fst snd]; by rewrite Hr2).
  simpl. assert (nNextFreeElement ht1 = 0) as Hn by (vm_compute in E1; by injection E1 as <- <-).
  assert (brk w1 = 2%positive) as Hb by (vm_compute in E1; by injection E1 as <- <-).
  cbv zeta in X1, X2, X4. rewrite Hn in X1, X2, X4. rewrite Hb in X2. rewrite X4, U4, X7, U7. rewrite U2 in X2.
  split; [|done]. rewrite X2 in X1. exact X1.
Qed.

(** ** Notions used by the properties *)

(** What a function of the [zend_hash_apply] family does when its callback, seen
    through the abstract keys, is [g]: after three nested applications over a
    protected table it bails out, otherwise it visits the elements in order (in
    reverse order for [rev]), keeping or deleting each one. *)
Definition applied {V A} (rev : bool) (m : HM V (A * HashTable)) (g : A → key → V → A * V * Z) (a : A)
    (w : mem (Bucket V) (event V)) (ht : HashTable) (es : list (key * V)) : Prop :=
  if bApplyProtection ht && (nApplyCount ht >=? 3) then m w = Bailout w
  else ∃ w' ht' order' a' kept dead, m w = Done (a', ht') w' ∧
    apply_spec g a (if rev then reverse es else es) = (a', kept, dead) ∧
    tbl w' ht' order' (if rev then reverse kept else kept) ∧
    trace w' = trace w ++ dtor_events (pDestructor ht) dead ∧ ht_cfg ht' = ht_cfg ht.

(** the key under which a symbol table files the string [t] *)
Definition symbol_key (t : bytes) (k : key) : Prop :=
  (∃ n, LONG_MIN ≤ n ≤ LONG_MAX ∧ t = print_long n ∧ k = KInt (u64 n)) ∨
  ((∀ n, LONG_MIN ≤ n ≤ LONG_MAX → t ≠ print_long n) ∧ k = KStr (t ++ [Byte.x00])).

(** ** Properties *)

Section contract.
Context {V : Type}.
Implicit Types (ht : HashTable) (b : Bucket V) (p q : ptr) (order : list ptr).
Implicit Types (w : mem (Bucket V) (event V)) (es : list (key * V)) (cc : option (V → V)).

(** C34: the loop of [zend_inline_hash_func], unrolled eight times with its
    fall-through switch, computes the DJBX33A polynomial modulo 2^64. *)
Theorem hash_func_is_djbx33a s : zend_inline_hash_func s = djbx33a s ∧ zend_hash_func s = djbx33a s.
Proof.
  assert (Hstep : ∀ h c, hash_step h c = (h * 33 + schar c) mod 2 ^ 64).
  { intros h c. unfold hash_step, u64. rewrite Z.shiftl_mul_pow2 by lia.
    rewrite <-(Z.add_mod_idemp_l (h * 33)) by lia. do 2 f_equal. rewrite Z.add_mod_idemp_l by lia.
    f_equal. lia. }
  assert (Hsw : ∀ t x, hash_switch x t = foldl (λ h c, (h * 33 + schar c) mod 2 ^ 64) x t).
  { intros t. induction t as [|c t IH]; intros x; cbn [hash_switch foldl]; [done|]. by rewrite IH, Hstep. }
  assert (Hun : ∀ n t x, (length t ≤ n)%nat → hash_unrolled x t = foldl (λ h c, (h * 33 + schar c) mod 2 ^ 64) x t).
  { intros n. induction n as [|n IH]; intros t x Hl.
    - destruct t; [done|simpl in Hl; lia].
    - do 8 (destruct t as [|? t]; [by apply Hsw|]). cbn [hash_unrolled foldl]. rewrite IH by (simpl in Hl; lia).
      unfold hash_round. by rewrite !Hstep. }
  split; by apply (Hun (length s)).
Qed.

(** [_zend_hash_init] makes an empty table whose size is the least power of
    two that is at least 8 and [nSize] (at most 2^31). *)
Theorem hash_init_correct w nSize d pers :
  mem_ok w →
  let ht := _zend_hash_init nSize d pers in
  tbl w ht [] [] ∧ ∃ k, 3 ≤ k ≤ 31 ∧ nTableSize ht = 2 ^ k ∧ (nSize ≤ 2 ^ 31 → nSize ≤ 2 ^ k) ∧
    ∀ j, 3 ≤ j ≤ 31 → nSize ≤ 2 ^ j → k ≤ j.
Proof.
  intros Hm ht. split; [by apply init_tbl|]. destruct (init_size nSize d pers) as (k & Hk & Hs & H1 & H2).
  exists k. split_and!; try done; try lia. intros j Hj Hle. destruct (decide (k ≤ j)) as [|Hn]; [done|].
  specialize (H2 ltac:(lia)). pose proof (Z.pow_le_mono_r 2 j (k - 1) ltac:(lia) ltac:(lia)). lia.
Qed.

(** C1: [_zend_hash_add_or_update] and its variant with a precomputed hash
    return, keep the table well formed and add or update the key: a new key goes
    at the end of the order, an existing one is updated in place after its old
    value is destroyed, and left alone with [FAILURE] under [HASH_ADD]. *)
Theorem hash_add_or_update_refines w ht order es kp len s v nDataSize flag :
  tbl w ht order es → key_arg (cells w) kp len s → Z.of_nat (length order) + 1 < 2 ^ 32 →
  let add := flag_set flag HASH_ADD in
  ∀ m, m = _zend_hash_add_or_update ht kp len v nDataSize flag ∨
       m = _zend_hash_quick_add_or_update ht kp len (zend_inline_hash_func s) v nDataSize flag →
  ∃ w' ht' order' r pd, m w = Done (ht', r, pd) w' ∧
    tbl w' ht' order' (upd_es add (KStr s) v es) ∧ r = upd_result add (KStr s) es ∧
    trace w' = trace w ++ upd_events (pDestructor ht) add (KStr s) es ∧
    (r = SUCCESS → ∃ p b, pd = Some p ∧ cells w' !! p = Some b ∧ data_val (pData b) = v ∧ bkey b = KStr s).
Proof.
  intros Ht Hk Hl add m Hm.
  assert (∃ w' ht' order' r pd, m w = Done (ht', r, pd) w' ∧ upd_post add (KStr s) v w ht order es w' ht' order' r pd)
    as (w' & ht' & order' & r & pd & Hrun & Hp).
  { destruct Hm as [-> | ->]; [by eapply add_or_update_post|by eapply quick_add_or_update_post]. }
  exists w', ht', order', r, pd. split_and!; try apply Hp; [done|].
  eapply upd_dest_bucket; [|exact Hp]. apply (r_keys _ _ _ _ (t_repr _ _ _ _ Ht)).
Qed.

(** C2: [_zend_hash_index_update_or_next_insert] adds or updates an integer key,
    the next free one under [HASH_NEXT_INSERT]; [nNextFreeElement] moves past it
    and stays at most [LONG_MAX], where a further insertion fails. *)
Theorem hash_index_update_refines w ht order es i v nDataSize flag :
  tbl w ht order es → 0 ≤ i < 2 ^ 64 → Z.of_nat (length order) + 1 < 2 ^ 32 →
  let k := KInt (if flag_set flag HASH_NEXT_INSERT then nNextFreeElement ht else i) in
  let add := flag_set flag HASH_NEXT_INSERT || flag_set flag HASH_ADD in
  ∃ w' ht' order' r pd,
    _zend_hash_index_update_or_next_insert ht i v nDataSize flag w = Done (ht', r, pd) w' ∧
    tbl w' ht' order' (upd_es add k v es) ∧ r = upd_result add k es ∧
    trace w' = trace w ++ upd_events (pDestructor ht) add k es ∧
    nNextFreeElement ht' = upd_next k es (nNextFreeElement ht) ∧ nNextFreeElement ht' ≤ LONG_MAX ∧
    (r = SUCCESS → ∃ p b, pd = Some p ∧ cells w' !! p = Some b ∧ data_val (pData b) = v ∧ bkey b = k).
Proof.
  intros Ht Hi Hl k add.
  destruct (index_update_or_next_insert_post w ht order es i v nDataSize flag Ht Hi Hl)
    as (w' & ht' & order' & r & pd & Hrun & Hp).
  exists w', ht', order', r, pd. split; [exact Hrun|]. split_and!; try apply Hp.
  eapply upd_dest_bucket; [|exact Hp]. apply (r_keys _ _ _ _ (t_repr _ _ _ _ Ht)).
Qed.

(** C4: the six lookups leave the table alone and answer for the abstract
    contents: the bucket found holds the value of the key, and no bucket is found
    only when the key is absent. *)
Theorem hash_find_correct w ht order es kp len s i :
  tbl w ht order es → key_arg (cells w) kp len s → 0 ≤ i →
  let hh := zend_inline_hash_func s in
  let found k (r : option ptr) :=
    match r with
    | Some p => ∃ b, cells w !! p = Some b ∧ al_find k es = Some (data_val (pData b))
    | None => al_find k es = None
    end in
  let exists_ k := match al_find k es with Some _ => 1 | None => 0 end in
  (∃ r, zend_hash_find ht kp len w = Done r w ∧ zend_hash_quick_find ht kp len hh w = Done r w ∧ found (KStr s) r) ∧
  (∃ r, zend_hash_index_find ht i w = Done r w ∧ found (KInt i) r) ∧
  zend_hash_exists ht kp len w = Done (exists_ (KStr s)) w ∧
  zend_hash_quick_exists ht kp len hh w = Done (exists_ (KStr s)) w ∧
  zend_hash_index_exists ht i w = Done (exists_ (KInt i)) w.
Proof.
  intros Ht Hk Hi hh found exists_. pose proof Ht as [_ [_ _ _ _ _ _ _ He _ _] _].
  assert (Hfound : ∀ k, found k (ptr_of k order es)).
  { intros k. pose proof (ptr_of_al_find k (cells w) order es He) as Hp. unfold found.
    destruct (ptr_of k order es) as [p|]; [|done]. destruct Hp as (b & v & Hb & Hf & <-). eauto. }
  assert (Hex : ∀ k, exists_ k = match ptr_of k order es with Some _ => 1 | None => 0 end).
  { intros k. specialize (Hfound k). unfold exists_, found in *. destruct (ptr_of k order es).
    - by destruct Hfound as (b & _ & ->).
    - by rewrite Hfound. }
  destruct (string_lookup _ _ _ _ _ _ _ Ht Hk) as (x & Hx & Hrun). cbv zeta in Hx, Hrun.
  split_and!.
  - eexists. split; [by eapply find_run|]. split; [by eapply quick_find_run|]. apply Hfound.
  - eexists. split; [by eapply index_find_run|]. apply Hfound.
  - unfold zend_hash_exists. rewrite (key_arg_read _ _ _ _ Hk). erewrite bind_Done by reflexivity.
    cbv zeta. rewrite (bind_Done _ _ _ _ _ Hx), (bind_Done _ _ _ _ _ Hrun), Hex. done.
  - unfold zend_hash_quick_exists. rewrite (bind_Done _ _ _ _ _ Hx), (bind_Done _ _ _ _ _ Hrun), Hex. done.
  - rewrite Hex. by apply index_exists_run.
Qed.

(** C3: [zend_hash_del] (with or without the hash) and [zend_hash_index_del]
    remove exactly the key, destroy its value once, free its bucket, and keep the
    order of the rest; an absent key is [FAILURE] and changes nothing. *)
Theorem hash_del_refines w ht order es kp len s i :
  tbl w ht order es → key_arg (cells w) kp len s → 0 ≤ i →
  ∀ m k, (m, k) ∈ [(zend_hash_del ht kp len, KStr s); (zend_hash_quick_del ht kp len (zend_inline_hash_func s), KStr s);
                   (zend_hash_index_del ht i, KInt i)] →
  ∃ w' ht' order', m w = Done (ht', match al_find k es with Some _ => SUCCESS | None => FAILURE end) w' ∧
    tbl w' ht' order' (al_delete k es) ∧ (∀ p, p ∈ order' → p ∈ order) ∧
    (∀ p, p ∈ order → p ∉ order' → cells w' !! p = None) ∧
    trace w' = trace w ++ match al_find k es with Some v => dtor_events (pDestructor ht) [v] | None => [] end.
Proof.
  intros Ht Hk Hi m k Hin. pose proof Ht as [Hm Hr _]. pose proof Hk as (Hkb & Hlen & Hne & _).
  assert (Hs : ∃ x, rd_slot ht (Z.land (zend_inline_hash_func s) (nTableMask ht)) w = Done x w ∧
    chain_search (del_test kp len (zend_inline_hash_func s)) x w = Done (ptr_of (KStr s) order es) w).
  { apply (chain_lookup w ht order es (KStr s)); [done|done|apply hash_range|].
    intros p b k' v Hp Hb He. by eapply del_test_entry. }
  assert (Hx : ∃ x, rd_slot ht (Z.land i (nTableMask ht)) w = Done x w ∧
    chain_search (del_test KNull 0 i) x w = Done (ptr_of (KInt i) order es) w).
  { apply (chain_lookup w ht order es (KInt i)); [done|done|done|]. intros p b k' v Hp Hb He. by eapply del_test_index. }
  rewrite !elem_of_cons, elem_of_nil in Hin. destruct Hin as [[= -> ->]|[[= -> ->]|[[= -> ->]|[]]]].
  - unfold zend_hash_del, zend_hash_del_key_or_index. simpl (_ =? _). cbn match. rewrite bind_assoc.
    rewrite (key_arg_read _ _ _ _ Hk). erewrite bind_Done by reflexivity. erewrite bind_Done by reflexivity.
    by apply del_post_of.
  - unfold zend_hash_quick_del, zend_hash_del_key_or_index. simpl (_ =? _). cbn match.
    erewrite bind_Done by reflexivity. by apply del_post_of.
  - unfold zend_hash_index_del, zend_hash_del_key_or_index. simpl (_ =? _). cbn match.
    erewrite bind_Done by reflexivity. by apply del_post_of.
Qed.

(** C16: growing: [ZEND_HASH_IF_FULL_DO_RESIZE] doubles the array of a full table
    (up to 2^31 slots) and rebuilds the chains; contents, order, buckets and the
    other fields stay. *)
Theorem hash_resize_correct w ht order es :
  tbl w ht order es → order ≠ [] →
  ∃ w' ht', ZEND_HASH_IF_FULL_DO_RESIZE ht w = Done ht' w' ∧ tbl w' ht' order es ∧
    relinked order w w' ∧ ht_rest ht' = ht_rest ht ∧
    nTableSize ht' = (if (nNumOfElements ht >? nTableSize ht) && (nTableSize ht <? 2 ^ 31)
                      then 2 * nTableSize ht else nTableSize ht).
Proof. apply resize_spec. Qed.

(** C33: [zend_hash_destroy] calls the destructor once per element, in insertion
    order, and frees exactly the buckets of the table; [zend_hash_clean] does the
    same and leaves an empty table that is still usable. *)
Theorem hash_destroy_correct w ht order es :
  tbl w ht order es →
  (∃ w', zend_hash_destroy ht w = Done tt w' ∧
    trace w' = trace w ++ dtor_events (pDestructor ht) es.*2 ∧
    ∀ q, cells w' !! q = if decide (q ∈ order) then None else cells w !! q) ∧
  (∃ w' ht', zend_hash_clean ht w = Done ht' w' ∧ tbl w' ht' [] [] ∧ nNextFreeElement ht' = 0 ∧
    trace w' = trace w ++ dtor_events (pDestructor ht) es.*2 ∧
    ∀ q, cells w' !! q = if decide (q ∈ order) then None else cells w !! q).
Proof.
  intros Ht. destruct (tbl_facts _ _ _ _ Ht) as (Hnd & _ & Hl & Hh & _ & Hf & _).
  pose proof Ht as [Hm [(_ & Hs & _) _ _ _ Hsz _ _ He _ _] _]. split.
  - unfold zend_hash_destroy. rewrite (bind_Done _ _ _ (fuel_of w) w) by done. rewrite Hh.
    destruct (destroy_loop_spec ht order w None es (fuel_of w)) as (w' & Hrun & Htr & _ & Hc); [done..|lia|]. by exists w'.
  - unfold zend_hash_clean. rewrite (bind_Done _ _ _ (fuel_of w) w) by done. rewrite Hh.
    set (ht1 := if nTableMask ht =? 0 then ht else memset_arBuckets ht).
    set (ht2 := set_pInternalPointer None _).
    destruct (destroy_loop_spec ht2 order w None es (fuel_of w)) as (w' & Hrun & Htr & Hb & Hc); [done..|lia|].
    rewrite (bind_Done _ _ _ _ _ Hrun).
    assert (Hd : pDestructor ht2 = pDestructor ht) by (unfold ht2, ht1; by destruct (nTableMask ht =? 0)).
    exists w', ht2. rewrite Hd in Htr. split_and!; try done. split.
    + intros q Hq. rewrite Hb. rewrite Hc in Hq. case_decide; [by destruct Hq|]. by apply Hm.
    + destruct Hsz as (S1 & S2 & S3).
      assert (arBuckets ht2 = replicate (length (arBuckets ht2)) None ∧ size_ok ht2) as [Hsl Hsz2].
      { unfold ht2, ht1, size_ok. destruct (Z.eqb_spec (nTableMask ht) 0) as [H0|H0]; simpl.
        - rewrite H0 in *. split_and!; try done. pose proof (r_chains _ _ _ _ (t_repr _ _ _ _ Ht)) as (chains & Hch & Hmem).
          destruct (arBuckets ht) as [|x [|]] eqn:Har; [simpl in S3; lia| |simpl in S3; lia].
          pose proof (r_init _ _ _ _ (t_repr _ _ _ _ Ht) H0) as ->. simpl. destruct chains as [|c [|]]; try done.
          injection Hch as ->. destruct c as [|p c]; [done|]. destruct (Hmem 0%nat (p :: c) eq_refl) as (_ & _ & Hp).
          by destruct (proj1 (Hp p) ltac:(left)) as [?%elem_of_nil _].
        - rewrite !length_replicate. split_and!; try done. destruct S1 as (k & Hk & Hsk). destruct S2 as [|Hm2]; [done|].
          pose proof (Z.pow_pos_nonneg 2 k ltac:(lia) ltac:(lia)). lia. }
      split; try done; try (by unfold ht2).
      * split_and!; try done. constructor.
      * rewrite Hsl. apply chains_ok_empty.
      * constructor.
      * split; [unfold LONG_MAX; simpl; lia|]. by intros ? ? ?%elem_of_nil.
    + by intros ? ? ?%elem_of_nil.
Qed.

(** [zend_hash_graceful_destroy] and [zend_hash_graceful_reverse_destroy]
    delete the elements one at a time from the head or from the tail, so that
    each destructor call sees a well-formed table: the destructor is called in
    insertion order or in reverse, and every bucket is freed. *)
Theorem hash_graceful_destroy_correct w ht order es :
  tbl w ht order es →
  (∃ w', zend_hash_graceful_destroy ht w = Done tt w' ∧ (∀ q, q ∈ order → cells w' !! q = None) ∧
    trace w' = trace w ++ dtor_events (pDestructor ht) es.*2) ∧
  (∃ w', zend_hash_graceful_reverse_destroy ht w = Done tt w' ∧ (∀ q, q ∈ order → cells w' !! q = None) ∧
    trace w' = trace w ++ dtor_events (pDestructor ht) (reverse es.*2)).
Proof.
  intros Ht. destruct (tbl_facts _ _ _ _ Ht) as (_ & _ & _ & _ & _ & Hf & _). split.
  - destruct (graceful_loop_spec true w ht order es (fuel_of w) Ht ltac:(lia)) as (w' & ht' & Hrun & _ & _ & _ & Hd & Htr).
    exists w'. unfold zend_hash_graceful_destroy. rewrite (bind_Done _ _ _ (fuel_of w) w) by done.
    cbn match in Hrun. rewrite (bind_Done _ _ _ _ _ Hrun). split_and!; auto.
  - destruct (graceful_loop_spec false w ht order es (fuel_of w) Ht ltac:(lia)) as (w' & ht' & Hrun & _ & _ & _ & Hd & Htr).
    exists w'. unfold zend_hash_graceful_reverse_destroy. rewrite (bind_Done _ _ _ (fuel_of w) w) by done.
    cbn match in Hrun. rewrite (bind_Done _ _ _ _ _ Hrun). split_and!; auto.
Qed.

Lemma protected_run {A} (rev : bool) w ht order es (g : A → key → V → A * V * Z) (f : callback A) a step hd :
  tbl w ht order es → 0 ≤ nApplyCount ht < 2 ^ 8 → (∀ a z v, f a z v = g a (zkey z) v) →
  step = (if rev then pListLast else pListNext) → hd = (if rev then pListTail else pListHead) →
  applied rev (bind (HASH_PROTECT_RECURSION ht) (λ ht, bind get_fuel (λ fuel,
    bind (apply_loop step f fuel a ht (hd ht)) (λ '(a, ht), ret (a, HASH_UNPROTECT_RECURSION ht))))) g a w ht es.
Proof.
  intros Ht Hn Hf -> ->. unfold applied, HASH_PROTECT_RECURSION.
  destruct (bApplyProtection ht && (nApplyCount ht >=? 3)) eqn:Hp.
  { apply andb_true_iff in Hp as [-> ->]. done. }
  set (ht1 := if bApplyProtection ht then set_nApplyCount (u8 (nApplyCount ht + 1)) ht else ht).
  assert ((if bApplyProtection ht then if nApplyCount ht >=? 3 then bailout
    else ret (set_nApplyCount (u8 (nApplyCount ht + 1)) ht) else ret ht) w = Done ht1 w) as Hpr.
  { unfold ht1. destruct (bApplyProtection ht); [|done]. simpl in Hp. by rewrite Hp. }
  rewrite (bind_Done _ _ _ _ _ Hpr). rewrite (bind_Done _ _ _ (fuel_of w) w) by done.
  assert (Ht1 : tbl w ht1 order es).
  { eapply tbl_cfg; [..|exact Ht]; unfold ht1; by destruct (bApplyProtection ht), ht. }
  destruct (tbl_facts _ _ _ _ Ht1) as (_ & _ & Hl & Hh & Htl & Hfu & _).
  assert (Hgo : ∃ w' ht' order' a' kept dead,
    apply_loop (if rev then pListLast else pListNext) f (fuel_of w) a ht1 ((if rev then pListTail else pListHead) ht1) w
      = Done (a', ht') w' ∧
    apply_spec g a (if rev then reverse es else es) = (a', kept, dead) ∧
    tbl w' ht' order' (if rev then reverse kept else kept) ∧
    trace w' = trace w ++ dtor_events (pDestructor ht1) dead ∧ ht_cfg ht' = ht_cfg ht1).
  { destruct rev.
    - rewrite Htl. destruct (apply_backward g f (reverse es) (fuel_of w) a w ht1 order [] [])
        as (w' & ht' & o' & a' & kept & dead & H1 & H2 & H3 & H4 & H5); [|by rewrite length_reverse|lia|done|].
      { by rewrite reverse_involutive, !app_nil_r. }
      rewrite !app_nil_r in H3. by exists w', ht', o', a', kept, dead.
    - rewrite Hh. destruct (apply_forward g f es (fuel_of w) a w ht1 [] order [] Ht1 eq_refl ltac:(lia) Hf)
        as (w' & ht' & o' & a' & kept & dead & H1 & H2 & H3 & H4 & H5).
      by exists w', ht', o', a', kept, dead. }
  destruct Hgo as (w' & ht' & o' & a' & kept & dead & H1 & H2 & H3 & H4 & H5).
  rewrite (bind_Done _ _ _ _ _ H1). exists w', (HASH_UNPROTECT_RECURSION ht'), o', a', kept, dead.
  assert (pDestructor ht1 = pDestructor ht) as Hd by (unfold ht1; by destruct (bApplyProtection ht)). rewrite Hd in H4.
  split_and!; try done.
  - eapply tbl_cfg; [..|exact H3]; unfold HASH_UNPROTECT_RECURSION; by destruct (bApplyProtection ht'), ht'.
  - unfold ht_cfg, ht1 in *. destruct ht' as [? ? ? ? ? ? ? ? ? ? ac ap], ht as [? ? ? ? ? ? ? ? ? ? ac0 ap0]; simpl in *.
    destruct ap0; simpl in *; injection H5 as -> -> -> ->; simpl; [|done]. do 3 f_equal.
    unfold u8. destruct (decide (ac0 = 255)) as [->|]; [done|].
    rewrite (Z.mod_small (ac0 + 1)) by lia. rewrite Z.add_simpl_r. apply Z.mod_small. lia.
Qed.

(** C15: [zend_hash_apply], [zend_hash_apply_with_argument] and
    [zend_hash_apply_with_arguments] visit the elements in insertion order and
    [zend_hash_reverse_apply] in reverse; the callback's result deletes the element
    and stops the loop as the flags say, deletion during the traversal never
    touches a freed bucket, and the recursion guard is restored. *)
Theorem hash_apply_correct {A B} w ht order es (a : A) :
  tbl w ht order es → 0 ≤ nApplyCount ht < 2 ^ 8 →
  (∀ f : A → V → A * V * Z,
     applied false (zend_hash_apply ht f a) (λ a _ v, f a v) a w ht es ∧
     applied false (zend_hash_apply_with_argument ht (λ v a, f a v) a) (λ a _ v, f a v) a w ht es ∧
     applied true (zend_hash_reverse_apply ht f a) (λ a _ v, f a v) a w ht es) ∧
  (∀ (f : V → list B → zend_hash_key → A → A * V * Z) args g, (∀ a z v, f v args z a = g a (zkey z) v) →
     applied false (zend_hash_apply_with_arguments ht f args a) g a w ht es).
Proof.
  intros Ht Hn. split.
  - intros f. split_and!; (eapply protected_run; [exact Ht|exact Hn|by intros|done|done]).
  - intros f args g Hg. eapply protected_run; [exact Ht|exact Hn| |done|done]. by intros.
Qed.

Lemma merging_start w src tgt ot et order es :
  tbl w tgt ot et → tbl w src order es → (∀ q, q ∈ order → q ∉ ot) →
  Z.of_nat (length ot + length order) < 2 ^ 32 → merging w src tgt [] order [] es ot et.
Proof. intros. by split. Qed.

Lemma tbl_cur_head w ht order es : tbl w ht order es → tbl w (set_pInternalPointer (pListHead ht) ht) order es.
Proof.
  intros Ht. apply tbl_set_cur; [|done]. destruct (tbl_facts _ _ _ _ Ht) as (_ & _ & _ & -> & _).
  intros p. apply head_Some_elem_of.
Qed.

(** C27: [zend_hash_copy] inserts every element of the source into the target in
    order, through the copy constructor, replacing (and destroying) what the
    target had under the same keys; the source is untouched. *)
Theorem hash_copy_correct w tgt src ot et order es cc size :
  tbl w tgt ot et → tbl w src order es → (∀ q, q ∈ order → q ∉ ot) →
  Z.of_nat (length ot + length order) < 2 ^ 32 →
  let sp := merge_spec false (pDestructor tgt) cc et es in
  ∃ w' tgt' ot', zend_hash_copy tgt src cc size w = Done tgt' w' ∧ tbl w' tgt' ot' sp.1 ∧ tbl w' src order es ∧
    trace w' = trace w ++ sp.2.
Proof.
  intros H1 H2 H3 H4 sp. pose proof (merging_start _ _ _ _ _ _ _ H1 H2 H3 H4) as Hmg.
  destruct (tbl_facts _ _ _ _ H2) as (_ & _ & _ & Hh & _ & Hf & _).
  unfold zend_hash_copy. rewrite (bind_Done _ _ _ (fuel_of w) w), Hh by done.
  destruct (copy_loop_spec cc size (match pInternalPointer tgt with None => true | Some _ => false end)
    src es (fuel_of w) w tgt [] order [] ot et Hmg ltac:(lia)) as (w' & tgt' & ot' & Hrun & R1 & R2 & _ & R4 & _).
  rewrite (bind_Done _ _ _ _ _ Hrun).
  exists w', (match pInternalPointer tgt' with Some _ => tgt' | None => set_pInternalPointer (pListHead tgt') tgt' end), ot'.
  split_and!; try done; destruct (pInternalPointer tgt'); try done. by apply tbl_cur_head.
Qed.

(** C28: [_zend_hash_merge] inserts the elements of the source: without
    [overwrite] the target's elements win and only the new ones go through the
    copy constructor. *)
Theorem hash_merge_correct w tgt src ot et order es cc size overwrite :
  tbl w tgt ot et → tbl w src order es → (∀ q, q ∈ order → q ∉ ot) →
  Z.of_nat (length ot + length order) < 2 ^ 32 →
  let sp := merge_spec (negb overwrite) (pDestructor tgt) cc et es in
  ∃ w' tgt' ot', _zend_hash_merge tgt src cc size overwrite w = Done tgt' w' ∧ tbl w' tgt' ot' sp.1 ∧
    tbl w' src order es ∧ trace w' = trace w ++ sp.2 ∧ pInternalPointer tgt' = head ot'.
Proof.
  intros H1 H2 H3 H4 sp. pose proof (merging_start _ _ _ _ _ _ _ H1 H2 H3 H4) as Hmg.
  destruct (tbl_facts _ _ _ _ H2) as (_ & _ & _ & Hh & _ & Hf & _).
  unfold _zend_hash_merge. cbv zeta. rewrite (bind_Done _ _ _ (fuel_of w) w), Hh by done.
  destruct (merge_loop_spec overwrite cc size src es (fuel_of w) w tgt [] order [] ot et Hmg ltac:(lia))
    as (w' & tgt' & ot' & Hrun & R1 & R2 & _ & R4 & _).
  rewrite (bind_Done _ _ _ _ _ Hrun). exists w', (set_pInternalPointer (pListHead tgt') tgt'), ot'.
  split_and!; try done; [by apply tbl_cur_head|]. simpl. by destruct (tbl_facts _ _ _ _ R1) as (_ & _ & _ & -> & _).
Qed.


(** C29: a position saved by [zend_hash_get_pointer] is restored by
    [zend_hash_set_pointer] after any changes of the table, provided its bucket is
    still there (with the hash it had); when it is gone the function answers 0 and
    leaves the internal pointer alone, without following the stale address. *)
Theorem hash_pointer_restored w ht order es w' ht' order' es' :
  tbl w ht order es → tbl w' ht' order' es' →
  (∀ p b b', p ∈ order → p ∈ order' → cells w !! p = Some b → cells w' !! p = Some b' → b_h b' = b_h b) →
  ∃ hp, zend_hash_get_pointer ht w = Done (hp, match pInternalPointer ht with Some _ => 1 | None => 0 end) w ∧
    zend_hash_set_pointer ht' hp w' =
      Done (match pInternalPointer ht with
            | None => (set_pInternalPointer None ht', 1)
            | Some p => if bool_decide (p ∈ order') then (set_pInternalPointer (Some p) ht', 1) else (ht', 0)
            end) w'.
Proof.
  intros Ht Ht' Hh. unfold zend_hash_get_pointer. destruct (pInternalPointer ht) as [p|] eqn:Hc.
  - assert (Hp : p ∈ order) by (by apply (r_cur _ _ _ _ (t_repr _ _ _ _ Ht))).
    destruct (entries_live _ _ _ (r_entries _ _ _ _ (t_repr _ _ _ _ Ht)) p Hp) as (b & Hb & [Hr _]).
    rewrite (bind_Done _ _ _ _ _ (load_Done _ _ _ Hb)). eexists. split; [reflexivity|].
    apply (set_pointer_spec w' ht' order' es'); [done|lia|]. intros b' Hp' Hb'. by apply (Hh p b b').
  - by eexists.
Qed.


End contract.

(** ** The properties at the sample table *)

Definition sample_w : mem (Bucket Z) (event Z) := sample2.1.
Definition sample_ht : HashTable := sample2.2.
Definition sample_order : list ptr := [1%positive; 2%positive].

Lemma sample_ok : tbl sample_w sample_ht sample_order sample_es.
Proof. exact (proj1 sample_tbl). Qed.

Lemma sample_key : key_arg (cells sample_w) (KExt 7 key_a) 2 key_a.
Proof. apply (key_arg_ext _ 7 key_a). done. Qed.

Lemma sample_room : Z.of_nat (length sample_order) + 1 < 2 ^ 32.
Proof. reflexivity. Qed.

Lemma sample_unnested : 0 ≤ nApplyCount sample_ht < 2 ^ 8.
Proof. vm_compute. split; [discriminate|reflexivity]. Qed.

Lemma hash_init_correct_witness :
  tbl (empty_mem (V := Z)) (_zend_hash_init 100 true false) [] [] ∧
  ∃ k, 3 ≤ k ≤ 31 ∧ nTableSize (_zend_hash_init 100 true false) = 2 ^ k ∧ (100 ≤ 2 ^ 31 → 100 ≤ 2 ^ k) ∧
    ∀ j, 3 ≤ j ≤ 31 → 100 ≤ 2 ^ j → k ≤ j.
Proof. exact (hash_init_correct empty_mem 100 true false empty_mem_ok). Defined.

Lemma hash_add_or_update_refines_witness :
  ∃ w' ht' order' r pd,
    _zend_hash_add_or_update sample_ht (KExt 7 key_a) 2 30 8 HASH_UPDATE sample_w = Done (ht', r, pd) w' ∧
    tbl w' ht' order' [(KStr key_a, 30); (KInt 0, 20)] ∧ r = SUCCESS ∧ trace w' = trace sample_w ++ [EvDtor 10].
Proof.
  destruct (hash_add_or_update_refines sample_w sample_ht sample_order sample_es (KExt 7 key_a) 2 key_a 30 8 HASH_UPDATE
    sample_ok sample_key sample_room _ (or_introl eq_refl)) as (w' & ht' & o' & r & pd & H1 & H2 & H3 & H4 & _).
  exists w', ht', o', r, pd. exact (conj H1 (conj H2 (conj H3 H4))).
Defined.

Lemma hash_index_update_refines_witness :
  ∃ w' ht' order' r pd,
    _zend_hash_index_update_or_next_insert sample_ht 41 50 8 HASH_UPDATE sample_w = Done (ht', r, pd) w' ∧
    tbl w' ht' order' (sample_es ++ [(KInt 41, 50)]) ∧ r = SUCCESS ∧ trace w' = trace sample_w ++ [].
Proof.
  destruct (hash_index_update_refines sample_w sample_ht sample_order sample_es 41 50 8 HASH_UPDATE
    sample_ok ltac:(lia) sample_room)
    as (w' & ht' & o' & r & pd & H1 & H2 & H3 & H4 & _).
  exists w', ht', o', r, pd. exact (conj H1 (conj H2 (conj H3 H4))).
Defined.

Lemma hash_find_correct_witness :
  zend_hash_exists sample_ht (KExt 7 key_a) 2 sample_w = Done 1 sample_w ∧
  zend_hash_index_exists sample_ht 5 sample_w = Done 0 sample_w.
Proof.
  destruct (hash_find_correct sample_w sample_ht sample_order sample_es (KExt 7 key_a) 2 key_a 5
    sample_ok sample_key ltac:(lia)) as (_ & _ & H1 & _ & H2).
  exact (conj H1 H2).
Defined.

Lemma hash_del_refines_witness :
  ∃ w' ht' order', zend_hash_del sample_ht (KExt 7 key_a) 2 sample_w = Done (ht', SUCCESS) w' ∧
    tbl w' ht' order' [(KInt 0, 20)].
Proof.
  destruct (hash_del_refines sample_w sample_ht sample_order sample_es (KExt 7 key_a) 2 key_a 5
    sample_ok sample_key ltac:(lia) _ _ (list_elem_of_here _ _)) as (w' & ht' & o' & H1 & H2 & _).
  exists w', ht', o'. exact (conj H1 H2).
Defined.

Lemma hash_resize_correct_witness :
  ∃ w' ht', ZEND_HASH_IF_FULL_DO_RESIZE sample_ht sample_w = Done ht' w' ∧ tbl w' ht' sample_order sample_es.
Proof.
  destruct (hash_resize_correct sample_w sample_ht sample_order sample_es sample_ok ltac:(discriminate))
    as (w' & ht' & H1 & H2 & _).
  exists w', ht'. exact (conj H1 H2).
Defined.

Lemma hash_destroy_correct_witness :
  ∃ w', zend_hash_destroy sample_ht sample_w = Done tt w' ∧ trace w' = trace sample_w ++ [EvDtor 10; EvDtor 20].
Proof.
  destruct (hash_destroy_correct sample_w sample_ht sample_order sample_es sample_ok) as [(w' & H1 & H2 & _) _].
  exists w'. exact (conj H1 H2).
Defined.

Lemma hash_graceful_destroy_correct_witness :
  ∃ w', zend_hash_graceful_reverse_destroy sample_ht sample_w = Done tt w' ∧
    trace w' = trace sample_w ++ [EvDtor 20; EvDtor 10].
Proof.
  destruct (hash_graceful_destroy_correct sample_w sample_ht sample_order sample_es sample_ok) as [_ (w' & H1 & _ & H2)].
  exists w'. exact (conj H1 H2).
Defined.

Lemma hash_apply_correct_witness :
  applied true (zend_hash_reverse_apply sample_ht (λ a v, (a + v, v, ZEND_HASH_APPLY_REMOVE)) 0)
    (λ a _ v, (a + v, v, ZEND_HASH_APPLY_REMOVE)) 0 sample_w sample_ht sample_es.
Proof.
  exact (proj2 (proj2 (proj1 (hash_apply_correct (B := Z) sample_w sample_ht sample_order sample_es 0 sample_ok
    sample_unnested) _))).
Defined.

(** a second table in the same memory: ["a" => 1] *)
Definition sample3 : mem (Bucket Z) (event Z) * HashTable :=
  (λ x, (x.1, x.2.1.1)) (run_or (zend_hash_update sample0 (KExt 7 key_a) 2 1 8 sample_w) (empty_mem, (sample0, 0, None))).

Lemma sample3_tbl : tbl sample3.1 sample3.2 [3%positive] [(KStr key_a, 1)] ∧ tbl sample3.1 sample_ht sample_order sample_es ∧
  trace sample3.1 = trace sample_w.
Proof.
  pose proof (init_tbl sample_w 2 true false (t_mem _ _ _ _ sample_ok)) as H0. change (_zend_hash_init 2 true false) with sample0 in H0.
  destruct (add_or_update_post sample_w sample0 [] [] (KExt 7 key_a) 2 key_a 1 8 HASH_UPDATE H0)
    as (w1 & ht1 & o1 & r1 & d1 & Hr1 & [U1 U2 U3 U4 _ _ _ _ _]); [by apply key_arg_ext|done|].
  assert (sample3 = (w1, ht1)) as E1 by (unfold sample3, zend_hash_update; by rewrite Hr1).
  rewrite E1. cbn [fst snd]. assert (brk sample_w = 3%positive) as Hb by (vm_compute; reflexivity). rewrite Hb in U2.
  destruct (tbl_frame sample_w sample_ht sample_order sample_es [] w1 o1 sample_ok U3 (t_mem _ _ _ _ U1)) as [Hs _].
  { intros q _. apply not_elem_of_nil. }
  rewrite U4, U2 in *. split; [exact U1|]. split; [exact Hs|]. apply app_nil_r.
Qed.

Lemma sample3_disjoint : ∀ q : ptr, q ∈ sample_order → q ∉ [3%positive].
Proof. intros q Hq Hq3. apply list_elem_of_singleton in Hq3 as ->. unfold sample_order in Hq. set_solver. Qed.

Lemma hash_copy_correct_witness :
  ∃ w' tgt' ot', zend_hash_copy sample3.2 sample_ht (Some (λ v, v + 1)) 8 sample3.1 = Done tgt' w' ∧
    tbl w' tgt' ot' [(KStr key_a, 11); (KInt 0, 21)] ∧
    trace w' = trace sample3.1 ++ [EvDtor 1; EvCopy 10; EvCopy 20].
Proof.
  destruct (hash_copy_correct sample3.1 sample3.2 sample_ht [3%positive] [(KStr key_a, 1)] sample_order sample_es
    (Some (λ v, v + 1)) 8 (proj1 sample3_tbl) (proj1 (proj2 sample3_tbl)) sample3_disjoint ltac:(reflexivity))
    as (w' & tgt' & ot' & H1 & H2 & _ & H3).
  exists w', tgt', ot'. exact (conj H1 (conj H2 H3)).
Defined.

Lemma hash_merge_correct_witness :
  ∃ w' tgt' ot', _zend_hash_merge sample3.2 sample_ht None 8 false sample3.1 = Done tgt' w' ∧
    tbl w' tgt' ot' [(KStr key_a, 1); (KInt 0, 20)].
Proof.
  destruct (hash_merge_correct sample3.1 sample3.2 sample_ht [3%positive] [(KStr key_a, 1)] sample_order sample_es
    None 8 false (proj1 sample3_tbl) (proj1 (proj2 sample3_tbl)) sample3_disjoint ltac:(reflexivity))
    as (w' & tgt' & ot' & H1 & H2 & _).
  exists w', tgt', ot'. exact (conj H1 H2).
Defined.


Lemma hash_pointer_restored_witness :
  ∃ hp, zend_hash_get_pointer sample_ht sample_w = Done (hp, 1) sample_w ∧
    zend_hash_set_pointer sample_ht hp sample_w = Done (set_pInternalPointer (Some 1%positive) sample_ht, 1) sample_w.
Proof.
  destruct (hash_pointer_restored sample_w sample_ht sample_order sample_es sample_w sample_ht sample_order sample_es
    sample_ok sample_ok) as (hp & H1 & H2).
  { intros p b b' _ _ Hb Hb'. rewrite Hb in Hb'. by injection Hb' as ->. }
  exists hp. exact (conj H1 H2).
Defined.

