(* ===== verification/Qsort.v ===== *)
(** * [Zend/zend_qsort.c]: the non-recursive quicksort

    The array is a list of elements of [siz] bytes each; the pointers are
    indices, which may run one element past either end.  A read or a swap
    outside the array, and a push on the full stack of segments, are [None]. *)

From S2P Require Import Prelude HashModel HashSort.
Local Open Scope Z_scope.

Definition QSORT_STACK_SIZE : Z := 8 * 8.

(** ** [_zend_qsort_swap]: [siz] bytes at [a] and at [b], disjoint *)

(** the loop over whole [int]s; [i] and the two positions as in the code: the
    bytes already exchanged are in [ra] and [rb], reversed *)
Fixpoint swap_ints (fuel : nat) (i siz : Z) (ra rb a b : bytes) : Z * bytes * bytes * bytes * bytes :=
  match fuel with
  | O => (i, ra, rb, a, b)
  | S fuel' =>
      if i <=? siz
      then swap_ints fuel' (i + 4) siz (rev (take 4 b) ++ ra) (rev (take 4 a) ++ rb) (drop 4 a) (drop 4 b)
      else (i, ra, rb, a, b)
  end.

(** the loop over the remaining [char]s *)
Fixpoint swap_chars (fuel : nat) (i siz : Z) (ra rb a b : bytes) : bytes * bytes :=
  match fuel with
  | O => (rev ra ++ a, rev rb ++ b)
  | S fuel' =>
      if i <=? siz
      then match a, b with
           | x :: a', y :: b' => swap_chars fuel' (i + 1) siz (y :: ra) (x :: rb) a' b'
           | _, _ => (rev ra ++ a, rev rb ++ b)
           end
      else (rev ra ++ a, rev rb ++ b)
  end.

(** the contents of the two objects after the call *)
Definition _zend_qsort_swap (a b : bytes) (siz : Z) : bytes * bytes :=
  let '(i, ra, rb, a, b) := swap_ints (S (Z.to_nat siz)) 4 siz [] [] a b in
  swap_chars (S (Z.to_nat siz)) (i - 4 + 1) siz ra rb a b.

(** ** [zend_qsort_r] *)

Section qsort.
Context {A : Type}.
Implicit Types (a : list A) (compare : A → A → Z).

Definition get a (i : Z) : option A := if i <? 0 then None else a !! Z.to_nat i.

(** the exchange of two elements *)
Definition swap a (i j : Z) : option (list A) :=
  match get a i, get a j with
  | Some x, Some y => Some (<[Z.to_nat i := y]> (<[Z.to_nat j := x]> a))
  | _, _ => None
  end.

(** [for (; seg1 < seg2 && compare(begin, seg1) > 0; seg1 += siz);] *)
Fixpoint scan1 (fuel : nat) compare a (begin seg1 seg2 : Z) : option Z :=
  match fuel with
  | O => None
  | S fuel' =>
      if seg1 <? seg2 then
        match get a begin, get a seg1 with
        | Some p, Some x => if compare p x >? 0 then scan1 fuel' compare a begin (seg1 + 1) seg2 else Some seg1
        | _, _ => None
        end
      else Some seg1
  end.

(** [for (; seg2 >= seg1 && compare(seg2, begin) > 0; seg2 -= siz);] *)
Fixpoint scan2 (fuel : nat) compare a (begin seg1 seg2 : Z) : option Z :=
  match fuel with
  | O => None
  | S fuel' =>
      if seg2 >=? seg1 then
        match get a seg2, get a begin with
        | Some x, Some p => if compare x p >? 0 then scan2 fuel' compare a begin seg1 (seg2 - 1) else Some seg2
        | _, _ => None
        end
      else Some seg2
  end.

(** the [while (1)] loop; the result is the array and [seg2] *)
Fixpoint partition (fuel : nat) compare a (begin seg1 seg2 : Z) : option (list A * Z) :=
  match fuel with
  | O => None
  | S fuel' =>
      match scan1 (S (length a)) compare a begin seg1 seg2 with
      | None => None
      | Some seg1 =>
          match scan2 (S (length a)) compare a begin seg1 seg2 with
          | None => None
          | Some seg2 =>
              if seg1 >=? seg2 then Some (a, seg2)
              else
                match swap a seg1 seg2 with
                | None => None
                | Some a => partition fuel' compare a begin (seg1 + 1) (seg2 - 1)
                end
          end
      end
  end.

(** [begin_stack[loop] = ...; end_stack[loop++] = ...;] with [loop] pending
    segments, the last one first *)
Definition push (stack : list (Z * Z)) (seg : Z * Z) : option (list (Z * Z)) :=
  if Z.of_nat (length stack) <? QSORT_STACK_SIZE then Some (seg :: stack) else None.

(** [begin + (offset - (offset % siz))], with [uint offset = (end - begin) >> 1]
    in bytes *)
Definition middle (siz begin end_ : Z) : Z :=
  let offset := u32 (Z.shiftr ((end_ - begin) * siz) 1) in
  begin + (offset - offset mod siz) / siz.

(** the body of the inner [while]: the new array, stack, [begin] and [end] *)
Definition split_segment (siz : Z) compare a stack (begin end_ : Z) : option (list A * list (Z * Z) * Z * Z) :=
  match swap a begin (middle siz begin end_) with
  | None => None
  | Some a =>
      match partition (S (length a)) compare a begin (begin + 1) end_ with
      | None => None
      | Some (a, seg2) =>
          match swap a begin seg2 with
          | None => None
          | Some a =>
              let seg2p := seg2 in
              if seg2p - begin <=? end_ - seg2p then
                match (if seg2p + 1 <? end_ then push stack (seg2p + 1, end_) else Some stack) with
                | Some stack => Some (a, stack, begin, seg2p - 1)
                | None => None
                end
              else
                match (if seg2p - 1 >? begin then push stack (begin, seg2p - 1) else Some stack) with
                | Some stack => Some (a, stack, seg2p + 1, end_)
                | None => None
                end
          end
      end
  end.

(** the two loops over the segments *)
Fixpoint qsort_loop (fuel : nat) (siz : Z) compare a stack (begin end_ : Z) : option (list A) :=
  match fuel with
  | O => None
  | S fuel' =>
      if begin <? end_ then
        match split_segment siz compare a stack begin end_ with
        | Some (a, stack, begin, end_) => qsort_loop fuel' siz compare a stack begin end_
        | None => None
        end
      else
        match stack with
        | [] => Some a
        | (begin, end_) :: stack => qsort_loop fuel' siz compare a stack begin end_
        end
  end.

Definition zend_qsort_r (siz : Z) a compare : option (list A) :=
  qsort_loop (2 * length a + 2) siz compare a [] 0 (Z.of_nat (length a) - 1).

Definition zend_qsort (siz : Z) a compare : option (list A) := zend_qsort_r siz a compare.

(** ** Lemmas *)

Definition inseg (b e i : Z) : Prop := b ≤ i ≤ e.

(** [a'] is [a] with the elements of the segment [[b, e]] permuted *)
Record shuffled (b e : Z) a a' : Prop := {
  sh_perm : a' ≡ₚ a;
  sh_out : ∀ i, ¬ inseg b e i → get a' i = get a i;
  sh_in : ∀ i, inseg b e i → ∃ j, inseg b e j ∧ get a' i = get a j
}.

Lemma shuffled_refl b e a : shuffled b e a a.
Proof. split; [done|done|]. intros i Hi. by exists i. Qed.

Lemma shuffled_trans b e a1 a2 a3 : shuffled b e a1 a2 → shuffled b e a2 a3 → shuffled b e a1 a3.
Proof.
  intros [P1 O1 I1] [P2 O2 I2]. split.
  - by rewrite P2.
  - intros i Hi. by rewrite O2, O1.
  - intros i Hi. destruct (I2 i Hi) as (j & Hj & ->). destruct (I1 j Hj) as (k & Hk & ->). by exists k.
Qed.

Lemma shuffled_length b e a a' : shuffled b e a a' → length a' = length a.
Proof. intros [P _ _]. by apply Permutation_length. Qed.

Lemma get_Some a i : 0 ≤ i < Z.of_nat (length a) → ∃ x, get a i = Some x.
Proof.
  intros Hi. unfold get. destruct (Z.ltb_spec i 0); [lia|]. apply lookup_lt_is_Some_2. lia.
Qed.

Lemma get_of_nat a (i : nat) : get a (Z.of_nat i) = a !! i.
Proof. unfold get. destruct (Z.ltb_spec (Z.of_nat i) 0); [lia|]. by rewrite Nat2Z.id. Qed.

Lemma get_range a i x : get a i = Some x → 0 ≤ i < Z.of_nat (length a).
Proof. unfold get. destruct (Z.ltb_spec i 0); [done|]. intros ?%lookup_lt_Some. lia. Qed.

Lemma get_insert a i j x : 0 ≤ i < Z.of_nat (length a) →
  get (<[Z.to_nat i := x]> a) j = if decide (i = j) then Some x else get a j.
Proof.
  intros Hi. unfold get. destruct (Z.ltb_spec j 0); [by rewrite decide_False by lia|].
  case_decide as Hd.
  - subst. apply list_lookup_insert_eq. lia.
  - apply list_lookup_insert_ne. lia.
Qed.

Lemma swap_spec a i j x y :
  get a i = Some x → get a j = Some y →
  ∃ a', swap a i j = Some a' ∧ a' ≡ₚ a ∧
    ∀ k, get a' k = if decide (k = i) then Some y else if decide (k = j) then Some x else get a k.
Proof.
  intros Hi Hj. pose proof (get_range _ _ _ Hi). pose proof (get_range _ _ _ Hj).
  exists (<[Z.to_nat i := y]> (<[Z.to_nat j := x]> a)). split; [unfold swap; by rewrite Hi, Hj|]. split.
  - unfold get in Hi, Hj. destruct (Z.ltb_spec i 0); [lia|]. destruct (Z.ltb_spec j 0); [lia|].
    by apply Permutation_insert_swap.
  - intros k. rewrite get_insert by (rewrite length_insert; lia). rewrite get_insert by lia.
    repeat case_decide; congruence.
Qed.

Lemma swap_shuffled b e a i j x y :
  get a i = Some x → get a j = Some y → inseg b e i → inseg b e j →
  ∃ a', swap a i j = Some a' ∧ shuffled b e a a' ∧
    ∀ k, get a' k = if decide (k = i) then Some y else if decide (k = j) then Some x else get a k.
Proof.
  intros Hi Hj Hbi Hbj. destruct (swap_spec a i j x y Hi Hj) as (a' & Hs & Hp & Hg).
  exists a'. split; [done|]. split; [|done]. split; [done| |].
  - intros k Hk. rewrite Hg. rewrite !decide_False by (intros ->; done). done.
  - intros k Hk. rewrite Hg. destruct (decide (k = i)); [by exists j|]. destruct (decide (k = j)); [by exists i|by exists k].
Qed.

Section spec.
Context (compare : A → A → Z).

Lemma scan1_spec fuel a begin seg1 seg2 p :
  get a begin = Some p → 0 ≤ seg1 → seg2 < Z.of_nat (length a) → seg2 - seg1 < Z.of_nat fuel →
  seg1 ≤ seg2 + 1 → (0 < fuel)%nat →
  ∃ s, scan1 fuel compare a begin seg1 seg2 = Some s ∧ seg1 ≤ s ≤ seg2 + 1 ∧
    (∀ k x, seg1 ≤ k < s → get a k = Some x → 0 < compare p x) ∧
    (s < seg2 → ∀ x, get a s = Some x → compare p x ≤ 0).
Proof.
  intros Hp. revert seg1. induction fuel as [|fuel IH]; intros seg1 H0 H1 H2 H3 H4; [lia|]. cbn [scan1].
  destruct (Z.ltb_spec seg1 seg2) as [Hlt|Hge].
  - rewrite Hp. destruct (get_Some a seg1) as [x Hx]; [lia|]. rewrite Hx.
    destruct (Z.gtb_spec (compare p x) 0) as [Hc|Hc].
    + destruct (IH (seg1 + 1)) as (s & Hs & Hr & Hk & Hst); [lia..|]. exists s. split; [done|]. split; [lia|].
      split; [|done]. intros k y Hkr Hy. destruct (decide (k = seg1)) as [->|]; [congruence|]. apply (Hk k); [lia|done].
    + exists seg1. split; [done|]. split; [lia|]. split; [lia|]. intros _ y Hy. congruence.
  - exists seg1. split; [done|]. split; [lia|]. split; lia.
Qed.

Lemma scan2_spec fuel a begin seg1 seg2 p :
  get a begin = Some p → 0 ≤ seg1 → seg2 < Z.of_nat (length a) → seg2 - seg1 + 1 < Z.of_nat fuel →
  seg1 ≤ seg2 + 1 → (0 < fuel)%nat →
  ∃ s, scan2 fuel compare a begin seg1 seg2 = Some s ∧ seg1 - 1 ≤ s ≤ seg2 ∧
    (∀ k x, s < k ≤ seg2 → get a k = Some x → 0 < compare x p) ∧
    (seg1 ≤ s → ∀ x, get a s = Some x → compare x p ≤ 0).
Proof.
  intros Hp. revert seg2. induction fuel as [|fuel IH]; intros seg2 H0 H1 H2 H3 H4; [lia|]. cbn [scan2].
  destruct (Z.geb_spec seg2 seg1) as [Hge|Hlt].
  - rewrite Hp. destruct (get_Some a seg2) as [x Hx]; [lia|]. rewrite Hx.
    destruct (Z.gtb_spec (compare x p) 0) as [Hc|Hc].
    + destruct (IH (seg2 - 1)) as (s & Hs & Hr & Hk & Hst); [lia..|]. exists s. split; [done|]. split; [lia|].
      split; [|done]. intros k y Hkr Hy. destruct (decide (k = seg2)) as [->|]; [congruence|]. apply (Hk k); [lia|done].
    + exists seg2. split; [done|]. split; [lia|]. split; [lia|]. intros _ y Hy. congruence.
  - exists seg2. split; [done|]. split; [lia|]. split; lia.
Qed.

Definition left_of (p x : A) : Prop := 0 < compare p x ∨ compare x p ≤ 0.
Definition right_of (p x : A) : Prop := 0 < compare x p ∨ compare p x ≤ 0.

(** every element of a range of positions satisfies [P] *)
Definition all_in a (lo hi : Z) (P : A → Prop) : Prop := ∀ k x, lo ≤ k ≤ hi → get a k = Some x → P x.

Lemma partition_spec fuel a begin e seg1 seg2 p :
  get a begin = Some p → e < Z.of_nat (length a) → begin < seg1 → seg1 ≤ seg2 + 1 → seg2 ≤ e →
  all_in a (begin + 1) (seg1 - 1) (left_of p) → all_in a (seg2 + 1) e (right_of p) →
  seg2 - seg1 + 2 ≤ Z.of_nat fuel →
  ∃ a' m, partition fuel compare a begin seg1 seg2 = Some (a', m) ∧ shuffled (begin + 1) e a a' ∧
    begin ≤ m ≤ e ∧ all_in a' (begin + 1) m (left_of p) ∧ all_in a' (m + 1) e (right_of p).
Proof.
  revert a seg1 seg2. induction fuel as [|fuel IH]; intros a seg1 seg2 Hp Hlen H1 H2 H3 HL HR Hf; [lia|].
  pose proof (get_range _ _ _ Hp) as Hb. cbn [partition].
  destruct (scan1_spec (S (length a)) a begin seg1 seg2 p Hp) as (s1 & -> & Hs1 & HL1 & Hst1); [lia..|].
  destruct (scan2_spec (S (length a)) a begin s1 seg2 p Hp) as (s2 & -> & Hs2 & HR2 & Hst2); [lia..|].
  assert (HL' : all_in a (begin + 1) (s1 - 1) (left_of p)).
  { intros k x Hk Hx. destruct (decide (k < seg1)); [apply (HL k); [lia|done]|left; apply (HL1 k); [lia|done]]. }
  assert (HR' : all_in a (s2 + 1) e (right_of p)).
  { intros k x Hk Hx. destruct (decide (seg2 < k)); [apply (HR k); [lia|done]|left; apply (HR2 k); [lia|done]]. }
  destruct (Z.geb_spec s1 s2) as [Hge|Hlt].
  - exists a, s2. split; [done|]. split; [apply shuffled_refl|]. split; [lia|]. split; [|done].
    intros k x Hk Hx. destruct (decide (k < s1)); [apply (HL' k); [lia|done]|].
    right. apply Hst2; [lia|]. by replace s2 with k by lia.
  - destruct (get_Some a s1) as [x1 Hx1]; [lia|]. destruct (get_Some a s2) as [x2 Hx2]; [lia|].
    destruct (swap_shuffled (begin + 1) e a s1 s2 x1 x2 Hx1 Hx2) as (a1 & -> & Hsh & Hg); [unfold inseg; lia..|].
    destruct (IH a1 (s1 + 1) (s2 - 1)) as (a' & m & Hrun & Hsh' & Hm & HLm & HRm).
    + rewrite Hg, !decide_False by lia. done.
    + rewrite (shuffled_length _ _ _ _ Hsh). lia.
    + lia.
    + lia.
    + lia.
    + intros k x Hk Hx. rewrite Hg in Hx. case_decide as Hd1; [injection Hx as <-; right; by apply Hst2; [lia|]|].
      rewrite decide_False in Hx by lia. apply (HL' k); [lia|done].
    + intros k x Hk Hx. rewrite Hg in Hx. rewrite decide_False in Hx by lia.
      case_decide as Hd2; [injection Hx as <-; right; by apply Hst1; [lia|]|]. apply (HR' k); [lia|done].
    + lia.
    + exists a', m. split; [exact Hrun|]. split; [by eapply shuffled_trans|].
      split; [exact Hm|]. split; [exact HLm|exact HRm].
Qed.

Lemma shuffled_widen b e b' e' a a' : b' ≤ b → e ≤ e' → shuffled b e a a' → shuffled b' e' a a'.
Proof.
  intros Hb He [P O I]. split; [done| |].
  - intros i Hi. apply O. unfold inseg in *. lia.
  - intros i Hi. destruct (decide (b ≤ i ≤ e)) as [Hd|Hd].
    + destruct (I i Hd) as (j & Hj & ?). exists j. unfold inseg in *. split; [lia|done].
    + exists i. split; [done|]. by apply O.
Qed.

Lemma middle_range siz b e : 0 < siz → b < e → b ≤ middle siz b e ≤ e.
Proof.
  intros Hs Hbe. unfold middle. set (z := Z.shiftr ((e - b) * siz) 1).
  assert (0 ≤ z ≤ (e - b) * siz) as Hz.
  { unfold z. rewrite Z.shiftr_div_pow2 by lia. change (2 ^ 1) with 2. split; [apply Z.div_pos; nia|].
    apply Z.div_le_upper_bound; nia. }
  assert (0 ≤ u32 z ≤ z) as Hu by (unfold u32; pose proof (Z.mod_le z (2 ^ 32)); pose proof (Z.mod_pos_bound z (2 ^ 32)); lia).
  assert (0 ≤ (u32 z - u32 z mod siz) / siz ≤ e - b); [|lia].
  pose proof (Z.mod_pos_bound (u32 z) siz Hs). pose proof (Z.mod_le (u32 z) siz ltac:(lia) Hs).
  split; [apply Z.div_pos; lia|]. apply Z.div_le_upper_bound; nia.
Qed.

(** one split, up to the decision about the segments *)
Lemma split_spec siz a stack b e :
  0 < siz → 0 ≤ b → b < e → e < Z.of_nat (length a) →
  ∃ a' m p, shuffled b e a a' ∧ b ≤ m ≤ e ∧ get a' m = Some p ∧
    all_in a' b (m - 1) (left_of p) ∧ all_in a' (m + 1) e (right_of p) ∧
    split_segment siz compare a stack b e =
      if m - b <=? e - m then
        (λ st, (a', st, b, m - 1)) <$> (if m + 1 <? e then push stack (m + 1, e) else Some stack)
      else (λ st, (a', st, m + 1, e)) <$> (if m - 1 >? b then push stack (b, m - 1) else Some stack).
Proof.
  intros Hs Hb Hbe Hlen. pose proof (middle_range siz b e Hs Hbe) as Hmid. unfold split_segment.
  destruct (get_Some a b) as [x Hx]; [lia|]. destruct (get_Some a (middle siz b e)) as [y Hy]; [lia|].
  destruct (swap_shuffled b e a b (middle siz b e) x y Hx Hy) as (a1 & -> & Hsh1 & Hg1); [unfold inseg; lia..|].
  assert (Hpb : get a1 b = Some y) by (rewrite Hg1; by rewrite decide_True).
  destruct (partition_spec (S (length a1)) a1 b e (b + 1) e y Hpb) as (a2 & m & -> & Hsh2 & Hm & HL & HR);
    rewrite ?(shuffled_length _ _ _ _ Hsh1); try lia.
  { intros k z Hk. lia. } { intros k z Hk. lia. }
  assert (Hlen2 : length a2 = length a) by (by rewrite (shuffled_length _ _ _ _ Hsh2), (shuffled_length _ _ _ _ Hsh1)).
  assert (Hpb2 : get a2 b = Some y).
  { rewrite (sh_out _ _ _ _ Hsh2); [done|]. unfold inseg. lia. }
  destruct (get_Some a2 m) as [z Hz]; [lia|].
  destruct (swap_shuffled b e a2 b m y z Hpb2 Hz) as (a3 & -> & Hsh3 & Hg3); [unfold inseg; lia..|].
  exists a3, m, y. split_and!; try lia.
  - eapply shuffled_trans; [exact Hsh1|]. eapply shuffled_trans; [|exact Hsh3]. eapply shuffled_widen; [| |exact Hsh2]; lia.
  - rewrite Hg3. destruct (decide (m = b)) as [->|]; [congruence|by rewrite decide_True].
  - intros k v Hk Hv. rewrite Hg3 in Hv. case_decide as Hd.
    + subst k. injection Hv as <-. apply (HL m); [lia|done].
    + rewrite decide_False in Hv by lia. apply (HL k); [lia|done].
  - intros k v Hk Hv. rewrite Hg3, !decide_False in Hv by lia. apply (HR k); [lia|done].
  - destruct (m - b <=? e - m).
    + by destruct (if m + 1 <? e then _ else _).
    + by destruct (if m - 1 >? b then _ else _).
Qed.

(** *** The loop over segments *)

Definition size (s : Z * Z) : Z := s.2 - s.1 + 1.
Definition inside (s : Z * Z) (i : Z) : Prop := inseg s.1 s.2 i.
Definition seg_ok (n : Z) (s : Z * Z) : Prop := 0 ≤ s.1 ∧ s.2 < n ∧ s.1 ≤ s.2 + 1.

Fixpoint disjoint_segs (segs : list (Z * Z)) : Prop :=
  match segs with
  | [] => True
  | s :: segs' => (∀ t i, t ∈ segs' → inside s i → inside t i → False) ∧ disjoint_segs segs'
  end.

(** A segment with [k] segments below it has at most [n / 2^k] elements. *)
Fixpoint halved (n : Z) (segs : list (Z * Z)) : Prop :=
  match segs with
  | [] => True
  | s :: segs' => size s * 2 ^ Z.of_nat (length segs') ≤ n ∧ halved n segs'
  end.

Fixpoint work (segs : list (Z * Z)) : Z :=
  match segs with [] => 0 | s :: segs' => 2 * size s + 1 + work segs' end.

(** positions of different segments are in order *)
Definition ordered a (segs : list (Z * Z)) : Prop :=
  ∀ i j x y, i < j → get a i = Some x → get a j = Some y →
    (∃ s, s ∈ segs ∧ inside s i ∧ inside s j) ∨ compare x y ≤ 0.

Lemma left_le p x : total_preorder compare → left_of p x → compare x p ≤ 0.
Proof. intros (_ & _ & H) [Hl|Hl]; [|done]. apply H in Hl. lia. Qed.

Lemma right_le p x : total_preorder compare → right_of p x → compare p x ≤ 0.
Proof. intros (_ & _ & H) [Hl|Hl]; [|done]. apply H in Hl. lia. Qed.

Lemma compare_refl x : total_preorder compare → compare x x ≤ 0.
Proof. intros (H & _). by destruct (H x x). Qed.

Lemma ordered_split a a' b e rest segs m p :
  total_preorder compare → ordered a ((b, e) :: rest) → disjoint_segs ((b, e) :: rest) →
  shuffled b e a a' → b ≤ m ≤ e → get a' m = Some p →
  all_in a' b (m - 1) (left_of p) → all_in a' (m + 1) e (right_of p) →
  (∀ t, t ∈ rest → t ∈ segs) → ((b, m - 1) ∈ segs ∨ m - 1 ≤ b) → ((m + 1, e) ∈ segs ∨ e ≤ m + 1) →
  ordered a' segs.
Proof.
  intros Hc Ho [Hd _] [_ O I] Hm Hp HL HR Hrest Hl Hr i j x y Hij Hx Hy.
  assert (Hout : ∀ i j x y, i < j → get a i = Some x → get a j = Some y → ¬ (inseg b e i ∧ inseg b e j) →
    (∃ s, s ∈ rest ∧ inside s i ∧ inside s j) ∨ compare x y ≤ 0).
  { intros i' j' x' y' H1 H2 H3 H4. destruct (Ho i' j' x' y' H1 H2 H3) as [(s & Hs & Hi & Hj)|]; [|by right].
    apply elem_of_cons in Hs as [->|Hs]; [by destruct H4|left; eauto]. }
  destruct (decide (b ≤ i ≤ e)) as [Hi|Hi], (decide (b ≤ j ≤ e)) as [Hj|Hj].
  - destruct (decide (j < m)) as [Hjm|Hjm].
    { destruct Hl as [Hl|Hl]; [|lia]. left. exists (b, m - 1). unfold inside, inseg; simpl. split; [exact Hl|lia]. }
    destruct (decide (m < i)) as [Hmi|Hmi].
    { destruct Hr as [Hr|Hr]; [|lia]. left. exists (m + 1, e). unfold inside, inseg; simpl. split; [exact Hr|lia]. }
    right. destruct Hc as (H1 & H2 & H3). assert (Hc : total_preorder compare) by done. apply (H2 x p y).
    + destruct (decide (i = m)) as [->|]; [|apply left_le; [done|]; by apply (HL i); [lia|]].
      replace x with p by congruence. by apply compare_refl.
    + destruct (decide (j = m)) as [->|]; [|apply right_le; [done|]; by apply (HR j); [lia|]].
      replace y with p by congruence. by apply compare_refl.
  - destruct (I i Hi) as (i' & Hi' & He). rewrite He in Hx. rewrite O in Hy by done.
    destruct (Hout i' j x y) as [(s & Hs & H1 & H2)|]; [unfold inseg in *; lia|done|done|by intros []| |by right].
    exfalso. by apply (Hd s i').
  - destruct (I j Hj) as (j' & Hj' & He). rewrite He in Hy. rewrite O in Hx by done.
    destruct (Hout i j' x y) as [(s & Hs & H1 & H2)|]; [unfold inseg in *; lia|done|done|by intros []| |by right].
    exfalso. by apply (Hd s j').
  - rewrite O in Hx, Hy by done. destruct (Hout i j x y) as [(s & Hs & H1 & H2)|]; try done; [by intros []| |by right].
    left. exists s. by split; [apply Hrest|].
Qed.

(** the segments after a split: a part of the old one, and perhaps a second one
    that is pushed; [depth] is what keeps the stack from overflowing *)
Lemma split_segments n b e stack m (left_first : bool) :
  Forall (seg_ok n) ((b, e) :: stack) → disjoint_segs ((b, e) :: stack) → halved n ((b, e) :: stack) →
  b < e → b ≤ m ≤ e → n < 2 ^ 64 → (if left_first then m - b ≤ e - m else e - m < m - b) →
  let cur := if left_first then (b, m - 1) else (m + 1, e) in
  let other := if left_first then (m + 1, e) else (b, m - 1) in
  let st' := if 2 <=? size other then other :: stack else stack in
  (if 2 <=? size other then push stack other else Some stack) = Some st' ∧
  Forall (seg_ok n) (cur :: st') ∧ disjoint_segs (cur :: st') ∧ halved n (cur :: st') ∧
  work (cur :: st') + 1 ≤ work ((b, e) :: stack).
Proof.
  intros Hok [Hd Hds] [Hh Hhs] Hbe Hm Hn Hf cur other st'. apply Forall_cons in Hok as [(H1 & H2 & H3) Hok].
  simpl in H1, H2, H3, Hh. unfold size in Hh. simpl in Hh.
  pose proof (Z.pow_pos_nonneg 2 (Z.of_nat (length stack)) ltac:(lia) ltac:(lia)) as Hpow.
  assert (Hco : cur.2 - cur.1 + 1 + (other.2 - other.1 + 1) = e - b ∧ b ≤ cur.1 ∧ cur.2 ≤ e ∧ cur.1 ≤ cur.2 + 1 ∧
    b ≤ other.1 ∧ other.2 ≤ e ∧ other.1 ≤ other.2 + 1 ∧ cur.2 - cur.1 + 1 ≤ other.2 - other.1 + 1 ∧
    (cur.2 < other.1 ∨ other.2 < cur.1)).
  { unfold cur, other. destruct left_first; simpl; lia. }
  clearbody cur other. destruct cur as [cb ce], other as [ob oe]. simpl in Hco.
  destruct Hco as (C1 & C2 & C3 & C4 & C5 & C6 & C7 & C8 & C9).
  assert (Hdis : ∀ b' e' t i, b ≤ b' → e' ≤ e → t ∈ stack → inside (b', e') i → inside t i → False).
  { intros b' e' t i Hb' He' Ht Hi. apply (Hd t i Ht). unfold inside, inseg in *. simpl in *. lia. }
  destruct (Z.leb_spec 2 (size (ob, oe))) as [Hsz|Hsz]; unfold size in Hsz; simpl in Hsz; unfold st'.
  - split_and!.
    + unfold push. destruct (Z.ltb_spec (Z.of_nat (length stack)) QSORT_STACK_SIZE) as [|Hge]; [done|exfalso].
      unfold QSORT_STACK_SIZE in Hge. pose proof (Z.pow_le_mono_r 2 (8 * 8) (Z.of_nat (length stack)) ltac:(lia) Hge).
      change (2 ^ (8 * 8)) with (2 ^ 64) in *. nia.
    + repeat constructor; simpl; try lia. done.
    + simpl. split_and!; [|by intros; eapply (Hdis ob oe)|done].
      intros t i [->|Ht]%elem_of_cons Hi Hi2; [unfold inside, inseg in *; simpl in *; lia|by eapply (Hdis cb ce)].
    + cbn [halved length]. unfold size. simpl. rewrite Nat2Z.inj_succ, Z.pow_succ_r, Z.mul_assoc by lia.
      split_and!; [| |done]; (etrans; [apply Z.mul_le_mono_nonneg_r with (m := e - b + 1); lia|done]).
    + cbn [work]. unfold size. cbn [fst snd]. lia.
  - split_and!; [done| | | |].
    + repeat constructor; simpl; try lia. done.
    + simpl. split; [|done]. by intros; eapply (Hdis cb ce).
    + cbn [halved]. unfold size. simpl. split; [|done].
      etrans; [apply Z.mul_le_mono_nonneg_r with (m := e - b + 1); lia|done].
    + cbn [work]. unfold size. cbn [fst snd]. lia.
Qed.

Lemma qsort_loop_spec fuel siz a stack b e :
  0 < siz → Z.of_nat (length a) < 2 ^ 64 → Forall (seg_ok (Z.of_nat (length a))) ((b, e) :: stack) →
  disjoint_segs ((b, e) :: stack) → halved (Z.of_nat (length a)) ((b, e) :: stack) →
  work ((b, e) :: stack) ≤ Z.of_nat fuel →
  ∃ a', qsort_loop fuel siz compare a stack b e = Some a' ∧ a' ≡ₚ a ∧
    (total_preorder compare → ordered a ((b, e) :: stack) → ordered a' []).
Proof.
  intros Hsiz. revert a stack b e. induction fuel as [|fuel IH]; intros a stack b e Hn Hok Hd Hh Hw;
    pose proof Hok as [(H1 & H2 & H3) Hok']%Forall_cons; simpl in H1, H2, H3;
    assert (Hw0 : ∀ n st, Forall (seg_ok n) st → 0 ≤ work st)
      by (intros n' st Hst; induction Hst as [|[] ? (? & ? & ?)]; simpl in *; unfold size; simpl; lia);
    pose proof (Hw0 _ _ Hok').
  { simpl in Hw. unfold size in Hw. simpl in Hw. lia. }
  cbn [qsort_loop]. destruct (Z.ltb_spec b e) as [Hbe|Hbe].
  - destruct (split_spec siz a stack b e Hsiz H1 Hbe H2) as (a' & m & p & Hsh & Hm & Hp & HL & HR & ->).
    pose proof (shuffled_length _ _ _ _ Hsh) as Hlen.
    destruct (Z.leb_spec (m - b) (e - m)) as [Hlr|Hlr].
    + destruct (split_segments _ b e stack m true Hok Hd Hh Hbe Hm Hn Hlr) as (Hpush & Hok2 & Hd2 & Hh2 & Hw2).
      cbv zeta in *. assert (Hcond : (m + 1 <? e) = (2 <=? size (m + 1, e))) by (unfold size; simpl; lia).
      rewrite Hcond, Hpush. cbn [fmap option_fmap option_map]. set (st' := if 2 <=? size (m + 1, e) then (m + 1, e) :: stack else stack) in *.
      rewrite <-Hlen in *. destruct (IH a' st' b (m - 1) Hn Hok2 Hd2 Hh2) as (a2 & Hrun & Hperm & Hord); [lia|].
      exists a2. split; [exact Hrun|]. split; [rewrite Hperm; apply Hsh|]. intros Hc Ho. apply Hord; [done|].
      eapply (ordered_split a a' b e stack _ m p); try done.
      * intros t Ht. right. unfold st'. case_match; [by right|done].
      * left. left.
      * unfold st'. destruct (Z.leb_spec 2 (size (m + 1, e))) as [|Hs]; [left; right; left|right; unfold size in Hs; simpl in Hs; lia].
    + destruct (split_segments _ b e stack m false Hok Hd Hh Hbe Hm Hn Hlr) as (Hpush & Hok2 & Hd2 & Hh2 & Hw2).
      cbv zeta in *. assert (Hcond : (m - 1 >? b) = (2 <=? size (b, m - 1))).
      { unfold size. simpl. apply eq_true_iff_eq. rewrite Z.gtb_lt, Z.leb_le. lia. }
      rewrite Hcond, Hpush. cbn [fmap option_fmap option_map]. set (st' := if 2 <=? size (b, m - 1) then (b, m - 1) :: stack else stack) in *.
      rewrite <-Hlen in *. destruct (IH a' st' (m + 1) e Hn Hok2 Hd2 Hh2) as (a2 & Hrun & Hperm & Hord); [lia|].
      exists a2. split; [exact Hrun|]. split; [rewrite Hperm; apply Hsh|]. intros Hc Ho. apply Hord; [done|].
      eapply (ordered_split a a' b e stack _ m p); try done.
      * intros t Ht. right. unfold st'. case_match; [by right|done].
      * unfold st'. destruct (Z.leb_spec 2 (size (b, m - 1))) as [|Hs]; [left; right; left|right; unfold size in Hs; simpl in Hs; lia].
      * left. left.
  - assert (Hdrop : ∀ segs, ordered a ((b, e) :: segs) → ordered a segs).
    { intros segs Ho i j x y Hij Hx Hy. destruct (Ho i j x y Hij Hx Hy) as [(s & Hs & Hi & Hj)|]; [|by right].
      apply elem_of_cons in Hs as [->|Hs]; [unfold inside, inseg in *; simpl in *; lia|left; eauto]. }
    destruct stack as [|[b2 e2] stack].
    + exists a. split; [done|]. split; [done|]. intros _ Ho. by apply Hdrop.
    + destruct (IH a stack b2 e2 Hn Hok') as (a2 & Hrun & Hperm & Hord); [apply Hd|apply Hh| |].
      { simpl in *. unfold size in *. simpl in *. lia. }
      exists a2. split; [exact Hrun|]. split; [done|]. intros Hc Ho. apply Hord; [done|]. by apply Hdrop.
Qed.

Lemma ordered_sorted a : ordered a [] → StronglySorted (λ x y, compare x y ≤ 0) a.
Proof.
  intros Ho.
  assert (H : ∀ i j x y, (i < j)%nat → a !! i = Some x → a !! j = Some y → compare x y ≤ 0).
  { intros i j x y Hij Hx Hy.
    destruct (Ho (Z.of_nat i) (Z.of_nat j) x y) as [(s & Hs & _)|];
      [lia|by rewrite get_of_nat..|by apply elem_of_nil in Hs|done]. }
  clear Ho. induction a as [|x a IH]; constructor.
  - apply IH. intros i j y z Hij Hy Hz. apply (H (S i) (S j)); [lia|done|done].
  - apply Forall_forall. intros y [j Hj]%list_elem_of_lookup. apply (H 0%nat (S j)); [lia|done|done].
Qed.

Lemma zend_qsort_spec siz a :
  0 < siz → Z.of_nat (length a) < 2 ^ 64 →
  ∃ a', zend_qsort siz a compare = Some a' ∧ a' ≡ₚ a ∧
    (total_preorder compare → StronglySorted (λ x y, compare x y ≤ 0) a').
Proof.
  intros Hs Hn. unfold zend_qsort, zend_qsort_r.
  destruct (qsort_loop_spec (2 * length a + 2) siz a [] 0 (Z.of_nat (length a) - 1)) as (a' & Hrun & Hp & Ho); try done.
  - repeat constructor; simpl; lia.
  - simpl. split; [|done]. by intros ? ? ?%elem_of_nil.
  - simpl. split; [|done]. unfold size. simpl. lia.
  - simpl. unfold size. simpl. lia.
  - exists a'. split; [done|]. split; [done|]. intros Hc. apply ordered_sorted, Ho; [done|].
    intros i j x y Hij Hx%get_range Hy%get_range. left. exists (0, Z.of_nat (length a) - 1).
    unfold inside, inseg. simpl. split; [left|lia].
Qed.

End spec.

End qsort.

(** ** The interface of the sort functions *)

(** the sort function that [zend_hash_sort] is given: an array of pointers *)
Definition zend_qsort_ptrs : sort_func_t := λ A compar l, zend_qsort sizeof_ptr l compar.

#[export] Instance zend_qsort_sorting : Sorting zend_qsort_ptrs.
Proof.
  split.
  - intros A c l Hl. destruct (zend_qsort_spec c sizeof_ptr l) as (l' & H1 & H2 & _); [done|lia|]. by exists l'.
  - intros A c l l' Hl Hc Hs. destruct (zend_qsort_spec c sizeof_ptr l) as (l2 & H1 & _ & H2); [done|lia|].
    unfold zend_qsort_ptrs in Hs. rewrite H1 in Hs. injection Hs as <-. by apply H2.
Qed.
