(* ===== verification/SortSpec.v ===== *)
(** * Sorting: [zend_qsort] and [zend_hash_sort]

    [zend_qsort] meets the interface [Sorting] that [zend_hash_sort] relies on. *)

From Stdlib.Strings Require Import (notations) String.
From S2P Require Import Prelude DList HashModel HashRepr HashFacts HashInsert HashOps HashLoops HashCopy HashSort.
From S2P Require Import HashWalk HashNumeric HashSpec Qsort.
Local Open Scope Z_scope.
Local Open Scope effect_scope.

(** A table whose only element has the interned key [s] is sorted with
    renumbering, and [s] is looked up again; the result is what was found and the
    key length of the bucket 1. *)
Definition stale_key_demo (s : bytes) : HM Z (option ptr * Z * Z) :=
  let len := Z.of_nat (length s) in
  let! '(ht, _, _) := zend_hash_update (_zend_hash_init 8 true false) (KInterned s) len 10 8 in
  let! ht := zend_hash_sort ht zend_qsort_ptrs (λ b1 b2, data_val (pData b1) - data_val (pData b2)) true in
  let! p := zend_hash_find ht (KInterned s) len in
  let! b := load 1%positive in
  ret (p, nKeyLength b, b_h b).

(** ** Swapping bytes *)

Lemma swap_ints_spec fuel i siz ra rb a b :
  length a = length b → Z.of_nat (length a) = siz - (i - 4) → 
  ∃ i' ra' rb' a' b', swap_ints fuel i siz ra rb a b = (i', ra', rb', a', b') ∧
    length a' = length b' ∧ Z.of_nat (length a') = siz - (i' - 4) ∧
    rev ra' ++ b' = rev ra ++ b ∧ rev rb' ++ a' = rev rb ++ a.
Proof.
  revert i ra rb a b. induction fuel as [|fuel IH]; intros i ra rb a b Hl Hi; cbn [swap_ints].
  { by exists i, ra, rb, a, b. }
  destruct (Z.leb_spec i siz) as [Hle|Hgt]; [|by exists i, ra, rb, a, b].
  destruct (IH (i + 4) (rev (take 4 b) ++ ra) (rev (take 4 a) ++ rb) (drop 4 a) (drop 4 b))
    as (i' & ra' & rb' & a' & b' & Hrun & H1 & H2 & H3 & H4).
  { rewrite !length_drop. lia. } { rewrite length_drop. lia. }
  exists i', ra', rb', a', b'. split; [done|]. split; [done|]. split; [done|].
  rewrite H3, H4, !rev_app_distr, !rev_involutive, <-!app_assoc, !take_drop. done.
Qed.

Lemma swap_chars_spec fuel i siz ra rb a b :
  length a = length b → Z.of_nat (length a) = siz - i + 1 → (length a < fuel)%nat →
  swap_chars fuel i siz ra rb a b = (rev ra ++ b, rev rb ++ a).
Proof.
  revert i ra rb a b. induction fuel as [|fuel IH]; intros i ra rb a b Hl Hi Hf; [lia|]. cbn [swap_chars].
  destruct (Z.leb_spec i siz) as [Hle|Hgt].
  - destruct a as [|x a], b as [|y b]; simpl in *; try lia.
    rewrite IH by lia. simpl. by rewrite <-!app_assoc.
  - destruct a, b; simpl in *; try lia. done.
Qed.

(** ** Properties *)

(** [_zend_qsort_swap], by whole [int]s and then by [char]s, exchanges two
    disjoint objects of any size. *)
Theorem qsort_swap_correct a b :
  length a = length b → _zend_qsort_swap a b (Z.of_nat (length a)) = (b, a).
Proof.
  intros Hl. unfold _zend_qsort_swap.
  destruct (swap_ints_spec (S (Z.to_nat (Z.of_nat (length a)))) 4 (Z.of_nat (length a)) [] [] a b Hl ltac:(lia))
    as (i & ra & rb & a' & b' & -> & H1 & H2 & H3 & H4).
  pose proof (f_equal length H4) as Hlen. rewrite !length_app in Hlen. simpl in Hlen.
  rewrite swap_chars_spec by lia. simpl in H3, H4. by rewrite H3, H4.
Qed.

Lemma qsort_swap_correct_witness :
  _zend_qsort_swap (str "abcdef"%string) (str "ABCDEF"%string) 6 = (str "ABCDEF"%string, str "abcdef"%string).
Proof. exact (qsort_swap_correct (str "abcdef"%string) (str "ABCDEF"%string) eq_refl). Defined.

(** C17: [zend_qsort] terminates on every array, whatever the comparison answers,
    never reads outside the array nor overflows its stack of 64 pending segments,
    and permutes the elements; with a total preorder the result is sorted. *)
Theorem zend_qsort_correct {A} (compare : A → A → Z) siz a :
  0 < siz → Z.of_nat (length a) < 2 ^ 64 →
  ∃ a', zend_qsort siz a compare = Some a' ∧ a' ≡ₚ a ∧
    (total_preorder compare → StronglySorted (λ x y, compare x y ≤ 0) a').
Proof. apply zend_qsort_spec. Qed.

Lemma zend_qsort_correct_witness :
  ∃ a', zend_qsort 4 [3; 1; 2] Z.sub = Some a' ∧ a' ≡ₚ [3; 1; 2] ∧
    (total_preorder Z.sub → StronglySorted (λ x y, Z.sub x y ≤ 0) a').
Proof. apply (zend_qsort_correct Z.sub 4 [3; 1; 2]); vm_compute; done. Defined.

(** C18: [zend_hash_sort] with [zend_qsort] reorders the global list into a sorted
    permutation of the elements, in the same buckets, and moves the internal
    pointer to the first one; with [renumber] the keys become 0, 1, 2, ... and
    [nNextFreeElement] their number. *)
Theorem hash_sort_correct {V} w ht order (es : list (key * V)) compar c (renum : bool) :
  tbl w ht order es → compares compar c → (if renum then order ≠ [] else (2 ≤ length order)%nat) →
  ∃ w' ht' order' es', zend_hash_sort ht zend_qsort_ptrs compar renum w = Done ht' w' ∧
    es' ≡ₚ es ∧ order' ≡ₚ order ∧ StronglySorted (λ x y, c x y ≤ 0) es' ∧
    mem_ok w' ∧ repr (cells w') ht' order' (if renum then renumber false 0 es' else es') ∧
    (renum = false → clean (cells w') order') ∧ evolves w order w' order' ∧ trace w' = trace w ∧
    pInternalPointer ht' = head order' ∧ ht_cfg ht' = ht_cfg ht ∧
    nNextFreeElement ht' = if renum then renumbered false 0 es' else nNextFreeElement ht.
Proof. intros Ht Hc Hl. apply (sort_spec zend_qsort_ptrs); [done|done|]. by destruct renum. Qed.

Definition by_value (b1 b2 : Bucket Z) : Z := data_val (pData b1) - data_val (pData b2).

Lemma by_value_compares : compares by_value (λ x y, x.2 - y.2).
Proof. split; [|done]. unfold total_preorder. split_and!; intros; lia. Qed.

Lemma hash_sort_correct_witness :
  ∃ w' ht' order' es', zend_hash_sort sample2.2 zend_qsort_ptrs by_value true sample2.1 = Done ht' w' ∧
    es' ≡ₚ sample_es ∧ repr (cells w') ht' order' (renumber false 0 es').
Proof.
  destruct (hash_sort_correct sample2.1 sample2.2 [1%positive; 2%positive] sample_es by_value (λ x y, x.2 - y.2) true)
    as (w' & ht' & o' & es' & H1 & H2 & _ & _ & _ & H3 & _); [apply sample_tbl|apply by_value_compares|done|].
  exists w', ht', o', es'. exact (conj H1 (conj H2 H3)).
Defined.

