(* ===== verification/LListModel.v ===== *)
(** * [Zend/zend_llist.c]: the doubly linked list, operation by operation

    Elements are objects of a memory and hold a copy of the caller's data, of
    type [V]; the trace of the memory is the sequence of destructor calls. *)

From S2P Require Import Prelude DList HashModel.
Local Open Scope Z_scope.
Local Open Scope effect_scope.

Record zend_llist_element (V : Type) : Type := MkElement {
  next : option ptr;
  prev : option ptr;
  data_ : V
}.
Arguments MkElement {V}. Arguments next {V}. Arguments prev {V}. Arguments data_ {V}.

Record zend_llist : Type := MkList {
  l_head : option ptr;
  l_tail : option ptr;
  count : Z;
  l_size : Z;
  l_dtor : bool;
  l_persistent : bool;
  traverse_ptr : option ptr
}.

Section setters.
Context {V : Type}.
Implicit Type e : zend_llist_element V.
Definition set_next x e := MkElement x (prev e) (data_ e).
Definition set_prev x e := MkElement (next e) x (data_ e).
Definition set_data_ (x : V) e := MkElement (next e) (prev e) x.
End setters.

Definition set_l_head x l := MkList x (l_tail l) (count l) (l_size l) (l_dtor l) (l_persistent l) (traverse_ptr l).
Definition set_l_tail x l := MkList (l_head l) x (count l) (l_size l) (l_dtor l) (l_persistent l) (traverse_ptr l).
Definition set_count x l := MkList (l_head l) (l_tail l) x (l_size l) (l_dtor l) (l_persistent l) (traverse_ptr l).
Definition set_traverse_ptr x l := MkList (l_head l) (l_tail l) (count l) (l_size l) (l_dtor l) (l_persistent l) x.

Definition ll {V} : Linked (zend_llist_element V).
Proof. refine {| nx := next; pv := prev; set_nx := set_next; set_pv := set_prev |}; done. Defined.

Section operations.
Context {V : Type}.
Implicit Types (l : zend_llist) (e : zend_llist_element V) (p : ptr).
Abbreviation LM := (M (mem (zend_llist_element V) V)).

(** [traverse_ptr] is not written: it keeps whatever the object held. *)
Definition zend_llist_init l (size : Z) (dtor persistent : bool) : zend_llist :=
  MkList None None 0 size dtor persistent (traverse_ptr l).

Definition zend_llist_add_element l (element : V) : LM zend_llist :=
  let! tmp := alloc (MkElement None (l_tail l) element) in
  let! l := store_or (l_tail l) (set_next (Some tmp)) l (set_l_head (Some tmp) l) in
  let l := set_l_tail (Some tmp) l in
  ret (set_count (u64 (count l + 1)) l).

Definition zend_llist_prepend_element l (element : V) : LM zend_llist :=
  let! tmp := alloc (MkElement (l_head l) None element) in
  let! l := store_or (l_head l) (set_prev (Some tmp)) l (set_l_tail (Some tmp) l) in
  let l := set_l_head (Some tmp) l in
  ret (set_count (u64 (count l + 1)) l).

Definition call_ldtor l (v : V) : LM unit := if l_dtor l then emit v else ret tt.

Definition DEL_LLIST_ELEMENT (current : ptr) l : LM zend_llist :=
  let! e := load current in
  let! l := store_or (prev e) (set_next (next e)) l (set_l_head (next e) l) in
  let! l := store_or (next e) (set_prev (prev e)) l (set_l_tail (prev e) l) in
  call_ldtor l (data_ e) ;;;
  free current ;;;
  ret (set_count (u64 (count l - 1)) l).

(** [while (current) { if (compare(current->data, element)) ...; }] *)
Fixpoint del_element_loop (fuel : nat) (compare : V → bool) l (current : option ptr) : LM zend_llist :=
  match current with
  | None => ret l
  | Some p =>
      match fuel with
      | O => stuck
      | S fuel' =>
          let! e := load p in
          if compare (data_ e) then DEL_LLIST_ELEMENT p l
          else del_element_loop fuel' compare l (next e)
      end
  end.

(** [compare] is the comparison with the caller's element. *)
Definition zend_llist_del_element l (compare : V → bool) : LM zend_llist :=
  let! fuel := get_fuel in del_element_loop fuel compare l (l_head l).

Fixpoint ldestroy_loop (fuel : nat) l (current : option ptr) : LM unit :=
  match current with
  | None => ret tt
  | Some p =>
      match fuel with
      | O => stuck
      | S fuel' =>
          let! e := load p in
          call_ldtor l (data_ e) ;;;
          free p ;;;
          ldestroy_loop fuel' l (next e)
      end
  end.

(** The list keeps its head and tail, which are freed. *)
Definition zend_llist_destroy l : LM zend_llist :=
  let! fuel := get_fuel in
  ldestroy_loop fuel l (l_head l) ;;;
  ret (set_count 0 l).

Definition zend_llist_clean l : LM zend_llist :=
  let! l := zend_llist_destroy l in
  ret (set_l_head None (set_l_tail None l)).

(** The result is the address of the element whose data is returned. *)
Definition zend_llist_remove_tail l : LM (zend_llist * option ptr) :=
  match l_tail l with
  | None => ret (l, None)
  | Some old_tail =>
      let! e := load old_tail in
      let! l := store_or (prev e) (set_next None) l (set_l_head None l) in
      let l := set_l_tail (prev e) l in
      call_ldtor l (data_ e) ;;;
      free old_tail ;;;
      ret (set_count (u64 (count l - 1)) l, Some old_tail)
  end.

Fixpoint lcopy_loop (fuel : nat) (dst : zend_llist) (p : option ptr) : LM zend_llist :=
  match p with
  | None => ret dst
  | Some p =>
      match fuel with
      | O => stuck
      | S fuel' =>
          let! e := load p in
          let! dst := zend_llist_add_element dst (data_ e) in
          let! e := load p in
          lcopy_loop fuel' dst (next e)
      end
  end.

Definition zend_llist_copy (dst src : zend_llist) : LM zend_llist :=
  let dst := zend_llist_init dst (l_size src) (l_dtor src) (l_persistent src) in
  let! fuel := get_fuel in
  lcopy_loop fuel dst (l_head src).

(** Callbacks share a state [a] with the caller and may write the data. *)
Fixpoint apply_with_del_loop {A} (fuel : nat) (func : A → V → A * V * bool) (a : A) l (element : option ptr)
    : LM (A * zend_llist) :=
  match element with
  | None => ret (a, l)
  | Some p =>
      match fuel with
      | O => stuck
      | S fuel' =>
          let! e := load p in
          let '(a, v, r) := func a (data_ e) in
          store p (set_data_ v) ;;;
          let! l := (if r then DEL_LLIST_ELEMENT p l else ret l) in
          apply_with_del_loop fuel' func a l (next e)
      end
  end.

Definition zend_llist_apply_with_del {A} l (func : A → V → A * V * bool) (a : A) : LM (A * zend_llist) :=
  let! fuel := get_fuel in apply_with_del_loop fuel func a l (l_head l).

Fixpoint lapply_loop {A} (fuel : nat) (func : A → V → A * V) (a : A) (element : option ptr) : LM A :=
  match element with
  | None => ret a
  | Some p =>
      match fuel with
      | O => stuck
      | S fuel' =>
          let! e := load p in
          let '(a, v) := func a (data_ e) in
          store p (set_data_ v) ;;;
          let! e := load p in
          lapply_loop fuel' func a (next e)
      end
  end.

Definition zend_llist_apply {A} l (func : A → V → A * V) (a : A) : LM A :=
  let! fuel := get_fuel in lapply_loop fuel func a (l_head l).
Definition zend_llist_apply_with_argument {A} l (func : V → A → A * V) (arg : A) : LM A :=
  let! fuel := get_fuel in lapply_loop fuel (λ a v, func v a) arg (l_head l).
Definition zend_llist_apply_with_arguments {A B} l (func : V → list B → A → A * V) (args : list B) (a : A) : LM A :=
  let! fuel := get_fuel in lapply_loop fuel (λ a v, func v args a) a (l_head l).

(** [for (element=l->head; element; element=element->next) *ptr++ = element;] *)
Fixpoint lcollect_loop (fuel : nat) (element : option ptr) : LM (list (ptr * zend_llist_element V)) :=
  match element with
  | None => ret []
  | Some p =>
      match fuel with
      | O => stuck
      | S fuel' =>
          let! e := load p in
          let! elements := lcollect_loop fuel' (next e) in
          ret ((p, e) :: elements)
      end
  end.

(** [for (i = 1; i < l->count; i++) { ... }] and the store after it; [p] is
    [elements[i-1]] *)
Fixpoint lrelink_loop (p : ptr) (elements : list ptr) : LM ptr :=
  match elements with
  | [] => store p (set_next None) ;;; ret p
  | q :: elements' =>
      store q (set_prev (Some p)) ;;;
      store p (set_next (Some q)) ;;;
      lrelink_loop q elements'
  end.

(** The array has [l->count] entries, which the elements have to fill. *)
Definition zend_llist_sort (zend_qsort : sort_func_t) l (comp_func : zend_llist_element V → zend_llist_element V → Z)
    : LM zend_llist :=
  if count l <=? 0 then ret l
  else
    let! fuel := get_fuel in
    let! elements := lcollect_loop fuel (l_head l) in
    if negb (Z.of_nat (length elements) =? count l) then stuck
    else
      let! elements := of_option (zend_qsort _ (λ x y, comp_func x.2 y.2) elements) in
      match fst <$> elements with
      | [] => stuck
      | p :: elements' =>
          let l := set_l_head (Some p) l in
          store p (set_prev None) ;;;
          let! q := lrelink_loop p elements' in
          ret (set_l_tail (Some q) l)
      end.

Definition zend_llist_count l : Z := s32 (count l).

(** A [zend_llist_position *pos]: [None] is [NULL] and means [traverse_ptr]. *)
Definition lpos_get l (pos : option (option ptr)) : option ptr :=
  match pos with Some c => c | None => traverse_ptr l end.
Definition lpos_set l (pos : option (option ptr)) (c : option ptr) : zend_llist * option (option ptr) :=
  match pos with Some _ => (l, Some c) | None => (set_traverse_ptr c l, None) end.

(** The last component is the element whose data is returned. *)
Definition zend_llist_get_first_ex l (pos : option (option ptr)) : zend_llist * option (option ptr) * option ptr :=
  (lpos_set l pos (l_head l), l_head l).
Definition zend_llist_get_last_ex l (pos : option (option ptr)) : zend_llist * option (option ptr) * option ptr :=
  (lpos_set l pos (l_tail l), l_tail l).

Definition zend_llist_get_next_ex l (pos : option (option ptr)) : LM (zend_llist * option (option ptr) * option ptr) :=
  match lpos_get l pos with
  | Some p => let! e := load p in ret (lpos_set l pos (next e), next e)
  | None => ret (l, pos, None)
  end.
Definition zend_llist_get_prev_ex l (pos : option (option ptr)) : LM (zend_llist * option (option ptr) * option ptr) :=
  match lpos_get l pos with
  | Some p => let! e := load p in ret (lpos_set l pos (prev e), prev e)
  | None => ret (l, pos, None)
  end.

End operations.

#[global] Abbreviation LM V := (M (mem (zend_llist_element V) V)).
