(* ===== verification/LListSpec.v ===== *)
(** * The contract of linked lists

    [llist w l order vs]: in memory [w] the list [l] is well formed, its elements
    are at the addresses [order] and hold the values [vs].  Every operation
    refines one on lists of values. *)

From S2P Require Import Prelude DList HashModel HashSort Qsort LListModel.
Local Open Scope Z_scope.

Definition datas {V} (h : gmap ptr (zend_llist_element V)) (order : list ptr) (vs : list V) : Prop :=
  Forall2 (λ p v, data_ <$> h !! p = Some v) order vs.

Record llist {V} (w : mem (zend_llist_element V) V) (l : zend_llist) (order : list ptr) (vs : list V) : Prop := {
  ll_mem : mem_ok w;
  ll_nodup : NoDup order;
  ll_seg : seg ll (cells w) None order None;
  ll_head : l_head l = head order;
  ll_tail : l_tail l = last order;
  ll_count : count l = Z.of_nat (length order);
  ll_max : Z.of_nat (length order) < 2 ^ 64;
  ll_data : datas (cells w) order vs
}.

Definition ldtors {V} (l : zend_llist) (vs : list V) : list V := if l_dtor l then vs else [].

(** what no operation changes *)
Definition l_cfg (l : zend_llist) := (l_size l, l_dtor l, l_persistent l).

(** What an operation on the elements [order] may change: not the elements of
    other lists, and its new elements are new. *)
Record levolves {V} (w : mem (zend_llist_element V) V) (order : list ptr) (w' : mem (zend_llist_element V) V) (order' : list ptr) : Prop := {
  le_frame : ∀ q, q ∉ order → is_Some (cells w !! q) → cells w' !! q = cells w !! q;
  le_brk : (brk w ≤ brk w')%positive;
  le_new : ∀ q, q ∈ order' → q ∈ order ∨ (brk w ≤ q)%positive
}.

(** remove the first value that satisfies [compare] *)
Fixpoint remove_first {V} (compare : V → bool) (vs : list V) : list V * list V :=
  match vs with
  | [] => ([], [])
  | v :: vs' => if compare v then (vs', [v]) else let '(r, d) := remove_first compare vs' in (v :: r, d)
  end.

(** the state, the values kept and the values deleted *)
Fixpoint filter_spec {V A} (func : A → V → A * V * bool) (a : A) (vs : list V) : A * list V * list V :=
  match vs with
  | [] => (a, [], [])
  | v :: vs' =>
      let '(a, v', r) := func a v in
      let '(a, kept, dead) := filter_spec func a vs' in
      if r then (a, kept, v' :: dead) else (a, v' :: kept, dead)
  end.

Section lemmas.
Context {V : Type}.
Implicit Types (w : mem (zend_llist_element V) V) (l : zend_llist) (p q : ptr) (order : list ptr) (vs : list V).
Implicit Types (h : gmap ptr (zend_llist_element V)).

Lemma datas_agree h h' order vs : agree data_ h h' order → datas h order vs → datas h' order vs.
Proof.
  intros Hag Hd. unfold datas. induction Hd as [|p v order vs Hp _ IH]; [constructor|]. constructor.
  - rewrite (Hag p); [done|left].
  - apply IH. eapply agree_subset; [|done]. by right.
Qed.

Lemma llist_live w l order vs p : llist w l order vs → p ∈ order → is_Some (cells w !! p) ∧ (p < brk w)%positive.
Proof.
  intros [Hm _ Hs _ _ _ _ _] Hp. assert (is_Some (cells w !! p)) by (by eapply seg_live). split; [done|]. by apply Hm.
Qed.

Lemma llist_fuel w l order vs : llist w l order vs → (length order < fuel_of w)%nat.
Proof. intros Hl. apply length_lt_brk; [apply Hl|]. intros p Hp. by eapply llist_live. Qed.

Lemma llist_length w l order vs : llist w l order vs → length order = length vs.
Proof. intros [_ _ _ _ _ _ _ Hd]. by eapply Forall2_length. Qed.

Lemma llist_at w l o1 p o2 v1 v v2 :
  llist w l (o1 ++ p :: o2) (v1 ++ v :: v2) → length o1 = length v1 →
  ∃ e, cells w !! p = Some e ∧ data_ e = v ∧ next e = head o2 ∧ prev e = last o1.
Proof.
  intros [_ _ Hs _ _ _ _ Hd] Hl. apply Forall2_app_inv in Hd as [_ Hd]; [|done].
  apply Forall2_cons in Hd as [Hp _]. pose proof (seg_middle _ _ _ _ _ _ _ Hs) as Hlk.
  destruct (cells w !! p) as [e|]; [|done]. simpl in *. injection Hp as Hp. injection Hlk as H1 H2.
  exists e. by rewrite H1, H2, last_or_None, head_or_None.
Qed.

Lemma levolves_refl w order : levolves w order w order.
Proof. split; [done|lia|by left]. Qed.

(** ** Adding *)

Lemma add_element_spec w l order vs v :
  llist w l order vs → Z.of_nat (length order) + 1 < 2 ^ 64 →
  ∃ w' l', zend_llist_add_element l v w = Done l' w' ∧ llist w' l' (order ++ [brk w]) (vs ++ [v]) ∧
    levolves w order w' (order ++ [brk w]) ∧ trace w' = trace w ∧ l_cfg l' = l_cfg l ∧ traverse_ptr l' = traverse_ptr l.
Proof.
  intros Hl Hmax. pose proof Hl as [Hm Hnd Hs Hh Ht Hc _ Hd]. unfold zend_llist_add_element.
  assert (Hp : brk w ∉ order) by (intros [_ ?]%(llist_live _ _ _ _ _ Hl); lia).
  set (w1 := Mem (<[brk w := MkElement None (l_tail l) v]> (cells w)) (Pos.succ (brk w)) (trace w)).
  erewrite (bind_Done _ _ w (brk w) w1) by reflexivity.
  assert (Htl : ∀ q, l_tail l = Some q → q ∈ order ∧ is_Some (cells w1 !! q)).
  { intros q Hq. rewrite Ht in Hq. apply last_Some_elem_of in Hq. split; [done|]. simpl. rewrite lookup_insert.
    case_decide; [done|]. by eapply seg_live. }
  erewrite bind_Done by (apply store_or_Done; intros q Hq; by apply Htl).
  set (h' := alter_opt (l_tail l) (set_next (Some (brk w))) (cells w1)).
  exists (Mem h' (brk w1) (trace w)). eexists. split; [reflexivity|].
  assert (Hdag : agree data_ (cells w) h' order).
  { eapply agree_trans; [by apply agree_insert|]. by apply agree_alter_opt. }
  split; [|split; [|by destruct l as [? []]]].
  - split.
    + intros q. simpl. unfold h'. rewrite is_Some_alter_opt. simpl. rewrite lookup_insert_is_Some.
      intros [<-|[_ Hq%Hm]]; lia.
    + apply NoDup_app. split; [done|]. split; [|apply NoDup_singleton]. by intros q Hq ->%list_elem_of_singleton.
    + unfold h'. rewrite Ht. simpl cells. apply (seg_link_tail ll).
      * apply NoDup_app. split; [done|]. split; [|apply NoDup_singleton]. by intros q Hq ->%list_elem_of_singleton.
      * eapply seg_agree; [by apply agree_insert|done].
      * simpl. rewrite lookup_insert_eq. simpl. by rewrite Ht.
    + simpl. destruct (l_tail l) eqn:Htl2; simpl; rewrite ?Hh; symmetry in Ht.
      * rewrite head_app. by destruct order.
      * apply last_None in Ht as ->. done.
    + simpl. by rewrite last_snoc.
    + rewrite length_app. destruct l as [? []]; simpl in *; unfold u64; rewrite Hc, Z.mod_small; lia.
    + rewrite length_app. simpl. lia.
    + apply Forall2_app; [by eapply datas_agree|]. repeat constructor. simpl. unfold h'.
      rewrite lookup_alter_opt_ne by (intros [? _]%Htl; done). simpl. by rewrite lookup_insert_eq.
  - split; simpl; [|lia|].
    + intros q Hq Hlive. unfold h'. rewrite lookup_alter_opt_ne by (intros [? _]%Htl; done). simpl.
      apply lookup_insert_ne. intros <-. apply Hm in Hlive. lia.
    + intros q [?| ->%list_elem_of_singleton]%elem_of_app; [by left|right; lia].
Qed.

Lemma prepend_element_spec w l order vs v :
  llist w l order vs → Z.of_nat (length order) + 1 < 2 ^ 64 →
  ∃ w' l', zend_llist_prepend_element l v w = Done l' w' ∧ llist w' l' (brk w :: order) (v :: vs) ∧ trace w' = trace w.
Proof.
  intros Hl Hmax. pose proof Hl as [Hm Hnd Hs Hh Ht Hc _ Hd]. unfold zend_llist_prepend_element.
  assert (Hp : brk w ∉ order) by (intros [_ ?]%(llist_live _ _ _ _ _ Hl); lia).
  set (w1 := Mem (<[brk w := MkElement (l_head l) None v]> (cells w)) (Pos.succ (brk w)) (trace w)).
  erewrite (bind_Done _ _ w (brk w) w1) by reflexivity.
  assert (Hhd : ∀ q, l_head l = Some q → q ∈ order ∧ is_Some (cells w1 !! q)).
  { intros q Hq. rewrite Hh in Hq. apply head_Some_elem_of in Hq. split; [done|]. simpl. rewrite lookup_insert.
    case_decide; [done|]. by eapply seg_live. }
  erewrite bind_Done by (apply store_or_Done; intros q Hq; by apply Hhd).
  set (h' := alter_opt (l_head l) (set_prev (Some (brk w))) (cells w1)).
  exists (Mem h' (brk w1) (trace w)). eexists. split; [reflexivity|]. split; [|done].
  assert (Hdag : agree data_ (cells w) h' order).
  { eapply agree_trans; [by apply agree_insert|]. by apply agree_alter_opt. }
  split.
  - intros q. simpl. unfold h'. rewrite is_Some_alter_opt. simpl. rewrite lookup_insert_is_Some.
    intros [<-|[_ Hq%Hm]]; lia.
  - by constructor.
  - unfold h'. rewrite Hh. simpl cells. apply (seg_link_head ll).
    + by constructor.
    + eapply seg_agree; [by apply agree_insert|done].
    + simpl. rewrite lookup_insert_eq. simpl. by rewrite Hh.
  - done.
  - simpl. rewrite last_cons. destruct (l_head l) eqn:Hhd2; simpl; rewrite ?Ht; symmetry in Hh.
    + by destruct order as [|? order _] using rev_ind; [|rewrite last_snoc].
    + apply head_None in Hh as ->. done.
  - cbn [length]. destruct l as [[] ?]; simpl in *; unfold u64; rewrite Hc, Z.mod_small; lia.
  - cbn [length]. lia.
  - constructor; [|by eapply datas_agree]. simpl. unfold h'.
    rewrite lookup_alter_opt_ne by (intros [? _]%Hhd; done). simpl. by rewrite lookup_insert_eq.
Qed.

(** ** Deleting *)

Lemma del_spec w l o1 p o2 v1 v v2 :
  llist w l (o1 ++ p :: o2) (v1 ++ v :: v2) → length o1 = length v1 →
  ∃ w' l', DEL_LLIST_ELEMENT p l w = Done l' w' ∧ llist w' l' (o1 ++ o2) (v1 ++ v2) ∧
    trace w' = trace w ++ ldtors l [v] ∧ cells w' !! p = None ∧ l_cfg l' = l_cfg l ∧ traverse_ptr l' = traverse_ptr l.
Proof.
  intros Hl Hlen. pose proof Hl as [Hm Hnd Hs Hh Ht Hc Hmax Hd].
  destruct (llist_at _ _ _ _ _ _ _ _ Hl Hlen) as (e & He & Hv & Hn & Hp).
  pose proof Hnd as (Hp1 & Hp2 & Hnd')%nodup_middle. unfold DEL_LLIST_ELEMENT.
  rewrite (bind_Done _ _ _ _ _ (load_Done _ _ _ He)).
  assert (Hlive : ∀ q, q ∈ o1 ++ p :: o2 → is_Some (cells w !! q)) by (intros q Hq; by eapply llist_live).
  erewrite bind_Done by (apply store_or_Done; intros q Hq; apply Hlive; rewrite Hp in Hq; apply last_Some_elem_of in Hq; set_solver).
  erewrite bind_Done by (apply store_or_Done; intros q Hq; simpl; rewrite is_Some_alter_opt; apply Hlive;
    rewrite Hn in Hq; apply head_Some_elem_of in Hq; set_solver).
  rewrite Hn, Hp, Hv. cbn [cells with_cells brk trace].
  set (h1 := alter_opt (head o2) (set_prev (last o1)) (alter_opt (last o1) (set_next (head o2)) (cells w))).
  set (l1 := match head o2 with Some _ => _ | None => _ end).
  assert (E : l_cfg l1 = l_cfg l ∧ traverse_ptr l1 = traverse_ptr l ∧ count l1 = count l ∧ l_dtor l1 = l_dtor l ∧
    l_head l1 = (match last o1 with Some _ => l_head l | None => head o2 end) ∧
    l_tail l1 = (match head o2 with Some _ => l_tail l | None => last o1 end)).
  { unfold l1. by destruct (last o1), (head o2). }
  destruct E as (E1 & E2 & E3 & E4 & E5 & E6). clearbody l1.
  set (w2 := Mem h1 (brk w) (trace w ++ ldtors l [v])).
  assert (Hdt : call_ldtor l1 v (Mem h1 (brk w) (trace w)) = Done tt w2).
  { unfold call_ldtor, w2, ldtors. rewrite E4. destruct (l_dtor l); [done|]. unfold ret. by rewrite app_nil_r. }
  rewrite (bind_Done _ _ _ _ _ Hdt).
  assert (Hl1 : ∀ q, is_Some (h1 !! q) ↔ is_Some (cells w !! q)) by (intros q; unfold h1; by rewrite !is_Some_alter_opt).
  erewrite bind_Done by (apply free_Done; apply Hl1; by rewrite He).
  exists (with_cells (delete p) w2). eexists. split; [reflexivity|].
  assert (Hpl : p ∉ o1 ++ o2) by (rewrite elem_of_app; tauto).
  split; [|split_and!; [done|simpl; apply lookup_delete_eq|done|done]].
  assert (Hlast : ∀ (a b : list ptr), last (a ++ b) = match head b with Some _ => last b | None => last a end).
  { intros a b. destruct b as [|y b]; [by rewrite app_nil_r|]. rewrite last_app. simpl head.
    destruct (last (y :: b)) eqn:Hb; [done|]. by apply last_None in Hb. }
  split.
  - intros q. simpl. rewrite lookup_delete_is_Some, Hl1. intros [_ Hq]. by apply Hm.
  - done.
  - simpl. eapply seg_agree; [by apply agree_delete|]. by apply (seg_unlink ll _ _ p).
  - simpl. rewrite E5, Hh, !head_app. destruct o1 as [|x o1]; [done|]. simpl head. by destruct (last (x :: o1)) eqn:Hx; [|apply last_None in Hx].
  - simpl. rewrite E6, Ht, !Hlast. simpl head. destruct o2 as [|y o2]; [done|]. simpl head. rewrite last_cons_cons. done.
  - simpl. rewrite E3, Hc, !length_app in *. cbn [length] in *. unfold u64. rewrite Z.mod_small; lia.
  - rewrite !length_app in *. simpl in Hmax. lia.
  - apply Forall2_app_inv in Hd as [Hd1 Hd2]; [|done]. apply Forall2_cons in Hd2 as [_ Hd2]. simpl.
    eapply datas_agree; [|by apply Forall2_app]. eapply agree_trans; [|by apply agree_delete]. unfold h1. solve_agree.
Qed.

Lemma del_element_loop_spec w l o1 o2 v1 v2 compare fuel :
  llist w l (o1 ++ o2) (v1 ++ v2) → length o1 = length v1 → (length o2 ≤ fuel)%nat →
  ∃ w' l' o2', del_element_loop fuel compare l (head o2) w = Done l' w' ∧
    llist w' l' (o1 ++ o2') (v1 ++ (remove_first compare v2).1) ∧
    trace w' = trace w ++ ldtors l (remove_first compare v2).2.
Proof.
  revert fuel o1 o2 v1. induction v2 as [|v v2 IH]; intros fuel o1 o2 v1 Hl Hlen Hf;
    pose proof (llist_length _ _ _ _ Hl) as Hll; rewrite !length_app in Hll.
  - destruct o2; [|simpl in Hll; lia]. exists w, l, []. split; [by destruct fuel|]. split; [done|].
    unfold ldtors. simpl. destruct (l_dtor l); by rewrite app_nil_r.
  - destruct o2 as [|p o2]; [simpl in Hll; lia|]. destruct fuel as [|fuel]; [simpl in Hf; lia|].
    destruct (llist_at _ _ _ _ _ _ _ _ Hl Hlen) as (e & He & Hv & Hn & _). cbn [head del_element_loop].
    rewrite (bind_Done _ _ _ _ _ (load_Done _ _ _ He)), Hv. simpl remove_first. destruct (compare v).
    + destruct (del_spec _ _ _ _ _ _ _ _ Hl Hlen) as (w' & l' & Hrun & Hl' & Htr & _). by exists w', l', o2.
    + rewrite Hn. destruct (IH fuel (o1 ++ [p]) o2 (v1 ++ [v])) as (w' & l' & o2' & Hrun & Hl' & Htr).
      { by rewrite <-!app_assoc. } { rewrite !length_app. simpl. lia. } { simpl in Hf. lia. }
      exists w', l', (p :: o2'). rewrite <-!app_assoc in Hl'. destruct (remove_first compare v2) as [r d].
      by split_and!.
Qed.

Lemma ldestroy_loop_spec l w prev order vs fuel :
  seg ll (cells w) prev order None → NoDup order → datas (cells w) order vs → (length order ≤ fuel)%nat →
  ∃ w', ldestroy_loop fuel l (head order) w = Done tt w' ∧ trace w' = trace w ++ ldtors l vs ∧ brk w' = brk w ∧
    ∀ q, cells w' !! q = if decide (q ∈ order) then None else cells w !! q.
Proof.
  revert w prev vs fuel. induction order as [|p order IH]; intros w prev vs fuel Hs Hnd Hd Hf.
  - inversion Hd; subst. exists w. split; [by destruct fuel|].
    split; [unfold ldtors; destruct (l_dtor l); by rewrite app_nil_r|]. split; [done|].
    intros q. by destruct (decide (q ∈ [])) as [?%elem_of_nil|].
  - destruct fuel as [|fuel]; simpl in Hf; [lia|]. apply NoDup_cons in Hnd as [Hp Hnd].
    destruct vs as [|v vs]; [by inversion Hd|]. apply Forall2_cons in Hd as [Hv Hd]. destruct Hs as [Hlk Hs].
    destruct (cells w !! p) as [e|] eqn:He; [|done]. simpl in Hv, Hlk. injection Hv as Hv. injection Hlk as _ Hn.
    cbn [head ldestroy_loop]. rewrite (bind_Done _ _ _ _ _ (load_Done _ _ _ He)).
    set (w1 := Mem (cells w) (brk w) (trace w ++ ldtors l [v])).
    assert (Hdt : call_ldtor l (data_ e) w = Done tt w1).
    { unfold call_ldtor, w1, ldtors. rewrite Hv. destruct (l_dtor l); [done|]. unfold ret. rewrite app_nil_r. by destruct w. }
    rewrite (bind_Done _ _ _ _ _ Hdt). erewrite bind_Done by (apply free_Done; simpl; by rewrite He).
    rewrite Hn, head_or_None.
    destruct (IH (with_cells (delete p) w1) (Some p) vs fuel) as (w' & Hrun & Htr & Hbrk & Hcell).
    + eapply seg_agree; [|exact Hs]. simpl. by apply agree_delete.
    + done.
    + eapply datas_agree; [|exact Hd]. simpl. by apply agree_delete.
    + lia.
    + exists w'. split; [done|]. split.
      { rewrite Htr. simpl. rewrite <-app_assoc. f_equal. unfold ldtors. by destruct (l_dtor l). }
      split; [done|]. intros q. rewrite Hcell. simpl. rewrite lookup_delete.
      destruct (decide (q ∈ order)) as [Hq|Hq]; [rewrite decide_True; [done|by right]|].
      case_decide as Hpq; [subst; rewrite decide_True; [done|by left]|].
      rewrite decide_False; [done|]. rewrite elem_of_cons. intros [->|?]; done.
Qed.

(** writing the data of an element *)
Lemma llist_set_data w l o1 p o2 v1 v0 v2 v :
  llist w l (o1 ++ p :: o2) (v1 ++ v0 :: v2) → length o1 = length v1 →
  llist (with_cells (alter (set_data_ v) p) w) l (o1 ++ p :: o2) (v1 ++ v :: v2).
Proof.
  intros Hl Hlen. destruct (llist_at _ _ _ _ _ _ _ _ Hl Hlen) as (e & He & _).
  pose proof Hl as [Hm Hnd Hs Hh Ht Hc Hmax Hd]. pose proof Hnd as (Hp1 & Hp2 & _)%nodup_middle. split; try done.
  - intros q. simpl. rewrite lookup_alter_is_Some. apply Hm.
  - eapply seg_agree; [by apply agree_alter|done].
  - simpl. apply Forall2_app_inv in Hd as [Hd1 Hd2]; [|done]. apply Forall2_cons in Hd2 as [_ Hd2].
    apply Forall2_app; [|constructor].
    + eapply datas_agree; [|exact Hd1]. intros q Hq. rewrite lookup_alter_ne; [done|]. congruence.
    + by rewrite lookup_alter_eq, He.
    + eapply datas_agree; [|exact Hd2]. intros q Hq. rewrite lookup_alter_ne; [done|]. congruence.
Qed.

Lemma apply_with_del_spec {A} (func : A → V → A * V * bool) v2 fuel a w l o1 o2 v1 :
  llist w l (o1 ++ o2) (v1 ++ v2) → length o1 = length v1 → (length o2 ≤ fuel)%nat →
  ∃ w' l' o2' a' kept dead, apply_with_del_loop fuel func a l (head o2) w = Done (a', l') w' ∧
    filter_spec func a v2 = (a', kept, dead) ∧ llist w' l' (o1 ++ o2') (v1 ++ kept) ∧
    trace w' = trace w ++ ldtors l dead ∧ l_cfg l' = l_cfg l.
Proof.
  revert fuel a w l o1 o2 v1. induction v2 as [|v v2 IH]; intros fuel a w l o1 o2 v1 Hl Hlen Hf;
    pose proof (llist_length _ _ _ _ Hl) as Hll; rewrite !length_app in Hll.
  - destruct o2; [|simpl in Hll; lia]. exists w, l, [], a, [], []. split; [by destruct fuel|]. split_and!; try done.
    unfold ldtors. destruct (l_dtor l); by rewrite app_nil_r.
  - destruct o2 as [|p o2]; [simpl in Hll; lia|]. destruct fuel as [|fuel]; [simpl in Hf; lia|].
    destruct (llist_at _ _ _ _ _ _ _ _ Hl Hlen) as (e & He & Hv & Hn & _). cbn [head apply_with_del_loop].
    rewrite (bind_Done _ _ _ _ _ (load_Done _ _ _ He)), Hv. simpl filter_spec.
    destruct (func a v) as [[a1 x] r] eqn:Hfun. erewrite bind_Done by (apply store_Done; by rewrite He).
    pose proof (llist_set_data _ _ _ _ _ _ _ _ x Hl Hlen) as Hl1. rewrite Hn. destruct r.
    + destruct (del_spec _ _ _ _ _ _ _ _ Hl1 Hlen) as (w1 & l1 & Hrun & Hl2 & Htr & _ & Hcfg & _).
      rewrite (bind_Done _ _ _ _ _ Hrun).
      destruct (IH fuel a1 w1 l1 o1 o2 v1 Hl2 Hlen) as (w' & l' & o2' & a' & kept & dead & -> & -> & H3 & H4 & H5);
        [simpl in Hf; lia|].
      exists w', l', o2', a', kept, (x :: dead). split_and!; try done; [|congruence].
      assert (l_dtor l1 = l_dtor l) as Hdt by (unfold l_cfg in Hcfg; congruence).
      rewrite H4, Htr. simpl. rewrite <-app_assoc. f_equal. unfold ldtors. rewrite Hdt. by destruct (l_dtor l).
    + erewrite bind_Done by reflexivity.
      destruct (IH fuel a1 (with_cells (alter (set_data_ x) p) w) l (o1 ++ [p]) o2 (v1 ++ [x])) as (w' & l' & o2' & a' & kept & dead & -> & -> & H3 & H4 & H5).
      { rewrite <-!app_assoc. exact Hl1. } { rewrite !length_app. simpl. lia. } { simpl in Hf. lia. }
      rewrite <-!app_assoc in H3. by exists w', l', (p :: o2'), a', (x :: kept), dead.
Qed.

(** ** Copying *)

Lemma llist_frame w l order vs o w' o' :
  llist w l order vs → levolves w o w' o' → mem_ok w' → (∀ q, q ∈ order → q ∉ o) →
  llist w' l order vs ∧ ∀ q, q ∈ order → q ∉ o'.
Proof.
  intros Hl [F B N] Hm' Hd. pose proof Hl as [Hm Hnd Hs Hh Ht Hc Hmax Hda].
  assert (Hag : agree id (cells w) (cells w') order).
  { intros q Hq. rewrite F; [done|by apply Hd|]. by apply (llist_live _ _ _ _ _ Hl). }
  split.
  - split; try done; [eapply seg_agree; [by apply agree_id|done]|eapply datas_agree; [by apply agree_id|done]].
  - intros q Hq [?|Hlt]%N; [by apply (Hd q)|]. destruct (llist_live _ _ _ _ _ Hl Hq). lia.
Qed.

Lemma lcopy_loop_spec src v2 fuel w dst o1 o2 v1 od vd :
  llist w src (o1 ++ o2) (v1 ++ v2) → llist w dst od vd → (∀ q, q ∈ o1 ++ o2 → q ∉ od) → length o1 = length v1 →
  Z.of_nat (length od + length o2) < 2 ^ 64 → (length o2 ≤ fuel)%nat →
  ∃ w' dst' od', lcopy_loop fuel dst (head o2) w = Done dst' w' ∧ llist w' dst' od' (vd ++ v2) ∧
    llist w' src (o1 ++ o2) (v1 ++ v2) ∧ (∀ q, q ∈ o1 ++ o2 → q ∉ od') ∧ trace w' = trace w ∧ l_cfg dst' = l_cfg dst.
Proof.
  revert fuel w dst o1 o2 v1 od vd. induction v2 as [|v v2 IH]; intros fuel w dst o1 o2 v1 od vd Hl Hd Hdis Hlen Hroom Hf;
    pose proof (llist_length _ _ _ _ Hl) as Hll; rewrite !length_app in Hll.
  { destruct o2; [|simpl in Hll; lia]. exists w, dst, od. split; [by destruct fuel|]. rewrite app_nil_r. by split_and!. }
  destruct o2 as [|p o2]; [simpl in Hll; lia|]. destruct fuel as [|fuel]; [simpl in Hf; lia|].
  destruct (llist_at _ _ _ _ _ _ _ _ Hl Hlen) as (e & He & Hv & Hn & _). cbn [head lcopy_loop].
  rewrite (bind_Done _ _ _ _ _ (load_Done _ _ _ He)), Hv.
  destruct (add_element_spec w dst od vd v Hd) as (w1 & d1 & Hrun & Hd1 & Hev & Htr & Hcfg & _); [simpl in Hroom; lia|].
  rewrite (bind_Done _ _ _ _ _ Hrun).
  destruct (llist_frame _ _ _ _ _ _ _ Hl Hev (ll_mem _ _ _ _ Hd1) Hdis) as [Hl1 Hdis1].
  destruct (llist_at _ _ _ _ _ _ _ _ Hl1 Hlen) as (e1 & He1 & _ & Hn1 & _).
  rewrite (bind_Done _ _ _ _ _ (load_Done _ _ _ He1)), Hn1.
  destruct (IH fuel w1 d1 (o1 ++ [p]) o2 (v1 ++ [v]) (od ++ [brk w]) (vd ++ [v])) as (w' & dst' & od' & H1 & H2 & H3 & H4 & H5 & H6).
  - by rewrite <-!app_assoc.
  - done.
  - by rewrite <-app_assoc.
  - rewrite !length_app. simpl. lia.
  - rewrite length_app. simpl in *. lia.
  - simpl in Hf. lia.
  - rewrite <-!app_assoc in H3. rewrite <-app_assoc in H2, H4. exists w', dst', od'. split_and!; try done; congruence.
Qed.

(** ** Sorting *)

Lemma lcollect_loop_spec w order vs prev fuel :
  seg ll (cells w) prev order None → datas (cells w) order vs → (length order ≤ fuel)%nat →
  ∃ arr, lcollect_loop fuel (head order) w = Done arr w ∧ arr.*1 = order ∧ (λ x, data_ x.2) <$> arr = vs ∧
    Forall (λ x, cells w !! x.1 = Some x.2) arr.
Proof.
  revert vs prev fuel. induction order as [|p order IH]; intros vs prev fuel Hs Hd Hf.
  - inversion Hd; subst. exists []. by destruct fuel.
  - destruct fuel as [|fuel]; simpl in Hf; [lia|]. destruct vs as [|v vs]; [by inversion Hd|].
    apply Forall2_cons in Hd as [Hv Hd]. destruct Hs as [Hl Hs].
    destruct (cells w !! p) as [e|] eqn:He; [|done]. simpl in Hv, Hl. injection Hv as Hv. injection Hl as _ Hn.
    destruct (IH vs (Some p) fuel Hs Hd) as (arr & Hrun & H1 & H2 & H3); [lia|].
    exists ((p, e) :: arr). cbn [head lcollect_loop]. rewrite (bind_Done _ _ _ _ _ (load_Done _ _ _ He)).
    rewrite Hn, head_or_None, (bind_Done _ _ _ _ _ Hrun). split; [done|].
    split; [by rewrite fmap_cons, H1|]. split; [|by constructor]. rewrite fmap_cons, H2. simpl. by rewrite Hv.
Qed.

Lemma data_alter h q r f :
  (∀ e, data_ (f e) = data_ e) → data_ (V := V) <$> alter f q h !! r = data_ <$> h !! r.
Proof. apply (alter_opt_proj data_ (Some q)). Qed.

(** what relinking leaves alone *)
Definition lrelinked w w' (S : list ptr) : Prop :=
  (∀ q, data_ <$> cells w' !! q = data_ <$> cells w !! q) ∧ (∀ q, q ∉ S → cells w' !! q = cells w !! q) ∧
  (∀ q, is_Some (cells w' !! q) ↔ is_Some (cells w !! q)) ∧ brk w' = brk w ∧ trace w' = trace w.

Lemma lrelink_loop_spec arr p w (pr : option ptr) :
  NoDup (p :: arr) → (∀ q, q ∈ p :: arr → is_Some (cells w !! q)) → prev <$> cells w !! p = Some pr →
  ∃ w' q, lrelink_loop p arr w = Done q w' ∧ last (p :: arr) = Some q ∧ seg ll (cells w') pr (p :: arr) None ∧
    lrelinked w w' (p :: arr).
Proof.
  revert p w pr. induction arr as [|q arr IH]; intros p w pr Hnd Hlive Hpr; cbn [lrelink_loop].
  - erewrite bind_Done by (apply store_Done, Hlive; left). exists (with_cells (alter (set_next None) p) w), p.
    split; [done|]. split; [done|]. simpl. rewrite lookup_alter_eq. destruct (cells w !! p) as [e|] eqn:He; [|done].
    simpl in Hpr. injection Hpr as Hpr. split; [simpl; unfold lnk; simpl; by rewrite Hpr|]. split_and!; try done; simpl.
    + intros r. by rewrite data_alter.
    + intros r Hr. apply lookup_alter_ne. intros ->. apply Hr. left.
    + intros r. apply lookup_alter_is_Some.
  - apply NoDup_cons in Hnd as [Hp Hnd]. pose proof Hp as [Hpq _]%not_elem_of_cons.
    erewrite bind_Done by (apply store_Done, Hlive; right; left).
    erewrite bind_Done by (apply store_Done; simpl; rewrite lookup_alter_is_Some; apply Hlive; left).
    set (w1 := with_cells (alter (set_next (Some q)) p) (with_cells (alter (set_prev (Some p)) q) w)).
    assert (Hlv : ∀ r, is_Some (cells w1 !! r) ↔ is_Some (cells w !! r)) by (intros r; simpl; by rewrite !lookup_alter_is_Some).
    destruct (IH q w1 (Some p) Hnd) as (w' & t & Hrun & Hlast & Hs & R1 & R2 & R3 & R4 & R5).
    { intros r Hr. apply Hlv, Hlive. by right. }
    { simpl. rewrite lookup_alter_ne, lookup_alter_eq by done. destruct (Hlive q ltac:(right; left)) as [e ->]. done. }
    exists w', t. split; [exact Hrun|]. split; [by rewrite last_cons_cons|]. split.
    + split; [|exact Hs]. rewrite (R2 p Hp). simpl. rewrite lookup_alter_eq, lookup_alter_ne by done.
      destruct (cells w !! p) as [e|]; [|done]. simpl in Hpr. injection Hpr as Hpr. simpl. unfold lnk. simpl. by rewrite Hpr.
    + split_and!; try done.
      * intros r. rewrite R1. simpl. by rewrite !data_alter.
      * intros r [Hrp Hr]%not_elem_of_cons. rewrite (R2 r Hr). simpl. rewrite !lookup_alter_ne; [done|..]; set_solver.
      * intros r. by rewrite R3, Hlv.
Qed.

Lemma llist_sort_spec (sort_func : sort_func_t) `{!Sorting sort_func} w l order vs comp c :
  llist w l order vs → Z.of_nat (length order) < 2 ^ 32 → total_preorder c →
  (∀ e1 e2, comp e1 e2 = c (data_ e1) (data_ e2)) →
  ∃ w' l' order' vs', zend_llist_sort sort_func l comp w = Done l' w' ∧ llist w' l' order' vs' ∧
    vs' ≡ₚ vs ∧ order' ≡ₚ order ∧ StronglySorted (λ x y, c x y ≤ 0) vs' ∧ trace w' = trace w ∧ l_cfg l' = l_cfg l.
Proof using Type*.
  intros Hl Hmax Hc Hcomp. pose proof Hl as [Hm Hnd Hs Hh Ht Hcnt _ Hd]. unfold zend_llist_sort.
  destruct (Z.leb_spec (count l) 0) as [Hz|Hz].
  { assert (order = []) as -> by (destruct order; [done|simpl in Hcnt; lia]). inversion Hd; subst.
    exists w, l, [], []. split_and!; try done. constructor. }
  rewrite (bind_Done _ _ _ (fuel_of w) w) by done. rewrite Hh.
  pose proof (llist_fuel _ _ _ _ Hl) as Hfu.
  destruct (lcollect_loop_spec w order vs None (fuel_of w) Hs Hd ltac:(lia)) as (arr & Hrun & H1 & H2 & H3).
  rewrite (bind_Done _ _ _ _ _ Hrun).
  assert (Hla : length arr = length order) by (by rewrite <-H1, length_fmap).
  rewrite Hla, Hcnt, Z.eqb_refl. cbn [negb].
  destruct (sort_total _ (λ x y : ptr * zend_llist_element V, comp x.2 y.2) arr) as (arr' & Hsort & Hp); [lia|].
  rewrite Hsort. erewrite bind_Done by reflexivity.
  assert (Hpo : arr'.*1 ≡ₚ order) by (rewrite <-H1; by apply fmap_Permutation).
  set (vs' := (λ x : ptr * zend_llist_element V, data_ x.2) <$> arr').
  assert (Hpv : vs' ≡ₚ vs) by (rewrite <-H2; by apply fmap_Permutation).
  assert (Hsorted : StronglySorted (λ x y, c x y ≤ 0) vs').
  { assert (Hss : StronglySorted (λ x y : ptr * zend_llist_element V, comp x.2 y.2 ≤ 0) arr').
    { eapply sort_sorted; [|..|exact Hsort]; [lia|]. destruct Hc as (C1 & C2 & C3).
      unfold total_preorder. split_and!; intros *; rewrite !Hcomp; [apply C1|apply C2|apply C3]. }
    unfold vs'. clear -Hss Hcomp. induction Hss as [|x a _ IH Hx]; [constructor|]. rewrite fmap_cons. constructor; [done|].
    apply Forall_fmap. eapply Forall_impl; [exact Hx|]. intros y. simpl. by rewrite Hcomp. }
  assert (Hdat : datas (cells w) arr'.*1 vs').
  { assert (Hf : Forall (λ x, cells w !! x.1 = Some x.2) arr') by (by rewrite Hp).
    unfold vs'. clear -Hf. unfold datas. induction Hf as [|[q e] a Hx _ IH]; [constructor|]. rewrite !fmap_cons. constructor; [|done].
    simpl in *. by rewrite Hx. }
  assert (Hlen' : length arr'.*1 = length order) by (by rewrite Hpo).
  destruct (arr'.*1) as [|p rest] eqn:Harr; [simpl in Hlen'; lia|].
  erewrite bind_Done by (apply store_Done; eapply llist_live; [exact Hl|]; rewrite <-Hpo; left).
  destruct (lrelink_loop_spec rest p (with_cells (alter (set_prev None) p) w) None) as (w' & q & Hr & Hlast & Hseg & R1 & R2 & R3 & R4 & R5).
  { by rewrite Hpo. }
  { intros r Hr. simpl. rewrite lookup_alter_is_Some. eapply llist_live; [exact Hl|]. by rewrite <-Hpo. }
  { simpl. rewrite lookup_alter_eq. destruct (llist_live _ _ _ _ p Hl) as [[e ->] _]; [rewrite <-Hpo; left|done]. }
  rewrite (bind_Done _ _ _ _ _ Hr). exists w', (set_l_tail (Some q) (set_l_head (Some p) l)), (p :: rest), vs'.
  split; [done|]. split; [|by split_and!]. split; try done.
  - intros r. rewrite R3, R4. simpl. rewrite lookup_alter_is_Some. apply Hm.
  - by rewrite Hpo.
  - change (count l = Z.of_nat (length (p :: rest))). by rewrite Hcnt, Hlen'.
  - rewrite Hlen'. lia.
  - eapply datas_agree; [|exact Hdat]. intros r _. rewrite R1. simpl. by rewrite data_alter.
Qed.

End lemmas.

Lemma llist_init_spec {V} (w : mem (zend_llist_element V) V) l size dtor pers :
  mem_ok w → llist w (zend_llist_init l size dtor pers) [] [].
Proof. intros Hm. split; try done; constructor. Qed.

(** ** Properties *)

Section contract.
Context {V : Type}.
Implicit Types (w : mem (zend_llist_element V) V) (l : zend_llist) (order : list ptr) (vs : list V).

(** [zend_llist_add_element] appends and [zend_llist_prepend_element] puts in
    front, in a new element; the list stays doubly linked and [count] is its
    length. *)
Theorem llist_insert_refines w l order vs v :
  llist w l order vs → Z.of_nat (length order) + 1 < 2 ^ 64 →
  (∃ w' l' order', zend_llist_add_element l v w = Done l' w' ∧ llist w' l' order' (vs ++ [v]) ∧ trace w' = trace w) ∧
  (∃ w' l' order', zend_llist_prepend_element l v w = Done l' w' ∧ llist w' l' order' (v :: vs) ∧ trace w' = trace w).
Proof.
  intros Hl Hmax. split.
  - destruct (add_element_spec w l order vs v Hl Hmax) as (w' & l' & H1 & H2 & _ & H3 & _). by eexists w', l', _.
  - destruct (prepend_element_spec w l order vs v Hl Hmax) as (w' & l' & H1 & H2 & H3). by eexists w', l', _.
Qed.

(** C35: [zend_llist_del_element] removes the first element that compares equal and
    [zend_llist_remove_tail] the last one, each calling the destructor once; the
    address that [zend_llist_remove_tail] returns is that of a freed element. *)
Theorem llist_delete_refines w l order vs compare :
  llist w l order vs →
  (∃ w' l' order', zend_llist_del_element l compare w = Done l' w' ∧
    llist w' l' order' (remove_first compare vs).1 ∧ trace w' = trace w ++ ldtors l (remove_first compare vs).2) ∧
  (∃ w' l' r, zend_llist_remove_tail l w = Done (l', r) w' ∧
    match r with
    | None => vs = [] ∧ l' = l ∧ w' = w
    | Some p => ∃ order' vs' v, vs = vs' ++ [v] ∧ llist w' l' order' vs' ∧ trace w' = trace w ++ ldtors l [v] ∧
        cells w' !! p = None
    end).
Proof.
  intros Hl. pose proof (llist_fuel _ _ _ _ Hl) as Hf. pose proof (ll_head _ _ _ _ Hl) as Hh. split.
  - destruct (del_element_loop_spec w l [] order [] vs compare (fuel_of w) Hl eq_refl ltac:(lia)) as (w' & l' & o' & Hrun & H1 & H2).
    exists w', l', o'. unfold zend_llist_del_element. rewrite (bind_Done _ _ _ (fuel_of w) w), Hh by done. done.
  - unfold zend_llist_remove_tail. rewrite (ll_tail _ _ _ _ Hl).
    destruct order as [|p o1 _] using rev_ind.
    { exists w, l, None. pose proof (llist_length _ _ _ _ Hl). by destruct vs. }
    rewrite last_snoc. pose proof (llist_length _ _ _ _ Hl) as Hlen. rewrite length_app in Hlen.
    destruct vs as [|v v1 _] using rev_ind; [simpl in Hlen; lia|]. rewrite length_app in Hlen. simpl in Hlen.
    assert (Hl1 : length o1 = length v1) by lia. pose proof (del_spec w l o1 p [] v1 v [] Hl Hl1) as (w' & l' & Hrun & Hl' & Htr & Hdead & _).
    destruct (llist_at _ _ _ _ _ _ _ _ Hl Hl1) as (e & He & Hv & Hn & Hp). simpl in Hn.
    unfold DEL_LLIST_ELEMENT in Hrun. rewrite (bind_Done _ _ _ _ _ (load_Done _ _ _ He)) in Hrun. rewrite (bind_Done _ _ _ _ _ (load_Done _ _ _ He)).
    rewrite Hn in Hrun.
    rewrite !app_nil_r in Hl'. exists w', l', (Some p). split; [|by exists o1, v1, v].
    assert (Hlive : ∀ q, prev e = Some q → is_Some (cells w !! q)).
    { intros q Hq. rewrite Hp in Hq. apply last_Some_elem_of in Hq. eapply llist_live; [exact Hl|]. set_solver. }
    pose proof (store_or_Done (prev e) (set_next None) l (set_l_head None l) w Hlive) as Hst.
    rewrite (bind_Done _ _ _ _ _ Hst) in Hrun. rewrite (bind_Done _ _ _ _ _ Hst).
    cbn [store_or] in Hrun. unfold ret at 1 in Hrun. unfold bind at 1 in Hrun.
    set (l1 := match prev e with Some _ => l | None => set_l_head None l end) in *.
    unfold bind in Hrun |- *. destruct (call_ldtor _ _ _); try discriminate Hrun.
    destruct (free p w0); try discriminate Hrun. unfold ret in *. injection Hrun as <- <-. done.
Qed.

(** [zend_llist_destroy] calls the destructor on every element in order and
    frees them all; after [zend_llist_clean] the list is empty and usable. *)
Theorem llist_destroy_correct w l order vs :
  llist w l order vs →
  ∃ w' l', zend_llist_clean l w = Done l' w' ∧ llist w' l' [] [] ∧ trace w' = trace w ++ ldtors l vs ∧
    ∀ q, cells w' !! q = if decide (q ∈ order) then None else cells w !! q.
Proof.
  intros Hl. pose proof Hl as [Hm Hnd Hs Hh _ _ _ Hd]. pose proof (llist_fuel _ _ _ _ Hl) as Hf.
  destruct (ldestroy_loop_spec l w None order vs (fuel_of w) Hs Hnd Hd ltac:(lia)) as (w' & Hrun & Htr & Hb & Hc).
  unfold zend_llist_clean, zend_llist_destroy. rewrite bind_assoc, (bind_Done _ _ _ (fuel_of w) w), Hh by done.
  rewrite bind_assoc, (bind_Done _ _ _ _ _ Hrun). erewrite bind_Done by reflexivity.
  exists w'. eexists. split; [reflexivity|]. split_and!; try done. split; try done; try constructor.
  intros q Hq. rewrite Hb. rewrite Hc in Hq. case_decide; [by destruct Hq|]. by apply Hm.
Qed.

(** [zend_llist_apply_with_del] calls the function once on each element in
    order, keeps what it writes, and deletes exactly the elements for which it
    answers true, without using a freed element. *)
Theorem llist_apply_with_del_correct {A} w l order vs (func : A → V → A * V * bool) a :
  llist w l order vs →
  ∃ w' l' order' a' kept dead, zend_llist_apply_with_del l func a w = Done (a', l') w' ∧
    filter_spec func a vs = (a', kept, dead) ∧ llist w' l' order' kept ∧ trace w' = trace w ++ ldtors l dead.
Proof.
  intros Hl. pose proof (llist_fuel _ _ _ _ Hl) as Hf.
  destruct (apply_with_del_spec func vs (fuel_of w) a w l [] order [] Hl eq_refl ltac:(lia))
    as (w' & l' & o' & a' & kept & dead & H1 & H2 & H3 & H4 & _).
  unfold zend_llist_apply_with_del. rewrite (bind_Done _ _ _ (fuel_of w) w), (ll_head _ _ _ _ Hl) by done.
  by exists w', l', o', a', kept, dead.
Qed.

(** [zend_llist_copy] makes a list of new elements with the same values, size
    and destructor, and leaves the source as it was. *)
Theorem llist_copy_correct w dst src order vs :
  llist w src order vs →
  ∃ w' dst' order', zend_llist_copy dst src w = Done dst' w' ∧ llist w' dst' order' vs ∧ llist w' src order vs ∧
    (∀ q, q ∈ order → q ∉ order') ∧ l_cfg dst' = l_cfg src ∧ trace w' = trace w.
Proof.
  intros Hl. pose proof (llist_fuel _ _ _ _ Hl) as Hf.
  pose proof (llist_init_spec w dst (l_size src) (l_dtor src) (l_persistent src) (ll_mem _ _ _ _ Hl)) as Hd.
  destruct (lcopy_loop_spec src vs (fuel_of w) w _ [] order [] [] [] Hl Hd) as (w' & d' & o' & H1 & H2 & H3 & H4 & H5 & H6).
  - intros q _. apply not_elem_of_nil.
  - done.
  - apply (ll_max _ _ _ _ Hl).
  - lia.
  - unfold zend_llist_copy. rewrite (bind_Done _ _ _ (fuel_of w) w), (ll_head _ _ _ _ Hl) by done.
    by exists w', d', o'.
Qed.

(** [zend_llist_sort] with [zend_qsort] relinks the same elements into a sorted
    permutation of the values. *)
Theorem llist_sort_correct w l order vs comp c :
  llist w l order vs → Z.of_nat (length order) < 2 ^ 32 → total_preorder c →
  (∀ e1 e2, comp e1 e2 = c (data_ e1) (data_ e2)) →
  ∃ w' l' order' vs', zend_llist_sort zend_qsort_ptrs l comp w = Done l' w' ∧ llist w' l' order' vs' ∧
    vs' ≡ₚ vs ∧ order' ≡ₚ order ∧ StronglySorted (λ x y, c x y ≤ 0) vs' ∧ trace w' = trace w ∧ l_cfg l' = l_cfg l.
Proof. apply (llist_sort_spec zend_qsort_ptrs). Qed.

End contract.

(** ** The properties at the list [3; 1; 2] *)

Definition lsample_l0 : zend_llist := zend_llist_init (MkList None None 0 0 false false None) 8 true false.
Definition lsample_w0 : mem (zend_llist_element Z) Z := Mem ∅ 1 [].
Definition lsample : mem (zend_llist_element Z) Z * zend_llist :=
  match bind (zend_llist_add_element lsample_l0 3) (λ l, bind (zend_llist_add_element l 1) (λ l, zend_llist_add_element l 2)) lsample_w0 with
  | Done l w => (w, l)
  | _ => (lsample_w0, lsample_l0)
  end.

Lemma lsample_ok : llist lsample.1 lsample.2 [1; 2; 3]%positive [3; 1; 2].
Proof.
  assert (H0 : llist lsample_w0 lsample_l0 [] []).
  { apply llist_init_spec. intros p [e He]. unfold lsample_w0 in He. simpl in He. by rewrite lookup_empty in He. }
  destruct (add_element_spec lsample_w0 lsample_l0 [] [] 3 H0) as (w1 & l1 & R1 & H1 & _); [done|].
  destruct (add_element_spec w1 l1 _ _ 1 H1) as (w2 & l2 & R2 & H2 & _); [done|].
  destruct (add_element_spec w2 l2 _ _ 2 H2) as (w3 & l3 & R3 & H3 & _); [done|].
  assert (lsample = (w3, l3)) as E.
  { unfold lsample. rewrite (bind_Done _ _ _ _ _ R1), (bind_Done _ _ _ _ _ R2), R3. reflexivity. }
  rewrite E. cbn [fst snd]. vm_compute in R1. injection R1 as <- <-. vm_compute in R2. injection R2 as <- <-.
  exact H3.
Qed.

Lemma llist_insert_refines_witness :
  ∃ w' l' order', zend_llist_prepend_element lsample.2 7 lsample.1 = Done l' w' ∧ llist w' l' order' [7; 3; 1; 2].
Proof.
  destruct (proj2 (llist_insert_refines _ _ _ _ 7 lsample_ok ltac:(reflexivity))) as (w' & l' & o' & H1 & H2 & _).
  exists w', l', o'. exact (conj H1 H2).
Defined.

Lemma llist_delete_refines_witness :
  ∃ w' l' order', zend_llist_del_element lsample.2 (Z.eqb 1) lsample.1 = Done l' w' ∧ llist w' l' order' [3; 2] ∧
    trace w' = trace lsample.1 ++ [1].
Proof.
  destruct (proj1 (llist_delete_refines _ _ _ _ (Z.eqb 1) lsample_ok)) as (w' & l' & o' & H1 & H2 & H3).
  exists w', l', o'. exact (conj H1 (conj H2 H3)).
Defined.

Lemma llist_destroy_correct_witness :
  ∃ w' l', zend_llist_clean lsample.2 lsample.1 = Done l' w' ∧ llist w' l' [] [] ∧ trace w' = trace lsample.1 ++ [3; 1; 2].
Proof.
  destruct (llist_destroy_correct _ _ _ _ lsample_ok) as (w' & l' & H1 & H2 & H3 & _).
  exists w', l'. exact (conj H1 (conj H2 H3)).
Defined.

Lemma llist_apply_with_del_correct_witness :
  ∃ w' l' order' a' kept dead, zend_llist_apply_with_del lsample.2 (λ a v, (a + v, v * 10, v >? 1)) 0 lsample.1 = Done (a', l') w' ∧
    filter_spec (λ a v, (a + v, v * 10, v >? 1)) 0 [3; 1; 2] = (a', kept, dead) ∧ llist w' l' order' kept.
Proof.
  destruct (llist_apply_with_del_correct _ _ _ _ (λ a v, (a + v, v * 10, v >? 1)) 0 lsample_ok)
    as (w' & l' & o' & a' & k & d & H1 & H2 & H3 & _).
  exists w', l', o', a', k, d. exact (conj H1 (conj H2 H3)).
Defined.

Lemma llist_copy_correct_witness :
  ∃ w' dst' order', zend_llist_copy lsample_l0 lsample.2 lsample.1 = Done dst' w' ∧ llist w' dst' order' [3; 1; 2].
Proof.
  destruct (llist_copy_correct _ lsample_l0 _ _ _ lsample_ok) as (w' & d' & o' & H1 & H2 & _).
  exists w', d', o'. exact (conj H1 H2).
Defined.

Lemma sub_total_preorder : total_preorder Z.sub.
Proof. unfold total_preorder. split_and!; intros; lia. Qed.

Lemma llist_sort_correct_witness :
  ∃ w' l' order' vs', zend_llist_sort zend_qsort_ptrs lsample.2 (λ e1 e2, data_ e1 - data_ e2) lsample.1 = Done l' w' ∧
    llist w' l' order' vs' ∧ vs' ≡ₚ [3; 1; 2].
Proof.
  destruct (llist_sort_correct _ _ _ _ (λ e1 e2, data_ e1 - data_ e2) Z.sub lsample_ok ltac:(reflexivity) sub_total_preorder
    (λ _ _, eq_refl)) as (w' & l' & o' & vs' & H1 & H2 & H3 & _).
  exists w', l', o', vs'. exact (conj H1 (conj H2 H3)).
Defined.
