(* ===== verification/Stack.v ===== *)
(** * [Zend/zend_stack.c]: the stack of copied elements

    Each element is an object of its own, of type [V], in a memory; the array of
    pointers grows by blocks of 64. *)

From S2P Require Import Prelude.
Local Open Scope Z_scope.
Local Open Scope effect_scope.

Record zend_stack : Type := MkStack {
  top : Z;
  max : Z;
  (** [None] is [NULL]; a slot that was never written holds [None] *)
  elements : option (list (option ptr))
}.

Definition STACK_BLOCK_SIZE : Z := 64.
Definition ZEND_STACK_APPLY_TOPDOWN : Z := 1.
Definition ZEND_STACK_APPLY_BOTTOMUP : Z := 2.

Section operations.
Context {V : Type}.
Abbreviation SM := (M (mem V unit)).

Definition zend_stack_init : zend_stack := MkStack 0 0 None.

(** [stack->elements[i]] *)
Definition slot (stack : zend_stack) (i : Z) : SM ptr :=
  match elements stack with
  | Some l => if i <? 0 then stuck else match l !! Z.to_nat i with Some (Some p) => ret p | _ => stuck end
  | None => stuck
  end.

Definition zend_stack_push (stack : zend_stack) (element : V) : SM (zend_stack * Z) :=
  let stack :=
    if top stack >=? max stack then
      let max := s32 (max stack + STACK_BLOCK_SIZE) in
      MkStack (top stack) max (Some (resize (Z.to_nat max) None (default [] (elements stack))))
    else stack in
  let! p := alloc element in
  match elements stack with
  | Some l =>
      if decide (0 ≤ top stack < Z.of_nat (length l)) then
        ret (MkStack (s32 (top stack + 1)) (max stack) (Some (<[Z.to_nat (top stack) := Some p]> l)), top stack)
      else stuck
  | None => stuck
  end.

(** the result and the element's address *)
Definition zend_stack_top (stack : zend_stack) : SM (Z * option ptr) :=
  if top stack >? 0 then let! p := slot stack (top stack - 1) in ret (SUCCESS, Some p)
  else ret (FAILURE, None).

Definition zend_stack_del_top (stack : zend_stack) : SM (zend_stack * Z) :=
  if top stack >? 0 then
    let stack := MkStack (top stack - 1) (max stack) (elements stack) in
    let! p := slot stack (top stack) in
    free p ;;;
    ret (stack, SUCCESS)
  else ret (stack, SUCCESS).

Definition zend_stack_is_empty (stack : zend_stack) : Z := if top stack =? 0 then 1 else 0.

Fixpoint stack_destroy_loop (n : nat) (i : Z) (stack : zend_stack) : SM unit :=
  match n with
  | O => ret tt
  | S n' =>
      let! p := slot stack i in
      free p ;;;
      stack_destroy_loop n' (i + 1) stack
  end.

(** [top] and [max] keep their values. *)
Definition zend_stack_destroy (stack : zend_stack) : SM (zend_stack * Z) :=
  match elements stack with
  | Some _ =>
      stack_destroy_loop (Z.to_nat (top stack)) 0 stack ;;;
      ret (MkStack (top stack) (max stack) None, SUCCESS)
  | None => ret (stack, SUCCESS)
  end.

Definition zend_stack_base (stack : zend_stack) : option (list (option ptr)) := elements stack.
Definition zend_stack_count (stack : zend_stack) : Z := top stack.

(** the two loops of the apply functions: from [i], by [step], [n] times at most;
    the function shares the state [a] with the caller *)
Fixpoint stack_apply_loop {A} (n : nat) (i step : Z) (stack : zend_stack) (f : A → V → A * V * bool) (a : A) : SM A :=
  match n with
  | O => ret a
  | S n' =>
      let! p := slot stack i in
      let! v := load p in
      let '(a, v, r) := f a v in
      store p (λ _, v) ;;;
      if (r : bool) then ret a else stack_apply_loop n' (i + step) step stack f a
  end.

Definition zend_stack_apply {A} (stack : zend_stack) (type : Z) (apply_function : A → V → A * V * bool) (a : A) : SM A :=
  if type =? ZEND_STACK_APPLY_TOPDOWN then
    stack_apply_loop (Z.to_nat (top stack)) (top stack - 1) (-1) stack apply_function a
  else if type =? ZEND_STACK_APPLY_BOTTOMUP then
    stack_apply_loop (Z.to_nat (top stack)) 0 1 stack apply_function a
  else ret a.

Definition zend_stack_apply_with_argument {A} (stack : zend_stack) (type : Z)
    (apply_function : V → A → A * V * bool) (arg : A) : SM A :=
  zend_stack_apply stack type (λ a v, apply_function v a) arg.

End operations.

Definition zend_stack_int_top (stack : zend_stack) : M (mem Z unit) Z :=
  let! '(r, e) := zend_stack_top stack in
  if r =? FAILURE then ret FAILURE
  else match e with Some p => load p | None => stuck end.

(** ** The invariant: the stack holds [vs], the bottom first, at [ps] *)

Record stack_ok {V} (w : mem V unit) (stack : zend_stack) (ps : list ptr) (vs : list V) : Prop := {
  so_mem : mem_ok w;
  so_nodup : NoDup ps;
  so_top : top stack = Z.of_nat (length ps);
  so_max : top stack ≤ max stack < 2 ^ 31;
  so_elements : match elements stack with
                | None => max stack = 0
                | Some l => Z.of_nat (length l) = max stack ∧ take (length ps) l = Some <$> ps
                end;
  so_values : Forall2 (λ p v, cells w !! p = Some v) ps vs
}.

(** applying a function to the values in order, until it answers true *)
Fixpoint apply_until {V A} (f : A → V → A * V * bool) (a : A) (vs : list V) : A * list V :=
  match vs with
  | [] => (a, [])
  | v :: vs' =>
      let '(a, v, r) := f a v in
      if r then (a, v :: vs') else let '(a, vs') := apply_until f a vs' in (a, v :: vs')
  end.

Section lemmas.
Context {V : Type}.
Implicit Types (w : mem V unit) (s : zend_stack) (ps : list ptr) (vs : list V).

Lemma slot_run w s ps vs i p : stack_ok w s ps vs → ps !! i = Some p → slot s (Z.of_nat i) w = Done p w.
Proof.
  intros [_ _ Ht Hmx He _] Hi. pose proof (lookup_lt_Some _ _ _ Hi) as Hlt. unfold slot.
  destruct (elements s) as [l|]; [|lia]. destruct He as [Hl Htk].
  destruct (Z.ltb_spec (Z.of_nat i) 0); [lia|]. rewrite Nat2Z.id.
  assert (l !! i = Some (Some p)) as ->.
  { rewrite <-(lookup_take_lt l (length ps) i) by lia. rewrite Htk. by rewrite list_lookup_fmap, Hi. }
  done.
Qed.

Lemma push_run w s ps vs v :
  stack_ok w s ps vs → top s + 64 < 2 ^ 31 →
  ∃ w' s', zend_stack_push s v w = Done (s', Z.of_nat (length ps)) w' ∧ stack_ok w' s' (ps ++ [brk w]) (vs ++ [v]) ∧
    (max s' = if top s =? max s then max s + 64 else max s).
Proof.
  intros Hs Hroom. pose proof Hs as [Hm Hnd Ht Hmx He Hv]. unfold zend_stack_push.
  set (s1 := if top s >=? max s then _ else s).
  assert (H1 : top s1 = top s ∧ max s1 = (if top s =? max s then max s + 64 else max s) ∧
    ∃ l, elements s1 = Some l ∧ Z.of_nat (length l) = max s1 ∧ top s < max s1 < 2 ^ 31 ∧ take (length ps) l = Some <$> ps).
  { unfold s1. destruct (Z.geb_spec (top s) (max s)) as [Hge|Hlt]; destruct (Z.eqb_spec (top s) (max s)) as [Heq|Hne]; try lia.
    - assert (Hs32 : s32 (max s + STACK_BLOCK_SIZE) = max s + 64).
      { unfold s32, STACK_BLOCK_SIZE. rewrite Z.mod_small; lia. }
      cbn [top max elements]. rewrite Hs32. split; [done|]. split; [done|]. eexists. split; [reflexivity|].
      rewrite length_resize. split; [lia|]. split; [lia|].
      rewrite take_resize_le by lia. destruct (elements s) as [l|]; simpl.
      + destruct He as [Hl Htk]. rewrite resize_le by lia. done.
      + assert (length ps = 0)%nat as Hz by lia. destruct ps; done.
    - split; [done|]. split; [done|]. destruct (elements s) as [l|]; [|lia]. exists l. split; [done|]. destruct He. split_and!; try done; lia. }
  destruct H1 as (E1 & E2 & l & E3 & E4 & E5 & E6). clearbody s1.
  erewrite bind_Done by reflexivity. rewrite E3, E1.
  rewrite decide_True by lia. eexists _, _. rewrite <-Ht. split; [reflexivity|]. cbn [max].
  split; [|done]. split.
  - intros q. simpl. rewrite lookup_insert_is_Some. intros [<-|[_ Hq%Hm]]; lia.
  - apply NoDup_app. split; [done|]. split; [|apply NoDup_singleton]. intros q Hq ->%list_elem_of_singleton.
    apply list_elem_of_lookup in Hq as [i Hi]. destruct (Forall2_lookup_l _ _ _ _ _ Hv Hi) as (x & _ & Hx).
    assert (brk w < brk w)%positive by (apply Hm; by rewrite Hx). lia.
  - simpl. rewrite length_app, Ht. simpl. unfold s32. rewrite Z.mod_small; lia.
  - simpl. unfold s32. rewrite Z.mod_small; lia.
  - simpl. rewrite length_insert. split; [done|].
    assert (Hn : Z.to_nat (top s) = length ps) by lia. rewrite Hn, length_app, fmap_app. simpl.
    rewrite Nat.add_1_r, (take_S_r _ _ (Some (brk w))).
    + by rewrite take_insert_ge, E6 by lia.
    + apply list_lookup_insert_eq. lia.
  - simpl. apply Forall2_app.
    + eapply Forall2_impl; [exact Hv|]. intros q x Hq. simpl. rewrite lookup_insert_ne; [done|].
      intros <-. assert (brk w < brk w)%positive by (apply Hm; by rewrite Hq). lia.
    + repeat constructor. apply lookup_insert_eq.
Qed.

Lemma top_run w s ps vs p : stack_ok w s (ps ++ [p]) vs → zend_stack_top s w = Done (SUCCESS, Some p) w.
Proof.
  intros Hs. pose proof (so_top _ _ _ _ Hs) as Ht. rewrite length_app in Ht. simpl in Ht. unfold zend_stack_top.
  destruct (Z.gtb_spec (top s) 0); [|lia].
  replace (top s - 1) with (Z.of_nat (length ps)) by lia.
  rewrite (bind_Done _ _ _ p w); [done|]. eapply slot_run; [exact Hs|]. by apply list_lookup_middle.
Qed.

Lemma del_top_run w s ps vs p v :
  stack_ok w s (ps ++ [p]) (vs ++ [v]) →
  ∃ w' s', zend_stack_del_top s w = Done (s', SUCCESS) w' ∧ stack_ok w' s' ps vs ∧ cells w' !! p = None ∧ max s' = max s.
Proof.
  intros Hs. pose proof Hs as [Hm Hnd Ht Hmx He Hv]. rewrite length_app in Ht. simpl in Ht. unfold zend_stack_del_top.
  destruct (Z.gtb_spec (top s) 0); [|lia]. set (s1 := MkStack (top s - 1) (max s) (elements s)).
  pose proof (Forall2_length _ _ _ Hv) as Hlen. rewrite !length_app in Hlen. simpl in Hlen.
  apply Forall2_app_inv in Hv as [Hv Hp]; [|lia]. apply Forall2_cons in Hp as [Hp _].
  assert (Hslot : slot s1 (top s1) w = Done p w).
  { pose proof (slot_run w s _ _ (length ps) p Hs) as Hsl. rewrite list_lookup_middle in Hsl by done.
    replace (top s1) with (Z.of_nat (length ps)) by (simpl; lia). by apply Hsl. }
  rewrite (bind_Done _ _ _ _ _ Hslot). erewrite bind_Done by (apply free_Done; by rewrite Hp).
  eexists _, s1. split; [reflexivity|]. split; [|split; [simpl; apply lookup_delete_eq|done]].
  apply NoDup_app in Hnd as (Hnd & Hdis & _). split.
  - intros q. simpl. rewrite lookup_delete_is_Some. intros [_ Hq]. by apply Hm.
  - done.
  - simpl. lia.
  - simpl. lia.
  - simpl. destruct (elements s) as [l|]; [|done]. destruct He as [Hl Htk]. split; [done|].
    apply (f_equal (take (length ps))) in Htk. rewrite take_take, length_app in Htk. simpl in Htk.
    rewrite Nat.min_l in Htk by lia. rewrite Htk, fmap_app, take_app_le by (rewrite length_fmap; lia).
    apply take_ge. rewrite length_fmap. lia.
  - apply Forall2_same_length_lookup. split; [by eapply Forall2_length|]. intros i q x Hq Hx. simpl.
    pose proof (Forall2_lookup_lr _ _ _ _ _ _ Hv Hq Hx) as Hqx. rewrite lookup_delete_ne; [done|].
    intros <-. apply (Hdis p); [by eapply list_elem_of_lookup_2|left].
Qed.

Lemma value_at w s ps vs i p v :
  stack_ok w s ps vs → ps !! i = Some p → vs !! i = Some v → cells w !! p = Some v.
Proof. intros Hs Hp Hv. by apply (Forall2_lookup_lr _ _ _ _ _ _ (so_values _ _ _ _ Hs) Hp Hv). Qed.

(** writing an element *)
Lemma stack_set w s ps vs i p v :
  stack_ok w s ps vs → ps !! i = Some p → stack_ok (with_cells (alter (λ _, v) p) w) s ps (<[i := v]> vs).
Proof.
  intros [Hm Hnd Ht Hmx He Hv] Hp. split; try done.
  - intros q. simpl. rewrite lookup_alter_is_Some. apply Hm.
  - apply Forall2_same_length_lookup. rewrite length_insert. split; [by eapply Forall2_length|].
    intros j q x Hq Hx. simpl. destruct (decide (i = j)) as [<-|Hne].
    + rewrite Hp in Hq. injection Hq as <-. rewrite list_lookup_insert_eq in Hx.
      2: { rewrite <-(Forall2_length _ _ _ Hv). by eapply lookup_lt_Some. }
      destruct (Forall2_lookup_l _ _ _ _ _ Hv Hp) as (y & _ & Hy). rewrite lookup_alter_eq, Hy. simpl. by rewrite Hx.
    + rewrite list_lookup_insert_ne in Hx by done. rewrite lookup_alter_ne.
      * by apply (Forall2_lookup_lr _ _ _ _ _ _ Hv Hq Hx).
      * intros <-. apply Hne. by apply (NoDup_lookup _ _ _ _ Hnd Hp Hq).
Qed.

Lemma apply_up {A} (f : A → V → A * V * bool) n a w s ps v1 v2 :
  stack_ok w s ps (v1 ++ v2) → length v2 = n →
  ∃ w' a', stack_apply_loop n (Z.of_nat (length v1)) 1 s f a w = Done a' w' ∧
    (apply_until f a v2).1 = a' ∧ stack_ok w' s ps (v1 ++ (apply_until f a v2).2).
Proof.
  revert a w v1 v2. induction n as [|n IH]; intros a w v1 v2 Hs Hn.
  { destruct v2; [|done]. by exists w, a. }
  destruct v2 as [|v v2]; [done|]. injection Hn as Hn. cbn [stack_apply_loop].
  pose proof (Forall2_length _ _ _ (so_values _ _ _ _ Hs)) as Hl. rewrite length_app in Hl. simpl in Hl.
  destruct (lookup_lt_is_Some_2 ps (length v1)) as [p Hp]; [lia|].
  rewrite (bind_Done _ _ _ _ _ (slot_run _ _ _ _ _ _ Hs Hp)).
  assert (Hv : cells w !! p = Some v) by (eapply value_at; [exact Hs|exact Hp|by apply list_lookup_middle]).
  rewrite (bind_Done _ _ _ _ _ (load_Done _ _ _ Hv)). simpl apply_until. destruct (f a v) as [[a1 x] r].
  erewrite bind_Done by (apply store_Done; by rewrite Hv).
  pose proof (stack_set _ _ _ _ _ _ x Hs Hp) as Hs1. rewrite insert_middle in Hs1 by done.
  destruct r; [by eexists _, a1|].
  replace (Z.of_nat (length v1) + 1) with (Z.of_nat (length (v1 ++ [x]))) by (rewrite length_app; simpl; lia).
  destruct (IH a1 (with_cells (alter (λ _, x) p) w) (v1 ++ [x]) v2) as (w' & a' & Hrun & H1 & H2);
    [rewrite <-app_assoc; exact Hs1|done|]. exists w', a'. split; [exact Hrun|].
  destruct (apply_until f a1 v2) as [a2 v2']. rewrite <-app_assoc in H2. done.
Qed.

Lemma apply_down {A} (f : A → V → A * V * bool) n a w s ps v1 v2 :
  stack_ok w s ps (reverse v1 ++ v2) → length v1 = n →
  ∃ w' a', stack_apply_loop n (Z.of_nat n - 1) (-1) s f a w = Done a' w' ∧
    (apply_until f a v1).1 = a' ∧ stack_ok w' s ps (reverse (apply_until f a v1).2 ++ v2).
Proof.
  revert a w v1 v2. induction n as [|n IH]; intros a w v1 v2 Hs Hn.
  { destruct v1; [|done]. by exists w, a. }
  destruct v1 as [|v v1]; [done|]. injection Hn as Hn. cbn [stack_apply_loop].
  rewrite reverse_cons, <-app_assoc in Hs. simpl in Hs.
  pose proof (Forall2_length _ _ _ (so_values _ _ _ _ Hs)) as Hl. rewrite length_app, length_reverse in Hl. simpl in Hl.
  destruct (lookup_lt_is_Some_2 ps n) as [p Hp]; [lia|].
  replace (Z.of_nat (S n) - 1) with (Z.of_nat n) by lia.
  rewrite (bind_Done _ _ _ _ _ (slot_run _ _ _ _ _ _ Hs Hp)).
  assert (Hv : cells w !! p = Some v).
  { eapply value_at; [exact Hs|exact Hp|]. apply list_lookup_middle. by rewrite length_reverse. }
  rewrite (bind_Done _ _ _ _ _ (load_Done _ _ _ Hv)). simpl apply_until. destruct (f a v) as [[a1 x] r].
  erewrite bind_Done by (apply store_Done; by rewrite Hv).
  pose proof (stack_set _ _ _ _ _ _ x Hs Hp) as Hs1. rewrite insert_middle in Hs1 by (by rewrite length_reverse).
  destruct r; [eexists _, a1; split; [done|]; split; [done|]; simpl; rewrite reverse_cons, <-app_assoc; exact Hs1|].
  change (Z.of_nat n + -1) with (Z.of_nat n - 1).
  destruct (IH a1 (with_cells (alter (λ _, x) p) w) v1 (x :: v2)) as (w' & a' & Hrun & H1 & H2); [exact Hs1|done|].
  exists w', a'. split; [exact Hrun|]. destruct (apply_until f a1 v1) as [a2 v1']. simpl.
  rewrite reverse_cons, <-app_assoc. done.
Qed.

Lemma destroy_run n w s p1 p2 v1 v2 :
  stack_ok w s (p1 ++ p2) (v1 ++ v2) → length p1 = length v1 → length p2 = n →
  ∀ w0, (∀ q, cells w0 !! q = if decide (q ∈ p1) then None else cells w !! q) → brk w0 = brk w →
  ∃ w', stack_destroy_loop n (Z.of_nat (length p1)) s w0 = Done tt w' ∧
    (∀ q, cells w' !! q = if decide (q ∈ p1 ++ p2) then None else cells w !! q).
Proof.
  revert p1 p2 v1 v2. induction n as [|n IH]; intros p1 p2 v1 v2 Hs Hl Hn w0 Hw0 Hb.
  { destruct p2; [|done]. exists w0. by rewrite app_nil_r. }
  destruct p2 as [|p p2]; [done|]. injection Hn as Hn. cbn [stack_destroy_loop].
  pose proof (slot_run w s _ _ (length p1) p Hs ltac:(by apply list_lookup_middle)) as Hsl.
  assert (Hsl0 : slot s (Z.of_nat (length p1)) w0 = Done p w0).
  { unfold slot in *. destruct (elements s); [|done]. destruct (_ <? 0); [done|].
    destruct (l !! _) as [[?|]|]; try done. by injection Hsl as ->. }
  rewrite (bind_Done _ _ _ _ _ Hsl0). pose proof (so_nodup _ _ _ _ Hs) as (Hp1 & Hp2 & _)%nodup_middle.
  destruct (Forall2_lookup_l _ _ _ _ p (so_values _ _ _ _ Hs) ltac:(by apply list_lookup_middle)) as (v & Hv & Hpv).
  assert (Hlive : is_Some (cells w0 !! p)) by (rewrite Hw0, decide_False, Hpv; done).
  erewrite bind_Done by (by apply free_Done).
  pose proof (Forall2_length _ _ _ (so_values _ _ _ _ Hs)) as Hll. rewrite !length_app in Hll.
  destruct v2 as [|v' v2]; [simpl in Hll; lia|].
  replace (Z.of_nat (length p1) + 1) with (Z.of_nat (length (p1 ++ [p]))) by (rewrite length_app; simpl; lia).
  destruct (IH (p1 ++ [p]) p2 (v1 ++ [v']) v2) with (w0 := with_cells (delete p) w0) as (w' & Hrun & Hc).
  - by rewrite <-!app_assoc.
  - rewrite !length_app. simpl. lia.
  - done.
  - intros q. simpl. destruct (decide (q = p)) as [->|Hne].
    + rewrite lookup_delete_eq, decide_True; [done|]. apply elem_of_app. right. left.
    + rewrite lookup_delete_ne, Hw0 by done. destruct (decide (q ∈ p1)).
      * rewrite decide_True; [done|]. apply elem_of_app. by left.
      * rewrite decide_False; [done|]. rewrite elem_of_app, list_elem_of_singleton. by intros [].
  - done.
  - exists w'. rewrite <-app_assoc in Hc. done.
Qed.

End lemmas.

(** ** Properties *)

Section contract.
Context {V : Type}.
Implicit Types (w : mem V unit) (s : zend_stack) (ps : list ptr) (vs : list V).

(** C36: the stack is last-in first-out: [zend_stack_push] returns the index of the
    new top, [zend_stack_top] and [zend_stack_del_top] see the last value pushed,
    fail or do nothing on the empty stack, and the array grows by 64 slots exactly
    when it is full. *)
Theorem stack_lifo w s ps vs v :
  stack_ok w s ps vs → top s + 64 < 2 ^ 31 →
  (∃ w' s' p, zend_stack_push s v w = Done (s', Z.of_nat (length vs)) w' ∧ stack_ok w' s' (ps ++ [p]) (vs ++ [v]) ∧
    max s' = (if top s =? max s then max s + 64 else max s) ∧
    zend_stack_top s' w' = Done (SUCCESS, Some p) w' ∧ cells w' !! p = Some v ∧
    ∃ w'' s'', zend_stack_del_top s' w' = Done (s'', SUCCESS) w'' ∧ stack_ok w'' s'' ps vs ∧ cells w'' !! p = None) ∧
  zend_stack_count s = Z.of_nat (length vs) ∧ (zend_stack_is_empty s = 1 ↔ vs = []) ∧
  (vs = [] → zend_stack_top s w = Done (FAILURE, None) w ∧ zend_stack_del_top s w = Done (s, SUCCESS) w).
Proof.
  intros Hs Hroom. pose proof (Forall2_length _ _ _ (so_values _ _ _ _ Hs)) as Hl. pose proof (so_top _ _ _ _ Hs) as Ht.
  split_and!.
  - destruct (push_run w s ps vs v Hs Hroom) as (w' & s' & Hrun & Hs' & Hmx). rewrite Hl in Hrun.
    exists w', s', (brk w). split_and!; try done.
    + by eapply top_run.
    + eapply value_at; [exact Hs'| |]; rewrite <-?Hl; by apply list_lookup_middle.
    + destruct (del_top_run w' s' ps vs (brk w) v Hs') as (w2 & s2 & H1 & H2 & H3 & _). by exists w2, s2.
  - unfold zend_stack_count. lia.
  - unfold zend_stack_is_empty. destruct (Z.eqb_spec (top s) 0); destruct vs; simpl in *; split; try done; lia.
  - intros ->. simpl in Hl. unfold zend_stack_top, zend_stack_del_top. destruct (Z.gtb_spec (top s) 0); [lia|done].
Qed.

(** [zend_stack_apply] visits the elements from the top down or from the bottom
    up, as asked, and stops at the first one for which the function answers true;
    what the function writes stays in the stack. *)
Theorem stack_apply_correct {A} w s ps vs (f : A → V → A * V * bool) a :
  stack_ok w s ps vs →
  (∃ w', zend_stack_apply s ZEND_STACK_APPLY_BOTTOMUP f a w = Done (apply_until f a vs).1 w' ∧
    stack_ok w' s ps (apply_until f a vs).2) ∧
  (∃ w', zend_stack_apply s ZEND_STACK_APPLY_TOPDOWN f a w = Done (apply_until f a (reverse vs)).1 w' ∧
    stack_ok w' s ps (reverse (apply_until f a (reverse vs)).2)).
Proof.
  intros Hs. pose proof (Forall2_length _ _ _ (so_values _ _ _ _ Hs)) as Hl. pose proof (so_top _ _ _ _ Hs) as Ht.
  assert (Hn : Z.to_nat (top s) = length vs) by lia. split.
  - destruct (apply_up f (length vs) a w s ps [] vs Hs eq_refl) as (w' & a' & Hrun & <- & Hs').
    exists w'. unfold zend_stack_apply. simpl. by rewrite Hn.
  - destruct (apply_down f (length vs) a w s ps (reverse vs) []) as (w' & a' & Hrun & <- & Hs').
    { by rewrite reverse_involutive, app_nil_r. } { apply length_reverse. }
    exists w'. unfold zend_stack_apply. simpl. rewrite Hn. rewrite app_nil_r in Hs'.
    replace (top s - 1) with (Z.of_nat (length vs) - 1) by lia. done.
Qed.

(** [zend_stack_destroy] frees every element once and the array, and nothing
    else; it leaves [top] as it was. *)
Theorem stack_destroy_correct w s ps vs :
  stack_ok w s ps vs →
  ∃ w' s', zend_stack_destroy s w = Done (s', SUCCESS) w' ∧ elements s' = None ∧ top s' = top s ∧
    ∀ q, cells w' !! q = if decide (q ∈ ps) then None else cells w !! q.
Proof.
  intros Hs. pose proof (Forall2_length _ _ _ (so_values _ _ _ _ Hs)) as Hl. pose proof (so_top _ _ _ _ Hs) as Ht.
  unfold zend_stack_destroy. destruct (elements s) as [l|] eqn:He.
  - destruct (destroy_run (length ps) w s [] ps [] vs Hs eq_refl eq_refl w) as (w' & Hrun & Hc); [|done|].
    { intros q. by destruct (decide (q ∈ [])) as [?%elem_of_nil|]. }
    assert (Hn : Z.to_nat (top s) = length ps) by lia. rewrite Hn, (bind_Done _ _ _ _ _ Hrun). by eexists w', _.
  - pose proof (so_elements _ _ _ _ Hs) as Hmx. rewrite He in Hmx. pose proof (so_max _ _ _ _ Hs).
    exists w, s. split_and!; try done. intros q. assert (ps = []) as -> by (destruct ps; [done|simpl in *; lia]).
    by destruct (decide (q ∈ [])) as [?%elem_of_nil|].
Qed.

End contract.

Definition stack_sample_w : mem Z unit := Mem ∅ 1 [].
Definition stack_sample : mem Z unit * zend_stack :=
  match bind (zend_stack_push zend_stack_init 10) (λ '(s, _), zend_stack_push s 20) stack_sample_w with
  | Done (s, _) w => (w, s)
  | _ => (stack_sample_w, zend_stack_init)
  end.

Lemma stack_sample_ok : stack_ok stack_sample.1 stack_sample.2 [1; 2]%positive [10; 20].
Proof.
  assert (H0 : stack_ok stack_sample_w zend_stack_init [] []).
  { split; simpl; try done; try constructor. intros p [e He]. simpl in He. by rewrite lookup_empty in He. }
  destruct (push_run _ _ _ _ 10 H0) as (w1 & s1 & R1 & H1 & _); [done|].
  vm_compute in R1. injection R1 as <- <-.
  destruct (push_run _ _ _ _ 20 H1) as (w2 & s2 & R2 & H2 & _); [done|].
  vm_compute in R2. injection R2 as <- <-. exact H2.
Qed.

Lemma stack_lifo_witness :
  ∃ w' s' p, zend_stack_push stack_sample.2 30 stack_sample.1 = Done (s', 2) w' ∧ zend_stack_top s' w' = Done (SUCCESS, Some p) w' ∧
    cells w' !! p = Some 30.
Proof.
  destruct (stack_lifo _ _ _ _ 30 stack_sample_ok ltac:(reflexivity)) as [(w' & s' & p & H1 & _ & _ & H2 & H3 & _) _].
  exists w', s', p. exact (conj H1 (conj H2 H3)).
Defined.

Lemma stack_apply_correct_witness :
  ∃ w', zend_stack_apply stack_sample.2 ZEND_STACK_APPLY_TOPDOWN (λ a v, (a + v, v, true)) 0 stack_sample.1 = Done 20 w' ∧
    stack_ok w' stack_sample.2 [1; 2]%positive [10; 20].
Proof. exact (proj2 (stack_apply_correct _ _ _ _ (λ a v, (a + v, v, true)) 0 stack_sample_ok)). Defined.

Lemma stack_destroy_correct_witness :
  ∃ w' s', zend_stack_destroy stack_sample.2 stack_sample.1 = Done (s', SUCCESS) w' ∧ elements s' = None.
Proof.
  destruct (stack_destroy_correct _ _ _ _ stack_sample_ok) as (w' & s' & H1 & H2 & _). exists w', s'. exact (conj H1 H2).
Defined.
