(* ===== verification/PtrStack.v ===== *)
(** * [Zend/zend_ptr_stack.c], [Zend/zend_ptr_stack.h]: the stack of pointers

    The elements are pointers of type [V] held in the array itself;
    [top_element] is kept by the code next to [top] and is an index here.  An
    access outside the array, or to a slot that was never written, is [None]. *)

From S2P Require Import Prelude.
Local Open Scope Z_scope.

Record zend_ptr_stack (V : Type) : Type := MkPtrStack {
  ptop : Z;
  pmax : Z;
  (** [None] is [NULL] *)
  pelements : option (list (option V));
  top_element : Z;
  ppersistent : bool
}.
Arguments MkPtrStack {V}. Arguments ptop {V}. Arguments pmax {V}. Arguments pelements {V}.
Arguments top_element {V}. Arguments ppersistent {V}.

Definition PTR_STACK_BLOCK_SIZE : Z := 64.

Section operations.
Context {V : Type}.
Implicit Types (stack : zend_ptr_stack V).

Definition zend_ptr_stack_init_ex (persistent : bool) : zend_ptr_stack V := MkPtrStack 0 0 None 0 persistent.
Definition zend_ptr_stack_init : zend_ptr_stack V := zend_ptr_stack_init_ex false.

(** [do { max += BLOCK; } while (need > max);] *)
Fixpoint grow_loop (fuel : nat) (need max : Z) : option Z :=
  match fuel with
  | O => None
  | S fuel' =>
      let max := s32 (max + PTR_STACK_BLOCK_SIZE) in
      if need >? max then grow_loop fuel' need max else Some max
  end.

Definition ZEND_PTR_STACK_RESIZE_IF_NEEDED stack (count : Z) : option (zend_ptr_stack V) :=
  if s32 (ptop stack + count) >? pmax stack then
    max ← grow_loop (S (Z.to_nat count)) (s32 (ptop stack + count)) (pmax stack);
    Some (MkPtrStack (ptop stack) max (Some (resize (Z.to_nat max) None (default [] (pelements stack))))
            (ptop stack) (ppersistent stack))
  else Some stack.

Definition add_top (n : Z) stack : zend_ptr_stack V :=
  MkPtrStack (s32 (ptop stack + n)) (pmax stack) (pelements stack) (top_element stack) (ppersistent stack).

(** [*(stack->top_element++) = v;] *)
Definition write_top stack (v : V) : option (zend_ptr_stack V) :=
  l ← pelements stack;
  if decide (0 ≤ top_element stack < Z.of_nat (length l)) then
    Some (MkPtrStack (ptop stack) (pmax stack) (Some (<[Z.to_nat (top_element stack) := Some v]> l))
            (top_element stack + 1) (ppersistent stack))
  else None.

(** [stack->elements[i]] *)
Definition element stack (i : Z) : option V :=
  l ← pelements stack;
  if decide (0 ≤ i) then mjoin (l !! Z.to_nat i) else None.

(** [*(--stack->top_element)] *)
Definition read_top stack : option (zend_ptr_stack V * V) :=
  v ← element stack (top_element stack - 1);
  Some (MkPtrStack (ptop stack) (pmax stack) (pelements stack) (top_element stack - 1) (ppersistent stack), v).

Fixpoint n_push_loop (count : nat) stack (args : list V) : option (zend_ptr_stack V) :=
  match count with
  | O => Some stack
  | S count' =>
      match args with
      | [] => None
      | elem :: args' =>
          stack ← write_top (add_top 1 stack) elem;
          n_push_loop count' stack args'
      end
  end.

Definition zend_ptr_stack_n_push stack (count : Z) (args : list V) : option (zend_ptr_stack V) :=
  stack ← ZEND_PTR_STACK_RESIZE_IF_NEEDED stack count;
  n_push_loop (Z.to_nat count) stack args.

(** the second result: what is written through each argument, in order *)
Fixpoint n_pop_loop (count : nat) stack : option (zend_ptr_stack V * list V) :=
  match count with
  | O => Some (stack, [])
  | S count' =>
      '(stack, v) ← read_top stack;
      '(stack, vs) ← n_pop_loop count' (add_top (-1) stack);
      Some (stack, v :: vs)
  end.

Definition zend_ptr_stack_n_pop stack (count : Z) : option (zend_ptr_stack V * list V) :=
  n_pop_loop (Z.to_nat count) stack.

Definition zend_ptr_stack_3_push stack (a b c : V) : option (zend_ptr_stack V) :=
  stack ← ZEND_PTR_STACK_RESIZE_IF_NEEDED stack 3;
  stack ← write_top (add_top 3 stack) a;
  stack ← write_top stack b;
  write_top stack c.

Definition zend_ptr_stack_2_push stack (a b : V) : option (zend_ptr_stack V) :=
  stack ← ZEND_PTR_STACK_RESIZE_IF_NEEDED stack 2;
  stack ← write_top (add_top 2 stack) a;
  write_top stack b.

Definition zend_ptr_stack_3_pop stack : option (zend_ptr_stack V * (V * V * V)) :=
  '(stack, a) ← read_top stack;
  '(stack, b) ← read_top stack;
  '(stack, c) ← read_top stack;
  Some (add_top (-3) stack, (a, b, c)).

Definition zend_ptr_stack_2_pop stack : option (zend_ptr_stack V * (V * V)) :=
  '(stack, a) ← read_top stack;
  '(stack, b) ← read_top stack;
  Some (add_top (-2) stack, (a, b)).

Definition zend_ptr_stack_push stack (ptr : V) : option (zend_ptr_stack V) :=
  stack ← ZEND_PTR_STACK_RESIZE_IF_NEEDED stack 1;
  write_top (add_top 1 stack) ptr.

Definition zend_ptr_stack_pop stack : option (zend_ptr_stack V * V) := read_top (add_top (-1) stack).

Definition zend_ptr_stack_top stack : option V := element stack (ptop stack - 1).

(** [int i = stack->top; while (--i >= 0) func(stack->elements[i]);] with the
    state [a] of [func] *)
Fixpoint ptr_apply_loop {A} (i : nat) stack (func : A → V → A) (a : A) : option A :=
  match i with
  | O => Some a
  | S i' => v ← element stack (Z.of_nat i'); ptr_apply_loop i' stack func (func a v)
  end.

Definition zend_ptr_stack_apply {A} stack (func : A → V → A) (a : A) : option A :=
  ptr_apply_loop (Z.to_nat (ptop stack)) stack func a.

(** the results: the stack, the state of [func] and the pointers given to [pefree] *)
Definition zend_ptr_stack_clean {A} stack (func : A → V → A) (free_elements : bool) (a : A)
    : option (zend_ptr_stack V * A * list V) :=
  a ← zend_ptr_stack_apply stack func a;
  freed ← (if free_elements then ptr_apply_loop (Z.to_nat (ptop stack)) stack (λ l v, l ++ [v]) [] else Some []);
  Some (MkPtrStack 0 (pmax stack) (pelements stack) 0 (ppersistent stack), a, freed).

Definition zend_ptr_stack_num_elements stack : Z := ptop stack.

End operations.

(** ** The invariant: the stack holds [vs], the bottom first *)

(** the block-wise capacity for [n] elements *)
Definition blocks (n : Z) : Z := 64 * ((n + 63) / 64).

Record ptr_stack_ok {V} (stack : zend_ptr_stack V) (vs : list V) : Prop := {
  po_top : ptop stack = Z.of_nat (length vs);
  po_max : ptop stack ≤ pmax stack < 2 ^ 31;
  po_blocks : ∃ k, pmax stack = 64 * k;
  po_elements : match pelements stack with
                | None => pmax stack = 0
                | Some l => Z.of_nat (length l) = pmax stack ∧ take (length vs) l = Some <$> vs
                end;
  po_top_element : top_element stack = Z.of_nat (length vs)
}.

Section lemmas.
Context {V : Type}.
Implicit Types (stack : zend_ptr_stack V) (vs : list V).

Lemma grow_loop_spec fuel need k :
  0 ≤ k → 64 * k < need → need + 64 < 2 ^ 31 → need - 64 * k ≤ Z.of_nat fuel →
  grow_loop fuel need (64 * k) = Some (blocks need).
Proof.
  revert k. induction fuel as [|fuel IH]; intros k Hk Hlt Hn Hf; [lia|]. cbn [grow_loop].
  unfold PTR_STACK_BLOCK_SIZE. rewrite s32_small by lia. replace (64 * k + 64) with (64 * (k + 1)) by lia.
  destruct (Z.gtb_spec need (64 * (k + 1))) as [Hgt|Hle].
  - apply IH; lia.
  - f_equal. unfold blocks. f_equal. apply (Z.div_unique _ _ _ (need + 63 - 64 * (k + 1))); lia.
Qed.

Lemma blocks_bounds n : n ≤ blocks n < n + 64.
Proof. unfold blocks. pose proof (Z.div_mod (n + 63) 64). pose proof (Z.mod_pos_bound (n + 63) 64). lia. Qed.

(** the capacity after making room for [count] more *)
Definition room_max stack (count : Z) : Z :=
  if ptop stack + count >? pmax stack then blocks (ptop stack + count) else pmax stack.

Lemma resize_run stack vs count :
  ptr_stack_ok stack vs → 0 ≤ count → ptop stack + count + 64 < 2 ^ 31 →
  ∃ stack', ZEND_PTR_STACK_RESIZE_IF_NEEDED stack count = Some stack' ∧ ptr_stack_ok stack' vs ∧
    pmax stack' = room_max stack count ∧ ptop stack + count ≤ pmax stack' ∧ ppersistent stack' = ppersistent stack ∧
    (0 < count → is_Some (pelements stack')).
Proof.
  intros [Ht Hmx [k Hk] He Hte] Hc Hroom. unfold ZEND_PTR_STACK_RESIZE_IF_NEEDED, room_max.
  rewrite s32_small by lia. destruct (Z.gtb_spec (ptop stack + count) (pmax stack)) as [Hgt|Hle].
  - pose proof (blocks_bounds (ptop stack + count)) as Hb. rewrite Hk, (grow_loop_spec _ _ k) by lia. simpl.
    eexists. split; [reflexivity|]. split; [|simpl; split_and!; try done; lia].
    split; simpl; try lia.
    + by eexists.
    + rewrite length_resize. split; [lia|]. rewrite take_resize_le by lia.
      destruct (pelements stack) as [l|]; simpl.
      * destruct He as [Hl Htk]. rewrite resize_le by lia. done.
      * destruct vs; [done|]. simpl in *. lia.
  - exists stack. split_and!; try done; [split; eauto|]. intros. destruct (pelements stack); [by eexists|lia].
Qed.

(** one write on top of the stack, whatever [ptop] says *)
Lemma write_top_run stack vs v l :
  pelements stack = Some l → top_element stack = Z.of_nat (length vs) → Z.of_nat (length vs) < Z.of_nat (length l) →
  take (length vs) l = Some <$> vs →
  ∃ l', write_top stack v = Some (MkPtrStack (ptop stack) (pmax stack) (Some l') (Z.of_nat (length (vs ++ [v]))) (ppersistent stack)) ∧
    length l' = length l ∧ take (length (vs ++ [v])) l' = Some <$> (vs ++ [v]).
Proof.
  intros Hl Hte Hlt Htk. unfold write_top. rewrite Hl, Hte. simpl. rewrite decide_True by lia. rewrite Nat2Z.id.
  eexists. split.
  - rewrite length_app. simpl. rewrite Nat2Z.inj_add. done.
  - rewrite length_insert, length_app, fmap_app. split; [done|]. simpl.
    rewrite Nat.add_1_r, (take_S_r _ _ (Some v)).
    + by rewrite take_insert_ge, Htk by lia.
    + apply list_lookup_insert_eq. lia.
Qed.

Lemma element_run stack vs i v : ptr_stack_ok stack vs → vs !! i = Some v → element stack (Z.of_nat i) = Some v.
Proof.
  intros [Ht Hmx _ He _] Hi. pose proof (lookup_lt_Some _ _ _ Hi) as Hlt. unfold element.
  destruct (pelements stack) as [l|]; [|lia]. destruct He as [Hl Htk]. simpl. rewrite decide_True by lia. rewrite Nat2Z.id.
  rewrite <-(lookup_take_lt l (length vs) i) by lia. by rewrite Htk, list_lookup_fmap, Hi.
Qed.

(** the stack under construction: [top_element] is at [vs], [ptop] [d] higher *)
Definition pending stack vs (d : Z) : Prop :=
  ∃ l, pelements stack = Some l ∧ Z.of_nat (length l) = pmax stack ∧ pmax stack < 2 ^ 31 ∧ (∃ k, pmax stack = 64 * k) ∧
    top_element stack = Z.of_nat (length vs) ∧ ptop stack = Z.of_nat (length vs) + d ∧
    take (length vs) l = Some <$> vs ∧ Z.of_nat (length vs) ≤ pmax stack.

Lemma pending_0 stack vs : pending stack vs 0 → ptr_stack_ok stack vs.
Proof. intros (l & Hl & Hlen & Hm & Hk & Hte & Ht & Htk & Hle). split; try lia; try done. by rewrite Hl. Qed.

Lemma ok_pending stack vs : ptr_stack_ok stack vs → is_Some (pelements stack) → pending stack vs 0.
Proof.
  intros [Ht Hmx Hk He Hte] [l Hl]. rewrite Hl in He. destruct He. exists l. split_and!; try done; lia.
Qed.

Lemma pending_add stack vs d n :
  pending stack vs d → - 2 ^ 31 ≤ ptop stack + n < 2 ^ 31 → pending (add_top n stack) vs (d + n).
Proof.
  intros (l & Hl & Hlen & Hm & Hk & Hte & Ht & Htk & Hle) Hn. exists l. split_and!; try done.
  simpl. rewrite s32_small by lia. lia.
Qed.

Lemma pending_write stack vs d v :
  pending stack vs d → Z.of_nat (length vs) < pmax stack →
  ∃ stack', write_top stack v = Some stack' ∧ pending stack' (vs ++ [v]) (d - 1) ∧ pmax stack' = pmax stack ∧
    ptop stack' = ptop stack.
Proof.
  intros (l & Hl & Hlen & Hm & Hk & Hte & Ht & Htk & Hle) Hlt.
  destruct (write_top_run stack vs v l Hl Hte ltac:(lia) Htk) as (l' & Hrun & Hl' & Htk').
  eexists. split; [exact Hrun|]. split; [|done]. exists l'. simpl. rewrite length_app in *. simpl in *.
  split_and!; try done; lia.
Qed.

Lemma pending_read stack vs d v :
  pending stack (vs ++ [v]) d →
  ∃ stack', read_top stack = Some (stack', v) ∧ pending stack' vs (d + 1) ∧ pmax stack' = pmax stack ∧ ptop stack' = ptop stack.
Proof.
  intros (l & Hl & Hlen & Hm & Hk & Hte & Ht & Htk & Hle). rewrite length_app in *. simpl in *.
  unfold read_top, element. rewrite Hl, Hte. simpl. rewrite decide_True by lia.
  replace (Z.to_nat (Z.of_nat (length vs + 1) - 1)) with (length vs) by lia.
  assert (l !! length vs = Some (Some v)) as ->.
  { rewrite <-(lookup_take_lt l (length vs + 1) (length vs)) by lia. by rewrite Htk, list_lookup_fmap, list_lookup_middle. }
  simpl. eexists. split; [reflexivity|]. split; [|done]. exists l. simpl. split_and!; try done; try lia.
  apply (f_equal (take (length vs))) in Htk. rewrite take_take, Nat.min_l in Htk by lia.
  rewrite Htk, fmap_app, take_app_le by (rewrite length_fmap; lia). apply take_ge. rewrite length_fmap. lia.
Qed.

Lemma n_push_loop_run stack vs args :
  pending stack vs 0 → Z.of_nat (length vs + length args) ≤ pmax stack →
  ∃ stack', n_push_loop (length args) stack args = Some stack' ∧ pending stack' (vs ++ args) 0 ∧ pmax stack' = pmax stack.
Proof.
  revert stack vs. induction args as [|v args IH]; intros stack vs Hp Hle.
  { exists stack. by rewrite app_nil_r. }
  cbn [length n_push_loop] in *.
  pose proof Hp as (l & _ & _ & Hm & _ & _ & Ht & _).
  destruct (pending_write (add_top 1 stack) vs 1 v) as (s1 & H1 & H2 & H3 & _); [by apply (pending_add _ _ 0); [|lia]|simpl; lia|].
  rewrite H1. simpl. destruct (IH s1 (vs ++ [v]) H2) as (s' & H4 & H5 & H6).
  { rewrite length_app, H3. simpl. lia. }
  exists s'. rewrite <-app_assoc in H5. split; [done|]. split; [done|]. by rewrite H6, H3.
Qed.

Lemma n_pop_loop_run stack vs args :
  pending stack (vs ++ args) 0 →
  ∃ stack', n_pop_loop (length args) stack = Some (stack', reverse args) ∧ pending stack' vs 0 ∧ pmax stack' = pmax stack.
Proof.
  revert stack. induction args as [|v args IH] using rev_ind; intros stack Hp.
  { exists stack. by rewrite app_nil_r in Hp. }
  rewrite length_app, Nat.add_comm. cbn [length Nat.add n_pop_loop]. rewrite app_assoc in Hp.
  pose proof Hp as (l & _ & Hlen & Hm & _ & _ & Ht & _ & Hle). rewrite length_app in Ht, Hle. simpl in Ht, Hle.
  destruct (pending_read stack _ _ v Hp) as (s1 & H1 & H2 & H3 & H4). rewrite H1. simpl.
  apply (pending_add _ _ _ (-1)) in H2; [|lia].
  destruct (IH _ H2) as (s' & H5 & H6 & H7). rewrite H5. simpl. exists s'. rewrite reverse_snoc. split; [done|].
  split; [done|]. rewrite H7. done.
Qed.

Lemma ptr_apply_loop_run {A} stack vs rest (func : A → V → A) a :
  ptr_stack_ok stack (vs ++ rest) →
  ptr_apply_loop (length vs) stack func a = Some (foldl func a (reverse vs)).
Proof.
  revert rest a. induction vs as [|v vs IH] using rev_ind; intros rest a Hs; [done|].
  rewrite length_app, Nat.add_comm. cbn [length Nat.add ptr_apply_loop].
  rewrite (element_run stack _ (length vs) v Hs) by (rewrite <-app_assoc; by apply list_lookup_middle).
  simpl. rewrite (IH (v :: rest)) by (by rewrite <-app_assoc in Hs). by rewrite reverse_snoc.
Qed.

Lemma foldl_snoc (vs l : list V) : foldl (λ l v, l ++ [v]) l vs = l ++ vs.
Proof.
  revert l. induction vs as [|v vs IH]; intros l; simpl; [by rewrite app_nil_r|]. by rewrite IH, <-app_assoc.
Qed.

End lemmas.

(** ** The unrolled variants *)

Section unrolled.
Context {V : Type}.
Implicit Types (stack : zend_ptr_stack V).

Lemma s32_s32 x y : s32 (s32 x + y) = s32 (x + y).
Proof.
  unfold s32. f_equal.
  replace ((x + 2 ^ 31) mod 2 ^ 32 - 2 ^ 31 + y + 2 ^ 31) with ((x + 2 ^ 31) mod 2 ^ 32 + y) by lia.
  rewrite Zplus_mod_idemp_l. f_equal. lia.
Qed.

Lemma add_top_add a b stack : add_top a (add_top b stack) = add_top (b + a) stack.
Proof. unfold add_top. simpl. by rewrite s32_s32, Z.add_assoc. Qed.

Lemma write_top_add n stack v : write_top (add_top n stack) v = add_top n <$> write_top stack v.
Proof. unfold write_top, add_top. simpl. destruct (pelements stack); simpl; [|done]. by case_decide. Qed.

Lemma read_top_add n stack : read_top (add_top n stack) = prod_map (add_top n) id <$> read_top stack.
Proof.
  unfold read_top, element, add_top. simpl. destruct (pelements stack); simpl; [|done]. case_decide; [|done].
  by destruct (mjoin _).
Qed.

(** what is popped, as a list *)
Definition list2 {A} (p : A * A) : list A := [p.1; p.2].
Definition list3 {A} (p : A * A * A) : list A := [p.1.1; p.1.2; p.2].

Lemma push_unrolled stack a b c :
  zend_ptr_stack_push stack a = zend_ptr_stack_n_push stack 1 [a] ∧
  zend_ptr_stack_2_push stack a b = zend_ptr_stack_n_push stack 2 [a; b] ∧
  zend_ptr_stack_3_push stack a b c = zend_ptr_stack_n_push stack 3 [a; b; c].
Proof.
  unfold zend_ptr_stack_push, zend_ptr_stack_2_push, zend_ptr_stack_3_push, zend_ptr_stack_n_push.
  split_and!; (destruct (ZEND_PTR_STACK_RESIZE_IF_NEEDED stack _) as [s|]; [|done]); cbn [mbind option_bind];
    match goal with |- context [Z.to_nat ?n] => change (Z.to_nat n) with (Pos.to_nat (Z.to_pos n)) end; simpl;
    rewrite !write_top_add; repeat (destruct (write_top _ _) as [?|]; simpl; [rewrite ?write_top_add|done]);
    rewrite ?add_top_add; try done;
    repeat (destruct (write_top _ _) as [?|]; simpl; [rewrite ?add_top_add|done]); done.
Qed.

Lemma pop_unrolled stack :
  prod_map id (λ v, [v]) <$> zend_ptr_stack_pop stack = zend_ptr_stack_n_pop stack 1 ∧
  prod_map id list2 <$> zend_ptr_stack_2_pop stack = zend_ptr_stack_n_pop stack 2 ∧
  prod_map id list3 <$> zend_ptr_stack_3_pop stack = zend_ptr_stack_n_pop stack 3.
Proof.
  unfold zend_ptr_stack_pop, zend_ptr_stack_2_pop, zend_ptr_stack_3_pop, zend_ptr_stack_n_pop.
  split_and!;
    match goal with |- context [Z.to_nat ?n] => change (Z.to_nat n) with (Pos.to_nat (Z.to_pos n)) end; simpl;
    rewrite ?read_top_add;
    repeat (destruct (read_top _) as [[??]|]; simpl; [rewrite ?read_top_add, ?add_top_add|done]); done.
Qed.

End unrolled.

(** ** Properties *)

Section contract.
Context {V : Type}.
Implicit Types (stack : zend_ptr_stack V) (vs : list V).

(** C37: [zend_ptr_stack_n_push] puts its arguments on the stack in order, growing
    the array to the least multiple of 64 slots that has room, and
    [zend_ptr_stack_n_pop] of as many gives them back last first and restores the
    stack; the array is never accessed outside its bounds. *)
Theorem ptr_stack_roundtrip stack vs args :
  ptr_stack_ok stack vs → ptop stack + Z.of_nat (length args) + 64 < 2 ^ 31 →
  ∃ stack', zend_ptr_stack_n_push stack (Z.of_nat (length args)) args = Some stack' ∧
    ptr_stack_ok stack' (vs ++ args) ∧ pmax stack' = room_max stack (Z.of_nat (length args)) ∧
    ∃ stack'', zend_ptr_stack_n_pop stack' (Z.of_nat (length args)) = Some (stack'', reverse args) ∧
      ptr_stack_ok stack'' vs ∧ pmax stack'' = pmax stack'.
Proof.
  intros Hs Hroom. unfold zend_ptr_stack_n_push, zend_ptr_stack_n_pop. rewrite Nat2Z.id.
  destruct (resize_run stack vs (Z.of_nat (length args)) Hs ltac:(lia) Hroom) as (s1 & -> & Hs1 & Hm1 & Hle & _ & Hel). simpl.
  destruct args as [|v args]; [by exists s1; rewrite app_nil_r; eauto 10|].
  pose proof (po_top _ _ Hs) as Ht. destruct (n_push_loop_run s1 vs (v :: args)) as (s2 & H1 & H2 & H3).
  { apply ok_pending; [done|]. apply Hel. simpl. lia. } { lia. }
  exists s2. split; [done|]. split; [by apply pending_0|]. split; [congruence|].
  destruct (n_pop_loop_run s2 vs (v :: args) H2) as (s3 & H4 & H5 & H6).
  exists s3. split; [done|]. split; [by apply pending_0|done].
Qed.

(** the versions unrolled for one, two and three pointers do what the general
    ones do, on every stack: the same array, [top], [top_element] and results, and
    the same accesses outside the array. *)
Theorem ptr_stack_unrolled stack a b c :
  (zend_ptr_stack_push stack a = zend_ptr_stack_n_push stack 1 [a] ∧
   zend_ptr_stack_2_push stack a b = zend_ptr_stack_n_push stack 2 [a; b] ∧
   zend_ptr_stack_3_push stack a b c = zend_ptr_stack_n_push stack 3 [a; b; c]) ∧
  (prod_map id (λ v, [v]) <$> zend_ptr_stack_pop stack = zend_ptr_stack_n_pop stack 1 ∧
   prod_map id list2 <$> zend_ptr_stack_2_pop stack = zend_ptr_stack_n_pop stack 2 ∧
   prod_map id list3 <$> zend_ptr_stack_3_pop stack = zend_ptr_stack_n_pop stack 3).
Proof. split; [apply push_unrolled|apply pop_unrolled]. Qed.

(** [zend_ptr_stack_apply] calls the function from the top down;
    [zend_ptr_stack_clean] does so, then frees the pointers in the same order when
    asked to, and leaves an empty stack that keeps its array. *)
Theorem ptr_stack_clean_correct {A} stack vs (func : A → V → A) a free_elements :
  ptr_stack_ok stack vs →
  zend_ptr_stack_apply stack func a = Some (foldl func a (reverse vs)) ∧
  zend_ptr_stack_num_elements stack = Z.of_nat (length vs) ∧
  (∀ v vs', vs = vs' ++ [v] → zend_ptr_stack_top stack = Some v) ∧
  ∃ stack', zend_ptr_stack_clean stack func free_elements a =
      Some (stack', foldl func a (reverse vs), if free_elements then reverse vs else []) ∧
    ptr_stack_ok stack' [] ∧ pelements stack' = pelements stack.
Proof.
  intros Hs. pose proof Hs as [Ht Hmx Hk He Hte].
  assert (Happ : ∀ B (f : B → V → B) b, ptr_apply_loop (Z.to_nat (ptop stack)) stack f b = Some (foldl f b (reverse vs))).
  { intros B f b. rewrite Ht, Nat2Z.id. apply (ptr_apply_loop_run stack vs []). by rewrite app_nil_r. }
  unfold zend_ptr_stack_clean, zend_ptr_stack_apply. rewrite !Happ. split_and!; try done.
  - intros v vs' ->. unfold zend_ptr_stack_top. rewrite Ht, length_app. simpl.
    replace (Z.of_nat (length vs' + 1) - 1) with (Z.of_nat (length vs')) by lia.
    eapply element_run; [exact Hs|]. by apply list_lookup_middle.
  - simpl. eexists. split.
    + by destruct free_elements; [simpl; rewrite foldl_snoc|].
    + split; [|done]. split; simpl; try done; [lia|]. destruct (pelements stack); [|done]. by destruct He.
Qed.

End contract.

Lemma ptr_init_ok {V} persistent : ptr_stack_ok (V := V) (zend_ptr_stack_init_ex persistent) [].
Proof. split; simpl; try done. by exists 0. Qed.

Definition ptr_sample : zend_ptr_stack Z := default zend_ptr_stack_init (zend_ptr_stack_2_push zend_ptr_stack_init 10 20).

Lemma ptr_sample_ok : ptr_stack_ok ptr_sample [10; 20].
Proof. split; simpl; try done. by exists 1. Qed.

Lemma ptr_stack_roundtrip_witness :
  ∃ stack', zend_ptr_stack_n_push ptr_sample 2 [30; 40] = Some stack' ∧ pmax stack' = 64 ∧
    ∃ stack'', zend_ptr_stack_n_pop stack' 2 = Some (stack'', [40; 30]) ∧ ptr_stack_ok stack'' [10; 20].
Proof.
  destruct (ptr_stack_roundtrip ptr_sample [10; 20] [30; 40] ptr_sample_ok ltac:(reflexivity))
    as (s & H1 & _ & H2 & s' & H3 & H4 & _).
  exists s. refine (conj H1 (conj H2 _)). exists s'. exact (conj H3 H4).
Defined.

Lemma ptr_stack_clean_correct_witness :
  ∃ stack', zend_ptr_stack_clean ptr_sample (λ a v, a + v) true 0 = Some (stack', 30, [20; 10]) ∧ ptr_stack_ok stack' [].
Proof.
  destruct (ptr_stack_clean_correct ptr_sample _ (λ a v, a + v) 0 true ptr_sample_ok) as (_ & _ & _ & s & H1 & H2 & _).
  exists s. exact (conj H1 H2).
Defined.
