(* ===== verification/DynArray.v ===== *)
(** * [Zend/zend_dynamic_array.c]: the growing array of fixed-size elements

    Addresses are byte offsets into the block [array], of which only the size is
    kept: the functions hand out addresses and never look at the elements.  The
    products are of [unsigned int]s and wrap. *)

From S2P Require Import Prelude.
Local Open Scope Z_scope.

Record dynamic_array : Type := MkDynArray {
  (** the size in bytes of the block that [array] points to *)
  array : Z;
  element_size : Z;
  current : Z;
  allocated : Z
}.

(** The result of the C function is 1 when [emalloc] returns [NULL], which it never
    does: a failed allocation ends the request. *)
Definition zend_dynamic_array_init (element_size size : Z) : dynamic_array * Z :=
  (MkDynArray (u32 (size * element_size)) element_size 0 size, 0).

Definition zend_dynamic_array_push (da : dynamic_array) : dynamic_array * Z :=
  let da :=
    if current da =? allocated da then
      let allocated := u32 (allocated da * 2) in
      MkDynArray (u32 (allocated * element_size da)) (element_size da) (current da) allocated
    else da in
  (MkDynArray (array da) (element_size da) (u32 (current da + 1)) (allocated da), u32 (current da * element_size da)).

Definition zend_dynamic_array_pop (da : dynamic_array) : dynamic_array * Z :=
  let da := MkDynArray (array da) (element_size da) (u32 (current da - 1)) (allocated da) in
  (da, u32 (current da * element_size da)).

(** [None] is [NULL] *)
Definition zend_dynamic_array_get_element (da : dynamic_array) (index : Z) : option Z :=
  if index >=? current da then None else Some (u32 (index * element_size da)).

(** ** The invariant *)

Record dyn_ok (da : dynamic_array) : Prop := {
  do_size : 0 < element_size da;
  do_alloc : 0 < allocated da;
  do_block : array da = allocated da * element_size da;
  do_fits : allocated da * element_size da < 2 ^ 32;
  do_current : 0 ≤ current da ≤ allocated da
}.

(** the element at byte [off] lies in the block *)
Definition in_block (da : dynamic_array) (off : Z) : Prop := 0 ≤ off ∧ off + element_size da ≤ array da.

(** the offset of element [i] of an array of [n] *)
Lemma element_offset (i n s : Z) : 0 < s → 0 ≤ i < n → n * s < 2 ^ 32 → u32 (i * s) = i * s ∧ 0 ≤ i * s ∧ i * s + s ≤ n * s.
Proof.
  intros Hs Hi Hn. assert (0 ≤ i * s) by nia. assert (i * s + s ≤ n * s) by nia.
  split; [|done]. apply u32_small. lia.
Qed.

(** ** Properties *)

(** on a well-formed array [zend_dynamic_array_push] returns the address of the
    next element, inside the block, doubling the block exactly when it is full;
    [zend_dynamic_array_pop] then returns the same address and undoes it;
    [zend_dynamic_array_get_element] answers [NULL] past the end and otherwise an
    address inside the block, the same as when the element was pushed, and distinct
    elements do not overlap. *)
Theorem dynamic_array_in_bounds da da' off :
  dyn_ok da → allocated da * 2 * element_size da < 2 ^ 32 → zend_dynamic_array_push da = (da', off) →
  (dyn_ok da' ∧ current da' = current da + 1 ∧ in_block da' off ∧
   allocated da' = (if current da =? allocated da then allocated da * 2 else allocated da)) ∧
  (∃ da'', zend_dynamic_array_pop da' = (da'', off) ∧ dyn_ok da'' ∧ current da'' = current da) ∧
  zend_dynamic_array_get_element da' (current da) = Some off ∧
  (∀ i, 0 ≤ i → zend_dynamic_array_get_element da i = None ↔ current da ≤ i) ∧
  ∀ i j oi oj, 0 ≤ i < j → zend_dynamic_array_get_element da i = Some oi → zend_dynamic_array_get_element da j = Some oj →
    in_block da oi ∧ in_block da oj ∧ oi + element_size da ≤ oj ∧
    zend_dynamic_array_get_element da' i = Some oi.
Proof.
  intros [Hs Ha Hb Hf Hc] Hroom. unfold zend_dynamic_array_push.
  assert (allocated da ≤ allocated da * element_size da) by nia.
  set (da1 := if current da =? allocated da then _ else da).
  assert (H1 : element_size da1 = element_size da ∧ current da1 = current da ∧
    allocated da1 = (if current da =? allocated da then allocated da * 2 else allocated da) ∧
    array da1 = allocated da1 * element_size da ∧ current da < allocated da1 ∧ allocated da1 * element_size da < 2 ^ 32).
  { assert (0 ≤ allocated da * 2 < 2 ^ 32) by nia. unfold da1.
    destruct (Z.eqb_spec (current da) (allocated da)); cbn [element_size current allocated array].
    - rewrite (u32_small (allocated da * 2)) by done. rewrite u32_small by nia. split_and!; try done; lia.
    - split_and!; try done; lia. }
  clearbody da1. destruct H1 as (E1 & E2 & E3 & E4 & E5 & E6). intros [= <- <-].
  assert (allocated da1 ≤ allocated da1 * element_size da) by nia.
  destruct (element_offset (current da) (allocated da1) (element_size da) Hs ltac:(lia) E6) as (O1 & O2 & O3).
  rewrite E1, E2. assert (U : u32 (current da + 1) = current da + 1) by (apply u32_small; lia).
  split; [split_and!; [split|..]; try done; simpl; rewrite ?U, ?E1, ?E4; try done; try lia|].
  { split; simpl; rewrite ?O1, ?E1, ?E4; lia. }
  split; [|split_and!].
  - unfold zend_dynamic_array_pop. simpl. rewrite U.
    replace (current da + 1 - 1) with (current da) by lia. rewrite (u32_small (current da)) by lia.
    eexists. split; [reflexivity|]. split; [split|]; simpl; lia.
  - unfold zend_dynamic_array_get_element. simpl. rewrite U. destruct (Z.geb_spec (current da) (current da + 1)); [lia|].
    done.
  - intros i Hi. unfold zend_dynamic_array_get_element. destruct (Z.geb_spec i (current da)); split; try done; lia.
  - intros i j oi oj Hij. unfold zend_dynamic_array_get_element. simpl. rewrite U.
    destruct (Z.geb_spec i (current da)); [done|]. destruct (Z.geb_spec j (current da)); [done|]. intros [= <-] [= <-].
    destruct (element_offset i (allocated da) _ Hs ltac:(lia) Hf) as (-> & P2 & P3).
    destruct (element_offset j (allocated da) _ Hs ltac:(lia) Hf) as (-> & Q2 & Q3).
    destruct (Z.geb_spec i (current da + 1)); [lia|]. unfold in_block. split_and!; try done; nia.
Qed.

(** An array made with room for no element never grows, since its size is
    doubled from 0: the first push returns an address outside the (empty) block, and
    so does the element looked up afterwards. *)
Theorem dynamic_array_size_zero s :
  let da := (zend_dynamic_array_init s 0).1 in
  let da' := (zend_dynamic_array_push da).1 in
  (zend_dynamic_array_push da).2 = 0 ∧ array da' = 0 ∧ allocated da' = 0 ∧
  zend_dynamic_array_get_element da' 0 = Some 0 ∧ ¬ (0 < s ∧ in_block da' 0).
Proof. split_and!; try done. intros [Hs [_ H]]. change (0 + s ≤ 0) in H. lia. Qed.

Lemma dynamic_array_in_bounds_witness :
  dyn_ok (MkDynArray 16 8 2 2) ∧ zend_dynamic_array_push (MkDynArray 16 8 2 2) = (MkDynArray 32 8 3 4, 16) ∧
  in_block (MkDynArray 32 8 3 4) 16 ∧ zend_dynamic_array_get_element (MkDynArray 32 8 3 4) 2 = Some 16.
Proof.
  assert (H : dyn_ok (MkDynArray 16 8 2 2)) by (split; simpl; lia).
  destruct (dynamic_array_in_bounds (MkDynArray 16 8 2 2) _ _ H ltac:(reflexivity) eq_refl) as ((_ & _ & H1 & _) & _ & H2 & _).
  exact (conj H (conj eq_refl (conj H1 H2))).
Defined.
