(* ===== verification/ZListModel.v ===== *)
(** * [Zend/zend_list.c]: the resource lists

    The lists of resources are hash tables of [zend_rsrc_list_entry]s, keyed by
    the resource's number; the table [list_destructors] says for each type of
    resource how to destroy it.  They share no bucket, so the two kinds of tables
    live in two memories.  Function pointers and the resources are addresses; the
    calls that a destructor makes are the list of calls it returns. *)

From S2P Require Import Prelude HashModel.
Local Open Scope Z_scope.
Local Open Scope effect_scope.

Record zend_rsrc_list_entry : Type := MkEntry {
  le_ptr : Z;
  le_type : Z;
  le_refcount : Z
}.
Definition set_refcount (n : Z) le := MkEntry (le_ptr le) (le_type le) n.

Definition ZEND_RESOURCE_LIST_TYPE_STD : Z := 1.
Definition ZEND_RESOURCE_LIST_TYPE_EX : Z := 2.

Record zend_rsrc_list_dtors_entry : Type := MkDtors {
  list_dtor : option Z;
  plist_dtor : option Z;
  list_dtor_ex : option Z;
  plist_dtor_ex : option Z;
  type_name : option bytes;
  module_number : Z;
  resource_id : Z;
  ld_type : Z
}.

(** [sizeof] of the two structures *)
Definition sizeof_entry : Z := 16.
Definition sizeof_dtors : Z := 56.

Definition IS_RESOURCE : Z := 7.
Record zval : Type := MkZval { z_type : Z; z_lval : Z }.

Abbreviation entry_mem := (mem (Bucket zend_rsrc_list_entry) (event zend_rsrc_list_entry)).
Abbreviation dtors_mem := (mem (Bucket zend_rsrc_list_dtors_entry) (event zend_rsrc_list_dtors_entry)).
Abbreviation EM := (M entry_mem).
Abbreviation DM := (M dtors_mem).

(** running in one of the two memories *)
Definition in_entries {A} (m : EM A) : M (entry_mem * dtors_mem) A :=
  λ w, match m w.1 with Done a w1 => Done a (w1, w.2) | Bailout w1 => Bailout (w1, w.2) | Stuck => Stuck end.
Definition in_dtors {A} (m : DM A) : M (entry_mem * dtors_mem) A :=
  λ w, match m w.2 with Done a w2 => Done a (w.1, w2) | Bailout w2 => Bailout (w.1, w2) | Stuck => Stuck end.

(** an [int] passed as an [ulong] *)
Definition ulong_of_int (n : Z) : Z := u64 n.

Section operations.
Implicit Types (regular_list persistent_list list_destructors : HashTable).

Definition zend_list_insert regular_list (ptr type : Z) : EM (HashTable * Z) :=
  let le := MkEntry ptr type 1 in
  let index := s32 (zend_hash_next_free_element regular_list) in
  let! '(regular_list, _, _) := zend_hash_index_update regular_list (ulong_of_int index) le sizeof_entry in
  ret (regular_list, index).

(** [zend_hash_index_find] followed by a read of the entry *)
Definition find_entry regular_list (id : Z) : EM (option (ptr * zend_rsrc_list_entry)) :=
  let! p := zend_hash_index_find regular_list (ulong_of_int id) in
  match p with
  | Some p => let! b := load p in ret (Some (p, data_val (pData b)))
  | None => ret None
  end.

Definition _zend_list_delete regular_list (id : Z) : EM (HashTable * Z) :=
  let! r := find_entry regular_list id in
  match r with
  | Some (p, le) =>
      let n := s32 (le_refcount le - 1) in
      store p (λ b, set_pData (data_write (set_refcount n le) (pData b)) b) ;;;
      if n <=? 0 then zend_hash_index_del regular_list (ulong_of_int id)
      else ret (regular_list, SUCCESS)
  | None => ret (regular_list, FAILURE)
  end.

(** the result and [*type]; [NULL] is 0 *)
Definition _zend_list_find regular_list (id : Z) : EM (Z * Z) :=
  let! r := find_entry regular_list id in
  ret (match r with Some (_, le) => (le_ptr le, le_type le) | None => (0, -1) end).

Definition _zend_list_addref regular_list (id : Z) : EM Z :=
  let! r := find_entry regular_list id in
  match r with
  | Some (p, le) =>
      store p (λ b, set_pData (data_write (set_refcount (s32 (le_refcount le + 1)) le) (pData b)) b) ;;;
      ret SUCCESS
  | None => ret FAILURE
  end.

(** the third result is the new [*rsrc_result] *)
Definition zend_register_resource regular_list (rsrc_result : option zval) (rsrc_pointer rsrc_type : Z)
    : EM (HashTable * Z * option zval) :=
  let! '(regular_list, rsrc_id) := zend_list_insert regular_list rsrc_pointer rsrc_type in
  ret (regular_list, rsrc_id, (λ _, MkZval IS_RESOURCE rsrc_id) <$> rsrc_result).

(** the four warnings of [zend_fetch_resource] *)
Inductive fetch_warning : Type :=
| NoResourceSupplied
| NotAResource
| NotValid (id : Z)
| WrongType.

(** [for (i=0; i<num_resource_types; i++) if (actual == va_arg(...)) ...] *)
Fixpoint type_loop (n : nat) (actual : Z) (resource_types : list Z) : option bool :=
  match n with
  | O => Some false
  | S n' =>
      match resource_types with
      | [] => None
      | t :: ts => if actual =? t then Some true else type_loop n' actual ts
      end
  end.

(** the resource, what is written to [*found_resource_type], and the warning;
    [named] says whether [resource_type_name] is given *)
Definition zend_fetch_resource regular_list (passed_id : option zval) (default_id : Z) (named : bool)
    (num_resource_types : Z) (resource_types : list Z) : EM (Z * option Z * option fetch_warning) :=
  let warn w := if named then Some w else None in
  let by_id id :=
    let! '(resource, actual_resource_type) := _zend_list_find regular_list id in
    if resource =? 0 then ret (0, None, warn (NotValid id))
    else
      let! b := of_option (type_loop (Z.to_nat num_resource_types) actual_resource_type resource_types) in
      if b then ret (resource, Some actual_resource_type, None) else ret (0, None, warn WrongType) in
  if default_id =? -1 then
    match passed_id with
    | None => ret (0, None, warn NoResourceSupplied)
    | Some z => if negb (z_type z =? IS_RESOURCE) then ret (0, None, warn NotAResource) else by_id (s32 (z_lval z))
    end
  else by_id default_id.

(** *** Destructors *)

Inductive rsrc_call : Type :=
| CallStd (f : Z) (ptr : Z)
| CallEx (f : Z) (le : zend_rsrc_list_entry)
| WarnUnknownType (type : Z).

Definition find_dtors list_destructors (type : Z) : DM (option zend_rsrc_list_dtors_entry) :=
  let! p := zend_hash_index_find list_destructors (ulong_of_int type) in
  match p with
  | Some p => let! b := load p in ret (Some (data_val (pData b)))
  | None => ret None
  end.

(** the switch on [ld->type], with the two functions [std] and [ex] of [ld] *)
Definition run_dtor (ld : zend_rsrc_list_dtors_entry) (std ex : option Z) (le : zend_rsrc_list_entry) : DM (list rsrc_call) :=
  if ld_type ld =? ZEND_RESOURCE_LIST_TYPE_STD then
    ret (match std with Some f => [CallStd f (le_ptr le)] | None => [] end)
  else if ld_type ld =? ZEND_RESOURCE_LIST_TYPE_EX then
    ret (match ex with Some f => [CallEx f le] | None => [] end)
  else stuck.

Definition list_entry_destructor list_destructors (le : zend_rsrc_list_entry) : DM (list rsrc_call) :=
  let! r := find_dtors list_destructors (le_type le) in
  match r with
  | Some ld => run_dtor ld (list_dtor ld) (list_dtor_ex ld) le
  | None => ret [WarnUnknownType (le_type le)]
  end.

Definition plist_entry_destructor list_destructors (le : zend_rsrc_list_entry) : DM (list rsrc_call) :=
  let! r := find_dtors list_destructors (le_type le) in
  match r with
  | Some ld => run_dtor ld (plist_dtor ld) (plist_dtor_ex ld) le
  | None => ret [WarnUnknownType (le_type le)]
  end.

Definition zend_init_rsrc_list : HashTable * Z :=
  (set_nNextFreeElement 1 (_zend_hash_init 0 true false), SUCCESS).
Definition zend_init_rsrc_plist : HashTable * Z := (_zend_hash_init_ex 0 true true false, SUCCESS).
Definition zend_destroy_rsrc_list (ht : HashTable) : EM unit := zend_hash_graceful_reverse_destroy ht.

(** the value returned is the request to delete *)
Definition clean_module_resource (le : zend_rsrc_list_entry) (resource_id : Z) : Z :=
  if le_type le =? resource_id then 1 else 0.

(** The persistent list and its memory are the state of the callback. *)
Definition zend_clean_module_rsrc_dtors_cb (ld : zend_rsrc_list_dtors_entry) (module_number_ : Z)
    (persistent_list : outcome entry_mem HashTable)
    : outcome entry_mem HashTable * zend_rsrc_list_dtors_entry * Z :=
  if module_number ld =? module_number_ then
    (match persistent_list with
     | Done pl w =>
         bind (zend_hash_apply_with_argument pl (λ le id, (id, le, clean_module_resource le id)) (resource_id ld))
           (λ r, ret r.2) w
     | o => o
     end, ld, 1)
  else (persistent_list, ld, 0).

(** the results: the persistent list, [list_destructors] *)
Definition zend_clean_module_rsrc_dtors persistent_list list_destructors (module_number : Z)
    : M (entry_mem * dtors_mem) (HashTable * HashTable) :=
  λ w,
    match zend_hash_apply_with_argument list_destructors
            (λ ld pl, zend_clean_module_rsrc_dtors_cb ld module_number pl) (Done persistent_list w.1) w.2 with
    | Done (Done pl w1, ld) w2 => Done (pl, ld) (w1, w2)
    | Done (Bailout w1, _) w2 => Bailout (w1, w2)
    | Bailout w2 => Bailout (w.1, w2)
    | _ => Stuck
    end.

Definition register_entry list_destructors (lde : zend_rsrc_list_dtors_entry) : DM (HashTable * Z) :=
  let! '(list_destructors, r, _) := zend_hash_next_index_insert list_destructors lde sizeof_dtors in
  if r =? FAILURE then ret (list_destructors, FAILURE)
  else ret (list_destructors, s32 (u64 (nNextFreeElement list_destructors - 1))).

Definition zend_register_list_destructors list_destructors (ld pld : option Z) (module_number : Z) : DM (HashTable * Z) :=
  register_entry list_destructors
    (MkDtors ld pld None None None module_number (s32 (nNextFreeElement list_destructors)) ZEND_RESOURCE_LIST_TYPE_STD).

Definition zend_register_list_destructors_ex list_destructors (ld pld : option Z) (type_name : option bytes)
    (module_number : Z) : DM (HashTable * Z) :=
  register_entry list_destructors
    (MkDtors None None ld pld type_name module_number (s32 (nNextFreeElement list_destructors)) ZEND_RESOURCE_LIST_TYPE_EX).

(** [type_name && strcmp(...) == 0], on strings without their terminating NUL *)
Definition same_name (name : bytes) (lde : zend_rsrc_list_dtors_entry) : bool :=
  match type_name lde with Some n => bool_decide (name = n) | None => false end.

Fixpoint dtor_id_loop (fuel : nat) (name : bytes) list_destructors (pos : option (option ptr)) : DM Z :=
  let! d := zend_hash_get_current_data_ex list_destructors pos in
  match d, fuel with
  | None, _ => ret 0
  | _, O => stuck
  | Some p, S fuel' =>
      let! b := load p in
      if same_name name (data_val (pData b)) then ret (resource_id (data_val (pData b)))
      else
        let! '(list_destructors, pos, _) := zend_hash_move_forward_ex list_destructors pos in
        dtor_id_loop fuel' name list_destructors pos
  end.

(** [pos] is a variable of the function: its content before the reset is indeterminate. *)
Definition zend_fetch_list_dtor_id (name : bytes) list_destructors : DM Z :=
  let! fuel := get_fuel in
  let '(list_destructors, pos) := zend_hash_internal_pointer_reset_ex list_destructors (Some None) in
  dtor_id_loop fuel name list_destructors pos.

Definition zend_init_rsrc_list_dtors : HashTable * Z :=
  (set_nNextFreeElement 1 (_zend_hash_init 50 false true), SUCCESS).

Definition zend_destroy_rsrc_list_dtors list_destructors : DM unit := zend_hash_destroy list_destructors.

Definition zend_rsrc_list_get_rsrc_type regular_list list_destructors (resource : Z)
    : M (entry_mem * dtors_mem) (option bytes) :=
  let! '(p, rsrc_type) := in_entries (_zend_list_find regular_list resource) in
  if p =? 0 then ret None
  else
    let! r := in_dtors (find_dtors list_destructors rsrc_type) in
    ret (match r with Some lde => type_name lde | None => None end).

End operations.
