(* ===== verification/ZListSpec.v ===== *)
(** * Resource lists: specification

    A list of resources holds an association list from resource numbers to
    entries, as the hash table does ([tbl]); each operation of [zend_list.c] is a
    function of that list. *)

From S2P Require Import Prelude HashModel HashRepr HashFacts HashInsert HashOps HashLoops HashCopy HashWalk.
From S2P Require Import HashSpec ZListModel.
Local Open Scope Z_scope.

Section index.
Context {V : Type}.
Implicit Types (ht : HashTable) (w : mem (Bucket V) (event V)) (es : list (key * V)).

(** a lookup by number, and the bucket it finds *)
Lemma index_find_spec w ht order es i :
  tbl w ht order es → 0 ≤ i →
  match al_find (KInt i) es with
  | Some v => ∃ p b, zend_hash_index_find ht i w = Done (Some p) w ∧ ptr_of (KInt i) order es = Some p ∧
                cells w !! p = Some b ∧ data_val (pData b) = v
  | None => zend_hash_index_find ht i w = Done None w
  end.
Proof.
  intros Ht Hi. pose proof (index_find_run w ht order es i Ht Hi) as Hrun.
  pose proof (ptr_of_al_find (KInt i) _ _ _ (r_entries _ _ _ _ (t_repr _ _ _ _ Ht))) as Hp.
  destruct (ptr_of (KInt i) order es) as [p|].
  - destruct Hp as (b & v & Hb & -> & Hv). exists p, b. done.
  - by rewrite Hp.
Qed.

Lemma index_del_run w ht order es i :
  tbl w ht order es → 0 ≤ i →
  ∃ w' ht' order',
    zend_hash_index_del ht i w = Done (ht', match al_find (KInt i) es with Some _ => SUCCESS | None => FAILURE end) w' ∧
    tbl w' ht' order' (al_delete (KInt i) es) ∧
    trace w' = trace w ++ match al_find (KInt i) es with Some v => dtor_events (pDestructor ht) [v] | None => [] end.
Proof.
  intros Ht Hi. pose proof Ht as [Hm Hr _].
  destruct (del_post_of (KInt i) w ht order es (del_test KNull 0 i) i Ht) as (w' & ht' & order' & H1 & H2 & _ & _ & H3).
  { apply (chain_lookup w ht order es (KInt i)); [done|done|done|]. intros p b k' v Hp Hb He. by eapply del_test_index. }
  exists w', ht', order'. split; [|done]. unfold zend_hash_index_del, zend_hash_del_key_or_index. simpl (_ =? _). cbn match.
  erewrite bind_Done by reflexivity. exact H1.
Qed.

Lemma al_update_same k (v v' : V) es : al_update k v' (al_update k v es) = al_update k v' es.
Proof.
  induction es as [|[k' x] es IH]; simpl; [by rewrite decide_True|].
  case_decide; simpl; [by rewrite decide_True|]. rewrite decide_False by done. by rewrite IH.
Qed.

Lemma al_find_update k (v : V) es : al_find k (al_update k v es) = Some v.
Proof.
  induction es as [|[k' x] es IH]; simpl; [by rewrite decide_True|].
  case_decide; simpl; [by rewrite decide_True|]. by rewrite decide_False.
Qed.

Lemma al_delete_update k (v : V) es : is_Some (al_find k es) → al_delete k (al_update k v es) = al_delete k es.
Proof.
  unfold al_delete. intros [v0 Hf]. induction es as [|[k' x] es IH]; simpl in *; [done|].
  case_decide; subst.
  - by rewrite !filter_cons_False by (simpl; tauto).
  - rewrite !filter_cons_True by (simpl; tauto). by rewrite IH.
Qed.

(** the next free number is not a key *)
Lemma next_free_absent w ht order es :
  tbl w ht order es → nNextFreeElement ht < LONG_MAX → al_find (KInt (nNextFreeElement ht)) es = None.
Proof.
  intros Ht Hn. apply al_find_None. intros ([k v] & Hk & Hin)%list_elem_of_fmap. simpl in Hk. subst k.
  destruct (r_next _ _ _ _ (t_repr _ _ _ _ Ht)) as [H0 Hnx].
  destruct (Hnx _ _ Hin) as [Hlt|Heq]; [|lia]. rewrite s64_id in Hlt by (unfold LONG_MAX in *; lia). lia.
Qed.

(** setting [nNextFreeElement] of an empty table *)
Lemma empty_next_tbl w ht n : tbl w ht [] [] → 0 ≤ n ≤ LONG_MAX → tbl w (set_nNextFreeElement n ht) [] [].
Proof.
  intros [Hm [] Hc] Hn. split; [done| |done]. split; try done. split; [done|]. by intros ? ? ?%elem_of_nil.
Qed.

End index.

(** ** Entries *)

Section entries.
Implicit Types (rl : HashTable) (w : entry_mem) (es : list (key * zend_rsrc_list_entry)) (le : zend_rsrc_list_entry).

(** the key of the resource number [id] *)
Definition rkey (id : Z) : key := KInt (ulong_of_int id).

Lemma find_entry_run w rl order es id :
  tbl w rl order es →
  match al_find (rkey id) es with
  | Some le => ∃ p, find_entry rl id w = Done (Some (p, le)) w ∧ ptr_of (rkey id) order es = Some p
  | None => find_entry rl id w = Done None w
  end.
Proof.
  intros Ht. pose proof (u64_range id) as Hu.
  pose proof (index_find_spec w rl order es (ulong_of_int id) Ht ltac:(unfold ulong_of_int; lia)) as Hf.
  unfold rkey, find_entry. destruct (al_find _ es) as [le|].
  - destruct Hf as (p & b & Hrun & Hp & Hb & Hv). exists p. split; [|done].
    rewrite (bind_Done _ _ _ _ _ Hrun), (bind_Done _ _ _ _ _ (load_Done _ _ _ Hb)). by rewrite Hv.
  - by rewrite (bind_Done _ _ _ _ _ Hf).
Qed.

(** the write to an entry's [refcount] *)
Lemma refcount_run w rl order es id le p n :
  tbl w rl order es → al_find (rkey id) es = Some le → ptr_of (rkey id) order es = Some p →
  ∃ w', store p (λ b, set_pData (data_write (set_refcount n le) (pData b)) b) w = Done tt w' ∧
    tbl w' rl order (al_update (rkey id) (set_refcount n le) es) ∧ trace w' = trace w.
Proof.
  intros Ht Hf Hp.
  destruct (ptr_of_set_data w rl order es _ le p (λ b, data_write (set_refcount n le) (pData b)) Ht Hp Hf)
    as (b & Hb & _ & _ & Ht').
  eexists. split; [by apply store_Done; rewrite Hb|]. split; [|done].
  assert (data_val (data_write (set_refcount n le) (pData b)) = set_refcount n le) as E by (by destruct (pData b)).
  rewrite E in Ht'. exact Ht'.
Qed.

Lemma insert_run w rl order es ptr type :
  tbl w rl order es → nNextFreeElement rl < 2 ^ 31 → Z.of_nat (length order) + 1 < 2 ^ 32 →
  let id := nNextFreeElement rl in
  ∃ w' rl' order', zend_list_insert rl ptr type w = Done (rl', id) w' ∧
    tbl w' rl' order' (es ++ [(rkey id, MkEntry ptr type 1)]) ∧ al_find (rkey id) es = None ∧
    nNextFreeElement rl' = id + 1 ∧ trace w' = trace w ∧ ht_cfg rl' = ht_cfg rl.
Proof.
  intros Ht Hn Hl id. destruct (r_next _ _ _ _ (t_repr _ _ _ _ Ht)) as [H0 _]. fold id in H0, Hn.
  assert (Hid : s32 id = id ∧ ulong_of_int id = id).
  { split; [by apply s32_small; lia|]. apply u64_small. lia. } destruct Hid as [Hs Hu].
  assert (Hab : al_find (KInt id) es = None) by (apply (next_free_absent w rl order es Ht); unfold LONG_MAX; fold id; lia).
  destruct (index_update_or_next_insert_post w rl order es id (MkEntry ptr type 1) sizeof_entry HASH_UPDATE Ht)
    as (w' & rl' & order' & r & pd & Hrun & [P1 P2 P3 P4 P5 P6 P7 P8 P9]); [lia|done|].
  change (flag_set HASH_UPDATE HASH_NEXT_INSERT) with false in *. change (flag_set HASH_UPDATE HASH_ADD) with false in *.
  cbv iota beta zeta delta [orb] in P1, P4, P5, P9.
  exists w', rl', order'. unfold zend_list_insert, zend_hash_next_free_element. fold id. rewrite Hs, Hu.
  unfold zend_hash_index_update. rewrite (bind_Done _ _ _ _ _ Hrun). unfold rkey. rewrite Hu.
  unfold upd_es in P1. unfold upd_events in P4. unfold upd_next in P9. rewrite Hab in P1, P4, P9. rewrite app_nil_r in P4. split_and!; try done.
  rewrite P9. fold id. rewrite Z.geb_leb, Z.leb_refl. unfold LONG_MAX. destruct (Z.ltb_spec id (2 ^ 63 - 1)); lia.
Qed.

End entries.

(** ** The table of destructors *)

(** the number of the first type with the name, 0 when there is none *)
Fixpoint first_named (name : bytes) (ds : list (key * zend_rsrc_list_dtors_entry)) : Z :=
  match ds with
  | [] => 0
  | (_, d) :: ds' => if same_name name d then resource_id d else first_named name ds'
  end.

(** the calls for destroying [le], by the entry of its type *)
Definition dtor_calls (std ex : zend_rsrc_list_dtors_entry → option Z) (ds : list (key * zend_rsrc_list_dtors_entry))
    (le : zend_rsrc_list_entry) : list rsrc_call :=
  match al_find (rkey (le_type le)) ds with
  | None => [WarnUnknownType (le_type le)]
  | Some d =>
      if ld_type d =? ZEND_RESOURCE_LIST_TYPE_STD then match std d with Some f => [CallStd f (le_ptr le)] | None => [] end
      else match ex d with Some f => [CallEx f le] | None => [] end
  end.

(** every entry knows its own number and is of one of the two kinds *)
Definition dtors_ok (ds : list (key * zend_rsrc_list_dtors_entry)) : Prop :=
  ∀ k d, (k, d) ∈ ds → k = rkey (resource_id d) ∧ 0 < resource_id d < 2 ^ 31 ∧
    (ld_type d = ZEND_RESOURCE_LIST_TYPE_STD ∨ ld_type d = ZEND_RESOURCE_LIST_TYPE_EX).

Section dtors.
Implicit Types (ld : HashTable) (w : dtors_mem) (ds : list (key * zend_rsrc_list_dtors_entry)).

Lemma find_dtors_run w ld order ds type :
  tbl w ld order ds → find_dtors ld type w = Done (al_find (rkey type) ds) w.
Proof.
  intros Ht. pose proof (u64_range type) as Hu.
  pose proof (index_find_spec w ld order ds (ulong_of_int type) Ht ltac:(unfold ulong_of_int; lia)) as Hf.
  unfold rkey, find_dtors. destruct (al_find _ ds) as [d|].
  - destruct Hf as (p & b & Hrun & Hp & Hb & Hv).
    rewrite (bind_Done _ _ _ _ _ Hrun), (bind_Done _ _ _ _ _ (load_Done _ _ _ Hb)). by rewrite Hv.
  - by rewrite (bind_Done _ _ _ _ _ Hf).
Qed.

Lemma dtor_run w ld order ds le :
  tbl w ld order ds → dtors_ok ds →
  list_entry_destructor ld le w = Done (dtor_calls list_dtor list_dtor_ex ds le) w ∧
  plist_entry_destructor ld le w = Done (dtor_calls plist_dtor plist_dtor_ex ds le) w.
Proof.
  intros Ht Hok. unfold list_entry_destructor, plist_entry_destructor, dtor_calls.
  rewrite !(bind_Done _ _ _ _ _ (find_dtors_run _ _ _ _ _ Ht)).
  destruct (al_find _ ds) as [d|] eqn:Hf; [|done].
  apply al_find_Some in Hf; [|apply (r_keys _ _ _ _ (t_repr _ _ _ _ Ht))].
  destruct (Hok _ _ Hf) as (_ & _ & [E|E]); unfold run_dtor; rewrite E; done.
Qed.

Lemma register_run w ld order ds lde :
  tbl w ld order ds → dtors_ok ds → 0 < nNextFreeElement ld < 2 ^ 31 → Z.of_nat (length order) + 1 < 2 ^ 32 →
  resource_id lde = s32 (nNextFreeElement ld) →
  (ld_type lde = ZEND_RESOURCE_LIST_TYPE_STD ∨ ld_type lde = ZEND_RESOURCE_LIST_TYPE_EX) →
  let id := nNextFreeElement ld in
  ∃ w' ld' order', register_entry ld lde w = Done (ld', id) w' ∧
    tbl w' ld' order' (ds ++ [(rkey id, lde)]) ∧ dtors_ok (ds ++ [(rkey id, lde)]) ∧ nNextFreeElement ld' = id + 1.
Proof.
  intros Ht Hok Hn Hl Hr Hty id. assert (Hu : ulong_of_int id = id) by (apply u64_small; unfold id; lia).
  assert (Hab : al_find (KInt id) ds = None) by (apply (next_free_absent w ld order ds Ht); unfold LONG_MAX; lia).
  destruct (index_update_or_next_insert_post w ld order ds 0 lde sizeof_dtors HASH_NEXT_INSERT Ht)
    as (w' & ld' & order' & r & pd & Hrun & [P1 P2 P3 P4 P5 P6 P7 P8 P9]); [lia|done|].
  change (flag_set HASH_NEXT_INSERT HASH_NEXT_INSERT) with true in *. fold id in P1, P5, P9.
  unfold upd_es in P1. unfold upd_result in P5. unfold upd_next in P9. rewrite Hab in P1, P5, P9. fold id in P9.
  rewrite Z.geb_leb, Z.leb_refl in P9. destruct (Z.ltb_spec id LONG_MAX); [|unfold LONG_MAX, id in *; lia].
  exists w', ld', order'. unfold register_entry, zend_hash_next_index_insert. rewrite (bind_Done _ _ _ _ _ Hrun), P5, P9.
  simpl (_ =? _). cbn match. replace (id + 1 - 1) with id by lia.
  unfold rkey. rewrite Hu. split_and!; try done.
  - unfold ret. do 2 f_equal. change (u64 id) with (ulong_of_int id). rewrite Hu. apply s32_small. unfold id. lia.
  - intros k d [Hin|[= -> ->]%list_elem_of_singleton]%elem_of_app; [by apply Hok|].
    rewrite Hr, s32_small by lia. fold id. unfold rkey. rewrite Hu. split_and!; try done; unfold id; lia.
Qed.

Lemma dtor_id_loop_run w ld order ds name fuel i :
  tbl w ld order ds → (length ds - i ≤ fuel)%nat →
  dtor_id_loop fuel name ld (Some (order !! i)) w = Done (first_named name (drop i ds)) w.
Proof.
  intros Ht Hf. destruct (tbl_facts _ _ _ _ Ht) as (_ & _ & Hl & _). revert i Hf.
  induction fuel as [|fuel IH]; intros i Hf; cbn [dtor_id_loop]; unfold zend_hash_get_current_data_ex; cbn [pos_get].
  - rewrite (proj2 (lookup_ge_None order i)) by lia. rewrite drop_ge by lia. done.
  - destruct (order !! i) as [p|] eqn:Hi.
    + destruct (tbl_nth _ _ _ _ _ _ Ht Hi) as (b & k & v & Hb & _ & _ & Hv & He & _).
      pose proof (load_Done p w b Hb) as Hld. rewrite bind_assoc, (bind_Done _ _ _ _ _ Hld).
      erewrite bind_Done by reflexivity. cbn match. rewrite (bind_Done _ _ _ _ _ Hld), (drop_S _ _ _ He), Hv. cbn [first_named].
      destruct (same_name name v); [done|].
      rewrite (bind_Done _ _ _ _ _ (move_run true w ld order ds (Some (Some p)) i p Ht eq_refl Hi)). cbn [pos_set].
      apply IH. apply lookup_lt_Some in Hi. lia.
    + rewrite drop_ge; [done|]. apply lookup_ge_None in Hi. lia.
Qed.

End dtors.

(** ** Properties *)

(** C25: the life of a resource. [zend_list_insert] files it with one reference
    under a number no other resource has, which is the next free one;
    [_zend_list_find] returns it and its type, or [NULL] and -1;
    [_zend_list_addref] and [_zend_list_delete] count its references, and the
    deletion of the last one takes it out of the list and calls the destructor
    exactly then; an unknown number is [FAILURE] and changes nothing. *)
Theorem resource_life (w : entry_mem) rl order es ptr type id :
  tbl w rl order es → Z.of_nat (length order) + 1 < 2 ^ 32 →
  (nNextFreeElement rl < 2 ^ 31 →
   ∃ w' rl' order', zend_list_insert rl ptr type w = Done (rl', nNextFreeElement rl) w' ∧
     al_find (rkey (nNextFreeElement rl)) es = None ∧
     tbl w' rl' order' (es ++ [(rkey (nNextFreeElement rl), MkEntry ptr type 1)]) ∧
     nNextFreeElement rl' = nNextFreeElement rl + 1 ∧ trace w' = trace w) ∧
  match al_find (rkey id) es with
  | None =>
      _zend_list_find rl id w = Done (0, -1) w ∧ _zend_list_addref rl id w = Done FAILURE w ∧
      _zend_list_delete rl id w = Done (rl, FAILURE) w
  | Some le =>
      - 2 ^ 31 < le_refcount le < 2 ^ 31 - 1 →
      _zend_list_find rl id w = Done (le_ptr le, le_type le) w ∧
      (∃ w', _zend_list_addref rl id w = Done SUCCESS w' ∧
         tbl w' rl order (al_update (rkey id) (set_refcount (le_refcount le + 1) le) es) ∧ trace w' = trace w) ∧
      ∃ w' rl' order', _zend_list_delete rl id w = Done (rl', SUCCESS) w' ∧
        if le_refcount le <=? 1 then
          tbl w' rl' order' (al_delete (rkey id) es) ∧
          trace w' = trace w ++ dtor_events (pDestructor rl) [set_refcount (le_refcount le - 1) le]
        else tbl w' rl' order' (al_update (rkey id) (set_refcount (le_refcount le - 1) le) es) ∧ trace w' = trace w
  end.
Proof.
  intros Ht Hl. split.
  { intros Hn. destruct (insert_run w rl order es ptr type Ht Hn Hl) as (w' & rl' & order' & H1 & H2 & H3 & H4 & H5 & _).
    by exists w', rl', order'. }
  pose proof (find_entry_run w rl order es id Ht) as Hf. unfold _zend_list_find, _zend_list_addref, _zend_list_delete.
  destruct (al_find (rkey id) es) as [le|] eqn:Hle; [|by rewrite !(bind_Done _ _ _ _ _ Hf)].
  destruct Hf as (p & Hrun & Hp). rewrite !(bind_Done _ _ _ _ _ Hrun). intros Hrc. split; [done|]. split.
  - rewrite s32_small by lia.
    destruct (refcount_run w rl order es id le p (le_refcount le + 1) Ht Hle Hp) as (w1 & H1 & H2 & H3).
    exists w1. by rewrite (bind_Done _ _ _ _ _ H1).
  - rewrite s32_small by lia.
    destruct (refcount_run w rl order es id le p (le_refcount le - 1) Ht Hle Hp) as (w1 & H1 & H2 & H3).
    rewrite (bind_Done _ _ _ _ _ H1).
    destruct (Z.leb_spec (le_refcount le - 1) 0), (Z.leb_spec (le_refcount le) 1); try lia.
    + pose proof (u64_range id) as Hu.
      destruct (index_del_run w1 rl order _ (ulong_of_int id) H2 ltac:(unfold ulong_of_int; lia)) as (w2 & rl2 & o2 & D1 & D2 & D3).
      fold (rkey id) in D1, D2, D3. rewrite al_find_update in D1, D3. rewrite al_delete_update in D2 by (by eexists).
      exists w2, rl2, o2. rewrite D1. split; [done|]. split; [done|]. by rewrite D3, H3.
    + by exists w1, rl, order.
Qed.

(** C32: [zend_fetch_resource] returns the resource only for a number that is in the
    list and has one of the types asked for, which it stores; otherwise it returns
    [NULL] with the warning of the first check that fails, and no warning when the
    type is not named. *)
Theorem resource_fetch_correct (w : entry_mem) rl order es (passed_id : option zval) (default_id : Z) (named : bool)
    (types : list Z) :
  tbl w rl order es →
  let id := if default_id =? -1 then (λ z, s32 (z_lval z)) <$> passed_id else Some default_id in
  let warn (x : fetch_warning) := if named then Some x else None in
  zend_fetch_resource rl passed_id default_id named (Z.of_nat (length types)) types w =
    Done (match id with
          | None => (0, None, warn NoResourceSupplied)
          | Some id =>
              if (default_id =? -1) && negb (default IS_RESOURCE (z_type <$> passed_id) =? IS_RESOURCE)
              then (0, None, warn NotAResource)
              else match al_find (rkey id) es with
                   | Some le =>
                       if le_ptr le =? 0 then (0, None, warn (NotValid id))
                       else if bool_decide (le_type le ∈ types) then (le_ptr le, Some (le_type le), None)
                       else (0, None, warn WrongType)
                   | None => (0, None, warn (NotValid id))
                   end
          end) w.
Proof.
  intros Ht id warn.
  assert (Hty : ∀ t, type_loop (length types) t types = Some (bool_decide (t ∈ types))).
  { intros t. induction types as [|u types IH]; simpl; [done|]. destruct (Z.eqb_spec t u) as [->|Hne].
    - rewrite bool_decide_eq_true_2 by left. done.
    - rewrite IH. f_equal. apply bool_decide_ext. rewrite elem_of_cons. tauto. }
  assert (Hid : ∀ i, bind (_zend_list_find rl i) (λ '(resource, actual),
      if resource =? 0 then ret (0, None, warn (NotValid i))
      else bind (of_option (type_loop (Z.to_nat (Z.of_nat (length types))) actual types)) (λ b,
        if (b : bool) then ret (resource, Some actual, None) else ret (0, None, warn WrongType))) w =
    Done (match al_find (rkey i) es with
          | Some le => if le_ptr le =? 0 then (0, None, warn (NotValid i))
                       else if bool_decide (le_type le ∈ types) then (le_ptr le, Some (le_type le), None)
                       else (0, None, warn WrongType)
          | None => (0, None, warn (NotValid i))
          end) w).
  { intros i. pose proof (find_entry_run w rl order es i Ht) as Hf. unfold _zend_list_find. rewrite bind_assoc.
    rewrite Nat2Z.id. destruct (al_find (rkey i) es) as [le|].
    - destruct Hf as (p & Hrun & _). rewrite (bind_Done _ _ _ _ _ Hrun). erewrite bind_Done by reflexivity.
      cbn beta iota. destruct (le_ptr le =? 0); [done|]. rewrite Hty. erewrite bind_Done by reflexivity.
      by destruct (bool_decide (le_type le ∈ types)).
    - rewrite (bind_Done _ _ _ _ _ Hf). done. }
  unfold zend_fetch_resource, id. destruct (default_id =? -1); [|apply Hid].
  destruct passed_id as [z|]; simpl; [|done]. destruct (negb (z_type z =? IS_RESOURCE)); [done|apply Hid].
Qed.

(** registering a type of resource gives it the next number, kept in its entry;
    afterwards [list_entry_destructor] and [plist_entry_destructor] call the
    functions registered for a resource's type (the old-style one with the pointer,
    the new-style one with the entry) and warn about an unknown type, and
    [zend_fetch_list_dtor_id] finds the first type with a name, or 0. *)
Theorem resource_type_dispatch (w : dtors_mem) ld order ds f g name m le t :
  tbl w ld order ds → dtors_ok ds → 0 < nNextFreeElement ld < 2 ^ 31 → Z.of_nat (length order) + 1 < 2 ^ 32 →
  let id := nNextFreeElement ld in
  (∀ reg, reg = zend_register_list_destructors ld f g m ∨ reg = zend_register_list_destructors_ex ld f g name m →
   ∃ w' ld' order' d, reg w = Done (ld', id) w' ∧ resource_id d = id ∧ module_number d = m ∧
     tbl w' ld' order' (ds ++ [(rkey id, d)]) ∧ dtors_ok (ds ++ [(rkey id, d)]) ∧ nNextFreeElement ld' = id + 1) ∧
  list_entry_destructor ld le w = Done (dtor_calls list_dtor list_dtor_ex ds le) w ∧
  plist_entry_destructor ld le w = Done (dtor_calls plist_dtor plist_dtor_ex ds le) w ∧
  zend_fetch_list_dtor_id t ld w = Done (first_named t ds) w.
Proof.
  intros Ht Hok Hn Hl id. split; [|split; [|split]]; try by eapply dtor_run.
  - intros reg [-> | ->]; unfold zend_register_list_destructors, zend_register_list_destructors_ex;
      match goal with |- context [register_entry ld ?x] =>
        destruct (register_run w ld order ds x Ht Hok Hn Hl eq_refl ltac:(simpl; tauto)) as (w' & ld' & o' & H1 & H2 & H3 & H4);
        exists w', ld', o', x end; (split_and!; try done; simpl; apply s32_small; lia).
  - destruct (tbl_facts _ _ _ _ Ht) as (_ & _ & Hlen & Hh & _ & Hf & _).
    unfold zend_fetch_list_dtor_id. rewrite (bind_Done _ _ _ (fuel_of w) w) by done.
    unfold zend_hash_internal_pointer_reset_ex. cbn [pos_set]. rewrite Hh.
    replace (head order) with (order !! 0%nat) by (by destruct order).
    by apply (dtor_id_loop_run w ld order ds t (fuel_of w) 0 Ht ltac:(lia)).
Qed.

(** ** Shutting a module down *)

(** the resource types of a module *)
Definition module_types (m : Z) (ds : list (key * zend_rsrc_list_dtors_entry)) : list Z :=
  resource_id ∘ snd <$> filter (λ d, module_number d.2 = m) ds.

Section filters.
Context {A : Type}.
Implicit Types (l : list A).

Lemma filter_all (P : A → Prop) `{∀ x, Decision (P x)} l : (∀ x, P x) → filter P l = l.
Proof. intros HP. induction l as [|x l IH]; [done|]. rewrite filter_cons_True by done. by rewrite IH. Qed.

Lemma filter_none (P : A → Prop) `{∀ x, Decision (P x)} l : (∀ x, ¬ P x) → filter P l = [].
Proof. intros HP. induction l as [|x l IH]; [done|]. rewrite filter_cons_False by done. by rewrite IH. Qed.

(** what two filters take in turn is what their union takes *)
Lemma filter_split (P Q : A → Prop) `{∀ x, Decision (P x), ∀ x, Decision (Q x)} l :
  filter P l ++ filter Q (filter (λ x, ¬ P x) l) ≡ₚ filter (λ x, P x ∨ Q x) l.
Proof.
  induction l as [|x l IH]; [done|]. destruct (decide (P x)) as [HP|HP].
  - rewrite (filter_cons_True P), (filter_cons_False (λ x, ¬ P x)), (filter_cons_True (λ x, P x ∨ Q x)) by tauto.
    simpl. by rewrite IH.
  - rewrite (filter_cons_False P), (filter_cons_True (λ x, ¬ P x)) by tauto. destruct (decide (Q x)) as [HQ|HQ].
    + rewrite (filter_cons_True Q), (filter_cons_True (λ x, P x ∨ Q x)) by tauto. by rewrite <-IH, Permutation_middle.
    + by rewrite (filter_cons_False Q), (filter_cons_False (λ x, P x ∨ Q x)) by tauto.
Qed.

End filters.

Section shutdown.
Implicit Types (ld pl : HashTable) (w : entry_mem) (es : list (key * zend_rsrc_list_entry)).

Lemma clean_spec id es :
  apply_spec (λ id _ le, (id, le, clean_module_resource le id)) id es =
    (id, filter (λ e, le_type e.2 ≠ id) es, (filter (λ e, le_type e.2 = id) es).*2).
Proof.
  induction es as [|[k le] es IH]; [done|]. cbn [apply_spec].
  assert (Hc : clean_module_resource le id = if le_type le =? id then 1 else 0) by done.
  rewrite Hc. destruct (Z.eqb_spec (le_type le) id) as [Heq|Hne].
  - change (flag_set 1 ZEND_HASH_APPLY_STOP) with false. cbn match. rewrite IH.
    change (flag_set 1 ZEND_HASH_APPLY_REMOVE) with true. cbn match.
    by rewrite (filter_cons_False (λ e, le_type e.2 ≠ id)), (filter_cons_True (λ e, le_type e.2 = id)) by (simpl; tauto).
  - change (flag_set 0 ZEND_HASH_APPLY_STOP) with false. cbn match. rewrite IH.
    change (flag_set 0 ZEND_HASH_APPLY_REMOVE) with false. cbn match.
    by rewrite (filter_cons_True (λ e, le_type e.2 ≠ id)), (filter_cons_False (λ e, le_type e.2 = id)) by (simpl; tauto).
Qed.

(** the callback, on a persistent list without recursion guard *)
Lemma clean_cb_run d m pl w order es :
  tbl w pl order es → bApplyProtection pl = false → 0 ≤ nApplyCount pl < 2 ^ 8 →
  let ts := module_types m [d] in
  ∃ w' pl' order', zend_clean_module_rsrc_dtors_cb d.2 m (Done pl w) =
      (Done pl' w', d.2, if module_number d.2 =? m then 1 else 0) ∧
    tbl w' pl' order' (filter (λ e, le_type e.2 ∉ ts) es) ∧
    trace w' = trace w ++ dtor_events (pDestructor pl) (filter (λ e, le_type e.2 ∈ ts) es).*2 ∧ ht_cfg pl' = ht_cfg pl.
Proof.
  intros Ht Hp Hn ts. unfold zend_clean_module_rsrc_dtors_cb, ts, module_types.
  destruct (Z.eqb_spec (module_number d.2) m) as [Heq|Hne].
  - rewrite filter_cons_True by done. rewrite filter_nil. simpl.
    pose proof (protected_run false w pl order es (λ id _ le, (id, le, clean_module_resource le id))
      (λ id _ le, (id, le, clean_module_resource le id)) (resource_id d.2) _ _ Ht Hn ltac:(done) eq_refl eq_refl) as Happ.
    unfold applied in Happ. rewrite Hp in Happ. simpl in Happ.
    destruct Happ as (w' & pl' & o' & a' & kept & dead & Hrun & Hsp & Ht' & Htr & Hcfg).
    rewrite clean_spec in Hsp. injection Hsp as <- <- <-. unfold zend_hash_apply_with_argument.
    exists w', pl', o'. split; [by erewrite bind_Done by exact Hrun|].
    split; [|split; [|done]].
    + erewrite list_filter_iff; [exact Ht'|]. intros e. rewrite list_elem_of_singleton. done.
    + rewrite Htr. do 3 f_equal. apply list_filter_iff. intros e. rewrite list_elem_of_singleton. done.
  - rewrite filter_cons_False by done. rewrite filter_nil. simpl. exists w, pl, order. split; [done|].
    rewrite (filter_none (λ e : key * zend_rsrc_list_entry, le_type e.2 ∈ [])),
      (filter_all (λ e : key * zend_rsrc_list_entry, le_type e.2 ∉ [])) by (intros e; apply not_elem_of_nil).
    by rewrite ?fmap_nil, dtor_events_nil, app_nil_r.
Qed.

Lemma clean_loop m ds pl w order es :
  tbl w pl order es → bApplyProtection pl = false → 0 ≤ nApplyCount pl < 2 ^ 8 →
  let ts := module_types m ds in
  ∃ w' pl' order' gone dead,
    apply_spec (λ o _ d, zend_clean_module_rsrc_dtors_cb d m o) (Done pl w) ds =
      (Done pl' w', filter (λ d, module_number d.2 ≠ m) ds, dead) ∧
    tbl w' pl' order' (filter (λ e, le_type e.2 ∉ ts) es) ∧
    trace w' = trace w ++ dtor_events (pDestructor pl) gone ∧ gone ≡ₚ (filter (λ e, le_type e.2 ∈ ts) es).*2.
Proof.
  revert pl w order es. induction ds as [|[k d] ds IH]; intros pl w order es Ht Hp Hn ts.
  - exists w, pl, order, [], []. unfold ts, module_types. simpl.
    rewrite (filter_none (λ e : key * zend_rsrc_list_entry, le_type e.2 ∈ [])),
      (filter_all (λ e : key * zend_rsrc_list_entry, le_type e.2 ∉ [])) by (intros e; apply not_elem_of_nil).
    by rewrite ?fmap_nil, dtor_events_nil, app_nil_r.
  - destruct (clean_cb_run (k, d) m pl w order es Ht Hp Hn) as (w1 & pl1 & o1 & Hcb & Ht1 & Htr1 & Hcfg). cbn [snd] in Hcb.
    assert (bApplyProtection pl1 = false ∧ nApplyCount pl1 = nApplyCount pl ∧ pDestructor pl1 = pDestructor pl) as (P1 & P2 & P3).
    { unfold ht_cfg in Hcfg. injection Hcfg as C1 C2 C3 C4. by rewrite C4. }
    destruct (IH pl1 w1 o1 _ Ht1 P1 ltac:(lia)) as (w2 & pl2 & o2 & gone & dead & Hap & Ht2 & Htr2 & Hg).
    cbn [apply_spec]. rewrite Hcb. rewrite P3 in Htr2.
    assert (Hts : ts = module_types m [(k, d)] ++ module_types m ds).
    { unfold ts, module_types. change ((k, d) :: ds) with ([(k, d)] ++ ds). by rewrite filter_app, fmap_app. }
    eexists w2, pl2, o2, ((filter (λ e, le_type e.2 ∈ module_types m [(k, d)]) es).*2 ++ gone),
      (if module_number d =? m then d :: dead else dead). split; [|split; [|split]].
    + destruct (Z.eqb_spec (module_number d) m) as [Heq|Hne].
      * change (flag_set 1 ZEND_HASH_APPLY_STOP) with false. cbn match. rewrite Hap.
        rewrite (filter_cons_False (λ d, module_number d.2 ≠ m)) by (simpl; tauto). reflexivity.
      * change (flag_set 0 ZEND_HASH_APPLY_STOP) with false. cbn match. rewrite Hap.
        rewrite (filter_cons_True (λ d, module_number d.2 ≠ m)) by (simpl; tauto). reflexivity.
    + rewrite list_filter_filter in Ht2. erewrite list_filter_iff; [exact Ht2|]. intros e. simpl. rewrite Hts, elem_of_app. tauto.
    + by rewrite Htr2, Htr1, dtor_events_app, app_assoc.
    + rewrite Hg, <-fmap_app.
      pose proof (filter_split (λ e : key * zend_rsrc_list_entry, le_type e.2 ∈ module_types m [(k, d)])
        (λ e, le_type e.2 ∈ module_types m ds) es) as Hsp.
      rewrite Hsp. apply fmap_Permutation. erewrite list_filter_iff; [done|]. intros e. simpl. by rewrite Hts, elem_of_app.
Qed.

End shutdown.

(** C31: at the shutdown of a module, [zend_clean_module_rsrc_dtors] takes its types
    out of the table of destructors and every resource of one of these types out of
    the persistent list, calling the destructor once for each; the other types and
    resources stay, in order. *)
Theorem module_shutdown (w1 : entry_mem) (w2 : dtors_mem) pl ld op od es ds m :
  tbl w1 pl op es → bApplyProtection pl = false → 0 ≤ nApplyCount pl < 2 ^ 8 →
  tbl w2 ld od ds → 0 ≤ nApplyCount ld < 3 →
  let ts := module_types m ds in
  ∃ w1' w2' pl' ld' op' od' gone, zend_clean_module_rsrc_dtors pl ld m (w1, w2) = Done (pl', ld') (w1', w2') ∧
    tbl w1' pl' op' (filter (λ e, le_type e.2 ∉ ts) es) ∧
    trace w1' = trace w1 ++ dtor_events (pDestructor pl) gone ∧
    gone ≡ₚ (filter (λ e, le_type e.2 ∈ ts) es).*2 ∧
    tbl w2' ld' od' (filter (λ d, module_number d.2 ≠ m) ds).
Proof.
  intros H1 Hp Hn1 H2 Hn2 ts.
  destruct (clean_loop m ds pl w1 op es H1 Hp Hn1) as (w1' & pl' & op' & gone & dead & Hsp & Ht1 & Htr & Hg).
  pose proof (protected_run false w2 ld od ds (λ o _ d, zend_clean_module_rsrc_dtors_cb d m o)
    (λ o _ d, zend_clean_module_rsrc_dtors_cb d m o) (Done pl w1) _ _ H2 ltac:(lia) ltac:(done) eq_refl eq_refl) as Happ.
  unfold applied in Happ. destruct (Z.geb_spec (nApplyCount ld) 3); [lia|]. rewrite andb_false_r in Happ.
  destruct Happ as (w2' & ld' & od' & a' & kept & dead' & Hrun & Hsp' & Ht2 & _ & _).
  rewrite Hsp in Hsp'. injection Hsp' as <- <- <-.
  exists w1', w2', pl', ld', op', od', gone. split; [|done].
  unfold zend_clean_module_rsrc_dtors, zend_hash_apply_with_argument. cbn [fst snd]. by rewrite Hrun.
Qed.

(** two insertions into a list whose next free number is 2^31, and a lookup *)
Definition wrap_demo : M entry_mem (Z * Z * Z) :=
  let rl := set_nNextFreeElement (2 ^ 31) zend_init_rsrc_list.1 in
  bind (zend_list_insert rl 111 1) (λ '(rl, id1),
  bind (zend_list_insert rl 222 1) (λ '(rl, id2),
  bind (_zend_list_find rl id1) (λ '(p, _), ret (id1, id2, p)))).


(** ** Witnesses *)

Definition rsample0 : HashTable := zend_init_rsrc_list.1.
Definition dsample0 : HashTable := zend_init_rsrc_list_dtors.1.
Definition rsample1 : entry_mem * HashTable :=
  match zend_list_insert rsample0 100 1 empty_mem with Done (ht, _) w => (w, ht) | _ => (empty_mem, rsample0) end.
Definition dsample1 : dtors_mem * HashTable :=
  match zend_register_list_destructors dsample0 (Some 7) (Some 8) 5 empty_mem with
  | Done (ht, _) w => (w, ht) | _ => (empty_mem, dsample0) end.
Definition dsample_entry : zend_rsrc_list_dtors_entry := MkDtors (Some 7) (Some 8) None None None 5 1 1.

Lemma rsample_ok : tbl rsample1.1 rsample1.2 [1%positive] [(KInt 1, MkEntry 100 1 1)].
Proof.
  assert (H0 : tbl (V := zend_rsrc_list_entry) empty_mem rsample0 [] []).
  { apply empty_next_tbl; [|unfold LONG_MAX; lia]. apply init_tbl, empty_mem_ok. }
  destruct (index_update_or_next_insert_post _ _ _ _ 1 (MkEntry 100 1 1) sizeof_entry HASH_UPDATE H0)
    as (w' & ht' & o & r & pd & R & [P1 P2 _ _ _ _ _ _ _]); [lia|simpl; lia|].
  vm_compute in R. injection R as <- <- <- <-. rewrite P2 in P1. exact P1.
Qed.

Lemma dsample_ok : tbl dsample1.1 dsample1.2 [1%positive] [(KInt 1, dsample_entry)].
Proof.
  assert (H0 : tbl (V := zend_rsrc_list_dtors_entry) empty_mem dsample0 [] []).
  { apply empty_next_tbl; [|unfold LONG_MAX; lia]. apply init_tbl, empty_mem_ok. }
  destruct (index_update_or_next_insert_post _ _ _ _ 0 dsample_entry sizeof_dtors HASH_NEXT_INSERT H0)
    as (w' & ht' & o & r & pd & R & [P1 P2 _ _ _ _ _ _ _]); [lia|simpl; lia|].
  vm_compute in R. injection R as <- <- <- <-. rewrite P2 in P1. exact P1.
Qed.

Lemma dsample_dtors_ok : dtors_ok [(KInt 1, dsample_entry)].
Proof. intros k d [= -> ->]%list_elem_of_singleton. split; [reflexivity|]. split; [simpl; lia|by left]. Qed.

Lemma resource_life_witness :
  ∃ w' rl' order', _zend_list_delete rsample1.2 1 rsample1.1 = Done (rl', SUCCESS) w' ∧ tbl w' rl' order' [] ∧
    trace w' = [EvDtor (MkEntry 100 1 0)].
Proof.
  destruct (resource_life rsample1.1 rsample1.2 _ _ 0 0 1 rsample_ok ltac:(reflexivity)) as [_ H].
  destruct (H ltac:(simpl; lia)) as (_ & _ & w' & rl' & o & H1 & H2 & H3). exists w', rl', o.
  exact (conj H1 (conj H2 H3)).
Defined.

Lemma resource_fetch_correct_witness :
  zend_fetch_resource rsample1.2 (Some (MkZval 7 1)) (-1) true 2 [3; 1] rsample1.1 = Done (100, Some 1, None) rsample1.1.
Proof. exact (resource_fetch_correct rsample1.1 rsample1.2 _ _ (Some (MkZval 7 1)) (-1) true [3; 1] rsample_ok). Defined.

Lemma resource_type_dispatch_witness :
  list_entry_destructor dsample1.2 (MkEntry 100 1 0) dsample1.1 = Done [CallStd 7 100] dsample1.1.
Proof.
  exact (proj1 (proj2 (resource_type_dispatch dsample1.1 dsample1.2 _ _ None None None 0 (MkEntry 100 1 0) []
    dsample_ok dsample_dtors_ok ltac:(split; reflexivity) ltac:(reflexivity)))).
Defined.

Definition psample : HashTable := zend_hash_set_apply_protection rsample1.2 false.

Lemma psample_ok : tbl rsample1.1 psample [1%positive] [(KInt 1, MkEntry 100 1 1)].
Proof. destruct rsample_ok as [Hm [] Hc]. split; [exact Hm| |exact Hc]. split; assumption. Qed.

Lemma module_shutdown_witness :
  ∃ w1' w2' pl' ld' op' od' gone,
    zend_clean_module_rsrc_dtors psample dsample1.2 5 (rsample1.1, dsample1.1) = Done (pl', ld') (w1', w2') ∧
    tbl w1' pl' op' [] ∧ tbl w2' ld' od' [] ∧ gone ≡ₚ [MkEntry 100 1 1].
Proof.
  destruct (module_shutdown rsample1.1 dsample1.1 psample dsample1.2 _ _ _ _ 5 psample_ok eq_refl
    ltac:(split; [discriminate|reflexivity]) dsample_ok ltac:(split; [discriminate|reflexivity]))
    as (w1' & w2' & pl' & ld' & op' & od' & gone & H1 & H2 & H3 & H4 & H5).
  exists w1', w2', pl', ld', op', od', gone. exact (conj H1 (conj H2 (conj H5 H4))).
Defined.
