(* ===== verification/ObjModel.v ===== *)
(** * [Zend/zend_objects_API.c] and the root buffer of [Zend/zend_gc.c]

    The objects store: the array of object buckets with its list of free handles,
    reference counts and destructors; and the buffer of possible roots of garbage
    cycles, whose entries the objects and the other values point to.  The two are
    modelled together because each calls the other.

    Destructors, storage deallocators and clone functions are function pointers of
    extensions and of the executor: they are parameters, actions on the whole
    [world], so that they may use every operation of this file.  So is the cycle
    collector, [gc_collect_cycles]. *)

From S2P Require Import Prelude DList HashModel.
Local Open Scope Z_scope.
Local Open Scope effect_scope.

(** ** Data *)

(** the colours, the two low bits of a pointer to a root *)
Definition GC_BLACK : Z := 0.
Definition GC_WHITE : Z := 1.
Definition GC_GREY : Z := 2.
Definition GC_PURPLE : Z := 3.

(** where a coloured pointer points: to an entry of the root buffer, or, in a value
    that the collector is about to free, to another value *)
Inductive gaddr : Type :=
| GNull
| GRoot (p : ptr)
| GOther (p : ptr).

Record gptr : Type := MkGptr { gp_addr : gaddr; gp_color : Z }.
Definition gnull : gptr := MkGptr GNull GC_BLACK.

Definition GC_ADDRESS (v : gptr) : gaddr := gp_addr v.
Definition GC_GET_COLOR (v : gptr) : Z := gp_color v.
Definition GC_SET_ADDRESS (v : gptr) (a : gaddr) : gptr := MkGptr a (gp_color v).
Definition GC_SET_COLOR (v : gptr) (c : Z) : gptr := MkGptr (gp_addr v) c.
Definition GC_SET_BLACK (v : gptr) : gptr := MkGptr (gp_addr v) GC_BLACK.
Definition GC_SET_PURPLE (v : gptr) : gptr := MkGptr (gp_addr v) (Z.lor (gp_color v) GC_PURPLE).

Record zend_object_handlers : Type := MkHandlers {
  h_id : Z;
  (** [get_gc] is not [NULL] *)
  h_get_gc : bool
}.

Inductive root_u : Type :=
| UPz (zv : ptr)
| UHandlers (h : zend_object_handlers).

Record gc_root_buffer : Type := MkRoot {
  r_prev : option ptr;
  r_next : option ptr;
  r_handle : Z;
  r_u : root_u
}.

Definition set_r_prev x r := MkRoot x (r_next r) (r_handle r) (r_u r).
Definition set_r_next x r := MkRoot (r_prev r) x (r_handle r) (r_u r).
Definition set_r_handle x r := MkRoot (r_prev r) (r_next r) x (r_u r).
Definition set_r_u x r := MkRoot (r_prev r) (r_next r) (r_handle r) x.

Definition ring : Linked gc_root_buffer.
Proof. refine {| nx := r_next; pv := r_prev; set_nx := set_r_next; set_pv := set_r_prev |}; done. Defined.

(** [&GC_G(roots)]; the array [buf] starts at the next address *)
Definition ROOTS : ptr := 1%positive.
Definition BUF : ptr := 2%positive.
Definition GC_ROOT_BUFFER_MAX_ENTRIES : positive := 10000%positive.

Record zend_gc_globals : Type := MkGC {
  gc_enabled : bool;
  gc_active : bool;
  buf : option ptr;
  unused : option ptr;
  first_unused : option ptr;
  last_unused : option ptr;
  zval_to_free : option ptr;
  free_list : option ptr;
  next_to_free : option ptr;
  gc_runs : Z;
  collected : Z;
  (** the entries, the head [ROOTS] of the list of roots among them *)
  root_cells : gmap ptr gc_root_buffer
}.

Definition set_unused x g := MkGC (gc_enabled g) (gc_active g) (buf g) x (first_unused g) (last_unused g)
  (zval_to_free g) (free_list g) (next_to_free g) (gc_runs g) (collected g) (root_cells g).
Definition set_first_unused x g := MkGC (gc_enabled g) (gc_active g) (buf g) (unused g) x (last_unused g)
  (zval_to_free g) (free_list g) (next_to_free g) (gc_runs g) (collected g) (root_cells g).
Definition set_next_to_free x g := MkGC (gc_enabled g) (gc_active g) (buf g) (unused g) (first_unused g) (last_unused g)
  (zval_to_free g) (free_list g) x (gc_runs g) (collected g) (root_cells g).
Definition on_roots f g := MkGC (gc_enabled g) (gc_active g) (buf g) (unused g) (first_unused g) (last_unused g)
  (zval_to_free g) (free_list g) (next_to_free g) (gc_runs g) (collected g) (f (root_cells g)).

Definition IS_ARRAY : Z := 4.
Definition IS_OBJECT : Z := 5.

Record zval_gc_info : Type := MkZv {
  zv_type : Z;
  zv_refcount : Z;
  zv_handle : Z;
  zv_ht : zend_object_handlers;
  (** the address of the hash table of an array *)
  zv_arr : Z;
  zv_u : gptr
}.
Definition set_zv_refcount x z := MkZv (zv_type z) x (zv_handle z) (zv_ht z) (zv_arr z) (zv_u z).
Definition set_zv_u x z := MkZv (zv_type z) (zv_refcount z) (zv_handle z) (zv_ht z) (zv_arr z) x.

(** the first word of [union _store_bucket]: [object] of a live bucket, [next] of a
    free one *)
Inductive word : Type :=
| WObject (object : Z)
| WNext (next : Z).

(** functions and objects are addresses, 0 being [NULL] *)
Record store_object : Type := MkObj {
  o_word : word;
  o_dtor : Z;
  o_free_storage : Z;
  o_clone : Z;
  o_handlers : option zend_object_handlers;
  o_refcount : Z;
  o_buffered : gptr
}.
Definition set_o_word x o := MkObj x (o_dtor o) (o_free_storage o) (o_clone o) (o_handlers o) (o_refcount o) (o_buffered o).
Definition set_o_handlers x o := MkObj (o_word o) (o_dtor o) (o_free_storage o) (o_clone o) x (o_refcount o) (o_buffered o).
Definition set_o_refcount x o := MkObj (o_word o) (o_dtor o) (o_free_storage o) (o_clone o) (o_handlers o) x (o_buffered o).
Definition set_o_buffered x o := MkObj (o_word o) (o_dtor o) (o_free_storage o) (o_clone o) (o_handlers o) (o_refcount o) x.

Record object_bucket : Type := MkObucket {
  destructor_called : bool;
  valid : bool;
  apply_count : Z;
  b_obj : store_object
}.
Definition set_destructor_called x b := MkObucket x (valid b) (apply_count b) (b_obj b).
Definition set_valid x b := MkObucket (destructor_called b) x (apply_count b) (b_obj b).
Definition on_obj f b := MkObucket (destructor_called b) (valid b) (apply_count b) (f (b_obj b)).

Record zend_objects_store : Type := MkStore {
  (** [None] is [NULL]; a bucket that was never written is [None] *)
  object_buckets : option (list (option object_bucket));
  os_top : Z;
  os_size : Z;
  free_list_head : Z
}.

(** the calls of the objects store to the functions of an object *)
Inductive obj_call : Type :=
| CallDtor (f object handle : Z)
| CallFree (f object : Z)
| CallClone (f object : Z).

(** [arrays] are the hash tables of arrays and of property tables, by address; their
    buckets, whose data are pointers to values, are in [array_mem]. *)
Record world : Type := MkWorld {
  gc : zend_gc_globals;
  zvals : gmap ptr zval_gc_info;
  objects : zend_objects_store;
  arrays : gmap Z HashTable;
  array_mem : mem (Bucket ptr) (event ptr);
  obj_calls : list obj_call
}.
Definition on_gc f w := MkWorld (f (gc w)) (zvals w) (objects w) (arrays w) (array_mem w) (obj_calls w).
Definition on_zvals f w := MkWorld (gc w) (f (zvals w)) (objects w) (arrays w) (array_mem w) (obj_calls w).
Definition on_objects f w := MkWorld (gc w) (zvals w) (f (objects w)) (arrays w) (array_mem w) (obj_calls w).
Definition on_calls f w := MkWorld (gc w) (zvals w) (objects w) (arrays w) (array_mem w) (f (obj_calls w)).

Abbreviation W := (M world).

(** ** The state *)

Definition gets {A} (f : world → A) : W A := λ w, Done (f w) w.
Definition modify (f : world → world) : W unit := λ w, Done tt (f w).
Definition call (c : obj_call) : W unit := modify (on_calls (λ l, l ++ [c])).

Definition load_root (p : ptr) : W gc_root_buffer := λ w,
  match root_cells (gc w) !! p with Some r => Done r w | None => Stuck end.
Definition store_root (p : ptr) (f : gc_root_buffer → gc_root_buffer) : W unit := λ w,
  match root_cells (gc w) !! p with
  | Some _ => Done tt (on_gc (on_roots (alter f p)) w)
  | None => Stuck
  end.
(** a write through a link of the ring, which is never [NULL] *)
Definition store_link (o : option ptr) (f : gc_root_buffer → gc_root_buffer) : W unit :=
  match o with Some p => store_root p f | None => stuck end.

Definition load_zval (zv : ptr) : W zval_gc_info := λ w,
  match zvals w !! zv with Some z => Done z w | None => Stuck end.
Definition store_zval (zv : ptr) (f : zval_gc_info → zval_gc_info) : W unit := λ w,
  match zvals w !! zv with Some _ => Done tt (on_zvals (alter f zv) w) | None => Stuck end.

(** [EG(objects_store).object_buckets[handle]] *)
Definition bucket_at (st : zend_objects_store) (handle : Z) : option object_bucket :=
  l ← object_buckets st;
  if decide (0 ≤ handle) then mjoin (l !! Z.to_nat handle) else None.
Definition put_bucket (handle : Z) (b : object_bucket) (st : zend_objects_store) : zend_objects_store :=
  MkStore ((λ l, <[Z.to_nat handle := Some b]> l) <$> object_buckets st) (os_top st) (os_size st) (free_list_head st).

Definition load_bucket (handle : Z) : W object_bucket := λ w,
  match bucket_at (objects w) handle with Some b => Done b w | None => Stuck end.
Definition store_bucket (handle : Z) (f : object_bucket → object_bucket) : W unit := λ w,
  match bucket_at (objects w) handle with
  | Some b => Done tt (on_objects (put_bucket handle (f b)) w)
  | None => Stuck
  end.
(** [obj->object], indeterminate in a free bucket *)
Definition rd_object (o : store_object) : W Z :=
  match o_word o with WObject x => ret x | WNext _ => stuck end.

(** [zend_try { m } zend_catch { failure = 1; } zend_end_try();] *)
Definition zend_try (m : W unit) : W bool := λ w,
  match m w with Done _ w' => Done false w' | Bailout w' => Done true w' | Stuck => Stuck end.

(** ** The root buffer *)

(** The globals are zero-initialised before. *)
Definition gc_globals_ctor_ex : zend_gc_globals :=
  MkGC false false None None None None None None None 0 0 {[ ROOTS := MkRoot (Some ROOTS) (Some ROOTS) 0 (UPz ROOTS) ]}.

Definition gc_reset (g : zend_gc_globals) : zend_gc_globals :=
  let roots := alter (set_r_prev (Some ROOTS)) ROOTS (alter (set_r_next (Some ROOTS)) ROOTS (root_cells g)) in
  match buf g with
  | Some b => MkGC (gc_enabled g) (gc_active g) (buf g) None (Some b) (last_unused g) None
                (free_list g) (next_to_free g) 0 0 roots
  | None => MkGC (gc_enabled g) (gc_active g) (buf g) None None None (zval_to_free g)
                (free_list g) (next_to_free g) 0 0 roots
  end.

(** The entries of the array hold nothing before they are linked. *)
Definition gc_init (g : zend_gc_globals) : zend_gc_globals :=
  match buf g with
  | None =>
      if gc_enabled g then
        gc_reset (MkGC (gc_enabled g) (gc_active g) (Some BUF) (unused g) (first_unused g)
          (Some (BUF + GC_ROOT_BUFFER_MAX_ENTRIES)%positive) (zval_to_free g) (free_list g) (next_to_free g) (gc_runs g) (collected g)
          (root_cells g))
      else g
  | Some _ => g
  end.

Definition gc_remove_from_buffer (root : ptr) : W unit :=
  let! r := load_root root in
  store_link (r_next r) (set_r_prev (r_prev r)) ;;;
  let! r := load_root root in
  store_link (r_prev r) (set_r_next (r_next r)) ;;;
  let! u := gets (unused ∘ gc) in
  store_root root (set_r_prev u) ;;;
  modify (on_gc (set_unused (Some root))).

Section collector.
Variable gc_collect_cycles : W unit.

(** [GC_G(unused)], then [GC_G(first_unused)], then what a collection frees; [None]
    is the early return.  [zv] is the value that the collection must not free. *)
Definition new_root (zv : ptr) : W (option ptr) :=
  let take p := let! r := load_root p in modify (on_gc (set_unused (r_prev r))) ;;; ret (Some p) in
  let! g := gets gc in
  match unused g with
  | Some p => take p
  | None =>
      if decide (first_unused g ≠ last_unused g) then
        match first_unused g with
        | Some p => modify (on_gc (set_first_unused (Some (Pos.succ p)))) ;;; ret (Some p)
        | None => stuck
        end
      else if negb (gc_enabled g) then ret None
      else
        store_zval zv (λ z, set_zv_refcount (u32 (zv_refcount z + 1)) z) ;;;
        gc_collect_cycles ;;;
        store_zval zv (λ z, set_zv_refcount (u32 (zv_refcount z - 1)) z) ;;;
        let! g := gets gc in
        match unused g with
        | Some p => take p
        | None => ret None
        end
  end.

(** [newRoot->next = GC_G(roots).next; ... newRoot->handle = handle; newRoot->u = u;]
    The entry may be one that was never written. *)
Definition link_root (newRoot : ptr) (handle : Z) (u : root_u) : W unit :=
  let! roots := load_root ROOTS in
  modify (on_gc (on_roots (<[newRoot := MkRoot (Some ROOTS) (r_next roots) handle u]>))) ;;;
  store_link (r_next roots) (set_r_prev (Some newRoot)) ;;;
  store_root ROOTS (set_r_next (Some newRoot)).

Definition gc_zobj_possible_root (zv : ptr) : W unit :=
  let! z := load_zval zv in
  let! st := gets objects in
  if negb (h_get_gc (zv_ht z)) || bool_decide (object_buckets st = None) then ret tt
  else
    let! b := load_bucket (zv_handle z) in
    let buffered := o_buffered (b_obj b) in
    if GC_GET_COLOR buffered =? GC_PURPLE then ret tt
    else
      match GC_ADDRESS buffered with
      | GNull =>
          let! newRoot := new_root zv in
          match newRoot with
          | None => ret tt
          | Some newRoot =>
              store_bucket (zv_handle z) (on_obj (λ o, set_o_buffered (GC_SET_PURPLE (o_buffered o)) o)) ;;;
              link_root newRoot (zv_handle z) (UHandlers (zv_ht z)) ;;;
              store_bucket (zv_handle z) (on_obj (λ o, set_o_buffered (GC_SET_ADDRESS (o_buffered o) (GRoot newRoot)) o))
          end
      | _ => ret tt
      end.

Definition GC_ZOBJ_CHECK_POSSIBLE_ROOT (zv : ptr) : W unit :=
  let! st := gets objects in
  match object_buckets st with
  | None => ret tt
  | Some _ =>
      let! z := load_zval zv in
      let! b := load_bucket (zv_handle z) in
      if valid b then gc_zobj_possible_root zv else ret tt
  end.

(** the address lies outside the buffer: the value is garbage that the running
    collection is going to free *)
Definition outside_buffer (g : zend_gc_globals) (a : gaddr) : bool :=
  match a with
  | GRoot p =>
      match buf g, last_unused g with
      | Some b, Some e => (p <? b)%positive || (e <=? p)%positive
      | _, _ => true
      end
  | GNull => bool_decide (buf g ≠ None)
  | GOther _ => true
  end.

Definition is_garbage (g : zend_gc_globals) (z : zval_gc_info) : bool :=
  bool_decide (free_list g ≠ None) && (GC_GET_COLOR (zv_u z) =? GC_BLACK) && outside_buffer g (GC_ADDRESS (zv_u z)).

Definition gc_zval_possible_root (zv : ptr) : W unit :=
  let! z := load_zval zv in
  let! g := gets gc in
  if is_garbage g z && negb (match GC_ADDRESS (zv_u z) with GNull => true | _ => false end) then ret tt
  else if zv_type z =? IS_OBJECT then GC_ZOBJ_CHECK_POSSIBLE_ROOT zv
  else if GC_GET_COLOR (zv_u z) =? GC_PURPLE then ret tt
  else
    match GC_ADDRESS (zv_u z) with
    | GNull =>
        let! newRoot := new_root zv in
        match newRoot with
        | None => ret tt
        | Some newRoot =>
            store_zval zv (λ z, set_zv_u (GC_SET_PURPLE (zv_u z)) z) ;;;
            link_root newRoot 0 (UPz zv) ;;;
            store_zval zv (λ z, set_zv_u (GC_SET_ADDRESS (zv_u z) (GRoot newRoot)) z)
        end
    | _ => ret tt
    end.

Definition gc_zval_check_possible_root (zv : ptr) : W unit :=
  let! z := load_zval zv in
  if (zv_type z =? IS_ARRAY) || (zv_type z =? IS_OBJECT) then gc_zval_possible_root zv else ret tt.

(** [u.next] of a value that the collector is going to free *)
Definition gc_remove_zval_from_buffer (zv : ptr) : W unit :=
  let! z := load_zval zv in
  let! g := gets gc in
  if is_garbage g z then
    if bool_decide (next_to_free g = Some zv) then
      modify (on_gc (set_next_to_free (match GC_ADDRESS (zv_u z) with GOther p => Some p | _ => None end)))
    else ret tt
  else
    match GC_ADDRESS (zv_u z) with
    | GRoot root_buffer =>
        gc_remove_from_buffer root_buffer ;;;
        store_zval zv (set_zv_u gnull)
    | _ => stuck
    end.

Definition GC_REMOVE_ZVAL_FROM_BUFFER (zv : ptr) : W unit :=
  let! z := load_zval zv in
  match GC_ADDRESS (zv_u z) with GNull => ret tt | _ => gc_remove_zval_from_buffer zv end.

Definition GC_REMOVE_ZOBJ_FROM_BUFFER (handle : Z) : W unit :=
  let! b := load_bucket handle in
  let! g := gets gc in
  match GC_ADDRESS (o_buffered (b_obj b)) with
  | GNull => ret tt
  | a =>
      if gc_active g then ret tt
      else
        match a with
        | GRoot p => gc_remove_from_buffer p ;;; store_bucket handle (on_obj (set_o_buffered gnull))
        | _ => stuck
        end
  end.

(** ** The objects store *)

Definition zend_objects_store_init (init_size : Z) : zend_objects_store :=
  MkStore (Some (<[0%nat := Some (MkObucket false false 0 (MkObj (WObject 0) 0 0 0 None 0 gnull))]>
    (replicate (Z.to_nat init_size) None))) 1 init_size (-1).

Definition zend_objects_store_destroy (st : zend_objects_store) : zend_objects_store :=
  MkStore None (os_top st) (os_size st) (free_list_head st).

(** the functions behind the pointers *)
Variable dtor_fun : Z → Z → Z → W unit.
Variable free_fun : Z → Z → W unit.
Variable clone_fun : Z → Z → W Z.
(** the address of [zend_objects_destroy_object] *)
Variable zend_objects_destroy_object : Z.

Definition call_dtor_fun (f object handle : Z) : W unit := call (CallDtor f object handle) ;;; dtor_fun f object handle.
Definition call_free_fun (f object : Z) : W unit := call (CallFree f object) ;;; free_fun f object.
Definition call_clone_fun (f object : Z) : W Z := call (CallClone f object) ;;; clone_fun f object.

Definition add_refcount (n : Z) (b : object_bucket) : object_bucket :=
  on_obj (λ o, set_o_refcount (u32 (o_refcount o + n)) o) b.

(** the loops run over the handles below [top], which their calls may move *)
Fixpoint call_destructors_loop (fuel : nat) (i : Z) : W unit :=
  let! st := gets objects in
  if i <? os_top st then
    match fuel with
    | O => stuck
    | S fuel' =>
        let! b := load_bucket i in
        (if valid b && negb (destructor_called b) then
           store_bucket i (set_destructor_called true) ;;;
           let! object := (if o_dtor (b_obj b) =? 0 then ret 0 else rd_object (b_obj b)) in
           if negb (o_dtor (b_obj b) =? 0) && negb (object =? 0) then
             store_bucket i (add_refcount 1) ;;;
             call_dtor_fun (o_dtor (b_obj b)) object i ;;;
             store_bucket i (add_refcount (-1)) ;;;
             let! b := load_bucket i in
             if o_refcount (b_obj b) =? 0 then GC_REMOVE_ZOBJ_FROM_BUFFER i else ret tt
           else ret tt
         else ret tt) ;;;
        call_destructors_loop fuel' (i + 1)
    end
  else ret tt.

Definition zend_objects_store_call_destructors (fuel : nat) : W unit := call_destructors_loop fuel 1.

Fixpoint mark_destructed_loop (fuel : nat) (i : Z) : W unit :=
  let! st := gets objects in
  if i <? os_top st then
    match fuel with
    | O => stuck
    | S fuel' =>
        let! b := load_bucket i in
        (if valid b then store_bucket i (set_destructor_called true) else ret tt) ;;;
        mark_destructed_loop fuel' (i + 1)
    end
  else ret tt.

Definition zend_objects_store_mark_destructed (fuel : nat) : W unit :=
  let! st := gets objects in
  match object_buckets st with
  | None => ret tt
  | Some _ => mark_destructed_loop fuel 1
  end.

Fixpoint free_storage_loop (fuel : nat) (i : Z) : W unit :=
  let! st := gets objects in
  if i <? os_top st then
    match fuel with
    | O => stuck
    | S fuel' =>
        let! b := load_bucket i in
        (if valid b then
           GC_REMOVE_ZOBJ_FROM_BUFFER i ;;;
           store_bucket i (set_valid false) ;;;
           let! b := load_bucket i in
           if negb (o_free_storage (b_obj b) =? 0) then
             let! object := rd_object (b_obj b) in
             call_free_fun (o_free_storage (b_obj b)) object
           else ret tt
         else ret tt) ;;;
        free_storage_loop fuel' (i + 1)
    end
  else ret tt.

Definition zend_objects_store_free_object_storage (fuel : nat) : W unit := free_storage_loop fuel 1.

Definition zend_objects_store_put (object dtor free_storage clone : Z) : W Z :=
  let! st := gets objects in
  let! handle :=
    (if negb (free_list_head st =? -1) then
       let handle := u32 (free_list_head st) in
       let! b := load_bucket handle in
       match o_word (b_obj b) with
       | WNext next =>
           modify (on_objects (λ st, MkStore (object_buckets st) (os_top st) (os_size st) next)) ;;;
           ret handle
       | WObject _ => stuck
       end
     else
       (if os_top st =? os_size st then
          let size := u32 (Z.shiftl (os_size st) 1) in
          modify (on_objects (λ st,
            MkStore (Some (resize (Z.to_nat size) None (default [] (object_buckets st)))) (os_top st) size (free_list_head st)))
        else ret tt) ;;;
       modify (on_objects (λ st, MkStore (object_buckets st) (u32 (os_top st + 1)) (os_size st) (free_list_head st))) ;;;
       ret (os_top st)) in
  let! st := gets objects in
  let b := MkObucket false true 0
    (MkObj (WObject object) (if dtor =? 0 then zend_objects_destroy_object else dtor) free_storage clone None 1 gnull) in
  if decide (0 ≤ handle < Z.of_nat (length (default [] (object_buckets st)))) then
    modify (on_objects (put_bucket handle b)) ;;;
    ret handle
  else stuck.

Definition zend_objects_store_get_refcount (zv : ptr) : W Z :=
  let! z := load_zval zv in
  let! b := load_bucket (zv_handle z) in
  ret (o_refcount (b_obj b)).

Definition zend_objects_store_add_ref_by_handle (handle : Z) : W unit := store_bucket handle (add_refcount 1).

Definition zend_objects_store_add_ref (zv : ptr) : W unit :=
  let! z := load_zval zv in
  zend_objects_store_add_ref_by_handle (zv_handle z).

Definition ZEND_OBJECTS_STORE_ADD_TO_FREE_LIST (handle : Z) : W unit :=
  let! st := gets objects in
  store_bucket handle (on_obj (set_o_word (WNext (free_list_head st)))) ;;;
  modify (on_objects (λ st, MkStore (object_buckets st) (os_top st) (os_size st) (s32 handle))) ;;;
  store_bucket handle (set_valid false).

(** the destructor of an object with one reference, unless it was called before;
    the result is [failure] *)
Definition run_destructor (handle : Z) (handlers : option zend_object_handlers) : W bool :=
  let! b := load_bucket handle in
  if negb (destructor_called b) then
    store_bucket handle (set_destructor_called true) ;;;
    if negb (o_dtor (b_obj b) =? 0) then
      (match handlers, o_handlers (b_obj b) with
       | Some h, None => store_bucket handle (on_obj (set_o_handlers (Some h)))
       | _, _ => ret tt
       end) ;;;
      let! object := rd_object (b_obj b) in
      zend_try (call_dtor_fun (o_dtor (b_obj b)) object handle)
    else ret false
  else ret false.

(** the storage of an object that still has one reference after its destructor *)
Definition run_free_storage (handle : Z) : W bool :=
  let! b := load_bucket handle in
  if o_refcount (b_obj b) =? 1 then
    GC_REMOVE_ZOBJ_FROM_BUFFER handle ;;;
    let! failure :=
      (if negb (o_free_storage (b_obj b) =? 0) then
         let! object := rd_object (b_obj b) in
         zend_try (call_free_fun (o_free_storage (b_obj b)) object)
       else ret false) in
    ZEND_OBJECTS_STORE_ADD_TO_FREE_LIST handle ;;;
    ret failure
  else ret false.

Definition zend_objects_store_del_ref_by_handle_ex (handle : Z) (handlers : option zend_object_handlers) : W unit :=
  let! st := gets objects in
  match object_buckets st with
  | None => ret tt
  | Some _ =>
      let! b := load_bucket handle in
      let! failure :=
        (if valid b && (o_refcount (b_obj b) =? 1) then
           let! failure1 := run_destructor handle handlers in
           let! failure2 := run_free_storage handle in
           ret (failure1 || failure2)
         else ret false) in
      store_bucket handle (add_refcount (-1)) ;;;
      if (failure : bool) then bailout else ret tt
  end.

Definition zend_objects_store_del_ref_by_handle (handle : Z) : W unit :=
  zend_objects_store_del_ref_by_handle_ex handle None.

Definition zend_objects_store_del_ref (zv : ptr) : W unit :=
  let! z := load_zval zv in
  store_zval zv (λ z, set_zv_refcount (u32 (zv_refcount z + 1)) z) ;;;
  zend_objects_store_del_ref_by_handle_ex (zv_handle z) (Some (zv_ht z)) ;;;
  store_zval zv (λ z, set_zv_refcount (u32 (zv_refcount z - 1)) z) ;;;
  GC_ZOBJ_CHECK_POSSIBLE_ROOT zv.

(** The error of an object without [clone] is fatal. *)
Definition zend_objects_store_clone_obj (zv : ptr) : W (Z * zend_object_handlers) :=
  let! z := load_zval zv in
  let handle := zv_handle z in
  let! b := load_bucket handle in
  if o_clone (b_obj b) =? 0 then bailout
  else
    let! object := rd_object (b_obj b) in
    let! new_object := call_clone_fun (o_clone (b_obj b)) object in
    let! b := load_bucket handle in
    let! new_handle := zend_objects_store_put new_object (o_dtor (b_obj b)) (o_free_storage (b_obj b)) (o_clone (b_obj b)) in
    let! z := load_zval zv in
    store_bucket handle (on_obj (set_o_handlers (Some (zv_ht z)))) ;;;
    ret (new_handle, zv_ht z).

Definition zend_object_store_get_object_by_handle (handle : Z) : W Z :=
  let! b := load_bucket handle in rd_object (b_obj b).

Definition zend_object_store_get_object (zv : ptr) : W Z :=
  let! z := load_zval zv in zend_object_store_get_object_by_handle (zv_handle z).

Definition zend_object_store_set_object (zv : ptr) (object : Z) : W unit :=
  let! z := load_zval zv in
  store_bucket (zv_handle z) (on_obj (set_o_word (WObject object))).

Definition zend_object_store_ctor_failed (zv : ptr) : W unit :=
  let! z := load_zval zv in
  store_bucket (zv_handle z) (on_obj (set_o_handlers (Some (zv_ht z)))) ;;;
  store_bucket (zv_handle z) (set_destructor_called true).

End collector.
