(* ===== verification/ObjSpec.v ===== *)
(** * The objects store and the root buffer: specification

    Invariants: the entries of the root buffer are, without repetition, the ring of
    possible roots and the list of unused entries; the store's free list threads
    handles of dead buckets; a live object that says it is buffered is the object of
    an entry of the ring. *)

From S2P Require Import Prelude DList HashModel ObjModel.
Local Open Scope Z_scope.

(** ** The root buffer *)

(** the list threaded through [prev] from [GC_G(unused)] *)
Fixpoint unused_chain (h : gmap ptr gc_root_buffer) (o : option ptr) (us : list ptr) : Prop :=
  match us with
  | [] => o = None
  | p :: us' => o = Some p ∧ ∃ r, h !! p = Some r ∧ unused_chain h (r_prev r) us'
  end.

(** the ring holds [rs], the unused entries are [us], and [ex] are in neither *)
Record roots_ok (g : zend_gc_globals) (rs us ex : list ptr) : Prop := {
  ro_ring : seg ring (root_cells g) (last_or rs (Some ROOTS)) (ROOTS :: rs) (Some ROOTS);
  ro_nodup : NoDup (rs ++ us ++ ex);
  ro_unused : unused_chain (root_cells g) (unused g) us;
  ro_range : match buf g with
             | None => rs = [] ∧ us = [] ∧ ex = [] ∧ first_unused g = None ∧ last_unused g = None
             | Some b => b = BUF ∧ last_unused g = Some (BUF + GC_ROOT_BUFFER_MAX_ENTRIES)%positive ∧
                 ∃ f, first_unused g = Some f ∧ (BUF ≤ f ≤ BUF + GC_ROOT_BUFFER_MAX_ENTRIES)%positive ∧
                   ∀ p, p ∈ rs ++ us ++ ex ↔ (BUF ≤ p < f)%positive
             end
}.

(** everything of the globals but the buffer *)
Definition gc_rest (g : zend_gc_globals) :=
  (gc_enabled g, gc_active g, buf g, last_unused g, zval_to_free g, free_list g, next_to_free g, gc_runs g, collected g).

(** what an entry says *)
Definition said (r : gc_root_buffer) : Z * root_u := (r_handle r, r_u r).

Section roots.
Implicit Types (g : zend_gc_globals) (rs us ex l : list ptr) (p q : ptr) (w : world) (h : gmap ptr gc_root_buffer).

Lemma unused_chain_agree h h' o us : agree id h h' us → unused_chain h o us → unused_chain h' o us.
Proof.
  revert o. induction us as [|p us IH]; intros o Hag; [done|]. intros (-> & r & Hr & Hus). split; [done|].
  exists r. split.
  - specialize (Hag p ltac:(left)). rewrite !option_fmap_id in Hag. by rewrite Hag.
  - apply IH; [|done]. eapply agree_subset; [|done]. by right.
Qed.

(** the entries are never the head of the ring *)
Lemma roots_not_head g rs us ex : roots_ok g rs us ex → ROOTS ∉ rs ++ us ++ ex.
Proof.
  intros [_ _ _ Hr]. destruct (buf g).
  - destruct Hr as (_ & _ & f & _ & _ & Hr). intros Hin%Hr. unfold ROOTS, BUF in Hin. lia.
  - destruct Hr as (-> & -> & -> & _). apply not_elem_of_nil.
Qed.

Lemma ring_nodup g rs us ex : roots_ok g rs us ex → NoDup (ROOTS :: rs).
Proof.
  intros Hg. pose proof (roots_not_head _ _ _ _ Hg) as Hn. pose proof (ro_nodup _ _ _ _ Hg) as (Hnd & _)%NoDup_app.
  apply NoDup_cons. split; [|done]. intros Hin. apply Hn. apply elem_of_app. by left.
Qed.

(** the two neighbours of an entry of the ring, which may both be the head *)
Lemma last_or_cons l p d : last_or (p :: l) d = Some (default p (last l)).
Proof. simpl. rewrite last_or_last. by destruct (last l). Qed.

(** taking [p] out of a ring closed on [r] *)
Lemma ring_unlink h r l1 p l2 :
  NoDup (r :: l1 ++ p :: l2) → seg ring h (last_or (l1 ++ p :: l2) (Some r)) (r :: l1 ++ p :: l2) (Some r) →
  let prev := last_or l1 (Some r) in
  let next := head_or l2 (Some r) in
  lnk ring <$> h !! p = Some (prev, next) ∧
  seg ring (alter_opt prev (set_r_next next) (alter_opt next (set_r_prev prev) h))
    (last_or (l1 ++ l2) (Some r)) (r :: l1 ++ l2) (Some r).
Proof.
  intros Hnd Hs prev next.
  assert (Hsplit : seg ring h (last_or (l1 ++ p :: l2) (Some r)) ((r :: l1) ++ p :: l2) (Some r)) by exact Hs.
  apply seg_app in Hsplit as [HA [Hp HB]]. cbn [head_or] in HA.
  split; [exact Hp|]. change (r :: l1 ++ p :: l2) with ((r :: l1) ++ p :: l2) in Hnd.
  pose proof Hnd as (HpA & HpB & _)%nodup_middle. pose proof Hnd as (HndA & HAB & [_ HndB]%NoDup_cons)%NoDup_app.
  change (r :: l1 ++ l2) with ((r :: l1) ++ l2). apply seg_app.
  assert (Hlast : last (r :: l1) = prev).
  { unfold prev. destruct l1 as [|a l1'] using rev_ind; [done|].
    rewrite last_or_snoc. rewrite app_comm_cons. by rewrite last_snoc. }
  assert (Hprev : prev = last_or (r :: l1) None) by (by rewrite last_or_None, Hlast).
  destruct l2 as [|q l2].
  - (* [p] is the last of the ring: the head's back link changes too *)
    unfold next in *. cbn [head_or] in *. rewrite app_nil_r in *.
    rewrite last_or_snoc in HA. split; [|done]. fold prev. rewrite <-Hlast. 
    apply (seg_alter_last ring _ _ _ (Some p)); [done|]. 
    pose proof (seg_alter_head ring h _ (r :: l1) _ (last (r :: l1)) HndA HA) as Hh. exact Hh.
  - unfold next in *. cbn [head_or alter_opt] in *.
    assert (Hq : q ∉ r :: l1) by (intros Hin; apply (HAB q Hin); right; left).
    assert (Hdl : ∀ x, last (r :: l1) = Some x → x ∉ q :: l2).
    { intros x Hx Hin. apply (HAB x); [|by right]. apply last_Some_elem_of. exact Hx. }
    rewrite last_or_app in *. cbn [last_or] in *. split.
    + fold prev. rewrite <-Hlast. apply (seg_alter_last ring _ _ _ (Some p)); [done|].
      apply (seg_alter_other ring _ (Some q)); [by intros ? [= <-]|]. exact HA.
    + fold prev. rewrite <-Hlast.
      apply (seg_alter_other ring); [exact Hdl|].
      apply (seg_alter_head ring h (Some p) (q :: l2) (Some r) (last (r :: l1)) HndB HB).
Qed.

(** linking [p] in front *)
Lemma ring_link h r rs p n :
  NoDup (r :: rs) → p ∉ r :: rs → seg ring h (last_or rs (Some r)) (r :: rs) (Some r) →
  lnk ring n = (Some r, head_or rs (Some r)) →
  seg ring (alter (set_r_next (Some p)) r (alter_opt (head_or rs (Some r)) (set_r_prev (Some p)) (<[p := n]> h)))
    (last_or (p :: rs) (Some r)) (r :: p :: rs) (Some r).
Proof.
  intros Hnd Hp Hs Hn. pose proof Hnd as [Hr Hnd']%NoDup_cons.
  assert (Hs' : seg ring (<[p := n]> h) (last_or rs (Some r)) (r :: rs) (Some r)).
  { eapply seg_agree; [|exact Hs]. by apply agree_insert. }
  apply not_elem_of_cons in Hp as [Hpr Hps]. destruct Hs' as [Hlr Hrs].
  destruct rs as [|q rs]; cbn [head_or alter_opt last_or] in *.
  - split; [|split; [|done]].
    + rewrite lookup_alter_eq, lookup_alter_eq. destruct (<[p:=n]> h !! r) as [x|]; [|done].
      simpl in *. unfold lnk in *. simpl in *. injection Hlr as E1 E2. congruence.
    + rewrite !lookup_alter_ne by done. rewrite lookup_insert_eq. simpl. by rewrite Hn.
  - apply not_elem_of_cons in Hr as [Hrq Hr]. apply not_elem_of_cons in Hps as [Hpq Hps].
    split; [|split].
    + rewrite lookup_alter_eq, lookup_alter_ne by done. destruct (<[p:=n]> h !! r) as [x|]; [|done].
      simpl in *. unfold lnk in *. simpl in *. injection Hlr as E1 E2. congruence.
    + rewrite !lookup_alter_ne by done. rewrite lookup_insert_eq. simpl. by rewrite Hn.
    + apply (seg_alter_other ring _ (Some r)); [by intros ? [= <-] [|]%elem_of_cons|].
      apply (seg_alter_head ring _ (Some r) (q :: rs)); [done|]. exact Hrs.
Qed.

(** ** Runs *)

Lemma load_root_Done p w r : root_cells (gc w) !! p = Some r → load_root p w = Done r w.
Proof. unfold load_root. by intros ->. Qed.

Lemma store_root_Done p f w :
  is_Some (root_cells (gc w) !! p) → store_root p f w = Done tt (on_gc (on_roots (alter f p)) w).
Proof. unfold store_root. by intros [? ->]. Qed.

Lemma store_link_Done o f w :
  (∃ p, o = Some p ∧ is_Some (root_cells (gc w) !! p)) →
  store_link o f w = Done tt (on_gc (on_roots (alter_opt o f)) w).
Proof. intros (p & -> & Hp). by apply store_root_Done. Qed.

Lemma said_alter o f h p : (∀ r, said (f r) = said r) → said <$> alter_opt o f h !! p = said <$> h !! p.
Proof. apply alter_opt_proj. Qed.

Lemma head_or_elem l r p : head_or l (Some r) = Some p → p ∈ r :: l.
Proof. destruct l; simpl; intros [= ->]; [by left|right; by left]. Qed.

Lemma last_or_elem l r p : last_or l (Some r) = Some p → p ∈ r :: l.
Proof.
  revert r. induction l as [|q l IH]; intros r; simpl; [intros [= ->]; by left|]. intros Hp%IH. by right.
Qed.

Lemma head_or_some l r : ∃ p, head_or l (Some r) = Some p.
Proof. destruct l; by eexists. Qed.

Lemma last_or_some l r : ∃ p, last_or l (Some r) = Some p.
Proof. revert r. induction l as [|q l IH]; intros r; simpl; [by eexists|apply IH]. Qed.

(** [gc_remove_from_buffer]: the entry moves to the front of the unused ones *)
Lemma remove_run_next w l1 p l2 us ex :
  roots_ok (gc w) (l1 ++ p :: l2) us ex →
  ∃ g', gc_remove_from_buffer p w = Done tt (on_gc (λ _, g') w) ∧ roots_ok g' (l1 ++ l2) (p :: us) ex ∧
    gc_rest g' = gc_rest (gc w) ∧ first_unused g' = first_unused (gc w) ∧
    (∀ q, said <$> root_cells g' !! q = said <$> root_cells (gc w) !! q) ∧
    r_next <$> root_cells g' !! p = Some (head_or l2 (Some ROOTS)).
Proof.
  intros Hg. pose proof (ring_nodup _ _ _ _ Hg) as Hnd. pose proof (roots_not_head _ _ _ _ Hg) as HnR.
  destruct Hg as [Hring Hall Hun Hrange]. destruct (ring_unlink _ _ _ _ _ Hnd Hring) as [Hp Hring'].
  set (prev := last_or l1 (Some ROOTS)) in *. set (next := head_or l2 (Some ROOTS)) in *.
  assert (Hlive : ∀ q, q ∈ ROOTS :: l1 ++ p :: l2 → is_Some (root_cells (gc w) !! q)).
  { intros q. by apply (seg_live ring _ _ _ _ _ Hring). }
  assert (Hpn : p ∉ ROOTS :: l1 ++ l2).
  { change (ROOTS :: l1 ++ p :: l2) with ((ROOTS :: l1) ++ p :: l2) in Hnd. apply nodup_middle in Hnd as (H1 & H2 & _).
    rewrite app_comm_cons, elem_of_app. tauto. }
  assert (Hnext : ∃ q, next = Some q ∧ q ∈ ROOTS :: l1 ++ l2).
  { destruct (head_or_some l2 ROOTS) as [q Hq]. exists q. split; [done|]. apply head_or_elem in Hq. set_solver. }
  assert (Hprev : ∃ q, prev = Some q ∧ q ∈ ROOTS :: l1 ++ l2).
  { destruct (last_or_some l1 ROOTS) as [q Hq]. exists q. split; [done|]. apply last_or_elem in Hq. set_solver. }
  assert (Hlive' : ∀ q, q ∈ ROOTS :: l1 ++ l2 → is_Some (root_cells (gc w) !! q)) by (intros q Hq; apply Hlive; set_solver).
  destruct (root_cells (gc w) !! p) as [r|] eqn:Hr; [|done]. simpl in Hp. injection Hp as Hp1 Hp2.
  unfold gc_remove_from_buffer. rewrite (bind_Done _ _ _ _ _ (load_root_Done _ _ _ Hr)). rewrite Hp1, Hp2.
  set (h1 := alter_opt next (set_r_prev prev) (root_cells (gc w))).
  erewrite bind_Done; cycle 1.
  { apply store_link_Done. destruct Hnext as (q & Hq & Hin). exists q. split; [done|]. by apply Hlive'. }
  fold h1. cbn [gc].
  assert (Hne : ∀ o, (∃ q, o = Some q ∧ q ∈ ROOTS :: l1 ++ l2) → o ≠ Some p) by (intros o (q & -> & Hq) [= ->]; done).
  assert (Hr1 : h1 !! p = Some r) by (unfold h1; rewrite lookup_alter_opt_ne by (by apply Hne); done).
  set (w1 := on_gc (on_roots (alter_opt next (set_r_prev prev))) w).
  assert (root_cells (gc w1) = h1) as Hc1 by done.
  erewrite bind_Done by (apply load_root_Done; rewrite Hc1; exact Hr1). rewrite Hp1, Hp2.
  set (h2 := alter_opt prev (set_r_next next) h1) in *.
  erewrite bind_Done; cycle 1.
  { apply store_link_Done. destruct Hprev as (q & Hq & Hin). exists q. split; [done|]. rewrite Hc1.
    unfold h1. apply is_Some_alter_opt. by apply Hlive'. }
  erewrite bind_Done by reflexivity.
  assert (Hr2 : h2 !! p = Some r) by (unfold h2; rewrite lookup_alter_opt_ne by (by apply Hne); done).
  erewrite bind_Done by (apply store_root_Done; simpl; fold h1; fold h2; by rewrite Hr2).
  eexists. split; [reflexivity|]. cbn. fold h1. fold h2.
  split; [|split; [done|split; [done|split]]]; cycle 1.
  { intros q. etransitivity; [by apply (said_alter (Some p))|]. unfold h2, h1. by rewrite !said_alter. }
  { rewrite lookup_alter_eq, Hr2. cbn. by rewrite Hp2. }
  split; cbn; fold h1; fold h2.
  - refine (seg_alter_other ring h2 (Some p) _ _ _ _ _ Hring'). by intros ? [= <-].
  - rewrite <-app_assoc in *. simpl in *. apply (NoDup_Permutation_proper _ (l1 ++ p :: l2 ++ us ++ ex)); [|done].
    rewrite <-!Permutation_middle. by rewrite (app_assoc l2).
  - split; [done|]. rewrite lookup_alter_eq, Hr2. eexists. split; [reflexivity|]. cbn.
    eapply unused_chain_agree; [|exact Hun]. intros q Hq.
    assert (Hqn : q ∉ ROOTS :: l1 ++ p :: l2).
    { intros [->|Hin]%elem_of_cons; [apply HnR; set_solver|]. apply NoDup_app in Hall as (_ & Hd & _).
      apply (Hd q Hin). set_solver. }
    rewrite lookup_alter_ne by set_solver. unfold h2, h1.
    rewrite !lookup_alter_opt_ne; [done|intros ->..]; [destruct Hnext as (? & [= ->] & ?)|destruct Hprev as (? & [= ->] & ?)]; set_solver.
  - destruct (buf (gc w)) as [b|]; [|destruct Hrange as (? & _); by destruct l1].
    destruct Hrange as (-> & Hl & f & Hf & Hb & Hin). split; [done|]. split; [done|]. exists f. split; [done|]. split; [done|].
    intros q. rewrite <-Hin. set_solver.
Qed.

Lemma remove_run w l1 p l2 us ex :
  roots_ok (gc w) (l1 ++ p :: l2) us ex →
  ∃ g', gc_remove_from_buffer p w = Done tt (on_gc (λ _, g') w) ∧ roots_ok g' (l1 ++ l2) (p :: us) ex ∧
    gc_rest g' = gc_rest (gc w) ∧ first_unused g' = first_unused (gc w) ∧
    ∀ q, said <$> root_cells g' !! q = said <$> root_cells (gc w) !! q.
Proof.
  intros Hg. destruct (remove_run_next w l1 p l2 us ex Hg) as (g' & Hr & Hg' & Hrest & Hf & Hs & _). by exists g'.
Qed.

(** no entry is left *)
Definition full (g : zend_gc_globals) : Prop := unused g = None ∧ first_unused g = last_unused g.

Lemma new_root_run collect zv w rs us ex :
  roots_ok (gc w) rs us ex → ¬ full (gc w) →
  ∃ p g' us', new_root collect zv w = Done (Some p) (on_gc (λ _, g') w) ∧ roots_ok g' rs us' (p :: ex) ∧
    gc_rest g' = gc_rest (gc w) ∧ root_cells g' = root_cells (gc w) ∧
    (us = p :: us' ∨ us = [] ∧ us' = [] ∧ first_unused (gc w) = Some p).
Proof.
  intros [Hring Hnd Hun Hrange] Hfull. unfold new_root. erewrite bind_Done by reflexivity.
  destruct us as [|p us].
  - simpl in Hun. rewrite Hun. rewrite decide_True by (intros E; by apply Hfull).
    destruct (buf (gc w)) as [b|] eqn:Hb.
    2: { destruct Hrange as (_ & _ & _ & E1 & E2). destruct Hfull. split; [done|]. by rewrite E1, E2. }
    destruct Hrange as (-> & Hl & f & Hf & Hbd & Hin). rewrite Hf. erewrite bind_Done by reflexivity.
    assert (f < BUF + GC_ROOT_BUFFER_MAX_ENTRIES)%positive as Hlt.
    { assert (f ≠ BUF + GC_ROOT_BUFFER_MAX_ENTRIES)%positive; [|lia]. intros ->. apply Hfull. split; [done|]. by rewrite Hf, Hl. }
    eexists f, _, []. split; [reflexivity|]. split; [|split; [done|split; [done|by right]]]. split; try done.
    + simpl in *. apply (NoDup_Permutation_proper _ (f :: rs ++ ex)); [by rewrite Permutation_middle|].
      apply NoDup_cons. split; [|done]. intros Hf'%Hin. lia.
    + cbn. rewrite Hb. split; [done|]. split; [done|]. eexists. split; [reflexivity|]. split; [lia|].
      intros q. cbn in Hin. rewrite <-Permutation_middle, elem_of_cons, Hin. lia.
  - destruct Hun as (Hu & r & Hr & Hun). rewrite Hu.
    rewrite (bind_Done _ _ _ _ _ (load_root_Done _ _ _ Hr)). erewrite bind_Done by reflexivity.
    eexists p, _, us. split; [reflexivity|]. split; [|split; [done|split; [done|by left]]]. split; try done.
    + cbn. apply (NoDup_Permutation_proper _ (rs ++ (p :: us) ++ ex)); [|done]. cbn. by rewrite (Permutation_middle us).
    + cbn. destruct (buf (gc w)) as [b|]; [|by destruct Hrange as (_ & ? & _)].
      destruct Hrange as (-> & Hl & f & Hf & Hbd & Hin). split; [done|]. split; [done|]. exists f. split; [done|].
      split; [done|]. intros q. rewrite <-Hin. set_solver.
Qed.

Lemma new_root_full collect zv w :
  full (gc w) → gc_enabled (gc w) = false → new_root collect zv w = Done None w.
Proof.
  intros [Hu Hf] He. unfold new_root. erewrite bind_Done by reflexivity. rewrite Hu.
  rewrite decide_False by (intros Hne; by apply Hne). by rewrite He.
Qed.

Lemma link_root_run p hd u w rs us ex :
  roots_ok (gc w) rs us (p :: ex) →
  ∃ g', link_root p hd u w = Done tt (on_gc (λ _, g') w) ∧ roots_ok g' (p :: rs) us ex ∧
    gc_rest g' = gc_rest (gc w) ∧ unused g' = unused (gc w) ∧ first_unused g' = first_unused (gc w) ∧
    said <$> root_cells g' !! p = Some (hd, u) ∧ ∀ q, q ≠ p → said <$> root_cells g' !! q = said <$> root_cells (gc w) !! q.
Proof.
  intros Hg. pose proof (ring_nodup _ _ _ _ Hg) as Hnd. pose proof (roots_not_head _ _ _ _ Hg) as HnR.
  destruct Hg as [Hring Hall Hun Hrange].
  assert (Hp : p ∉ ROOTS :: rs).
  { intros [->|Hin]%elem_of_cons; [apply HnR; set_solver|].
    apply NoDup_app in Hall as (_ & Hd & _). apply (Hd p Hin). set_solver. }
  pose proof (seg_live ring _ _ _ _ ROOTS Hring ltac:(left)) as [r Hr].
  pose proof Hring as [Hlr _]. rewrite Hr in Hlr. injection Hlr as Hr1 Hr2. cbn in Hr1, Hr2.
  set (next := head_or rs (Some ROOTS)) in *.
  unfold link_root. rewrite (bind_Done _ _ _ _ _ (load_root_Done _ _ _ Hr)). erewrite bind_Done by reflexivity.
  rewrite Hr2. set (n := MkRoot (Some ROOTS) next hd u). set (h1 := <[p := n]> (root_cells (gc w))).
  assert (Hnx : ∃ q, next = Some q ∧ q ∈ ROOTS :: rs).
  { destruct (head_or_some rs ROOTS) as [q Hq]. exists q. split; [done|]. by apply head_or_elem in Hq. }
  assert (Hlive : ∀ q, q ∈ ROOTS :: rs → is_Some (h1 !! q)).
  { intros q Hq. unfold h1. rewrite lookup_insert_ne by (by intros ->). by apply (seg_live ring _ _ _ _ _ Hring). }
  erewrite bind_Done; cycle 1.
  { apply store_link_Done. destruct Hnx as (q & Hq & Hin). exists q. split; [done|]. by apply Hlive. }
  rewrite store_root_Done; cycle 1.
  { cbn. apply is_Some_alter_opt. apply Hlive. left. }
  eexists. split; [reflexivity|]. cbn. fold h1.
  set (h2 := alter_opt next (set_r_prev (Some p)) h1) in *.
  assert (Hsaid : ∀ q, said <$> alter (set_r_next (Some p)) ROOTS h2 !! q = said <$> h1 !! q).
  { intros q. etransitivity; [by apply (said_alter (Some ROOTS))|]. unfold h2. by rewrite said_alter. }
  split; [|split; [done|split; [done|split; [done|split]]]].
  2: { rewrite Hsaid. unfold h1. by rewrite lookup_insert_eq. }
  2: { intros q Hq. rewrite Hsaid. unfold h1. by rewrite lookup_insert_ne. }
  split; cbn; fold h1; fold h2.
  - exact (ring_link _ ROOTS rs p n Hnd Hp Hring eq_refl).
  - apply (NoDup_Permutation_proper _ (rs ++ us ++ p :: ex)); [|done]. simpl. rewrite !(app_assoc rs us). apply Permutation_middle.
  - eapply unused_chain_agree; [|exact Hun]. intros q Hq.
    assert (Hqn : q ∉ ROOTS :: rs).
    { intros [->|Hin]%elem_of_cons; [apply HnR; set_solver|]. apply NoDup_app in Hall as (_ & Hd & _).
      apply (Hd q Hin). set_solver. }
    assert (Hqp : q ≠ p). { intros ->. apply NoDup_app in Hall as (_ & _ & (_ & Hd & _)%NoDup_app). apply (Hd p Hq). left. }
    rewrite lookup_alter_ne by set_solver. unfold h2.
    rewrite lookup_alter_opt_ne by (intros ->; destruct Hnx as (? & [= ->] & ?); set_solver).
    unfold h1. by rewrite lookup_insert_ne.
  - destruct (buf (gc w)) as [b|]; [|by destruct Hrange as (_ & _ & ? & _)].
    destruct Hrange as (-> & Hl & f & Hf & Hb & Hin). split; [done|]. split; [done|]. exists f. split; [done|]. split; [done|].
    intros q. rewrite <-Hin. set_solver.
Qed.

End roots.

(** ** The store *)

(** the handles threaded from [free_list_head] *)
Fixpoint free_chain (st : zend_objects_store) (h : Z) (fl : list Z) : Prop :=
  match fl with
  | [] => h = -1
  | x :: fl' => h = x ∧ 1 ≤ x < os_top st ∧
      ∃ b n, bucket_at st x = Some b ∧ valid b = false ∧ o_word (b_obj b) = WNext n ∧ free_chain st n fl'
  end.

Record store_ok (st : zend_objects_store) (fl : list Z) : Prop := {
  st_buckets : ∃ l, object_buckets st = Some l ∧ Z.of_nat (length l) = os_size st;
  st_top : 1 ≤ os_top st ≤ os_size st ∧ os_size st < 2 ^ 31;
  st_used : ∀ h, 1 ≤ h < os_top st → is_Some (bucket_at st h);
  st_live : ∀ h b, bucket_at st h = Some b → valid b = true → 1 ≤ h < os_top st ∧ ∃ x, o_word (b_obj b) = WObject x;
  st_free : free_chain st (free_list_head st) fl;
  st_nodup : NoDup fl
}.

(** live objects and the root buffer *)
Definition buffered_ok (w : world) (rs : list ptr) : Prop :=
  ∀ h b, bucket_at (objects w) h = Some b → valid b = true →
    match GC_ADDRESS (o_buffered (b_obj b)) with
    | GNull => True
    | GRoot p => p ∈ rs ∧ ∃ u, said <$> root_cells (gc w) !! p = Some (h, u)
    | GOther _ => False
    end.

(** outside of a collection *)
Definition world_ok (w : world) : Prop :=
  gc_active (gc w) = false ∧ ∃ fl rs us, store_ok (objects w) fl ∧ roots_ok (gc w) rs us [] ∧ buffered_ok w rs.

Section store.
Implicit Types (st : zend_objects_store) (h : Z) (b : object_bucket) (fl : list Z) (w : world).

Lemma bucket_at_put st h b b0 h' :
  bucket_at st h = Some b0 →
  bucket_at (put_bucket h b st) h' = if decide (h' = h) then Some b else bucket_at st h'.
Proof.
  unfold bucket_at, put_bucket. cbn. destruct (object_buckets st) as [l|]; [|done]. cbn.
  destruct (decide (0 ≤ h)) as [Hh|]; [|done]. intros Hb.
  assert (Z.to_nat h < length l)%nat.
  { apply lookup_lt_is_Some. destruct (l !! Z.to_nat h); [by eexists|done]. }
  destruct (decide (h' = h)) as [->|Hne].
  - rewrite decide_True by done. by rewrite list_lookup_insert_eq.
  - destruct (decide (0 ≤ h')); [|done]. rewrite list_lookup_insert_ne; [done|]. lia.
Qed.

Lemma free_chain_put st h b b0 n fl :
  bucket_at st h = Some b0 → h ∉ fl → free_chain st n fl → free_chain (put_bucket h b st) n fl.
Proof.
  intros Hb. revert n. induction fl as [|x fl IH]; intros n Hn; [done|]. apply not_elem_of_cons in Hn as [Hx Hn].
  intros (-> & Hr & b1 & m & H1 & H2 & H3 & H4). split; [done|]. split; [done|]. exists b1, m.
  rewrite (bucket_at_put _ _ _ _ _ Hb), decide_False by done. split_and!; try done. by apply IH.
Qed.

Lemma free_chain_In st n fl h : free_chain st n fl → h ∈ fl → 1 ≤ h < os_top st ∧ ∃ b, bucket_at st h = Some b ∧ valid b = false.
Proof.
  revert n. induction fl as [|x fl IH]; intros n; [by intros _ ?%elem_of_nil|].
  intros (-> & Hr & b & m & H1 & H2 & _ & H4) [->|Hin]%elem_of_cons; [by eauto|by eapply IH].
Qed.

(** a write to a live bucket that keeps it live *)
Lemma store_ok_put st fl h b b0 :
  store_ok st fl → bucket_at st h = Some b0 → valid b0 = true → (valid b = true → ∃ x, o_word (b_obj b) = WObject x) →
  store_ok (put_bucket h b st) fl.
Proof.
  intros [(l & Hl & Hlen) Ht Hused Hlive Hfree Hnd] Hb Hv Hw. split; try done.
  - cbn. rewrite Hl. eexists. split; [reflexivity|]. by rewrite length_insert.
  - intros h' Hh'. rewrite (bucket_at_put _ _ _ _ _ Hb). destruct (decide (h' = h)); [by eexists|]. by apply Hused.
  - intros h' b' Hb' Hv'. rewrite (bucket_at_put _ _ _ _ _ Hb) in Hb'. destruct (decide (h' = h)) as [->|].
    + injection Hb' as <-. split; [apply (Hlive _ _ Hb Hv)|by apply Hw].
    + by apply (Hlive h' b').
  - eapply free_chain_put; [done| |done]. intros Hin. destruct (free_chain_In _ _ _ _ Hfree Hin) as (_ & b1 & H1 & H2). congruence.
Qed.

Lemma load_bucket_Done w h b : bucket_at (objects w) h = Some b → load_bucket h w = Done b w.
Proof. unfold load_bucket. by intros ->. Qed.

Lemma store_bucket_Done w h b f :
  bucket_at (objects w) h = Some b → store_bucket h f w = Done tt (on_objects (put_bucket h (f b)) w).
Proof. unfold store_bucket. by intros ->. Qed.

(** a write to a live bucket that does not touch what the root buffer knows of it *)
Lemma world_ok_put w h b b0 :
  world_ok w → bucket_at (objects w) h = Some b0 → valid b0 = true →
  (valid b = true → (∃ x, o_word (b_obj b) = WObject x) ∧
    (o_buffered (b_obj b) = o_buffered (b_obj b0) ∨ o_buffered (b_obj b) = gnull)) →
  world_ok (on_objects (put_bucket h b) w).
Proof.
  intros (Ha & fl & rs & us & Hst & Hr & Hbuf) Hb Hv Hw. split; [done|]. exists fl, rs, us. split; [|split; [done|]].
  - cbn. eapply store_ok_put; [done..|]. intros E. by apply Hw.
  - intros h' b' Hb' Hv'. cbn [objects on_objects gc] in *. rewrite (bucket_at_put _ _ _ _ _ Hb) in Hb'.
    destruct (decide (h' = h)) as [->|]; [|by apply (Hbuf h' b')]. injection Hb' as <-.
    destruct (Hw Hv') as (_ & [->| ->]); [by apply (Hbuf h b0)|done].
Qed.

(** [GC_REMOVE_ZOBJ_FROM_BUFFER] on a live object *)
Lemma remove_zobj_run w h b :
  world_ok w → bucket_at (objects w) h = Some b → valid b = true →
  ∃ w' b', GC_REMOVE_ZOBJ_FROM_BUFFER h w = Done tt w' ∧ world_ok w' ∧ bucket_at (objects w') h = Some b' ∧
    GC_ADDRESS (o_buffered (b_obj b')) = GNull ∧ set_o_buffered gnull (b_obj b') = set_o_buffered gnull (b_obj b) ∧
    valid b' = valid b ∧ destructor_called b' = destructor_called b ∧ obj_calls w' = obj_calls w ∧ zvals w' = zvals w ∧
    ∀ h', h' ≠ h → bucket_at (objects w') h' = bucket_at (objects w) h'.
Proof.
  intros Hw Hb Hv. pose proof Hw as (Ha & fl & rs & us & Hst & Hr & Hbuf). unfold GC_REMOVE_ZOBJ_FROM_BUFFER.
  rewrite (bind_Done _ _ _ _ _ (load_bucket_Done _ _ _ Hb)). erewrite bind_Done by reflexivity.
  pose proof (Hbuf h b Hb Hv) as Hbb. destruct (GC_ADDRESS (o_buffered (b_obj b))) as [|p|p] eqn:Hadr; [|rewrite Ha|done].
  - exists w, b. done.
  - destruct Hbb as (Hin & u & Hsaid). apply list_elem_of_split in Hin as (l1 & l2 & ->).
    destruct (remove_run w l1 p l2 us [] Hr) as (g' & Hrun & Hr' & Hrest & _ & Hs').
    rewrite (bind_Done _ _ _ _ _ Hrun).
    rewrite (store_bucket_Done _ h b) by exact Hb.
    set (b' := on_obj (set_o_buffered gnull) b). exists (on_objects (put_bucket h b') (on_gc (λ _, g') w)), b'.
    split; [done|]. cbn [objects on_objects on_gc].
    assert (Hput : ∀ h', bucket_at (put_bucket h b' (objects w)) h' = if decide (h' = h) then Some b' else bucket_at (objects w) h')
      by (intros; by eapply bucket_at_put).
    split.
    { split; [cbn; unfold gc_rest in Hrest; by injection Hrest as _ -> _|]. exists fl, (l1 ++ l2), (p :: us). split; [|split; [done|]].
      - cbn. eapply store_ok_put; [done..|]. intros _. cbn.
        apply (st_live _ _ Hst h b Hb Hv).
      - intros h' b1 Hb1 Hv1. cbn [objects on_objects on_gc gc] in *. rewrite Hput in Hb1. destruct (decide (h' = h)) as [->|Hne].
        + injection Hb1 as <-. done.
        + pose proof (Hbuf h' b1 Hb1 Hv1) as Hbb. destruct (GC_ADDRESS (o_buffered (b_obj b1))) as [|q|]; [done| |done].
          destruct Hbb as (Hq & u' & Hsq). split.
          * assert (q ≠ p); [|set_solver]. intros ->. rewrite Hsaid in Hsq. congruence.
          * exists u'. cbn. by rewrite Hs'. }
    split; [by rewrite Hput, decide_True|]. split_and!; try done. intros h' Hne. by rewrite Hput, decide_False.
Qed.

(** a write to a dead bucket that keeps it in the free list *)
Lemma free_chain_put_dead st h b b0 n fl :
  bucket_at st h = Some b0 → valid b = valid b0 → o_word (b_obj b) = o_word (b_obj b0) →
  free_chain st n fl → free_chain (put_bucket h b st) n fl.
Proof.
  intros Hb Hv Hw. revert n. induction fl as [|x fl IH]; intros n; [done|].
  intros (-> & Hr & b1 & m & H1 & H2 & H3 & H4). split; [done|]. split; [done|].
  rewrite (bucket_at_put _ _ _ _ _ Hb). destruct (decide (x = h)) as [->|].
  - exists b, m. rewrite Hb in H1. injection H1 as ->. split_and!; try done; try congruence. by apply IH.
  - exists b1, m. split_and!; try done. by apply IH.
Qed.

Lemma world_ok_put_dead w h b b0 :
  world_ok w → bucket_at (objects w) h = Some b0 → valid b0 = false → valid b = false →
  o_word (b_obj b) = o_word (b_obj b0) → world_ok (on_objects (put_bucket h b) w).
Proof.
  intros (Ha & fl & rs & us & [(l & Hl & Hlen) Ht Hused Hlive Hfree Hnd] & Hr & Hbuf) Hb Hv0 Hv Hw.
  split; [done|]. exists fl, rs, us. split; [|split; [done|]].
  - split; try done.
    + cbn. rewrite Hl. eexists. split; [reflexivity|]. by rewrite length_insert.
    + intros h' Hh'. cbn [objects on_objects]. rewrite (bucket_at_put _ _ _ _ _ Hb). destruct (decide (h' = h)); [by eexists|]. by apply Hused.
    + intros h' b'. cbn [objects on_objects]. rewrite (bucket_at_put _ _ _ _ _ Hb).
      destruct (decide (h' = h)) as [->|]; [intros [= <-]; congruence|]. by apply Hlive.
    + cbn [objects on_objects]. eapply free_chain_put_dead; try done. congruence.
  - intros h' b'. cbn [objects on_objects gc]. rewrite (bucket_at_put _ _ _ _ _ Hb).
    destruct (decide (h' = h)) as [->|]; [intros [= <-]; congruence|]. by apply Hbuf.
Qed.

(** [ZEND_OBJECTS_STORE_ADD_TO_FREE_LIST] *)
Lemma add_free_run w h b :
  world_ok w → bucket_at (objects w) h = Some b → valid b = true →
  ∃ w' b', ZEND_OBJECTS_STORE_ADD_TO_FREE_LIST h w = Done tt w' ∧ world_ok w' ∧ bucket_at (objects w') h = Some b' ∧
    valid b' = false ∧ free_list_head (objects w') = h ∧ obj_calls w' = obj_calls w ∧ zvals w' = zvals w ∧
    b' = set_valid false (on_obj (set_o_word (WNext (free_list_head (objects w)))) b) ∧
    ∀ h', h' ≠ h → bucket_at (objects w') h' = bucket_at (objects w) h'.
Proof.
  intros (Ha & fl & rs & us & [(l & Hl & Hlen) Ht Hused Hlive Hfree Hnd] & Hr & Hbuf) Hb Hv.
  destruct (Hlive _ _ Hb Hv) as [Hh _].
  unfold ZEND_OBJECTS_STORE_ADD_TO_FREE_LIST. erewrite bind_Done by reflexivity.
  erewrite bind_Done by (by apply (store_bucket_Done _ _ b)). erewrite bind_Done by reflexivity.
  set (next := free_list_head (objects w)) in *. set (b1 := on_obj (set_o_word (WNext next)) b).
  set (st1 := put_bucket h b1 (objects w)).
  assert (Hs : s32 h = h) by (unfold s32; rewrite Z.mod_small; lia).
  set (st2 := MkStore (object_buckets st1) (os_top st1) (os_size st1) (s32 h)).
  assert (Hb1 : bucket_at st2 h = Some b1).
  { change (bucket_at st2 h) with (bucket_at st1 h). unfold st1. by rewrite (bucket_at_put _ _ _ _ _ Hb), decide_True. }
  rewrite (store_bucket_Done _ h b1) by exact Hb1. set (b2 := set_valid false b1).
  assert (Hput : ∀ h', bucket_at (put_bucket h b2 st2) h' = if decide (h' = h) then Some b2 else bucket_at (objects w) h').
  { intros h'. rewrite (bucket_at_put _ _ _ _ _ Hb1). destruct (decide (h' = h)); [done|].
    change (bucket_at st2 h') with (bucket_at st1 h'). unfold st1. by rewrite (bucket_at_put _ _ _ _ _ Hb), decide_False. }
  assert (Hnfl : h ∉ fl) by (intros Hin; destruct (free_chain_In _ _ _ _ Hfree Hin) as (_ & b3 & H1 & H2); congruence).
  exists (on_objects (λ _, put_bucket h b2 st2) w), b2. split; [done|]. cbn [objects on_objects]. split.
  - split; [done|]. exists (h :: fl), rs, us. split; [|split; [done|]].
    + split; try done.
      * cbn. rewrite Hl. cbn. eexists. split; [reflexivity|]. by rewrite !length_insert.
      * intros h' Hh'. cbn [objects on_objects]. rewrite Hput. destruct (decide (h' = h)); [by eexists|]. by apply Hused.
      * intros h' b'. cbn [objects on_objects]. rewrite Hput. destruct (decide (h' = h)) as [->|]; [by intros [= <-]|]. by apply Hlive.
      * cbn [objects on_objects free_chain]. split; [done|]. split; [done|]. exists b2, next.
        rewrite Hput, decide_True by done. split_and!; try done.
        eapply free_chain_put; [exact Hb1|done|].
        assert (Hc : free_chain st1 next fl) by (by eapply free_chain_put).
        clear -Hc. revert Hc. generalize next. induction fl as [|x fl IH]; intros n; [done|].
        intros (-> & Hr & b3 & m & H1 & H2 & H3 & H4). split; [done|]. split; [done|]. exists b3, m. split_and!; try done. by apply IH.
      * by apply NoDup_cons.
    + intros h' b'. cbn [objects on_objects gc]. rewrite Hput. destruct (decide (h' = h)) as [->|]; [by intros [= <-]|]. by apply Hbuf.
  - split; [by rewrite Hput, decide_True|]. split_and!; try done.
    intros h' Hne. by rewrite Hput, decide_False.
Qed.

(** *** Allocation *)

Lemma bucket_at_write st h b l h' :
  object_buckets st = Some l → 0 ≤ h < Z.of_nat (length l) →
  bucket_at (put_bucket h b st) h' = if decide (h' = h) then Some b else bucket_at st h'.
Proof.
  intros Hl Hh. unfold bucket_at, put_bucket. cbn. rewrite Hl. cbn. destruct (decide (h' = h)) as [->|Hne].
  - rewrite decide_True by lia. rewrite list_lookup_insert_eq by lia. done.
  - destruct (decide (0 ≤ h')); [|done]. rewrite list_lookup_insert_ne; [done|]. lia.
Qed.

Lemma bucket_at_resize l n t sz hd t' sz' hd' h :
  (length l ≤ n)%nat → bucket_at (MkStore (Some (resize n None l)) t sz hd) h = bucket_at (MkStore (Some l) t' sz' hd') h.
Proof.
  intros Hn. unfold bucket_at. cbn. destruct (decide (0 ≤ h)); [|done].
  destruct (decide (Z.to_nat h < length l)%nat) as [Hlt|Hge].
  - by rewrite lookup_resize by lia.
  - rewrite (proj2 (lookup_ge_None l _)) by lia. destruct (decide (Z.to_nat h < n)%nat).
    + rewrite lookup_resize_new by lia. done.
    + rewrite lookup_resize_old by lia. done.
Qed.

Lemma free_chain_ext st st' n fl :
  (∀ h, h ∈ fl → bucket_at st' h = bucket_at st h) → os_top st ≤ os_top st' → free_chain st n fl → free_chain st' n fl.
Proof.
  intros Hb Ht. revert n. induction fl as [|x fl IH]; intros n; [done|].
  intros (-> & Hr & b & m & H1 & H2 & H3 & H4). split; [done|]. split; [lia|]. exists b, m.
  rewrite Hb by left. split_and!; try done. apply IH; [|done]. intros h Hh. apply Hb. by right.
Qed.

(** writing the bucket of a handle that is not in use *)
Lemma world_ok_fresh w st l fl h b :
  object_buckets st = Some l → Z.of_nat (length l) = os_size st →
  1 ≤ h < os_top st → os_top st ≤ os_size st < 2 ^ 31 →
  (∀ h', 1 ≤ h' < os_top st → h' ≠ h → is_Some (bucket_at st h')) →
  (∀ h' b', bucket_at st h' = Some b' → valid b' = true → h' ≠ h → 1 ≤ h' < os_top st ∧ ∃ x, o_word (b_obj b') = WObject x) →
  free_chain st (free_list_head st) fl → NoDup fl → h ∉ fl →
  (∃ x, o_word (b_obj b) = WObject x) → o_buffered (b_obj b) = gnull →
  (∀ h' b', h' ≠ h → bucket_at st h' = Some b' → bucket_at (objects w) h' = Some b') → world_ok w →
  world_ok (on_objects (λ _, put_bucket h b st) w) ∧ store_ok (put_bucket h b st) fl.
Proof.
  intros Hl Hlen Hh Ht Hused Hlive Hfree Hnd Hn Hw Hbf Hold (Ha & _ & rs & us & _ & Hr & Hbuf).
  assert (Hput : ∀ h', bucket_at (put_bucket h b st) h' = if decide (h' = h) then Some b else bucket_at st h').
  { intros h'. eapply bucket_at_write; [done|lia]. }
  assert (Hst : store_ok (put_bucket h b st) fl).
  { split; try done.
    - cbn. rewrite Hl. cbn. eexists. split; [reflexivity|]. by rewrite length_insert.
    - cbn. lia.
    - intros h' Hh'. rewrite Hput. destruct (decide (h' = h)); [by eexists|]. by apply Hused.
    - intros h' b' Hb' Hv. rewrite Hput in Hb'. destruct (decide (h' = h)) as [->|Hne]; [by injection Hb' as <-|]. by apply (Hlive h' b').
    - apply (free_chain_ext st); [|done|done]. intros h' Hh'. rewrite Hput, decide_False; [done|]. by intros ->. }
  split; [|done]. split; [done|]. exists fl, rs, us. split; [done|]. split; [done|].
  intros h' b' Hb' Hv. cbn [objects on_objects gc] in *. rewrite Hput in Hb'. destruct (decide (h' = h)) as [->|Hne].
  - injection Hb' as <-. by rewrite Hbf.
  - apply (Hbuf h' b'); [by apply Hold|done].
Qed.

Lemma put_run zdo w fl object dtor free_storage clone :
  world_ok w → store_ok (objects w) fl → os_size (objects w) * 2 < 2 ^ 31 →
  let h := match fl with x :: _ => x | [] => os_top (objects w) end in
  let b := MkObucket false true 0 (MkObj (WObject object) (if dtor =? 0 then zdo else dtor) free_storage clone None 1 gnull) in
  ∃ st', zend_objects_store_put zdo object dtor free_storage clone w = Done h (on_objects (λ _, st') w) ∧
    world_ok (on_objects (λ _, st') w) ∧ store_ok st' (tail fl) ∧
    (∀ b0, bucket_at (objects w) h = Some b0 → valid b0 = false) ∧
    (∀ h', bucket_at st' h' = if decide (h' = h) then Some b else bucket_at (objects w) h') ∧
    os_top st' = os_top (objects w) + match fl with [] => 1 | _ => 0 end ∧ os_size st' ≤ os_size (objects w) * 2.
Proof.
  intros Hw [(l & Hl & Hlen) [Ht Hsz] Hused Hlive Hfree Hnd] Hroom h b. unfold zend_objects_store_put.
  erewrite bind_Done by reflexivity. destruct fl as [|x fl].
  - cbn [free_chain] in Hfree. rewrite Hfree. change (negb (-1 =? -1)) with false. cbn match.
    set (top := os_top (objects w)) in *.
    set (l' := if top =? os_size (objects w) then resize (Z.to_nat (os_size (objects w) * 2)) None l else l).
    set (sz' := if top =? os_size (objects w) then os_size (objects w) * 2 else os_size (objects w)).
    assert (Hsz' : sz' ≤ os_size (objects w) * 2) by (unfold sz'; destruct (top =? _); lia).
    assert (Hshift : u32 (Z.shiftl (os_size (objects w)) 1) = os_size (objects w) * 2).
    { rewrite Z.shiftl_mul_pow2 by lia. change (2 ^ 1) with 2. unfold u32. rewrite Z.mod_small; lia. }
    set (st1 := MkStore (Some l') top sz' (-1)).
    assert (Hgrow : (if top =? os_size (objects w) then
        modify (on_objects (λ st, MkStore (Some (resize (Z.to_nat (u32 (Z.shiftl (os_size (objects w)) 1))) None
          (default [] (object_buckets st)))) (os_top st) (u32 (Z.shiftl (os_size (objects w)) 1)) (free_list_head st)))
        else ret tt) w = Done tt (on_objects (λ _, st1) w)).
    { rewrite Hshift. unfold st1, l', sz', top. destruct (os_top (objects w) =? os_size (objects w)).
      - unfold modify, on_objects. by rewrite Hl, Hfree.
      - unfold ret, on_objects. rewrite <-Hl, <-Hfree. destruct w as [g z [? ? ? ?] c]. done. }
    rewrite bind_assoc.
    rewrite (bind_Done _ _ _ _ _ Hgrow). rewrite bind_assoc. erewrite bind_Done by reflexivity.
    erewrite bind_Done by reflexivity. erewrite bind_Done by reflexivity.
    set (st2 := MkStore (Some l') (u32 (top + 1)) sz' (-1)).
    assert (Hl' : Z.of_nat (length l') = sz' ∧ top < sz' ∧ sz' < 2 ^ 31 ∧ (length l ≤ length l')%nat).
    { unfold l', sz'. destruct (Z.eqb_spec top (os_size (objects w))); [|lia]. rewrite length_resize. lia. }
    destruct Hl' as (E1 & E2 & E3 & E4).
    assert (Hsame : ∀ h', bucket_at st2 h' = bucket_at (objects w) h').
    { intros h'. destruct (objects w) as [ob t0 s0 f0]. cbn in Hl. subst ob. unfold st2, l'.
      destruct (_ =? _) in |- *; [|done]. apply (bucket_at_resize l). cbn in Hlen, Hroom. cbn. lia. }
    assert (Htop : u32 (top + 1) = top + 1) by (unfold u32; rewrite Z.mod_small; lia).
    change (objects (on_objects _ (on_objects (λ _, st1) w))) with st2.
    change (default [] (object_buckets st2)) with l'. rewrite decide_True by lia. erewrite bind_Done by reflexivity. fold b.
    destruct (world_ok_fresh w st2 l' [] h b) as [Hw' Hst'].
    { done. } { done. } { unfold st2, h. cbn. lia. } { unfold st2. cbn. lia. }
    { intros h' Hh' Hne. rewrite Hsame. apply Hused. unfold st2 in Hh'. cbn in Hh'. unfold h in Hne. lia. }
    { intros h' b' Hb' Hv Hne. rewrite Hsame in Hb'. destruct (Hlive _ _ Hb' Hv). unfold st2. cbn. split; [lia|done]. }
    { done. } { constructor. } { apply not_elem_of_nil. } { by eexists. } { done. }
    { intros h' b' _. by rewrite Hsame. } { done. }
    exists (put_bucket h b st2). split; [done|]. split; [done|]. split; [done|]. split.
    + intros b0 Hb0. destruct (valid b0) eqn:Hv; [|done]. destruct (Hlive _ _ Hb0 Hv). unfold h in *. lia.
    + split; [|split; [unfold st2; cbn; lia|exact Hsz']]. intros h'. rewrite (bucket_at_write st2 h b l' h') by (unfold h; done || lia).
      by rewrite Hsame.
  - destruct Hfree as (Hx & Hr & b0 & n & Hb0 & Hv0 & Hw0 & Hfree). apply NoDup_cons in Hnd as [Hxn Hnd].
    rewrite Hx. destruct (Z.eqb_spec x (-1)); [lia|]. cbn [negb].
    assert (Hu : u32 x = x) by (unfold u32; rewrite Z.mod_small; lia). rewrite Hu.
    rewrite bind_assoc, (bind_Done _ _ _ _ _ (load_bucket_Done _ _ _ Hb0)), Hw0.
    rewrite bind_assoc. erewrite bind_Done by reflexivity. erewrite bind_Done by reflexivity. erewrite bind_Done by reflexivity.
    set (st2 := MkStore (object_buckets (objects w)) (os_top (objects w)) (os_size (objects w)) n).
    change (objects (on_objects _ w)) with st2. 
    assert (Hl2 : object_buckets st2 = Some l) by done. rewrite Hl2.
    change (default [] (Some l)) with l. rewrite decide_True by lia.
    erewrite bind_Done by reflexivity. fold b.
    destruct (world_ok_fresh w st2 l fl h b) as [Hw' Hst'].
    { done. } { done. } { unfold st2, h. cbn. lia. } { unfold st2. cbn. lia. }
    { intros h' Hh' Hne. by apply Hused. } { intros h' b' Hb' Hv Hne. by apply (Hlive h' b'). }
    { by apply (free_chain_ext (objects w)). } { done. } { done. } { by eexists. } { done. } { done. } { done. }
    exists (put_bucket h b st2). split; [done|]. split; [done|]. split; [done|]. split.
    + intros b1 Hb1. unfold h in Hb1. congruence.
    + split; [|split; unfold st2; cbn; lia]. intros h'. by rewrite (bucket_at_write st2 h b l h') by (unfold h; done || lia).
Qed.

End store.

(** ** Releasing a reference *)

(** the call destroys or frees the object [x] *)
Definition about (x : Z) (c : obj_call) : Prop :=
  match c with CallDtor _ o _ | CallFree _ o => o = x | CallClone _ _ => False end.

(** What a destructor or a deallocator of the object [x] at handle [h] may do: any
    change that keeps the invariants, the object and a reference to it, and does not
    destroy it again; it may end in a fatal error.  The reference it is called with
    and the flag [destructor_called] protect the object. *)
Definition safe_callback (h x : Z) (m : W unit) : Prop := ∀ w b,
  world_ok w → bucket_at (objects w) h = Some b → valid b = true → destructor_called b = true →
  o_word (b_obj b) = WObject x → 1 ≤ o_refcount (b_obj b) < 2 ^ 32 →
  ∃ w' b' l, (m w = Done tt w' ∨ m w = Bailout w') ∧ world_ok w' ∧ bucket_at (objects w') h = Some b' ∧
    valid b' = true ∧ destructor_called b' = true ∧ 1 ≤ o_refcount (b_obj b') < 2 ^ 32 ∧
    o_word (b_obj b') = WObject x ∧ o_free_storage (b_obj b') = o_free_storage (b_obj b) ∧
    obj_calls w' = obj_calls w ++ l ∧ Forall (λ c, ¬ about x c) l.

Section release.
Context (dtor_fun : Z → Z → Z → W unit) (free_fun : Z → Z → W unit) (h x : Z).
Hypothesis dtor_safe : ∀ f, safe_callback h x (dtor_fun f x h).
Hypothesis free_safe : ∀ f, safe_callback h x (free_fun f x).
Implicit Types (b : object_bucket) (w : world).

(** the object [x] is live at [h] *)
Definition live w b : Prop :=
  bucket_at (objects w) h = Some b ∧ valid b = true ∧ o_word (b_obj b) = WObject x ∧ 1 ≤ o_refcount (b_obj b) < 2 ^ 32.

Lemma try_safe m w b :
  safe_callback h x m → world_ok w → live w b → destructor_called b = true →
  ∃ w' b' l failed, zend_try m w = Done failed w' ∧ world_ok w' ∧ live w' b' ∧ destructor_called b' = true ∧
    o_free_storage (b_obj b') = o_free_storage (b_obj b) ∧ obj_calls w' = obj_calls w ++ l ∧ Forall (λ c, ¬ about x c) l.
Proof using Type*.
  intros Hm Hw (Hb & Hv & Hx & Hr) Hd. destruct (Hm w b Hw Hb Hv Hd Hx Hr) as (w' & b' & l & Hrun & H1 & H2 & H3 & H4 & H5 & H6 & H7 & H8 & H9).
  destruct Hrun as [Hrun|Hrun]; unfold zend_try; rewrite Hrun; by eexists w', b', l, _.
Qed.

Lemma call_world_ok w c : world_ok w → world_ok (on_calls (λ l, l ++ [c]) w).
Proof. by intros. Qed.

Lemma run_destructor_spec w b handlers :
  world_ok w → live w b →
  ∃ w' b' l failed, run_destructor dtor_fun h handlers w = Done failed w' ∧ world_ok w' ∧ live w' b' ∧
    destructor_called b' = true ∧ o_free_storage (b_obj b') = o_free_storage (b_obj b) ∧
    obj_calls w' = obj_calls w ++
      (if negb (destructor_called b) && negb (o_dtor (b_obj b) =? 0) then [CallDtor (o_dtor (b_obj b)) x h] else []) ++ l ∧
    Forall (λ c, ¬ about x c) l.
Proof using Type*.
  intros Hw (Hb & Hv & Hx & Hr). unfold run_destructor. rewrite (bind_Done _ _ _ _ _ (load_bucket_Done _ _ _ Hb)).
  destruct (destructor_called b) eqn:Hd; cbn [negb andb].
  { exists w, b, [], false. rewrite app_nil_r. by split_and!. }
  rewrite (bind_Done _ _ _ _ _ (store_bucket_Done _ h b _ Hb)). set (b1 := set_destructor_called true b).
  set (w1 := on_objects (put_bucket h b1) w).
  assert (Hw1 : world_ok w1). { apply (world_ok_put _ _ _ b); [done..|]. intros _. split; [by exists x|by left]. }
  assert (Hb1 : bucket_at (objects w1) h = Some b1).
  { unfold w1. cbn [objects on_objects]. by rewrite (bucket_at_put _ _ _ _ _ Hb), decide_True. }
  destruct (o_dtor (b_obj b) =? 0) eqn:Ho; cbn [negb].
  { exists w1, b1, [], false. rewrite !app_nil_r. by split_and!. }
  set (m := match handlers with Some _ => _ | None => _ end).
  assert (∃ w2 b2, m w1 = Done tt w2 ∧ world_ok w2 ∧ live w2 b2 ∧ destructor_called b2 = true ∧
    o_free_storage (b_obj b2) = o_free_storage (b_obj b) ∧ obj_calls w2 = obj_calls w) as (w2 & b2 & Hm & Hw2 & Hl2 & Hd2 & Hf2 & Hc2).
  { assert (∃ w2 b2, ret tt w1 = Done tt w2 ∧ world_ok w2 ∧ live w2 b2 ∧ destructor_called b2 = true ∧
      o_free_storage (b_obj b2) = o_free_storage (b_obj b) ∧ obj_calls w2 = obj_calls w) by (by exists w1, b1).
    unfold m. destruct handlers as [hd|]; [|done]. destruct (o_handlers (b_obj b)); [done|].
    rewrite (store_bucket_Done _ h b1 _ Hb1). set (b2 := on_obj (set_o_handlers (Some hd)) b1).
    exists (on_objects (put_bucket h b2) w1), b2. split; [done|]. split.
    { apply (world_ok_put _ _ _ b1); [done..|]. intros _. split; [by exists x|by left]. }
    split; [|done]. split; [|done]. cbn [objects on_objects]. by rewrite (bucket_at_put _ _ _ _ _ Hb1), decide_True. }
  rewrite (bind_Done _ _ _ _ _ Hm). unfold rd_object. rewrite Hx. erewrite bind_Done by reflexivity.
  set (c := CallDtor (o_dtor (b_obj b)) x h). set (w3 := on_calls (λ l, l ++ [c]) w2).
  assert (Hrun : zend_try (call_dtor_fun dtor_fun (o_dtor (b_obj b)) x h) w2 = zend_try (dtor_fun (o_dtor (b_obj b)) x h) w3) by done.
  destruct (try_safe _ w3 b2 (dtor_safe (o_dtor (b_obj b))) Hw2 Hl2 Hd2) as (w4 & b4 & l & fd & Ht & H1 & H2 & H3 & H4 & H5 & H6).
  exists w4, b4, l, fd. rewrite Hrun. split_and!; try done; [congruence|].
  rewrite H5. cbn. by rewrite Hc2, <-app_assoc.
Qed.

Lemma run_free_storage_spec w b :
  world_ok w → live w b → destructor_called b = true →
  ∃ w' b' l failed, run_free_storage free_fun h w = Done failed w' ∧ world_ok w' ∧ bucket_at (objects w') h = Some b' ∧
    Forall (λ c, ¬ about x c) l ∧
    if o_refcount (b_obj b) =? 1 then
      valid b' = false ∧ free_list_head (objects w') = h ∧
      obj_calls w' = obj_calls w ++ (if o_free_storage (b_obj b) =? 0 then [] else [CallFree (o_free_storage (b_obj b)) x]) ++ l
    else w' = w ∧ b' = b ∧ failed = false ∧ l = [].
Proof using Type*.
  intros Hw Hl Hd. pose proof Hl as (Hb & Hv & Hx & Hr). unfold run_free_storage.
  rewrite (bind_Done _ _ _ _ _ (load_bucket_Done _ _ _ Hb)). destruct (o_refcount (b_obj b) =? 1) eqn:Hone.
  2: { exists w, b, [], false. split_and!; try done. }
  destruct (remove_zobj_run w h b Hw Hb Hv) as (w1 & b1 & Hrun & Hw1 & Hb1 & Hn1 & Hsame & Hv1 & Hd1 & Hc1 & _ & _).
  rewrite (bind_Done _ _ _ _ _ Hrun).
  assert (Hl1 : live w1 b1 ∧ o_free_storage (b_obj b1) = o_free_storage (b_obj b)).
  { assert (o_word (b_obj b1) = o_word (b_obj b) ∧ o_refcount (b_obj b1) = o_refcount (b_obj b) ∧
      o_free_storage (b_obj b1) = o_free_storage (b_obj b)) as (E1 & E2 & E3).
    { destruct (b_obj b1), (b_obj b). unfold set_o_buffered in Hsame. cbn in Hsame. by injection Hsame as -> -> -> -> -> ->. }
    split; [|done]. split; [done|]. split; [congruence|]. by rewrite E1, E2. }
  destruct Hl1 as [Hl1 Hf1].
  set (m := if negb (o_free_storage (b_obj b) =? 0) then _ else _).
  assert (∃ w2 b2 l fd, m w1 = Done fd w2 ∧ world_ok w2 ∧ live w2 b2 ∧ Forall (λ c, ¬ about x c) l ∧
    obj_calls w2 = obj_calls w ++ (if o_free_storage (b_obj b) =? 0 then [] else [CallFree (o_free_storage (b_obj b)) x]) ++ l)
    as (w2 & b2 & l & fd & Hm & Hw2 & Hl2 & Hla & Hc2).
  { unfold m. destruct (o_free_storage (b_obj b) =? 0) eqn:Hfs; cbn [negb].
    { exists w1, b1, [], false. rewrite !app_nil_r. by split_and!. }
    unfold rd_object. rewrite Hx. erewrite bind_Done by reflexivity.
    set (c := CallFree (o_free_storage (b_obj b)) x). set (w3 := on_calls (λ l, l ++ [c]) w1).
    assert (Hr3 : zend_try (call_free_fun free_fun (o_free_storage (b_obj b)) x) w1 = zend_try (free_fun (o_free_storage (b_obj b)) x) w3) by done.
    destruct (try_safe _ w3 b1 (free_safe (o_free_storage (b_obj b))) Hw1 Hl1 ltac:(congruence)) as (w4 & b4 & l & fd & Ht & H1 & H2 & H3 & H4 & H5 & H6).
    exists w4, b4, l, fd. rewrite Hr3. split_and!; try done. rewrite H5. cbn. by rewrite Hc1, <-app_assoc. }
  rewrite (bind_Done _ _ _ _ _ Hm). destruct Hl2 as (Hb2 & Hv2 & _).
  destruct (add_free_run w2 h b2 Hw2 Hb2 Hv2) as (w3 & b3 & Hadd & Hw3 & Hb3 & Hv3 & Hh3 & Hc3 & _ & _ & _).
  rewrite (bind_Done _ _ _ _ _ Hadd). exists w3, b3, l, fd. split_and!; try done. by rewrite Hc3.
Qed.

End release.
