(* ===== verification/ObjTheorems.v ===== *)
(** * The objects store and the root buffer: theorems *)

From S2P Require Import Prelude DList HashModel ObjModel ObjSpec.
Local Open Scope Z_scope.

(** the call of the destructor, and of the deallocator, of the object [x] at [h] *)
Definition dtor_call (h x : Z) (b : object_bucket) : list obj_call :=
  if negb (destructor_called b) && negb (o_dtor (b_obj b) =? 0) then [CallDtor (o_dtor (b_obj b)) x h] else [].
Definition free_call (x : Z) (b : object_bucket) : list obj_call :=
  if o_free_storage (b_obj b) =? 0 then [] else [CallFree (o_free_storage (b_obj b)) x].


(** what [zend_objects_store_put] stores *)
Definition fresh_bucket (zdo object dtor free_storage clone : Z) : object_bucket :=
  MkObucket false true 0 (MkObj (WObject object) (if dtor =? 0 then zdo else dtor) free_storage clone None 1 gnull).

(** the handle that the next [zend_objects_store_put] gives out *)
Definition next_handle (st : zend_objects_store) : Z :=
  if free_list_head st =? -1 then os_top st else free_list_head st.

Lemma put_fresh zdo w object dtor free_storage clone :
  world_ok w → os_size (objects w) * 2 < 2 ^ 31 →
  let h := next_handle (objects w) in
  let b := fresh_bucket zdo object dtor free_storage clone in
  ∃ w', zend_objects_store_put zdo object dtor free_storage clone w = Done h w' ∧
    world_ok w' ∧ live h object w' b ∧ obj_calls w' = obj_calls w ∧ gc w' = gc w ∧ zvals w' = zvals w ∧
    (∀ b0, bucket_at (objects w) h = Some b0 → valid b0 = false) ∧
    (∀ h', h' ≠ h → bucket_at (objects w') h' = bucket_at (objects w) h') ∧
    os_size (objects w') ≤ os_size (objects w) * 2.
Proof.
  intros Hw Hroom h b. pose proof Hw as (_ & fl & _ & _ & Hst & _).
  destruct (put_run zdo w fl object dtor free_storage clone Hw Hst Hroom) as (st' & Hrun & Hw' & _ & Hdead & Hput & _ & Hsz).
  assert (Hh : match fl with x :: _ => x | [] => os_top (objects w) end = h).
  { unfold h, next_handle. pose proof (st_free _ _ Hst) as Hf. destruct fl as [|x fl]; simpl in Hf; [by rewrite Hf|].
    destruct Hf as (-> & Hx & _). destruct (Z.eqb_spec x (-1)); [lia|done]. }
  rewrite Hh in *. eexists. split; [exact Hrun|]. split; [done|]. split; [|split_and!; try done].
  - split; [|done]. cbn [objects on_objects]. by rewrite Hput, decide_True.
  - intros h' Hne. cbn [objects on_objects]. by rewrite Hput, decide_False.
Qed.


Lemma load_zval_Done w zv z : zvals w !! zv = Some z → load_zval zv w = Done z w.
Proof. unfold load_zval. by intros ->. Qed.

Lemma store_zval_Done w zv z f : zvals w !! zv = Some z → store_zval zv f w = Done tt (on_zvals (alter f zv) w).
Proof. unfold store_zval. by intros ->. Qed.

(** no collection is running, so that no value is garbage *)
Lemma is_garbage_false g z : free_list g = None → is_garbage g z = false.
Proof. unfold is_garbage. by intros ->. Qed.


(** ** The initial states *)

Lemma roots_ok_ctor : roots_ok gc_globals_ctor_ex [] [] [].
Proof. split; [by cbn|constructor|done|done]. Qed.

(** [gc_init] with the collector enabled: an empty ring and a buffer never used *)
Lemma roots_ok_init g :
  buf g = None → gc_enabled g = true → is_Some (root_cells g !! ROOTS) → roots_ok (gc_init g) [] [] [] ∧ ¬ full (gc_init g).
Proof.
  intros Hb He [r Hr]. unfold gc_init. rewrite Hb, He. unfold gc_reset. cbn -[Pos.add].
  split; [split; cbn -[Pos.add]|intros [_ Hf]; cbn -[Pos.add] in Hf; discriminate].
  - by rewrite !lookup_alter_eq, Hr.
  - constructor.
  - done.
  - split; [done|]. split; [done|]. exists BUF. split; [done|]. split; [unfold GC_ROOT_BUFFER_MAX_ENTRIES; lia|].
    intros p. split; [by intros ?%elem_of_nil|lia].
Qed.

Lemma world_ok_init n : 1 ≤ n < 2 ^ 31 → world_ok (MkWorld gc_globals_ctor_ex ∅ (zend_objects_store_init n) ∅ (Mem ∅ 1 []) []).
Proof.
  intros Hn. unfold zend_objects_store_init. set (b0 := MkObucket _ _ _ _). set (l := <[0%nat:=Some b0]> _).
  assert (Hdead : ∀ h b, bucket_at (MkStore (Some l) 1 n (-1)) h = Some b → valid b = false).
  { intros h b. unfold bucket_at. cbn [object_buckets mbind option_bind]. destruct (decide _); [|done]. unfold l.
    destruct (decide (Z.to_nat h = 0%nat)) as [->|Hne].
    - rewrite list_lookup_insert_eq by (rewrite length_replicate; lia). by intros [= <-].
    - rewrite list_lookup_insert_ne by done. intros Hb. destruct (_ !! _) as [o|] eqn:E; [|done].
      apply lookup_replicate in E as [-> _]. done. }
  split; [done|]. exists [], [], []. split; [|split; [apply roots_ok_ctor|]].
  - split; try done.
    + exists l. split; [done|]. unfold l. rewrite length_insert, length_replicate. cbn. lia.
    + cbn. lia.
    + cbn. lia.
    + intros h b Hb Hv. rewrite (Hdead _ _ Hb) in Hv. done.
    + constructor.
  - intros h b Hb Hv. rewrite (Hdead _ _ Hb) in Hv. done.
Qed.

(** ** Witnesses *)

(** an empty store of four buckets, and the same with the object 70 in handle 1, its
    destructor 8 and its deallocator 9 *)
Definition empty_world : world := MkWorld gc_globals_ctor_ex ∅ (zend_objects_store_init 4) ∅ (Mem ∅ 1 []) [].
Definition object_world : world :=
  match zend_objects_store_put 100 70 8 9 0 empty_world with Done _ w => w | _ => empty_world end.

Lemma object_world_ok : world_ok object_world ∧ live 1 70 object_world (fresh_bucket 100 70 8 9 0).
Proof.
  destruct (put_fresh 100 empty_world 70 8 9 0) as (w & Hrun & Hw & Hl & _); [by apply world_ok_init|done|].
  unfold object_world. by rewrite Hrun.
Qed.

(** a destructor that does nothing, a deallocator that ends in a fatal error *)
Lemma safe_ret h x : safe_callback h x (ret tt).
Proof. intros w b ??????. exists w, b, []. rewrite app_nil_r. split; [by left|]. split_and!; try done; lia. Qed.

Lemma safe_bailout h x : safe_callback h x bailout.
Proof. intros w b ??????. exists w, b, []. rewrite app_nil_r. split; [by right|]. split_and!; try done; lia. Qed.


(** the trace of that release: both functions called, the handle free, the error passed on *)
Example release_fails :
  match zend_objects_store_del_ref_by_handle (λ _ _ _, ret tt) (λ _ _, bailout) 1 object_world with
  | Bailout w => (obj_calls w, free_list_head (objects w))
  | _ => ([], 0)
  end = ([CallDtor 8 70 1; CallFree 9 70], 1).
Proof. reflexivity. Qed.


(** a world with the buffer allocated and one array *)
Definition gc_enable (g : zend_gc_globals) : zend_gc_globals :=
  MkGC true (gc_active g) (buf g) (unused g) (first_unused g) (last_unused g) (zval_to_free g) (free_list g) (next_to_free g)
    (gc_runs g) (collected g) (root_cells g).
Definition array_zval : zval_gc_info := MkZv IS_ARRAY 2 0 (MkHandlers 0 false) 1 gnull.
Definition array_world : world :=
  MkWorld (gc_init (gc_enable gc_globals_ctor_ex)) {[ 5%positive := array_zval ]} (zend_objects_store_init 4) ∅ (Mem ∅ 1 []) [].

Lemma array_world_ok : roots_ok (gc array_world) [] [] [] ∧ ¬ full (gc array_world).
Proof. apply (roots_ok_init (gc_enable gc_globals_ctor_ex)); [done..|]. by eexists. Qed.

