(* ===== verification/GcModel.v ===== *)
(** * [Zend/zend_gc.c]: finding cycles of garbage

    The three walks of a collection over the possible roots: marking grey, which takes
    the references from inside off the counts; scanning, which finds what is still
    referenced from outside and puts the counts back; and collecting what is white.

    The C functions leave the recursion on the last reference by a jump to their start:
    here it is a call like the others.  [get_gc], the handler of a class that tells
    what an object refers to, is a parameter. *)

From S2P Require Import Prelude DList HashModel ObjModel.
Local Open Scope Z_scope.
Local Open Scope effect_scope.

(** the address of [EG(symbol_table)] *)
Definition SYMBOL_TABLE : Z := 0.
(** the end of the list of values to free, no value *)
Definition FREE_LIST_END : ptr := 1%positive.

Definition GC_ZVAL_GET_COLOR (z : zval_gc_info) : Z := GC_GET_COLOR (zv_u z).
Definition paint_zval (c : Z) (z : zval_gc_info) : zval_gc_info := set_zv_u (GC_SET_COLOR (zv_u z) c) z.
Definition paint_bucket (c : Z) (b : object_bucket) : object_bucket :=
  on_obj (λ o, set_o_buffered (GC_SET_COLOR (o_buffered o) c) o) b.

Definition add_zv_refcount (n : Z) (z : zval_gc_info) : zval_gc_info := set_zv_refcount (u32 (zv_refcount z + n)) z.

Definition set_zval_to_free x g := MkGC (gc_enabled g) (gc_active g) (buf g) (unused g) (first_unused g) (last_unused g)
  x (free_list g) (next_to_free g) (gc_runs g) (collected g) (root_cells g).

(** an array, but not the symbol table: its references are counted *)
Definition is_symbol_table (z : zval_gc_info) : bool := (zv_type z =? IS_ARRAY) && (zv_arr z =? SYMBOL_TABLE).

Section gc.
Variable get_gc : zend_object_handlers → Z → W (list (option ptr) * option Z).

(** ** What a value refers to *)

(** [for (i = 0; i < n; i++) { if (table[i]) { ... } }] *)
Fixpoint each_slot (visit : ptr → W unit) (table : list (option ptr)) : W unit :=
  match table with
  | [] => ret tt
  | slot :: table' =>
      (match slot with Some pz => visit pz | None => ret tt end) ;;;
      each_slot visit table'
  end.

Definition load_element (p : ptr) : W (Bucket ptr) := λ w,
  match cells (array_mem w) !! p with Some b => Done b w | None => Stuck end.

(** [while (p != NULL) { pz = *(zval** )p->pData; ...; p = p->pListNext; }] *)
Fixpoint elements_loop (visit : ptr → W unit) (fuel : nat) (p : option ptr) : W unit :=
  match p with
  | None => ret tt
  | Some p =>
      match fuel with
      | O => stuck
      | S fuel' =>
          let! b := load_element p in
          visit (data_val (pData b)) ;;;
          let! b := load_element p in
          elements_loop visit fuel' (pListNext b)
      end
  end.

Definition each_element (visit : ptr → W unit) (ht : Z) : W unit :=
  let! w := gets id in
  match arrays w !! ht with
  | Some h => elements_loop visit (fuel_of (array_mem w)) (pListHead h)
  | None => stuck
  end.

(** the values in an object, as its handler tells, if it is valid and has one *)
Definition object_children (visit : ptr → W unit) (before : option Z → W unit) (between : W unit) (otherwise : W unit)
    (handle : Z) (handlers : zend_object_handlers) : W unit :=
  let! b := load_bucket handle in
  if valid b && h_get_gc handlers then
    let! '(table, props) := get_gc handlers handle in
    before props ;;;
    each_slot visit table ;;;
    match props with
    | None => ret tt
    | Some ht => between ;;; each_element visit ht
    end
  else otherwise.

(** [if (Z_TYPE_P(pz) != IS_ARRAY || Z_ARRVAL_P(pz) != &EG(symbol_table)) pz->refcount__gc += n;] *)
Definition add_reference (n : Z) (pz : ptr) : W unit :=
  let! z := load_zval pz in
  if is_symbol_table z then ret tt else store_zval pz (add_zv_refcount n).

(** [Z_TYPE_P(pz) == IS_OBJECT && EG(objects_store).object_buckets] *)
Definition is_stored_object (z : zval_gc_info) (st : zend_objects_store) : bool :=
  (zv_type z =? IS_OBJECT) && bool_decide (object_buckets st ≠ None).

Definition bucket_color (b : object_bucket) : Z := GC_GET_COLOR (o_buffered (b_obj b)).

(** ** Back to black *)

Definition black_object (visit : ptr → W unit) (handle : Z) (handlers : zend_object_handlers) : W unit :=
  store_bucket handle (paint_bucket GC_BLACK) ;;;
  object_children visit (λ _, ret tt) (ret tt) (ret tt) handle handlers.

Fixpoint zval_scan_black (fuel : nat) (pz : ptr) : W unit :=
  match fuel with
  | O => stuck
  | S fuel' =>
      let visit pz :=
        add_reference 1 pz ;;;
        let! z := load_zval pz in
        if negb (GC_ZVAL_GET_COLOR z =? GC_BLACK) then zval_scan_black fuel' pz else ret tt in
      store_zval pz (paint_zval GC_BLACK) ;;;
      let! z := load_zval pz in
      let! st := gets objects in
      if is_stored_object z st then
        store_bucket (zv_handle z) (add_refcount 1) ;;;
        let! b := load_bucket (zv_handle z) in
        if negb (bucket_color b =? GC_BLACK) then black_object visit (zv_handle z) (zv_ht z) else ret tt
      else if zv_type z =? IS_ARRAY then
        if zv_arr z =? SYMBOL_TABLE then ret tt else each_element visit (zv_arr z)
      else ret tt
  end.

Definition black_child (fuel : nat) (pz : ptr) : W unit :=
  add_reference 1 pz ;;;
  let! z := load_zval pz in
  if negb (GC_ZVAL_GET_COLOR z =? GC_BLACK) then zval_scan_black fuel pz else ret tt.

Definition zobj_scan_black (fuel : nat) (handle : Z) (handlers : zend_object_handlers) : W unit :=
  black_object (black_child fuel) handle handlers.

(** ** Marking grey *)

Definition grey_object (visit : ptr → W unit) (handle : Z) (handlers : zend_object_handlers) : W unit :=
  let! b := load_bucket handle in
  if negb (bucket_color b =? GC_GREY) then
    store_bucket handle (paint_bucket GC_GREY) ;;;
    object_children visit (λ _, ret tt) (ret tt) (ret tt) handle handlers
  else ret tt.

Fixpoint zval_mark_grey (fuel : nat) (pz : ptr) : W unit :=
  match fuel with
  | O => stuck
  | S fuel' =>
      let visit pz := add_reference (-1) pz ;;; zval_mark_grey fuel' pz in
      let! z := load_zval pz in
      if negb (GC_ZVAL_GET_COLOR z =? GC_GREY) then
        store_zval pz (paint_zval GC_GREY) ;;;
        let! st := gets objects in
        if is_stored_object z st then
          store_bucket (zv_handle z) (add_refcount (-1)) ;;;
          grey_object visit (zv_handle z) (zv_ht z)
        else if zv_type z =? IS_ARRAY then
          if zv_arr z =? SYMBOL_TABLE then store_zval pz (paint_zval GC_BLACK) else each_element visit (zv_arr z)
        else ret tt
      else ret tt
  end.

Definition grey_child (fuel : nat) (pz : ptr) : W unit := add_reference (-1) pz ;;; zval_mark_grey fuel pz.

Definition zobj_mark_grey (fuel : nat) (handle : Z) (handlers : zend_object_handlers) : W unit :=
  grey_object (grey_child fuel) handle handlers.

(** ** Scanning *)

(** [nb] is the fuel of the walks back to black *)
Definition scan_object (nb : nat) (visit : ptr → W unit) (handle : Z) (handlers : zend_object_handlers) : W unit :=
  let! b := load_bucket handle in
  if bucket_color b =? GC_GREY then
    if o_refcount (b_obj b) >? 0 then zobj_scan_black nb handle handlers
    else
      store_bucket handle (paint_bucket GC_WHITE) ;;;
      object_children visit (λ _, ret tt) (ret tt) (ret tt) handle handlers
  else ret tt.

Fixpoint zval_scan (nb fuel : nat) (pz : ptr) : W unit :=
  match fuel with
  | O => stuck
  | S fuel' =>
      let visit := zval_scan nb fuel' in
      let! z := load_zval pz in
      if GC_ZVAL_GET_COLOR z =? GC_GREY then
        if zv_refcount z >? 0 then zval_scan_black nb pz
        else
          store_zval pz (paint_zval GC_WHITE) ;;;
          let! st := gets objects in
          if is_stored_object z st then scan_object nb visit (zv_handle z) (zv_ht z)
          else if zv_type z =? IS_ARRAY then
            if zv_arr z =? SYMBOL_TABLE then store_zval pz (paint_zval GC_BLACK) else each_element visit (zv_arr z)
          else ret tt
      else ret tt
  end.

Definition zobj_scan (nb fuel : nat) (handle : Z) (handlers : zend_object_handlers) : W unit :=
  let! st := gets objects in
  if bool_decide (object_buckets st ≠ None) then scan_object nb (zval_scan nb fuel) handle handlers else ret tt.

(** ** Collecting *)

(** [buffered == (gc_root_buffer* )GC_WHITE]: white, and of no root *)
Definition is_white (v : gptr) : bool :=
  match gp_addr v with GNull => gp_color v =? GC_WHITE | _ => false end.

(** restore the count and put into the list to free *)
Definition put_to_free (pz : ptr) : W unit :=
  let! g := gets gc in
  store_zval pz (λ z,
    set_zv_u (MkGptr (match zval_to_free g with Some p => GOther p | None => GNull end) GC_BLACK) (add_zv_refcount 1 z)) ;;;
  modify (on_gc (set_zval_to_free (Some pz))).

(** PURPLE instead of BLACK to prevent buffering in nested gc calls *)
Definition purple_bucket (b : object_bucket) : object_bucket :=
  on_obj (λ o, set_o_buffered (GC_SET_PURPLE (o_buffered o)) o) b.

Fixpoint zval_collect_white (fuel : nat) (pz : ptr) : W unit :=
  match fuel with
  | O => stuck
  | S fuel' =>
      let visit pz := add_reference 1 pz ;;; zval_collect_white fuel' pz in
      let! z := load_zval pz in
      if is_white (zv_u z) then
        store_zval pz (paint_zval GC_BLACK) ;;;
        let! st := gets objects in
        if is_stored_object z st then
          let! b := load_bucket (zv_handle z) in
          if is_white (o_buffered (b_obj b)) then
            store_bucket (zv_handle z) purple_bucket ;;;
            object_children visit (λ props, match props with None => put_to_free pz | Some _ => ret tt end) (put_to_free pz)
              (put_to_free pz) (zv_handle z) (zv_ht z)
          else put_to_free pz
        else
          put_to_free pz ;;;
          if zv_type z =? IS_ARRAY then each_element visit (zv_arr z) else ret tt
      else ret tt
  end.

Definition collect_child (fuel : nat) (pz : ptr) : W unit := add_reference 1 pz ;;; zval_collect_white fuel pz.

Definition zobj_collect_white (fuel : nat) (handle : Z) (handlers : zend_object_handlers) : W unit :=
  let! st := gets objects in
  if bool_decide (object_buckets st ≠ None) then
    let! b := load_bucket handle in
    if is_white (o_buffered (b_obj b)) then
      store_bucket handle purple_bucket ;;;
      object_children (collect_child fuel) (λ _, ret tt) (ret tt) (ret tt) handle handlers
    else ret tt
  else ret tt.

(** ** The roots *)

(** [current = GC_G(roots).next; while (current != &GC_G(roots)) { ...; current = current->next; }] *)
Fixpoint roots_loop (visit : ptr → gc_root_buffer → W unit) (fuel : nat) (current : option ptr) : W unit :=
  match current with
  | None => stuck
  | Some p =>
      if (p =? ROOTS)%positive then ret tt
      else
        match fuel with
        | O => stuck
        | S fuel' =>
            let! r := load_root p in
            visit p r ;;;
            let! r := load_root p in
            roots_loop visit fuel' (r_next r)
        end
  end.

Definition each_root (visit : ptr → gc_root_buffer → W unit) : W unit :=
  let! roots := load_root ROOTS in
  roots_loop visit (Pos.to_nat GC_ROOT_BUFFER_MAX_ENTRIES) (r_next roots).

(** [current->u.handlers], [current->u.pz] *)
Definition handlers_of (u : root_u) : W zend_object_handlers := match u with UHandlers h => ret h | UPz _ => stuck end.
Definition pz_of (u : root_u) : W ptr := match u with UPz pz => ret pz | UHandlers _ => stuck end.

Definition mark_root (fuel : nat) (current : ptr) (r : gc_root_buffer) : W unit :=
  if negb (r_handle r =? 0) then
    let! st := gets objects in
    if bool_decide (object_buckets st ≠ None) then
      let! b := load_bucket (r_handle r) in
      if bucket_color b =? GC_PURPLE then
        let! h := handlers_of (r_u r) in
        zobj_mark_grey fuel (r_handle r) h
      else
        store_bucket (r_handle r) (on_obj (λ o, set_o_buffered (GC_SET_ADDRESS (o_buffered o) GNull) o)) ;;;
        gc_remove_from_buffer current
    else ret tt
  else
    let! pz := pz_of (r_u r) in
    let! z := load_zval pz in
    if GC_ZVAL_GET_COLOR z =? GC_PURPLE then zval_mark_grey fuel pz
    else
      store_zval pz (λ z, set_zv_u (GC_SET_ADDRESS (zv_u z) GNull) z) ;;;
      gc_remove_from_buffer current.

Definition gc_mark_roots (fuel : nat) : W unit := each_root (mark_root fuel).

Definition scan_root (nb fuel : nat) (current : ptr) (r : gc_root_buffer) : W unit :=
  if negb (r_handle r =? 0) then
    let! h := handlers_of (r_u r) in
    zobj_scan nb fuel (r_handle r) h
  else
    let! pz := pz_of (r_u r) in
    zval_scan nb fuel pz.

Definition gc_scan_roots (nb fuel : nat) : W unit := each_root (scan_root nb fuel).

Definition collect_root (fuel : nat) (current : ptr) (r : gc_root_buffer) : W unit :=
  (if negb (r_handle r =? 0) then
     let! st := gets objects in
     if bool_decide (object_buckets st ≠ None) then
       store_bucket (r_handle r) (on_obj (λ o, set_o_buffered (GC_SET_ADDRESS (o_buffered o) GNull) o)) ;;;
       let! h := handlers_of (r_u r) in
       zobj_collect_white fuel (r_handle r) h
     else ret tt
   else
     let! pz := pz_of (r_u r) in
     store_zval pz (λ z, set_zv_u (GC_SET_ADDRESS (zv_u z) GNull) z) ;;;
     zval_collect_white fuel pz) ;;;
  gc_remove_from_buffer current.

Definition gc_collect_roots (fuel : nat) : W unit := each_root (collect_root fuel).

(** [GC_G(gc_runs)++; GC_G(zval_to_free) = FREE_LIST_END; GC_G(gc_active) = 1;] *)
Definition start_run (g : zend_gc_globals) : zend_gc_globals :=
  MkGC (gc_enabled g) true (buf g) (unused g) (first_unused g) (last_unused g) (Some FREE_LIST_END) (free_list g)
    (next_to_free g) (u32 (gc_runs g + 1)) (collected g) (root_cells g).

(** the first part of [gc_collect_cycles]: the list of the values to free *)
Definition gc_find_garbage (nb fuel : nat) : W unit :=
  modify (on_gc start_run) ;;;
  gc_mark_roots fuel ;;;
  gc_scan_roots nb fuel ;;;
  gc_collect_roots fuel.

End gc.
