(* ===== verification/GcGraph.v ===== *)
(** * Depth-first visits of a graph of counted references

    The phases of the cycle collector walk the same graph in depth-first order and
    differ in the nodes they enter, the colour they give them and what they add to the
    counts.  This file says what such a walk does, so that the walks of the code
    compose: a [visit] paints a set of nodes, listed without repetition, that is closed
    under the references, up to nodes that were not to be entered. *)

From stdpp Require Import relations.
From S2P Require Import Prelude.
Local Open Scope Z_scope.

(** counts wrap like the code's: they are compared modulo 2^32 *)
Lemma u32_add a b c : u32 a = u32 b → u32 (a + c) = u32 (b + c).
Proof. unfold u32. intros H. by rewrite <-(Zplus_mod_idemp_l a), H, Zplus_mod_idemp_l. Qed.

Lemma filter_length_le {A} (P Q : A → Prop) `{!∀ x, Decision (P x), !∀ x, Decision (Q x)} (U : list A) :
  (∀ x, P x → Q x) → (length (filter P U) ≤ length (filter Q U))%nat.
Proof.
  intros HPQ. induction U as [|x U IH]; [done|]. rewrite !filter_cons.
  destruct (decide (P x)), (decide (Q x)); simpl; try lia. naive_solver.
Qed.

Section graph.
Context {N : Type} `{EqDecision N} (succ : N → list N).

Record gstate : Type := MkGstate { col : N → Z; rc : N → Z }.

(** how often [y] is in [l], and the references to [y] from the nodes [V] *)
Definition count (l : list N) (y : N) : Z := Z.of_nat (length (filter (y =.) l)).
Fixpoint edges (V : list N) (y : N) : Z :=
  match V with [] => 0 | v :: V' => count (succ v) y + edges V' y end.

Definition refers (x y : N) : Prop := y ∈ succ x.

Lemma count_app l l' y : count (l ++ l') y = count l y + count l' y.
Proof. unfold count. rewrite filter_app, length_app. lia. Qed.

Lemma count_nil y : count [] y = 0.
Proof. done. Qed.

Lemma count_one x y : count [x] y = if decide (y = x) then 1 else 0.
Proof. unfold count. rewrite filter_cons, filter_nil. by destruct (decide (y = x)). Qed.

Lemma count_nonneg l y : 0 ≤ count l y.
Proof. unfold count. lia. Qed.

Lemma count_pos l y : 0 < count l y ↔ y ∈ l.
Proof.
  induction l as [|x l IH]; [unfold count; cbn; split; [lia|by intros ?%elem_of_nil]|].
  change (x :: l) with ([x] ++ l). rewrite count_app, count_one, elem_of_app, list_elem_of_singleton, <-IH.
  pose proof (count_nonneg l y). destruct (decide (y = x)); [split; [by left|lia]|]. split; [right; lia|intros [?|?]; [done|lia]].
Qed.

Lemma count_nodup l y : NoDup l → count l y = if decide (y ∈ l) then 1 else 0.
Proof.
  induction 1 as [|x l Hx _ IH]; [by rewrite decide_False by apply not_elem_of_nil|].
  change (x :: l) with ([x] ++ l). rewrite count_app, count_one, IH. destruct (decide (y = x)) as [->|Hne].
  - rewrite decide_False by done. by rewrite decide_True by left.
  - destruct (decide (y ∈ l)); [by rewrite decide_True by (by right)|]. rewrite decide_False; [done|].
    by intros [?|?]%elem_of_cons.
Qed.

Lemma edges_app V V' y : edges (V ++ V') y = edges V y + edges V' y.
Proof. induction V as [|v V IH]; simpl; [done|]. rewrite IH. lia. Qed.

Lemma edges_nonneg V y : 0 ≤ edges V y.
Proof. induction V as [|v V IH]; simpl; [done|]. pose proof (count_nonneg (succ v) y). lia. Qed.

Lemma edges_pos V y : 0 < edges V y ↔ ∃ v, v ∈ V ∧ y ∈ succ v.
Proof.
  induction V as [|v V IH]; simpl; [split; [lia|by intros (? & ?%elem_of_nil & _)]|].
  pose proof (count_nonneg (succ v) y). pose proof (edges_nonneg V y). split.
  - intros Hp. destruct (decide (0 < count (succ v) y)) as [Hc|Hc].
    + exists v. split; [left|by apply count_pos].
    + destruct (proj1 IH ltac:(lia)) as (u & Hu & Hy). exists u. split; [by right|done].
  - intros (u & [->|Hu]%elem_of_cons & Hy); [apply count_pos in Hy; lia|].
    assert (0 < edges V y) by (apply IH; eauto). lia.
Qed.

Lemma edges_perm V V' y : V ≡ₚ V' → edges V y = edges V' y.
Proof. induction 1; simpl; lia. Qed.

Lemma edges_incl V V' y : NoDup V → (∀ v, v ∈ V → v ∈ V') → edges V y ≤ edges V' y.
Proof.
  intros Hnd Hin. destruct (submseteq_Permutation _ _ (NoDup_submseteq V V' Hnd Hin)) as [k Hk].
  rewrite (edges_perm _ _ y Hk), edges_app. pose proof (edges_nonneg k y). lia.
Qed.

(** ** Visits *)

Section visit.
Context (fresh : Z → bool) (paint : N → Z) (wt : N → Z).
Hypothesis painted : ∀ x, fresh (paint x) = false.

(** From the starts [xs] the nodes [V] were entered; the references in [ex] were
    counted, as were those from [V], and the nodes of [T] got one more count. *)
Record visit (st st' : gstate) (xs ex V T : list N) : Prop := {
  v_nodup : NoDup V;
  v_fresh : ∀ v, v ∈ V → fresh (col st v) = true;
  v_col : ∀ y, col st' y = if decide (y ∈ V) then paint y else col st y;
  v_rc : ∀ y, u32 (rc st' y) = u32 (rc st y + (edges V y + count ex y) * wt y + count T y);
  v_start : ∀ x, x ∈ xs → x ∈ V ∨ fresh (col st x) = false;
  v_closed : ∀ v y, v ∈ V → y ∈ succ v → y ∈ V ∨ fresh (col st y) = false;
  v_reach : ∀ v, v ∈ V → ∃ x, x ∈ xs ∧ rtc refers x v
}.

(** a step that enters no node *)
Lemma visit_idle st st' ex T :
  (∀ y, col st' y = col st y) → (∀ y, u32 (rc st' y) = u32 (rc st y + count ex y * wt y + count T y)) →
  visit st st' [] ex [] T.
Proof.
  intros Hc Hr. split; try (by intros ? ?%elem_of_nil); try (by intros ? ? ?%elem_of_nil); [constructor| |].
  - intros y. rewrite decide_False by apply not_elem_of_nil. apply Hc.
  - intros y. cbn [edges]. rewrite Z.add_0_l. apply Hr.
Qed.

Lemma visit_same st st1 st2 xs ex V T :
  (∀ y, col st2 y = col st1 y) → (∀ y, rc st2 y = rc st1 y) → visit st st1 xs ex V T → visit st st2 xs ex V T.
Proof. intros Hc Hr []. split; try done; intros y; [by rewrite Hc|by rewrite Hr]. Qed.

Lemma visit_nil st : visit st st [] [] [] [].
Proof. apply visit_idle; [done|]. intros y. rewrite !count_nil. f_equal. lia. Qed.

Lemma visit_skip st x : fresh (col st x) = false → visit st st [x] [] [] [].
Proof.
  intros Hx. destruct (visit_nil st). split; try done; [|by intros ? ?%elem_of_nil].
  intros y ->%list_elem_of_singleton. by right.
Qed.

(** what is not fresh after a visit *)
Lemma visit_done st st' xs ex V T y :
  visit st st' xs ex V T → fresh (col st' y) = false → y ∈ V ∨ fresh (col st y) = false.
Proof. intros Hv. rewrite (v_col _ _ _ _ _ _ Hv). destruct (decide (y ∈ V)); auto. Qed.

Lemma visit_stays st st' xs ex V T y :
  visit st st' xs ex V T → fresh (col st y) = false → fresh (col st' y) = false.
Proof using painted. intros Hv. rewrite (v_col _ _ _ _ _ _ Hv). destruct (decide (y ∈ V)); auto. Qed.

Lemma visit_started st st' xs ex V T x : visit st st' xs ex V T → x ∈ xs → fresh (col st' x) = false.
Proof using painted.
  intros Hv Hx. destruct (v_start _ _ _ _ _ _ Hv x Hx) as [Hin|Hf]; [|by eapply visit_stays].
  by rewrite (v_col _ _ _ _ _ _ Hv), decide_True.
Qed.

Lemma visit_app st1 st2 st3 xs ys ex ey V W T T' :
  visit st1 st2 xs ex V T → visit st2 st3 ys ey W T' → visit st1 st3 (xs ++ ys) (ex ++ ey) (V ++ W) (T ++ T').
Proof using painted.
  intros H1 H2. pose proof H1 as [Hn1 Hf1 Hc1 Hr1 Hs1 Hcl1 Hre1]. pose proof H2 as [Hn2 Hf2 Hc2 Hr2 Hs2 Hcl2 Hre2].
  assert (Hdisj : ∀ v, v ∈ V → v ∉ W).
  { intros v Hv Hw. specialize (Hf2 v Hw). rewrite Hc1, decide_True in Hf2 by done. by rewrite painted in Hf2. }
  split.
  - apply NoDup_app. auto.
  - intros v [Hv|Hv]%elem_of_app; [auto|]. specialize (Hf2 v Hv). rewrite Hc1 in Hf2.
    destruct (decide (v ∈ V)); [by rewrite painted in Hf2|done].
  - intros y. rewrite Hc2, Hc1. destruct (decide (y ∈ W)) as [Hw|Hw].
    + by rewrite decide_True by (apply elem_of_app; by right).
    + destruct (decide (y ∈ V)) as [Hv|Hv]; [by rewrite decide_True by (apply elem_of_app; by left)|].
      rewrite decide_False; [done|]. by intros [?|?]%elem_of_app.
  - intros y. rewrite Hr2. rewrite <-Z.add_assoc, (u32_add _ _ _ (Hr1 y)). f_equal. rewrite edges_app, !count_app. lia.
  - intros x [Hx|Hx]%elem_of_app; rewrite elem_of_app.
    + destruct (Hs1 x Hx); auto.
    + destruct (Hs2 x Hx) as [|Hd]; [auto|]. destruct (visit_done _ _ _ _ _ _ _ H1 Hd); auto.
  - intros v y [Hv|Hv]%elem_of_app Hy; rewrite elem_of_app.
    + destruct (Hcl1 v y Hv Hy); auto.
    + destruct (Hcl2 v y Hv Hy) as [|Hd]; [auto|]. destruct (visit_done _ _ _ _ _ _ _ H1 Hd); auto.
  - intros v [Hv|Hv]%elem_of_app; [destruct (Hre1 v Hv) as (x & Hx & Hr)|destruct (Hre2 v Hv) as (x & Hx & Hr)];
      exists x; rewrite elem_of_app; auto.
Qed.

(** counting a reference to [x], and then visiting it *)
Lemma visit_count st st1 st' x V T :
  (∀ y, col st1 y = col st y) → (∀ y, u32 (rc st1 y) = u32 (rc st y + count [x] y * wt y)) →
  visit st1 st' [x] [] V T → visit st st' [x] [x] V T.
Proof using painted.
  intros Hc Hr Hv. change [x] with ([] ++ [x]) at 1. change [x] with ([x] ++ []) at 2. change V with ([] ++ V).
  change T with ([] ++ T). eapply visit_app; [|exact Hv]. apply visit_idle; [done|]. intros y. rewrite Hr, count_nil. f_equal. lia.
Qed.

(** entering [x] and visiting what it refers to *)
Lemma visit_node st st1 st' x V T :
  fresh (col st x) = true → (∀ y, col st1 y = if decide (y = x) then paint x else col st y) →
  (∀ y, u32 (rc st1 y) = u32 (rc st y)) →
  visit st1 st' (succ x) (succ x) V T → visit st st' [x] [] (x :: V) T.
Proof using painted.
  intros Hx Hc Hr [Hn Hf Hco Hrc Hs Hcl Hre].
  assert (HxV : x ∉ V). { intros Hin. specialize (Hf x Hin). rewrite Hc, decide_True in Hf by done. by rewrite painted in Hf. }
  assert (Hdone : ∀ y, fresh (col st1 y) = false → y = x ∨ fresh (col st y) = false).
  { intros y. rewrite Hc. destruct (decide (y = x)); auto. }
  split.
  - by apply NoDup_cons.
  - intros v [->|Hv]%elem_of_cons; [done|]. specialize (Hf v Hv). rewrite Hc in Hf. rewrite decide_False in Hf; [done|].
    by intros ->.
  - intros y. rewrite Hco, Hc. destruct (decide (y = x)) as [->|Hne].
    + rewrite decide_False by done. by rewrite decide_True by left.
    + destruct (decide (y ∈ V)); [by rewrite decide_True by (by right)|]. rewrite decide_False; [done|].
      by intros [?|?]%elem_of_cons.
  - intros y. rewrite Hrc. rewrite <-Z.add_assoc, (u32_add _ _ _ (Hr y)). f_equal. cbn [edges]. rewrite count_nil. lia.
  - intros y ->%list_elem_of_singleton. left. left.
  - intros v y [->|Hv]%elem_of_cons Hy; rewrite elem_of_cons.
    + destruct (Hs y Hy) as [|Hd]; [auto|]. destruct (Hdone y Hd); auto.
    + destruct (Hcl v y Hv Hy) as [|Hd]; [auto|]. destruct (Hdone y Hd); auto.
  - intros v Hv. exists x. split; [left|]. apply elem_of_cons in Hv as [->|Hv]; [done|].
    destruct (Hre v Hv) as (y & Hy & Hr'). by eapply rtc_l.
Qed.

(** the nodes of [U] still to be entered *)
Definition remaining (U : list N) (st : gstate) : nat := length (filter (λ n, fresh (col st n) = true) U).

Lemma remaining_visit U st st' xs ex V T : visit st st' xs ex V T → (remaining U st' ≤ remaining U st)%nat.
Proof using painted.
  intros Hv. apply filter_length_le. intros x Hx. destruct (fresh (col st x)) eqn:Hf; [done|].
  by rewrite (visit_stays _ _ _ _ _ _ _ Hv Hf) in Hx.
Qed.

Lemma remaining_paint U st st1 x :
  x ∈ U → fresh (col st x) = true → (∀ y, col st1 y = if decide (y = x) then paint x else col st y) →
  (remaining U st1 < remaining U st)%nat.
Proof using painted.
  intros Hin Hx Hc. unfold remaining.
  assert (Hle : ∀ U, (length (filter (λ n, fresh (col st1 n) = true) U) ≤ length (filter (λ n, fresh (col st n) = true) U))%nat).
  { intros U'. apply filter_length_le. intros y. rewrite Hc. destruct (decide (y = x)) as [->|]; [done|done]. }
  induction U as [|y U IH]; [by apply elem_of_nil in Hin|]. rewrite !filter_cons. specialize (Hle U).
  destruct (decide (y = x)) as [->|Hne].
  - rewrite (decide_True (P := fresh (col st x) = true)) by done. rewrite decide_False; [simpl; lia|].
    rewrite Hc, decide_True by done. by rewrite painted.
  - apply elem_of_cons in Hin as [->|Hin]; [done|]. specialize (IH Hin).
    rewrite (Hc y), (decide_False (P := y = x)) by done. destruct (decide (fresh (col st y) = true)); simpl; lia.
Qed.

End visit.

(** ** Scanning *)

Section scan.
Context (BLACK WHITE GREY : Z) (S : list N) (rcM : N → Z).
Hypothesis colors : BLACK ≠ WHITE ∧ BLACK ≠ GREY ∧ WHITE ≠ GREY.
Hypothesis S_closed : ∀ x y, x ∈ S → y ∈ succ x → y ∈ S.
Hypothesis rc_bounds : ∀ y, y ∈ S → 0 ≤ rcM y ∧ rcM y + edges S y < 2 ^ 32.

(** referenced from outside, directly or not *)
Definition live (y : N) : Prop := ∃ x, x ∈ S ∧ 0 < rcM x ∧ rtc refers x y.

(** the nodes [B] went back to black, and their references are counted again *)
Record scan_ok (st : gstate) (B : list N) : Prop := {
  so_nodup : NoDup B;
  so_black : ∀ y, y ∈ B ↔ y ∈ S ∧ col st y = BLACK;
  so_col : ∀ y, y ∈ S → col st y = BLACK ∨ col st y = WHITE ∨ col st y = GREY;
  so_rc : ∀ y, u32 (rc st y) = u32 (rcM y + edges B y);
  so_closed : ∀ v y, v ∈ B → y ∈ succ v → y ∈ B;
  so_live : ∀ v, v ∈ B → live v;
  so_white : ∀ y, y ∈ S → col st y = WHITE → rcM y = 0
}.

Record scanned (st st' : gstate) (xs : list N) : Prop := {
  sc_stays : ∀ y, y ∈ S → col st y ≠ GREY → col st' y ≠ GREY;
  sc_start : ∀ x, x ∈ xs → col st' x ≠ GREY;
  sc_closed : ∀ v y, v ∈ S → col st v = GREY → col st' v ≠ GREY → y ∈ succ v → col st' y ≠ GREY;
  sc_other : ∀ y, y ∉ S → col st' y = col st y
}.

Lemma S_reach x y : x ∈ S → rtc refers x y → y ∈ S.
Proof using Type*. intros Hx Hr. induction Hr as [|x y z Hxy _ IH]; [done|]. apply IH. by eapply S_closed. Qed.

Lemma scanned_nil st : scanned st st [].
Proof. split; try done. by intros ? ?%elem_of_nil. Qed.

Lemma scanned_skip st x : col st x ≠ GREY → scanned st st [x].
Proof. intros Hx. split; try done. by intros ? ->%list_elem_of_singleton. Qed.

Lemma scanned_app st1 st2 st3 xs ys :
  (∀ x, x ∈ xs → x ∈ S) → scanned st1 st2 xs → scanned st2 st3 ys → scanned st1 st3 (xs ++ ys).
Proof using Type*.
  intros Hxs [H1 H2 H3 H4] [K1 K2 K3 K4]. split.
  - auto.
  - intros x [Hx|Hx]%elem_of_app; [apply K1; auto|auto].
  - intros v y Hv Hg Hng Hy. destruct (decide (col st2 v = GREY)) as [Hg2|Hng2].
    + by apply (K3 v).
    + apply K1; [by eapply S_closed|]. by apply (H3 v).
  - intros y Hy. rewrite K4, H4; done.
Qed.

(** the count of a node is exact *)
Lemma scan_count st B y : scan_ok st B → y ∈ S → 0 ≤ rc st y < 2 ^ 32 → rc st y = rcM y + edges B y.
Proof using Type*.
  intros Hok Hy Hr. pose proof (so_rc _ _ Hok y) as Hrc. rewrite u32_small in Hrc by done. rewrite Hrc.
  destruct (rc_bounds y Hy). pose proof (edges_nonneg B y).
  assert (edges B y ≤ edges S y).
  { apply edges_incl; [apply Hok|]. intros v Hv. by apply (so_black _ _ Hok). }
  apply u32_small. lia.
Qed.

(** a grey node that is still referenced *)
Lemma scan_back st st' B x V :
  scan_ok st B → x ∈ S → col st x = GREY → 0 < rc st x < 2 ^ 32 →
  visit (λ c, negb (c =? BLACK)) (λ _, BLACK) (λ _, 1) st st' [x] [] V [] →
  scan_ok st' (V ++ B) ∧ scanned st st' [x].
Proof using Type*.
  intros Hok Hx Hg Hrc Hv. pose proof Hok as [Hn Hb Hc Hr Hcl Hl Hw]. destruct Hv as [Vn Vf Vc Vr Vs Vcl Vre].
  destruct colors as (C1 & C2 & C3).
  assert (HVS : ∀ v, v ∈ V → v ∈ S).
  { intros v Hv. destruct (Vre v Hv) as (y & ->%list_elem_of_singleton & Hp). by eapply S_reach. }
  assert (Hlx : live x).
  { rewrite (scan_count _ _ _ Hok Hx) in Hrc by lia. destruct (decide (0 < rcM x)) as [Hp|Hp]; [by exists x|].
    destruct (rc_bounds x Hx). destruct (proj1 (edges_pos B x) ltac:(lia)) as (v & HvB & Hvx).
    pose proof (Hcl v x HvB Hvx) as HxB. apply Hb in HxB as [_ HxB]. congruence. }
  assert (HVB : ∀ v, v ∈ V → v ∉ B).
  { intros v Hv HvB. specialize (Vf v Hv). apply Hb in HvB as [_ HvB]. rewrite HvB, Z.eqb_refl in Vf. done. }
  assert (Hnf : ∀ y, y ∈ S → negb (col st y =? BLACK) = false → y ∈ B).
  { intros y Hy Hf. apply Hb. split; [done|]. by apply negb_false_iff, Z.eqb_eq in Hf. }
  split; split.
  - apply NoDup_app. auto.
  - intros y. rewrite elem_of_app, Vc. destruct (decide (y ∈ V)) as [Hy|Hy]; [split; auto|].
    rewrite Hb. split; [by intros [?|?]|auto].
  - intros y Hy. rewrite Vc. destruct (decide (y ∈ V)); auto.
  - intros y. rewrite Vr, count_nil. rewrite <-Z.add_assoc, (u32_add _ _ _ (Hr y)). rewrite edges_app. f_equal. lia.
  - intros v y [Hv|Hv]%elem_of_app Hy; rewrite elem_of_app; [|right; by eapply Hcl].
    destruct (Vcl v y Hv Hy) as [|Hd]; [by left|right]. apply Hnf; [|done]. eapply S_closed; [|done]. auto.
  - intros v [Hv|Hv]%elem_of_app; [|auto]. destruct (Vre v Hv) as (y & ->%list_elem_of_singleton & Hp).
    destruct Hlx as (z & Hz & Hz0 & Hzx). exists z. split; [done|]. split; [done|]. by etransitivity.
  - intros y Hy. rewrite Vc. destruct (decide (y ∈ V)); [congruence|]. by apply Hw.
  - intros y Hy Hng. rewrite Vc. destruct (decide (y ∈ V)); congruence.
  - intros y ->%list_elem_of_singleton. rewrite Vc. destruct (Vs x ltac:(left)) as [Hin|Hf]; [by rewrite decide_True|].
    rewrite Hg in Hf. apply negb_false_iff, Z.eqb_eq in Hf. congruence.
  - intros v y Hv Hgv Hngv Hy. rewrite Vc in Hngv |- *. destruct (decide (v ∈ V)) as [HvV|]; [|done].
    destruct (decide (y ∈ V)) as [|HyV]; [congruence|]. destruct (Vcl v y HvV Hy) as [|Hd]; [done|].
    apply negb_false_iff, Z.eqb_eq in Hd. congruence.
  - intros y Hy. rewrite Vc, decide_False; [done|]. auto.
Qed.

(** a grey node that nothing else refers to: white, at first *)
Lemma scan_paint st st1 B x :
  scan_ok st B → x ∈ S → col st x = GREY → rc st x = 0 →
  (∀ y, col st1 y = if decide (y = x) then WHITE else col st y) → (∀ y, rc st1 y = rc st y) → scan_ok st1 B.
Proof using Type*.
  intros Hok Hx Hg Hrc Hcol Hr. pose proof Hok as [Hn Hb Hc Hr0 Hcl Hl Hw]. destruct colors as (C1 & C2 & C3). split; try done.
  - intros y. rewrite Hb, Hcol. destruct (decide (y = x)) as [->|]; [|done]. rewrite Hg. split; intros [_ ?]; congruence.
  - intros y Hy. rewrite Hcol. destruct (decide (y = x)); auto.
  - intros y. by rewrite Hr.
  - intros y Hy. rewrite Hcol. destruct (decide (y = x)) as [->|]; [|auto]. intros _.
    pose proof (scan_count _ _ _ Hok Hx ltac:(lia)). pose proof (edges_nonneg B x). destruct (rc_bounds x Hx). lia.
Qed.

Lemma scanned_node st st1 st' x :
  x ∈ S → (∀ y, col st1 y = if decide (y = x) then WHITE else col st y) →
  scanned st1 st' (succ x) → scanned st st' [x].
Proof using Type*.
  intros Hx Hcol [H1 H2 H3 H4]. destruct colors as (C1 & C2 & C3). split.
  - intros y Hy Hng. apply H1; [done|]. rewrite Hcol. destruct (decide (y = x)); congruence.
  - intros y ->%list_elem_of_singleton. apply H1; [done|]. rewrite Hcol, decide_True by done. congruence.
  - intros v y Hv Hg Hng Hy. destruct (decide (v = x)) as [->|Hne]; [by apply H2|].
    apply (H3 v); try done. by rewrite Hcol, decide_False.
  - intros y Hy. rewrite H4, Hcol by done. rewrite decide_False; [done|]. by intros ->.
Qed.

(** after scanning all starts, what is not live is white *)
Lemma scan_result st st' B xs :
  (∀ y, y ∈ S → ∃ x, x ∈ xs ∧ x ∈ S ∧ rtc refers x y) → (∀ y, y ∈ S → col st y = GREY) →
  scan_ok st' B → scanned st st' xs →
  ∀ y, y ∈ S → (live y ∧ col st' y = BLACK ∧ y ∈ B) ∨ (¬ live y ∧ col st' y = WHITE ∧ y ∉ B).
Proof using Type*.
  intros Hreach Hgrey Hok [H1 H2 H3 H4]. pose proof Hok as [Hn Hb Hc Hr Hcl Hl Hw]. destruct colors as (C1 & C2 & C3).
  assert (Hng : ∀ y, y ∈ S → col st' y ≠ GREY).
  { intros y Hy. destruct (Hreach y Hy) as (x & Hx & HxS & Hp). pose proof (H2 x Hx) as Hgx. clear Hx Hy.
    induction Hp as [|x y z Hxy Hp IH]; [done|]. apply IH; [by eapply S_closed|]. apply (H3 x); auto. }
  assert (HB : ∀ y, y ∈ S → live y → y ∈ B).
  { intros y Hy (x & Hx & Hx0 & Hp).
    assert (HxB : x ∈ B).
    { apply Hb. split; [done|]. destruct (Hc x Hx) as [?|[Hwh|Hg]]; [done| |by destruct (Hng x Hx)].
      rewrite (Hw x Hx Hwh) in Hx0. lia. }
    clear Hx Hx0 Hy. induction Hp as [|x y z Hxy Hp IH]; [done|]. apply IH. by eapply Hcl. }
  intros y Hy. destruct (decide (y ∈ B)) as [HyB|HyB].
  - left. split; [auto|]. split; [|done]. by apply Hb.
  - right. split; [auto|]. split; [|done]. destruct (Hc y Hy) as [Hbl|[?|Hg]]; [|done|by destruct (Hng y Hy)].
    destruct HyB. by apply Hb.
Qed.

End scan.
End graph.
