(* ===== verification/GcSpec.v ===== *)
(** * The walks of the cycle collector visit the graph of references

    The nodes of the graph are values and objects.  A walk changes only the counts and
    the words with the colours of the nodes it enters ([shape] is the rest), and each
    walk is a visit in the sense of [GcGraph]. *)

From stdpp Require Import relations.
From S2P Require Import Prelude DList HashModel HashRepr ObjModel ObjSpec GcModel GcGraph.
Local Open Scope Z_scope.

Inductive node : Type :=
| NZ (z : ptr)
| NO (handle : Z).

#[export] Instance node_eq_dec : EqDecision node.
Proof. solve_decision. Defined.

(** the word with the colour, and the count, of a node *)
Definition word_of (w : world) (n : node) : gptr :=
  match n with
  | NZ z => match zvals w !! z with Some zv => zv_u zv | None => gnull end
  | NO h => match bucket_at (objects w) h with Some b => o_buffered (b_obj b) | None => gnull end
  end.
Definition rc_of (w : world) (n : node) : Z :=
  match n with
  | NZ z => match zvals w !! z with Some zv => zv_refcount zv | None => 0 end
  | NO h => match bucket_at (objects w) h with Some b => o_refcount (b_obj b) | None => 0 end
  end.

(** a world as the state of a graph, [f] being what the walk looks at in a word *)
Definition abs (f : gptr → Z) (w : world) : gstate (N := node) := MkGstate (λ n, f (word_of w n)) (rc_of w).

(** everything but the counts, and what [er] and [eg] leave of the words and of the
    collector's variables *)
Definition znorm (er : gptr → gptr) (z : zval_gc_info) : zval_gc_info := set_zv_refcount 0 (set_zv_u (er (zv_u z)) z).
Definition bnorm (er : gptr → gptr) (b : object_bucket) : object_bucket :=
  on_obj (λ o, set_o_refcount 0 (set_o_buffered (er (o_buffered o)) o)) b.
Definition norm_store (er : gptr → gptr) (st : zend_objects_store) : zend_objects_store :=
  MkStore ((λ l : list (option object_bucket), (λ o : option object_bucket, bnorm er <$> o) <$> l) <$> object_buckets st) (os_top st) (os_size st) (free_list_head st).
Definition shape (er : gptr → gptr) (eg : zend_gc_globals → zend_gc_globals) (w : world) :=
  (eg (gc w), znorm er <$> zvals w, norm_store er (objects w), arrays w, array_mem w, obj_calls w).

Section shapes.
Context (er : gptr → gptr) (eg : zend_gc_globals → zend_gc_globals).
Implicit Types (w : world) (z : ptr) (zv : zval_gc_info) (b : object_bucket) (h : Z).

Lemma norm_bucket_at st h : bucket_at (norm_store er st) h = bnorm er <$> bucket_at st h.
Proof.
  unfold bucket_at. cbn. destruct (object_buckets st) as [l|]; [|done]. cbn.
  destruct (decide (0 ≤ h)); [|done]. rewrite list_lookup_fmap. by destruct (l !! Z.to_nat h) as [[]|].
Qed.

Lemma shape_zval w w0 z zv0 :
  shape er eg w = shape er eg w0 → zvals w0 !! z = Some zv0 → ∃ zv, zvals w !! z = Some zv ∧ znorm er zv = znorm er zv0.
Proof.
  intros Hs H0. unfold shape in Hs. assert (Hz : znorm er <$> zvals w = znorm er <$> zvals w0) by congruence.
  apply (f_equal (.!! z)) in Hz. rewrite !lookup_fmap, H0 in Hz.
  destruct (zvals w !! z) as [zv|]; [|done]. apply Some_inj in Hz. by exists zv.
Qed.

Lemma shape_bucket w w0 h b0 :
  shape er eg w = shape er eg w0 → bucket_at (objects w0) h = Some b0 →
  ∃ b, bucket_at (objects w) h = Some b ∧ bnorm er b = bnorm er b0.
Proof.
  intros Hs H0. unfold shape in Hs.
  assert (Hst : norm_store er (objects w) = norm_store er (objects w0)) by congruence.
  apply (f_equal (λ st, bucket_at st h)) in Hst. rewrite !norm_bucket_at, H0 in Hst.
  destruct (bucket_at (objects w) h) as [b|]; [|done]. apply Some_inj in Hst. by exists b.
Qed.

Lemma shape_stored w w0 : shape er eg w = shape er eg w0 →
  bool_decide (object_buckets (objects w) ≠ None) = bool_decide (object_buckets (objects w0) ≠ None).
Proof.
  intros Hs. unfold shape in Hs. assert (Hst : norm_store er (objects w) = norm_store er (objects w0)) by congruence.
  apply (f_equal object_buckets) in Hst. cbn in Hst. apply bool_decide_ext.
  destruct (object_buckets (objects w)), (object_buckets (objects w0)); cbn in Hst; done.
Qed.

(** a write to a value that keeps its shape *)
Lemma store_zval_run w z zv f :
  zvals w !! z = Some zv → znorm er (f zv) = znorm er zv →
  ∃ w', store_zval z f w = Done tt w' ∧ shape er eg w' = shape er eg w ∧ zvals w' !! z = Some (f zv) ∧
    (∀ n, word_of w' n = if decide (n = NZ z) then zv_u (f zv) else word_of w n) ∧
    (∀ n, rc_of w' n = if decide (n = NZ z) then zv_refcount (f zv) else rc_of w n) ∧ objects w' = objects w ∧ gc w' = gc w.
Proof.
  intros Hz Hf. unfold store_zval. rewrite Hz. eexists. split; [reflexivity|].
  assert (Hl : ∀ z', alter f z (zvals w) !! z' = if decide (z' = z) then Some (f zv) else zvals w !! z').
  { intros z'. destruct (decide (z' = z)) as [->|]; [by rewrite lookup_alter_eq, Hz|by rewrite lookup_alter_ne]. }
  split; [|split; [cbn; by rewrite Hl, decide_True|split; [|split; [|done]]]].
  - assert (Hm : znorm er <$> alter f z (zvals w) = znorm er <$> zvals w).
    { apply map_eq. intros z'. rewrite !lookup_fmap, Hl.
      destruct (decide (z' = z)) as [->|]; [|done]. rewrite Hz. cbn [fmap option_fmap option_map]. by rewrite Hf. }
    unfold shape. cbn [gc zvals objects arrays array_mem obj_calls on_zvals]. by rewrite Hm.
  - intros [z'|h]; cbn; [|done]. rewrite Hl. destruct (decide (z' = z)) as [->|Hne].
    + by rewrite decide_True.
    + rewrite decide_False; [done|]. by intros [= ->].
  - intros [z'|h]; cbn; [|done]. rewrite Hl. destruct (decide (z' = z)) as [->|Hne].
    + by rewrite decide_True.
    + rewrite decide_False; [done|]. by intros [= ->].
Qed.

Lemma norm_put st h b b0 :
  bucket_at st h = Some b0 → bnorm er b = bnorm er b0 → norm_store er (put_bucket h b st) = norm_store er st.
Proof.
  unfold bucket_at, put_bucket, norm_store. cbn. destruct (object_buckets st) as [l|]; [|done]. cbn.
  destruct (decide (0 ≤ h)); [|done]. intros Hb Hn. f_equal. f_equal. rewrite list_fmap_insert. cbn. rewrite Hn.
  apply list_insert_id. rewrite list_lookup_fmap. destruct (l !! Z.to_nat h) as [o|]; [|done]. cbn in *. by subst.
Qed.

Lemma store_bucket_run w h b f :
  bucket_at (objects w) h = Some b → bnorm er (f b) = bnorm er b →
  ∃ w', store_bucket h f w = Done tt w' ∧ shape er eg w' = shape er eg w ∧ bucket_at (objects w') h = Some (f b) ∧
    (∀ n, word_of w' n = if decide (n = NO h) then o_buffered (b_obj (f b)) else word_of w n) ∧
    (∀ n, rc_of w' n = if decide (n = NO h) then o_refcount (b_obj (f b)) else rc_of w n) ∧ zvals w' = zvals w ∧ gc w' = gc w.
Proof.
  intros Hb Hf. rewrite (store_bucket_Done _ _ _ _ Hb). eexists. split; [reflexivity|].
  assert (Hl : ∀ h', bucket_at (put_bucket h (f b) (objects w)) h' = if decide (h' = h) then Some (f b) else bucket_at (objects w) h')
    by (intros; by eapply bucket_at_put).
  split; [|split; [cbn [objects on_objects]; by rewrite Hl, decide_True|split; [|split; [|done]]]].
  - unfold shape. cbn [gc zvals objects arrays array_mem obj_calls on_objects]. by rewrite (norm_put _ _ _ _ Hb Hf).
  - intros [z|h']; [done|]. cbn [word_of objects on_objects]. rewrite Hl. destruct (decide (h' = h)) as [->|Hne].
    + by rewrite decide_True.
    + rewrite decide_False; [done|]. by intros [= ->].
  - intros [z|h']; [done|]. cbn [rc_of objects on_objects]. rewrite Hl. destruct (decide (h' = h)) as [->|Hne].
    + by rewrite decide_True.
    + rewrite decide_False; [done|]. by intros [= ->].
Qed.

End shapes.

(** forgetting more *)
Lemma shape_weaken er eg er' eg' w w' :
  (∀ v, er' (er v) = er' v) → (∀ g, eg' (eg g) = eg' g) → shape er eg w = shape er eg w' → shape er' eg' w = shape er' eg' w'.
Proof.
  intros Her Heg Hs. unfold shape in *.
  assert (H0 : eg (gc w) = eg (gc w')) by congruence.
  assert (H1 : znorm er <$> zvals w = znorm er <$> zvals w') by congruence.
  assert (H2 : norm_store er (objects w) = norm_store er (objects w')) by congruence.
  assert (H3 : arrays w = arrays w') by congruence. assert (H4 : array_mem w = array_mem w') by congruence.
  assert (H5 : obj_calls w = obj_calls w') by congruence. rewrite H3, H4, H5.
  assert (E1 : ∀ m, znorm er' <$> m = znorm er' <$> (znorm er <$> m : gmap ptr zval_gc_info)).
  { intros m. rewrite <-map_fmap_compose. apply map_fmap_ext. intros i z _. unfold znorm. cbn. by rewrite Her. }
  assert (E2 : ∀ st, norm_store er' st = norm_store er' (norm_store er st)).
  { intros [l t s f]. unfold norm_store. cbn. f_equal. destruct l as [l|]; [|done]. cbn. f_equal.
    rewrite <-list_fmap_compose. apply list_fmap_ext. intros i [b|] _; [|done]. unfold bnorm, on_obj. cbn. by rewrite Her. }
  by rewrite (E1 (zvals w)), (E1 (zvals w')), (E2 (objects w)), (E2 (objects w')), H1, H2, <-(Heg (gc w)), H0, Heg.
Qed.

(** what does not matter to the references *)
Definition coarse : world → _ := shape (λ _, gnull) (λ _, gc_globals_ctor_ex).

Lemma shape_coarse er eg w w' : shape er eg w = shape er eg w' → coarse w = coarse w'.
Proof. by apply shape_weaken. Qed.

(** ** The graph *)

Section graph.
Context (get_gc : zend_object_handlers → Z → W (list (option ptr) * option Z)).
(** the world at the start, what the handlers tell, the handlers of each object, the
    elements of each array, and the nodes *)
Context (w0 : world) (content : Z → list (option ptr) * option Z) (hd : Z → zend_object_handlers).
Context (elts : Z → list ptr) (U : list node).
Implicit Types (w : world) (z pz : ptr) (zv : zval_gc_info) (b : object_bucket) (h : Z) (l : list ptr) (V T : list node).

Definition children h : list ptr :=
  omap id (content h).1 ++ match (content h).2 with Some t => elts t | None => [] end.

(** a value refers to its object or its elements, an object to what its handler tells *)
Definition succ (n : node) : list node :=
  match n with
  | NZ z =>
      match zvals w0 !! z with
      | Some zv =>
          if is_stored_object zv (objects w0) then [NO (zv_handle zv)]
          else if zv_type zv =? IS_ARRAY then NZ <$> elts (zv_arr zv)
          else []
      | None => []
      end
  | NO h =>
      match bucket_at (objects w0) h with
      | Some b => if valid b && h_get_gc (hd h) then NZ <$> children h else []
      | None => []
      end
  end.

Definition table_ok (t : Z) : Prop :=
  ∃ ht order es, arrays w0 !! t = Some ht ∧ tbl (array_mem w0) ht order es ∧ elts t = es.*2.

Record heap_ok : Prop := {
  ho_zval : ∀ z, NZ z ∈ U → ∃ zv, zvals w0 !! z = Some zv ∧
    (is_stored_object zv (objects w0) = true → zv_ht zv = hd (zv_handle zv)) ∧
    (zv_type zv = IS_ARRAY → zv_arr zv ≠ SYMBOL_TABLE ∧ table_ok (zv_arr zv));
  ho_object : ∀ h, NO h ∈ U → ∃ b, bucket_at (objects w0) h = Some b ∧
    (valid b && h_get_gc (hd h) = true → ∀ t, (content h).2 = Some t → table_ok t);
  ho_closed : ∀ x y, x ∈ U → y ∈ succ x → y ∈ U;
  ho_get_gc : ∀ w h, coarse w = coarse w0 → get_gc (hd h) h w = Done (content h) w
}.
Hypothesis heap : heap_ok.

(** a value of the graph, as it is now *)
Lemma zval_now w z : coarse w = coarse w0 → NZ z ∈ U →
  ∃ zv zv0, zvals w !! z = Some zv ∧ zvals w0 !! z = Some zv0 ∧
    zv_type zv = zv_type zv0 ∧ zv_handle zv = zv_handle zv0 ∧ zv_ht zv = zv_ht zv0 ∧ zv_arr zv = zv_arr zv0 ∧
    is_stored_object zv (objects w) = is_stored_object zv0 (objects w0) ∧
    (is_stored_object zv0 (objects w0) = true → zv_ht zv = hd (zv_handle zv) ∧ NO (zv_handle zv) ∈ U) ∧
    (zv_type zv = IS_ARRAY → zv_arr zv ≠ SYMBOL_TABLE ∧ table_ok (zv_arr zv)).
Proof using heap.
  intros Hw Hz. destruct (ho_zval heap z Hz) as (zv0 & H0 & Hobj & Harr).
  destruct (shape_zval _ _ _ _ _ _ Hw H0) as (zv & Hzv & Hn). exists zv, zv0. split; [done|]. split; [done|].
  destruct zv as [t r hh ht a u], zv0 as [t0 r0 hh0 ht0 a0 u0]. unfold znorm in Hn. cbn in *.
  injection Hn as -> -> -> ->. do 4 (split; [done|]). split.
  { unfold is_stored_object. cbn. f_equal. eapply shape_stored. exact Hw. }
  split; [|done]. intros Hs. split; [by apply Hobj|]. apply (ho_closed heap (NZ z)); [done|]. cbn. rewrite H0, Hs. left.
Qed.

Lemma bucket_now w h : coarse w = coarse w0 → NO h ∈ U →
  ∃ b b0, bucket_at (objects w) h = Some b ∧ bucket_at (objects w0) h = Some b0 ∧ valid b = valid b0 ∧
    destructor_called b = destructor_called b0 ∧ o_word (b_obj b) = o_word (b_obj b0).
Proof using heap.
  intros Hw Hh. destruct (ho_object heap h Hh) as (b0 & H0 & _).
  destruct (shape_bucket _ _ _ _ _ _ Hw H0) as (b & Hb & Hn). exists b, b0.
  destruct b as [d v a o], b0 as [d0 v0 a0 o0], o, o0. unfold bnorm, on_obj in Hn. cbn in *. by injection Hn as -> -> -> -> -> -> -> ->.
Qed.

(** ** Visiting lists of values *)

Section lists.
Context (Inv : world → Prop) (R : world → world → list node → list node → list node → Prop).
Hypothesis Inv_coarse : ∀ w, Inv w → coarse w = coarse w0.
Hypothesis R_nil : ∀ w, Inv w → R w w [] [] [].
Hypothesis R_app : ∀ w1 w2 w3 xs ys V1 V2 T1 T2,
  R w1 w2 xs V1 T1 → R w2 w3 ys V2 T2 → R w1 w3 (xs ++ ys) (V1 ++ V2) (T1 ++ T2).
Context (visit : ptr → W unit).

Definition visits z : Prop := ∀ w, Inv w → ∃ w' V T, visit z w = Done tt w' ∧ Inv w' ∧ R w w' [NZ z] V T.

Lemma each_slot_run table w :
  Inv w → (∀ z, z ∈ omap id table → visits z) →
  ∃ w' V T, each_slot visit table w = Done tt w' ∧ Inv w' ∧ R w w' (NZ <$> omap id table) V T.
Proof using R_nil R_app.
  revert w. induction table as [|[z|] table IH]; intros w Hi Hv.
  - exists w, [], []. split; [done|]. split; [done|]. by apply R_nil.
  - destruct (Hv z ltac:(cbn; left) w Hi) as (w1 & V1 & T1 & Hr1 & Hi1 & HR1).
    destruct (IH w1 Hi1) as (w2 & V2 & T2 & Hr2 & Hi2 & HR2); [intros z' Hz'; apply Hv; cbn; by right|].
    exists w2, (V1 ++ V2), (T1 ++ T2). split; [cbn [each_slot]; by rewrite (bind_Done _ _ _ _ _ Hr1)|]. split; [done|].
    exact (R_app _ _ _ _ _ _ _ _ _ HR1 HR2).
  - destruct (IH w Hi) as (w2 & V2 & T2 & Hr2 & Hi2 & HR2); [intros z' Hz'; by apply Hv|].
    exists w2, V2, T2. split; [|done]. cbn [each_slot]. by erewrite bind_Done by reflexivity.
Qed.

Lemma elements_loop_run order (es : list (key * ptr)) prev fuel w :
  Inv w → seg glob (cells (array_mem w0)) prev order None → Forall2 (entry (cells (array_mem w0))) order es →
  (length order ≤ fuel)%nat → (∀ z, z ∈ es.*2 → visits z) →
  ∃ w' V T, elements_loop visit fuel (head order) w = Done tt w' ∧ Inv w' ∧ R w w' (NZ <$> es.*2) V T.
Proof using Inv_coarse R_nil R_app.
  revert es prev fuel w. induction order as [|p order IH]; intros es prev fuel w Hi Hseg Hes Hf Hv.
  - apply Forall2_nil_inv_l in Hes as ->. exists w, [], []. split; [by destruct fuel|]. split; [done|]. by apply R_nil.
  - apply Forall2_cons_inv_l in Hes as (e & es' & He & Hes & ->). destruct fuel as [|fuel]; [cbn in Hf; lia|].
    destruct He as (b & Hb & _ & _ & He2). destruct Hseg as [Hl Hseg]. rewrite Hb in Hl. cbn in Hl. injection Hl as _ Hnext.
    assert (Hload : ∀ w, Inv w → load_element p w = Done b w).
    { intros w' Hi'. unfold load_element. apply Inv_coarse in Hi'. unfold coarse, shape in Hi'.
      assert (array_mem w' = array_mem w0) as -> by congruence. by rewrite Hb. }
    destruct (Hv e.2 ltac:(cbn; left) w Hi) as (w1 & V1 & T1 & Hr1 & Hi1 & HR1).
    destruct (IH es' (Some p) fuel w1 Hi1 Hseg Hes) as (w2 & V2 & T2 & Hr2 & Hi2 & HR2).
    { cbn in Hf. lia. } { intros z Hz. apply Hv. cbn. by right. }
    exists w2, (V1 ++ V2), (T1 ++ T2). split; [|split; [done|exact (R_app _ _ _ _ _ _ _ _ _ HR1 HR2)]].
    cbn [head elements_loop]. rewrite (bind_Done _ _ _ _ _ (Hload w Hi)), He2, (bind_Done _ _ _ _ _ Hr1).
    rewrite (bind_Done _ _ _ _ _ (Hload w1 Hi1)), Hnext. by rewrite head_or_None.
Qed.

Lemma each_element_run t w :
  Inv w → table_ok t → (∀ z, z ∈ elts t → visits z) →
  ∃ w' V T, each_element visit t w = Done tt w' ∧ Inv w' ∧ R w w' (NZ <$> elts t) V T.
Proof using Inv_coarse R_nil R_app.
  intros Hi (ht & order & es & Ht & Htbl & Hel) Hv. unfold each_element. erewrite bind_Done by reflexivity. cbn [id].
  pose proof (Inv_coarse w Hi) as Hc. unfold coarse, shape in Hc.
  assert (arrays w = arrays w0) as -> by congruence. assert (array_mem w = array_mem w0) as Hm by congruence. rewrite Ht, Hm.
  pose proof (r_glob _ _ _ _ (t_repr _ _ _ _ Htbl)) as (Hnd & Hseg & Hhd & _). rewrite Hhd, Hel.
  apply (elements_loop_run order es None); try done.
  - apply (r_entries _ _ _ _ (t_repr _ _ _ _ Htbl)).
  - apply Nat.lt_le_incl. apply length_lt_brk; [done|]. intros p Hp.
    apply (t_mem _ _ _ _ Htbl). by eapply (seg_live glob).
  - intros z Hz. apply Hv. by rewrite Hel.
Qed.

(** everything in an object *)
Lemma object_children_run h w :
  Inv w → NO h ∈ U → (∀ z, NZ z ∈ succ (NO h) → visits z) →
  ∃ w' V T, object_children get_gc visit (λ _, ret tt) (ret tt) (ret tt) h (hd h) w = Done tt w' ∧ Inv w' ∧
    R w w' (succ (NO h)) V T.
Proof using heap Inv_coarse R_nil R_app.
  intros Hi Hh Hv. unfold object_children. destruct (bucket_now w h (Inv_coarse w Hi) Hh) as (b & b0 & Hb & Hb0 & Hval & _).
  rewrite (bind_Done _ _ _ _ _ (load_bucket_Done _ _ _ Hb)), Hval. cbn [succ] in *. rewrite Hb0 in *.
  destruct (valid b0 && h_get_gc (hd h)) eqn:Hc.
  2: { exists w, [], []. split; [done|]. split; [done|]. by apply R_nil. }
  rewrite (bind_Done _ _ _ _ _ (ho_get_gc heap w h (Inv_coarse w Hi))). unfold children in *.
  destruct (ho_object heap h Hh) as (b1 & Hb1 & Htab). assert (b1 = b0) as -> by congruence. specialize (Htab Hc).
  destruct (content h) as [table props]. cbn [fst snd] in *. erewrite bind_Done by reflexivity.
  rewrite fmap_app in *. destruct (each_slot_run table w Hi) as (w1 & V1 & T1 & Hr1 & Hi1 & HR1).
  { intros z Hz. apply Hv. apply elem_of_app. left. apply list_elem_of_fmap. by exists z. }
  rewrite (bind_Done _ _ _ _ _ Hr1). destruct props as [t|].
  2: { exists w1, V1, T1. cbn [fmap list_fmap]. rewrite app_nil_r. done. }
  erewrite bind_Done by reflexivity.
  destruct (each_element_run t w1 Hi1 (Htab t eq_refl)) as (w2 & V2 & T2 & Hr2 & Hi2 & HR2).
  { intros z Hz. apply Hv. apply elem_of_app. right. apply list_elem_of_fmap. by exists z. }
  exists w2, (V1 ++ V2), (T1 ++ T2). split; [done|]. split; [done|]. exact (R_app _ _ _ _ _ _ _ _ _ HR1 HR2).
Qed.

End lists.
(** ** Marking grey, and going back to black

    Both walks paint everything they reach with one colour, [c0], and add [n] to the
    counts. *)

(** the collector's own pointers are kept *)
Definition erase_color (v : gptr) : gptr := MkGptr (gp_addr v) 0.
Definition colors (w : world) : gstate := abs gp_color w.

(** the counts are those of 32-bit fields *)
Definition rc_range (w : world) : Prop := ∀ x, 0 ≤ rc_of w x < 2 ^ 32.

(** a reference to a value *)
Lemma refer_run er eg n w z :
  coarse w = coarse w0 → NZ z ∈ U →
  ∃ w', add_reference n z w = Done tt w' ∧ shape er eg w' = shape er eg w ∧ (∀ y, word_of w' y = word_of w y) ∧
    (∀ y, u32 (rc_of w' y) = u32 (rc_of w y + count [NZ z] y * n)) ∧ (rc_range w → rc_range w') ∧ gc w' = gc w.
Proof using heap.
  intros Hc Hz. destruct (zval_now w z Hc Hz) as (zv & zv0 & Hzv & _ & Ht & _ & _ & _ & _ & _ & Harr).
  unfold add_reference, load_zval. erewrite bind_Done by (by rewrite Hzv).
  assert (is_symbol_table zv = false) as ->.
  { unfold is_symbol_table. destruct (Z.eqb_spec (zv_type zv) IS_ARRAY) as [E|]; [|done]. cbn.
    apply Z.eqb_neq. by apply Harr. }
  destruct (store_zval_run er eg w z zv (add_zv_refcount n) Hzv eq_refl) as (w' & Hrun & Hs & _ & Hw & Hr & _ & Hg).
  exists w'. split; [done|]. split; [done|]. split; [|split; [|split; [|done]]].
  - intros y. rewrite Hw. destruct (decide (y = NZ z)) as [->|]; [|done]. cbn. by rewrite Hzv.
  - intros y. rewrite Hr, count_one. destruct (decide (y = NZ z)) as [->|].
    + cbn. rewrite Hzv. rewrite u32_idemp. f_equal. lia.
    + f_equal. lia.
  - intros Hgr y. rewrite Hr. destruct (decide (y = NZ z)); [apply u32_range|done].
Qed.

Section paint.
Context (c0 n : Z).

Definition fresh (c : Z) : bool := negb (c =? c0).

Lemma painted (x : node) : fresh c0 = false.
Proof. unfold fresh. by rewrite Z.eqb_refl. Qed.

Definition walk (w w' : world) (xs ex V : list node) : Prop :=
  shape erase_color id w' = shape erase_color id w ∧
  GcGraph.visit succ fresh (λ _, c0) (λ _, n) (colors w) (colors w') xs ex V [] ∧ (rc_range w → rc_range w').

Definition walks_to (w w' : world) (xs V T : list node) : Prop := walk w w' xs xs V ∧ T = [].

(** enough fuel *)
Definition budget (fuel : nat) (w : world) : Prop :=
  coarse w = coarse w0 ∧ (remaining fresh U (colors w) < fuel)%nat ∧ rc_range w.

Lemma budget_coarse fuel w : budget fuel w → coarse w = coarse w0.
Proof. by intros []. Qed.

Lemma walk_nil w : walk w w [] [] [].
Proof. split; [done|]. split; [apply visit_nil|done]. Qed.

Lemma walks_to_nil w : walks_to w w [] [] [].
Proof. split; [apply walk_nil|done]. Qed.

Lemma walks_to_app w1 w2 w3 xs ys V1 V2 T1 T2 :
  walks_to w1 w2 xs V1 T1 → walks_to w2 w3 ys V2 T2 → walks_to w1 w3 (xs ++ ys) (V1 ++ V2) (T1 ++ T2).
Proof.
  intros [(Hs1 & Hv1 & Hg1) ->] [(Hs2 & Hv2 & Hg2) ->]. split; [|done]. split; [congruence|]. split; [|auto].
  exact (visit_app succ fresh (λ _, c0) (λ _, n) painted _ _ _ _ _ _ _ _ _ _ _ Hv1 Hv2).
Qed.

Lemma budget_walk fuel w w' xs ex V : budget fuel w → walk w w' xs ex V → budget fuel w'.
Proof.
  intros (Hc & Hr & Hg) (Hs & Hv & Hg'). split; [apply shape_coarse in Hs; congruence|]. split; [|auto].
  pose proof (remaining_visit succ fresh (λ _, c0) (λ _, n) painted U _ _ _ _ _ _ Hv). lia.
Qed.

Lemma add_reference_run w z :
  coarse w = coarse w0 → NZ z ∈ U →
  ∃ w', add_reference n z w = Done tt w' ∧ shape erase_color id w' = shape erase_color id w ∧
    (∀ y, col (colors w') y = col (colors w) y) ∧
    (∀ y, u32 (rc (colors w') y) = u32 (rc (colors w) y + count [NZ z] y * n)) ∧ (rc_range w → rc_range w').
Proof using heap.
  intros Hc Hz. destruct (refer_run erase_color id n w z Hc Hz) as (w' & Hr & Hs & Hw & Hrc & Hg & _).
  exists w'. split; [done|]. split; [done|]. split; [|done]. intros y. cbn. by rewrite Hw.
Qed.

Lemma enter_zval_run w z zv :
  zvals w !! z = Some zv →
  ∃ w', store_zval z (paint_zval c0) w = Done tt w' ∧ shape erase_color id w' = shape erase_color id w ∧
    (∀ y, col (colors w') y = if decide (y = NZ z) then c0 else col (colors w) y) ∧
    (∀ y, rc_of w' y = rc_of w y) ∧ objects w' = objects w ∧ zvals w' !! z = Some (paint_zval c0 zv).
Proof.
  intros Hzv. destruct (store_zval_run erase_color id w z zv (paint_zval c0) Hzv eq_refl) as (w' & Hrun & Hs & Hz & Hw & Hr & Ho & _).
  exists w'. split; [done|]. split; [done|]. split; [|split; [|done]].
  - intros y. cbn. rewrite Hw. by destruct (decide (y = NZ z)).
  - intros y. rewrite Hr. destruct (decide (y = NZ z)) as [->|]; [|done]. cbn. by rewrite Hzv.
Qed.

Lemma enter_bucket_run w h b :
  bucket_at (objects w) h = Some b →
  ∃ w', store_bucket h (paint_bucket c0) w = Done tt w' ∧ shape erase_color id w' = shape erase_color id w ∧
    (∀ y, col (colors w') y = if decide (y = NO h) then c0 else col (colors w) y) ∧
    (∀ y, rc_of w' y = rc_of w y).
Proof.
  intros Hb. destruct (store_bucket_run erase_color id w h b (paint_bucket c0) Hb eq_refl) as (w' & Hrun & Hs & _ & Hw & Hr & _).
  exists w'. split; [done|]. split; [done|]. split.
  - intros y. cbn. rewrite Hw. by destruct (decide (y = NO h)).
  - intros y. rewrite Hr. destruct (decide (y = NO h)) as [->|]; [|done]. cbn. by rewrite Hb.
Qed.

Lemma count_bucket_run w h b :
  bucket_at (objects w) h = Some b →
  ∃ w', store_bucket h (add_refcount n) w = Done tt w' ∧ shape erase_color id w' = shape erase_color id w ∧
    (∀ y, col (colors w') y = col (colors w) y) ∧
    (∀ y, u32 (rc (colors w') y) = u32 (rc (colors w) y + count [NO h] y * n)) ∧
    bucket_at (objects w') h = Some (add_refcount n b) ∧ (rc_range w → rc_range w').
Proof.
  intros Hb. destruct (store_bucket_run erase_color id w h b (add_refcount n) Hb eq_refl) as (w' & Hrun & Hs & Hb' & Hw & Hr & _).
  exists w'. split; [done|]. split; [done|]. split; [|split; [|split; [done|]]].
  - intros y. cbn. rewrite Hw. destruct (decide (y = NO h)) as [->|]; [|done]. cbn. by rewrite Hb.
  - intros y. cbn [rc colors abs]. rewrite Hr, count_one. destruct (decide (y = NO h)) as [->|].
    + cbn. rewrite Hb. rewrite u32_idemp. f_equal. lia.
    + f_equal. lia.
  - intros Hg y. rewrite Hr. destruct (decide (y = NO h)); [apply u32_range|done].
Qed.

(** painting an object and walking through it *)
Lemma object_walk visit fuel h b w :
  budget fuel w → NO h ∈ U → bucket_at (objects w) h = Some b → bucket_color b ≠ c0 →
  (∀ z, NZ z ∈ U → visits (budget fuel) walks_to visit z) →
  ∃ w' V, (store_bucket h (paint_bucket c0) ;;;
      object_children get_gc visit (λ _, ret tt) (ret tt) (ret tt) h (hd h))%eff w = Done tt w' ∧
    budget fuel w' ∧ walk w w' [NO h] [] V.
Proof using heap.
  intros Hb Hh Hbk Hcol Hv. destruct (enter_bucket_run w h b Hbk) as (w1 & Hrun1 & Hs1 & Hc1 & Hr1).
  assert (Hfr : fresh (col (colors w) (NO h)) = true).
  { unfold fresh. cbn. rewrite Hbk. apply negb_true_iff, Z.eqb_neq. exact Hcol. }
  assert (Hb1 : budget fuel w1).
  { destruct Hb as (Hco & Hrem & Hg). split; [apply shape_coarse in Hs1; congruence|].
    split; [|intros y; rewrite Hr1; apply Hg].
    pose proof (remaining_paint fresh (λ _, c0) painted U _ _ (NO h) Hh Hfr Hc1). lia. }
  destruct (object_children_run (budget fuel) walks_to (budget_coarse fuel) (λ w _, walks_to_nil w) walks_to_app visit h w1 Hb1 Hh)
    as (w2 & V & T & Hrun2 & Hb2 & [(Hs2 & Hv2 & Hg2) _]).
  { intros z Hz. apply Hv. by eapply (ho_closed heap (NO h)). }
  exists w2, (NO h :: V). split; [by rewrite (bind_Done _ _ _ _ _ Hrun1)|]. split; [done|]. split; [congruence|].
  split; [|intros _; apply Hb2].
  apply (visit_node succ fresh (λ _, c0) (λ _, n) painted _ (colors w1)); try done. intros y. cbn. by rewrite Hr1.
Qed.

(** what remains after a value was painted *)
Lemma budget_enter fuel w w1 x :
  budget (S fuel) w → x ∈ U → fresh (col (colors w) x) = true → shape erase_color id w1 = shape erase_color id w →
  (∀ y, col (colors w1) y = if decide (y = x) then c0 else col (colors w) y) → rc_range w1 → budget fuel w1.
Proof.
  intros (Hco & Hrem & _) Hx Hfr Hs1 Hc1 Hg. split; [apply shape_coarse in Hs1; congruence|]. split; [|done].
  pose proof (remaining_paint fresh (λ _, c0) painted U _ _ x Hx Hfr Hc1). lia.
Qed.

(** counting a reference and then walking *)
Lemma child_visits fuel (m : ptr → W unit) z :
  NZ z ∈ U →
  (∀ w, budget fuel w → ∃ w' V, m z w = Done tt w' ∧ walk w w' [NZ z] [] V) →
  visits (budget fuel) walks_to (λ pz, add_reference n pz ;;; m pz)%eff z.
Proof using heap.
  intros Hz Hm w Hb. destruct (add_reference_run w z (budget_coarse _ _ Hb) Hz) as (w1 & Hr1 & Hs1 & Hc1 & Hrc1 & Hg1).
  assert (Hi : walk w w1 [] [NZ z] []).
  { split; [done|]. split; [|done]. apply visit_idle; [done|]. intros y. rewrite Hrc1, count_nil. f_equal. lia. }
  pose proof (budget_walk _ _ _ _ _ _ Hb Hi) as Hb1. destruct (Hm w1 Hb1) as (w2 & V & Hr2 & Hw2).
  exists w2, V, []. split; [by rewrite (bind_Done _ _ _ _ _ Hr1)|]. split; [by eapply budget_walk|]. split; [|done].
  destruct Hw2 as (Hs2 & Hv2 & Hg2). split; [congruence|]. split; [|auto]. by apply (visit_count succ fresh (λ _, c0) (λ _, n) painted _ (colors w1)).
Qed.

(** what a walk does with a value, once it is painted *)
Definition walk_body (visit : ptr → W unit) (sym : W unit) (zv : zval_gc_info) : W unit :=
  (let! st := gets objects in
   if is_stored_object zv st then
     store_bucket (zv_handle zv) (add_refcount n) ;;;
     let! b := load_bucket (zv_handle zv) in
     if negb (bucket_color b =? c0) then
       store_bucket (zv_handle zv) (paint_bucket c0) ;;;
       object_children get_gc visit (λ _, ret tt) (ret tt) (ret tt) (zv_handle zv) (zv_ht zv)
     else ret tt
   else if zv_type zv =? IS_ARRAY then
     if zv_arr zv =? SYMBOL_TABLE then sym else each_element visit (zv_arr zv)
   else ret tt)%eff.

Lemma walk_body_run visit sym fuel z zv w :
  budget fuel w → NZ z ∈ U → zvals w !! z = Some zv → (∀ z, NZ z ∈ U → visits (budget fuel) walks_to visit z) →
  ∃ w' V, walk_body visit sym zv w = Done tt w' ∧ walk w w' (succ (NZ z)) (succ (NZ z)) V.
Proof using heap.
  intros Hb Hz Hzv Hv. unfold walk_body. erewrite bind_Done by reflexivity.
  destruct (zval_now w z (budget_coarse _ _ Hb) Hz) as (zv' & zv0 & Hzv' & Hzv0 & Ht & Hh & Hht & Ha & Hst & Hobj & Harr).
  assert (zv' = zv) as -> by congruence. cbn [succ]. rewrite Hzv0, Hst, <-Ht, <-Hh, <-Ha.
  assert (Hclosed : ∀ y, y ∈ succ (NZ z) → y ∈ U) by (intros y; by apply (ho_closed heap)).
  cbn [succ] in Hclosed. rewrite Hzv0, <-Ht, <-Hh, <-Ha in Hclosed.
  destruct (is_stored_object zv0 (objects w0)) eqn:Hso.
  - destruct (Hobj eq_refl) as [Hht' HhU]. rewrite Hht'.
    destruct (bucket_now w (zv_handle zv) (budget_coarse _ _ Hb) HhU) as (b & _ & Hbk & _).
    destruct (count_bucket_run w _ b Hbk) as (w1 & Hr1 & Hs1 & Hc1 & Hrc1 & Hbk1 & Hg1).
    assert (Hi : walk w w1 [] [NO (zv_handle zv)] []).
    { split; [done|]. split; [|done]. apply visit_idle; [done|]. intros y. rewrite Hrc1, count_nil. f_equal. lia. }
    pose proof (budget_walk _ _ _ _ _ _ Hb Hi) as Hb1.
    rewrite (bind_Done _ _ _ _ _ Hr1), (bind_Done _ _ _ _ _ (load_bucket_Done _ _ _ Hbk1)).
    assert (Hfin : ∀ w' V, walk w1 w' [NO (zv_handle zv)] [] V → walk w w' [NO (zv_handle zv)] [NO (zv_handle zv)] V).
    { intros w' V (Hs2 & Hv2 & Hg2). split; [congruence|]. split; [|auto]. by apply (visit_count succ fresh (λ _, c0) (λ _, n) painted _ (colors w1)). }
    destruct (Z.eqb_spec (bucket_color (add_refcount n b)) c0) as [Hcol|Hcol]; cbn [negb].
    + exists w1, []. split; [done|]. apply Hfin. split; [done|]. split; [|done]. apply visit_skip. unfold fresh. cbn [col colors abs word_of].
      rewrite Hbk1. apply negb_false_iff, Z.eqb_eq. exact Hcol.
    + destruct (object_walk visit fuel (zv_handle zv) _ w1 Hb1 HhU Hbk1 Hcol Hv) as (w2 & V & Hr2 & _ & Hw2).
      exists w2, V. split; [exact Hr2|]. by apply Hfin.
  - destruct (Z.eqb_spec (zv_type zv) IS_ARRAY) as [Harray|].
    + destruct (Harr Harray) as [Hsym Htab]. apply Z.eqb_neq in Hsym. rewrite Hsym.
      destruct (each_element_run (budget fuel) walks_to (budget_coarse fuel) (λ w _, walks_to_nil w) walks_to_app visit (zv_arr zv) w Hb Htab)
        as (w2 & V & T & Hr2 & _ & [Hw2 _]).
      { intros z' Hz'. apply Hv. apply Hclosed. apply list_elem_of_fmap. by exists z'. }
      by exists w2, V.
    + exists w, []. split; [done|]. apply walk_nil.
Qed.

(** entering a value that is not painted yet *)
Lemma zval_walk visit sym fuel z zv w :
  budget (S fuel) w → NZ z ∈ U → zvals w !! z = Some zv → gp_color (zv_u zv) ≠ c0 →
  (∀ z, NZ z ∈ U → visits (budget fuel) walks_to visit z) →
  ∃ w1, store_zval z (paint_zval c0) w = Done tt w1 ∧ zvals w1 !! z = Some (paint_zval c0 zv) ∧
  ∃ w' V, walk_body visit sym (paint_zval c0 zv) w1 = Done tt w' ∧ walk w w' [NZ z] [] V.
Proof using heap.
  intros Hb Hz Hzv Hcol Hv. destruct (enter_zval_run w z zv Hzv) as (w1 & Hr1 & Hs1 & Hc1 & Hrc1 & _ & Hz1).
  exists w1. split; [done|]. split; [done|].
  assert (Hfr : fresh (col (colors w) (NZ z)) = true).
  { unfold fresh. cbn. rewrite Hzv. by apply negb_true_iff, Z.eqb_neq. }
  assert (Hg1 : rc_range w1) by (intros y; rewrite Hrc1; apply Hb).
  pose proof (budget_enter fuel w w1 _ Hb Hz Hfr Hs1 Hc1 Hg1) as Hb1.
  destruct (walk_body_run visit sym fuel z _ w1 Hb1 Hz Hz1 Hv) as (w2 & V & Hr2 & Hs2 & Hv2 & Hg2).
  exists w2, (NZ z :: V). split; [done|]. split; [congruence|]. split; [|auto].
  apply (visit_node succ fresh (λ _, c0) (λ _, n) painted _ (colors w1)); try done. intros y. cbn. by rewrite Hrc1.
Qed.

End paint.

(** ** The walks *)

Lemma load_zval_now w z zv : zvals w !! z = Some zv → load_zval z w = Done zv w.
Proof. intros Hz. unfold load_zval. by rewrite Hz. Qed.

(** what is painted already is left alone *)
Lemma walk_skip c0 n w x : gp_color (word_of w x) = c0 → walk c0 n w w [x] [] [].
Proof.
  intros Hc. split; [done|]. split; [|done]. apply visit_skip. unfold fresh, colors, abs, col. rewrite Hc. apply negb_false_iff, Z.eqb_refl.
Qed.

Lemma zval_mark_grey_run fuel z w :
  budget GC_GREY fuel w → NZ z ∈ U →
  ∃ w' V, zval_mark_grey get_gc fuel z w = Done tt w' ∧ walk GC_GREY (-1) w w' [NZ z] [] V.
Proof using heap.
  revert z w. induction fuel as [|fuel IH]; intros z w Hb Hz; [destruct Hb; lia|]. cbn [zval_mark_grey].
  destruct (zval_now w z (budget_coarse _ _ _ Hb) Hz) as (zv & _ & Hzv & _).
  rewrite (bind_Done _ _ _ _ _ (load_zval_now _ _ _ Hzv)). unfold GC_ZVAL_GET_COLOR, GC_GET_COLOR.
  destruct (Z.eqb_spec (gp_color (zv_u zv)) GC_GREY) as [Hc|Hc]; cbn [negb].
  { exists w, []. split; [done|]. apply walk_skip. cbn. by rewrite Hzv. }
  destruct (zval_walk GC_GREY (-1) (grey_child get_gc fuel) (store_zval z (paint_zval GC_BLACK)) fuel z zv w Hb Hz Hzv Hc)
    as (w1 & Hr1 & _ & w2 & V & Hr2 & Hw2).
  { intros z' Hz'. by apply child_visits; [|intros; apply IH]. }
  exists w2, V. split; [|done]. rewrite (bind_Done _ _ _ _ _ Hr1). exact Hr2.
Qed.

Lemma zobj_mark_grey_run fuel h w :
  budget GC_GREY fuel w → NO h ∈ U →
  ∃ w' V, zobj_mark_grey get_gc fuel h (hd h) w = Done tt w' ∧ walk GC_GREY (-1) w w' [NO h] [] V.
Proof using heap.
  intros Hb Hh. unfold zobj_mark_grey, grey_object. destruct (bucket_now w h (budget_coarse _ _ _ Hb) Hh) as (b & _ & Hbk & _).
  rewrite (bind_Done _ _ _ _ _ (load_bucket_Done _ _ _ Hbk)).
  destruct (Z.eqb_spec (bucket_color b) GC_GREY) as [Hc|Hc]; cbn [negb].
  { exists w, []. split; [done|]. apply walk_skip. cbn. by rewrite Hbk. }
  destruct (object_walk GC_GREY (-1) (grey_child get_gc fuel) fuel h b w Hb Hh Hbk Hc) as (w' & V & Hr & _ & Hw); [|by exists w', V].
  intros z' Hz'. by apply child_visits; [|intros; apply zval_mark_grey_run].
Qed.

Lemma black_child_visits fuel z :
  NZ z ∈ U → (∀ w, budget GC_BLACK fuel w → gp_color (word_of w (NZ z)) ≠ GC_BLACK →
    ∃ w' V, zval_scan_black get_gc fuel z w = Done tt w' ∧ walk GC_BLACK 1 w w' [NZ z] [] V) →
  visits (budget GC_BLACK fuel) (walks_to GC_BLACK 1) (black_child get_gc fuel) z.
Proof using heap.
  intros Hz Hm. apply child_visits; [done|]. intros w Hb. destruct (zval_now w z (budget_coarse _ _ _ Hb) Hz) as (zv & _ & Hzv & _).
  rewrite (bind_Done _ _ _ _ _ (load_zval_now _ _ _ Hzv)). unfold GC_ZVAL_GET_COLOR, GC_GET_COLOR.
  specialize (Hm w Hb). cbn in Hm. rewrite Hzv in Hm.
  destruct (Z.eqb_spec (gp_color (zv_u zv)) GC_BLACK) as [Hc|Hc]; cbn [negb]; [|by apply Hm].
  exists w, []. split; [done|]. apply walk_skip. cbn. by rewrite Hzv.
Qed.

Lemma zval_scan_black_run fuel z w :
  budget GC_BLACK fuel w → NZ z ∈ U → gp_color (word_of w (NZ z)) ≠ GC_BLACK →
  ∃ w' V, zval_scan_black get_gc fuel z w = Done tt w' ∧ walk GC_BLACK 1 w w' [NZ z] [] V.
Proof using heap.
  revert z w. induction fuel as [|fuel IH]; intros z w Hb Hz Hc; [destruct Hb; lia|]. cbn [zval_scan_black].
  destruct (zval_now w z (budget_coarse _ _ _ Hb) Hz) as (zv & _ & Hzv & _). cbn [word_of] in Hc. rewrite Hzv in Hc.
  destruct (zval_walk GC_BLACK 1 (black_child get_gc fuel) (ret tt) fuel z zv w Hb Hz Hzv Hc) as (w1 & Hr1 & Hz1 & w2 & V & Hr2 & Hw2).
  { intros z' Hz'. apply black_child_visits; [done|]. intros. by apply IH. }
  exists w2, V. split; [|done]. rewrite (bind_Done _ _ _ _ _ Hr1).
  rewrite (bind_Done _ _ _ _ _ (load_zval_now _ _ _ Hz1)). exact Hr2.
Qed.

Lemma zobj_scan_black_run fuel h w :
  budget GC_BLACK fuel w → NO h ∈ U → gp_color (word_of w (NO h)) ≠ GC_BLACK →
  ∃ w' V, zobj_scan_black get_gc fuel h (hd h) w = Done tt w' ∧ walk GC_BLACK 1 w w' [NO h] [] V.
Proof using heap.
  intros Hb Hh Hc. unfold zobj_scan_black, black_object. destruct (bucket_now w h (budget_coarse _ _ _ Hb) Hh) as (b & _ & Hbk & _).
  cbn in Hc. rewrite Hbk in Hc.
  destruct (object_walk GC_BLACK 1 (black_child get_gc fuel) fuel h b w Hb Hh Hbk Hc) as (w' & V & Hr & _ & Hw); [|by exists w', V].
  intros z' Hz'. apply black_child_visits; [done|]. intros. by apply zval_scan_black_run.
Qed.

End graph.
