(* ===== verification/GcScan.v ===== *)
(** * Scanning: what is still referenced goes back to black

    [zval_scan] walks through the grey nodes [S].  What has references from outside is
    walked back to black with all that it reaches, and its references are counted again;
    the rest stays white. *)

From stdpp Require Import relations.
From S2P Require Import Prelude DList HashModel HashRepr ObjModel ObjSpec GcModel GcGraph GcSpec.
Local Open Scope Z_scope.

Section scan.
Context (get_gc : zend_object_handlers → Z → W (list (option ptr) * option Z)).
Context (w0 : world) (content : Z → list (option ptr) * option Z) (hd : Z → zend_object_handlers).
Context (elts : Z → list ptr) (U : list node).
Hypothesis heap : heap_ok get_gc w0 content hd elts U.
Local Abbreviation succ := (GcSpec.succ w0 content hd elts).
Implicit Types (w : world) (z pz : ptr) (zv : zval_gc_info) (b : object_bucket) (h : Z).

(** the nodes that were marked grey, with the references that remained *)
Context (S : list node) (rcM : node → Z).
Hypothesis S_U : ∀ x, x ∈ S → x ∈ U.
Hypothesis S_closed : ∀ x y, x ∈ S → y ∈ succ x → y ∈ S.
Hypothesis rc_bounds : ∀ y, y ∈ S → 0 ≤ rcM y ∧ rcM y + edges succ S y < 2 ^ 32.

Local Abbreviation ok := (scan_ok succ GC_BLACK GC_WHITE GC_GREY S rcM).
Local Abbreviation scanned := (GcGraph.scanned succ GC_GREY S).

Definition is_grey (c : Z) : bool := c =? GC_GREY.

Lemma three_colors : GC_BLACK ≠ GC_WHITE ∧ GC_BLACK ≠ GC_GREY ∧ GC_WHITE ≠ GC_GREY.
Proof. done. Qed.

Record scan_inv (fuel : nat) (w : world) : Prop := {
  si_coarse : coarse w = coarse w0;
  si_range : rc_range w;
  si_fuel : (remaining is_grey U (colors w) < fuel)%nat;
  si_ok : ∃ B, ok (colors w) B
}.

Definition scans (w w' : world) (xs V T : list node) : Prop :=
  shape erase_color id w' = shape erase_color id w ∧ (∀ x, x ∈ xs → x ∈ S) ∧ scanned (colors w) (colors w') xs.

Lemma scans_nil w : scans w w [] [] [].
Proof. split; [done|]. split; [by intros ? ?%elem_of_nil|]. apply scanned_nil. Qed.

Lemma scans_app w1 w2 w3 xs ys V1 V2 T1 T2 :
  scans w1 w2 xs V1 T1 → scans w2 w3 ys V2 T2 → scans w1 w3 (xs ++ ys) (V1 ++ V2) (T1 ++ T2).
Proof using S_closed rc_bounds.
  intros (Hs1 & Hx1 & H1) (Hs2 & Hx2 & H2). split; [congruence|]. split; [intros x [?|?]%elem_of_app; auto|].
  by eapply (scanned_app succ _ _ _ S rcM three_colors S_closed rc_bounds).
Qed.

Lemma scan_inv_weaken fuel w : scan_inv fuel w → scan_inv (Datatypes.S fuel) w.
Proof. intros []. split; try done. lia. Qed.

(** no node becomes grey *)
Lemma scanned_greys w w' xs : scanned (colors w) (colors w') xs →
  (remaining is_grey U (colors w') ≤ remaining is_grey U (colors w))%nat.
Proof.
  intros Hsc. apply filter_length_le. intros y Hy. unfold is_grey in *. apply Z.eqb_eq in Hy. apply Z.eqb_eq.
  destruct (decide (y ∈ S)) as [Hin|Hin]; [|by rewrite <-(sc_other _ _ _ _ _ _ Hsc)].
  destruct (decide (col (colors w) y = GC_GREY)) as [|Hne]; [done|]. by destruct (sc_stays _ _ _ _ _ _ Hsc y Hin Hne).
Qed.

(** painting a grey node white that has no references left *)
Lemma white_inv fuel w w1 x :
  scan_inv (Datatypes.S fuel) w → x ∈ S → gp_color (word_of w x) = GC_GREY → rc_of w x = 0 →
  shape erase_color id w1 = shape erase_color id w →
  (∀ y, col (colors w1) y = if decide (y = x) then GC_WHITE else col (colors w) y) → (∀ y, rc_of w1 y = rc_of w y) →
  scan_inv fuel w1.
Proof using S_U S_closed rc_bounds.
  intros [Hc Hg Hf [B Hok]] Hx Hgrey Hrc Hs Hcol Hr. split.
  - apply shape_coarse in Hs. congruence.
  - intros y. rewrite Hr. apply Hg.
  - assert (remaining is_grey U (colors w1) < remaining is_grey U (colors w))%nat; [|lia].
    apply (remaining_paint is_grey (λ _, GC_WHITE) (λ _, eq_refl) U _ _ x); [by apply S_U| |done]. by apply Z.eqb_eq.
  - exists B. eapply (scan_paint succ GC_BLACK GC_WHITE GC_GREY S rcM three_colors S_closed rc_bounds); try done.
Qed.

Lemma scans_node w w1 w' x V T :
  x ∈ S → shape erase_color id w1 = shape erase_color id w →
  (∀ y, col (colors w1) y = if decide (y = x) then GC_WHITE else col (colors w) y) →
  scans w1 w' (succ x) V T → scans w w' [x] V T.
Proof using S_closed rc_bounds.
  intros Hx Hs Hcol (Hs' & _ & Hsc). split; [congruence|]. split; [by intros ? ->%list_elem_of_singleton|].
  by eapply (scanned_node succ GC_BLACK GC_WHITE GC_GREY S rcM three_colors S_closed rc_bounds).
Qed.

Lemma scans_skip w x : x ∈ S → gp_color (word_of w x) ≠ GC_GREY → scans w w [x] [] [].
Proof. intros Hx Hc. split; [done|]. split; [by intros ? ->%list_elem_of_singleton|]. by apply scanned_skip. Qed.

(** the fuel of the walks back to black *)
Context (nb : nat).
Hypothesis nb_enough : (length U < nb)%nat.

(** walking back to black from a grey node that is still referenced *)
Lemma back_run fuel x w (m : W unit) :
  scan_inv fuel w → x ∈ S → gp_color (word_of w x) = GC_GREY → 0 < rc_of w x →
  (budget w0 U GC_BLACK nb w → gp_color (word_of w x) ≠ GC_BLACK →
    ∃ w' V, m w = Done tt w' ∧ walk w0 content hd elts GC_BLACK 1 w w' [x] [] V) →
  ∃ w', m w = Done tt w' ∧ scan_inv fuel w' ∧ scans w w' [x] [] [].
Proof using S_closed rc_bounds nb_enough.
  intros [Hc Hg Hf [B Hok]] Hx Hgrey Hrc Hm. destruct Hm as (w' & V & Hr & Hs & Hv & Hg').
  { split; [done|]. split; [|done]. eapply Nat.le_lt_trans; [|exact nb_enough]. apply length_filter. }
  { by rewrite Hgrey. }
  pose proof (scan_back succ GC_BLACK GC_WHITE GC_GREY S rcM three_colors S_closed rc_bounds
    _ _ B x V Hok Hx Hgrey ltac:(split; [done|apply Hg]) Hv) as [Hok' Hsc].
  exists w'. split; [done|]. split; split.
  - apply shape_coarse in Hs. congruence.
  - auto.
  - pose proof (scanned_greys _ _ _ Hsc). lia.
  - by exists (V ++ B).
  - done.
  - split; [by intros ? ->%list_elem_of_singleton|done].
Qed.

Lemma scan_object_run visit fuel h w :
  scan_inv fuel w → NO h ∈ S → (∀ z, NZ z ∈ S → visits (scan_inv fuel) scans visit z) →
  ∃ w' V T, scan_object get_gc nb visit h (hd h) w = Done tt w' ∧ scan_inv fuel w' ∧ scans w w' [NO h] V T.
Proof using heap S_U S_closed rc_bounds nb_enough.
  intros Hi Hh Hv. pose proof (si_coarse _ _ Hi) as Hc. destruct (bucket_now _ _ _ _ _ _ heap w h Hc (S_U _ Hh)) as (b & _ & Hb & _).
  unfold scan_object. rewrite (bind_Done _ _ _ _ _ (load_bucket_Done _ _ _ Hb)).
  assert (Hw : word_of w (NO h) = o_buffered (b_obj b)) by (cbn; by rewrite Hb).
  assert (Hrc : rc_of w (NO h) = o_refcount (b_obj b)) by (cbn; by rewrite Hb).
  unfold bucket_color, GC_GET_COLOR. destruct (Z.eqb_spec (gp_color (o_buffered (b_obj b))) GC_GREY) as [Hcol|Hcol].
  2: { exists w, [], []. split; [done|]. split; [done|]. apply scans_skip; [done|]. by rewrite Hw. }
  rewrite <-Hw in Hcol. rewrite <-Hrc. destruct (rc_of w (NO h) >? 0) eqn:Hgt.
  - destruct (back_run fuel (NO h) w (zobj_scan_black get_gc nb h (hd h)) Hi Hh Hcol) as (w' & Hr & Hi' & Hs); [lia| |by exists w', [], []].
    intros. by apply (zobj_scan_black_run _ _ _ _ _ _ heap); auto.
  - assert (H0 : rc_of w (NO h) = 0) by (pose proof (si_range _ _ Hi (NO h)); lia).
    destruct (enter_bucket_run GC_WHITE w h b Hb) as (w1 & Hr1 & Hs1 & Hc1 & Hrc1). rewrite (bind_Done _ _ _ _ _ Hr1).
    assert (Hi1 : scan_inv fuel w1) by (eapply white_inv; [by apply scan_inv_weaken|done..]).
    destruct (object_children_run _ _ _ _ _ _ heap (scan_inv fuel) scans (si_coarse fuel) (λ w _, scans_nil w) scans_app
      visit h w1 Hi1 (S_U _ Hh)) as (w2 & V & T & Hr2 & Hi2 & HR2).
    { intros z Hz. apply Hv. by eapply S_closed. }
    exists w2, V, T. split; [done|]. split; [done|]. by eapply scans_node.
Qed.

Lemma zval_scan_run fuel z w :
  scan_inv fuel w → NZ z ∈ S →
  ∃ w' V T, zval_scan get_gc nb fuel z w = Done tt w' ∧ scan_inv fuel w' ∧ scans w w' [NZ z] V T.
Proof using heap S_U S_closed rc_bounds nb_enough.
  revert z w. induction fuel as [|fuel IH]; intros z w Hi Hz; [destruct Hi; lia|]. cbn [zval_scan].
  pose proof (si_coarse _ _ Hi) as Hc. destruct (zval_now _ _ _ _ _ _ heap w z Hc (S_U _ Hz)) as (zv & _ & Hzv & _).
  rewrite (bind_Done _ _ _ _ _ (load_zval_now _ _ _ Hzv)). unfold GC_ZVAL_GET_COLOR, GC_GET_COLOR.
  assert (Hw : word_of w (NZ z) = zv_u zv) by (cbn; by rewrite Hzv).
  assert (Hrc : rc_of w (NZ z) = zv_refcount zv) by (cbn; by rewrite Hzv).
  destruct (Z.eqb_spec (gp_color (zv_u zv)) GC_GREY) as [Hcol|Hcol].
  2: { exists w, [], []. split; [done|]. split; [done|]. apply scans_skip; [done|]. by rewrite Hw. }
  rewrite <-Hw in Hcol. rewrite <-Hrc. destruct (rc_of w (NZ z) >? 0) eqn:Hgt.
  { destruct (back_run (Datatypes.S fuel) (NZ z) w (zval_scan_black get_gc nb z) Hi Hz Hcol) as (w' & Hr & Hi' & Hs); [lia| |by exists w', [], []].
    intros. by apply (zval_scan_black_run _ _ _ _ _ _ heap); auto. }
  assert (H0 : rc_of w (NZ z) = 0) by (pose proof (si_range _ _ Hi (NZ z)); lia).
  destruct (enter_zval_run GC_WHITE w z zv Hzv) as (w1 & Hr1 & Hs1 & Hc1 & Hrc1 & Ho1 & Hz1). rewrite (bind_Done _ _ _ _ _ Hr1).
  assert (Hi1 : scan_inv fuel w1) by (by eapply white_inv).
  erewrite bind_Done by reflexivity. rewrite Ho1.
  destruct (zval_now _ _ _ _ _ _ heap w z Hc (S_U _ Hz)) as (zv' & zv0 & Hzv' & Hzv0 & Ht & Hh & Hht & Ha & Hst & Hobj & Harr).
  assert (zv' = zv) as -> by congruence. rewrite Hst.
  assert (Hfin : ∀ w' V T, scan_inv fuel w' → scans w1 w' (succ (NZ z)) V T →
    scan_inv (Datatypes.S fuel) w' ∧ scans w w' [NZ z] V T).
  { intros w' V T Hi' HR. split; [by apply scan_inv_weaken|by eapply scans_node]. }
  assert (Hcl : ∀ y, y ∈ succ (NZ z) → y ∈ S) by (intros y; by apply S_closed).
  unfold succ in Hfin, Hcl. cbn [GcSpec.succ] in Hfin, Hcl. rewrite Hzv0 in Hfin, Hcl.
  destruct (is_stored_object zv0 (objects w0)).
  - destruct (Hobj eq_refl) as [-> _]. rewrite <-Hh in Hfin, Hcl.
    destruct (scan_object_run (zval_scan get_gc nb fuel) fuel (zv_handle zv) w1 Hi1) as (w2 & V & T & Hr2 & Hi2 & HR2).
    { apply Hcl. left. } { intros z' Hz' w' Hi'. by apply IH. }
    exists w2, V, T. split; [done|]. by apply Hfin.
  - rewrite <-Ht, <-Ha in Hfin, Hcl. destruct (Z.eqb_spec (zv_type zv) IS_ARRAY) as [Harray|].
    + destruct (Harr Harray) as [Hsym Htab]. apply Z.eqb_neq in Hsym. rewrite Hsym.
      destruct (each_element_run _ _ (scan_inv fuel) scans (si_coarse fuel) (λ w _, scans_nil w) scans_app
        (zval_scan get_gc nb fuel) (zv_arr zv) w1 Hi1 Htab) as (w2 & V & T & Hr2 & Hi2 & HR2).
      { intros z' Hz' w' Hi'. apply IH; [done|]. apply Hcl. apply list_elem_of_fmap. by exists z'. }
      exists w2, V, T. split; [done|]. by apply Hfin.
    + exists w1, [], []. split; [done|]. apply Hfin; [done|]. apply scans_nil.
Qed.

Lemma zobj_scan_run fuel h w :
  scan_inv fuel w → NO h ∈ S → bool_decide (object_buckets (objects w) ≠ None) = true →
  ∃ w' V T, zobj_scan get_gc nb fuel h (hd h) w = Done tt w' ∧ scan_inv fuel w' ∧ scans w w' [NO h] V T.
Proof using heap S_U S_closed rc_bounds nb_enough.
  intros Hi Hh Hst. unfold zobj_scan. erewrite bind_Done by reflexivity. rewrite Hst.
  apply scan_object_run; [done..|]. intros z Hz w' Hi'. by apply zval_scan_run.
Qed.

End scan.
