(* ===== verification/GcCollect.v ===== *)
(** * Collecting: the list of values to free

    [zval_collect_white] walks through what is white and of no root, counts the
    references it finds again, and puts each value into the list to free, once and with
    one reference more. *)

From stdpp Require Import relations.
From S2P Require Import Prelude DList HashModel HashRepr ObjModel ObjSpec GcModel GcGraph GcSpec.
Local Open Scope Z_scope.

(** the list threaded through [u.next] from [GC_G(zval_to_free)] *)
Fixpoint to_free (w : world) (o : option ptr) (l : list ptr) : Prop :=
  match l with
  | [] => o = Some FREE_LIST_END
  | z :: l' => o = Some z ∧ ∃ next, word_of w (NZ z) = MkGptr (GOther next) GC_BLACK ∧ to_free w (Some next) l'
  end.
Definition chain (w : world) (l : list ptr) : Prop := to_free w (zval_to_free (gc w)) l.

(** what the walk looks at *)
Definition white_mark (v : gptr) : Z := if is_white v then 1 else 0.
Definition whites (w : world) : gstate := abs white_mark w.
Definition is_one (c : Z) : bool := c =? 1.
(** only the references to values are counted *)
Definition counted (n : node) : Z := match n with NZ _ => 1 | NO _ => 0 end.
Definition values (l : list node) : list ptr := omap (λ n, match n with NZ z => Some z | NO _ => None end) l.
Definition bare : world → _ := shape (λ _, gnull) (set_zval_to_free None).

Lemma elem_of_values z l : z ∈ values l ↔ NZ z ∈ l.
Proof.
  unfold values. rewrite list_elem_of_omap. split.
  - by intros ([] & Hin & [= ->]).
  - intros Hin. by exists (NZ z).
Qed.

Lemma values_app l1 l2 : values (l1 ++ l2) = values l1 ++ values l2.
Proof. apply omap_app. Qed.

Lemma values_nodup l : NoDup l → NoDup (values l).
Proof.
  induction 1 as [|[z|h] l Hn _ IH]; [constructor| |done]. cbn. apply NoDup_cons. split; [|done]. by rewrite elem_of_values.
Qed.

Definition is_value (n : node) : Prop := match n with NZ _ => True | NO _ => False end.
#[export] Instance is_value_dec n : Decision (is_value n).
Proof. destruct n; cbn; apply _. Defined.

Lemma values_filter l : values (filter is_value l) = values l.
Proof.
  induction l as [|[z|h] l IH]; [done|rewrite filter_cons_True by done; cbn; by f_equal|by rewrite filter_cons_False by (by intros [])].
Qed.

Lemma fresh_white w x : is_one (col (whites w) x) = true ↔ is_white (word_of w x) = true.
Proof. unfold whites, abs, white_mark, is_one. cbn. by destruct (is_white _). Qed.

Lemma is_one_0 : node → is_one 0 = false.
Proof. done. Qed.

Lemma to_free_words w w' o l :
  (∀ z, z ∈ l → word_of w' (NZ z) = word_of w (NZ z)) → to_free w o l → to_free w' o l.
Proof.
  revert o. induction l as [|z l IH]; intros o Hw; [done|]. intros (-> & next & Hz & Hl). split; [done|]. exists next.
  rewrite Hw by left. split; [done|]. apply IH; [|done]. intros z' Hz'. apply Hw. by right.
Qed.

Lemma to_free_black w o l z : to_free w o l → z ∈ l → is_white (word_of w (NZ z)) = false.
Proof.
  revert o. induction l as [|z' l IH]; intros o; [by intros _ ?%elem_of_nil|].
  intros (_ & next & Hz & Hl) [->|Hin]%elem_of_cons; [by rewrite Hz|by eapply IH].
Qed.

Section collect.
Context (get_gc : zend_object_handlers → Z → W (list (option ptr) * option Z)).
Context (w0 : world) (content : Z → list (option ptr) * option Z) (hd : Z → zend_object_handlers).
Context (elts : Z → list ptr) (U : list node).
Hypothesis heap : heap_ok get_gc w0 content hd elts U.
Local Abbreviation succ := (GcSpec.succ w0 content hd elts).
Local Abbreviation visit := (GcGraph.visit succ is_one (λ _, 0) counted).
Implicit Types (w : world) (z pz : ptr) (zv : zval_gc_info) (b : object_bucket) (h : Z) (l : list ptr).

Record collected (w w' : world) (xs ex V T : list node) : Prop := {
  cl_bare : bare w' = bare w;
  cl_visit : visit (whites w) (whites w') xs ex V T;
  cl_range : rc_range w → rc_range w';
  cl_frame : ∀ n, n ∉ V → n ∉ T → word_of w' n = word_of w n;
  cl_chain : ∀ l, chain w l → (∀ z, z ∈ l → NZ z ∉ T) → NoDup T → chain w' (values (reverse T) ++ l)
}.

Lemma collected_nil w : collected w w [] [] [] [].
Proof. split; try done. apply visit_nil. Qed.

Lemma collected_app w1 w2 w3 xs ys ex ey V1 V2 T1 T2 :
  collected w1 w2 xs ex V1 T1 → collected w2 w3 ys ey V2 T2 →
  collected w1 w3 (xs ++ ys) (ex ++ ey) (V1 ++ V2) (T1 ++ T2).
Proof.
  intros [Hs1 Hv1 Hg1 Hf1 Hc1] [Hs2 Hv2 Hg2 Hf2 Hc2]. split.
  - congruence.
  - by eapply (visit_app succ is_one (λ _, 0) counted is_one_0).
  - auto.
  - intros n HV HT. rewrite elem_of_app in HV, HT. rewrite Hf2, Hf1; tauto.
  - intros l Hl Hd (Hn1 & Hn12 & Hn2)%NoDup_app. rewrite reverse_app, values_app, <-app_assoc. apply Hc2; [|intros z Hz|done].
    + apply Hc1; [done| |done]. intros z Hz HT. apply (Hd z Hz). apply elem_of_app. by left.
    + apply elem_of_app in Hz as [Hz|Hz].
      * rewrite elem_of_values, elem_of_reverse in Hz. by apply Hn12.
      * intros HT. apply (Hd z Hz). apply elem_of_app. by right.
Qed.

(** every value that was entered is put into the list *)
Definition collects (w w' : world) (xs V T : list node) : Prop :=
  collected w w' xs xs V T ∧ T ≡ₚ filter is_value V.

Definition white_budget (fuel : nat) (w : world) : Prop :=
  coarse w = coarse w0 ∧ (remaining is_one U (whites w) < fuel)%nat.

Lemma white_budget_coarse fuel w : white_budget fuel w → coarse w = coarse w0.
Proof. by intros []. Qed.

Lemma collects_nil w : collects w w [] [] [].
Proof. split; [apply collected_nil|done]. Qed.

Lemma collects_app w1 w2 w3 xs ys V1 V2 T1 T2 :
  collects w1 w2 xs V1 T1 → collects w2 w3 ys V2 T2 → collects w1 w3 (xs ++ ys) (V1 ++ V2) (T1 ++ T2).
Proof. intros [H1 P1] [H2 P2]. split; [by eapply collected_app|]. rewrite filter_app. by f_equiv. Qed.

Lemma white_budget_collected fuel w w' xs ex V T : white_budget fuel w → collected w w' xs ex V T → white_budget fuel w'.
Proof.
  intros (Hc & Hr) Hcl. split; [rewrite <-Hc; apply (shape_coarse _ _ _ _ (cl_bare _ _ _ _ _ _ Hcl))|].
  pose proof (remaining_visit succ is_one (λ _, 0) counted is_one_0 U _ _ _ _ _ _ (cl_visit _ _ _ _ _ _ Hcl)). lia.
Qed.

(** a step that enters no node *)
Lemma collected_idle w w' ex :
  bare w' = bare w → (∀ y, word_of w' y = word_of w y) →
  (∀ y, u32 (rc_of w' y) = u32 (rc_of w y + count ex y * counted y)) → (rc_range w → rc_range w') → gc w' = gc w →
  collected w w' [] ex [] [].
Proof.
  intros Hs Hw Hr Hg Hgc. split; try done.
  - apply visit_idle; [intros y; cbn; by rewrite Hw|]. intros y. cbn [rc whites abs]. rewrite Hr, count_nil. f_equal. lia.
  - intros l Hl _ _. cbn. unfold chain. rewrite Hgc. eapply to_free_words; [|exact Hl]. auto.
Qed.

(** an object is entered from a value: its references are not counted *)
Lemma collected_refer w w' h V T : collected w w' [NO h] [] V T → collected w w' [NO h] [NO h] V T.
Proof.
  intros Hcl. change [NO h] with ([] ++ [NO h]) at 1. change [NO h] with ([NO h] ++ []) at 2. change V with ([] ++ V). change T with ([] ++ T).
  eapply collected_app; [|done]. apply collected_idle; try done. intros y. rewrite count_one.
  destruct (decide (y = NO h)) as [->|]; cbn [counted]; f_equal; lia.
Qed.

Lemma collected_count w w1 w' x V T :
  collected w w1 [] [x] [] [] → collected w1 w' [x] [] V T → collected w w' [x] [x] V T.
Proof.
  intros H1 H2. change [x] with ([] ++ [x]) at 1. change [x] with ([x] ++ []) at 2. change V with ([] ++ V). change T with ([] ++ T).
  by eapply collected_app.
Qed.

(** entering a node *)
Lemma collected_node w w1 w' x v V T :
  is_white (word_of w x) = true → is_white v = false → bare w1 = bare w → gc w1 = gc w →
  (∀ y, word_of w1 y = if decide (y = x) then v else word_of w y) → (∀ y, rc_of w1 y = rc_of w y) →
  collected w1 w' (succ x) (succ x) V T → collected w w' [x] [] (x :: V) T.
Proof.
  intros Hx Hv Hs Hgc Hw Hr [Hs' Hv' Hg' Hf' Hc']. split.
  - congruence.
  - apply (visit_node succ is_one (λ _, 0) counted is_one_0 _ (whites w1)); try done.
    + by apply fresh_white.
    + intros y. cbn. rewrite Hw. destruct (decide (y = x)); [|done]. unfold white_mark. by rewrite Hv.
    + intros y. cbn. by rewrite Hr.
  - intros Hg. apply Hg'. intros y. rewrite Hr. apply Hg.
  - intros n [Hne HnV]%not_elem_of_cons HnT. rewrite Hf', Hw by done. by rewrite decide_False.
  - intros l Hl. apply Hc'. unfold chain in *. rewrite Hgc. eapply to_free_words; [|exact Hl].
    intros z Hz. rewrite Hw. destruct (decide (NZ z = x)) as [<-|]; [|done].
    pose proof (to_free_black _ _ _ _ Hl Hz). congruence.
Qed.

Lemma white_budget_node fuel w w1 x v :
  white_budget (Datatypes.S fuel) w → x ∈ U → is_white (word_of w x) = true → is_white v = false → bare w1 = bare w →
  (∀ y, word_of w1 y = if decide (y = x) then v else word_of w y) → white_budget fuel w1.
Proof.
  intros (Hc & Hr) Hx Hwh Hv Hs Hw. split; [rewrite <-Hc; by apply shape_coarse in Hs|].
  assert (remaining is_one U (whites w1) < remaining is_one U (whites w))%nat; [|lia].
  apply (remaining_paint is_one (λ _, 0) is_one_0 U _ _ x Hx); [by apply fresh_white|].
  intros y. cbn. rewrite Hw. destruct (decide (y = x)); [|done]. unfold white_mark. by rewrite Hv.
Qed.

Lemma put_to_free_run w z :
  coarse w = coarse w0 → NZ z ∈ U → is_white (word_of w (NZ z)) = false →
  ∃ w', put_to_free z w = Done tt w' ∧ collected w w' [] [] [] [NZ z].
Proof using heap.
  intros Hc Hz Hb. destruct (zval_now _ _ _ _ _ _ heap w z Hc Hz) as (zv & _ & Hzv & _).
  unfold put_to_free. erewrite bind_Done by reflexivity.
  match goal with |- context [store_zval _ ?g] => set (f := g) end.
  destruct (store_zval_run (λ _, gnull) (set_zval_to_free None) w z zv f Hzv eq_refl) as (w1 & Hr1 & Hs1 & Hz1 & Hw1 & Hrc1 & _ & Hg1).
  rewrite (bind_Done _ _ _ _ _ Hr1). eexists. split; [reflexivity|].
  set (w' := on_gc _ w1). assert (Hw' : ∀ y, word_of w' y = word_of w1 y) by (by intros []).
  assert (Hrc' : ∀ y, rc_of w' y = rc_of w1 y) by (by intros []).
  assert (Hnw : ∀ y, white_mark (word_of w' y) = white_mark (word_of w y)).
  { intros y. rewrite Hw', Hw1. destruct (decide (y = NZ z)) as [->|]; [|done]. unfold white_mark. rewrite Hb.
    unfold f. cbn. by destruct (zval_to_free (gc w)). }
  split.
  - transitivity (bare w1); [reflexivity|exact Hs1].
  - apply visit_idle; [exact Hnw|]. intros y. cbn [rc whites abs]. rewrite Hrc', Hrc1, count_nil, count_one.
    destruct (decide (y = NZ z)) as [->|]; [|f_equal; lia]. unfold f. cbn. rewrite Hzv, u32_idemp. f_equal. lia.
  - intros Hg y. rewrite Hrc', Hrc1. destruct (decide (y = NZ z)); [apply u32_range|done].
  - intros n _ Hn. rewrite Hw', Hw1, decide_False; [done|]. intros ->. apply Hn. left.
  - intros l Hl Hd _. change (values (reverse [NZ z]) ++ l) with (z :: l). split; [done|].
    assert (Ho : ∃ next, zval_to_free (gc w) = Some next).
    { unfold chain in Hl. destruct l; [by eexists|]. destruct Hl as [-> _]. by eexists. }
    destruct Ho as [next Ho]. exists next. rewrite Hw', Hw1, decide_True by done. split; [unfold f; by rewrite Ho|].
    unfold chain in Hl. rewrite Ho in Hl. eapply to_free_words; [|exact Hl]. intros z' Hz'. rewrite Hw', Hw1, decide_False; [done|].
    intros [= ->]. apply (Hd z Hz'). left.
Qed.

Lemma collected_stays w w' xs ex V T x :
  collected w w' xs ex V T → is_white (word_of w x) = false → is_white (word_of w' x) = false.
Proof.
  intros Hcl Hx. destruct (is_white (word_of w' x)) eqn:Hw; [|done]. apply fresh_white in Hw.
  assert (Hf : is_one (col (whites w) x) = false) by (cbn; unfold white_mark; by rewrite Hx).
  by rewrite (visit_stays succ is_one (λ _, 0) counted is_one_0 _ _ _ _ _ _ _ (cl_visit _ _ _ _ _ _ Hcl) Hf) in Hw.
Qed.

Lemma collected_skip w x : is_white (word_of w x) = false → collected w w [x] [] [] [].
Proof.
  intros Hx. split; try done. apply visit_skip. cbn. unfold white_mark. by rewrite Hx.
Qed.

(** counting a reference and then walking *)
Lemma collect_visits fuel (m : ptr → W unit) z :
  NZ z ∈ U →
  (∀ w, white_budget fuel w → ∃ w' V T, m z w = Done tt w' ∧ collected w w' [NZ z] [] V T ∧ T ≡ₚ filter is_value V) →
  visits (white_budget fuel) collects (λ pz, add_reference 1 pz ;;; m pz)%eff z.
Proof using heap.
  intros Hz Hm w Hb.
  destruct (refer_run _ _ _ _ _ _ heap (λ _, gnull) (set_zval_to_free None) 1 w z (white_budget_coarse _ _ Hb) Hz)
    as (w1 & Hr1 & Hs1 & Hw1 & Hrc1 & Hg1 & Hgc1).
  assert (Hi : collected w w1 [] [NZ z] [] []).
  { apply collected_idle; try done. intros y. rewrite Hrc1, count_one. by destruct (decide (y = NZ z)) as [->|]. }
  destruct (Hm w1 (white_budget_collected _ _ _ _ _ _ _ Hb Hi)) as (w2 & V & T & Hr2 & Hw2 & HT).
  pose proof (collected_count _ _ _ _ _ _ Hi Hw2) as Hw. exists w2, V, T. split; [by rewrite (bind_Done _ _ _ _ _ Hr1)|].
  split; [by eapply white_budget_collected|done].
Qed.

(** what is in an object, the value that refers to it being put into the list on the way *)
Lemma object_collect_run visit fuel z h w :
  white_budget fuel w → NO h ∈ U → NZ z ∈ U → is_white (word_of w (NZ z)) = false →
  (∀ z, NZ z ∈ U → visits (white_budget fuel) collects visit z) →
  ∃ w' V T, object_children get_gc visit (λ props, match props with None => put_to_free z | Some _ => ret tt end)
      (put_to_free z) (put_to_free z) h (hd h) w = Done tt w' ∧
    collected w w' (succ (NO h)) (succ (NO h)) V T ∧ T ≡ₚ NZ z :: filter is_value V.
Proof using heap.
  intros Hb Hh Hz Hwz Hv. pose proof (white_budget_coarse _ _ Hb) as Hc. unfold object_children.
  destruct (bucket_now _ _ _ _ _ _ heap w h Hc Hh) as (b & b0 & Hbk & Hb0 & Hval & _).
  rewrite (bind_Done _ _ _ _ _ (load_bucket_Done _ _ _ Hbk)), Hval.
  assert (Hclosed : ∀ y, y ∈ succ (NO h) → y ∈ U) by (intros y; by apply (ho_closed _ _ _ _ _ _ heap)).
  unfold succ in *. cbn [GcSpec.succ] in *. rewrite Hb0 in *.
  destruct (valid b0 && h_get_gc (hd h)) eqn:Hcond.
  2: { destruct (put_to_free_run w z Hc Hz Hwz) as (w' & Hr & Hw). by exists w', [], [NZ z]. }
  rewrite (bind_Done _ _ _ _ _ (ho_get_gc _ _ _ _ _ _ heap w h Hc)). unfold children in *.
  destruct (ho_object _ _ _ _ _ _ heap h Hh) as (b1 & Hb1 & Htab). assert (b1 = b0) as -> by congruence. specialize (Htab Hcond).
  destruct (content h) as [table props]. cbn [fst snd] in *. rewrite fmap_app in *.
  assert (Hslots : ∀ z, z ∈ omap id table → visits (white_budget fuel) collects visit z).
  { intros z' Hz'. apply Hv, Hclosed, elem_of_app. left. apply list_elem_of_fmap. by exists z'. }
  destruct props as [t|].
  - erewrite bind_Done by reflexivity.
    destruct (each_slot_run _ collects (λ w _, collects_nil w) collects_app visit table w Hb Hslots) as (w1 & V1 & T1 & Hr1 & Hbu1 & [H1 P1]).
    rewrite (bind_Done _ _ _ _ _ Hr1).
    destruct (put_to_free_run w1 z (white_budget_coarse _ _ Hbu1) Hz (collected_stays _ _ _ _ _ _ _ H1 Hwz)) as (w2 & Hr2 & H2).
    rewrite (bind_Done _ _ _ _ _ Hr2).
    destruct (each_element_run _ _ _ collects (white_budget_coarse fuel) (λ w _, collects_nil w) collects_app visit t w2
      (white_budget_collected _ _ _ _ _ _ _ Hbu1 H2) (Htab t eq_refl)) as (w3 & V3 & T3 & Hr3 & _ & [H3 P3]).
    { intros z' Hz'. apply Hv, Hclosed, elem_of_app. right. apply list_elem_of_fmap. by exists z'. }
    exists w3, (V1 ++ V3), (T1 ++ [NZ z] ++ T3). split; [done|]. split.
    + pose proof (collected_app _ _ _ _ _ _ _ _ _ _ _ H1 (collected_app _ _ _ _ _ _ _ _ _ _ _ H2 H3)) as H. exact H.
    + rewrite filter_app, P1, P3. cbn. by rewrite Permutation_middle.
  - destruct (put_to_free_run w z Hc Hz Hwz) as (w1 & Hr1 & H1). rewrite (bind_Done _ _ _ _ _ Hr1).
    destruct (each_slot_run _ collects (λ w _, collects_nil w) collects_app visit table w1 (white_budget_collected _ _ _ _ _ _ _ Hb H1) Hslots)
      as (w2 & V2 & T2 & Hr2 & _ & [H2 P2]).
    exists w2, V2, ([NZ z] ++ T2). split; [by rewrite (bind_Done _ _ _ _ _ Hr2)|]. cbn [fmap list_fmap]. rewrite app_nil_r. split.
    + pose proof (collected_app _ _ _ _ _ _ _ _ _ _ _ H1 H2) as H. exact H.
    + cbn. by rewrite P2.
Qed.

(** entering a bucket *)
Lemma enter_purple w h b :
  bucket_at (objects w) h = Some b → is_white (o_buffered (b_obj b)) = true →
  ∃ w' v, store_bucket h purple_bucket w = Done tt w' ∧ is_white v = false ∧ bare w' = bare w ∧ gc w' = gc w ∧
    (∀ y, word_of w' y = if decide (y = NO h) then v else word_of w y) ∧ (∀ y, rc_of w' y = rc_of w y).
Proof.
  intros Hb Hwh. destruct (store_bucket_run (λ _, gnull) (set_zval_to_free None) w h b purple_bucket Hb eq_refl)
    as (w' & Hr & Hs & _ & Hw & Hrc & _ & Hg).
  exists w', (o_buffered (b_obj (purple_bucket b))). split; [done|]. split; [|split; [done|split; [done|split; [done|]]]].
  - unfold is_white in *. cbn. destruct (gp_addr (o_buffered (b_obj b))); try done.
    apply Z.eqb_eq in Hwh. by rewrite Hwh.
  - intros y. rewrite Hrc. destruct (decide (y = NO h)) as [->|]; [|done]. cbn. by rewrite Hb.
Qed.

Lemma enter_black w z zv :
  zvals w !! z = Some zv → is_white (zv_u zv) = true →
  ∃ w' v, store_zval z (paint_zval GC_BLACK) w = Done tt w' ∧ is_white v = false ∧ bare w' = bare w ∧ gc w' = gc w ∧
    (∀ y, word_of w' y = if decide (y = NZ z) then v else word_of w y) ∧ (∀ y, rc_of w' y = rc_of w y) ∧ objects w' = objects w.
Proof.
  intros Hz Hwh. destruct (store_zval_run (λ _, gnull) (set_zval_to_free None) w z zv (paint_zval GC_BLACK) Hz eq_refl)
    as (w' & Hr & Hs & _ & Hw & Hrc & Ho & Hg).
  exists w', (zv_u (paint_zval GC_BLACK zv)). split; [done|]. split; [|split; [done|split; [done|split; [done|split; [|done]]]]].
  - unfold is_white in *. cbn. by destruct (gp_addr (zv_u zv)).
  - intros y. rewrite Hrc. destruct (decide (y = NZ z)) as [->|]; [|done]. cbn. by rewrite Hz.
Qed.

Lemma zval_collect_white_run fuel z w :
  white_budget fuel w → NZ z ∈ U →
  ∃ w' V T, zval_collect_white get_gc fuel z w = Done tt w' ∧ collected w w' [NZ z] [] V T ∧ T ≡ₚ filter is_value V.
Proof using heap.
  revert z w. induction fuel as [|fuel IH]; intros z w Hb Hz; [destruct Hb; lia|]. cbn [zval_collect_white].
  pose proof (white_budget_coarse _ _ Hb) as Hc.
  destruct (zval_now _ _ _ _ _ _ heap w z Hc Hz) as (zv & zv0 & Hzv & Hzv0 & Ht & Hh & Hht & Ha & Hst & Hobj & Harr).
  rewrite (bind_Done _ _ _ _ _ (load_zval_now _ _ _ Hzv)).
  assert (Hw : word_of w (NZ z) = zv_u zv) by (cbn; by rewrite Hzv).
  destruct (is_white (zv_u zv)) eqn:Hwh.
  2: { exists w, [], []. split; [done|]. split; [|done]. apply collected_skip. by rewrite Hw. }
  destruct (enter_black w z zv Hzv Hwh) as (w1 & v & Hr1 & Hv & Hs1 & Hg1 & Hw1 & Hrc1 & Ho1).
  rewrite (bind_Done _ _ _ _ _ Hr1). erewrite bind_Done by reflexivity. rewrite Ho1, Hst.
  rewrite <-Hw in Hwh. pose proof (white_budget_node _ _ _ _ _ Hb Hz Hwh Hv Hs1 Hw1) as Hb1.
  assert (Hz1 : is_white (word_of w1 (NZ z)) = false) by (by rewrite Hw1, decide_True).
  assert (Hvis : ∀ z', NZ z' ∈ U → visits (white_budget fuel) collects (collect_child get_gc fuel) z').
  { intros z' Hz'. apply collect_visits; [done|]. intros w' Hb'. by apply IH. }
  assert (Hfin : ∀ w' V T, collected w1 w' (succ (NZ z)) (succ (NZ z)) V T → T ≡ₚ NZ z :: filter is_value V →
    collected w w' [NZ z] [] (NZ z :: V) T ∧ T ≡ₚ filter is_value (NZ z :: V)).
  { intros w' V T HR HT. split; [by apply (collected_node w w1 w' (NZ z) v)|by rewrite filter_cons_True]. }
  unfold succ in Hfin. cbn [GcSpec.succ] in Hfin. rewrite Hzv0 in Hfin.
  destruct (is_stored_object zv0 (objects w0)) eqn:Hso.
  - destruct (Hobj eq_refl) as [-> HhU]. rewrite <-Hh in Hfin.
    destruct (bucket_now _ _ _ _ _ _ heap w1 (zv_handle zv) (white_budget_coarse _ _ Hb1) HhU) as (b & _ & Hbk & _).
    rewrite (bind_Done _ _ _ _ _ (load_bucket_Done _ _ _ Hbk)). destruct (is_white (o_buffered (b_obj b))) eqn:Hbw.
    + destruct (enter_purple w1 _ b Hbk Hbw) as (w2 & v2 & Hr2 & Hv2 & Hs2 & Hg2 & Hw2 & Hrc2). rewrite (bind_Done _ _ _ _ _ Hr2).
      assert (Hbw' : is_white (word_of w1 (NO (zv_handle zv))) = true) by (cbn; by rewrite Hbk).
      assert (Hb2 : white_budget fuel w2) by (apply (white_budget_node fuel w1 w2 (NO (zv_handle zv)) v2); try done; destruct Hb1; split; [done|lia]).
      destruct (object_collect_run (collect_child get_gc fuel) fuel z (zv_handle zv) w2 Hb2 HhU Hz) as (w3 & V & T & Hr3 & H3 & P3); [|done|].
      { by rewrite Hw2, decide_False. }
      eexists w3, _, T. split; [exact Hr3|]. apply (Hfin w3 (NO (zv_handle zv) :: V)); [|by rewrite filter_cons_False by (by intros [])].
      apply collected_refer. by apply (collected_node w1 w2 w3 _ v2).
    + destruct (put_to_free_run w1 z (white_budget_coarse _ _ Hb1) Hz Hz1) as (w2 & Hr2 & H2).
      eexists w2, _, [NZ z]. split; [exact Hr2|]. apply (Hfin w2 []); [|done].
      apply collected_refer. apply (collected_app _ w1 _ [NO (zv_handle zv)] [] [] [] [] [] [] [NZ z]); [|done].
      apply collected_skip. cbn. by rewrite Hbk.
  - destruct (put_to_free_run w1 z (white_budget_coarse _ _ Hb1) Hz Hz1) as (w2 & Hr2 & H2). rewrite (bind_Done _ _ _ _ _ Hr2).
    rewrite <-Ht, <-Ha in Hfin. destruct (Z.eqb_spec (zv_type zv) IS_ARRAY) as [Harray|].
    + destruct (Harr Harray) as [_ Htab].
      destruct (each_element_run _ _ _ collects (white_budget_coarse fuel) (λ w _, collects_nil w) collects_app (collect_child get_gc fuel)
        (zv_arr zv) w2 (white_budget_collected _ _ _ _ _ _ _ Hb1 H2) Htab) as (w3 & V & T & Hr3 & _ & [H3 P3]).
      { intros z' Hz'. apply Hvis. apply (ho_closed _ _ _ _ _ _ heap (NZ z)); [done|]. cbn. rewrite Hzv0, Hso, <-Ht, <-Ha.
        apply Z.eqb_eq in Harray. rewrite Harray. apply list_elem_of_fmap. by exists z'. }
      eexists w3, _, ([NZ z] ++ T). split; [exact Hr3|]. apply (Hfin w3 V); [|cbn; by rewrite P3].
      exact (collected_app _ _ _ _ _ _ _ _ _ _ _ H2 H3).
    + eexists w2, _, [NZ z]. split; [done|]. by apply (Hfin w2 []).
Qed.

Lemma zobj_collect_white_run fuel h w :
  white_budget fuel w → NO h ∈ U → bool_decide (object_buckets (objects w) ≠ None) = true →
  ∃ w' V T, zobj_collect_white get_gc fuel h (hd h) w = Done tt w' ∧ collected w w' [NO h] [] V T ∧ T ≡ₚ filter is_value V.
Proof using heap.
  intros Hb Hh Hst. unfold zobj_collect_white. erewrite bind_Done by reflexivity. rewrite Hst.
  destruct (bucket_now _ _ _ _ _ _ heap w h (white_budget_coarse _ _ Hb) Hh) as (b & _ & Hbk & _).
  rewrite (bind_Done _ _ _ _ _ (load_bucket_Done _ _ _ Hbk)). destruct (is_white (o_buffered (b_obj b))) eqn:Hbw.
  2: { exists w, [], []. split; [done|]. split; [|done]. apply collected_skip. cbn. by rewrite Hbk. }
  destruct (enter_purple w _ b Hbk Hbw) as (w1 & v & Hr1 & Hv & Hs1 & Hg1 & Hw1 & Hrc1). rewrite (bind_Done _ _ _ _ _ Hr1).
  assert (Hbw' : is_white (word_of w (NO h)) = true) by (cbn; by rewrite Hbk).
  assert (Hb1 : white_budget fuel w1) by (apply (white_budget_node fuel w w1 (NO h) v); try done; destruct Hb; split; [done|lia]).
  destruct (object_children_run _ _ _ _ _ _ heap (white_budget fuel) collects (white_budget_coarse fuel) (λ w _, collects_nil w) collects_app
    (collect_child get_gc fuel) h w1 Hb1 Hh) as (w2 & V & T & Hr2 & _ & [H2 P2]).
  { intros z Hz. apply collect_visits; [by apply (ho_closed _ _ _ _ _ _ heap (NO h))|]. intros w' Hb'. apply zval_collect_white_run; [done|].
    by apply (ho_closed _ _ _ _ _ _ heap (NO h)). }
  exists w2, (NO h :: V), T. split; [done|]. split; [by apply (collected_node w w1 w2 _ v)|by rewrite filter_cons_False by (by intros [])].
Qed.

End collect.
