(* ===== verification/GcRoots.v ===== *)
(** * The loops of a collection over the possible roots

    Each of the three phases goes through the ring of roots.  What a phase does with a
    root is, by its node, a step of a walk ([node_mark], [node_scan], [node_collect]);
    the invariants of the loops say what the walks together have visited. *)

From stdpp Require Import relations.
From S2P Require Import Prelude DList HashModel HashRepr ObjModel ObjSpec GcModel GcGraph GcSpec GcScan GcCollect.
Local Open Scope Z_scope.

(** ** Going through the ring *)

(** as many different entries as the buffer has *)
Lemma length_range (l : list ptr) b n :
  NoDup l → (∀ p, p ∈ l → (b ≤ p < b + n)%positive) → (length l ≤ Pos.to_nat n)%nat.
Proof.
  intros Hnd Hin. rewrite <-(length_fmap Pos.to_nat l), <-(length_seq (Pos.to_nat n) (Pos.to_nat b)).
  apply submseteq_length, NoDup_submseteq.
  - apply NoDup_fmap_2; [|done]. intros x y. lia.
  - intros x (p & -> & Hp)%list_elem_of_fmap. apply elem_of_seq. specialize (Hin p Hp). lia.
Qed.

Lemma roots_length g rs us ex : roots_ok g rs us ex → (length rs ≤ Pos.to_nat GC_ROOT_BUFFER_MAX_ENTRIES)%nat.
Proof.
  intros [_ Hnd _ Hr]. destruct (buf g) as [b|]; [|destruct Hr as (-> & _); cbn; lia].
  destruct Hr as (-> & _ & f & _ & Hf & Hin). apply (length_range rs BUF); [by apply NoDup_app in Hnd as [? _]|].
  intros p Hp. pose proof (proj1 (Hin p) ltac:(apply elem_of_app; by left)). lia.
Qed.

Lemma ring_next g l1 p l2 us ex : roots_ok g (l1 ++ p :: l2) us ex → r_next <$> root_cells g !! p = Some (head_or l2 (Some ROOTS)).
Proof.
  intros Hg. destruct (ring_unlink _ _ _ _ _ (ring_nodup _ _ _ _ Hg) (ro_ring _ _ _ _ Hg)) as [Hp _].
  destruct (root_cells g !! p) as [r|]; [|done]. cbn in *. unfold lnk in Hp. cbn in Hp. congruence.
Qed.

Lemma ring_head g rs us ex : roots_ok g rs us ex → ∃ r, root_cells g !! ROOTS = Some r ∧ r_next r = head_or rs (Some ROOTS).
Proof.
  intros [[Hl _] _ _ _]. destruct (root_cells g !! ROOTS) as [r|]; [|done]. exists r. split; [done|]. unfold lnk in Hl. cbn in Hl. congruence.
Qed.

(** what a step leaves is what the next one needs *)
Lemma roots_loop_run (visit : ptr → gc_root_buffer → W unit) (Inv : list ptr → world → Prop) fuel l w :
  (∀ l w, Inv l w → ROOTS ∉ l) →
  (∀ p l w, Inv (p :: l) w → ∃ r w', root_cells (gc w) !! p = Some r ∧ visit p r w = Done tt w' ∧ Inv l w' ∧
    r_next <$> root_cells (gc w') !! p = Some (head_or l (Some ROOTS))) →
  (length l ≤ fuel)%nat → Inv l w → ∃ w', roots_loop visit fuel (head_or l (Some ROOTS)) w = Done tt w' ∧ Inv [] w'.
Proof.
  intros Hroots Hstep. revert fuel w. induction l as [|p l IH]; intros fuel w Hf Hi.
  - exists w. by destruct fuel.
  - destruct fuel as [|fuel]; [cbn in Hf; lia|]. cbn [head_or roots_loop].
    assert (Hp : (p =? ROOTS)%positive = false) by (apply Pos.eqb_neq; intros ->; apply (Hroots _ _ Hi); left).
    rewrite Hp. destruct (Hstep p l w Hi) as (r & w1 & Hr & Hrun & Hi1 & Hn).
    destruct (root_cells (gc w1) !! p) as [r1|] eqn:Hr1; [|done]. cbn in Hn. apply Some_inj in Hn.
    rewrite (bind_Done _ _ _ _ _ (load_root_Done _ _ _ Hr)), (bind_Done _ _ _ _ _ Hrun), (bind_Done _ _ _ _ _ (load_root_Done _ _ _ Hr1)), Hn.
    apply IH; [cbn in Hf; lia|done].
Qed.

Lemma each_root_run visit (Inv : list ptr → world → Prop) rs us w :
  (∀ l w, Inv l w → ROOTS ∉ l) →
  (∀ p l w, Inv (p :: l) w → ∃ r w', root_cells (gc w) !! p = Some r ∧ visit p r w = Done tt w' ∧ Inv l w' ∧
    r_next <$> root_cells (gc w') !! p = Some (head_or l (Some ROOTS))) →
  roots_ok (gc w) rs us [] → Inv rs w → ∃ w', each_root visit w = Done tt w' ∧ Inv [] w'.
Proof.
  intros Hroots Hstep Hg Hi. destruct (ring_head _ _ _ _ Hg) as (r & Hr & Hn). unfold each_root.
  rewrite (bind_Done _ _ _ _ _ (load_root_Done _ _ _ Hr)), Hn. apply roots_loop_run; [done..| |done]. by eapply roots_length.
Qed.

Section roots.
Context (get_gc : zend_object_handlers → Z → W (list (option ptr) * option Z)).
Context (w0 : world) (content : Z → list (option ptr) * option Z) (hd : Z → zend_object_handlers).
Context (elts : Z → list ptr) (U : list node).
Hypothesis heap : heap_ok get_gc w0 content hd elts U.
Local Abbreviation succ := (GcSpec.succ w0 content hd elts).
Implicit Types (w : world) (z pz p : ptr) (zv : zval_gc_info) (b : object_bucket) (h : Z) (rs us l : list ptr).

(** the node of each entry *)
Context (nd : ptr → node).

Definition says (n : node) : Z * root_u := match n with NZ z => (0, UPz z) | NO h => (h, UHandlers (hd h)) end.
Definition entry_ok (w : world) (p : ptr) : Prop :=
  nd p ∈ U ∧ nd p ≠ NO 0 ∧ said <$> root_cells (gc w) !! p = Some (says (nd p)).

(** the nodes and the ring point to each other *)
Definition addr_ok (w : world) (rs : list ptr) : Prop :=
  (∀ p, p ∈ rs → gp_addr (word_of w (nd p)) = GRoot p) ∧
  (∀ n, n ∈ U → gp_addr (word_of w n) = GNull ∨ ∃ p, p ∈ rs ∧ n = nd p).

(** ** A root by its node *)

Definition null_address (n : node) : W unit :=
  match n with
  | NZ z => store_zval z (λ v, set_zv_u (GC_SET_ADDRESS (zv_u v) GNull) v)
  | NO h => store_bucket h (on_obj (λ o, set_o_buffered (GC_SET_ADDRESS (o_buffered o) GNull) o))
  end.
Definition node_mark (fuel : nat) (n : node) : W unit :=
  match n with NZ z => zval_mark_grey get_gc fuel z | NO h => zobj_mark_grey get_gc fuel h (hd h) end.
Definition node_scan (nb fuel : nat) (n : node) : W unit :=
  match n with NZ z => zval_scan get_gc nb fuel z | NO h => zobj_scan get_gc nb fuel h (hd h) end.
Definition node_collect (fuel : nat) (n : node) : W unit :=
  match n with NZ z => zval_collect_white get_gc fuel z | NO h => zobj_collect_white get_gc fuel h (hd h) end.

Lemma entry_says w p r : entry_ok w p → root_cells (gc w) !! p = Some r →
  match nd p with
  | NZ z => r_handle r = 0 ∧ r_u r = UPz z
  | NO h => r_handle r = h ∧ h ≠ 0 ∧ r_u r = UHandlers (hd h)
  end.
Proof.
  intros (_ & Hn & Hs) Hr. rewrite Hr in Hs. cbn in Hs. apply Some_inj in Hs. unfold said in Hs.
  destruct (nd p) as [z|h]; cbn in Hs; [split; congruence|]. split; [congruence|]. split; congruence.
Qed.

Lemma stored w h : coarse w = coarse w0 → NO h ∈ U → bool_decide (object_buckets (objects w) ≠ None) = true.
Proof using heap.
  intros Hc Hh. destruct (bucket_now _ _ _ _ _ _ heap w h Hc Hh) as (b & _ & Hb & _). apply bool_decide_eq_true.
  intros Hn. unfold bucket_at in Hb. by rewrite Hn in Hb.
Qed.

Lemma mark_root_node fuel p r w :
  coarse w = coarse w0 → entry_ok w p → root_cells (gc w) !! p = Some r →
  mark_root get_gc fuel p r w =
    (if gp_color (word_of w (nd p)) =? GC_PURPLE then node_mark fuel (nd p) else null_address (nd p) ;;; gc_remove_from_buffer p)%eff w.
Proof using heap.
  intros Hc Hp Hr. pose proof (entry_says _ _ _ Hp Hr) as Hs. destruct Hp as (HU & _). unfold mark_root.
  destruct (nd p) as [z|h]; cbn [node_mark null_address word_of].
  - destruct Hs as [-> ->]. cbn [negb Z.eqb]. erewrite bind_Done by reflexivity.
    destruct (zval_now _ _ _ _ _ _ heap w z Hc HU) as (zv & _ & Hzv & _). rewrite (bind_Done _ _ _ _ _ (load_zval_now _ _ _ Hzv)), Hzv.
    by destruct (GC_ZVAL_GET_COLOR zv =? GC_PURPLE) eqn:E; unfold GC_ZVAL_GET_COLOR, GC_GET_COLOR in E; rewrite E.
  - destruct Hs as (-> & Hh & ->). apply Z.eqb_neq in Hh. rewrite Hh. cbn [negb]. erewrite bind_Done by reflexivity.
    rewrite (stored w h Hc HU). destruct (bucket_now _ _ _ _ _ _ heap w h Hc HU) as (b & _ & Hb & _).
    rewrite (bind_Done _ _ _ _ _ (load_bucket_Done _ _ _ Hb)), Hb.
    by destruct (bucket_color b =? GC_PURPLE) eqn:E; unfold bucket_color, GC_GET_COLOR in E; rewrite E.
Qed.

Lemma scan_root_node nb fuel p r w :
  coarse w = coarse w0 → entry_ok w p → root_cells (gc w) !! p = Some r →
  scan_root get_gc nb fuel p r w = node_scan nb fuel (nd p) w.
Proof.
  intros Hc Hp Hr. pose proof (entry_says _ _ _ Hp Hr) as Hs. unfold scan_root. destruct (nd p) as [z|h].
  - by destruct Hs as [-> ->].
  - destruct Hs as (-> & Hh & ->). apply Z.eqb_neq in Hh. by rewrite Hh.
Qed.

Lemma collect_root_node fuel p r w :
  coarse w = coarse w0 → entry_ok w p → root_cells (gc w) !! p = Some r →
  collect_root get_gc fuel p r w = (null_address (nd p) ;;; node_collect fuel (nd p) ;;; gc_remove_from_buffer p)%eff w.
Proof using heap.
  intros Hc Hp Hr. pose proof (entry_says _ _ _ Hp Hr) as Hs. destruct Hp as (HU & _). unfold collect_root.
  destruct (nd p) as [z|h]; cbn [node_collect null_address].
  - destruct Hs as [-> ->]. cbn [negb Z.eqb]. rewrite bind_assoc. erewrite bind_Done by reflexivity. by rewrite bind_assoc.
  - destruct Hs as (-> & Hh & ->). apply Z.eqb_neq in Hh. rewrite Hh. cbn [negb]. rewrite bind_assoc. erewrite bind_Done by reflexivity.
    rewrite (stored w h Hc HU). by rewrite bind_assoc.
Qed.

Lemma null_address_run w n :
  coarse w = coarse w0 → n ∈ U →
  ∃ w', null_address n w = Done tt w' ∧ shape (λ _, gnull) id w' = shape (λ _, gnull) id w ∧ gc w' = gc w ∧
    (∀ y, word_of w' y = if decide (y = n) then GC_SET_ADDRESS (word_of w n) GNull else word_of w y) ∧
    (∀ y, rc_of w' y = rc_of w y).
Proof using heap.
  intros Hc Hn. destruct n as [z|h]; unfold null_address.
  - destruct (zval_now _ _ _ _ _ _ heap w z Hc Hn) as (zv & _ & Hzv & _).
    match goal with |- context [store_zval _ ?g] => set (f := g) end.
    destruct (store_zval_run (λ _, gnull) id w z zv f Hzv eq_refl) as (w' & Hr & Hs & _ & Hw & Hrc & _ & Hg).
    exists w'. do 3 (split; [done|]). cbn [word_of]. rewrite Hzv. split; [done|]. intros y. rewrite Hrc.
    destruct (decide (y = NZ z)) as [->|]; [|done]. cbn. by rewrite Hzv.
  - destruct (bucket_now _ _ _ _ _ _ heap w h Hc Hn) as (b & _ & Hb & _).
    match goal with |- context [store_bucket _ ?g] => set (f := g) end.
    destruct (store_bucket_run (λ _, gnull) id w h b f Hb eq_refl) as (w' & Hr & Hs & _ & Hw & Hrc & _ & Hg).
    exists w'. do 3 (split; [done|]). cbn [word_of]. rewrite Hb. split; [done|]. intros y. rewrite Hrc.
    destruct (decide (y = NO h)) as [->|]; [|done]. cbn. by rewrite Hb.
Qed.

End roots.
