(* ===== verification/GcPhases.v ===== *)
(** * Marking, scanning and collecting all possible roots

    The invariant of each loop over the ring, and what holds when it has ended. *)

From stdpp Require Import relations.
From S2P Require Import Prelude DList HashModel HashRepr ObjModel ObjSpec GcModel GcGraph GcSpec GcScan GcCollect GcRoots.
Local Open Scope Z_scope.

(** what a walk leaves of a word *)
Lemma shape_word er eg w w' n : shape er eg w' = shape er eg w → er (word_of w' n) = er (word_of w n).
Proof.
  intros Hs. unfold shape in Hs. destruct n as [z|h]; cbn [word_of].
  - assert (Hz : znorm er <$> zvals w' = znorm er <$> zvals w) by congruence. apply (f_equal (.!! z)) in Hz.
    rewrite !lookup_fmap in Hz. destruct (zvals w' !! z) as [v'|], (zvals w !! z) as [v|]; try done.
    apply Some_inj, (f_equal zv_u) in Hz. exact Hz.
  - assert (Hst : norm_store er (objects w') = norm_store er (objects w)) by congruence.
    apply (f_equal (λ st, bucket_at st h)) in Hst. rewrite !norm_bucket_at in Hst.
    destruct (bucket_at (objects w') h) as [b'|], (bucket_at (objects w) h) as [b|]; try done.
    apply Some_inj, (f_equal (λ b, o_buffered (b_obj b))) in Hst. exact Hst.
Qed.

Lemma shape_gc er w w' : shape er id w' = shape er id w → gc w' = gc w.
Proof. unfold shape. cbn. congruence. Qed.

Lemma roots_ok_bare w w' (rs us ex : list ptr) : bare w' = bare w → roots_ok (gc w) rs us ex → roots_ok (gc w') rs us ex.
Proof.
  unfold bare, shape. intros Hs.
  assert (Hg : set_zval_to_free None (gc w') = set_zval_to_free None (gc w)) by congruence.
  destruct (gc w), (gc w'). cbn in Hg. injection Hg as <- <- <- <- <- <- <- <- <- <- <-. by intros [].
Qed.

Lemma bare_cells w w' : bare w' = bare w → root_cells (gc w') = root_cells (gc w).
Proof. unfold bare, shape. intros Hs. apply (f_equal (λ s, root_cells s.1.1.1.1.1)) in Hs. exact Hs. Qed.

Lemma is_white_spec v : is_white v = true ↔ gp_addr v = GNull ∧ gp_color v = GC_WHITE.
Proof. unfold is_white. rewrite <-Z.eqb_eq. destruct (gp_addr v); naive_solver. Qed.

Section phases.
Context (get_gc : zend_object_handlers → Z → W (list (option ptr) * option Z)).
Context (w0 : world) (content : Z → list (option ptr) * option Z) (hd : Z → zend_object_handlers).
Context (elts : Z → list ptr) (U : list node).
Hypothesis heap : heap_ok get_gc w0 content hd elts U.
Local Abbreviation succ := (GcSpec.succ w0 content hd elts).
Implicit Types (w : world) (z pz p : ptr) (zv : zval_gc_info) (b : object_bucket) (h : Z) (rs us l kept todo : list ptr).
Context (nd : ptr → node).
Local Abbreviation entry_ok := (GcRoots.entry_ok hd U nd).
Local Abbreviation addr_ok := (GcRoots.addr_ok U nd).

(** the entries at the start *)
Context (w1 : world) (rs0 : list ptr).
Hypothesis entries : ∀ p, p ∈ rs0 → entry_ok w1 p.

(** what the loops do not change *)
Record settled (w : world) : Prop := {
  se_coarse : coarse w = coarse w0;
  se_range : rc_range w;
  se_said : ∀ q, said <$> root_cells (gc w) !! q = said <$> root_cells (gc w1) !! q
}.

Lemma settled_entry w p : settled w → p ∈ rs0 → entry_ok w p.
Proof using entries. intros Hs Hp. destruct (entries p Hp) as (H1 & H2 & H3). split; [done|]. split; [done|]. by rewrite (se_said _ Hs). Qed.

Lemma bare_settled w w' : bare w' = bare w → (rc_range w → rc_range w') → settled w → settled w'.
Proof.
  intros Hs Hg [Hc Hr Hsd]. split; [rewrite <-Hc; by apply (shape_coarse _ _ _ _ Hs)|auto|].
  intros q. by rewrite (bare_cells _ _ Hs).
Qed.

(** ** Marking *)

Section mark.
Context (fuel : nat).
Hypothesis fuel_enough : (length U < fuel)%nat.

Definition is_purple w n : Prop := gp_color (word_of w n) = GC_PURPLE.

Record marking kept todo us (V : list node) (w : world) : Prop := {
  mk_settled : settled w;
  mk_ring : roots_ok (gc w) (kept ++ todo) us [];
  mk_rest : gc_rest (gc w) = gc_rest (gc w1);
  mk_visit : GcGraph.visit succ (fresh GC_GREY) (λ _, GC_GREY) (λ _, -1) (colors w1) (colors w) (nd <$> kept) [] V [];
  mk_addr : addr_ok w (kept ++ todo);
  mk_in : ∀ p, p ∈ kept ++ todo → p ∈ rs0;
  mk_kept : ∀ p, p ∈ kept → is_purple w1 (nd p);
  mk_done : ∀ p, p ∈ rs0 → is_purple w1 (nd p) → p ∈ todo ∨ nd p ∈ V
}.

Lemma node_mark_run n w : settled w → n ∈ U →
  ∃ w' V, node_mark get_gc hd fuel n w = Done tt w' ∧ walk w0 content hd elts GC_GREY (-1) w w' [n] [] V.
Proof using heap fuel_enough.
  intros [Hc Hg _] Hn. assert (Hb : budget w0 U GC_GREY fuel w).
  { split; [done|]. split; [|done]. eapply Nat.le_lt_trans; [apply length_filter|done]. }
  destruct n as [z|h]; [by apply (zval_mark_grey_run _ _ _ _ _ _ heap)|by apply (zobj_mark_grey_run _ _ _ _ _ _ heap)].
Qed.

Lemma walk_settled c n w w' xs ex V : settled w → walk w0 content hd elts c n w w' xs ex V → settled w'.
Proof.
  intros [Hc Hg Hsd] (Hs & _ & Hg'). split; [|auto|].
  - apply shape_coarse in Hs. congruence.
  - intros q. by rewrite (shape_gc _ _ _ Hs).
Qed.

(** a purple root is walked from *)
Lemma marking_purple kept p todo us V w :
  marking kept (p :: todo) us V w → is_purple w (nd p) →
  ∃ w' V', node_mark get_gc hd fuel (nd p) w = Done tt w' ∧ marking (kept ++ [p]) todo us (V ++ V') w' ∧ gc w' = gc w.
Proof using heap entries fuel_enough.
  intros [Hse Hring Hrest Hv Haddr Hin Hk Hd] Hcol.
  assert (Hp : p ∈ rs0) by (apply Hin, elem_of_app; right; left).
  destruct (settled_entry _ _ Hse Hp) as (HU & _). destruct (node_mark_run (nd p) w Hse HU) as (w' & V' & Hr & Hw).
  pose proof (walk_settled _ _ _ _ _ _ _ Hse Hw) as Hse'. destruct Hw as (Hs & Hv' & _).
  pose proof (shape_gc _ _ _ Hs) as Hg. exists w', V'. split; [done|]. split; [|done].
  assert (Haddr' : ∀ n, gp_addr (word_of w' n) = gp_addr (word_of w n)).
  { intros n. pose proof (shape_word _ _ _ _ n Hs) as E. unfold erase_color in E. congruence. }
  assert (Hcol1 : is_purple w1 (nd p)).
  { pose proof (v_col _ _ _ _ _ _ _ _ _ _ Hv (nd p)) as E. cbn in E. unfold is_purple in *. rewrite Hcol in E.
    by destruct (decide (nd p ∈ V)). }
  split.
  - done.
  - rewrite Hg, <-app_assoc. exact Hring.
  - by rewrite Hg.
  - rewrite fmap_app. exact (visit_app succ _ _ _ (painted GC_GREY) _ _ _ _ _ _ _ _ _ _ _ Hv Hv').
  - destruct Haddr as [Ha1 Ha2]. rewrite <-app_assoc. split; [intros q Hq; rewrite Haddr'; by apply Ha1|].
    intros n Hn. rewrite Haddr'. by apply Ha2.
  - intros q Hq. apply Hin. by rewrite <-app_assoc in Hq.
  - intros q [Hq| ->%list_elem_of_singleton]%elem_of_app; auto.
  - intros q Hq Hc. rewrite elem_of_app. destruct (Hd q Hq Hc) as [[->|?]%elem_of_cons|?]; auto.
    right. right. destruct (v_start _ _ _ _ _ _ _ _ _ _ Hv' (nd p) ltac:(left)) as [|Hf]; [done|].
    cbn in Hf. unfold is_purple in Hcol. rewrite Hcol in Hf. done.
Qed.

(** another one is taken out of the ring *)
Lemma marking_remove kept p todo us V w :
  marking kept (p :: todo) us V w → ¬ is_purple w (nd p) →
  ∃ w', (null_address (nd p) ;;; gc_remove_from_buffer p)%eff w = Done tt w' ∧ marking kept todo (p :: us) V w' ∧
    r_next <$> root_cells (gc w') !! p = Some (head_or todo (Some ROOTS)).
Proof using heap entries.
  intros [Hse Hring Hrest Hv Haddr Hin Hk Hd] Hcol.
  assert (Hp : p ∈ rs0) by (apply Hin, elem_of_app; right; left).
  destruct (settled_entry _ _ Hse Hp) as (HU & _).
  destruct (null_address_run _ _ _ _ _ _ heap w (nd p) (se_coarse _ Hse) HU) as (w2 & Hr2 & Hs2 & Hg2 & Hw2 & Hrc2).
  rewrite (bind_Done _ _ _ _ _ Hr2). rewrite <-Hg2 in Hring.
  destruct (remove_run_next w2 kept p todo us [] Hring) as (g' & Hr3 & Hring' & Hrest' & _ & Hsd & Hn). exists (on_gc (λ _, g') w2).
  split; [done|]. split; [|exact Hn].
  assert (Hw : ∀ n, word_of (on_gc (λ _, g') w2) n = word_of w2 n) by (by intros []).
  assert (Hrc : ∀ n, rc_of (on_gc (λ _, g') w2) n = rc_of w n) by (intros n; rewrite <-Hrc2; by destruct n).
  assert (Hsub : ∀ q, q ∈ kept ++ todo → q ∈ kept ++ p :: todo) by (intros q; rewrite !elem_of_app, elem_of_cons; tauto).
  destruct Haddr as [Ha1 Ha2].
  assert (Hpn : p ∉ kept ++ todo).
  { pose proof (ro_nodup _ _ _ _ Hring) as Hnd. rewrite <-app_assoc in Hnd. cbn in Hnd. apply nodup_middle in Hnd as (H1 & H2 & _). rewrite elem_of_app in *. tauto. }
  assert (Hne : ∀ q, q ∈ kept ++ todo → nd q ≠ nd p).
  { intros q Hq E. pose proof (Ha1 q (Hsub q Hq)) as E1. rewrite E, (Ha1 p) in E1 by (apply elem_of_app; right; left). congruence. }
  assert (Hcolor : ∀ n, gp_color (word_of (on_gc (λ _, g') w2) n) = gp_color (word_of w n)).
  { intros n. rewrite Hw, Hw2. by destruct (decide (n = nd p)) as [->|]. }
  split.
  - split.
    + rewrite <-(se_coarse _ Hse). rewrite <-(shape_coarse _ _ _ _ Hs2). reflexivity.
    + intros n. rewrite Hrc. apply Hse.
    + intros q. cbn. rewrite Hsd, Hg2. apply Hse.
  - exact Hring'.
  - cbn. by rewrite Hrest', Hg2.
  - eapply visit_same; [| |exact Hv]; intros n; cbn; [apply Hcolor|apply Hrc].
  - split.
    + intros q Hq. rewrite Hw, Hw2, decide_False by auto. auto.
    + intros n HnU. rewrite Hw, Hw2. destruct (decide (n = nd p)) as [->|Hnp]; [by left|].
      destruct (Ha2 n HnU) as [?|(q & Hq & ->)]; [by left|right]. exists q. split; [|done].
      rewrite elem_of_app, elem_of_cons in Hq. rewrite elem_of_app. destruct Hq as [?|[->|?]]; [by left|done|by right].
  - auto.
  - auto.
  - intros q Hq Hc. destruct (Hd q Hq Hc) as [[->|?]%elem_of_cons|?]; auto. right.
    pose proof (v_col _ _ _ _ _ _ _ _ _ _ Hv (nd p)) as E. cbn in E. destruct (decide (nd p ∈ V)); [done|].
    destruct Hcol. unfold is_purple in *. congruence.
Qed.

Lemma mark_roots_run us w :
  marking [] rs0 us [] w → ∃ w' kept us' V, gc_mark_roots get_gc fuel w = Done tt w' ∧ marking kept [] us' V w'.
Proof using heap entries fuel_enough.
  intros Hm. unfold gc_mark_roots.
  destruct (each_root_run (mark_root get_gc fuel) (λ todo w, ∃ kept us V, marking kept todo us V w) rs0 us w) as (w' & Hr & kept & us' & V & Hm').
  - intros l w' (kept & us' & V & Hm'). pose proof (roots_not_head _ _ _ _ (mk_ring _ _ _ _ _ Hm')) as Hn.
    rewrite !elem_of_app in Hn. tauto.
  - clear w Hm us. intros p todo w (kept & us & V & Hm).
    assert (Hp : p ∈ rs0) by (apply (mk_in _ _ _ _ _ Hm), elem_of_app; right; left).
    pose proof (settled_entry _ _ (mk_settled _ _ _ _ _ Hm) Hp) as He.
    pose proof (ring_next _ _ _ _ _ _ (mk_ring _ _ _ _ _ Hm)) as Hn.
    destruct (root_cells (gc w) !! p) as [r|] eqn:Hr; [|done]. exists r.
    rewrite (mark_root_node _ _ _ _ _ _ heap nd fuel p r w (se_coarse _ (mk_settled _ _ _ _ _ Hm)) He Hr).
    destruct (Z.eqb_spec (gp_color (word_of w (nd p))) GC_PURPLE) as [Hc|Hc].
    + destruct (marking_purple _ _ _ _ _ _ Hm Hc) as (w' & V' & Hrun & Hm' & Hg). exists w'. do 2 (split; [done|]).
      split; [by eexists _, _, _|]. by rewrite Hg, Hr.
    + destruct (marking_remove _ _ _ _ _ _ Hm Hc) as (w' & Hrun & Hm' & Hn'). exists w'. do 2 (split; [done|]). split; [by eexists _, _, _|done].
  - exact (mk_ring _ _ _ _ _ Hm).
  - by exists [], us, [].
  - by exists w', kept, us', V.
Qed.

End mark.

(** ** Scanning *)

Section scan.
Context (kept : list ptr) (S : list node) (w2 : world) (nb fuel : nat).
Hypothesis S_U : ∀ x, x ∈ S → x ∈ U.
Hypothesis S_closed : ∀ x y, x ∈ S → y ∈ succ x → y ∈ S.
Hypothesis rc_bounds : ∀ y, y ∈ S → 0 ≤ rc_of w2 y ∧ rc_of w2 y + edges succ S y < 2 ^ 32.
Hypothesis nb_enough : (length U < nb)%nat.
Hypothesis fuel_enough : (length U < fuel)%nat.
Hypothesis kept_in : ∀ p, p ∈ kept → p ∈ rs0 ∧ nd p ∈ S.
Hypothesis start_settled : settled w2.
Hypothesis start_grey : ∀ y, y ∈ S → gp_color (word_of w2 y) = GC_GREY.
Local Abbreviation inv := (scan_inv w0 content hd elts U S (rc_of w2)).
Local Abbreviation scans := (GcScan.scans w0 content hd elts S).

Lemma node_scan_run n w : inv fuel w → n ∈ S →
  ∃ w' V T, node_scan get_gc hd nb fuel n w = Done tt w' ∧ inv fuel w' ∧ scans w w' [n] V T.
Proof using heap S_U S_closed rc_bounds nb_enough.
  intros Hi Hn. destruct n as [z|h].
  - by apply (zval_scan_run _ _ _ _ _ _ heap).
  - apply (zobj_scan_run _ _ _ _ _ _ heap); try done. eapply stored; [exact heap| |by apply S_U]. apply Hi.
Qed.

Lemma scan_inv_start : inv fuel w2.
Proof using start_settled start_grey fuel_enough.
  split; [apply start_settled..| |].
  - eapply Nat.le_lt_trans; [apply length_filter|done].
  - exists []. split.
    + constructor.
    + intros y. split; [by intros ?%elem_of_nil|]. intros [Hy Hc]. cbn in Hc. by rewrite start_grey in Hc.
    + intros y Hy. right. right. by apply start_grey.
    + intros y. cbn. by rewrite Z.add_0_r.
    + by intros v y ?%elem_of_nil.
    + by intros v ?%elem_of_nil.
    + intros y Hy Hc. cbn in Hc. by rewrite start_grey in Hc.
Qed.

Lemma scan_roots_run us :
  roots_ok (gc w2) kept us [] →
  ∃ w3, gc_scan_roots get_gc nb fuel w2 = Done tt w3 ∧ gc w3 = gc w2 ∧ inv fuel w3 ∧ scans w2 w3 (nd <$> kept) [] [].
Proof using heap entries S_U S_closed rc_bounds nb_enough fuel_enough kept_in start_settled start_grey.
  intros Hring. unfold gc_scan_roots.
  destruct (each_root_run (scan_root get_gc nb fuel)
    (λ todo w, gc w = gc w2 ∧ inv fuel w ∧ ∃ done, kept = done ++ todo ∧ scans w2 w (nd <$> done) [] []) kept us w2)
    as (w3 & Hr & Hg & Hi & l & Hl & Hs).
  - intros l w (Hg & Hi & l' & Hl & Hs). pose proof (roots_not_head _ _ _ _ Hring) as Hn. rewrite Hl, !elem_of_app in Hn. tauto.
  - intros p todo w (Hg & Hi & l & Hl & Hs). destruct (kept_in p) as [Hp HpS]; [rewrite Hl; apply elem_of_app; right; left|].
    assert (Hse : settled w) by (split; [apply Hi..|intros q; rewrite Hg; apply start_settled]).
    pose proof Hring as Hring'. rewrite Hl, <-Hg in Hring'.
    pose proof (ring_next _ _ _ _ _ _ Hring') as Hn.
    destruct (root_cells (gc w) !! p) as [r|] eqn:Hr; [|done]. exists r.
    rewrite (scan_root_node get_gc w0 hd U nd nb fuel p r w (si_coarse _ _ _ _ _ _ _ _ _ Hi) (settled_entry _ _ Hse Hp) Hr).
    destruct (node_scan_run (nd p) w Hi HpS) as (w' & V & T & Hrun & Hi' & Hs'). exists w'. do 2 (split; [done|]).
    assert (Hg' : gc w' = gc w) by (apply (shape_gc erase_color), Hs'). split; [|by rewrite Hg', Hr].
    split; [congruence|]. split; [done|]. exists (l ++ [p]). rewrite <-app_assoc. split; [done|]. rewrite fmap_app.
    exact (scans_app w0 content hd elts S (rc_of w2) S_closed rc_bounds _ _ _ _ _ [] [] [] [] Hs Hs').
  - done.
  - split; [done|]. split; [apply scan_inv_start|]. exists []. split; [done|]. apply scans_nil.
  - exists w3. rewrite app_nil_r in Hl. by subst l.
Qed.

End scan.

(** ** Collecting *)

Section collect.
Context (kept : list ptr) (S : list node) (w3 : world) (fuel : nat).
Hypothesis S_U : ∀ x, x ∈ S → x ∈ U.
Hypothesis S_closed : ∀ x y, x ∈ S → y ∈ succ x → y ∈ S.
Hypothesis fuel_enough : (length U < fuel)%nat.
Hypothesis kept_in : ∀ p, p ∈ kept → p ∈ rs0 ∧ nd p ∈ S.
Local Abbreviation collected := (GcCollect.collected w0 content hd elts).

(** white when collecting starts *)
Definition garbage (n : node) : Prop := n ∈ S ∧ gp_color (word_of w3 n) = GC_WHITE.
(** the node of a root whose turn is to come *)
Definition pending todo (n : node) : Prop := ∃ p, p ∈ todo ∧ n = nd p.

(** the nodes [D] were entered, the values among them are in the list [l] *)
Record collecting rs todo us (D : list node) l (w : world) : Prop := {
  ct_settled : settled w;
  ct_ring : roots_ok (gc w) rs us [];
  ct_in : NoDup todo ∧ ∀ p, p ∈ todo → p ∈ kept;
  ct_pending : ∀ p, p ∈ todo → nd p ∉ D ∧ gp_addr (word_of w (nd p)) = GRoot p;
  ct_addr : ∀ n, n ∈ S → n ∉ D → gp_addr (word_of w n) = GNull ∨ pending todo n;
  ct_color : ∀ n, n ∈ S → n ∉ D → gp_color (word_of w n) = gp_color (word_of w3 n);
  ct_nodup : NoDup D;
  ct_garbage : ∀ n, n ∈ D → garbage n ∧ is_white (word_of w n) = false;
  ct_rc : ∀ y, u32 (rc_of w y) = u32 (rc_of w3 y + (edges succ D y * counted y + count (filter is_value D) y));
  ct_chain : chain w l;
  ct_list : l ≡ₚ values D;
  ct_closed : ∀ v y, v ∈ D → y ∈ succ v → y ∈ D ∨ ¬ garbage y ∨ pending todo y;
  ct_done : ∀ p, p ∈ kept → p ∈ todo ∨ ¬ garbage (nd p) ∨ nd p ∈ D
}.

Lemma node_collect_run n w : settled w → n ∈ U →
  ∃ w' V T, node_collect get_gc hd fuel n w = Done tt w' ∧ collected w w' [n] [] V T ∧ T ≡ₚ filter is_value V.
Proof using heap fuel_enough.
  intros [Hc _ _] Hn. assert (Hb : white_budget w0 U fuel w).
  { split; [done|]. eapply Nat.le_lt_trans; [apply length_filter|done]. }
  destruct n as [z|h]; [by apply (zval_collect_white_run _ _ _ _ _ _ heap)|].
  apply (zobj_collect_white_run _ _ _ _ _ _ heap); try done. by eapply stored.
Qed.

(** when the address of a root was taken, it is white like the others *)
Lemma null_white rs p todo us D l w w' :
  collecting rs (p :: todo) us D l w →
  (∀ y, word_of w' y = if decide (y = nd p) then GC_SET_ADDRESS (word_of w (nd p)) GNull else word_of w y) →
  nd p ∉ D ∧ (∀ q, q ∈ todo → gp_addr (word_of w' (nd q)) = GRoot q) ∧
  (∀ n, n ∈ S → n ∉ D → (gp_addr (word_of w' n) = GNull ∨ pending todo n) ∧ gp_color (word_of w' n) = gp_color (word_of w3 n)) ∧
  (∀ n, n ∈ D → word_of w' n = word_of w n).
Proof.
  intros Hct Hw. destruct (ct_pending _ _ _ _ _ _ Hct p ltac:(left)) as [HpD Hpa]. split; [done|]. split; [|split].
  - intros q Hq. destruct (ct_pending _ _ _ _ _ _ Hct q ltac:(by right)) as [_ Hqa]. rewrite Hw.
    destruct (ct_in _ _ _ _ _ _ Hct) as [[Hpt _]%NoDup_cons _].
    rewrite decide_False; [done|]. intros E. rewrite E in Hqa. congruence.
  - intros n Hn HnD. rewrite Hw. pose proof (ct_color _ _ _ _ _ _ Hct n Hn HnD) as Hc. destruct (decide (n = nd p)) as [->|Hne].
    + split; [by left|done].
    + split; [|done]. destruct (ct_addr _ _ _ _ _ _ Hct n Hn HnD) as [?|(q & [->|Hq]%elem_of_cons & ->)]; [by left|done|]. right. by exists q.
  - intros n Hn. rewrite Hw, decide_False; [done|]. by intros ->.
Qed.

Lemma S_path x y : x ∈ S → rtc (refers succ) x y → y ∈ S.
Proof using S_closed. intros Hx Hp. induction Hp as [|a b c Hab _ IH]; [done|]. apply IH. by eapply S_closed. Qed.

(** what a walk from [n] enters is garbage that was not entered before *)
Lemma collected_garbage w w' n V T (D : list node) todo :
  collected w w' [n] [] V T → n ∈ S →
  (∀ n, n ∈ S → n ∉ D → (gp_addr (word_of w n) = GNull ∨ pending todo n) ∧ gp_color (word_of w n) = gp_color (word_of w3 n)) →
  (∀ n, n ∈ D → is_white (word_of w n) = false) →
  (∀ v, v ∈ V → v ∈ S ∧ v ∉ D ∧ is_white (word_of w v) = true ∧ garbage v) ∧
  (∀ y, y ∈ S → is_one (col (whites w) y) = false → y ∈ D ∨ ¬ garbage y ∨ pending todo y).
Proof using S_closed.
  intros Hcl Hn Hw HD. split.
  - intros v Hv. pose proof (cl_visit _ _ _ _ _ _ _ _ _ _ Hcl) as Hvis.
    assert (HvS : v ∈ S).
    { destruct (v_reach _ _ _ _ _ _ _ _ _ _ Hvis v Hv) as (x & ->%list_elem_of_singleton & Hp).
      by eapply S_path. }
    pose proof (proj1 (fresh_white _ _) (v_fresh _ _ _ _ _ _ _ _ _ _ Hvis v Hv)) as Hwh.
    assert (HvD : v ∉ D) by (intros HvD; pose proof (HD v HvD); congruence).
    do 3 (split; [done|]). split; [done|]. destruct (Hw v HvS HvD) as [_ <-]. by apply is_white_spec in Hwh as [_ ?].
  - intros y Hy Hf. destruct (decide (y ∈ D)) as [|HyD]; [by left|right].
    destruct (Hw y Hy HyD) as [[Ha|Hp] Hc]; [left|by right]. intros [_ Hg].
    assert (is_white (word_of w y) = true) as Hwh by (apply is_white_spec; split; congruence).
    apply fresh_white in Hwh. congruence.
Qed.

(** the list grows by the values that were entered *)
Lemma entered_list rs todo us D l w wa wb n V T :
  collecting rs todo us D l w → collected wa wb [n] [] V T → T ≡ₚ filter is_value V → gc wa = gc w →
  (∀ m, m ∈ D → word_of wa m = word_of w m) → (∀ v, v ∈ V → v ∉ D) →
  chain wb (values (reverse T) ++ l) ∧ values (reverse T) ++ l ≡ₚ values (V ++ D).
Proof.
  intros Hct Hcl HT Hg HD HV. assert (HlD : ∀ z, z ∈ l → NZ z ∈ D).
  { intros z Hz. apply elem_of_values. by rewrite <-(ct_list _ _ _ _ _ _ Hct). }
  split.
  - apply (cl_chain _ _ _ _ _ _ _ _ _ _ Hcl).
    + unfold chain. rewrite Hg. eapply to_free_words; [|apply (ct_chain _ _ _ _ _ _ Hct)]. auto.
    + intros z Hz HzT. rewrite HT in HzT. apply list_elem_of_filter in HzT as [_ HzV]. by apply (HV _ HzV), HlD.
    + rewrite HT. apply NoDup_filter, (cl_visit _ _ _ _ _ _ _ _ _ _ Hcl).
  - rewrite values_app, (ct_list _ _ _ _ _ _ Hct). f_equiv. rewrite <-(values_filter V). unfold values.
    by rewrite reverse_Permutation, HT.
Qed.

(** what was entered is closed, up to the roots to come *)
Lemma entered_closed rs p todo us D l w wa wb V T :
  collecting rs (p :: todo) us D l w → collected wa wb [nd p] [] V T → nd p ∈ S → (∀ v, v ∈ V → v ∈ S) →
  (∀ y, y ∈ S → is_one (col (whites wa) y) = false → y ∈ D ∨ ¬ garbage y ∨ pending todo y) →
  (∀ v y, v ∈ V ++ D → y ∈ succ v → y ∈ V ++ D ∨ ¬ garbage y ∨ pending todo y) ∧
  (∀ q, q ∈ kept → q ∈ todo ∨ ¬ garbage (nd q) ∨ nd q ∈ V ++ D).
Proof using S_closed.
  intros Hct Hcl HpS HVS Hold. pose proof (cl_visit _ _ _ _ _ _ _ _ _ _ Hcl) as Hvis.
  assert (Hp : nd p ∈ V ++ D ∨ ¬ garbage (nd p) ∨ pending todo (nd p)).
  { rewrite elem_of_app. destruct (v_start _ _ _ _ _ _ _ _ _ _ Hvis (nd p) ltac:(left)) as [|Hf]; [auto|].
    destruct (Hold _ HpS Hf) as [?|[?|?]]; auto. }
  split.
  - intros v y [Hv|Hv]%elem_of_app Hy; rewrite elem_of_app.
    + destruct (v_closed _ _ _ _ _ _ _ _ _ _ Hvis v y Hv Hy) as [|Hf]; [auto|].
      destruct (Hold y) as [?|[?|?]]; auto. eapply S_closed; [|exact Hy]. auto.
    + destruct (ct_closed _ _ _ _ _ _ Hct v y Hv Hy) as [?|[?|(q & [->|Hq]%elem_of_cons & ->)]]; auto.
      * by rewrite <-elem_of_app.
      * right. right. by exists q.
  - intros q Hq. destruct (ct_done _ _ _ _ _ _ Hct q Hq) as [[->|?]%elem_of_cons|[?|?]]; auto.
    + destruct Hp as [?|[?|(r & Hr & E)]]; auto.
      destruct (ct_pending _ _ _ _ _ _ Hct r ltac:(by right)) as [_ E1]. destruct (ct_pending _ _ _ _ _ _ Hct p ltac:(left)) as [_ E2].
      rewrite <-E, E2 in E1. left. congruence.
    + right. right. apply elem_of_app. by right.
Qed.

(** a root, its address being taken, is walked from *)
Lemma collecting_visit rs p todo us D l w :
  collecting rs (p :: todo) us D l w →
  ∃ wa wb D' l', null_address (nd p) w = Done tt wa ∧ node_collect get_gc hd fuel (nd p) wa = Done tt wb ∧
    collecting rs todo us D' l' wb ∧ root_cells (gc wb) = root_cells (gc w).
Proof using heap entries S_U S_closed fuel_enough kept_in.
  intros Hct. pose proof (ct_settled _ _ _ _ _ _ Hct) as Hse. destruct (ct_in _ _ _ _ _ _ Hct) as [[Hpt Hnt]%NoDup_cons Hin].
  destruct (kept_in p (Hin p ltac:(left))) as [Hp0 HpS].
  destruct (null_address_run _ _ _ _ _ _ heap w (nd p) (se_coarse _ Hse) (S_U _ HpS)) as (wa & Hra & Hsa & Hga & Hwa & Hrca).
  destruct (null_white _ _ _ _ _ _ _ _ Hct Hwa) as (HpD & Htodo & HwS & HwD).
  assert (Hba : bare wa = bare w) by (by apply (shape_weaken (λ _, gnull) id)).
  assert (Hsea : settled wa) by (eapply bare_settled; [done| |done]; intros Hg y; rewrite Hrca; apply Hg).
  destruct (node_collect_run (nd p) wa Hsea (S_U _ HpS)) as (wb & V & T & Hrb & Hcl & HT).
  assert (HDw : ∀ n, n ∈ D → is_white (word_of wa n) = false).
  { intros n Hn. rewrite HwD by done. by apply (ct_garbage _ _ _ _ _ _ Hct). }
  destruct (collected_garbage _ _ _ _ _ D todo Hcl HpS HwS HDw) as [HV Hold].
  pose proof (cl_visit _ _ _ _ _ _ _ _ _ _ Hcl) as Hvis.
  assert (HTV : ∀ n, n ∈ T → n ∈ V) by (intros n; rewrite HT; by intros [_ ?]%list_elem_of_filter).
  assert (Hfr : ∀ n, n ∉ V → word_of wb n = word_of wa n) by (intros n Hn; apply (cl_frame _ _ _ _ _ _ _ _ _ _ Hcl); auto).
  assert (Hpend : ∀ q, q ∈ todo → nd q ∉ V).
  { intros q Hq HqV. destruct (HV _ HqV) as (_ & _ & Hwh & _). apply is_white_spec in Hwh as [Hwh _]. by rewrite Htodo in Hwh. }
  destruct (entered_list _ _ _ _ _ _ _ _ _ _ _ Hct Hcl HT Hga HwD) as [Hchain Hlist]; [intros v Hv; by apply HV|].
  destruct (entered_closed _ _ _ _ _ _ _ _ _ _ _ Hct Hcl HpS (λ v Hv, proj1 (HV v Hv)) Hold) as [Hclosed Hdone].
  exists wa, wb, (V ++ D), (values (reverse T) ++ l). split; [done|]. split; [done|].
  split; [|by rewrite (bare_cells _ _ (cl_bare _ _ _ _ _ _ _ _ _ _ Hcl)), Hga]. split.
  - eapply bare_settled; [apply (cl_bare _ _ _ _ _ _ _ _ _ _ Hcl)|apply (cl_range _ _ _ _ _ _ _ _ _ _ Hcl)|done].
  - eapply roots_ok_bare; [apply (cl_bare _ _ _ _ _ _ _ _ _ _ Hcl)|]. rewrite Hga. apply Hct.
  - split; [done|]. intros q Hq. apply Hin. by right.
  - intros q Hq. rewrite elem_of_app. rewrite Hfr by auto. split; [|by apply Htodo].
    intros [?|?]; [by apply (Hpend q)|]. by apply (ct_pending _ _ _ _ _ _ Hct q ltac:(by right)).
  - intros n Hn [HnV HnD]%not_elem_of_app. rewrite Hfr by done. by apply HwS.
  - intros n Hn [HnV HnD]%not_elem_of_app. rewrite Hfr by done. by apply HwS.
  - apply NoDup_app. split; [apply Hvis|]. split; [|apply Hct]. intros v Hv. by apply HV.
  - intros n [Hn|Hn]%elem_of_app.
    + split; [by apply HV|]. destruct (is_white (word_of wb n)) eqn:E; [|done]. apply fresh_white in E.
      rewrite (v_col _ _ _ _ _ _ _ _ _ _ Hvis), decide_True in E by done. done.
    + split; [by apply (ct_garbage _ _ _ _ _ _ Hct)|]. eapply collected_stays; [exact Hcl|]. auto.
  - intros y. pose proof (v_rc _ _ _ _ _ _ _ _ _ _ Hvis y) as E. cbn [rc whites abs] in E. rewrite E, Hrca, <-Z.add_assoc.
    rewrite (u32_add _ _ _ (ct_rc _ _ _ _ _ _ Hct y)). rewrite count_nil, edges_app, filter_app, count_app.
    assert (count T y = count (filter is_value V) y) as -> by (unfold count; by rewrite HT). f_equal. lia.
  - exact Hchain.
  - exact Hlist.
  - exact Hclosed.
  - exact Hdone.
Qed.

(** and taken out of the ring *)
Lemma collecting_remove p todo us D l w :
  collecting (p :: todo) todo us D l w →
  ∃ w', gc_remove_from_buffer p w = Done tt w' ∧ collecting todo todo (p :: us) D l w' ∧
    r_next <$> root_cells (gc w') !! p = Some (head_or todo (Some ROOTS)).
Proof.
  intros [Hse Hring Hin Hp Ha Hc Hn Hg Hrc Hch Hl Hcl Hd].
  destruct (remove_run_next w [] p todo us [] Hring) as (g' & Hr & Hring' & Hrest & _ & Hsd & Hnx).
  exists (on_gc (λ _, g') w). split; [done|]. split; [|exact Hnx].
  split; try done.
  - split; [apply Hse..|]. intros q. cbn. rewrite Hsd. apply Hse.
  - unfold chain. assert (zval_to_free (gc (on_gc (λ _, g') w)) = zval_to_free (gc w)) as -> by (unfold gc_rest in Hrest; cbn; congruence).
    eapply to_free_words; [|exact Hch]. done.
Qed.

Lemma collect_roots_run us :
  settled w3 → roots_ok (gc w3) kept us [] → addr_ok w3 kept → zval_to_free (gc w3) = Some FREE_LIST_END →
  ∃ w4 us' D l, gc_collect_roots get_gc fuel w3 = Done tt w4 ∧ collecting [] [] us' D l w4.
Proof using heap entries S_U S_closed fuel_enough kept_in.
  intros Hse Hring [Ha1 Ha2] Hend. unfold gc_collect_roots.
  destruct (each_root_run (collect_root get_gc fuel) (λ todo w, ∃ us D l, collecting todo todo us D l w) kept us w3) as (w4 & Hr & us' & D & l & Hct).
  - intros todo w (us' & D & l & Hct). pose proof (roots_not_head _ _ _ _ (ct_ring _ _ _ _ _ _ Hct)) as Hn. rewrite !elem_of_app in Hn. tauto.
  - intros p todo w (us' & D & l & Hct). pose proof (ring_next _ [] _ _ _ _ (ct_ring _ _ _ _ _ _ Hct)) as Hn.
    destruct (root_cells (gc w) !! p) as [r|] eqn:Hr; [|done]. exists r.
    destruct (kept_in p) as [Hp0 _]; [apply (ct_in _ _ _ _ _ _ Hct); left|].
    rewrite (collect_root_node _ _ _ _ _ _ heap nd fuel p r w (se_coarse _ (ct_settled _ _ _ _ _ _ Hct))
      (settled_entry _ _ (ct_settled _ _ _ _ _ _ Hct) Hp0) Hr).
    destruct (collecting_visit _ _ _ _ _ _ _ Hct) as (wa & wb & D' & l' & Hra & Hrb & Hct' & _).
    destruct (collecting_remove _ _ _ _ _ _ Hct') as (wc & Hrc & Hct'' & Hn').
    exists wc. split; [done|]. split; [by rewrite (bind_Done _ _ _ _ _ Hra), (bind_Done _ _ _ _ _ Hrb)|]. split; [by eexists _, _, _|done].
  - exact Hring.
  - exists us, [], []. split; try done.
    + split; [|done]. pose proof (ro_nodup _ _ _ _ Hring) as Hnd. by apply NoDup_app in Hnd as [? _].
    + intros p Hp. split; [apply not_elem_of_nil|auto].
    + intros n Hn _. apply Ha2. auto.
    + constructor.
    + by intros n ?%elem_of_nil.
    + intros y. f_equal. cbn. rewrite count_nil. lia.
    + by intros v y ?%elem_of_nil.
    + auto.
  - by exists w4, us', D, l.
Qed.

(** at the end all garbage was entered *)
Lemma collecting_all us D l w :
  collecting [] [] us D l w →
  (∀ y, garbage y → ∃ x, x ∈ nd <$> kept ∧ garbage x ∧ rtc (λ m n, refers succ m n ∧ garbage n) x y) →
  ∀ y, y ∈ D ↔ garbage y.
Proof.
  intros Hct Hreach y. split; [intros Hy; by apply (ct_garbage _ _ _ _ _ _ Hct)|]. intros Hy.
  assert (Hnp : ∀ n, ¬ pending [] n) by (by intros n (p & ?%elem_of_nil & _)).
  destruct (Hreach y Hy) as (x & (p & -> & Hp)%list_elem_of_fmap & Hx & Hpath).
  assert (HxD : nd p ∈ D) by (destruct (ct_done _ _ _ _ _ _ Hct p Hp) as [?%elem_of_nil|[?|?]]; done).
  revert HxD. clear -Hpath Hct Hnp. induction Hpath as [|a b c [Hab Hb] _ IH]; [done|]. intros HaD. apply IH.
  destruct (ct_closed _ _ _ _ _ _ Hct a b HaD Hab) as [?|[?|?]]; [done|done|by destruct (Hnp b)].
Qed.

End collect.

End phases.
