(* ===== verification/GcTheorems.v ===== *)
(** * The cycle collector finds exactly the garbage

    The suspects are what the purple roots reach.  A suspect is alive if references that
    do not come from suspects lead to it.  [gc_find_garbage] makes the list of all
    suspect values that are not alive. *)

From stdpp Require Import relations.
From S2P Require Import Prelude DList HashModel HashRepr HashOps HashSpec ObjModel ObjSpec GcModel GcGraph GcSpec GcScan GcCollect GcRoots GcPhases.
Local Open Scope Z_scope.

Section finding.
Context (get_gc : zend_object_handlers → Z → W (list (option ptr) * option Z)).
Context (w0 : world) (content : Z → list (option ptr) * option Z) (hd : Z → zend_object_handlers).
Context (elts : Z → list ptr) (U : list node) (nd : ptr → node) (rs us : list ptr).
Local Abbreviation succ := (GcSpec.succ w0 content hd elts).
Implicit Types (w : world) (z p : ptr) (h : Z) (S : list node).

Definition suspect (n : node) : Prop := ∃ p, p ∈ rs ∧ is_purple w0 (nd p) ∧ rtc (refers succ) (nd p) n.
Definition alive S (n : node) : Prop := ∃ x, x ∈ S ∧ edges succ S x < rc_of w0 x ∧ rtc (refers succ) x n.

(** a heap and a root buffer between two collections *)
Record gc_ready : Prop := {
  gr_heap : heap_ok get_gc w0 content hd elts U;
  (** the counts of the nodes count the references to them *)
  gr_range : rc_range w0;
  gr_counts : NoDup U ∧ ∀ y, y ∈ U → edges succ U y ≤ rc_of w0 y;
  gr_color : ∀ y, y ∈ U → gp_color (word_of w0 y) ≠ GC_GREY;
  gr_ring : roots_ok (gc w0) rs us [];
  gr_entries : ∀ p, p ∈ rs → entry_ok hd U nd w0 p;
  gr_addr : addr_ok U nd w0 rs
}.
Hypothesis ready : gc_ready.

Local Abbreviation w1 := (on_gc start_run w0).
Lemma entries1 : ∀ p, p ∈ rs → entry_ok hd U nd w1 p.
Proof using ready. intros p Hp. apply (gr_entries ready p Hp). Qed.

Lemma marking_start : marking w0 content hd elts U nd w1 rs [] rs us [] w1.
Proof using ready.
  split.
  - split; [done|apply ready|done].
  - by destruct (gr_ring ready).
  - done.
  - apply visit_nil.
  - apply (gr_addr ready).
  - done.
  - by intros p ?%elem_of_nil.
  - auto.
Qed.

Section marked.
Context (kept us2 : list ptr) (V : list node) (w2 : world).
Hypothesis Hm : marking w0 content hd elts U nd w1 rs kept [] us2 V w2.

Lemma kept_V p : p ∈ kept → p ∈ rs ∧ nd p ∈ V.
Proof using Hm.
  intros Hp. assert (Hin : p ∈ rs) by (apply (mk_in _ _ _ _ _ _ _ _ _ _ _ _ _ Hm), elem_of_app; by left). split; [done|].
  destruct (mk_done _ _ _ _ _ _ _ _ _ _ _ _ _ Hm p Hin) as [?%elem_of_nil|?]; [|done..]. by apply (mk_kept _ _ _ _ _ _ _ _ _ _ _ _ _ Hm).
Qed.

Lemma V_reach y : y ∈ V → ∃ p, p ∈ kept ∧ rtc (refers succ) (nd p) y.
Proof using Hm.
  intros Hy. destruct (v_reach _ _ _ _ _ _ _ _ _ _ (mk_visit _ _ _ _ _ _ _ _ _ _ _ _ _ Hm) y Hy) as (x & (p & -> & Hp)%list_elem_of_fmap & Hr).
  by exists p.
Qed.

Lemma V_U y : y ∈ V → y ∈ U.
Proof using ready Hm.
  intros (p & Hp & Hr)%V_reach. apply kept_V in Hp as [Hp _]. destruct (gr_entries ready p Hp) as [HU _].
  clear Hp. revert HU. induction Hr as [|a b c Hab _ IH]; [done|]. intros Ha. apply IH. by apply (ho_closed _ _ _ _ _ _ (gr_heap ready) a).
Qed.

Lemma V_closed x y : x ∈ V → y ∈ succ x → y ∈ V.
Proof using ready Hm.
  intros Hx Hy. destruct (v_closed _ _ _ _ _ _ _ _ _ _ (mk_visit _ _ _ _ _ _ _ _ _ _ _ _ _ Hm) x y Hx Hy) as [|Hf]; [done|].
  destruct (gr_color ready y); [apply (ho_closed _ _ _ _ _ _ (gr_heap ready) x); [by apply V_U|done]|].
  unfold fresh in Hf. by apply negb_false_iff, Z.eqb_eq in Hf.
Qed.

Lemma V_suspect n : n ∈ V ↔ suspect n.
Proof using ready Hm.
  split.
  - intros (p & Hp & Hr)%V_reach. exists p. split; [by apply kept_V|]. split; [|done].
    by apply (mk_kept _ _ _ _ _ _ _ _ _ _ _ _ _ Hm).
  - intros (p & Hp & Hc & Hr). assert (HpV : nd p ∈ V).
    { by destruct (mk_done _ _ _ _ _ _ _ _ _ _ _ _ _ Hm p Hp Hc) as [?%elem_of_nil|?]. }
    clear Hp Hc. induction Hr as [|a b c Hab _ IH]; [done|]. apply IH. by apply (V_closed a).
Qed.

(** the references from suspects are off the counts *)
Lemma V_counts y : 0 ≤ edges succ V y ≤ rc_of w0 y ∧ rc_of w2 y = rc_of w0 y - edges succ V y.
Proof using ready Hm.
  pose proof (mk_visit _ _ _ _ _ _ _ _ _ _ _ _ _ Hm) as Hv. pose proof (edges_nonneg succ V y) as H0.
  assert (Hle : edges succ V y ≤ rc_of w0 y).
  { destruct (decide (y ∈ U)) as [HU|HU].
    - destruct (gr_counts ready) as [_ Hc]. etransitivity; [|by apply Hc]. apply edges_incl; [apply Hv|apply V_U].
    - destruct (decide (0 < edges succ V y)) as [(v & HvV & Hy)%edges_pos|Hn].
      + destruct HU. apply (ho_closed _ _ _ _ _ _ (gr_heap ready) v); [by apply V_U|done].
      + pose proof (gr_range ready y). lia. }
  split; [done|]. pose proof (v_rc _ _ _ _ _ _ _ _ _ _ Hv y) as E. cbn [rc colors abs] in E. rewrite !count_nil in E.
  pose proof (se_range _ _ _ (mk_settled _ _ _ _ _ _ _ _ _ _ _ _ _ Hm) y) as Hr2. pose proof (gr_range ready y) as Hr0.
  change (rc_of w1 y) with (rc_of w0 y) in E. rewrite !u32_small in E; lia.
Qed.

Lemma V_bounds y : y ∈ V → 0 ≤ rc_of w2 y ∧ rc_of w2 y + edges succ V y < 2 ^ 32.
Proof using ready Hm. intros _. pose proof (V_counts y) as [? ->]. pose proof (gr_range ready y). lia. Qed.

Lemma V_grey y : y ∈ V → gp_color (word_of w2 y) = GC_GREY.
Proof using Hm.
  intros Hy. pose proof (v_col _ _ _ _ _ _ _ _ _ _ (mk_visit _ _ _ _ _ _ _ _ _ _ _ _ _ Hm) y) as E. by rewrite decide_True in E.
Qed.

Lemma live_alive y : live succ V (rc_of w2) y ↔ alive V y.
Proof using ready Hm.
  split; intros (x & Hx & Hr & Hp); exists x; (split; [done|]); (split; [|done]); pose proof (V_counts x) as [? E]; lia.
Qed.

Lemma alive_path x y : alive V x → rtc (refers succ) x y → alive V y.
Proof. intros (a & Ha & Hr & Hp) Hxy. exists a. do 2 (split; [done|]). by etransitivity. Qed.

Context (nb fuel : nat).
Hypothesis nb_enough : (length U < nb)%nat.
Hypothesis fuel_enough : (length U < fuel)%nat.

(** what scanning leaves *)
Lemma scanned_world :
  ∃ w3 B, gc_scan_roots get_gc nb fuel w2 = Done tt w3 ∧ gc w3 = gc w2 ∧ settled w0 w1 w3 ∧ addr_ok U nd w3 kept ∧
    NoDup B ∧ (∀ y, y ∈ B → y ∈ V) ∧ (∀ y, u32 (rc_of w3 y) = u32 (rc_of w2 y + edges succ B y)) ∧
    ∀ y, y ∈ V → (alive V y ∧ gp_color (word_of w3 y) = GC_BLACK ∧ y ∈ B) ∨ (¬ alive V y ∧ gp_color (word_of w3 y) = GC_WHITE ∧ y ∉ B).
Proof using ready Hm nb_enough fuel_enough.
  pose proof (mk_settled _ _ _ _ _ _ _ _ _ _ _ _ _ Hm) as Hse.
  pose proof (mk_ring _ _ _ _ _ _ _ _ _ _ _ _ _ Hm) as Hring. rewrite app_nil_r in Hring.
  destruct (scan_roots_run _ _ _ _ _ _ (gr_heap ready) nd w1 rs entries1 kept V w2 nb fuel V_U V_closed V_bounds nb_enough fuel_enough
    kept_V Hse V_grey us2 Hring) as (w3 & Hr & Hg & Hi & Hs & _ & Hsc).
  destruct (si_ok _ _ _ _ _ _ _ _ _ Hi) as [B HB]. exists w3, B. split; [done|]. split; [done|].
  split; [split; [apply Hi..|intros q; rewrite Hg; apply Hse]|]. split; [|split; [apply HB|split; [intros y Hy; by apply (so_black _ _ _ _ _ _ _ _ HB)|split; [apply HB|]]]].
  - destruct (mk_addr _ _ _ _ _ _ _ _ _ _ _ _ _ Hm) as [Ha1 Ha2]. rewrite app_nil_r in Ha1, Ha2.
    assert (Hadr : ∀ n, gp_addr (word_of w3 n) = gp_addr (word_of w2 n)).
    { intros n. pose proof (shape_word _ _ _ _ n Hs) as E. unfold erase_color in E. congruence. }
    split; [intros p Hp; rewrite Hadr; by apply Ha1|intros n Hn; rewrite Hadr; by apply Ha2].
  - intros y Hy. rewrite <-live_alive.
    apply (scan_result succ GC_BLACK GC_WHITE GC_GREY V (rc_of w2) three_colors V_closed V_bounds (colors w2) (colors w3) B (nd <$> kept)); try done.
    + intros x (p & Hp & Hr')%V_reach. exists (nd p). split; [apply list_elem_of_fmap; by exists p|]. split; [by apply kept_V|done].
    + apply V_grey.
Qed.

(** a path to garbage goes through garbage *)
Lemma garbage_path w3 x y :
  (∀ n, n ∈ V → garbage V w3 n ↔ ¬ alive V n) → x ∈ V → rtc (refers succ) x y → ¬ alive V y →
  garbage V w3 x ∧ rtc (λ m n, refers succ m n ∧ garbage V w3 n) x y.
Proof using ready Hm.
  intros HG Hx Hp Hy. induction Hp as [x|x x' y Hxx Hp IH]; [by split; [apply HG|]|].
  destruct (IH (V_closed _ _ Hx Hxx) Hy) as [Hg Hr]. split.
  - apply HG; [done|]. intros Ha. apply Hy. eapply alive_path; [exact Ha|]. by eapply rtc_l.
  - eapply rtc_l; [|exact Hr]. done.
Qed.

Lemma collected_world :
  ∃ w4 us4 B D l, (gc_scan_roots get_gc nb fuel ;;; gc_collect_roots get_gc fuel)%eff w2 = Done tt w4 ∧
    roots_ok (gc w4) [] us4 [] ∧ rc_range w4 ∧ chain w4 l ∧ l ≡ₚ values D ∧ V ≡ₚ B ++ D ∧ NoDup D ∧
    (∀ n, n ∈ D ↔ n ∈ V ∧ ¬ alive V n) ∧ (∀ n, n ∈ V → alive V n → gp_color (word_of w4 n) = GC_BLACK) ∧
    ∀ y, u32 (rc_of w4 y) = u32 (rc_of w0 y - edges succ D y + (edges succ D y * counted y + count (filter is_value D) y)).
Proof using ready Hm nb_enough fuel_enough.
  destruct scanned_world as (w3 & B & Hr3 & Hg3 & Hse3 & Ha3 & HnB & HBV & HrB & Hsc). rewrite (bind_Done _ _ _ _ _ Hr3).
  pose proof (mk_ring _ _ _ _ _ _ _ _ _ _ _ _ _ Hm) as Hring. rewrite app_nil_r, <-Hg3 in Hring.
  assert (Hend : zval_to_free (gc w3) = Some FREE_LIST_END).
  { rewrite Hg3. pose proof (mk_rest _ _ _ _ _ _ _ _ _ _ _ _ _ Hm) as E. unfold gc_rest in E.
    assert (zval_to_free (gc w2) = zval_to_free (gc w1)) as -> by congruence. done. }
  destruct (collect_roots_run _ _ _ _ _ _ (gr_heap ready) nd w1 rs entries1 kept V w3 fuel V_U V_closed fuel_enough
    kept_V us2 Hse3 Hring Ha3 Hend) as (w4 & us4 & D & l & Hr4 & Hct).
  assert (HG : ∀ n, n ∈ V → garbage V w3 n ↔ ¬ alive V n).
  { intros n Hn. unfold garbage. destruct (Hsc n Hn) as [(? & Hc & _)|(? & Hc & _)]; rewrite Hc; naive_solver. }
  assert (HD : ∀ n, n ∈ D ↔ n ∈ V ∧ ¬ alive V n).
  { intros n. rewrite (collecting_all _ _ _ _ _ _ _ _ _ _ _ _ _ Hct).
    - split; [intros Hg; pose proof Hg as [Hn _]; split; [done|by apply HG]|intros [Hn Ha]; by apply HG].
    - intros y [Hy Hyc]. destruct (V_reach y Hy) as (p & Hp & Hpath). exists (nd p). split; [apply list_elem_of_fmap; by exists p|].
      apply garbage_path; [done|by apply kept_V|done|]. apply HG; [done|]. by split. }
  assert (HV : V ≡ₚ B ++ D).
  { apply NoDup_Permutation; [apply (mk_visit _ _ _ _ _ _ _ _ _ _ _ _ _ Hm)| |].
    - apply NoDup_app. split; [done|]. split; [|apply Hct]. intros n HnB' [HnV Hna]%HD. by destruct (Hsc n HnV) as [(? & _)|(_ & _ & ?)].
    - intros n. rewrite elem_of_app, HD. split; [intros Hn; destruct (Hsc n Hn) as [(_ & _ & ?)|(? & _ & ?)]; auto|].
      intros [?|[? _]]; auto. }
  exists w4, us4, B, D, l. split; [done|]. split; [apply Hct|]. split; [apply (ct_settled _ _ _ _ _ _ _ _ _ _ _ _ _ _ _ Hct)|].
  split; [apply Hct|]. split; [apply Hct|]. split; [done|]. split; [apply Hct|]. split; [done|]. split.
  - intros n Hn Ha. rewrite (ct_color _ _ _ _ _ _ _ _ _ _ _ _ _ _ _ Hct); [|done|by intros [_ ?]%HD].
    by destruct (Hsc n Hn) as [(_ & ? & _)|(? & _)].
  - intros y. rewrite (ct_rc _ _ _ _ _ _ _ _ _ _ _ _ _ _ _ Hct y), (u32_add _ _ _ (HrB y)).
    pose proof (V_counts y) as [_ ->]. rewrite (edges_perm succ _ _ y HV), edges_app. f_equal. lia.
Qed.

End marked.

(** only values refer to objects *)
Lemma edges_values D h : edges succ D (NO h) = edges succ (NZ <$> values D) (NO h).
Proof.
  induction D as [|[z|h'] D IH]; [done|cbn [edges values omap list_omap fmap list_fmap]; by rewrite IH|].
  change (values (NO h' :: D)) with (values D). rewrite <-IH. cbn [edges].
  assert (¬ 0 < count (succ (NO h')) (NO h)) as Hn; [|pose proof (count_nonneg (succ (NO h')) (NO h)); lia].
  intros Hc%count_pos. unfold succ in Hc. cbn [GcSpec.succ] in Hc. destruct (bucket_at (objects w0) h') as [b|]; [|by apply elem_of_nil in Hc].
  destruct (valid b && h_get_gc (hd h')); [|by apply elem_of_nil in Hc]. by apply list_elem_of_fmap in Hc as (? & ? & _).
Qed.

End finding.

(** C12: for a heap whose counts count at least the references from its nodes, the first
    part of [gc_collect_cycles] returns, with an empty root buffer; the list of values
    to free holds, each once, the suspect values that are not alive, with one reference
    more than before; the counts of all other values are what they were, objects lose
    the references from the values to free, and what is alive is black *)
Theorem gc_finds_garbage get_gc w0 content hd elts U nd rs us nb fuel :
  gc_ready get_gc w0 content hd elts U nd rs us → (length U < nb)%nat → (length U < fuel)%nat →
  let succ := GcSpec.succ w0 content hd elts in
  ∃ w' S l us',
    gc_find_garbage get_gc nb fuel w0 = Done tt w' ∧ roots_ok (gc w') [] us' [] ∧
    (∀ n, n ∈ S ↔ suspect w0 content hd elts nd rs n) ∧ NoDup S ∧
    chain w' l ∧ NoDup l ∧ (∀ z, z ∈ l ↔ NZ z ∈ S ∧ ¬ alive w0 content hd elts S (NZ z)) ∧
    (∀ z, rc_of w' (NZ z) = if decide (z ∈ l) then u32 (rc_of w0 (NZ z) + 1) else rc_of w0 (NZ z)) ∧
    (∀ h, rc_of w' (NO h) = rc_of w0 (NO h) - edges succ (NZ <$> l) (NO h)) ∧
    (∀ n, n ∈ S → alive w0 content hd elts S n → gp_color (word_of w' n) = GC_BLACK).
Proof.
  intros Hg Hnb Hf succ. unfold gc_find_garbage. erewrite bind_Done by reflexivity.
  destruct (mark_roots_run _ _ _ _ _ _ (gr_heap _ _ _ _ _ _ _ _ _ Hg) nd _ rs (entries1 _ _ _ _ _ _ _ _ _ Hg) fuel Hf us _
    (marking_start _ _ _ _ _ _ _ _ _ Hg)) as (w2 & kept & us2 & V & Hr2 & Hm). rewrite (bind_Done _ _ _ _ _ Hr2).
  destruct (collected_world _ _ _ _ _ _ _ _ _ Hg _ _ _ _ Hm nb fuel Hnb Hf)
    as (w4 & us4 & B & D & l & Hr4 & Hring & Hrange & Hch & Hl & HV & HnD & HD & Hbl & Hrc).
  assert (HlD : ∀ z, z ∈ l ↔ NZ z ∈ D) by (intros z; by rewrite Hl, elem_of_values).
  exists w4, V, l, us4. do 2 (split; [done|]). split; [intros n; by eapply V_suspect|]. split; [apply (mk_visit _ _ _ _ _ _ _ _ _ _ _ _ _ Hm)|].
  split; [done|]. split; [rewrite Hl; by apply values_nodup|]. split; [intros z; by rewrite HlD, HD|]. split; [|split; [|done]].
  - intros z. specialize (Hrc (NZ z)). rewrite u32_small in Hrc by apply Hrange. rewrite Hrc. cbn [counted].
    rewrite count_nodup by (by apply NoDup_filter). destruct (decide (z ∈ l)) as [Hz|Hz]; rewrite HlD in Hz.
    + rewrite decide_True by (by apply list_elem_of_filter). f_equal. lia.
    + rewrite decide_False by (by intros [_ ?]%list_elem_of_filter). etransitivity; [|apply u32_small, (gr_range _ _ _ _ _ _ _ _ _ Hg)].
      f_equal. lia.
  - intros h. specialize (Hrc (NO h)). rewrite u32_small in Hrc by apply Hrange. rewrite Hrc. cbn [counted].
    rewrite count_nodup, decide_False by (by apply NoDup_filter || by intros [[] _]%list_elem_of_filter).
    rewrite (edges_perm _ (NZ <$> l) (NZ <$> values D) (NO h)) by (by rewrite Hl). subst succ. rewrite <-edges_values.
    pose proof (V_counts _ _ _ _ _ _ _ _ _ Hg _ _ _ _ Hm (NO h)) as [Hb _]. rewrite (edges_perm _ _ _ _ HV), edges_app in Hb.
    pose proof (gr_range _ _ _ _ _ _ _ _ _ Hg (NO h)). pose proof (edges_nonneg (GcSpec.succ w0 content hd elts) B (NO h)). pose proof (edges_nonneg (GcSpec.succ w0 content hd elts) D (NO h)).
    etransitivity; [|apply u32_small; lia]. f_equal. lia.
Qed.

(** ** A heap to try it on

    An array that contains itself, an object that its only property refers to, and an
    object of the same kind that is also referenced from elsewhere; all three are
    possible roots. *)

Definition sample_handlers : zend_object_handlers := MkHandlers 1 true.
Definition sample_table : mem (Bucket ptr) (event ptr) * HashTable :=
  (λ x, (x.1, x.2.1.1)) (run_or (zend_hash_next_index_insert (_zend_hash_init 2 true false) 20%positive 8 empty_mem)
    (empty_mem, (_zend_hash_init 2 true false, 0, None))).
Definition sample_value (type handle arr : Z) (root : gaddr) (color rc : Z) : zval_gc_info :=
  MkZv type rc handle sample_handlers arr (MkGptr root color).
Definition sample_object (root : ptr) (rc : Z) : object_bucket :=
  MkObucket false true 0 (MkObj (WObject 70) 0 0 0 None rc (MkGptr (GRoot root) GC_PURPLE)).
Definition sample_entry (prev next : ptr) (handle : Z) (u : root_u) : gc_root_buffer := MkRoot (Some prev) (Some next) handle u.

Definition sample_roots : gmap ptr gc_root_buffer :=
  {[ 1%positive := sample_entry 4 2 0 (UPz 1); 2%positive := sample_entry 1 3 0 (UPz 20);
     3%positive := sample_entry 2 4 1 (UHandlers sample_handlers); 4%positive := sample_entry 3 1 2 (UHandlers sample_handlers) ]}.
Definition sample_gc : zend_gc_globals :=
  MkGC true false (Some BUF) None (Some 5%positive) (Some (BUF + GC_ROOT_BUFFER_MAX_ENTRIES)%positive) None None None 0 0 sample_roots.
Definition sample_world : world :=
  MkWorld sample_gc
    {[ 20%positive := sample_value IS_ARRAY 0 5 (GRoot 2) GC_PURPLE 1; 21%positive := sample_value IS_OBJECT 1 0 GNull GC_BLACK 1;
       22%positive := sample_value IS_OBJECT 2 0 GNull GC_BLACK 1 ]}
    (MkStore (Some [None; Some (sample_object 3 1); Some (sample_object 4 2); None]) 3 4 (-1))
    {[ 5 := sample_table.2 ]} sample_table.1 [].

Definition sample_content (h : Z) : list (option ptr) * option Z := ([None; Some (if h =? 1 then 21%positive else 22%positive)], None).
Definition sample_get_gc (hd : zend_object_handlers) (h : Z) : W (list (option ptr) * option Z) := ret (sample_content h).
Definition sample_elts (t : Z) : list ptr := [20%positive].
Definition sample_nodes : list node := [NZ 20; NZ 21; NO 1; NZ 22; NO 2].
Definition sample_nd (p : ptr) : node := if (p =? 2)%positive then NZ 20 else if (p =? 3)%positive then NO 1 else NO 2.
Definition sample_rs : list ptr := [2; 3; 4]%positive.
Definition sample_succ : node → list node := GcSpec.succ sample_world sample_content (λ _, sample_handlers) sample_elts.

Lemma sample_table_ok : tbl sample_table.1 sample_table.2 [1%positive] [(KInt 0, 20%positive)].
Proof.
  destruct (index_update_or_next_insert_post empty_mem (_zend_hash_init 2 true false) [] [] 0 20%positive 8 HASH_NEXT_INSERT
    (init_tbl empty_mem 2 true false empty_mem_ok)) as (w & ht & o & r & d & Hr & [X1 X2 _ _ _ _ _ _ _]); [lia|done|].
  assert (sample_table = (w, ht)) as -> by (unfold sample_table, zend_hash_next_index_insert; by rewrite Hr).
  rewrite X2 in X1. exact X1.
Qed.

Lemma sample_heap : heap_ok sample_get_gc sample_world sample_content (λ _, sample_handlers) sample_elts sample_nodes.
Proof.
  split.
  - intros z Hz. unfold sample_nodes in Hz. rewrite !elem_of_cons in Hz.
    destruct Hz as [[= ->]|[[= ->]|[[=]|[[= ->]|[[=]|Hz%elem_of_nil]]]]]; [| | |done]; (eexists; split; [reflexivity|]; split; [done|]; try done).
    intros _. split; [done|]. eexists _, _, _. split; [reflexivity|]. split; [exact sample_table_ok|done].
  - intros h Hh. unfold sample_nodes in Hh. rewrite !elem_of_cons in Hh.
    destruct Hh as [[=]|[[=]|[[= ->]|[[=]|[[= ->]|Hh%elem_of_nil]]]]]; [| |done]; (eexists; split; [reflexivity|done]).
  - intros x y Hx. assert (Hall : Forall (λ x, Forall (λ y, y ∈ sample_nodes) (sample_succ x)) sample_nodes).
    { vm_decide. }
    rewrite Forall_forall in Hall. specialize (Hall x Hx). rewrite Forall_forall in Hall. apply Hall.
  - done.
Qed.

(** the counts of all nodes at once *)
Lemma rc_range_all w :
  map_Forall (λ _ z, 0 ≤ zv_refcount z < 2 ^ 32) (zvals w) →
  Forall (λ o, match o with Some b => 0 ≤ o_refcount (b_obj b) < 2 ^ 32 | None => True end) (default [] (object_buckets (objects w))) →
  rc_range w.
Proof.
  intros Hz Ho [z|h]; cbn.
  - destruct (zvals w !! z) as [v|] eqn:E; [by apply (Hz z)|lia].
  - unfold bucket_at. destruct (object_buckets (objects w)) as [l|]; [|cbn; lia]. cbn in *. destruct (decide (0 ≤ h)); [|lia].
    destruct (l !! Z.to_nat h) as [[b|]|] eqn:E; cbn; try lia. by apply (proj1 (Forall_lookup _ _) Ho _ _ E).
Qed.

Lemma sample_ready : gc_ready sample_get_gc sample_world sample_content (λ _, sample_handlers) sample_elts sample_nodes sample_nd sample_rs [].
Proof.
  assert (Hrs : ∀ p, p ∈ sample_rs → p = 2%positive ∨ p = 3%positive ∨ p = 4%positive).
  { intros p. unfold sample_rs. rewrite !elem_of_cons. by intros [?|[?|[?|?%elem_of_nil]]]; auto. }
  split.
  - exact sample_heap.
  - apply rc_range_all; [vm_decide|]. cbn. repeat apply Forall_cons_2; (done || lia || constructor).
  - split; [vm_decide|].
    assert (Hall : Forall (λ y, edges sample_succ sample_nodes y ≤ rc_of sample_world y) sample_nodes).
    { vm_decide. }
    by rewrite Forall_forall in Hall.
  - assert (Hall : Forall (λ y, gp_color (word_of sample_world y) ≠ GC_GREY) sample_nodes).
    { vm_decide. }
    by rewrite Forall_forall in Hall.
  - split.
    + vm_compute. done.
    + vm_decide.
    + done.
    + cbn -[Pos.add]. split; [done|]. split; [done|]. exists 5%positive. split; [done|]. split; [unfold BUF, GC_ROOT_BUFFER_MAX_ENTRIES; lia|].
      intros p. change (p ∈ sample_rs ↔ (BUF ≤ p < 5)%positive). unfold BUF. split; [intros [-> | [-> | ->]]%Hrs; lia|]. intros Hp. unfold sample_rs. rewrite !elem_of_cons.
      assert (p = 2 ∨ p = 3 ∨ p = 4)%positive by lia. tauto.
  - intros p [-> | [-> | ->]]%Hrs; (split; [unfold sample_nodes; cbn; set_solver|split; done]).
  - split; [by intros p [-> | [-> | ->]]%Hrs|]. intros n. unfold sample_nodes. rewrite !elem_of_cons.
    intros [->|[->|[->|[->|[->|Hn%elem_of_nil]]]]]; [right; exists 2%positive| by left|right; exists 3%positive|by left|right; exists 4%positive|done];
      (split; [unfold sample_rs; set_solver|done]).
Qed.

Lemma gc_finds_garbage_witness :
  (length sample_nodes < 6)%nat ∧ ∃ w' l us', gc_find_garbage sample_get_gc 6 6 sample_world = Done tt w' ∧ roots_ok (gc w') [] us' [] ∧ chain w' l.
Proof.
  destruct (gc_finds_garbage sample_get_gc sample_world sample_content (λ _, sample_handlers) sample_elts sample_nodes sample_nd sample_rs [] 6 6
    sample_ready (le_n 6) (le_n 6)) as (w' & S & l & us' & H1 & H2 & _ & _ & H3 & _).
  exact (conj (le_n 6) (ex_intro _ w' (ex_intro _ l (ex_intro _ us' (conj H1 (conj H2 H3)))))).
Defined.

(** the array and the first object's value are in the list; the second object keeps its
    two references *)
Example sample_garbage :
  match gc_find_garbage sample_get_gc 6 6 sample_world with
  | Done _ w => (zval_to_free (gc w), word_of w (NZ 21), word_of w (NZ 20),
      (rc_of w (NZ 20), rc_of w (NZ 21), rc_of w (NZ 22)), (rc_of w (NO 1), rc_of w (NO 2)))
  | _ => (None, gnull, gnull, (0, 0, 0), (0, 0))
  end = (Some 21%positive, MkGptr (GOther 20) GC_BLACK, MkGptr (GOther FREE_LIST_END) GC_BLACK, (2, 2, 1), (0, 2)).
Proof. vm_compute. reflexivity. Qed.
