(* ===== verification/TsHashModel.v ===== *)
(** * [Zend/zend_ts_hash.c], [Zend/zend_ts_hash.h]: the hash table shared by threads

    A [TsHashTable] is a hash table with the two mutexes and the count of a
    readers-writer lock.  The functions are programs: trees of atomic actions (locking
    a mutex, changing the count) and of accesses to hash tables, which are not atomic:
    a thread enters an access and leaves it in two steps, between which others run.

    The mutexes of TSRM are those of the operating system: locking a locked mutex
    waits, and any thread may unlock.  This is the [ZTS] build. *)

From S2P Require Import Prelude DList HashModel.
Local Open Scope Z_scope.
Local Open Scope effect_scope.

(** ** Data *)

(** The address of a table is a [tid].  A mutex is [None] once freed, and else says
    whether it is locked. *)
Abbreviation tid := positive.

Record TsHashTable : Type := MkTs {
  hash : HashTable;
  reader : Z;
  mx_reader : option bool;
  mx_writer : option bool
}.
Definition set_hash (h : HashTable) ht := MkTs h (reader ht) (mx_reader ht) (mx_writer ht).
Definition set_reader (n : Z) ht := MkTs (hash ht) n (mx_reader ht) (mx_writer ht).
Definition set_mx_reader x ht := MkTs (hash ht) (reader ht) x (mx_writer ht).
Definition set_mx_writer x ht := MkTs (hash ht) (reader ht) (mx_reader ht) x.

Inductive mutex : Type :=
| MxReader (t : tid)
| MxWriter (t : tid).

Inductive access : Type :=
| Rd (t : tid)
| Wr (t : tid).

#[export] Instance access_eq_dec : EqDecision access.
Proof. solve_decision. Defined.

Section ts.
Context {V : Type}.

(** the tables that the threads share, and the memory of their buckets *)
Record ts_world : Type := MkTsWorld {
  tables : gmap tid TsHashTable;
  heap : mem (Bucket V) (event V)
}.

(** ** Programs *)

Inductive prog (R : Type) : Type :=
| Return (r : R)
| Lock (m : mutex) (k : prog R)
| Unlock (m : mutex) (k : prog R)
(** [++ht->reader] or [--ht->reader], which goes on with the new value *)
| AddReader (t : tid) (d : Z) (k : Z → prog R)
| ZeroReader (t : tid) (k : prog R)
| FreeMutexes (t : tid) (k : prog R)
| Access {X : Type} (l : list access) (body : M ts_world X) (k : X → prog R).

Fixpoint pbind {R S} (p : prog R) (k : R → prog S) : prog S :=
  match p with
  | Return _ r => k r
  | Lock _ m p => Lock S m (pbind p k)
  | Unlock _ m p => Unlock S m (pbind p k)
  | AddReader _ t d f => AddReader S t d (λ n, pbind (f n) k)
  | ZeroReader _ t p => ZeroReader S t (pbind p k)
  | FreeMutexes _ t p => FreeMutexes S t (pbind p k)
  | Access _ l body f => Access S l body (λ x, pbind (f x) k)
  end.

(** an access to the table [t], whose hash table and memory [f] may change *)
Definition use {X} (t : tid) (f : HashTable → HM V (HashTable * X)) : M ts_world X := λ w,
  match tables w !! t with
  | None => Stuck
  | Some ht =>
      match f (hash ht) (heap w) with
      | Done (h, x) m => Done x (MkTsWorld (<[t := set_hash h ht]> (tables w)) m)
      | Bailout m => Bailout (MkTsWorld (tables w) m)
      | Stuck => Stuck
      end
  end.

(** an access that changes no hash table *)
Definition look {X} (t : tid) (f : HashTable → HM V X) : M ts_world X :=
  use t (λ h, let! x := f h in ret (h, x)).

(** the hash table of [source], which the access only reads *)
Definition use_from {X} (target source : tid) (f : HashTable → HashTable → HM V (HashTable * X)) : M ts_world X := λ w,
  match tables w !! source with
  | None => Stuck
  | Some s => use target (λ h, f h (hash s)) w
  end.

(** ** The lock *)

Definition begin_read (ht : tid) : prog unit :=
  Lock _ (MxReader ht) (AddReader _ ht 1 (λ n,
    if n =? 1 then Lock _ (MxWriter ht) (Unlock _ (MxReader ht) (Return _ tt))
    else Unlock _ (MxReader ht) (Return _ tt))).

Definition end_read (ht : tid) : prog unit :=
  Lock _ (MxReader ht) (AddReader _ ht (-1) (λ n,
    if n =? 0 then Unlock _ (MxWriter ht) (Unlock _ (MxReader ht) (Return _ tt))
    else Unlock _ (MxReader ht) (Return _ tt))).

Definition begin_write (ht : tid) : prog unit := Lock _ (MxWriter ht) (Return _ tt).
Definition end_write (ht : tid) : prog unit := Unlock _ (MxWriter ht) (Return _ tt).

(** [begin_write(ht); retval = ...; end_write(ht); return retval;] *)
Definition writing {X} (ht : tid) (f : HashTable → HM V (HashTable * X)) : prog X :=
  pbind (begin_write ht) (λ _, Access _ [Wr ht] (use ht f) (λ retval, pbind (end_write ht) (λ _, Return _ retval))).
Definition reading {X} (ht : tid) (f : HashTable → HM V X) : prog X :=
  pbind (begin_read ht) (λ _, Access _ [Rd ht] (look ht f) (λ retval, pbind (end_read ht) (λ _, Return _ retval))).
(** [begin_read(source); begin_write(target); ...; end_write(target); end_read(source);] *)
Definition combining {X} (target source : tid) (f : HashTable → HashTable → HM V (HashTable * X)) : prog X :=
  pbind (begin_read source) (λ _, pbind (begin_write target) (λ _,
    Access _ [Wr target; Rd source] (use_from target source f) (λ retval,
      pbind (end_write target) (λ _, pbind (end_read source) (λ _, Return _ retval))))).

(** ** The operations *)

Definition new_ts (h : HashTable) : TsHashTable := MkTs h 0 (Some false) (Some false).
Definition _zend_ts_hash_init (nSize : Z) (pDestructor persistent : bool) : TsHashTable :=
  new_ts (_zend_hash_init nSize pDestructor persistent).
Definition _zend_ts_hash_init_ex (nSize : Z) (pDestructor persistent bApplyProtection : bool) : TsHashTable :=
  new_ts (_zend_hash_init_ex nSize pDestructor persistent bApplyProtection).

Implicit Types (ht : tid) (arKey : kptr).

(** what is left of a destroyed table is never used *)
Definition zend_ts_hash_destroy ht : prog unit :=
  pbind (writing ht (λ h, zend_hash_destroy h ;;; ret (h, tt))) (λ _, FreeMutexes _ ht (Return _ tt)).
Definition zend_ts_hash_graceful_destroy ht : prog unit :=
  pbind (writing ht (λ h, zend_hash_graceful_destroy h ;;; ret (h, tt))) (λ _, FreeMutexes _ ht (Return _ tt)).

(** The count is reset outside of the lock. *)
Definition zend_ts_hash_clean ht : prog unit :=
  ZeroReader _ ht (writing ht (λ h, let! h := zend_hash_clean h in ret (h, tt))).

(** the result with the address of the new element *)
Definition regroup {A B C} (p : A * B * C) : A * (B * C) := (p.1.1, (p.1.2, p.2)).

Definition _zend_ts_hash_add_or_update ht arKey (nKeyLength : Z) (pData : V) (nDataSize flag : Z) : prog (Z * option ptr) :=
  writing ht (λ h, let! r := _zend_hash_add_or_update h arKey nKeyLength pData nDataSize flag in ret (regroup r)).
Definition _zend_ts_hash_quick_add_or_update ht arKey (nKeyLength h : Z) (pData : V) (nDataSize flag : Z) : prog (Z * option ptr) :=
  writing ht (λ t, let! r := _zend_hash_quick_add_or_update t arKey nKeyLength h pData nDataSize flag in ret (regroup r)).
Definition _zend_ts_hash_index_update_or_next_insert ht (h : Z) (pData : V) (nDataSize flag : Z) : prog (Z * option ptr) :=
  writing ht (λ t, let! r := _zend_hash_index_update_or_next_insert t h pData nDataSize flag in ret (regroup r)).
Definition zend_ts_hash_add_empty_element ht arKey (nKeyLength : Z) (dummy : V) : prog Z :=
  writing ht (λ h, zend_hash_add_empty_element h arKey nKeyLength dummy).

(** the state of a callback, threaded by the model, is the result *)
Definition zend_ts_hash_apply {A} ht (apply_func : A → V → A * V * Z) (a : A) : prog A :=
  writing ht (λ h, let! '(a, h) := zend_hash_apply h apply_func a in ret (h, a)).
Definition zend_ts_hash_apply_with_argument {A} ht (apply_func : V → A → A * V * Z) (argument : A) : prog A :=
  writing ht (λ h, let! '(a, h) := zend_hash_apply_with_argument h apply_func argument in ret (h, a)).
(** The arguments are packed in one, [args], of type [va_list], and the functions
    called get that one. *)
Definition zend_ts_hash_apply_with_arguments {A B} ht (va_list : list B → B)
    (apply_func : V → list B → zend_hash_key → A → A * V * Z) (args : list B) (a : A) : prog A :=
  writing ht (λ h, let! '(a, h) := zend_hash_apply_with_arguments h apply_func [va_list args] a in ret (h, a)).
Definition zend_ts_hash_reverse_apply {A} ht (apply_func : A → V → A * V * Z) (a : A) : prog A :=
  writing ht (λ h, let! '(a, h) := zend_hash_reverse_apply h apply_func a in ret (h, a)).

Definition zend_ts_hash_del_key_or_index ht arKey (nKeyLength h flag : Z) : prog Z :=
  writing ht (λ t, zend_hash_del_key_or_index t arKey nKeyLength h flag).

(** no table is touched inside of the lock *)
Definition zend_ts_get_hash_value ht (arKey : bytes) : prog Z :=
  pbind (begin_read ht) (λ _, pbind (end_read ht) (λ _, Return _ (zend_hash_func arKey))).

Definition zend_ts_hash_find ht arKey (nKeyLength : Z) : prog (option ptr) :=
  reading ht (λ h, zend_hash_find h arKey nKeyLength).
Definition zend_ts_hash_quick_find ht arKey (nKeyLength h : Z) : prog (option ptr) :=
  reading ht (λ t, zend_hash_quick_find t arKey nKeyLength h).
Definition zend_ts_hash_index_find ht (h : Z) : prog (option ptr) :=
  reading ht (λ t, zend_hash_index_find t h).
Definition zend_ts_hash_exists ht arKey (nKeyLength : Z) : prog Z :=
  reading ht (λ h, zend_hash_exists h arKey nKeyLength).
Definition zend_ts_hash_index_exists ht (h : Z) : prog Z :=
  reading ht (λ t, zend_hash_index_exists t h).

Definition zend_ts_hash_copy (target source : tid) (pCopyConstructor : option (V → V)) (size : Z) : prog unit :=
  combining target source (λ t s, let! t := zend_hash_copy t s pCopyConstructor size in ret (t, tt)).
(** the target, in no shared table, is the result *)
Definition zend_ts_hash_copy_to_hash (target : HashTable) (source : tid) (pCopyConstructor : option (V → V)) (size : Z)
    : prog HashTable :=
  reading source (λ s, zend_hash_copy target s pCopyConstructor size).
Definition zend_ts_hash_merge (target source : tid) (pCopyConstructor : option (V → V)) (size : Z) (overwrite : bool) : prog unit :=
  combining target source (λ t s, let! t := _zend_hash_merge t s pCopyConstructor size overwrite in ret (t, tt)).
Definition zend_ts_hash_merge_ex (target source : tid) (pCopyConstructor : option (V → V)) (size : Z)
    (pMergeSource : merge_checker) : prog unit :=
  combining target source (λ t s, let! t := zend_hash_merge_ex t s pCopyConstructor size pMergeSource in ret (t, tt)).

Definition zend_ts_hash_sort ht (sort_func : sort_func_t) (compare_func : Bucket V → Bucket V → Z) (renumber : bool) : prog unit :=
  writing ht (λ h, let! h := zend_hash_sort h sort_func compare_func renumber in ret (h, tt)).

(** [zend_hash_compare] changes [nApplyCount] of the two tables: the accesses write *)
Definition zend_ts_hash_compare (ht1 ht2 : tid) (compar : V → V → Z) (ordered : bool) : prog Z :=
  pbind (begin_read ht1) (λ _, pbind (begin_read ht2) (λ _,
    Access _ [Wr ht1; Wr ht2]
      (λ w, match tables w !! ht1, tables w !! ht2 with
            | Some t1, Some t2 =>
                match zend_hash_compare (hash t1) (hash t2) compar ordered (heap w) with
                | Done (h1, h2, r) m =>
                    Done r (MkTsWorld (alter (set_hash h2) ht2 (alter (set_hash h1) ht1 (tables w))) m)
                | Bailout m => Bailout (MkTsWorld (tables w) m)
                | Stuck => Stuck
                end
            | _, _ => Stuck
            end)
      (λ retval, pbind (end_read ht2) (λ _, pbind (end_read ht1) (λ _, Return _ retval))))).

Definition zend_ts_hash_minmax ht (compar : Bucket V → Bucket V → Z) (flag : bool) : prog (option ptr) :=
  reading ht (λ h, zend_hash_minmax h compar flag).
Definition zend_ts_hash_num_elements ht : prog Z := reading ht (λ h, ret (zend_hash_num_elements h)).
Definition zend_ts_hash_rehash ht : prog unit :=
  writing ht (λ h, let! h := zend_hash_rehash h in ret (h, tt)).

(** ** Threads *)

(** A thread runs a program, or is in the middle of the access it starts with. *)
Inductive thread : Type :=
| Running (p : prog unit)
| Inside (p : prog unit).

Definition program (th : thread) : prog unit := match th with Running p | Inside p => p end.

Inductive step_result : Type :=
| Next (th : thread) (w : ts_world)
(** waiting for a mutex, or at the end *)
| Blocked
(** undefined behaviour, or a fatal error inside of an access *)
| Wrong.

(** the state of a mutex *)
Definition mutex_state (m : mutex) (w : ts_world) : option bool :=
  match m with
  | MxReader t => tables w !! t ≫= mx_reader
  | MxWriter t => tables w !! t ≫= mx_writer
  end.
Definition set_mutex (m : mutex) (x : option bool) (w : ts_world) : ts_world :=
  match m with
  | MxReader t => MkTsWorld (alter (set_mx_reader x) t (tables w)) (heap w)
  | MxWriter t => MkTsWorld (alter (set_mx_writer x) t (tables w)) (heap w)
  end.

Definition thread_step (th : thread) (w : ts_world) : step_result :=
  match program th with
  | Return _ _ => Blocked
  | Lock _ m k =>
      match mutex_state m w with
      | Some false => Next (Running k) (set_mutex m (Some true) w)
      | Some true => Blocked
      | None => Wrong
      end
  | Unlock _ m k =>
      match mutex_state m w with
      | Some true => Next (Running k) (set_mutex m (Some false) w)
      | _ => Wrong
      end
  | AddReader _ t d k =>
      match tables w !! t with
      | Some ht =>
          let n := u32 (reader ht + d) in
          Next (Running (k n)) (MkTsWorld (<[t := set_reader n ht]> (tables w)) (heap w))
      | None => Wrong
      end
  | ZeroReader _ t k => Next (Running k) (MkTsWorld (alter (set_reader 0) t (tables w)) (heap w))
  | FreeMutexes _ t k => Next (Running k) (set_mutex (MxReader t) None (set_mutex (MxWriter t) None w))
  | Access _ l body k =>
      match th with
      | Running p => Next (Inside p) w
      | Inside _ => match body w with Done x w' => Next (Running (k x)) w' | _ => Wrong end
      end
  end.

(** the threads, and what they share *)
Record config : Type := MkConfig { pool : list thread; shared : ts_world }.

Inductive step : config → config → Prop :=
| step_thread i th th' w' c :
    pool c !! i = Some th → thread_step th (shared c) = Next th' w' →
    step c (MkConfig (<[i := th']> (pool c)) w').

(** the accesses in progress *)
Definition in_progress (th : thread) : list access :=
  match th with Inside (Access _ l _ _) => l | _ => [] end.

Definition finished (th : thread) : bool := match th with Running (Return _ _) => true | _ => false end.

(** the run of a schedule, the numbers of the threads that make each step *)
Fixpoint run_schedule (schedule : list nat) (c : config) : option config :=
  match schedule with
  | [] => Some c
  | i :: schedule' =>
      match pool c !! i with
      | Some th =>
          match thread_step th (shared c) with
          | Next th' w' => run_schedule schedule' (MkConfig (<[i := th']> (pool c)) w')
          | _ => None
          end
      | None => None
      end
  end.

End ts.
