(* ===== verification/TsHashSpec.v ===== *)
(** * The readers-writer lock of shared hash tables: mutual exclusion and progress

    A thread is, with respect to one table, in a [phase] of the lock; the programs of
    the functions go through the phases in order ([wp]).  The invariant counts the
    threads in each phase. *)

From S2P Require Import Prelude DList HashModel TsHashModel.
Local Open Scope Z_scope.

Inductive phase : Type :=
| Idle
(** in [begin_read]: with [mx_reader], before the count goes up; the first reader,
    which needs [mx_writer]; any reader before it gives [mx_reader] back *)
| InRead | NeedW | HasR
| Reading
(** in [end_read] *)
| OutRead | NeedU | DoneR
| Writing.

#[export] Instance phase_eq_dec : EqDecision phase.
Proof. solve_decision. Defined.

Definition lock_phase (t : tid) (m : mutex) (ph : phase) : option phase :=
  match m with
  | MxReader t' => if decide (t' = t) then
      match ph with Idle => Some InRead | Reading => Some OutRead | _ => None end else Some ph
  | MxWriter t' => if decide (t' = t) then
      match ph with Idle => Some Writing | NeedW => Some HasR | _ => None end else Some ph
  end.

Definition unlock_phase (t : tid) (m : mutex) (ph : phase) : option phase :=
  match m with
  | MxReader t' => if decide (t' = t) then
      match ph with HasR => Some Reading | DoneR => Some Idle | _ => None end else Some ph
  | MxWriter t' => if decide (t' = t) then
      match ph with Writing => Some Idle | NeedU => Some DoneR | _ => None end else Some ph
  end.

Definition add_phase (t t' : tid) (d n : Z) (ph : phase) : option phase :=
  if decide (t' = t) then
    match ph with
    | InRead => if d =? 1 then Some (if n =? 1 then NeedW else HasR) else None
    | OutRead => if d =? -1 then Some (if n =? 0 then NeedU else DoneR) else None
    | _ => None
    end
  else Some ph.

(** the accesses to [t] that a phase allows *)
Definition allowed (t : tid) (ph : phase) (l : list access) : Prop :=
  (Rd t ∈ l → ph = Reading ∨ ph = Writing) ∧ (Wr t ∈ l → ph = Writing).

(** the fields of the lock *)
Definition lock_state (ht : TsHashTable) : Z * option bool * option bool := (reader ht, mx_reader ht, mx_writer ht).

Section spec.
Context {V : Type}.
Implicit Types (t : tid) (ph : phase) (w : ts_world (V:=V)) (phs : list phase) (c : config (V:=V)) (th : thread (V:=V)).

(** the program goes through the phases of [t], and ends in one with [Q] *)
Fixpoint wp {R} t ph (p : prog (V:=V) R) (Q : phase → R → Prop) : Prop :=
  match p with
  | Return _ r => Q ph r
  | Lock _ m k => match lock_phase t m ph with Some ph' => wp t ph' k Q | None => False end
  | Unlock _ m k => match unlock_phase t m ph with Some ph' => wp t ph' k Q | None => False end
  | AddReader _ t' d k => ∀ n, match add_phase t t' d n ph with Some ph' => wp t ph' (k n) Q | None => False end
  | ZeroReader _ t' k | FreeMutexes _ t' k => t' ≠ t ∧ wp t ph k Q
  | Access _ l body k =>
      allowed t ph l ∧
      (∀ w x w', body w = Done x w' →
         lock_state <$> tables w' !! t = lock_state <$> tables w !! t ∧
         (Wr t ∉ l → tables w' !! t = tables w !! t)) ∧
      ∀ x, wp t ph (k x) Q
  end.

Lemma wp_mono {R} t ph (p : prog R) (Q Q' : phase → R → Prop) :
  (∀ ph r, Q ph r → Q' ph r) → wp t ph p Q → wp t ph p Q'.
Proof.
  intros HQ. revert ph. induction p as [r|m k IH|m k IH|t' d k IH|t' k IH|t' k IH|X l body k IH]; intros ph; cbn.
  - apply HQ.
  - destruct (lock_phase t m ph); [apply IH|done].
  - destruct (unlock_phase t m ph); [apply IH|done].
  - intros H n. specialize (H n). destruct (add_phase _ _ _ _ _); [by apply IH|done].
  - intros [Ht Hk]. split; [done|by apply IH].
  - intros [Ht Hk]. split; [done|by apply IH].
  - intros (Ha & Hb & Hk). split; [done|]. split; [done|]. intros x. by apply IH.
Qed.

Lemma wp_bind {R S} t ph (p : prog R) (k : R → prog S) (Q : phase → S → Prop) :
  wp t ph p (λ ph' r, wp t ph' (k r) Q) → wp t ph (pbind p k) Q.
Proof.
  revert ph. induction p as [r|m p IH|m p IH|t' d f IH|t' p IH|t' p IH|X l body f IH]; intros ph; cbn.
  - done.
  - destruct (lock_phase t m ph); [apply IH|done].
  - destruct (unlock_phase t m ph); [apply IH|done].
  - intros H n. specialize (H n). destruct (add_phase _ _ _ _ _); [by apply IH|done].
  - intros [Ht Hk]. split; [done|by apply IH].
  - intros [Ht Hk]. split; [done|by apply IH].
  - intros (Ha & Hb & Hk). split; [done|]. split; [done|]. intros x. by apply IH.
Qed.

(** ** The functions go through the phases *)

Lemma wp_begin_read t t' ph Q :
  (t' = t → ph = Idle) → Q (if decide (t' = t) then Reading else ph) tt → wp t ph (begin_read t') Q.
Proof.
  intros Hph HQ. unfold begin_read. cbn. destruct (decide (t' = t)) as [->|Hne].
  - rewrite (Hph eq_refl). intros n. unfold add_phase. rewrite decide_True by done. cbn.
    destruct (n =? 1); cbn; rewrite !decide_True by done; done.
  - intros n. unfold add_phase. rewrite decide_False by done. destruct (n =? 1); cbn; rewrite !decide_False by done; done.
Qed.

Lemma wp_end_read t t' ph Q :
  (t' = t → ph = Reading) → Q (if decide (t' = t) then Idle else ph) tt → wp t ph (end_read t') Q.
Proof.
  intros Hph HQ. unfold end_read. cbn. destruct (decide (t' = t)) as [->|Hne].
  - rewrite (Hph eq_refl). intros n. unfold add_phase. rewrite decide_True by done. cbn.
    destruct (n =? 0); cbn; rewrite !decide_True by done; done.
  - intros n. unfold add_phase. rewrite decide_False by done. destruct (n =? 0); cbn; rewrite !decide_False by done; done.
Qed.

Lemma wp_begin_write t t' ph Q :
  (t' = t → ph = Idle) → Q (if decide (t' = t) then Writing else ph) tt → wp t ph (begin_write t') Q.
Proof. intros Hph HQ. cbn. destruct (decide (t' = t)) as [->|Hne]; [by rewrite (Hph eq_refl)|done]. Qed.

Lemma wp_end_write t t' ph Q :
  (t' = t → ph = Writing) → Q (if decide (t' = t) then Idle else ph) tt → wp t ph (end_write t') Q.
Proof. intros Hph HQ. cbn. destruct (decide (t' = t)) as [->|Hne]; [by rewrite (Hph eq_refl)|done]. Qed.

Lemma use_frame {X} t t' (f : HashTable → HM V (HashTable * X)) w x w' :
  use t' f w = Done x w' →
  lock_state <$> tables w' !! t = lock_state <$> tables w !! t ∧ (t' ≠ t → tables w' !! t = tables w !! t).
Proof.
  unfold use. destruct (tables w !! t') as [ht|] eqn:Ht; [|done]. destruct (f (hash ht) (heap w)) as [[h y] m| |]; [|done..].
  intros [= _ <-]. cbn. destruct (decide (t' = t)) as [->|Hne].
  - rewrite lookup_insert_eq, Ht. done.
  - by rewrite lookup_insert_ne.
Qed.

Lemma look_frame {X} t t' (f : HashTable → HM V X) w x w' :
  look t' f w = Done x w' → tables w' !! t = tables w !! t.
Proof.
  unfold look, use. destruct (tables w !! t') as [ht|] eqn:Ht; [|done]. unfold bind, ret.
  destruct (f (hash ht) (heap w)) as [y m| |]; [|done..]. intros [= _ <-]. cbn. destruct (decide (t' = t)) as [->|Hne].
  - rewrite lookup_insert_eq, Ht. by destruct ht.
  - by rewrite lookup_insert_ne.
Qed.

Lemma wp_writing {X} t t' (f : HashTable → HM V (HashTable * X)) (Q : phase → X → Prop) :
  (∀ x, Q Idle x) → wp t Idle (writing t' f) Q.
Proof.
  intros HQ. unfold writing. apply wp_bind, wp_begin_write; [done|]. cbn [wp]. split; [|split].
  - split; [by intros [=]%list_elem_of_singleton|]. intros [= ->]%list_elem_of_singleton. by rewrite decide_True.
  - intros w x w' Hb. destruct (use_frame t _ _ _ _ _ Hb) as [H1 H2]. split; [done|]. intros Hn. apply H2.
    intros ->. apply Hn. by apply list_elem_of_singleton.
  - intros x. apply wp_bind, wp_end_write; [intros ->; by rewrite decide_True|]. cbn.
    destruct (decide (t' = t)); apply HQ.
Qed.

Lemma wp_reading {X} t t' (f : HashTable → HM V X) (Q : phase → X → Prop) :
  (∀ x, Q Idle x) → wp t Idle (reading t' f) Q.
Proof.
  intros HQ. unfold reading. apply wp_bind, wp_begin_read; [done|]. cbn [wp]. split; [|split].
  - split; [|by intros [=]%list_elem_of_singleton]. intros [= ->]%list_elem_of_singleton. left. by rewrite decide_True.
  - intros w x w' Hb. pose proof (look_frame t _ _ _ _ _ Hb) as H1. split; [by rewrite H1|done].
  - intros x. apply wp_bind, wp_end_read; [intros ->; by rewrite decide_True|]. cbn.
    destruct (decide (t' = t)); apply HQ.
Qed.

Lemma wp_combining {X} t target source (f : HashTable → HashTable → HM V (HashTable * X)) (Q : phase → X → Prop) :
  target ≠ source → (∀ x, Q Idle x) → wp t Idle (combining target source f) Q.
Proof.
  intros Hne HQ. unfold combining. apply wp_bind, wp_begin_read; [done|]. apply wp_bind, wp_begin_write.
  { intros ->. by rewrite decide_False. }
  cbn [wp]. split; [|split].
  - unfold allowed. rewrite !elem_of_cons. split.
    + intros [[=]|[[= ->]|[]%elem_of_nil]]. left. rewrite decide_False, decide_True by done. done.
    + intros [[= ->]|[[=]|[]%elem_of_nil]]. by rewrite decide_True.
  - intros w x w'. unfold use_from. destruct (tables w !! source) as [s|]; [|done]. intros Hb.
    destruct (use_frame t _ _ _ _ _ Hb) as [H1 H2]. split; [done|]. intros Hn. apply H2. intros ->. apply Hn. left.
  - intros x. apply wp_bind, wp_end_write; [intros ->; by rewrite decide_True|].
    apply wp_bind, wp_end_read.
    { intros ->. rewrite (decide_False (P := target = t)), decide_False, decide_True by done. done. }
    cbn. repeat destruct (decide _); try apply HQ; congruence.
Qed.

(** ** The invariant *)

Definition total (f : phase → Z) phs : Z := foldr (λ ph n, f ph + n) 0 phs.

(** the phases that are counted in [reader], that own [mx_reader], and that write *)
Definition counted ph : Z := match ph with NeedW | HasR | Reading | OutRead => 1 | _ => 0 end.
Definition owns_mx ph : Z := match ph with InRead | NeedW | HasR | OutRead | NeedU | DoneR => 1 | _ => 0 end.
Definition writes ph : Z := match ph with Writing => 1 | _ => 0 end.
Definition first_in ph : Z := match ph with NeedW => 1 | _ => 0 end.
Definition last_out ph : Z := match ph with NeedU => 1 | _ => 0 end.

(** [mx_writer] is locked by a writer, or on behalf of all the readers *)
Record lock_ok (ht : TsHashTable) phs : Prop := {
  lk_count : reader ht = total counted phs;
  lk_mx : ∃ b, mx_reader ht = Some b ∧ Z.b2z b = total owns_mx phs;
  lk_wr : ∃ b, mx_writer ht = Some b ∧
    Z.b2z b = total writes phs + total last_out phs + (if total counted phs =? 0 then 0 else 1) - total first_in phs;
  lk_first : 0 < total first_in phs → total counted phs = 1;
  lk_last : 0 < total last_out phs → total counted phs = 0
}.

(** a thread in the middle of an access starts with one *)
Definition inside_ok th : Prop := match th with Inside (Access _ _ _ _) | Running _ => True | _ => False end.

Definition inv t c : Prop :=
  (∀ th, th ∈ pool c → inside_ok th) ∧ Z.of_nat (length (pool c)) < 2 ^ 32 ∧
  ∃ phs ht, tables (shared c) !! t = Some ht ∧ lock_ok ht phs ∧
    Forall2 (λ th ph, wp t ph (program th) (λ ph' _, ph' = Idle)) (pool c) phs.

Lemma total_insert f phs i a b : phs !! i = Some a → total f (<[i:=b]> phs) = total f phs - f a + f b.
Proof.
  revert i. induction phs as [|x phs IH]; intros [|i] H; simplify_eq/=; [lia|]. rewrite (IH i) by done. lia.
Qed.

Lemma total_nonneg f phs : (∀ ph, 0 ≤ f ph) → 0 ≤ total f phs.
Proof. intros Hf. induction phs as [|x phs IH]; simpl; [lia|]. specialize (Hf x). lia. Qed.

Lemma total_ge f phs i a : (∀ ph, 0 ≤ f ph) → phs !! i = Some a → f a ≤ total f phs.
Proof.
  intros Hf. revert i. induction phs as [|x phs IH]; intros [|i] H; simplify_eq/=.
  - pose proof (total_nonneg f phs Hf). lia.
  - specialize (IH i H). specialize (Hf x). lia.
Qed.

Lemma total_two f phs i j a b :
  (∀ ph, 0 ≤ f ph) → i ≠ j → phs !! i = Some a → phs !! j = Some b → f a + f b ≤ total f phs.
Proof.
  intros Hf. revert i j. induction phs as [|x phs IH]; intros [|i] [|j] Hne Hi Hj; simplify_eq/=; try done.
  - pose proof (total_ge f phs j b Hf Hj). lia.
  - pose proof (total_ge f phs i a Hf Hi). lia.
  - specialize (IH i j ltac:(lia) Hi Hj). specialize (Hf x). lia.
Qed.

Lemma total_sub f g phs : total (λ ph, f ph - g ph) phs = total f phs - total g phs.
Proof. induction phs as [|x phs IH]; simpl; lia. Qed.

Lemma total_pos f phs : 0 < total f phs → ∃ i a, phs !! i = Some a ∧ 0 < f a.
Proof.
  induction phs as [|x phs IH]; simpl; [lia|]. intros H. destruct (decide (0 < f x)).
  - by exists 0%nat, x.
  - destruct IH as (i & a & Ha & Hp); [lia|]. by exists (S i), a.
Qed.

Lemma total_one phs : total (λ _, 1) phs = Z.of_nat (length phs).
Proof. induction phs as [|x phs IH]; simpl; lia. Qed.

Lemma weights ph : 0 ≤ counted ph ≤ 1 ∧ 0 ≤ owns_mx ph ≤ 1 ∧ 0 ≤ writes ph ≤ 1 ∧ 0 ≤ first_in ph ≤ 1 ∧ 0 ≤ last_out ph ≤ 1 ∧
  0 ≤ owns_mx ph - first_in ph - last_out ph ∧ 0 ≤ counted ph - first_in ph.
Proof. destruct ph; cbn; lia. Qed.

(** what the counts say about one thread *)
Lemma counts phs i ph :
  phs !! i = Some ph →
  counted ph ≤ total counted phs ∧ owns_mx ph ≤ total owns_mx phs ∧ writes ph ≤ total writes phs ∧
  first_in ph ≤ total first_in phs ∧ last_out ph ≤ total last_out phs ∧
  owns_mx ph - first_in ph - last_out ph ≤ total owns_mx phs - total first_in phs - total last_out phs ∧
  counted ph - first_in ph ≤ total counted phs - total first_in phs ∧
  0 ≤ total first_in phs ∧ 0 ≤ total last_out phs ∧
  1 - counted ph ≤ Z.of_nat (length phs) - total counted phs.
Proof.
  intros Hi. rewrite <-!total_sub. split_and!; try (apply (total_ge _ _ i); [|done]; intros q; pose proof (weights q); lia).
  - apply (total_ge (λ ph, owns_mx ph - first_in ph - last_out ph) _ i); [|done]. intros q. pose proof (weights q). lia.
  - apply (total_ge (λ ph, counted ph - first_in ph) _ i); [|done]. intros q. pose proof (weights q). lia.
  - apply total_nonneg. intros q. pose proof (weights q). lia.
  - apply total_nonneg. intros q. pose proof (weights q). lia.
  - rewrite <-total_one, <-total_sub. apply (total_ge (λ ph, 1 - counted ph) _ i); [|done]. intros q. pose proof (weights q). lia.
Qed.

(** the counts after a step of the thread [i] *)
Ltac recount Hi :=
  pose proof (counts _ _ _ Hi); rewrite ?(total_insert _ _ _ _ _ Hi) in *;
  cbn [counted owns_mx writes first_in last_out] in *; lia.

Ltac solve_lock_ok Hi :=
  split; cbn [reader mx_reader mx_writer set_reader set_mx_reader set_mx_writer];
  first [ recount Hi
        | eexists; split; [first [reflexivity | eassumption]|];
          rewrite ?(total_insert _ _ _ _ _ Hi); pose proof (counts _ _ _ Hi);
          cbn [counted owns_mx writes first_in last_out Z.b2z] in *;
          repeat match goal with
          | |- context [?x =? ?y] => destruct (Z.eqb_spec x y)
          | H : context [?x =? ?y] |- _ => destruct (Z.eqb_spec x y)
          end; lia ].

Lemma lock_ok_enter_read ht phs i :
  lock_ok ht phs → mx_reader ht = Some false → (phs !! i = Some Idle → lock_ok (set_mx_reader (Some true) ht) (<[i := InRead]> phs)) ∧
  (phs !! i = Some Reading → lock_ok (set_mx_reader (Some true) ht) (<[i := OutRead]> phs)).
Proof.
  intros [Hc (b & Hb & Hmx) (bw & Hbw & Hw) Hf Hl] Hfree. rewrite Hfree in Hb. injection Hb as <-.
  split; intros Hi; solve_lock_ok Hi.
Qed.

Lemma lock_ok_writer ht phs i :
  lock_ok ht phs → mx_writer ht = Some false → (phs !! i = Some Idle → lock_ok (set_mx_writer (Some true) ht) (<[i := Writing]> phs)) ∧
  (phs !! i = Some NeedW → lock_ok (set_mx_writer (Some true) ht) (<[i := HasR]> phs)).
Proof.
  intros [Hc (b & Hb & Hmx) (bw & Hbw & Hw) Hf Hl] Hfree. rewrite Hfree in Hbw. injection Hbw as <-.
  split; intros Hi; solve_lock_ok Hi.
Qed.

Lemma lock_ok_leave_mx ht phs i :
  lock_ok ht phs → (phs !! i = Some HasR → mx_reader ht = Some true ∧ lock_ok (set_mx_reader (Some false) ht) (<[i := Reading]> phs)) ∧
  (phs !! i = Some DoneR → mx_reader ht = Some true ∧ lock_ok (set_mx_reader (Some false) ht) (<[i := Idle]> phs)).
Proof.
  intros [Hc (b & Hb & Hmx) (bw & Hbw & Hw) Hf Hl].
  split; intros Hi; (assert (b = true) as -> by (pose proof (counts _ _ _ Hi); cbn in *; destruct b; [done|cbn in Hmx; lia]));
    (split; [done|]); solve_lock_ok Hi.
Qed.

Lemma lock_ok_leave_writer ht phs i :
  lock_ok ht phs → (phs !! i = Some Writing → mx_writer ht = Some true ∧ lock_ok (set_mx_writer (Some false) ht) (<[i := Idle]> phs)) ∧
  (phs !! i = Some NeedU → mx_writer ht = Some true ∧ lock_ok (set_mx_writer (Some false) ht) (<[i := DoneR]> phs)).
Proof.
  intros [Hc (b & Hb & Hmx) (bw & Hbw & Hw) Hf Hl].
  split; intros Hi; (assert (bw = true) as -> by (pose proof (counts _ _ _ Hi); cbn in *; destruct bw; [done|cbn in Hw;
    destruct (Z.eqb_spec (total counted phs) 0), b; cbn in *; lia]));
    (split; [done|]); solve_lock_ok Hi.
Qed.

Lemma lock_ok_reader ht phs i n :
  lock_ok ht phs → Z.of_nat (length phs) < 2 ^ 32 →
  (phs !! i = Some InRead → n = u32 (reader ht + 1) → lock_ok (set_reader n ht) (<[i := if n =? 1 then NeedW else HasR]> phs)) ∧
  (phs !! i = Some OutRead → n = u32 (reader ht + -1) → lock_ok (set_reader n ht) (<[i := if n =? 0 then NeedU else DoneR]> phs)).
Proof.
  intros [Hc (b & Hb & Hmx) (bw & Hbw & Hw) Hf Hl] Hlen.
  split; intros Hi ->; pose proof (counts _ _ _ Hi) as Hcs; unfold u32; rewrite Hc; cbn in Hcs; rewrite Z.mod_small by lia.
  - destruct b; cbn [Z.b2z] in Hmx; [|lia]. destruct (Z.eqb_spec (total counted phs + 1) 1); solve_lock_ok Hi.
  - destruct b; cbn [Z.b2z] in Hmx; [|lia]. destruct (Z.eqb_spec (total counted phs + -1) 0); solve_lock_ok Hi.
Qed.

(** *** Every step keeps the invariant *)

(** the thread [i] of phase [ph] goes on with [th'] in the phase [ph'] *)
Lemma inv_next t c i th' w' phs ph' ht' :
  inv t c → Forall2 (λ th ph, wp t ph (program th) (λ ph' _, ph' = Idle)) (pool c) phs →
  inside_ok th' → wp t ph' (program th') (λ ph' _, ph' = Idle) →
  tables w' !! t = Some ht' → lock_ok ht' (<[i := ph']> phs) →
  inv t (MkConfig (<[i := th']> (pool c)) w').
Proof.
  intros (Hin & Hlen & _) Hall Hin' Hwp Ht Hlk. split; [|split].
  - cbn. intros th Hth. apply list_elem_of_lookup in Hth as [j Hj].
    apply list_lookup_insert_Some in Hj as [(-> & -> & _)|[_ Hj]]; [done|]. apply Hin. by eapply list_elem_of_lookup_2.
  - cbn. by rewrite length_insert.
  - exists (<[i := ph']> phs), ht'. split; [done|]. split; [done|]. cbn. by apply Forall2_insert.
Qed.

Lemma lookup_set_mutex t m x w :
  tables (set_mutex m x w) !! t =
    (λ ht, match m with
           | MxReader t' => if decide (t' = t) then set_mx_reader x ht else ht
           | MxWriter t' => if decide (t' = t) then set_mx_writer x ht else ht
           end) <$> tables w !! t.
Proof.
  destruct m as [t'|t']; cbn; destruct (decide (t' = t)) as [->|Hne];
    rewrite ?lookup_alter_eq, ?lookup_alter_ne by done; try done; by destruct (tables w !! t).
Qed.

Lemma lock_ok_ext ht ht' phs : lock_state ht' = lock_state ht → lock_ok ht phs → lock_ok ht' phs.
Proof.
  destruct ht, ht'. unfold lock_state. cbn. intros [= -> -> ->] [H1 H2 H3 H4 H5]. by split.
Qed.

Lemma inv_step t c c' : inv t c → step c c' → inv t c'.
Proof.
  intros Hinv Hst. destruct Hst as [i th th' w' c Hi Hs]. pose proof Hinv as (Hin & Hlen & phs & ht & Ht & Hlk & Hall).
  destruct (Forall2_lookup_l _ _ _ _ _ Hall Hi) as (ph & Hph & Hwp).
  pose proof (Forall2_length _ _ _ Hall) as Hl. assert (Hlen' : Z.of_nat (length phs) < 2 ^ 32) by (by rewrite <-Hl).
  pose proof (list_insert_id _ _ _ Hph) as Hid.
  unfold thread_step in Hs. destruct (program th) as [r|m k|m k|t' d k|t' k|t' k|X l body k] eqn:Hp; [done|..].
  - (* a lock *)
    destruct (mutex_state m (shared c)) as [[]|] eqn:Hm; [done| |done]. injection Hs as <- <-. cbn [wp] in Hwp.
    destruct (lock_phase t m ph) as [ph'|] eqn:Hl'; [|done].
    eapply (inv_next _ _ _ _ _ _ ph'); [done|done|done|exact Hwp| |].
    { rewrite lookup_set_mutex, Ht. reflexivity. }
    destruct m as [t'|t']; cbn in Hl', Hm; destruct (decide (t' = t)) as [->|Hne].
    2,4: injection Hl' as <-; by rewrite Hid.
    + rewrite Ht in Hm. cbn in Hm. destruct (lock_ok_enter_read ht phs i Hlk Hm) as [H1 H2].
      destruct ph; try done; injection Hl' as <-; auto.
    + rewrite Ht in Hm. cbn in Hm. destruct (lock_ok_writer ht phs i Hlk Hm) as [H1 H2].
      destruct ph; try done; injection Hl' as <-; auto.
  - (* an unlock *)
    destruct (mutex_state m (shared c)) as [[]|] eqn:Hm; [|done..]. injection Hs as <- <-. cbn [wp] in Hwp.
    destruct (unlock_phase t m ph) as [ph'|] eqn:Hl'; [|done].
    eapply (inv_next _ _ _ _ _ _ ph'); [done|done|done|exact Hwp| |].
    { rewrite lookup_set_mutex, Ht. reflexivity. }
    destruct m as [t'|t']; cbn in Hl', Hm; destruct (decide (t' = t)) as [->|Hne].
    2,4: injection Hl' as <-; by rewrite Hid.
    + destruct (lock_ok_leave_mx ht phs i Hlk) as [H1 H2]. destruct ph; try done; injection Hl' as <-; [apply H1|apply H2]; done.
    + destruct (lock_ok_leave_writer ht phs i Hlk) as [H1 H2]. destruct ph; try done; injection Hl' as <-; [apply H2|apply H1]; done.
  - (* the count *)
    destruct (tables (shared c) !! t') as [ht'|] eqn:Ht'; [|done]. injection Hs as <- <-. cbn [wp] in Hwp.
    specialize (Hwp (u32 (reader ht' + d))). destruct (add_phase t t' d _ ph) as [ph'|] eqn:Ha; [|done]. unfold add_phase in Ha.
    destruct (decide (t' = t)) as [->|Hne].
    + assert (ht' = ht) as -> by congruence. destruct (lock_ok_reader ht phs i (u32 (reader ht + d)) Hlk Hlen') as [H1 H2].
      eapply (inv_next _ _ _ _ _ _ ph'); [done|done|done|exact Hwp|cbn; apply lookup_insert_eq|].
      destruct ph; try done.
      * destruct (Z.eqb_spec d 1) as [->|]; [|done]. injection Ha as <-. by apply H1.
      * destruct (Z.eqb_spec d (-1)) as [->|]; [|done]. injection Ha as <-. by apply H2.
    + injection Ha as <-. eapply (inv_next _ _ _ _ _ _ ph); [done|done|done|exact Hwp|cbn; by rewrite lookup_insert_ne|by rewrite Hid].
  - (* the count reset: not of this table *)
    destruct Hwp as [Hne Hwp]. injection Hs as <- <-.
    eapply (inv_next _ _ _ _ _ _ ph); [done|done|done|exact Hwp|cbn; by rewrite lookup_alter_ne|by rewrite Hid].
  - destruct Hwp as [Hne Hwp]. injection Hs as <- <-.
    eapply (inv_next _ _ _ _ _ _ ph); [done|done|done|exact Hwp|cbn; by rewrite !lookup_alter_ne|by rewrite Hid].
  - (* an access *)
    destruct th as [p|p]; cbn in Hp; subst p.
    + injection Hs as <- <-. eapply (inv_next _ _ _ _ _ _ ph); [done|done|done|exact Hwp|done|by rewrite Hid].
    + cbn [program] in Hwp. destruct Hwp as (_ & Hb & Hk). destruct (body (shared c)) as [x w1| |] eqn:Hbody; [|done..].
      injection Hs as <- <-. destruct (Hb _ _ _ Hbody) as [Hst _]. rewrite Ht in Hst.
      destruct (tables w1 !! t) as [ht1|] eqn:Ht1; [|done]. 
      eapply (inv_next _ _ _ _ _ _ ph); [done|done|done|exact (Hk x)|exact Ht1|]. rewrite Hid.
      eapply lock_ok_ext; [|exact Hlk]. cbn in Hst. congruence.
Qed.

End spec.
