(* ===== verification/TsHashTheorems.v ===== *)
(** * Shared hash tables: theorems *)

From stdpp Require Import relations.
From S2P Require Import Prelude DList HashModel TsHashModel TsHashSpec.
Local Open Scope Z_scope.

Section theorems.
Context {V : Type}.
Implicit Types (t : tid) (c : config (V:=V)) (th : thread (V:=V)).

(** The calls of the functions of the file, with the tables they lock; not
    [zend_ts_hash_clean] and [zend_ts_hash_compare], which break the rules of the lock
    (below), nor the destruction of a table that others use. *)
Inductive ts_call : list tid → ∀ X : Type, prog (V:=V) X → Prop :=
| call_add_or_update ht k n v s f : ts_call [ht] _ (_zend_ts_hash_add_or_update ht k n v s f)
| call_quick_add_or_update ht k n h v s f : ts_call [ht] _ (_zend_ts_hash_quick_add_or_update ht k n h v s f)
| call_index_update_or_next_insert ht h v s f : ts_call [ht] _ (_zend_ts_hash_index_update_or_next_insert ht h v s f)
| call_add_empty_element ht k n v : ts_call [ht] _ (zend_ts_hash_add_empty_element ht k n v)
| call_apply (A : Type) ht f a : ts_call [ht] A (zend_ts_hash_apply ht f a)
| call_apply_with_argument (A : Type) ht f a : ts_call [ht] A (zend_ts_hash_apply_with_argument ht f a)
| call_apply_with_arguments (A B : Type) ht (va : list B → B) f l a : ts_call [ht] A (zend_ts_hash_apply_with_arguments ht va f l a)
| call_reverse_apply (A : Type) ht f a : ts_call [ht] A (zend_ts_hash_reverse_apply ht f a)
| call_del_key_or_index ht k n h f : ts_call [ht] _ (zend_ts_hash_del_key_or_index ht k n h f)
| call_get_hash_value ht s : ts_call [ht] _ (zend_ts_get_hash_value ht s)
| call_find ht k n : ts_call [ht] _ (zend_ts_hash_find ht k n)
| call_quick_find ht k n h : ts_call [ht] _ (zend_ts_hash_quick_find ht k n h)
| call_index_find ht h : ts_call [ht] _ (zend_ts_hash_index_find ht h)
| call_exists ht k n : ts_call [ht] _ (zend_ts_hash_exists ht k n)
| call_index_exists ht h : ts_call [ht] _ (zend_ts_hash_index_exists ht h)
| call_copy target source f s : target ≠ source → ts_call [target; source] _ (zend_ts_hash_copy target source f s)
| call_copy_to_hash target source f s : ts_call [source] _ (zend_ts_hash_copy_to_hash target source f s)
| call_merge target source f s o : target ≠ source → ts_call [target; source] _ (zend_ts_hash_merge target source f s o)
| call_merge_ex target source f s m : target ≠ source → ts_call [target; source] _ (zend_ts_hash_merge_ex target source f s m)
| call_sort ht s f r : ts_call [ht] _ (zend_ts_hash_sort ht s f r)
| call_minmax ht f b : ts_call [ht] _ (zend_ts_hash_minmax ht f b)
| call_num_elements ht : ts_call [ht] _ (zend_ts_hash_num_elements ht)
| call_rehash ht : ts_call [ht] _ (zend_ts_hash_rehash ht).

(** the program of a thread: calls one after the other, each chosen from the results
    of those before, of functions whose tables satisfy [P] *)
Inductive client (P : list tid → Prop) : prog (V:=V) unit → Prop :=
| client_end : client P (Return _ tt)
| client_call ts (X : Type) p (k : X → prog unit) : ts_call ts X p → P ts → (∀ x, client P (k x)) → client P (pbind p k).

(** threads that start on tables in [new_ts] *)
Definition initial (P : list tid → Prop) t c : Prop :=
  (∀ th, th ∈ pool c → ∃ p, th = Running p ∧ client P p) ∧ Z.of_nat (length (pool c)) < 2 ^ 32 ∧
  ∃ h, tables (shared c) !! t = Some (new_ts h).

Lemma ts_call_wp t ts X p (Q : phase → X → Prop) : ts_call ts X p → (∀ x, Q Idle x) → wp t Idle p Q.
Proof.
  intros Hp HQ. destruct Hp; try (apply wp_writing; exact HQ); try (apply wp_reading; exact HQ);
    try (by apply wp_combining).
  unfold zend_ts_get_hash_value. apply wp_bind, wp_begin_read; [done|]. apply wp_bind, wp_end_read.
  - intros ->. by rewrite decide_True.
  - cbn. destruct (decide _); apply HQ.
Qed.

Lemma client_wp P t p : client P p → wp t Idle p (λ ph _, ph = Idle).
Proof.
  induction 1 as [|ts X p k Hp _ _ IH]; [done|]. apply wp_bind. by eapply ts_call_wp.
Qed.

Lemma total_idle f n : total f (replicate n Idle) = Z.of_nat n * f Idle.
Proof. induction n as [|n IH]; simpl; [done|]. rewrite IH. lia. Qed.

Lemma initial_inv P t c : initial P t c → inv t c.
Proof.
  intros (Hcl & Hlen & h & Ht). split; [|split; [done|]].
  - intros th Hth. destruct (Hcl th Hth) as (p & -> & _). done.
  - exists (replicate (length (pool c)) Idle), (new_ts h). split; [done|]. split.
    + split; rewrite !total_idle; cbn; rewrite ?Z.mul_0_r; try lia; try done; by exists false.
    + apply Forall2_same_length_lookup_2; [by rewrite length_replicate|]. intros i th ph Hth Hph.
      apply lookup_replicate in Hph as [-> _]. apply list_elem_of_lookup_2 in Hth.
      destruct (Hcl th Hth) as (p & -> & Hp). by eapply client_wp.
Qed.

Lemma reachable_inv P t c c' : initial P t c → rtc step c c' → inv t c'.
Proof.
  intros Hi Hr. apply initial_inv in Hi. induction Hr as [|c1 c2 c3 Hst _ IH]; [done|]. apply IH. by eapply inv_step.
Qed.

(** an access in progress is allowed in the phase of its thread *)
Lemma in_progress_allowed t th ph : wp t ph (program th) (λ ph' _, ph' = Idle) → allowed t ph (in_progress th).
Proof.
  intros Hwp. destruct th as [p|p]; [split; intros []%elem_of_nil|].
  cbn in *. destruct p; try (split; intros []%elem_of_nil). apply Hwp.
Qed.


(** ** Progress *)

(** the program locks no table but [t] *)
Fixpoint only {R} t (p : prog (V:=V) R) : Prop :=
  match p with
  | Return _ _ => True
  | Lock _ m k | Unlock _ m k => match m with MxReader t' | MxWriter t' => t' = t end ∧ only t k
  | AddReader _ t' _ k => t' = t ∧ ∀ n, only t (k n)
  | ZeroReader _ t' k | FreeMutexes _ t' k => t' = t ∧ only t k
  | Access _ _ _ k => ∀ x, only t (k x)
  end.

Lemma only_bind {R S} t (p : prog R) (k : R → prog S) : only t p → (∀ x, only t (k x)) → only t (pbind p k).
Proof.
  intros Hp Hk. induction p as [r|m p IH|m p IH|t' d f IH|t' p IH|t' p IH|X l body f IH]; cbn in *; auto; try tauto.
  destruct Hp. auto.
Qed.

Lemma only_writing {X} t (f : HashTable → HM V (HashTable * X)) : only t (writing t f).
Proof. by cbn. Qed.

Lemma only_reading {X} t (f : HashTable → HM V X) : only t (reading t f).
Proof. cbn. split; [done|]. split; [done|]. intros n. destruct (n =? 1); cbn; repeat split; intros m; destruct (m =? 0); by cbn. Qed.

Lemma ts_call_only t X p : ts_call [t] X p → only t p.
Proof.
  intros Hp. inversion Hp; subst; try apply only_writing; try apply only_reading.
  cbn. split; [done|]. split; [done|]. intros n. destruct (n =? 1); cbn; repeat split; intros m; destruct (m =? 0); by cbn.
Qed.

Lemma client_only t p : client (λ l, l = [t]) p → only t p.
Proof.
  induction 1 as [|ts X p k Hp -> _ IH]; [done|]. apply only_bind; [by eapply ts_call_only|done].
Qed.

Lemma only_step t th th' w w' : only t (program th) → thread_step th w = Next th' w' → only t (program th').
Proof.
  intros Ho Hs. unfold thread_step in Hs. destruct (program th) as [r|m k|m k|t' d k|t' k|t' k|X l body k] eqn:Hp; [done|..]; cbn in Ho.
  - destruct (mutex_state m w) as [[]|]; [done| |done]. injection Hs as <- _. apply Ho.
  - destruct (mutex_state m w) as [[]|]; [|done..]. injection Hs as <- _. apply Ho.
  - destruct (tables w !! t'); [|done]. injection Hs as <- _. apply Ho.
  - injection Hs as <- _. apply Ho.
  - injection Hs as <- _. apply Ho.
  - destruct th as [p|p]; cbn in Hp; subst p; [by injection Hs as <- _|].
    destruct (body w); [|done..]. injection Hs as <- _. apply Ho.
Qed.

Lemma reachable_only t c c' th : initial (λ l, l = [t]) t c → rtc step c c' → th ∈ pool c' → only t (program th).
Proof.
  intros (Hcl & _) Hr. revert th. assert (H0 : ∀ th, th ∈ pool c → only t (program th)).
  { intros th Hth. destruct (Hcl th Hth) as (p & -> & Hp). by apply client_only. }
  clear Hcl. induction Hr as [|c1 c2 c3 Hst _ IH]; [done|]. apply IH. destruct Hst as [i th1 th' w' c0 Hi Hs]. cbn.
  intros th Hth. apply list_elem_of_lookup in Hth as [j Hj]. apply list_lookup_insert_Some in Hj as [(-> & <- & _)|[_ Hj]].
  - eapply only_step; [|done]. apply H0. by eapply list_elem_of_lookup_2.
  - apply H0. by eapply list_elem_of_lookup_2.
Qed.

(** a thread can move, or fails in an access *)
Definition can_move th (w : ts_world (V:=V)) : Prop :=
  (∃ th' w', thread_step th w = Next th' w') ∨ (thread_step th w = Wrong ∧ ∃ p, th = Inside p).

(** why a thread does not *)
Lemma waiting t th ph w ht phs i :
  inside_ok th → wp t ph (program th) (λ ph' _, ph' = Idle) → only t (program th) →
  tables w !! t = Some ht → lock_ok ht phs → phs !! i = Some ph →
  can_move th w ∨ (finished th = true ∧ ph = Idle) ∨
  (mx_reader ht = Some true ∧ (ph = Idle ∨ ph = Reading)) ∨ (mx_writer ht = Some true ∧ (ph = Idle ∨ ph = NeedW)).
Proof.
  intros Hin Hwp Ho Ht Hlk Hi. unfold can_move, thread_step.
  destruct (program th) as [r|m k|m k|t' d k|t' k|t' k|X l body k] eqn:Hp; cbn in Hwp, Ho.
  - right. left. split; [|done]. destruct th as [p|p]; cbn in Hp; subst p; done.
  - destruct m as [t'|t']; destruct Ho as [-> _]; cbn [mutex_state]; rewrite Ht; cbn in *; rewrite decide_True in Hwp by done.
    + destruct (lk_mx _ _ Hlk) as ([] & Hb & _); rewrite Hb.
      * right. right. left. split; [done|]. destruct ph; by auto.
      * left. left. eauto.
    + destruct (lk_wr _ _ Hlk) as ([] & Hb & _); rewrite Hb.
      * right. right. right. split; [done|]. destruct ph; by auto.
      * left. left. eauto.
  - left. left. destruct m as [t'|t']; destruct Ho as [-> _]; cbn [mutex_state]; rewrite Ht; cbn in *; rewrite decide_True in Hwp by done.
    + destruct (lock_ok_leave_mx ht phs i Hlk) as [H1 H2].
      assert (mx_reader ht = Some true) as -> by (destruct ph; try done; [by apply H1|by apply H2]). eauto.
    + destruct (lock_ok_leave_writer ht phs i Hlk) as [H1 H2].
      assert (mx_writer ht = Some true) as -> by (destruct ph; try done; [by apply H2|by apply H1]). eauto.
  - left. left. destruct Ho as [-> _]. rewrite Ht. eauto.
  - left. left. eauto.
  - left. left. eauto.
  - left. destruct th as [p|p]; cbn in Hp; subst p; [left; eauto|].
    destruct (body w); [left; eauto|right; eauto..].
Qed.


End theorems.

(** ** Runs *)

Lemma run_schedule_steps {V} schedule (c c' : config (V:=V)) : run_schedule schedule c = Some c' → rtc step c c'.
Proof.
  revert c. induction schedule as [|i schedule IH]; intros c; simpl; [by intros [= ->]|].
  destruct (pool c !! i) as [th|] eqn:Hi; [|done]. destruct (thread_step th (shared c)) as [th' w'| |] eqn:Hs; [|done..].
  intros Hr. eapply rtc_l; [|by apply IH]. by econstructor.
Qed.

Lemma run_reaches {V} schedule (c : config (V:=V)) (P : config → bool) :
  match run_schedule schedule c with Some c' => P c' | None => false end = true → ∃ c', rtc step c c' ∧ P c' = true.
Proof.
  destruct (run_schedule schedule c) as [c'|] eqn:Hr; [|done]. intros HP. exists c'. split; [by eapply run_schedule_steps|done].
Qed.

(** no thread has a next step *)
Definition all_blocked {V} (c : config (V:=V)) : bool :=
  forallb (λ th, match thread_step th (shared c) with Blocked => true | _ => false end) (pool c).

Lemma all_blocked_stuck {V} (c : config (V:=V)) : all_blocked c = true → ∀ c', ¬ step c c'.
Proof.
  unfold all_blocked. rewrite forallb_forall. intros Hb c' Hst. destruct Hst as [i th th' w' c0 Hi Hs].
  apply list_elem_of_lookup_2, list_elem_of_In in Hi. specialize (Hb _ Hi). by rewrite Hs in Hb.
Qed.

(** two empty tables, at 1 and 2, and the programs of two threads *)
Definition ts_sample_world : ts_world (V:=Z) :=
  MkTsWorld {[ 1%positive := _zend_ts_hash_init 8 false false; 2%positive := _zend_ts_hash_init 8 false false ]} (Mem ∅ 1 []).
Definition thread_of {X} (p : prog (V:=Z) X) : thread := Running (pbind p (λ _, Return _ tt)).
Definition ts_sample {X Y} (p : prog (V:=Z) X) (q : prog (V:=Z) Y) : config := MkConfig [thread_of p; thread_of q] ts_sample_world.

Definition sample_key : kptr := KExt 0 [Byte.x6b; Byte.x65; Byte.x79; Byte.x00].

(** C39: three defects of the locking.  (1) [zend_ts_hash_clean] resets the count of
    readers outside of the lock: a reader that is inside then leaves without giving
    [mx_writer] back, and the thread in [zend_ts_hash_clean], like any other writer,
    waits for ever.  (2) Two threads that merge two tables into each other each hold
    one table for reading and wait for ever to write to the other.  (3)
    [zend_ts_hash_compare] takes its tables for reading and changes their
    [nApplyCount]: it can be writing while another thread is reading. *)
Theorem ts_lock_defects :
  (∃ c, rtc step (ts_sample (zend_ts_hash_find 1 sample_key 4) (zend_ts_hash_clean 1)) c ∧
     (∀ c', ¬ step c c') ∧ finished <$> pool c = [true; false]) ∧
  (∃ c, rtc step (ts_sample (zend_ts_hash_merge 1 2 None 8 true) (zend_ts_hash_merge 2 1 None 8 true)) c ∧
     (∀ c', ¬ step c c') ∧ finished <$> pool c = [false; false]) ∧
  (∃ c, rtc step (ts_sample (zend_ts_hash_compare 1 2 Z.sub true) (zend_ts_hash_num_elements 1)) c ∧
     in_progress <$> pool c = [[Wr 1; Wr 2]; [Rd 1]]).
Proof.
  split; [|split].
  - destruct (run_reaches [0; 0; 0; 0; 1; 0; 0; 0; 0; 0]%nat (ts_sample (zend_ts_hash_find 1 sample_key 4) (zend_ts_hash_clean 1))
      (λ c, all_blocked c && bool_decide (finished <$> pool c = [true; false]))) as (c & Hr & [Hb Hf]%andb_true_iff);
      [vm_compute; reflexivity|].
    exists c. split; [done|]. split; [by apply all_blocked_stuck|by apply bool_decide_eq_true_1 in Hf].
  - destruct (run_reaches [0; 0; 0; 0; 1; 1; 1; 1]%nat
      (ts_sample (zend_ts_hash_merge 1 2 None 8 true) (zend_ts_hash_merge 2 1 None 8 true))
      (λ c, all_blocked c && bool_decide (finished <$> pool c = [false; false]))) as (c & Hr & [Hb Hf]%andb_true_iff);
      [vm_compute; reflexivity|].
    exists c. split; [done|]. split; [by apply all_blocked_stuck|by apply bool_decide_eq_true_1 in Hf].
  - destruct (run_reaches [0; 0; 0; 0; 0; 0; 0; 0; 0; 1; 1; 1; 1]%nat
      (ts_sample (zend_ts_hash_compare 1 2 Z.sub true) (zend_ts_hash_num_elements 1))
      (λ c, bool_decide (in_progress <$> pool c = [[Wr 1; Wr 2]; [Rd 1]]))) as (c & Hr & Hf);
      [vm_compute; reflexivity|].
    exists c. split; [done|by apply bool_decide_eq_true_1 in Hf].
Qed.

(** ** Witnesses *)

(** a thread that looks a key up, and one that deletes it *)
Definition ts_pair : config (V:=Z) :=
  ts_sample (zend_ts_hash_find 1 sample_key 4) (zend_ts_hash_del_key_or_index 1 sample_key 4 0 HASH_DEL_KEY).

Lemma thread_of_client {V} (P : list tid → Prop) ts X (p : prog (V:=V) X) :
  ts_call ts X p → P ts → client P (pbind p (λ _, Return _ tt)).
Proof. intros Hp HP. eapply client_call; [done..|]. intros x. constructor. Qed.

Lemma ts_pair_initial (P : list tid → Prop) : P [1%positive] → initial P 1%positive ts_pair.
Proof.
  intros HP. split; [|split; [done|by eexists]].
  intros th [->|[->|[]%elem_of_nil]%elem_of_cons]%elem_of_cons; eexists; (split; [reflexivity|]).
  - exact (thread_of_client _ _ _ _ (call_find _ _ _) HP).
  - exact (thread_of_client _ _ _ _ (call_del_key_or_index _ _ _ _ _) HP).
Qed.


