(* ===== verification/Base64.v ===== *)
(** * [ext/standard/base64.c]

    Encoding writes into a block of exactly the size it computes; decoding skips what is
    not in the alphabet, or refuses it when it is strict.  The block [result] is the
    state; a cell that was not written is [None]. *)

From Stdlib.Strings Require Import (notations) String.
From S2P Require Import Prelude.
Local Open Scope Z_scope.
Local Open Scope effect_scope.

(** ** The tables *)

Definition base64_table : list Z :=
  (byte_Z <$> str "ABCDEFGHIJKLMNOPQRSTUVWXYZabcdefghijklmnopqrstuvwxyz0123456789+/"%string) ++ [0].
Definition base64_pad : Z := 61.
Definition base64_reverse_table : list Z := [
  -2; -2; -2; -2; -2; -2; -2; -2; -2; -1; -1; -2; -2; -1; -2; -2;
  -2; -2; -2; -2; -2; -2; -2; -2; -2; -2; -2; -2; -2; -2; -2; -2;
  -1; -2; -2; -2; -2; -2; -2; -2; -2; -2; -2; 62; -2; -2; -2; 63;
  52; 53; 54; 55; 56; 57; 58; 59; 60; 61; -2; -2; -2; -2; -2; -2;
  -2;  0;  1;  2;  3;  4;  5;  6;  7;  8;  9; 10; 11; 12; 13; 14;
  15; 16; 17; 18; 19; 20; 21; 22; 23; 24; 25; -2; -2; -2; -2; -2;
  -2; 26; 27; 28; 29; 30; 31; 32; 33; 34; 35; 36; 37; 38; 39; 40;
  41; 42; 43; 44; 45; 46; 47; 48; 49; 50; 51; -2; -2; -2; -2; -2;
  -2; -2; -2; -2; -2; -2; -2; -2; -2; -2; -2; -2; -2; -2; -2; -2;
  -2; -2; -2; -2; -2; -2; -2; -2; -2; -2; -2; -2; -2; -2; -2; -2;
  -2; -2; -2; -2; -2; -2; -2; -2; -2; -2; -2; -2; -2; -2; -2; -2;
  -2; -2; -2; -2; -2; -2; -2; -2; -2; -2; -2; -2; -2; -2; -2; -2;
  -2; -2; -2; -2; -2; -2; -2; -2; -2; -2; -2; -2; -2; -2; -2; -2;
  -2; -2; -2; -2; -2; -2; -2; -2; -2; -2; -2; -2; -2; -2; -2; -2;
  -2; -2; -2; -2; -2; -2; -2; -2; -2; -2; -2; -2; -2; -2; -2; -2;
  -2; -2; -2; -2; -2; -2; -2; -2; -2; -2; -2; -2; -2; -2; -2; -2 ].

(** ** Memory *)

Abbreviation block := (list (option Z)).
Abbreviation B := (M block).

(** [mem[i]], of an array that is only read *)
Definition at_index (mem : list Z) (i : Z) : B Z :=
  if i <? 0 then stuck else of_option (mem !! Z.to_nat i).
(** [Zend/zend_alloc.c], for x86-64; the arguments are converted to [size_t], and an
    [E_ERROR] leaves by [zend_bailout] *)
Definition safe_address {W} (nmemb size offset : Z) : M W Z :=
  let res := u64 (nmemb * size) in
  let overflow := nmemb * size / 2 ^ 64 in
  let overflow := overflow + (res + offset) / 2 ^ 64 in
  let res := u64 (res + offset) in
  if negb (overflow =? 0) then bailout else ret res.
Definition emalloc (size : Z) : B unit := λ _, Done tt (replicate (Z.to_nat size) None).
Definition safe_emalloc (nmemb size offset : Z) : B unit := let! n := safe_address (u64 nmemb) (u64 size) (u64 offset) in emalloc n.
(** [result[i] = v], an [unsigned char] *)
Definition set_result (i v : Z) : B unit := λ blk,
  if (0 <=? i) && (i <? Z.of_nat (length blk)) then Done tt (<[Z.to_nat i := Some (u8 v)]> blk) else Stuck.
Definition get_result (i : Z) : B Z := λ blk,
  match mjoin (blk !! Z.to_nat i) with Some v => if 0 <=? i then Done v blk else Stuck | None => Stuck end.
(** [result[i] |= v] *)
Definition or_result (i v : Z) : B unit := let! x := get_result i in set_result i (Z.lor x v).

(** ** Encoding *)

(** [*p++ = base64_table[i]] *)
Definition put_char (p i : Z) : B unit := let! c := at_index base64_table i in set_result p c.

Section encode.
Variable str : list Z.

Fixpoint encode_loop (fuel : nat) (current length p : Z) : B (Z * Z * Z) :=
  if length >? 2 then
    match fuel with
    | O => stuck
    | S fuel' =>
        let! c0 := at_index str current in
        let! c1 := at_index str (current + 1) in
        let! c2 := at_index str (current + 2) in
        put_char p (Z.shiftr c0 2) ;;;
        put_char (p + 1) (Z.shiftl (Z.land c0 3) 4 + Z.shiftr c1 4) ;;;
        put_char (p + 2) (Z.shiftl (Z.land c1 15) 2 + Z.shiftr c2 6) ;;;
        put_char (p + 3) (Z.land c2 63) ;;;
        encode_loop fuel' (current + 3) (length - 3) (p + 4)
    end
  else ret (current, length, p).

Definition encode_tail (current length p : Z) : B Z :=
  if negb (length =? 0) then
    let! c0 := at_index str current in
    put_char p (Z.shiftr c0 2) ;;;
    (if length >? 1 then
       let! c1 := at_index str (current + 1) in
       put_char (p + 1) (Z.shiftl (Z.land c0 3) 4 + Z.shiftr c1 4) ;;;
       put_char (p + 2) (Z.shiftl (Z.land c1 15) 2)
     else
       put_char (p + 1) (Z.shiftl (Z.land c0 3) 4) ;;;
       set_result (p + 2) base64_pad) ;;;
    set_result (p + 3) base64_pad ;;;
    ret (p + 4)
  else ret p.

(** the result is [*ret_length], or [None] with [NULL]; the fuel of the loop is [length] *)
Definition php_base64_encode (length : Z) : B (option Z) :=
  if length <? 0 then ret None
  else
    safe_emalloc (Z.quot (s32 (length + 2)) 3) 4 1 ;;;
    let! '(current, length, p) := encode_loop (Z.to_nat length) 0 length 0 in
    let! p := encode_tail current length p in
    set_result p 0 ;;;
    ret (Some (s32 p)).

End encode.

(** ** Decoding *)

Definition isspace (c : Z) : bool := (c =? 32) || ((9 <=? c) && (c <=? 13)).

Section decode.
Variable str : list Z.
Variable strict : bool.

(** the loop that increments [current] until it is at no space *)
Fixpoint skip_spaces (fuel : nat) (current : Z) : B Z :=
  match fuel with
  | O => stuck
  | S fuel' =>
      let! c := at_index str (current + 1) in
      if isspace c then skip_spaces fuel' (current + 1) else ret (current + 1)
  end.

(** [switch(i % 4) { ... }]: the new [j] *)
Definition decode_char (ch i j : Z) : B Z :=
  match i mod 4 with
  | 0 => set_result j (Z.shiftl ch 2) ;;; ret j
  | 1 => or_result j (Z.shiftr ch 4) ;;; set_result (j + 1) (Z.shiftl (Z.land ch 15) 4) ;;; ret (j + 1)
  | 2 => or_result j (Z.shiftr ch 2) ;;; set_result (j + 1) (Z.shiftl (Z.land ch 3) 6) ;;; ret (j + 1)
  | _ => or_result j ch ;;; ret (j + 1)
  end.

(** [ch], [i] and [j] at the end of the loop, or [None] for the returns of [NULL] *)
Fixpoint decode_loop (fuel : nat) (current length i j : Z) : B (option (Z * Z * Z)) :=
  match fuel with
  | O => stuck
  | S fuel' =>
      let! ch := at_index str current in
      let current := current + 1 in
      if (ch =? 0) || (length <=? 0) then ret (Some (ch, i, j))
      else
        let length := length - 1 in
        if ch =? base64_pad then
          let! c := at_index str current in
          if negb (c =? base64_pad) && ((i mod 4 =? 1) || (strict && (length >? 0))) then
            if negb (i mod 4 =? 1) then
              let! current := skip_spaces fuel' current in
              let! c := at_index str current in
              if c =? 0 then decode_loop fuel' current length i j else ret None
            else ret None
          else decode_loop fuel' current length i j
        else
          let! ch := at_index base64_reverse_table ch in
          if (negb strict && (ch <? 0)) || (ch =? -1) then decode_loop fuel' current length i j
          else if ch =? -2 then ret None
          else
            let! j := decode_char ch i j in
            decode_loop fuel' current length (i + 1) j
  end.

(** after the loop; [false] returns [NULL] *)
Definition mop_up (ch i j : Z) : B bool :=
  if ch =? base64_pad then
    match i mod 4 with
    | 1 => ret false
    | 2 => set_result (j + 1) 0 ;;; ret true
    | 3 => set_result j 0 ;;; ret true
    | _ => ret true
    end
  else ret true.

(** the fuel is the number of characters, with the terminating one, and one more *)
Definition php_base64_decode_ex (length : Z) : B (option Z) :=
  safe_emalloc length 1 1 ;;;
  let! r := decode_loop (S (List.length str)) 0 length 0 0 in
  match r with
  | None => ret None
  | Some (ch, i, j) =>
      let! ok := mop_up ch i j in
      if (ok : bool) then
        set_result j 0 ;;;
        ret (Some j)
      else ret None
  end.

End decode.

Definition php_base64_decode (str : list Z) (length : Z) : B (option Z) := php_base64_decode_ex str false length.

Example base64_hello : match php_base64_encode (byte_Z <$> str "Hello"%string) 5 [] with
  | Done r blk => (r, blk) | _ => (None, []) end = (Some 8, Some <$> (byte_Z <$> str "SGVsbG8="%string) ++ [0]).
Proof. reflexivity. Qed.

(** the character after the padding is not looked at, not even by the strict decoder *)
Example strict_accepts_garbage : match php_base64_decode_ex ((byte_Z <$> str "QQ=x"%string) ++ [0]) true 4 [] with
  | Done r blk => (r, take 1 blk) | _ => (None, []) end = (Some 1, [Some 65]).
Proof. reflexivity. Qed.

(** ** Steps *)

Lemma safe_emalloc_Done nmemb size offset blk :
  0 ≤ nmemb < 2 ^ 32 → 0 ≤ size < 2 ^ 8 → 0 ≤ offset < 2 ^ 8 →
  safe_emalloc nmemb size offset blk = Done tt (replicate (Z.to_nat (nmemb * size + offset)) None).
Proof.
  intros Hn Hs Ho. unfold safe_emalloc, safe_address, u64. assert (0 ≤ nmemb * size < 2 ^ 40) by nia.
  rewrite (Z.mod_small nmemb), (Z.mod_small size), (Z.mod_small offset), (Z.mod_small (nmemb * size)) by lia.
  rewrite (Z.div_small (nmemb * size)), (Z.div_small (nmemb * size + offset)), Z.mod_small by lia. done.
Qed.


Lemma at_index_Done mem (i : nat) c (blk : block) : mem !! i = Some c → at_index mem (Z.of_nat i) blk = Done c blk.
Proof. intros Hc. unfold at_index. destruct (Z.ltb_spec (Z.of_nat i) 0); [lia|]. by rewrite Nat2Z.id, Hc. Qed.

Lemma set_result_end (d : list Z) x r v : set_result (Z.of_nat (length d)) v ((Some <$> d) ++ x :: r) = Done tt ((Some <$> d) ++ Some (u8 v) :: r).
Proof.
  unfold set_result. rewrite length_app, length_fmap. cbn [length].
  destruct (Z.leb_spec 0 (Z.of_nat (length d))); [|lia]. destruct (Z.ltb_spec (Z.of_nat (length d)) (Z.of_nat (length d + S (length r)))); [|lia].
  cbn [andb]. rewrite Nat2Z.id. f_equal. apply insert_middle. by rewrite length_fmap.
Qed.

Lemma or_result_last (d : list Z) x r v :
  or_result (Z.of_nat (length d)) v ((Some <$> d) ++ Some x :: r) = Done tt ((Some <$> d) ++ Some (u8 (Z.lor x v)) :: r).
Proof.
  unfold or_result, get_result. erewrite bind_Done; [apply set_result_end|]. rewrite Nat2Z.id, <-(length_fmap Some d), list_lookup_middle by done.
  cbn. destruct (Z.leb_spec 0 (Z.of_nat (length (Some <$> d)))); [done|lia].
Qed.

(** ** The alphabet *)

Definition is_byte (b : Z) : Prop := 0 ≤ b < 256.
Definition char_of (i : Z) : Z := default 0 (base64_table !! Z.to_nat i).

Lemma all_bytes (P : Z → bool) : forallb P (seqZ 0 256) = true → ∀ b, is_byte b → P b = true.
Proof. intros H b Hb. rewrite forallb_forall in H. apply H. apply list_elem_of_In, elem_of_seqZ. unfold is_byte in Hb. lia. Qed.

Lemma all_pairs (P : Z → Z → bool) :
  forallb (λ a, forallb (P a) (seqZ 0 256)) (seqZ 0 256) = true → ∀ a b, is_byte a → is_byte b → P a b = true.
Proof. intros H a b Ha Hb. apply (all_bytes (P a)); [|done]. by apply (all_bytes (λ a, forallb (P a) (seqZ 0 256))). Qed.

(** the characters of a sextet are no separators, and decode to it *)
Lemma char_spec v : 0 ≤ v < 64 →
  base64_table !! Z.to_nat v = Some (char_of v) ∧ is_byte (char_of v) ∧ char_of v ≠ 0 ∧ char_of v ≠ base64_pad ∧
  base64_reverse_table !! Z.to_nat (char_of v) = Some v.
Proof.
  intros Hv. set (P := λ v, (bool_decide (base64_table !! Z.to_nat v = Some (char_of v))) && ((0 <=? char_of v) && (char_of v <? 256)) &&
    negb (char_of v =? 0) && negb (char_of v =? base64_pad) && bool_decide (base64_reverse_table !! Z.to_nat (char_of v) = Some v)).
  assert (HP : forallb P (seqZ 0 64) = true) by (vm_compute; reflexivity).
  rewrite forallb_forall in HP. specialize (HP v). rewrite <-list_elem_of_In, elem_of_seqZ in HP. specialize (HP ltac:(lia)).
  unfold P in HP. rewrite !andb_true_iff, !negb_true_iff, !bool_decide_eq_true in HP. destruct HP as [[[[H1 H2] H3] H4] H5].
  unfold is_byte. split; [done|]. split; [lia|]. split; [lia|]. by split; [lia|].
Qed.

Lemma reverse_spec c : is_byte c → ∃ v, base64_reverse_table !! Z.to_nat c = Some v ∧ (v = -2 ∨ v = -1 ∨ 0 ≤ v < 64).
Proof.
  intros Hc. destruct (base64_reverse_table !! Z.to_nat c) as [v|] eqn:E.
  - exists v. split; [done|]. assert (HT : Forall (λ v, v = -2 ∨ v = -1 ∨ 0 ≤ v < 64) base64_reverse_table) by vm_decide.
    by apply (proj1 (Forall_lookup _ _) HT _ _ E).
  - apply lookup_ge_None in E. cbn in E. unfold is_byte in Hc. lia.
Qed.

(** the sextets of three bytes, and the bytes again *)
Definition sextet1 (a b : Z) : Z := Z.shiftl (Z.land a 3) 4 + Z.shiftr b 4.
Definition sextet2 (b c : Z) : Z := Z.shiftl (Z.land b 15) 2 + Z.shiftr c 6.

Lemma sextet_bounds a b : is_byte a → is_byte b →
  (0 ≤ Z.shiftr a 2 < 64 ∧ 0 ≤ Z.land a 63 < 64) ∧ 0 ≤ sextet1 a b < 64 ∧ 0 ≤ sextet2 a b < 64.
Proof.
  intros Ha Hb.
  set (ok := λ v, (0 <=? v) && (v <? 64)).
  pose proof (all_pairs (λ a b, ok (Z.shiftr a 2) && ok (Z.land a 63) && ok (sextet1 a b) && ok (sextet2 a b)) ltac:(vm_compute; reflexivity) a b Ha Hb) as H.
  unfold ok in H. lia.
Qed.

Lemma first_byte a b : is_byte a → is_byte b → u8 (Z.lor (u8 (Z.shiftl (Z.shiftr a 2) 2)) (Z.shiftr (sextet1 a b) 4)) = a.
Proof.
  intros Ha Hb. apply Z.eqb_eq.
  exact (all_pairs (λ a b, u8 (Z.lor (u8 (Z.shiftl (Z.shiftr a 2) 2)) (Z.shiftr (sextet1 a b) 4)) =? a) ltac:(vm_compute; reflexivity) a b Ha Hb).
Qed.

Lemma second_byte a b c : is_byte a → is_byte b → is_byte c →
  u8 (Z.lor (u8 (Z.shiftl (Z.land (sextet1 a b) 15) 4)) (Z.shiftr (sextet2 b c) 2)) = b.
Proof.
  intros Ha Hb Hc.
  pose proof (all_pairs (λ a b, Z.land (sextet1 a b) 15 =? Z.shiftr b 4) ltac:(vm_compute; reflexivity) a b Ha Hb) as ->%Z.eqb_eq.
  apply Z.eqb_eq.
  exact (all_pairs (λ b c, u8 (Z.lor (u8 (Z.shiftl (Z.shiftr b 4) 4)) (Z.shiftr (sextet2 b c) 2)) =? b) ltac:(vm_compute; reflexivity) b c Hb Hc).
Qed.

Lemma third_byte b c : is_byte b → is_byte c →
  u8 (Z.lor (u8 (Z.shiftl (Z.land (sextet2 b c) 3) 6)) (Z.land c 63)) = c.
Proof.
  intros Hb Hc. apply Z.eqb_eq.
  exact (all_pairs (λ b c, u8 (Z.lor (u8 (Z.shiftl (Z.land (sextet2 b c) 3) 6)) (Z.land c 63)) =? c) ltac:(vm_compute; reflexivity) b c Hb Hc).
Qed.

(** ** Decoding one character *)

Section chars.
Implicit Types (d : list Z) (m : nat) (i j ch x : Z).

(** the written part of the block grows *)
Definition filled d m : block := (Some <$> d) ++ replicate m None.

Lemma set_result_next d m v : set_result (Z.of_nat (length d)) v (filled d (S m)) = Done tt (filled (d ++ [u8 v]) m).
Proof. unfold filled. cbn [replicate]. rewrite set_result_end, fmap_app, <-app_assoc. done. Qed.

Lemma or_result_end d m x v : or_result (Z.of_nat (length d)) v (filled (d ++ [x]) m) = Done tt (filled (d ++ [u8 (Z.lor x v)]) m).
Proof. unfold filled. rewrite !fmap_app, <-!app_assoc. apply or_result_last. Qed.

Lemma decode_char_0 ch i d m : i mod 4 = 0 →
  decode_char ch i (Z.of_nat (length d)) (filled d (S m)) = Done (Z.of_nat (length d)) (filled (d ++ [u8 (Z.shiftl ch 2)]) m).
Proof. intros Hi. unfold decode_char. rewrite Hi. by rewrite (bind_Done _ _ _ _ _ (set_result_next _ _ _)). Qed.

(** the two characters that end a byte and begin the next one *)
Lemma decode_char_mid d m x v v' :
  (or_result (Z.of_nat (length d)) v ;;; set_result (Z.of_nat (length d) + 1) v' ;;; ret (Z.of_nat (length d) + 1))%eff
    (filled (d ++ [x]) (S m)) = Done (Z.of_nat (length d) + 1) (filled (d ++ [u8 (Z.lor x v); u8 v']) m).
Proof.
  rewrite (bind_Done _ _ _ _ _ (or_result_end _ _ _ _)).
  replace (Z.of_nat (length d) + 1) with (Z.of_nat (length (d ++ [u8 (Z.lor x v)]))) by (rewrite length_app; cbn; lia).
  rewrite (bind_Done _ _ _ _ _ (set_result_next _ _ _)), <-app_assoc. done.
Qed.

Lemma decode_char_1 ch i d m x : i mod 4 = 1 →
  decode_char ch i (Z.of_nat (length d)) (filled (d ++ [x]) (S m)) =
  Done (Z.of_nat (length d) + 1) (filled (d ++ [u8 (Z.lor x (Z.shiftr ch 4)); u8 (Z.shiftl (Z.land ch 15) 4)]) m).
Proof. intros Hi. unfold decode_char. rewrite Hi. apply decode_char_mid. Qed.

Lemma decode_char_2 ch i d m x : i mod 4 = 2 →
  decode_char ch i (Z.of_nat (length d)) (filled (d ++ [x]) (S m)) =
  Done (Z.of_nat (length d) + 1) (filled (d ++ [u8 (Z.lor x (Z.shiftr ch 2)); u8 (Z.shiftl (Z.land ch 3) 6)]) m).
Proof. intros Hi. unfold decode_char. rewrite Hi. apply decode_char_mid. Qed.

Lemma decode_char_3 ch i d m x : i mod 4 = 3 →
  decode_char ch i (Z.of_nat (length d)) (filled (d ++ [x]) m) = Done (Z.of_nat (length d) + 1) (filled (d ++ [u8 (Z.lor x ch)]) m).
Proof. intros Hi. unfold decode_char. rewrite Hi. by rewrite (bind_Done _ _ _ _ _ (or_result_end _ _ _ _)). Qed.

(** after [i] characters, [j] bytes are complete, and the next one is begun *)
Definition complete i : Z := 3 * (i / 4) + Z.max 0 (i mod 4 - 1).
Definition written i : Z := 3 * (i / 4) + i mod 4.

Lemma mod_next i : 0 ≤ i → (i mod 4 = 3 ∧ (i + 1) mod 4 = 0 ∧ (i + 1) / 4 = i / 4 + 1) ∨ (i mod 4 < 3 ∧ (i + 1) mod 4 = i mod 4 + 1 ∧ (i + 1) / 4 = i / 4).
Proof. intros Hi. pose proof (Z.div_mod i 4 ltac:(lia)). pose proof (Z.mod_pos_bound i 4 ltac:(lia)).
  destruct (decide (i mod 4 = 3)); [left|right]; (split; [lia|]); split; symmetry;
    [apply (Z.mod_unique_pos _ _ (i / 4 + 1))|apply (Z.div_unique_pos _ _ _ 0)|apply (Z.mod_unique_pos _ _ (i / 4))|apply (Z.div_unique_pos _ _ _ (i mod 4 + 1))]; lia.
Qed.

Lemma decode_char_run ch i d m :
  0 ≤ i → Z.of_nat (length d) = written i → (0 < m)%nat →
  ∃ d' m', decode_char ch i (complete i) (filled d m) = Done (complete (i + 1)) (filled d' m') ∧
    Z.of_nat (length d') = written (i + 1) ∧ (length d' + m' = length d + m)%nat.
Proof.
  intros Hi Hd Hm. destruct m as [|m]; [lia|]. pose proof (Z.mod_pos_bound i 4 ltac:(lia)). pose proof (Z.div_pos i 4 ltac:(lia) ltac:(lia)).
  unfold written, complete in *. destruct (decide (i mod 4 = 0)) as [E|E].
  { exists (d ++ [u8 (Z.shiftl ch 2)]), m. rewrite length_app. cbn [length]. split; [|destruct (mod_next i Hi); lia].
    replace (3 * (i / 4) + Z.max 0 (i mod 4 - 1)) with (Z.of_nat (length d)) by lia. rewrite decode_char_0 by done. f_equal.
    destruct (mod_next i Hi); lia. }
  destruct d as [|x d _] using rev_ind; [cbn in Hd; lia|]. rewrite length_app in Hd. cbn [length] in Hd.
  replace (3 * (i / 4) + Z.max 0 (i mod 4 - 1)) with (Z.of_nat (length d)) by lia.
  assert (Hnext : 3 * ((i + 1) / 4) + Z.max 0 ((i + 1) mod 4 - 1) = Z.of_nat (length d) + 1) by (destruct (mod_next i Hi); lia). rewrite Hnext.
  assert (i mod 4 = 1 ∨ i mod 4 = 2 ∨ i mod 4 = 3) as [Er|[Er|Er]] by lia;
    [rewrite decode_char_1 by done|rewrite decode_char_2 by done|rewrite decode_char_3 by done];
    (eexists _, _; split; [reflexivity|]; rewrite !length_app; cbn [length]; destruct (mod_next i Hi); lia).
Qed.

End chars.

(** ** Decoding stays inside *)

Section safe.
Context (s : list Z) (strict : bool).
Hypothesis s_bytes : Forall is_byte s.
Local Abbreviation text := (s ++ [0]).
Local Abbreviation N := (length s).

Lemma text_at cur : (cur ≤ N)%nat → ∃ c, text !! cur = Some c ∧ is_byte c ∧ (c ≠ 0 → (cur < N)%nat).
Proof using s_bytes.
  intros Hc. destruct (decide (cur = N)) as [->|Hne].
  - exists 0. rewrite list_lookup_middle by done. unfold is_byte. split; [done|]. split; [lia|done].
  - destruct (lookup_lt_is_Some_2 s cur ltac:(lia)) as [c Hs]. exists c. rewrite lookup_app_l by lia. split; [done|].
    split; [by apply (proj1 (Forall_lookup _ _) s_bytes _ _ Hs)|lia].
Qed.

Lemma read_text cur (blk : block) : (cur ≤ N)%nat →
  ∃ c, at_index text (Z.of_nat cur) blk = Done c blk ∧ text !! cur = Some c ∧ is_byte c ∧ (c ≠ 0 → (cur < N)%nat).
Proof using s_bytes.
  intros Hc. destruct (text_at cur Hc) as (c & H1 & H2 & H3). exists c. split; [by apply at_index_Done|done].
Qed.

Lemma skip_run fuel cur (blk : block) : (cur < N)%nat → (N ≤ fuel + cur)%nat →
  ∃ cur', skip_spaces text fuel (Z.of_nat cur) blk = Done (Z.of_nat cur') blk ∧ (cur < cur' ≤ N)%nat.
Proof using s_bytes.
  revert cur. induction fuel as [|fuel IH]; intros cur Hc Hf; [lia|]. cbn [skip_spaces].
  replace (Z.of_nat cur + 1) with (Z.of_nat (S cur)) by lia.
  destruct (read_text (S cur) blk ltac:(lia)) as (c & Hr & _ & _ & Hc0). rewrite (bind_Done _ _ _ _ _ Hr).
  destruct (isspace c) eqn:Hsp; [|exists (S cur); split; [done|lia]].
  assert (c ≠ 0) as Hn by (intros ->; done). specialize (Hc0 Hn).
  destruct (IH (S cur) Hc0 ltac:(lia)) as (cur' & Hrun & Hb). exists cur'. split; [done|lia].
Qed.

(** the state at the end of the loop *)
Definition loop_post (r : option (Z * Z * Z)) (blk : block) : Prop :=
  length blk = S N ∧
  match r with
  | None => True
  | Some (ch, i, j) => ch = 0 ∧ 0 ≤ i ≤ Z.of_nat N ∧ j = complete i ∧
      ∃ d m, blk = filled d m ∧ Z.of_nat (length d) = written i
  end.

Lemma filled_length d m : length (filled d m) = (length d + m)%nat.
Proof. unfold filled. by rewrite length_app, length_fmap, length_replicate. Qed.

Lemma decode_loop_run fuel cur len i d m :
  (cur ≤ N)%nat → (N < fuel + cur)%nat → Z.of_nat cur + len = Z.of_nat N ∨ text !! cur = Some 0 → 0 ≤ i ≤ Z.of_nat cur →
  Z.of_nat (length d) = written i → (length d + m = S N)%nat →
  ∃ r blk, decode_loop text strict fuel (Z.of_nat cur) len i (complete i) (filled d m) = Done r blk ∧ loop_post r blk.
Proof using s_bytes.
  revert cur len i d m. induction fuel as [|fuel IH]; intros cur len i d m Hc Hf Hlen Hi Hd Hm; [lia|]. cbn [decode_loop].
  destruct (read_text cur (filled d m) Hc) as (ch & Hr & Hat & Hbyte & Hch). rewrite (bind_Done _ _ _ _ _ Hr).
  destruct (Z.eqb_spec ch 0) as [->|Hne]; cbn [orb].
  { eexists _, _. split; [reflexivity|]. split; [by rewrite filled_length|]. split; [done|]. split; [lia|]. split; [done|]. by exists d, m. }
  specialize (Hch Hne). destruct Hlen as [Hlen|Hlen]; [|congruence]. destruct (Z.leb_spec len 0); [lia|].
  replace (Z.of_nat cur + 1) with (Z.of_nat (S cur)) by lia.
  assert (Hskip : ∃ r blk, decode_loop text strict fuel (Z.of_nat (S cur)) (len - 1) i (complete i) (filled d m) = Done r blk ∧ loop_post r blk).
  { apply IH; try done; try lia. }
  assert (Hnull : ∃ r blk, (ret None : B (option (Z * Z * Z))) (filled d m) = Done r blk ∧ loop_post r blk).
  { eexists _, _. split; [reflexivity|]. by split; [rewrite filled_length|]. }
  destruct (ch =? base64_pad).
  - destruct (read_text (S cur) (filled d m) ltac:(lia)) as (c & Hrc & _). rewrite (bind_Done _ _ _ _ _ Hrc).
    destruct (negb (c =? base64_pad) && ((i mod 4 =? 1) || (strict && (len - 1 >? 0)))) eqn:Hcond; [|exact Hskip].
    destruct (i mod 4 =? 1); [exact Hnull|]. cbn [negb orb] in *.
    destruct (skip_run fuel (S cur) (filled d m)) as (cur' & Hrun & Hb); [lia|lia|]. rewrite (bind_Done _ _ _ _ _ Hrun).
    destruct (read_text cur' (filled d m) ltac:(lia)) as (c' & Hrc' & Hat' & _). rewrite (bind_Done _ _ _ _ _ Hrc').
    destruct (Z.eqb_spec c' 0) as [->|]; [|exact Hnull]. apply IH; try done; try lia. by right.
  - destruct (reverse_spec ch Hbyte) as (v & Hv & Hvr).
    rewrite (bind_Done _ _ _ v (filled d m)) by (unfold at_index, is_byte in *; destruct (Z.ltb_spec ch 0); [lia|by rewrite Hv]).
    destruct ((negb strict && (v <? 0)) || (v =? -1)); [exact Hskip|]. destruct (v =? -2); [exact Hnull|].
    assert (Hw : written i ≤ i) by (unfold written; pose proof (Z.div_mod i 4 ltac:(lia)); pose proof (Z.div_pos i 4 ltac:(lia) ltac:(lia)); lia).
    destruct (decode_char_run v i d m ltac:(lia) Hd ltac:(lia)) as (d' & m' & Hrun & Hd' & Hm'). rewrite (bind_Done _ _ _ _ _ Hrun).
    apply IH; try done; lia.
Qed.

Lemma decode_ex_run blk0 :
  Z.of_nat N < 2 ^ 31 →
  ∃ r blk, php_base64_decode_ex text strict (Z.of_nat N) blk0 = Done r blk ∧ length blk = S N ∧
    match r with
    | None => True
    | Some j => 0 ≤ j ∧ 4 * j ≤ 3 * Z.of_nat N ∧ ∃ d rest, Z.of_nat (length d) = j ∧ blk = (Some <$> d) ++ Some 0 :: rest
    end.
Proof using s_bytes.
  intros HN. unfold php_base64_decode_ex. erewrite bind_Done by (apply safe_emalloc_Done; lia).
  replace (Z.to_nat (Z.of_nat N * 1 + 1)) with (S N) by lia. change (replicate (S N) None) with (filled [] (S N)).
  destruct (decode_loop_run (S (length text)) 0 (Z.of_nat N) 0 [] (S N)) as (r & blk & Hr & Hl & Hp);
    [lia|rewrite length_app; lia|by left|lia|done|done|].
  change (Z.of_nat 0) with 0 in Hr. change (complete 0) with 0 in Hr. rewrite (bind_Done _ _ _ _ _ Hr).
  destruct r as [[[ch i] j]|]; [|by exists None, blk]. destruct Hp as (-> & Hi & -> & d & m & -> & Hd).
  erewrite bind_Done by reflexivity. cbn [mop_up]. rewrite filled_length in Hl.
  assert (Hj : 0 ≤ complete i ∧ 4 * complete i ≤ 3 * i ∧ complete i ≤ written i ∧ written i ≤ i).
  { unfold complete, written. pose proof (Z.div_mod i 4 ltac:(lia)). pose proof (Z.mod_pos_bound i 4 ltac:(lia)). pose proof (Z.div_pos i 4 ltac:(lia) ltac:(lia)). lia. }
  assert (Hsplit : ∃ x rest, filled d m = (Some <$> take (Z.to_nat (complete i)) d) ++ x :: rest).
  { assert (Z.to_nat (complete i) < length (filled d m))%nat as [x Hx]%lookup_lt_is_Some_2 by (rewrite filled_length; lia).
    exists x, (drop (S (Z.to_nat (complete i))) (filled d m)). rewrite <-(take_drop_middle _ _ _ Hx) at 1. f_equal.
    unfold filled. rewrite take_app_le by (rewrite length_fmap; lia). by rewrite fmap_take. }
  destruct Hsplit as (x & rest & Hx). set (d' := take (Z.to_nat (complete i)) d) in *.
  assert (Hd' : Z.of_nat (length d') = complete i) by (unfold d'; rewrite length_take; lia).
  rewrite <-Hd'. erewrite bind_Done by (rewrite Hx; apply set_result_end). eexists _, _. split; [reflexivity|].
  apply (f_equal length) in Hx. rewrite filled_length, length_app in Hx. cbn [length] in Hx. split.
  - rewrite length_app. cbn [length]. lia.
  - split; [lia|]. split; [lia|]. by exists d', rest.
Qed.

End safe.

(** ** What is encoded *)

Fixpoint enc (s : list Z) : list Z :=
  match s with
  | [] => []
  | [a] => [char_of (Z.shiftr a 2); char_of (sextet1 a 0); base64_pad; base64_pad]
  | [a; b] => [char_of (Z.shiftr a 2); char_of (sextet1 a b); char_of (sextet2 b 0); base64_pad]
  | a :: b :: c :: s =>
      [char_of (Z.shiftr a 2); char_of (sextet1 a b); char_of (sextet2 b c); char_of (Z.land c 63)] ++ enc s
  end.

Lemma list_ind3 {A} (P : list A → Prop) :
  P [] → (∀ a, P [a]) → (∀ a b, P [a; b]) → (∀ a b c s, P s → P (a :: b :: c :: s)) → ∀ s, P s.
Proof.
  intros H0 H1 H2 H3 s. induction s as [s IH] using (induction_ltof1 _ length). unfold ltof in IH.
  destruct s as [|a [|b [|c s]]]; auto. apply H3, IH. cbn. lia.
Qed.

Lemma enc_length s : Z.of_nat (length (enc s)) = 4 * ((Z.of_nat (length s) + 2) / 3).
Proof.
  induction s as [|a|a b|a b c s IH] using list_ind3; [done..|]. cbn [enc length app].
  replace (Z.of_nat (S (S (S (length s)))) + 2) with ((Z.of_nat (length s) + 2) + 1 * 3) by lia. rewrite Z.div_add by lia. lia.
Qed.

Lemma put_char_run p d m v :
  p = Z.of_nat (length d) → 0 ≤ v < 64 → put_char p v (filled d (S m)) = Done tt (filled (d ++ [char_of v]) m).
Proof.
  intros -> Hv. destruct (char_spec v Hv) as (Ht & Hb & _). unfold put_char. rewrite <-(Z2Nat.id v) at 1 by lia.
  erewrite bind_Done by (by apply at_index_Done). rewrite set_result_next. unfold u8, is_byte in *. by rewrite Z.mod_small by lia.
Qed.

Lemma put_pad_run p d m : p = Z.of_nat (length d) → set_result p base64_pad (filled d (S m)) = Done tt (filled (d ++ [base64_pad]) m).
Proof. intros ->. apply set_result_next. Qed.

(** one call after another that writes the next character *)
Ltac put_next :=
  rewrite ?bind_assoc;
  erewrite bind_Done by (first [apply put_char_run | apply put_pad_run]; rewrite ?length_app; cbn [length]; lia);
  rewrite <-?app_assoc; cbn [app].

(** the bytes from [current] *)
Lemma read_at (pre s : list Z) i c (blk : block) : s !! i = Some c →
  at_index (pre ++ s) (Z.of_nat (length pre) + Z.of_nat i) blk = Done c blk.
Proof.
  intros Hc. rewrite <-Nat2Z.inj_add. apply at_index_Done. rewrite lookup_app_r by lia.
  by replace (length pre + i - length pre)%nat with i by lia.
Qed.

Ltac read_next n :=
  let H := fresh in
  match goal with |- context [at_index (?pre ++ ?s) ?i] =>
    pose proof (λ c blk, read_at pre s n c blk) as H; cbn [Z.of_nat Pos.of_succ_nat Pos.succ] in H; rewrite ?Z.add_0_r in H;
    erewrite bind_Done by (apply H; reflexivity); clear H
  end.

Lemma encode_run s : ∀ fuel pre d m,
  Forall is_byte s → (length s ≤ fuel)%nat →
  (let! '(current, length, p) := encode_loop (pre ++ s) fuel (Z.of_nat (length pre)) (Z.of_nat (length s)) (Z.of_nat (length d)) in
   encode_tail (pre ++ s) current length p)%eff (filled d (length (enc s) + m)) =
  Done (Z.of_nat (length (d ++ enc s))) (filled (d ++ enc s) m).
Proof.
  induction s as [|a|a b|a b c s IH] using list_ind3; intros fuel pre d m Hs Hf.
  - cbn [enc]. rewrite !app_nil_r. destruct fuel; reflexivity.
  - apply Forall_cons_1 in Hs as [Ha _]. pose proof (sextet_bounds a 0 Ha ltac:(unfold is_byte; lia)) as Hv.
    erewrite bind_Done by (destruct fuel; reflexivity). cbn [enc length Nat.add].
    unfold encode_tail, sextet1 in *. cbn [Z.shiftr Z.shiftl] in Hv |- *. rewrite ?Z.add_0_r in *.
    change (Z.of_nat 1 =? 0) with false. change (Z.of_nat 1 >? 1) with false. cbn [negb].
    read_next 0%nat. do 4 put_next. rewrite length_app. f_equal. cbn. lia.
  - apply Forall_cons_1 in Hs as [Ha [Hb _]%Forall_cons_1]. pose proof (sextet_bounds a b Ha Hb) as Hv.
    pose proof (sextet_bounds b 0 Hb ltac:(unfold is_byte; lia)) as Hw.
    erewrite bind_Done by (destruct fuel; reflexivity). cbn [enc length Nat.add].
    unfold encode_tail, sextet1, sextet2 in *. cbn [Z.shiftr Z.shiftl] in Hw |- *. rewrite ?Z.add_0_r in *.
    change (Z.of_nat 2 =? 0) with false. change (Z.of_nat 2 >? 1) with true. cbn [negb].
    read_next 0%nat. put_next. rewrite bind_assoc. read_next 1%nat. do 3 put_next. rewrite length_app. f_equal. cbn. lia.
  - apply Forall_cons_1 in Hs as [Ha [Hb [Hc Hs]%Forall_cons_1]%Forall_cons_1]. destruct fuel as [|fuel]; [cbn in Hf; lia|].
    pose proof (sextet_bounds a b Ha Hb) as Hv. pose proof (sextet_bounds b c Hb Hc) as Hw. pose proof (sextet_bounds c c Hc Hc) as Hx.
    cbn [encode_loop]. destruct (Z.gtb_spec (Z.of_nat (length (a :: b :: c :: s))) 2); [|cbn [length] in *; lia].
    cbn [enc length app Nat.add]. unfold sextet1, sextet2 in *. rewrite bind_assoc. read_next 0%nat. rewrite bind_assoc. read_next 1%nat. rewrite bind_assoc. read_next 2%nat.
    do 4 put_next. match goal with |- context [filled (d ++ ?l) _] => set (g := l) end.
    specialize (IH fuel (pre ++ [a; b; c]) (d ++ g) m Hs ltac:(cbn [length] in Hf; lia)).
    rewrite !length_app, <-!app_assoc in IH. cbn [app length] in IH. rewrite !length_app. cbn [length].
    rewrite !Nat2Z.inj_add in IH. replace (Z.of_nat (S (S (S (length s)))) - 3) with (Z.of_nat (length s)) by lia.
    refine (eq_trans IH _). subst g. f_equal. cbn [length]. lia.
Qed.

Lemma encode_total s blk :
  Forall is_byte s → Z.of_nat (length s) < 2 ^ 31 - 2 →
  php_base64_encode s (Z.of_nat (length s)) blk =
  Done (Some (s32 (Z.of_nat (length (enc s))))) (Some <$> enc s ++ [0]).
Proof.
  intros Hs Hn. pose proof (enc_length s) as He. unfold php_base64_encode. destruct (Z.ltb_spec (Z.of_nat (length s)) 0); [lia|].
  rewrite s32_small, Z.quot_div_nonneg by lia. pose proof (Z.div_lt_upper_bound (Z.of_nat (length s) + 2) 3 (2 ^ 30) ltac:(lia) ltac:(lia)).
  pose proof (Z.div_pos (Z.of_nat (length s) + 2) 3 ltac:(lia) ltac:(lia)).
  erewrite bind_Done by (apply safe_emalloc_Done; lia).
  replace (Z.to_nat ((Z.of_nat (length s) + 2) / 3 * 4 + 1)) with (length (enc s) + 1)%nat by lia.
  pose proof (encode_run s (Z.to_nat (Z.of_nat (length s))) [] [] 1 Hs ltac:(lia)) as Hrun.
  change (filled [] ?n) with (replicate n (@None Z)) in Hrun. rewrite Nat2Z.id in *. cbn [app] in Hrun.
  change (Z.of_nat (length (@nil Z))) with 0 in Hrun.
  match type of Hrun with bind ?m ?k ?w = _ => destruct (m w) as [[[current len] p] w'|w'|] eqn:Hloop end.
  - rewrite (bind_Done _ _ _ _ _ Hloop) in Hrun. rewrite (bind_Done _ _ _ _ _ Hloop), (bind_Done _ _ _ _ _ Hrun).
    erewrite bind_Done by apply set_result_next. cbn. unfold filled. by rewrite app_nil_r.
  - unfold bind in Hrun. rewrite Hloop in Hrun. done.
  - unfold bind in Hrun. rewrite Hloop in Hrun. done.
Qed.

(** ** Decoding what was encoded *)

(** arithmetic with quotients by constants *)
Ltac solve_mod := cbn [enc length app]; Z.to_euclidean_division_equations; lia.

Section decoded.
Context (text : list Z) (strict : bool).

(** a character of the alphabet is decoded *)
Lemma decode_loop_char fuel (cur : nat) len i j v (blk : block) :
  text !! cur = Some (char_of v) → 0 ≤ v < 64 → 0 < len →
  decode_loop text strict (S fuel) (Z.of_nat cur) len i j blk =
  (let! j := decode_char v i j in decode_loop text strict fuel (Z.of_nat (S cur)) (len - 1) (i + 1) j)%eff blk.
Proof.
  replace (Z.of_nat (S cur)) with (Z.of_nat cur + 1) by lia. intros Ht Hv Hlen. destruct (char_spec v Hv) as (_ & Hb & H0 & Hp & Hr). unfold is_byte in Hb. cbn [decode_loop].
  erewrite bind_Done by (by apply at_index_Done). destruct (Z.eqb_spec (char_of v) 0); [done|]. destruct (Z.leb_spec len 0); [lia|]. cbn [orb].
  destruct (Z.eqb_spec (char_of v) base64_pad); [done|]. rewrite <-(Z2Nat.id (char_of v)) by lia. erewrite bind_Done by (by apply at_index_Done).
  destruct (Z.ltb_spec v 0), (Z.eqb_spec v (-1)), (Z.eqb_spec v (-2)); try lia. by rewrite andb_false_r.
Qed.

(** the last padding is skipped, and the loop ends *)
Lemma decode_loop_pad fuel (cur : nat) len i j (blk : block) c :
  text !! cur = Some base64_pad → text !! S cur = Some c → (c = base64_pad ∨ len = 1) → i mod 4 ≠ 1 → 0 < len →
  decode_loop text strict (S fuel) (Z.of_nat cur) len i j blk = decode_loop text strict fuel (Z.of_nat (S cur)) (len - 1) i j blk.
Proof.
  intros Ht Hc Hnext Hi Hlen. cbn [decode_loop]. erewrite bind_Done by (by apply at_index_Done).
  change (base64_pad =? 0) with false. destruct (Z.leb_spec len 0); [lia|]. cbn [orb]. change (base64_pad =? base64_pad) with true. cbn [negb].
  replace (Z.of_nat cur + 1) with (Z.of_nat (S cur)) by lia. erewrite bind_Done by (by apply at_index_Done).
  destruct (Z.eqb_spec (i mod 4) 1); [done|]. destruct Hnext as [->| ->]; [done|]. cbn [orb Z.sub Z.add Z.opp Z.pos_sub Z.gtb Z.compare].
  by rewrite andb_false_r, andb_false_r.
Qed.

Lemma decode_loop_end fuel (cur : nat) len i j (blk : block) :
  text !! cur = Some 0 → decode_loop text strict (S fuel) (Z.of_nat cur) len i j blk = Done (Some (0, i, j)) blk.
Proof. intros Ht. cbn [decode_loop]. erewrite bind_Done by (by apply at_index_Done). done. Qed.

Lemma filled_app d d' m : filled (d ++ d') m = (Some <$> d) ++ filled d' m.
Proof. unfold filled. by rewrite fmap_app, <-app_assoc. Qed.

(** the characters of a group: two for the first byte, one more for each of the others *)
Definition middle1 (a b : Z) : Z := u8 (Z.shiftl (Z.land (sextet1 a b) 15) 4).
Definition middle2 (b c : Z) : Z := u8 (Z.shiftl (Z.land (sextet2 b c) 3) 6).

Lemma decode_first fuel (cur : nat) len i d m a b :
  is_byte a → is_byte b → i mod 4 = 0 → 2 ≤ len →
  text !! cur = Some (char_of (Z.shiftr a 2)) → text !! S cur = Some (char_of (sextet1 a b)) →
  decode_loop text strict (2 + fuel) (Z.of_nat cur) len i (Z.of_nat (length d)) (filled d (2 + m)) =
  decode_loop text strict fuel (Z.of_nat (2 + cur)) (len - 2) (i + 2) (Z.of_nat (length (d ++ [a]))) (filled (d ++ [a] ++ [middle1 a b]) m).
Proof.
  intros Ha Hb Hi Hlen H1 H2. pose proof (sextet_bounds a b Ha Hb) as Hv. cbn [Nat.add].
  rewrite (decode_loop_char _ _ _ _ _ (Z.shiftr a 2)) by (done || lia). erewrite bind_Done by (by apply decode_char_0).
  rewrite (decode_loop_char _ _ _ _ _ (sextet1 a b)) by (done || lia).
  erewrite bind_Done by (apply decode_char_1; Z.to_euclidean_division_equations; lia).
  rewrite first_byte, length_app by done. f_equal; cbn [length]; lia.
Qed.

Lemma decode_second fuel (cur : nat) len i d m a b c :
  is_byte a → is_byte b → is_byte c → i mod 4 = 2 → 1 ≤ len → text !! cur = Some (char_of (sextet2 b c)) →
  decode_loop text strict (S fuel) (Z.of_nat cur) len i (Z.of_nat (length d)) (filled (d ++ [middle1 a b]) (S m)) =
  decode_loop text strict fuel (Z.of_nat (S cur)) (len - 1) (i + 1) (Z.of_nat (length (d ++ [b]))) (filled (d ++ [b] ++ [middle2 b c]) m).
Proof.
  intros Ha Hb Hc Hi Hlen H1. pose proof (sextet_bounds b c Hb Hc) as Hv.
  rewrite (decode_loop_char _ _ _ _ _ (sextet2 b c)) by (done || lia). erewrite bind_Done by (by apply decode_char_2).
  unfold middle1. rewrite second_byte, length_app by done. f_equal. cbn [length]. lia.
Qed.

Lemma decode_third fuel (cur : nat) len i d m b c :
  is_byte b → is_byte c → i mod 4 = 3 → 1 ≤ len → text !! cur = Some (char_of (Z.land c 63)) →
  decode_loop text strict (S fuel) (Z.of_nat cur) len i (Z.of_nat (length d)) (filled (d ++ [middle2 b c]) m) =
  decode_loop text strict fuel (Z.of_nat (S cur)) (len - 1) (i + 1) (Z.of_nat (length (d ++ [c]))) (filled (d ++ [c]) m).
Proof.
  intros Hb Hc Hi Hlen H1. pose proof (sextet_bounds c c Hc Hc) as Hv.
  rewrite (decode_loop_char _ _ _ _ _ (Z.land c 63)) by (done || lia). erewrite bind_Done by (by apply decode_char_3).
  unfold middle2. rewrite third_byte, length_app by done. f_equal. cbn [length]. lia.
Qed.

Lemma decode_run s : ∀ fuel pre i d m,
  text = pre ++ enc s ++ [0] → Forall is_byte s → (length (enc s) < fuel)%nat → 0 ≤ i → i mod 4 = 0 → (length s < m)%nat →
  ∃ i' rest, rest ≠ [] ∧
    decode_loop text strict fuel (Z.of_nat (length pre)) (Z.of_nat (length (enc s))) i (Z.of_nat (length d)) (filled d m) =
    Done (Some (0, i', Z.of_nat (length (d ++ s)))) ((Some <$> d ++ s) ++ rest).
Proof.
  induction s as [|a|a b|a b c s IH] using list_ind3; intros fuel pre i d m Ht Hs Hf Hi Hi4 Hm;
    assert (Hat : ∀ k v, (enc _ ++ [0]) !! k = Some v → text !! (k + length pre)%nat = Some v)
      by (intros k v Hk; rewrite Ht, lookup_app_r by lia; rewrite <-Hk; f_equal; lia).
  - destruct fuel as [|fuel]; [cbn in Hf; lia|]. exists i, (replicate m None). destruct m as [|m]; [lia|]. split; [done|].
    rewrite decode_loop_end by (by apply (Hat 0%nat)). by rewrite app_nil_r.
  - apply Forall_cons_1 in Hs as [Ha _]. destruct m as [|[|m]]; [cbn in Hm; lia..|].
    do 5 (destruct fuel as [|fuel]; [cbn in Hf; lia|]). exists (i + 2), (filled [middle1 a 0] m). split; [done|].
    rewrite (decode_first (S (S (S fuel))) (length pre) _ i d m a 0) by
      (first [done | by apply (Hat 0%nat) | by apply (Hat 1%nat) | unfold is_byte; cbn; lia]).
    rewrite (decode_loop_pad _ _ _ _ _ _ base64_pad) by (first [by apply (Hat 2%nat) | by apply (Hat 3%nat) | solve_mod | by left]).
    rewrite (decode_loop_pad _ _ _ _ _ _ 0) by (first [by apply (Hat 3%nat) | by apply (Hat 4%nat) | solve_mod | by right]).
    rewrite decode_loop_end by (by apply (Hat 4%nat)). by rewrite app_assoc, filled_app.
  - apply Forall_cons_1 in Hs as [Ha [Hb _]%Forall_cons_1]. destruct m as [|[|[|m]]]; [cbn in Hm; lia..|].
    do 5 (destruct fuel as [|fuel]; [cbn in Hf; lia|]). exists (i + 2 + 1), (filled [middle2 b 0] m). split; [done|].
    rewrite (decode_first (S (S (S fuel))) (length pre) _ i d (S m) a b) by
      (first [done | by apply (Hat 0%nat) | by apply (Hat 1%nat) | unfold is_byte; cbn; lia]).
    rewrite (app_assoc d), (decode_second _ _ _ _ _ _ a b 0) by (first [done | by apply (Hat 2%nat) | solve_mod | unfold is_byte; cbn; lia]).
    rewrite (decode_loop_pad _ _ _ _ _ _ 0) by (first [by apply (Hat 3%nat) | by apply (Hat 4%nat) | solve_mod | by right]).
    rewrite decode_loop_end by (by apply (Hat 4%nat)). by rewrite app_assoc, filled_app, <-!app_assoc.
  - apply Forall_cons_1 in Hs as [Ha [Hb [Hc Hs]%Forall_cons_1]%Forall_cons_1]. destruct m as [|[|[|m]]]; [cbn in Hm; lia..|].
    do 4 (destruct fuel as [|fuel]; [cbn in Hf; lia|]).
    destruct (IH fuel (pre ++ firstn 4 (enc (a :: b :: c :: s))) (i + 4) (d ++ [a; b; c]) m) as (i' & rest & Hrest & Hrun);
      [by rewrite Ht, <-app_assoc|done|cbn in Hf; lia|lia|solve_mod|cbn in Hm; lia|].
    exists i', rest. split; [done|].
    rewrite (decode_first (S (S fuel)) (length pre) _ i d (S m) a b) by
      (first [done | by apply (Hat 0%nat) | by apply (Hat 1%nat) | cbn; lia]).
    rewrite (app_assoc d), (decode_second _ _ _ _ _ _ a b c) by (first [done | by apply (Hat 2%nat) | solve_mod | cbn; lia]).
    rewrite (app_assoc (d ++ [a])), (decode_third _ _ _ _ _ _ b c) by (first [done | by apply (Hat 3%nat) | solve_mod | cbn; lia]).
    rewrite <-!app_assoc in Hrun |- *. rewrite length_app in Hrun. cbn [enc app firstn length] in Hrun |- *. refine (eq_trans _ Hrun).
    rewrite take_0. f_equal; rewrite <-?app_assoc; cbn [length]; (lia || done).
Qed.

End decoded.

Lemma decode_enc s strict blk :
  Forall is_byte s → Z.of_nat (length (enc s)) < 2 ^ 31 →
  ∃ rest, php_base64_decode_ex (enc s ++ [0]) strict (Z.of_nat (length (enc s))) blk =
    Done (Some (Z.of_nat (length s))) ((Some <$> s) ++ Some 0 :: rest).
Proof.
  intros Hs Hn. unfold php_base64_decode_ex. erewrite bind_Done by (apply safe_emalloc_Done; lia).
  pose proof (enc_length s) as He.
  destruct (decode_run (enc s ++ [0]) strict s (S (length (enc s ++ [0]))) [] 0 [] (Z.to_nat (Z.of_nat (length (enc s)) * 1 + 1)))
    as (i' & rest & Hrest & Hrun); [done|done|rewrite length_app; lia|lia|done|solve_mod|].
  destruct rest as [|x rest]; [done|]. erewrite bind_Done by exact Hrun. cbn [mop_up app]. exists rest.
  erewrite bind_Done by reflexivity. cbn [app]. erewrite bind_Done by apply set_result_end. done.
Qed.

(** ** The codec *)

(** C22: [php_base64_decode_ex] gives back what [php_base64_encode] was given, strict or
    not.  The block of the encoding is written to its last byte, the terminating one, and
    no byte beyond it; [*ret_length] is four times the number of groups. *)
Theorem base64_roundtrip s strict blk blk' :
  Forall is_byte s → 4 * ((Z.of_nat (length s) + 2) / 3) < 2 ^ 31 →
  ∃ e rest,
    php_base64_encode s (Z.of_nat (length s)) blk = Done (Some (Z.of_nat (length e))) (Some <$> e ++ [0]) ∧
    Z.of_nat (length e) = 4 * ((Z.of_nat (length s) + 2) / 3) ∧
    php_base64_decode_ex (e ++ [0]) strict (Z.of_nat (length e)) blk' =
      Done (Some (Z.of_nat (length s))) ((Some <$> s) ++ Some 0 :: rest).
Proof.
  intros Hs Hn. rewrite <-enc_length in Hn. destruct (decode_enc s strict blk' Hs Hn) as [rest Hrest].
  pose proof (enc_length s) as He. exists (enc s), rest. split; [|by split].
  rewrite encode_total by (done || solve_mod). by rewrite s32_small by lia.
Qed.

Lemma base64_roundtrip_witness :
  ∃ e rest,
    php_base64_encode [72; 0; 255; 61] 4 [] = Done (Some (Z.of_nat (length e))) (Some <$> e ++ [0]) ∧
    php_base64_decode_ex (e ++ [0]) true (Z.of_nat (length e)) [] = Done (Some 4) ((Some <$> [72; 0; 255; 61]) ++ Some 0 :: rest).
Proof.
  destruct (base64_roundtrip [72; 0; 255; 61] true [] []) as (e & rest & H1 & _ & H2);
    [repeat constructor; unfold is_byte; lia|vm_compute; reflexivity|].
  exact (ex_intro _ e (ex_intro _ rest (conj H1 H2))).
Defined.

(** C23: Whatever bytes are decoded, [php_base64_decode_ex] stays inside the string and
    the block of [length + 1] bytes, ends, and returns [NULL] or the length [j] of a
    result of at most three bytes for four characters: [j] bytes that are all written,
    and the terminating one. *)
Theorem base64_decode_safe s strict blk0 :
  Forall is_byte s → Z.of_nat (length s) < 2 ^ 31 →
  ∃ r blk, php_base64_decode_ex (s ++ [0]) strict (Z.of_nat (length s)) blk0 = Done r blk ∧ length blk = S (length s) ∧
    match r with
    | None => True
    | Some j => 0 ≤ j ∧ 4 * j ≤ 3 * Z.of_nat (length s) ∧
        ∃ d rest, Z.of_nat (length d) = j ∧ blk = (Some <$> d) ++ Some 0 :: rest
    end.
Proof. intros Hs. by apply decode_ex_run. Qed.

Lemma base64_decode_safe_witness :
  ∃ r blk, php_base64_decode_ex [61; 81; 32; 81; 200; 0] false 5 [] = Done r blk ∧ length blk = 6%nat.
Proof.
  destruct (base64_decode_safe [61; 81; 32; 81; 200] false []) as (r & blk & H1 & H2 & _);
    [repeat constructor; unfold is_byte; lia|done|].
  exact (ex_intro _ r (ex_intro _ blk (conj H1 H2))).
Defined.

(** the length whose successors overflow: the [E_ERROR] of [safe_address] *)
Lemma base64_encode_overflow s n blk : 2 ^ 31 - 2 ≤ n < 2 ^ 31 → php_base64_encode s n blk = Bailout blk.
Proof.
  intros Hn. assert (n = 2 ^ 31 - 2 ∨ n = 2 ^ 31 - 1) as [-> | ->] by lia; reflexivity.
Qed.
