(* ===== verification/WordLogic.v ===== *)
(** * A separation logic for word memories

    The memory manager works on memory that it carves up itself: the model of it has no
    objects, only a memory that maps the address of a word to its value.  This file has the
    predicates on such memories, as a logic of bunched implications for the proof mode of
    Iris (an affine one: a predicate holds of every larger memory), and the weakest
    precondition of a computation of [Prelude], which leaves what it does not own alone.
    [wp_adequate] brings a proof in the logic back to the run of the program. *)

From iris.proofmode Require Import proofmode.
From S2P Require Import Prelude.
Local Open Scope Z_scope.

(** ** Predicates on memories *)

Record hprop : Type := HProp {
  holds :> words → Prop;
  holds_mono : ∀ w w', w ⊆ w' → holds w → holds w'
}.
Add Printing Constructor hprop.

Section ofe.
Record same_hprop (P Q : hprop) : Prop := SameHprop { same_holds : ∀ w, P w ↔ Q w }.
Local Instance hprop_equiv : Equiv hprop := same_hprop.
Local Instance hprop_equivalence : Equivalence (≡@{hprop}).
Proof. split; [by intros P; split|intros P Q [H]|intros P Q R [H1] [H2]]; split; intros w; [by symmetry|by rewrite (H1 w)]. Qed.
#[warnings="-redundant-canonical-projection"]
Canonical Structure hpropO : ofe := discreteO hprop.
End ofe.

Record h_entails (P Q : hprop) : Prop := Entails { entails_holds : ∀ w, P w → Q w }.
Arguments entails_holds {P Q} _ w _.
Local Definition h_pure (φ : Prop) : hprop := HProp (λ _, φ) (λ _ _ _ H, H).
Local Definition h_emp : hprop := h_pure True.
Local Program Definition h_and (P Q : hprop) : hprop := HProp (λ w, P w ∧ Q w) _.
Next Obligation. intros P Q w w' Hw [H1 H2]. split; by eapply holds_mono. Qed.
Local Program Definition h_or (P Q : hprop) : hprop := HProp (λ w, P w ∨ Q w) _.
Next Obligation. intros P Q w w' Hw [H|H]; [left|right]; by eapply holds_mono. Qed.
Local Program Definition h_impl (P Q : hprop) : hprop := HProp (λ w, ∀ w', w ⊆ w' → P w' → Q w') _.
Next Obligation. intros P Q w w' Hw H w'' Hw'. apply H. by etrans. Qed.
Local Program Definition h_forall {A} (Φ : A → hprop) : hprop := HProp (λ w, ∀ a, Φ a w) _.
Next Obligation. intros A Φ w w' Hw H a. by eapply holds_mono. Qed.
Local Program Definition h_exist {A} (Φ : A → hprop) : hprop := HProp (λ w, ∃ a, Φ a w) _.
Next Obligation. intros A Φ w w' Hw [a H]. exists a. by eapply holds_mono. Qed.
Local Program Definition h_sep (P Q : hprop) : hprop := HProp (λ w, ∃ w1 w2, w1 ##ₘ w2 ∧ w1 ∪ w2 ⊆ w ∧ P w1 ∧ Q w2) _.
Next Obligation. intros P Q w w' Hw (w1 & w2 & Hd & Hu & H). exists w1, w2. split; [done|]. split; [by etrans|done]. Qed.
Local Program Definition h_wand (P Q : hprop) : hprop := HProp (λ w, ∀ w', w ##ₘ w' → P w' → Q (w ∪ w')) _.
Next Obligation.
  intros P Q w w' Hw H w'' Hd HP. apply (holds_mono Q (w ∪ w'')); [by apply map_union_mono_r|].
  apply H; [|done]. by eapply map_disjoint_weaken_l.
Qed.
Local Definition h_persistently (P : hprop) : hprop := h_pure (h_entails h_emp P).

Local Lemma hprop_bi_mixin : BiMixin h_entails h_emp h_pure h_and h_or h_impl (@h_forall) (@h_exist) h_sep h_wand.
Proof.
  split.
  - split; [done|]. intros P Q R [H1] [H2]. split. auto.
  - intros P Q. split; [intros [H]; split; split; intros w ?; by apply H|]. intros [[H1] [H2]]. split. intros w. split; [apply H1|apply H2].
  - intros n φ ψ H. split. intros w. exact H.
  - intros n P P' [HP] Q Q' [HQ]. split. intros w. cbn. by rewrite (HP w) (HQ w).
  - intros n P P' [HP] Q Q' [HQ]. split. intros w. cbn. by rewrite (HP w) (HQ w).
  - intros n P P' [HP] Q Q' [HQ]. split. intros w. cbn. split; intros H w' Hw ?; apply HQ, H, HP; done.
  - intros A n Φ Ψ H. split. intros w. cbn. split; intros Ha a; apply (same_holds _ _ (H a)), Ha.
  - intros A n Φ Ψ H. split. intros w. cbn. split; intros [a Ha]; exists a; by apply (same_holds _ _ (H a)).
  - intros n P P' [HP] Q Q' [HQ]. split. intros w. cbn.
    split; intros (w1 & w2 & ? & ? & ? & ?); exists w1, w2; (do 2 (split; [done|])); split; [by apply HP|by apply HQ|by apply HP|by apply HQ].
  - intros n P P' [HP] Q Q' [HQ]. split. intros w. cbn. split; intros H w' Hw ?; apply HQ, H, HP; done.
  - intros φ P Hφ. by split.
  - intros φ P H. split. intros w Hφ. by apply (H Hφ).
  - intros P Q. split. by intros w [H _].
  - intros P Q. split. by intros w [_ H].
  - intros P Q R [H1] [H2]. split. intros w H. split; [by apply H1|by apply H2].
  - intros P Q. split. intros w H. by left.
  - intros P Q. split. intros w H. by right.
  - intros P Q R [H1] [H2]. split. intros w [H|H]; [by apply H1|by apply H2].
  - intros P Q R [H]. split. intros w HP w' Hw HQ. apply H. split; [by eapply holds_mono|done].
  - intros P Q R [H]. split. intros w [HP HQ]. exact (H w HP w (reflexivity w) HQ).
  - intros A P Φ H. split. intros w HP a. by apply H.
  - intros A Φ a. split. intros w H. apply H.
  - intros A Φ a. split. intros w H. by exists a.
  - intros A Φ Q H. split. intros w [a Ha]. by apply (H a).
  - intros P P' Q Q' [H1] [H2]. split. intros w (w1 & w2 & ? & ? & ? & ?). exists w1, w2. do 2 (split; [done|]). split; [by apply H1|by apply H2].
  - intros P. split. intros w HP. exists ∅, w. rewrite map_empty_union. split; [apply map_disjoint_empty_l|]. done.
  - intros P. split. intros w (w1 & w2 & Hd & Hu & _ & HP). eapply holds_mono; [|exact HP]. etrans; [by apply map_union_subseteq_r|done].
  - intros P Q. split. intros w (w1 & w2 & Hd & Hu & HP & HQ). exists w2, w1. split; [done|]. by rewrite map_union_comm.
  - intros P Q R. split. intros w (w12 & w3 & Hd & Hu & (w1 & w2 & Hd' & Hu' & HP & HQ) & HR).
    assert (H1 : w1 ⊆ w12) by (etrans; [apply map_union_subseteq_l|exact Hu']).
    assert (H2 : w2 ⊆ w12) by (etrans; [by apply map_union_subseteq_r|exact Hu']).
    exists w1, (w2 ∪ w3). split; [apply map_disjoint_union_r_2; [done|by eapply map_disjoint_weaken_l]|]. split.
    + rewrite assoc_L. etrans; [|exact Hu]. by apply map_union_mono_r.
    + split; [done|]. exists w2, w3. split; [by eapply map_disjoint_weaken_l|done].
  - intros P Q R [H]. split. intros w HP w' Hd HQ. apply H. by exists w, w'.
  - intros P Q R [H]. split. intros w (w1 & w2 & Hd & Hu & HP & HQ). eapply holds_mono; [exact Hu|]. by apply (H w1).
Qed.

Local Lemma hprop_persistently_mixin : BiPersistentlyMixin h_entails h_emp h_and (@h_exist) h_sep h_persistently.
Proof.
  eapply bi_persistently_mixin_discrete, hprop_bi_mixin; [done| |done].
  intros A Φ [H]. destruct (H ∅ I) as [a Ha]. exists a. split. intros w _. eapply holds_mono; [apply map_empty_subseteq|exact Ha].
Qed.

Local Lemma hprop_later_mixin : BiLaterMixin h_entails h_pure h_or h_impl (@h_forall) (@h_exist) h_sep h_persistently (λ P, P).
Proof. by eapply bi_later_mixin_id, hprop_bi_mixin. Qed.

Canonical Structure hpropI : bi := {|
  bi_ofe_mixin := ofe_mixin_of hprop; bi_cofe_aux := discrete_cofe hprop_equivalence; bi_bi_mixin := hprop_bi_mixin;
  bi_bi_persistently_mixin := hprop_persistently_mixin; bi_bi_later_mixin := hprop_later_mixin |}.

#[export] Instance hprop_affine : BiAffine hpropI.
Proof. intros P. by split. Qed.
#[export] Instance hprop_pure_forall : BiPureForall hpropI.
Proof. intros A φ. split. intros w H a. apply H. Qed.

(** ** Words *)

(** the word at [l] is [v] *)
Program Definition points_to (l v : Z) : hpropI := HProp (λ w, w !! l = Some v) _.
Next Obligation. intros l v w w' Hw H. exact (lookup_weaken _ _ _ _ H Hw). Qed.
Notation "l ↦ v" := (points_to l v) (at level 20, format "l  ↦  v") : bi_scope.

Lemma points_to_ne l l' v v' : l ↦ v ∗ l' ↦ v' ⊢ ⌜l ≠ l'⌝.
Proof.
  split. intros w (w1 & w2 & Hd & _ & H1 & H2) ->. exact (proj1 (map_disjoint_spec w1 w2) Hd _ _ _ H1 H2).
Qed.

(** ** Weakest preconditions *)

Section wp.
Context {A : Type}.

(** the outcome of a run beside the part [f] of the memory *)
Definition outcome_ok (Φ : A → hpropI) (Ψ : hpropI) (f : words) (o : outcome words A) : Prop :=
  match o with
  | Done a w' => ∃ w1, w1 ##ₘ f ∧ w' = w1 ∪ f ∧ holds (Φ a) w1
  | Bailout w' => ∃ w1, w1 ##ₘ f ∧ w' = w1 ∪ f ∧ holds Ψ w1
  | Stuck => False
  end.

(** [m] returns in a memory of [Φ], or bails out in one of [Ψ], and leaves any other part
    of the memory as it is *)
Program Definition wp (m : M words A) (Φ : A → hpropI) (Ψ : hpropI) : hpropI := HProp (λ w, ∀ f, w ##ₘ f → outcome_ok Φ Ψ f (m (w ∪ f))) _.
Next Obligation.
  intros m Φ Ψ w w' Hw H f Hd. unfold outcome_ok in *. assert (Hd' : w ##ₘ w' ∖ w) by (by apply map_disjoint_difference_r1).
  rewrite -(map_difference_union w w' Hw) in Hd |- *. set (d := w' ∖ w) in *. clearbody d.
  apply map_disjoint_union_l in Hd as [Hf Hfd]. assert (Hwd : w ##ₘ d ∪ f) by (by apply map_disjoint_union_r_2).
  specialize (H (d ∪ f) Hwd). rewrite -(assoc_L (∪)).
  destruct (m (w ∪ (d ∪ f))) as [a w''|w''|]; [..|done]; destruct H as (w1 & H1 & -> & HΦ);
    apply map_disjoint_union_r in H1 as [??]; (exists (w1 ∪ d); split; [by apply map_disjoint_union_l_2|]);
    (split; [by rewrite (assoc_L (∪))|]); (eapply holds_mono; [apply map_union_subseteq_l|done]).
Qed.

Implicit Types (m : M words A) (Φ : A → hpropI) (Ψ : hpropI).

Lemma wp_wand m Φ Φ' Ψ Ψ' : wp m Φ Ψ -∗ ((∀ a, Φ a -∗ Φ' a) ∧ (Ψ -∗ Ψ')) -∗ wp m Φ' Ψ'.
Proof.
  iIntros "H1 H2". iStopProof. split. intros w (w1 & w2 & Hd & Hu & H1 & H2). eapply holds_mono; [exact Hu|]. clear w Hu.
  intros f Hf. unfold outcome_ok. apply map_disjoint_union_l in Hf as [Hf1 Hf2]. assert (Hwd : w1 ##ₘ w2 ∪ f) by (by apply map_disjoint_union_r_2).
  specialize (H1 _ Hwd). unfold outcome_ok in H1. rewrite -(assoc_L (∪)).
  destruct (m (w1 ∪ (w2 ∪ f))) as [a w''|w''|]; [..|done]; destruct H1 as (w1' & H1 & -> & HΦ);
    apply map_disjoint_union_r in H1 as [??]; (exists (w2 ∪ w1'); split; [by apply map_disjoint_union_l_2|]);
    (split; [by rewrite (assoc_L (∪)) (map_union_comm w1' w2)|]); destruct H2 as [HA HB]; [by apply HA|by apply HB].
Qed.

Lemma wp_ret (a : A) Φ Ψ : Φ a ⊢ wp (ret a) Φ Ψ.
Proof. split. intros w H f Hf. by exists w. Qed.

Lemma wp_bailout Φ Ψ : Ψ ⊢ wp bailout Φ Ψ.
Proof. split. intros w H f Hf. by exists w. Qed.

(** what a proof in the logic says of a run *)
Lemma wp_adequate m Φ Ψ (w : words) : holds (wp m Φ Ψ) w →
  match m w with Done a w' => holds (Φ a) w' | Bailout w' => holds Ψ w' | Stuck => False end.
Proof.
  intros H. specialize (H ∅ (map_disjoint_empty_r _)). rewrite map_union_empty in H. unfold outcome_ok in H.
  destruct (m w); [..|done]; destruct H as (w1 & _ & -> & H); by rewrite map_union_empty.
Qed.

End wp.

(** from a proof of the predicate that the memory satisfies *)
Lemma wp_run {A} (m : M words A) P Φ Ψ w : (P ⊢ wp m Φ Ψ) → holds P w →
  match m w with Done a w' => holds (Φ a) w' | Bailout w' => holds Ψ w' | Stuck => False end.
Proof. intros [H] Hw. by apply wp_adequate, H. Qed.

Lemma holds_exist {B} (Φ : B → hpropI) w : holds (∃ b, Φ b)%I w → ∃ b, holds (Φ b) w.
Proof. intros [b H]. by exists b. Qed.

Lemma holds_pure φ P w : holds (⌜φ⌝ ∗ P)%I w → φ ∧ holds P w.
Proof. intros (w1 & w2 & Hd & Hu & Hφ & HP). split; [exact Hφ|]. eapply holds_mono; [|exact HP]. etrans; [by apply map_union_subseteq_r|done]. Qed.

Lemma wp_bind_intro {A B} (m : M words A) (k : A → M words B) Φ Ψ :
  wp m (λ a, wp (k a) Φ Ψ) Ψ ⊢ wp (bind m k) Φ Ψ.
Proof.
  split. intros w H f Hf. specialize (H f Hf). unfold bind. unfold outcome_ok at 1 in H. destruct (m (w ∪ f)) as [a w'|w'|]; [|done..].
  destruct H as (w1 & Hd & -> & H). by apply H.
Qed.

Lemma wp_load l v Φ Ψ : l ↦ v -∗ (l ↦ v -∗ Φ v) -∗ wp (load_word l) Φ Ψ.
Proof.
  iIntros "H1 H2". iStopProof. split. intros w (w1 & w2 & Hd & Hu & H1 & H2). eapply holds_mono; [exact Hu|]. clear w Hu.
  intros f Hf. unfold load_word. cbn in H1. rewrite (lookup_weaken w1 _ _ v); [|done|by rewrite -(assoc_L (∪)); apply map_union_subseteq_l].
  exists (w1 ∪ w2). split; [done|]. split; [done|]. rewrite map_union_comm; [|done]. by apply H2.
Qed.

Lemma wp_store l v v' (Φ : unit → hpropI) Ψ : l ↦ v -∗ (l ↦ v' -∗ Φ tt) -∗ wp (store_word l v') Φ Ψ.
Proof.
  iIntros "H1 H2". iStopProof. split. intros w (w1 & w2 & Hd & Hu & H1 & H2). eapply holds_mono; [exact Hu|]. clear w Hu.
  intros f Hf. unfold store_word. cbn in H1. rewrite (lookup_weaken w1 _ _ v); [|done|by rewrite -(assoc_L (∪)); apply map_union_subseteq_l].
  assert (Hd' : <[l:=v']> w1 ##ₘ w2) by (apply map_disjoint_insert_l_2; [exact (map_disjoint_Some_l _ _ _ _ Hd H1)|done]).
  apply map_disjoint_union_l in Hf as [Hf1 Hf2].
  exists (w2 ∪ <[l := v']> w1). split; [apply map_disjoint_union_l_2; [done|apply map_disjoint_insert_l_2; [exact (map_disjoint_Some_l _ _ _ _ Hf1 H1)|done]]|].
  split; [by rewrite (map_union_comm w2) // !insert_union_l|]. apply H2; [done|]. apply lookup_insert_eq.
Qed.

(** ** Fuel

    A list of words that are owned, without repetition therefore, is no longer than the memory. *)

Lemma owned_length (l : list Z) (w : words) : holds ([∗ list] a ∈ l, ∃ v, a ↦ v)%I w → (length l ≤ size w)%nat.
Proof.
  revert w. induction l as [|a l IH]; intros w; [cbn; lia|]. intros (w1 & w2 & Hd & Hu & [v H1] & H2). cbn [length].
  assert (Hs : (size (w1 ∪ w2) ≤ size w)%nat) by (rewrite -!size_dom; apply subseteq_size, subseteq_dom; done).
  rewrite map_size_disj_union in Hs; [|done]. specialize (IH _ H2). destruct (decide (w1 = ∅)) as [->|Hne]; [done|].
  rewrite -map_size_empty_iff in Hne. lia.
Qed.

(** the words owned are looked at, not used up *)
Lemma wp_fuel (l : list Z) P (Φ : nat → hpropI) Ψ :
  (P ⊢ [∗ list] a ∈ l, ∃ v, a ↦ v) → P -∗ (∀ n, ⌜(length l < n)%nat⌝ -∗ P -∗ Φ n) -∗ wp words_fuel Φ Ψ.
Proof.
  intros [HP]. iIntros "H1 H2". iStopProof. split. intros w (w1 & w2 & Hd & Hu & H1 & H2). eapply holds_mono; [exact Hu|]. clear w Hu.
  intros f Hf. unfold words_fuel, outcome_ok. exists (w2 ∪ w1). rewrite (map_union_comm w1 w2) in Hf |- *; [|done..]. split; [done|]. split; [done|].
  assert (Hlen : (length l < S (size (w2 ∪ w1 ∪ f)))%nat).
  { apply HP, owned_length in H1. apply map_disjoint_union_l in Hf as [Hf1 Hf2]. rewrite !map_size_disj_union //; [lia|by apply map_disjoint_union_l_2]. }
  specialize (H2 _ ∅ (map_disjoint_empty_r _) Hlen). rewrite map_union_empty in H2. by apply H2.
Qed.

(** ** The proof mode *)

Ltac wp_bind := iApply wp_bind_intro.
Ltac wp_simpl := cbv beta iota zeta.
Tactic Notation "wp_load" constr(H) := first [iApply wp_bind_intro|idtac]; iApply (wp_load with H); iIntros H; wp_simpl.
Tactic Notation "wp_store" constr(H) := first [iApply wp_bind_intro|idtac]; iApply (wp_store with H); iIntros H; wp_simpl.
Ltac wp_ret := first [iApply wp_bind_intro|idtac]; iApply wp_ret; wp_simpl.
