(* ===== verification/MmModel.v ===== *)
(** * [Zend/zend_alloc.c]: the memory manager

    The heap of the release build on x86-64, without cookies, heap protection and debug
    information, with safe unlinking and the cache.  Memory is words at addresses: the
    fields of the heap and of the blocks are words at their offsets, and the blocks are
    what the words say.  The handlers of the storage, which get segments from the system
    and give them back, are parameters, and so is [zend_error]. *)

From S2P Require Import Prelude.
Local Open Scope Z_scope.
Local Open Scope effect_scope.

Abbreviation W := (M words).

(** ** Sizes *)

Definition ZEND_MM_ALIGNMENT : Z := 8.
Definition ZEND_MM_ALIGNMENT_LOG2 : Z := 3.
Definition ZEND_MM_ALIGNED_SIZE (size : Z) : Z := u64 (Z.land (size + ZEND_MM_ALIGNMENT - 1) (Z.lnot (ZEND_MM_ALIGNMENT - 1))).
Definition ZEND_MM_NUM_BUCKETS : Z := 64.
Definition ZEND_MM_CACHE_SIZE : Z := ZEND_MM_NUM_BUCKETS * 4 * 1024.
Definition ZEND_MM_MAX_REST_BLOCKS : Z := 16.
Definition ZEND_MM_SEG_SIZE : Z := 256 * 1024.
Definition ZEND_MM_RESERVE_SIZE : Z := 8 * 1024.

(** [sizeof] of [zend_mm_block], [zend_mm_small_free_block] and [zend_mm_segment] *)
Definition sizeof_block : Z := 16.
Definition sizeof_small_free_block : Z := 32.
Definition sizeof_segment : Z := 16.
Definition END_MAGIC_SIZE : Z := 0.
Definition ZEND_MM_ALIGNED_HEADER_SIZE : Z := ZEND_MM_ALIGNED_SIZE sizeof_block.
Definition ZEND_MM_ALIGNED_FREE_HEADER_SIZE : Z := ZEND_MM_ALIGNED_SIZE sizeof_small_free_block.
Definition ZEND_MM_MIN_ALLOC_BLOCK_SIZE : Z := ZEND_MM_ALIGNED_SIZE (ZEND_MM_ALIGNED_HEADER_SIZE + END_MAGIC_SIZE).
Definition ZEND_MM_ALIGNED_MIN_HEADER_SIZE : Z :=
  if ZEND_MM_MIN_ALLOC_BLOCK_SIZE >? ZEND_MM_ALIGNED_FREE_HEADER_SIZE then ZEND_MM_MIN_ALLOC_BLOCK_SIZE else ZEND_MM_ALIGNED_FREE_HEADER_SIZE.
Definition ZEND_MM_ALIGNED_SEGMENT_SIZE : Z := ZEND_MM_ALIGNED_SIZE sizeof_segment.
Definition ZEND_MM_MIN_SIZE : Z :=
  if ZEND_MM_ALIGNED_MIN_HEADER_SIZE >? ZEND_MM_ALIGNED_HEADER_SIZE + END_MAGIC_SIZE
  then ZEND_MM_ALIGNED_MIN_HEADER_SIZE - (ZEND_MM_ALIGNED_HEADER_SIZE + END_MAGIC_SIZE) else 0.
Definition ZEND_MM_MAX_SMALL_SIZE : Z := Z.shiftl ZEND_MM_NUM_BUCKETS ZEND_MM_ALIGNMENT_LOG2 + ZEND_MM_ALIGNED_MIN_HEADER_SIZE.
Definition ZEND_MM_TRUE_SIZE (size : Z) : Z :=
  if size <? ZEND_MM_MIN_SIZE then ZEND_MM_ALIGNED_MIN_HEADER_SIZE
  else ZEND_MM_ALIGNED_SIZE (u64 (size + ZEND_MM_ALIGNED_HEADER_SIZE + END_MAGIC_SIZE)).
Definition ZEND_MM_BUCKET_INDEX (true_size : Z) : Z :=
  Z.shiftr true_size ZEND_MM_ALIGNMENT_LOG2 - Z.shiftr ZEND_MM_ALIGNED_MIN_HEADER_SIZE ZEND_MM_ALIGNMENT_LOG2.
Definition ZEND_MM_SMALL_SIZE (true_size : Z) : bool := true_size <? ZEND_MM_MAX_SMALL_SIZE.

(** ** Bits

    The C text that stands for the instructions [bsr] and [bsf]; neither is asked for the
    bits of 0. *)

Fixpoint high_bit_loop (fuel : nat) (size n : Z) : Z :=
  match fuel with
  | O => n
  | S fuel' => if negb (size =? 0) then high_bit_loop fuel' (Z.shiftr size 1) (n + 1) else n
  end.
Definition zend_mm_high_bit (size : Z) : Z := high_bit_loop 64 size 0 - 1.

Definition low_bit_offset : list Z := [4; 0; 1; 0; 2; 0; 1; 0; 3; 0; 1; 0; 2; 0; 1; 0].
Fixpoint low_bit_loop (fuel : nat) (size index : Z) : Z :=
  let n := default 0 (low_bit_offset !! Z.to_nat (Z.land size 15)) in
  match fuel with
  | O => index + n
  | S fuel' => if n =? 4 then low_bit_loop fuel' (Z.shiftr size 4) (index + n) else index + n
  end.
Definition zend_mm_low_bit (size : Z) : Z := low_bit_loop 15 size 0.

Definition ZEND_MM_LARGE_BUCKET_INDEX (S : Z) : Z := zend_mm_high_bit S.
(** [ZEND_MM_LONG_CONST(1) << index] *)
Definition bit (index : Z) : Z := Z.shiftl 1 index.

(** ** Blocks *)

Abbreviation rd := load_word.
Abbreviation wr := store_word.

Definition info_size (b : Z) : Z := b.
Definition info_prev (b : Z) : Z := b + 8.
Definition prev_free_block (b : Z) : Z := b + 16.
Definition next_free_block (b : Z) : Z := b + 24.
Definition parent (b : Z) : Z := b + 32.
Definition child (b i : Z) : Z := b + 40 + 8 * i.

Definition ZEND_MM_TYPE_MASK : Z := 3.
Definition ZEND_MM_FREE_BLOCK : Z := 0.
Definition ZEND_MM_USED_BLOCK : Z := 1.
Definition ZEND_MM_GUARD_BLOCK : Z := 3.

Definition ZEND_MM_BLOCK_AT (blk offset : Z) : Z := blk + offset.
Definition ZEND_MM_DATA_OF (p : Z) : Z := p + ZEND_MM_ALIGNED_HEADER_SIZE.
Definition ZEND_MM_HEADER_OF (blk : Z) : Z := ZEND_MM_BLOCK_AT blk (- ZEND_MM_ALIGNED_HEADER_SIZE).

Definition ZEND_MM_BLOCK (b type size : Z) : W unit :=
  wr (info_size b) (Z.lor type size) ;;;
  wr (info_prev (ZEND_MM_BLOCK_AT b size)) (Z.lor type size).
Definition ZEND_MM_LAST_BLOCK (b : Z) : W unit := wr (info_size b) (Z.lor ZEND_MM_GUARD_BLOCK ZEND_MM_ALIGNED_HEADER_SIZE).
Definition ZEND_MM_BLOCK_SIZE (b : Z) : W Z := let! s := rd (info_size b) in ret (Z.land s (Z.lnot ZEND_MM_TYPE_MASK)).
Definition ZEND_MM_IS_FREE_BLOCK (b : Z) : W bool := let! s := rd (info_size b) in ret (Z.land s ZEND_MM_USED_BLOCK =? 0).
Definition ZEND_MM_IS_GUARD_BLOCK (b : Z) : W bool := let! s := rd (info_size b) in ret (Z.land s ZEND_MM_TYPE_MASK =? ZEND_MM_GUARD_BLOCK).
Definition ZEND_MM_NEXT_BLOCK (b : Z) : W Z := let! s := ZEND_MM_BLOCK_SIZE b in ret (ZEND_MM_BLOCK_AT b s).
Definition ZEND_MM_PREV_BLOCK (b : Z) : W Z := let! s := rd (info_prev b) in ret (ZEND_MM_BLOCK_AT b (- Z.land s (Z.lnot ZEND_MM_TYPE_MASK))).
Definition ZEND_MM_PREV_BLOCK_IS_FREE (b : Z) : W bool := let! s := rd (info_prev b) in ret (Z.land s ZEND_MM_USED_BLOCK =? 0).
Definition ZEND_MM_MARK_FIRST_BLOCK (b : Z) : W unit := wr (info_prev b) ZEND_MM_GUARD_BLOCK.
Definition ZEND_MM_IS_FIRST_BLOCK (b : Z) : W bool := let! s := rd (info_prev b) in ret (s =? ZEND_MM_GUARD_BLOCK).
Definition ZEND_MM_FREE_BLOCK_SIZE (b : Z) : W Z := rd (info_size b).

(** [zend_mm_panic] exits, with "zend_mm_heap corrupted": no result *)
Definition zend_mm_panic {A} : W A := stuck.
Definition ZEND_MM_CHECK_BLOCK_LINKAGE (b : Z) : W unit :=
  let! s := rd (info_size b) in
  let! fs := ZEND_MM_FREE_BLOCK_SIZE b in
  let! np := rd (info_prev (ZEND_MM_BLOCK_AT b fs)) in
  if negb (s =? np) then zend_mm_panic
  else
    let! first := ZEND_MM_IS_FIRST_BLOCK b in
    if negb first then
      let! prev := ZEND_MM_PREV_BLOCK b in
      let! ps := rd (info_size prev) in
      let! bp := rd (info_prev b) in
      if negb (ps =? bp) then zend_mm_panic else ret tt
    else ret tt.
Definition ZEND_MM_CHECK_TREE (b : Z) : W unit :=
  let! p := rd (parent b) in
  let! q := rd p in
  if negb (q =? b) then zend_mm_panic else ret tt.

Definition ZEND_MM_REST_BLOCK : Z := 1.

(** ** The heap *)

Section heap.
(** the address of the [zend_mm_heap], and its fields *)
Variable heap : Z.

Definition use_zend_alloc : Z := heap.
Definition free_bitmap : Z := heap + 32.
Definition large_free_bitmap : Z := heap + 40.
Definition block_size_field : Z := heap + 48.
Definition compact_size : Z := heap + 56.
Definition segments_list : Z := heap + 64.
Definition real_size : Z := heap + 80.
Definition real_peak : Z := heap + 88.
Definition limit : Z := heap + 96.
Definition heap_size : Z := heap + 104.
Definition peak : Z := heap + 112.
Definition reserve_size_field : Z := heap + 120.
Definition reserve : Z := heap + 128.
Definition overflow : Z := heap + 136.
Definition internal : Z := heap + 140.
Definition cached : Z := heap + 144.
Definition cache (i : Z) : Z := heap + 152 + 8 * i.
Definition free_buckets (i : Z) : Z := heap + 664 + 8 * i.
Definition large_free_buckets (i : Z) : Z := heap + 1688 + 8 * i.
Definition rest_buckets (i : Z) : Z := heap + 2200 + 8 * i.
Definition rest_count : Z := heap + 2216.

Definition ZEND_MM_SMALL_FREE_BUCKET (index : Z) : Z := free_buckets (index * 2) + 8 * 2 - sizeof_small_free_block.
Definition ZEND_MM_REST_BUCKET : Z := rest_buckets 0 + 8 * 2 - sizeof_small_free_block.

(** ** Free lists *)

(** the loop of [zend_mm_add_to_free_list] from the slot [p]; 65 steps leave no bit of [m] *)
Fixpoint add_to_tree_loop (fuel : nat) (mm_block size m p : Z) : W unit :=
  match fuel with
  | O => stuck
  | S fuel' =>
      let! prev := rd p in
      let! prev_size := ZEND_MM_FREE_BLOCK_SIZE prev in
      if negb (prev_size =? size) then
        let p := child prev (Z.land (Z.shiftr m (ZEND_MM_NUM_BUCKETS - 1)) 1) in
        let! q := rd p in
        if q =? 0 then
          wr p mm_block ;;;
          wr (parent mm_block) p ;;;
          wr (next_free_block mm_block) mm_block ;;;
          wr (prev_free_block mm_block) mm_block
        else add_to_tree_loop fuel' mm_block size (u64 (Z.shiftl m 1)) p
      else
        let! next := rd (next_free_block prev) in
        wr (prev_free_block next) mm_block ;;;
        wr (next_free_block prev) mm_block ;;;
        wr (next_free_block mm_block) next ;;;
        wr (prev_free_block mm_block) prev ;;;
        wr (parent mm_block) 0
  end.

Definition add_to_large (mm_block size : Z) : W unit :=
  let index := ZEND_MM_LARGE_BUCKET_INDEX size in
  let p := large_free_buckets index in
  wr (child mm_block 1) 0 ;;;
  wr (child mm_block 0) 0 ;;;
  let! q := rd p in
  if q =? 0 then
    wr p mm_block ;;;
    wr (parent mm_block) p ;;;
    wr (next_free_block mm_block) mm_block ;;;
    wr (prev_free_block mm_block) mm_block ;;;
    let! bitmap := rd large_free_bitmap in
    wr large_free_bitmap (Z.lor bitmap (bit index))
  else add_to_tree_loop 65 mm_block size (u64 (Z.shiftl size (ZEND_MM_NUM_BUCKETS - index))) p.

Definition add_to_small (mm_block size : Z) : W unit :=
  let index := ZEND_MM_BUCKET_INDEX size in
  let prev := ZEND_MM_SMALL_FREE_BUCKET index in
  let! pp := rd (prev_free_block prev) in
  (if pp =? prev then
     let! bitmap := rd free_bitmap in
     wr free_bitmap (Z.lor bitmap (bit index))
   else ret tt) ;;;
  let! next := rd (next_free_block prev) in
  wr (prev_free_block mm_block) prev ;;;
  wr (next_free_block mm_block) next ;;;
  wr (prev_free_block next) mm_block ;;;
  wr (next_free_block prev) mm_block.

Definition zend_mm_add_to_free_list (mm_block : Z) : W unit :=
  let! size := ZEND_MM_FREE_BLOCK_SIZE mm_block in
  if negb (ZEND_MM_SMALL_SIZE size) then add_to_large mm_block size else add_to_small mm_block size.

(** [&b->child[b->child[1] != NULL]] *)
Definition last_child (b : Z) : W Z :=
  let! c := rd (child b 1) in
  ret (child b (if negb (c =? 0) then 1 else 0)).
(** down to a leaf: [prev], and the slot [rp] that holds it *)
Fixpoint leaf_loop (fuel : nat) (prev rp : Z) : W (Z * Z) :=
  match fuel with
  | O => stuck
  | S fuel' =>
      let! cp := last_child prev in
      let! c := rd cp in
      if negb (c =? 0) then leaf_loop fuel' c cp else ret (prev, rp)
  end.

(** [prev->child[i] = mm_block->child[i]], and its parent *)
Definition move_child (mm_block prev i : Z) : W unit :=
  let! c := rd (child mm_block i) in
  wr (child prev i) c ;;;
  if negb (c =? 0) then
    ZEND_MM_CHECK_TREE c ;;;
    wr (parent c) (child prev i)
  else ret tt.
(** the code at [subst_block] *)
Definition subst_block (mm_block prev : Z) : W unit :=
  ZEND_MM_CHECK_TREE mm_block ;;;
  let! p := rd (parent mm_block) in
  wr p prev ;;;
  let! p := rd (parent mm_block) in
  wr (parent prev) p ;;;
  move_child mm_block prev 0 ;;;
  move_child mm_block prev 1.

(** the only block of its size in a tree *)
Definition remove_tree_node (mm_block : Z) : W unit :=
  let! rp := last_child mm_block in
  let! prev := rd rp in
  if prev =? 0 then
    let! size := ZEND_MM_FREE_BLOCK_SIZE mm_block in
    let index := ZEND_MM_LARGE_BUCKET_INDEX size in
    ZEND_MM_CHECK_TREE mm_block ;;;
    let! p := rd (parent mm_block) in
    wr p 0 ;;;
    let! p := rd (parent mm_block) in
    if p =? large_free_buckets index then
      let! bitmap := rd large_free_bitmap in
      wr large_free_bitmap (Z.land bitmap (Z.lnot (bit index)))
    else ret tt
  else
    let! '(prev, rp) := leaf_loop 65 prev rp in
    wr rp 0 ;;;
    subst_block mm_block prev.

(** what follows the unlinking of a block from its ring *)
Definition unlinked (mm_block prev next : Z) : W unit :=
  let! size := ZEND_MM_FREE_BLOCK_SIZE mm_block in
  if ZEND_MM_SMALL_SIZE size then
    if prev =? next then
      let! size := ZEND_MM_FREE_BLOCK_SIZE mm_block in
      let index := ZEND_MM_BUCKET_INDEX size in
      let! b0 := rd (free_buckets (index * 2)) in
      let! b1 := rd (free_buckets (index * 2 + 1)) in
      if b0 =? b1 then
        let! bitmap := rd free_bitmap in
        wr free_bitmap (Z.land bitmap (Z.lnot (bit index)))
      else ret tt
    else ret tt
  else
    let! p := rd (parent mm_block) in
    if p =? ZEND_MM_REST_BLOCK then
      let! n := rd rest_count in
      wr rest_count (s32 (n - 1))
    else if negb (p =? 0) then subst_block mm_block prev
    else ret tt.

Definition zend_mm_remove_from_free_list (mm_block : Z) : W unit :=
  let! prev := rd (prev_free_block mm_block) in
  let! next := rd (next_free_block mm_block) in
  if prev =? mm_block then
    if negb (next =? mm_block) then zend_mm_panic
    else remove_tree_node mm_block
  else
    let! pn := rd (next_free_block prev) in
    if negb (pn =? mm_block) then zend_mm_panic
    else
      let! np := rd (prev_free_block next) in
      if negb (np =? mm_block) then zend_mm_panic
      else
        wr (next_free_block prev) next ;;;
        wr (prev_free_block next) prev ;;;
        unlinked mm_block prev next.

(** the blocks that the list of rests gives up when it is full *)
Fixpoint evict_rests_loop (fuel : nat) : W unit :=
  let! n := rd rest_count in
  if n >=? ZEND_MM_MAX_REST_BLOCKS then
    match fuel with
    | O => stuck
    | S fuel' =>
        let! p := rd (rest_buckets 1) in
        let! size := ZEND_MM_FREE_BLOCK_SIZE p in
        (if negb (ZEND_MM_SMALL_SIZE size) then
           let! n := rd rest_count in
           wr rest_count (s32 (n - 1))
         else ret tt) ;;;
        let! prev := rd (prev_free_block p) in
        let! next := rd (next_free_block p) in
        wr (next_free_block prev) next ;;;
        wr (prev_free_block next) prev ;;;
        zend_mm_add_to_free_list p ;;;
        evict_rests_loop fuel'
    end
  else ret tt.

Definition zend_mm_add_to_rest_list (mm_block : Z) : W unit :=
  let! fuel := words_fuel in
  evict_rests_loop fuel ;;;
  let! size := ZEND_MM_FREE_BLOCK_SIZE mm_block in
  (if negb (ZEND_MM_SMALL_SIZE size) then
     wr (parent mm_block) ZEND_MM_REST_BLOCK ;;;
     let! n := rd rest_count in
     wr rest_count (s32 (n + 1))
   else ret tt) ;;;
  let! prev := rd (rest_buckets 0) in
  let! next := rd (next_free_block prev) in
  wr (prev_free_block mm_block) prev ;;;
  wr (next_free_block mm_block) next ;;;
  wr (prev_free_block next) mm_block ;;;
  wr (next_free_block prev) mm_block.

(** ** Searching the large blocks *)

(** [best_size] starts as [(size_t)-1] *)
Definition SIZE_MAX : Z := 2 ^ 64 - 1.

(** the walk down the tree along the bits of the size: an exact fit, or the best fit so
    far, with its size, and the last subtree on the right that was not entered *)
Fixpoint search_path_loop (fuel : nat) (true_size m p best_fit best_size rst : Z) : W (Z + Z * Z * Z) :=
  match fuel with
  | O => stuck
  | S fuel' =>
      let! size := ZEND_MM_FREE_BLOCK_SIZE p in
      if size =? true_size then let! q := rd (next_free_block p) in ret (inl q)
      else
        let '(best_fit, best_size) :=
          if (size >=? true_size) && (size <? best_size) then (p, size) else (best_fit, best_size) in
        if Z.land m (bit (ZEND_MM_NUM_BUCKETS - 1)) =? 0 then
          let! c1 := rd (child p 1) in
          let rst := if negb (c1 =? 0) then c1 else rst in
          let! c0 := rd (child p 0) in
          if negb (c0 =? 0) then search_path_loop fuel' true_size (u64 (Z.shiftl m 1)) c0 best_fit best_size rst
          else ret (inr (best_fit, best_size, rst))
        else
          let! c1 := rd (child p 1) in
          if negb (c1 =? 0) then search_path_loop fuel' true_size (u64 (Z.shiftl m 1)) c1 best_fit best_size rst
          else ret (inr (best_fit, best_size, rst))
  end.

(** [p->child[p->child[0] != NULL]] *)
Definition next_smaller (p : Z) : W Z :=
  let! c := rd (child p 0) in
  rd (child p (if negb (c =? 0) then 1 else 0)).

Fixpoint search_rest_loop (fuel : nat) (true_size p best_fit best_size : Z) : W (Z + Z) :=
  if p =? 0 then ret (inr best_fit)
  else
    match fuel with
    | O => stuck
    | S fuel' =>
        let! size := ZEND_MM_FREE_BLOCK_SIZE p in
        if size =? true_size then let! q := rd (next_free_block p) in ret (inl q)
        else
          let '(best_fit, best_size) :=
            if (size >? true_size) && (size <? best_size) then (p, size) else (best_fit, best_size) in
          let! p := next_smaller p in
          search_rest_loop fuel' true_size p best_fit best_size
    end.

Fixpoint search_smallest_loop (fuel : nat) (p best_fit : Z) : W Z :=
  let! p := next_smaller p in
  if p =? 0 then ret best_fit
  else
    match fuel with
    | O => stuck
    | S fuel' =>
        let! size := ZEND_MM_FREE_BLOCK_SIZE p in
        let! best := ZEND_MM_FREE_BLOCK_SIZE best_fit in
        search_smallest_loop fuel' p (if size <? best then p else best_fit)
    end.

(** the tree of the size's own bucket; [None]: nothing there fits *)
Definition search_bucket (true_size index : Z) : W (option Z) :=
  let! p := rd (large_free_buckets index) in
  let! r := search_path_loop 65 true_size (u64 (Z.shiftl true_size (ZEND_MM_NUM_BUCKETS - index))) p 0 SIZE_MAX 0 in
  match r with
  | inl q => ret (Some q)
  | inr (best_fit, best_size, rst) =>
      let! r := search_rest_loop 65 true_size rst best_fit best_size in
      match r with
      | inl q => ret (Some q)
      | inr best_fit => if negb (best_fit =? 0) then let! q := rd (next_free_block best_fit) in ret (Some q) else ret None
      end
  end.

(** a tree whose blocks are all large enough *)
Definition search_larger (bitmap index : Z) : W Z :=
  let! p := rd (large_free_buckets (index + zend_mm_low_bit bitmap)) in
  let! best_fit := search_smallest_loop 65 p p in
  rd (next_free_block best_fit).

Definition zend_mm_search_large_block (true_size : Z) : W Z :=
  let index := ZEND_MM_LARGE_BUCKET_INDEX true_size in
  let! bits := rd large_free_bitmap in
  let bitmap := Z.shiftr bits index in
  if bitmap =? 0 then ret 0
  else if negb (Z.land bitmap 1 =? 0) then
    let! r := search_bucket true_size index in
    match r with
    | Some q => ret q
    | None =>
        let bitmap := Z.shiftr bitmap 1 in
        if bitmap =? 0 then ret 0 else search_larger bitmap (index + 1)
    end
  else search_larger bitmap index.

(** ** Segments and the cache *)

(** [ZEND_MM_STORAGE_ALLOC], which gives [NULL] or a new segment, and [ZEND_MM_STORAGE_FREE] *)
Variable ZEND_MM_STORAGE_ALLOC : Z → W Z.
Variable ZEND_MM_STORAGE_FREE : Z → W unit.
(** [zend_error] with [E_ERROR] *)
Variable zend_error : W unit.

Definition segment_size_field (segment : Z) : Z := segment.
Definition next_segment (segment : Z) : Z := segment + 8.

Fixpoint find_segment_loop (fuel : nat) (segment p : Z) : W Z :=
  let! s := rd p in
  if negb (s =? segment) then
    match fuel with
    | O => stuck
    | S fuel' => find_segment_loop fuel' segment (next_segment s)
    end
  else ret p.

Definition zend_mm_del_segment (segment : Z) : W unit :=
  let! fuel := words_fuel in
  let! p := find_segment_loop fuel segment segments_list in
  let! next := rd (next_segment segment) in
  wr p next ;;;
  let! n := rd real_size in
  let! size := rd (segment_size_field segment) in
  wr real_size (u64 (n - size)) ;;;
  ZEND_MM_STORAGE_FREE segment.

(** [zend_mm_free_cache], one block of the cache; the result is the next one *)
Definition free_cached_block (mm_block : Z) : W Z :=
  let! size := ZEND_MM_BLOCK_SIZE mm_block in
  let! q := rd (prev_free_block mm_block) in
  let! next_block := ZEND_MM_NEXT_BLOCK mm_block in
  let! n := rd cached in
  wr cached (u32 (n - size)) ;;;
  let! pf := ZEND_MM_PREV_BLOCK_IS_FREE mm_block in
  let! '(mm_block, size) :=
    (if (pf : bool) then
       let! mm_block := ZEND_MM_PREV_BLOCK mm_block in
       let! s := ZEND_MM_FREE_BLOCK_SIZE mm_block in
       zend_mm_remove_from_free_list mm_block ;;;
       ret (mm_block, u64 (size + s))
     else ret (mm_block, size)) in
  let! nf := ZEND_MM_IS_FREE_BLOCK next_block in
  let! size :=
    (if (nf : bool) then
       let! s := ZEND_MM_FREE_BLOCK_SIZE next_block in
       zend_mm_remove_from_free_list next_block ;;;
       ret (u64 (size + s))
     else ret size) in
  ZEND_MM_BLOCK mm_block ZEND_MM_FREE_BLOCK size ;;;
  let! first := ZEND_MM_IS_FIRST_BLOCK mm_block in
  let! whole :=
    (if (first : bool) then let! next := ZEND_MM_NEXT_BLOCK mm_block in ZEND_MM_IS_GUARD_BLOCK next else ret false) in
  (if (whole : bool) then zend_mm_del_segment (mm_block - ZEND_MM_ALIGNED_SEGMENT_SIZE)
   else zend_mm_add_to_free_list mm_block) ;;;
  ret q.

Fixpoint free_cache_list_loop (fuel : nat) (mm_block : Z) : W unit :=
  if negb (mm_block =? 0) then
    match fuel with
    | O => stuck
    | S fuel' => let! q := free_cached_block mm_block in free_cache_list_loop fuel' q
    end
  else ret tt.

(** the lists of the cache, [n] of them from [i] *)
Fixpoint free_cache_loop (n : nat) (i : Z) : W unit :=
  match n with
  | O => ret tt
  | S n' =>
      let! mm_block := rd (cache i) in
      (if negb (mm_block =? 0) then
         let! fuel := words_fuel in
         free_cache_list_loop fuel mm_block ;;;
         wr (cache i) 0
       else ret tt) ;;;
      free_cache_loop n' (i + 1)
  end.

Definition zend_mm_free_cache : W unit := free_cache_loop (Z.to_nat ZEND_MM_NUM_BUCKETS) 0.

(** ** Freeing *)

(** a small block, while the cache has room *)
Definition put_in_cache (mm_block size : Z) : W unit :=
  let index := ZEND_MM_BUCKET_INDEX size in
  let! c := rd (cache index) in
  wr (prev_free_block mm_block) c ;;;
  wr (cache index) mm_block ;;;
  let! n := rd cached in
  wr cached (u32 (n + size)).

(** the block, with its free neighbours, goes to the free lists, or its segment to the system *)
Definition free_block (mm_block size : Z) : W unit :=
  let! n := rd heap_size in
  wr heap_size (u64 (n - size)) ;;;
  let next_block := ZEND_MM_BLOCK_AT mm_block size in
  let! nf := ZEND_MM_IS_FREE_BLOCK next_block in
  let! size :=
    (if (nf : bool) then
       zend_mm_remove_from_free_list next_block ;;;
       let! s := ZEND_MM_FREE_BLOCK_SIZE next_block in
       ret (u64 (size + s))
     else ret size) in
  let! pf := ZEND_MM_PREV_BLOCK_IS_FREE mm_block in
  let! '(mm_block, size) :=
    (if (pf : bool) then
       let! mm_block := ZEND_MM_PREV_BLOCK mm_block in
       zend_mm_remove_from_free_list mm_block ;;;
       let! s := ZEND_MM_FREE_BLOCK_SIZE mm_block in
       ret (mm_block, u64 (size + s))
     else ret (mm_block, size)) in
  let! first := ZEND_MM_IS_FIRST_BLOCK mm_block in
  let! whole :=
    (if (first : bool) then ZEND_MM_IS_GUARD_BLOCK (ZEND_MM_BLOCK_AT mm_block size) else ret false) in
  if (whole : bool) then zend_mm_del_segment (mm_block - ZEND_MM_ALIGNED_SEGMENT_SIZE)
  else
    ZEND_MM_BLOCK mm_block ZEND_MM_FREE_BLOCK size ;;;
    zend_mm_add_to_free_list mm_block.

Definition _zend_mm_free_int (p : Z) : W unit :=
  if p =? 0 then ret tt
  else
    let mm_block := ZEND_MM_HEADER_OF p in
    let! size := ZEND_MM_BLOCK_SIZE mm_block in
    let! n := rd cached in
    if ZEND_MM_SMALL_SIZE size && (n <? ZEND_MM_CACHE_SIZE) then put_in_cache mm_block size
    else free_block mm_block size.

(** ** Allocating *)

(** [zend_try { m } zend_end_try();] *)
Definition zend_try_end (m : W unit) : W unit := λ w,
  match m w with Done _ w' => Done tt w' | Bailout w' => Done tt w' | Stuck => Stuck end.

(** out of memory: an error, in the reserve that it frees, and [zend_bailout] *)
Definition zend_mm_safe_error : W unit :=
  let! r := rd reserve in
  (if negb (r =? 0) then
     _zend_mm_free_int r ;;;
     wr reserve 0
   else ret tt) ;;;
  let! o := rd overflow in
  (if o =? 0 then
     wr overflow 1 ;;;
     zend_try_end zend_error
   else wr overflow 2) ;;;
  bailout.

(** what the search for a block comes to *)
Inductive search : Type :=
| Returned (p : Z)
| Found (best_fit : Z)
| NotFound.

(** small sizes: the cache, then the free lists of small blocks *)
Definition search_small (size true_size : Z) : W search :=
  let index := ZEND_MM_BUCKET_INDEX true_size in
  if true_size <? size then zend_mm_safe_error ;;; ret (Returned 0)
  else
    let! best_fit := rd (cache index) in
    if negb (best_fit =? 0) then
      let! q := rd (prev_free_block best_fit) in
      wr (cache index) q ;;;
      let! n := rd cached in
      wr cached (u32 (n - true_size)) ;;;
      ret (Returned (ZEND_MM_DATA_OF best_fit))
    else
      let! bits := rd free_bitmap in
      let bitmap := Z.shiftr bits index in
      if negb (bitmap =? 0) then
        let index := index + zend_mm_low_bit bitmap in
        let! best_fit := rd (free_buckets (index * 2)) in
        ret (Found best_fit)
      else ret NotFound.

(** the list of rests, from [p]: an exact fit or the best one *)
Fixpoint search_rests_loop (fuel : nat) (true_size p best_fit best_size : Z) : W Z :=
  if negb (p =? ZEND_MM_REST_BUCKET) then
    match fuel with
    | O => stuck
    | S fuel' =>
        let! size := ZEND_MM_FREE_BLOCK_SIZE p in
        if size =? true_size then ret p
        else
          let '(best_fit, best_size) :=
            if (size >? true_size) && (size <? best_size) then (p, size) else (best_fit, best_size) in
          let! p := rd (prev_free_block p) in
          search_rests_loop fuel' true_size p best_fit best_size
    end
  else ret best_fit.

(** a free block that is large enough, or [NULL] *)
Definition search_large (true_size : Z) : W Z :=
  let! best_fit := zend_mm_search_large_block true_size in
  if best_fit =? 0 then
    let! rs := rd real_size in
    let! l := rd limit in
    let! bs := rd block_size_field in
    if rs >=? u64 (l - bs) then
      let! p := rd (rest_buckets 0) in
      let! fuel := words_fuel in
      search_rests_loop fuel true_size p 0 SIZE_MAX
    else ret 0
  else ret best_fit.

(** the size of a new segment, and [keep_rest] *)
Definition new_segment_size (block_size true_size : Z) : Z * bool :=
  if true_size >? u64 (block_size - (ZEND_MM_ALIGNED_SEGMENT_SIZE + ZEND_MM_ALIGNED_HEADER_SIZE)) then
    let segment_size := u64 (true_size + ZEND_MM_ALIGNED_SEGMENT_SIZE + ZEND_MM_ALIGNED_HEADER_SIZE) in
    (Z.land (u64 (segment_size + (block_size - 1))) (Z.lnot (block_size - 1)), true)
  else (block_size, false).

(** a segment of the system: its only block, with the size of it, and [keep_rest] *)
Definition new_segment (true_size : Z) : W (option (Z * Z * bool)) :=
  let! bs := rd block_size_field in
  let '(segment_size, keep_rest) := new_segment_size bs true_size in
  let! rs := rd real_size in
  let! l := rd limit in
  (if (segment_size <? true_size) || (u64 (rs + segment_size) >? l) then
     zend_mm_free_cache ;;;
     zend_mm_safe_error
   else ret tt) ;;;
  let! segment := ZEND_MM_STORAGE_ALLOC segment_size in
  if segment =? 0 then
    zend_mm_free_cache ;;;
    zend_mm_safe_error ;;;
    ret None
  else
    let! rs := rd real_size in
    wr real_size (u64 (rs + segment_size)) ;;;
    let! rs := rd real_size in
    let! rp := rd real_peak in
    (if rs >? rp then wr real_peak rs else ret tt) ;;;
    wr (segment_size_field segment) segment_size ;;;
    let! first := rd segments_list in
    wr (next_segment segment) first ;;;
    wr segments_list segment ;;;
    let best_fit := segment + ZEND_MM_ALIGNED_SEGMENT_SIZE in
    ZEND_MM_MARK_FIRST_BLOCK best_fit ;;;
    let block_size := segment_size - ZEND_MM_ALIGNED_SEGMENT_SIZE - ZEND_MM_ALIGNED_HEADER_SIZE in
    ZEND_MM_LAST_BLOCK (ZEND_MM_BLOCK_AT best_fit block_size) ;;;
    ret (Some (best_fit, block_size, keep_rest)).

(** the code at [zend_mm_finished_searching_for_block]: the size of the block *)
Definition take_block (best_fit : Z) : W Z :=
  ZEND_MM_CHECK_BLOCK_LINKAGE best_fit ;;;
  zend_mm_remove_from_free_list best_fit ;;;
  ZEND_MM_FREE_BLOCK_SIZE best_fit.

(** the block becomes used, and what is left of it a new block *)
Definition split_block (best_fit block_size true_size : Z) (keep_rest : bool) : W Z :=
  let remaining_size := u64 (block_size - true_size) in
  let! true_size :=
    (if remaining_size <? ZEND_MM_ALIGNED_MIN_HEADER_SIZE then
       let true_size := block_size in
       ZEND_MM_BLOCK best_fit ZEND_MM_USED_BLOCK true_size ;;;
       ret true_size
     else
       ZEND_MM_BLOCK best_fit ZEND_MM_USED_BLOCK true_size ;;;
       let new_free_block := ZEND_MM_BLOCK_AT best_fit true_size in
       ZEND_MM_BLOCK new_free_block ZEND_MM_FREE_BLOCK remaining_size ;;;
       (if negb keep_rest then zend_mm_add_to_free_list new_free_block
        else zend_mm_add_to_rest_list new_free_block) ;;;
       ret true_size) in
  let! n := rd heap_size in
  wr heap_size (u64 (n + true_size)) ;;;
  let! pk := rd peak in
  let! n := rd heap_size in
  (if pk <? n then wr peak n else ret tt) ;;;
  ret (ZEND_MM_DATA_OF best_fit).

Definition _zend_mm_alloc_int (size : Z) : W Z :=
  let true_size := ZEND_MM_TRUE_SIZE size in
  let! s := (if ZEND_MM_SMALL_SIZE true_size then search_small size true_size else ret NotFound) in
  match s with
  | Returned p => ret p
  | Found best_fit =>
      let! block_size := take_block best_fit in
      split_block best_fit block_size true_size false
  | NotFound =>
      let! best_fit := search_large true_size in
      if best_fit =? 0 then
        let! r := new_segment true_size in
        match r with
        | None => ret 0
        | Some (best_fit, block_size, keep_rest) => split_block best_fit block_size true_size keep_rest
        end
      else
        let! block_size := take_block best_fit in
        split_block best_fit block_size true_size false
  end.

(** ** The heap at the start *)

(** the loop of [zend_mm_init], from bucket [i] *)
Fixpoint init_buckets_loop (n : nat) (p i : Z) : W unit :=
  match n with
  | O => ret tt
  | S n' =>
      wr (next_free_block p) p ;;;
      wr (prev_free_block p) p ;;;
      wr (large_free_buckets i) 0 ;;;
      init_buckets_loop n' (p + 8 * 2) (i + 1)
  end.
(** [memset(heap->cache, 0, sizeof(heap->cache))] *)
Fixpoint clear_cache_loop (n : nat) (i : Z) : W unit :=
  match n with O => ret tt | S n' => wr (cache i) 0 ;;; clear_cache_loop n' (i + 1) end.

Definition zend_mm_init : W unit :=
  wr free_bitmap 0 ;;;
  wr large_free_bitmap 0 ;;;
  wr cached 0 ;;;
  clear_cache_loop (Z.to_nat ZEND_MM_NUM_BUCKETS) 0 ;;;
  init_buckets_loop (Z.to_nat ZEND_MM_NUM_BUCKETS) (ZEND_MM_SMALL_FREE_BUCKET 0) 0 ;;;
  wr (rest_buckets 1) ZEND_MM_REST_BUCKET ;;;
  wr (rest_buckets 0) ZEND_MM_REST_BUCKET ;;;
  wr rest_count 0.

(** [zend_mm_startup_ex] once the storage is there and the heap has its memory, for a heap
    that is not internal *)
Definition zend_mm_startup_ex (block_size reserve_size : Z) : W unit :=
  if negb (zend_mm_low_bit block_size =? zend_mm_high_bit block_size) then zend_mm_panic
  else
    wr block_size_field block_size ;;;
    wr compact_size 0 ;;;
    wr segments_list 0 ;;;
    zend_mm_init ;;;
    wr use_zend_alloc 1 ;;;
    wr real_size 0 ;;;
    wr overflow 0 ;;;
    wr real_peak 0 ;;;
    wr limit (bit (ZEND_MM_NUM_BUCKETS - 2)) ;;;
    wr heap_size 0 ;;;
    wr peak 0 ;;;
    wr internal 0 ;;;
    wr reserve 0 ;;;
    wr reserve_size_field reserve_size ;;;
    if reserve_size >? 0 then
      let! r := _zend_mm_alloc_int reserve_size in
      wr reserve r
    else ret tt.

End heap.
