(* ===== verification/MmReallocModel.v ===== *)
(** * [Zend/zend_alloc.c]: reallocation, and the interface of the allocation manager

    [_zend_mm_realloc_int] for the same build as [MmModel], with the handler that resizes a
    segment as one more parameter, and the functions that the engine calls on the heap of its
    globals. *)

From S2P Require Import Prelude MmModel.
Local Open Scope Z_scope.
Local Open Scope effect_scope.

(** [memcpy] of [n] words *)
Fixpoint memcpy_words (n : nat) (dst src : Z) : W unit :=
  match n with
  | O => ret tt
  | S n' => let! v := rd src in wr dst v ;;; memcpy_words n' (dst + 8) (src + 8)
  end.
Definition memcpy (dst src size : Z) : W unit := memcpy_words (Z.to_nat (size / 8)) dst src.

Section heap.
Variable heap : Z.
Variable ZEND_MM_STORAGE_ALLOC : Z → W Z.
Variable ZEND_MM_STORAGE_FREE : Z → W unit.
(** [ZEND_MM_STORAGE_REALLOC(segment, size)]: [NULL], or the segment, where it now is *)
Variable ZEND_MM_STORAGE_REALLOC : Z → Z → W Z.
Variable zend_error : W unit.

Local Abbreviation zend_mm_remove_from_free_list := (zend_mm_remove_from_free_list heap).
Local Abbreviation zend_mm_add_to_free_list := (zend_mm_add_to_free_list heap).
Local Abbreviation zend_mm_add_to_rest_list := (zend_mm_add_to_rest_list heap).
Local Abbreviation zend_mm_free_cache := (zend_mm_free_cache heap ZEND_MM_STORAGE_FREE).
Local Abbreviation zend_mm_safe_error := (zend_mm_safe_error heap ZEND_MM_STORAGE_FREE zend_error).

(** ** Reallocation *)

(** the block is large enough: what it does not need joins the block after it *)
Definition realloc_shrink (p mm_block true_size orig_size : Z) : W Z :=
  let remaining_size := u64 (orig_size - true_size) in
  (if remaining_size >=? ZEND_MM_ALIGNED_MIN_HEADER_SIZE then
     let next_block := ZEND_MM_BLOCK_AT mm_block orig_size in
     let! nf := ZEND_MM_IS_FREE_BLOCK next_block in
     let! remaining_size :=
       (if (nf : bool) then
          let! s := ZEND_MM_FREE_BLOCK_SIZE next_block in
          zend_mm_remove_from_free_list next_block ;;;
          ret (u64 (remaining_size + s))
        else ret remaining_size) in
     ZEND_MM_BLOCK mm_block ZEND_MM_USED_BLOCK true_size ;;;
     let new_free_block := ZEND_MM_BLOCK_AT mm_block true_size in
     ZEND_MM_BLOCK new_free_block ZEND_MM_FREE_BLOCK remaining_size ;;;
     zend_mm_add_to_free_list new_free_block ;;;
     let! n := rd (heap_size heap) in
     wr (heap_size heap) (u64 (n + (true_size - orig_size)))
   else ret tt) ;;;
  ret p.

(** a block of the cache instead, which takes this one *)
Definition realloc_cached (p mm_block true_size orig_size best_fit : Z) : W Z :=
  let index := ZEND_MM_BUCKET_INDEX true_size in
  let! q := rd (prev_free_block best_fit) in
  wr (cache heap index) q ;;;
  let ptr := ZEND_MM_DATA_OF best_fit in
  memcpy ptr p (orig_size - ZEND_MM_ALIGNED_HEADER_SIZE) ;;;
  let! n := rd (cached heap) in
  wr (cached heap) (u32 (n - (true_size - orig_size))) ;;;
  let index := ZEND_MM_BUCKET_INDEX orig_size in
  let! c := rd (cache heap index) in
  wr (prev_free_block mm_block) c ;;;
  wr (cache heap index) mm_block ;;;
  ret ptr.

(** [heap->size] and [heap->peak] after a block of [orig_size] got [true_size] *)
Definition count_growth (true_size orig_size : Z) : W unit :=
  let! n := rd (heap_size heap) in
  wr (heap_size heap) (u64 (n + true_size - orig_size)) ;;;
  let! pk := rd (peak heap) in
  let! n := rd (heap_size heap) in
  if pk <? n then wr (peak heap) n else ret tt.

(** the free block after it is large enough for the growth *)
Definition realloc_grow (p mm_block next_block true_size orig_size : Z) : W Z :=
  let! s := ZEND_MM_FREE_BLOCK_SIZE next_block in
  let block_size := u64 (orig_size + s) in
  let remaining_size := u64 (block_size - true_size) in
  zend_mm_remove_from_free_list next_block ;;;
  let! true_size :=
    (if remaining_size <? ZEND_MM_ALIGNED_MIN_HEADER_SIZE then
       let true_size := block_size in
       ZEND_MM_BLOCK mm_block ZEND_MM_USED_BLOCK true_size ;;;
       ret true_size
     else
       ZEND_MM_BLOCK mm_block ZEND_MM_USED_BLOCK true_size ;;;
       let new_free_block := ZEND_MM_BLOCK_AT mm_block true_size in
       ZEND_MM_BLOCK new_free_block ZEND_MM_FREE_BLOCK remaining_size ;;;
       let! first := ZEND_MM_IS_FIRST_BLOCK mm_block in
       let! whole :=
         (if (first : bool) then ZEND_MM_IS_GUARD_BLOCK (ZEND_MM_BLOCK_AT new_free_block remaining_size) else ret false) in
       (if (whole : bool) then zend_mm_add_to_rest_list new_free_block
        else zend_mm_add_to_free_list new_free_block) ;;;
       ret true_size) in
  count_growth true_size orig_size ;;;
  ret p.

(** the loop that replaces a moved segment in the list is that of [zend_mm_del_segment] *)
Definition replace_segment (segment_copy segment : Z) : W unit :=
  let! fuel := words_fuel in
  let! seg := find_segment_loop fuel segment_copy (segments_list heap) in
  wr seg segment.

(** the new end of the segment, with a used and perhaps a free block before it *)
Definition fill_segment (mm_block segment_size true_size : Z) : W Z :=
  let block_size := u64 (segment_size - ZEND_MM_ALIGNED_SEGMENT_SIZE - ZEND_MM_ALIGNED_HEADER_SIZE) in
  let remaining_size := u64 (block_size - true_size) in
  ZEND_MM_LAST_BLOCK (ZEND_MM_BLOCK_AT mm_block block_size) ;;;
  if remaining_size <? ZEND_MM_ALIGNED_MIN_HEADER_SIZE then
    let true_size := block_size in
    ZEND_MM_BLOCK mm_block ZEND_MM_USED_BLOCK true_size ;;;
    ret true_size
  else
    ZEND_MM_BLOCK mm_block ZEND_MM_USED_BLOCK true_size ;;;
    let new_free_block := ZEND_MM_BLOCK_AT mm_block true_size in
    ZEND_MM_BLOCK new_free_block ZEND_MM_FREE_BLOCK remaining_size ;;;
    zend_mm_add_to_rest_list new_free_block ;;;
    ret true_size.

(** the code at [realloc_segment]: the block is the only used one of its segment *)
Definition realloc_segment (mm_block next_block true_size orig_size : Z) : W Z :=
  let! bs := rd (block_size_field heap) in
  let segment_size := (new_segment_size bs true_size).1 in
  let segment_copy := mm_block - ZEND_MM_ALIGNED_SEGMENT_SIZE in
  let! rs := rd (real_size heap) in
  let! old := rd (segment_size_field segment_copy) in
  let! l := rd (limit heap) in
  if (segment_size <? true_size) || (u64 (rs + segment_size - old) >? l) then
    let! nf := ZEND_MM_IS_FREE_BLOCK next_block in
    (if (nf : bool) then zend_mm_add_to_free_list next_block else ret tt) ;;;
    zend_mm_free_cache ;;;
    zend_mm_safe_error ;;;
    ret 0
  else
    let! segment := ZEND_MM_STORAGE_REALLOC segment_copy segment_size in
    if segment =? 0 then
      zend_mm_free_cache ;;;
      zend_mm_safe_error ;;;
      ret 0
    else
      let! rs := rd (real_size heap) in
      let! old := rd (segment_size_field segment) in
      wr (real_size heap) (u64 (rs + (segment_size - old))) ;;;
      let! rs := rd (real_size heap) in
      let! rp := rd (real_peak heap) in
      (if rs >? rp then wr (real_peak heap) rs else ret tt) ;;;
      wr (segment_size_field segment) segment_size ;;;
      let! mm_block :=
        (if negb (segment =? segment_copy) then
           replace_segment segment_copy segment ;;;
           let mm_block := segment + ZEND_MM_ALIGNED_SEGMENT_SIZE in
           ZEND_MM_MARK_FIRST_BLOCK mm_block ;;;
           ret mm_block
         else ret mm_block) in
      let! true_size := fill_segment mm_block segment_size true_size in
      count_growth true_size orig_size ;;;
      ret (ZEND_MM_DATA_OF mm_block).

(** a new block, and the old one is freed *)
Definition realloc_move (p orig_size size : Z) : W Z :=
  let! ptr := _zend_mm_alloc_int heap ZEND_MM_STORAGE_ALLOC ZEND_MM_STORAGE_FREE zend_error size in
  memcpy ptr p (orig_size - ZEND_MM_ALIGNED_HEADER_SIZE) ;;;
  _zend_mm_free_int heap ZEND_MM_STORAGE_FREE p ;;;
  ret ptr.

(** the growth of a block that the cache cannot serve *)
Definition realloc_large (p mm_block true_size orig_size size : Z) : W Z :=
  let next_block := ZEND_MM_BLOCK_AT mm_block orig_size in
  let! nf := ZEND_MM_IS_FREE_BLOCK next_block in
  if (nf : bool) then
    ZEND_MM_CHECK_BLOCK_LINKAGE next_block ;;;
    let! s := ZEND_MM_FREE_BLOCK_SIZE next_block in
    if u64 (orig_size + s) >=? true_size then realloc_grow p mm_block next_block true_size orig_size
    else
      let! first := ZEND_MM_IS_FIRST_BLOCK mm_block in
      let! whole :=
        (if (first : bool) then
           let! s := ZEND_MM_FREE_BLOCK_SIZE next_block in ZEND_MM_IS_GUARD_BLOCK (ZEND_MM_BLOCK_AT next_block s)
         else ret false) in
      if (whole : bool) then
        zend_mm_remove_from_free_list next_block ;;;
        realloc_segment mm_block next_block true_size orig_size
      else realloc_move p orig_size size
  else
    let! first := ZEND_MM_IS_FIRST_BLOCK mm_block in
    let! whole := (if (first : bool) then ZEND_MM_IS_GUARD_BLOCK next_block else ret false) in
    if (whole : bool) then realloc_segment mm_block next_block true_size orig_size
    else realloc_move p orig_size size.

Definition _zend_mm_realloc_int (p size : Z) : W Z :=
  if p =? 0 then _zend_mm_alloc_int heap ZEND_MM_STORAGE_ALLOC ZEND_MM_STORAGE_FREE zend_error size
  else
    let mm_block := ZEND_MM_HEADER_OF p in
    let true_size := ZEND_MM_TRUE_SIZE size in
    let! orig_size := ZEND_MM_BLOCK_SIZE mm_block in
    if true_size <? size then zend_mm_safe_error ;;; ret 0
    else if true_size <=? orig_size then realloc_shrink p mm_block true_size orig_size
    else
      let! best_fit := (if ZEND_MM_SMALL_SIZE true_size then rd (cache heap (ZEND_MM_BUCKET_INDEX true_size)) else ret 0) in
      if negb (best_fit =? 0) then realloc_cached p mm_block true_size orig_size best_fit
      else realloc_large p mm_block true_size orig_size size.

(** the size of a block, as the heap knows it *)
Definition _zend_mm_block_size (p : Z) : W Z :=
  if p =? 0 then ret 0 else ZEND_MM_BLOCK_SIZE (ZEND_MM_HEADER_OF p).

(** ** The allocation manager

    The heap is that of the globals.  Without [use_zend_alloc] the functions of the system
    are called instead, which are in the heap then. *)

Variable _malloc : Z → W Z.
Variable _free : Z → W unit.
Variable _realloc : Z → Z → W Z.
(** [zend_error_noreturn(E_ERROR, "Possible integer overflow in memory allocation ...")] *)
Variable zend_error_noreturn : W unit.

Definition is_zend_mm : W Z := rd (use_zend_alloc heap).

Definition _emalloc (size : Z) : W Z :=
  let! u := rd (use_zend_alloc heap) in
  if u =? 0 then _malloc size else _zend_mm_alloc_int heap ZEND_MM_STORAGE_ALLOC ZEND_MM_STORAGE_FREE zend_error size.
Definition _efree (ptr : Z) : W unit :=
  let! u := rd (use_zend_alloc heap) in
  if u =? 0 then _free ptr else _zend_mm_free_int heap ZEND_MM_STORAGE_FREE ptr.
Definition _erealloc (ptr size : Z) : W Z :=
  let! u := rd (use_zend_alloc heap) in
  if u =? 0 then _realloc ptr size else _zend_mm_realloc_int ptr size.
Definition _zend_mem_block_size (ptr : Z) : W Z :=
  let! u := rd (use_zend_alloc heap) in
  if u =? 0 then ret 0 else _zend_mm_block_size ptr.

(** [nmemb * size + offset], by the instructions [mulq], [addq] and [adcq] on the registers *)
Definition safe_address (nmemb size offset : Z) : W Z :=
  let rax := u64 (nmemb * size) in
  let rdx := nmemb * size / 2 ^ 64 in
  let carry := (rax + offset) / 2 ^ 64 in
  let res := u64 (rax + offset) in
  let overflow := u64 (rdx + carry) in
  if negb (overflow =? 0) then zend_error_noreturn ;;; ret 0 else ret res.

Definition _safe_emalloc (nmemb size offset : Z) : W Z :=
  let! n := safe_address nmemb size offset in _emalloc n.
Definition _safe_erealloc (ptr nmemb size offset : Z) : W Z :=
  let! n := safe_address nmemb size offset in _erealloc ptr n.

(** [memset(p, 0, size)]: words, and the low bytes of the one after them *)
Fixpoint clear_words (n : nat) (p : Z) : W unit :=
  match n with O => ret tt | S n' => wr p 0 ;;; clear_words n' (p + 8) end.
Definition memset_zero (p size : Z) : W unit :=
  clear_words (Z.to_nat (size / 8)) p ;;;
  let bits := 8 * (size mod 8) in
  if bits =? 0 then ret tt
  else
    let last := p + 8 * (size / 8) in
    let! v := rd last in wr last (Z.shiftl (Z.shiftr v bits) bits).

Definition _ecalloc (nmemb size : Z) : W Z :=
  let! p := _safe_emalloc nmemb size 0 in
  if p =? 0 then ret p
  else
    memset_zero p (u64 (size * nmemb)) ;;;
    ret p.

Definition zend_set_memory_limit (memory_limit : Z) : W unit :=
  let! bs := rd (block_size_field heap) in
  (if memory_limit >=? bs then wr (limit heap) memory_limit
   else let! bs := rd (block_size_field heap) in wr (limit heap) bs).

Definition zend_memory_usage (real_usage : bool) : W Z :=
  if real_usage then rd (real_size heap)
  else
    let! usage := rd (heap_size heap) in
    let! c := rd (cached heap) in
    ret (u64 (usage - c)).
Definition zend_memory_peak_usage (real_usage : bool) : W Z :=
  if real_usage then rd (real_peak heap) else rd (peak heap).

End heap.
