(* ===== verification/MmShutdownModel.v ===== *)
(** * [Zend/zend_alloc.c]: the end of a request

    [zend_mm_shutdown] for the same build as [MmModel], so without the check for leaks, of
    which [silent] is an option: the heap gives its segments back to the storage, all of them
    and itself at the end of the process, or, between two requests, all but one, which becomes
    a free block. *)

From S2P Require Import Prelude MmModel.
Local Open Scope Z_scope.
Local Open Scope effect_scope.

Section heap.
Variable heap : Z.
Variable ZEND_MM_STORAGE_ALLOC : Z → W Z.
Variable ZEND_MM_STORAGE_FREE : Z → W unit.
(** [storage->handlers->compact(storage)] and [storage->handlers->dtor(storage)] *)
Variable storage_compact : W unit.
Variable storage_dtor : W unit.
Variable zend_error : W unit.
(** the function of the system *)
Variable free : Z → W unit.

(** the body of the loops over the segments: the first of them is freed, the result is the
    one after it *)
Definition free_segment (segment : Z) : W Z :=
  let prev := segment in
  let! segment := rd (next_segment segment) in
  ZEND_MM_STORAGE_FREE prev ;;;
  ret segment.

(** [while (segment)] *)
Fixpoint free_segments_loop (fuel : nat) (segment : Z) : W unit :=
  if negb (segment =? 0) then
    match fuel with
    | O => stuck
    | S fuel' => let! segment := free_segment segment in free_segments_loop fuel' segment
    end
  else ret tt.

(** [while (segment->next_segment)] *)
Fixpoint free_but_last_loop (fuel : nat) (segment : Z) : W Z :=
  let! next := rd (next_segment segment) in
  if negb (next =? 0) then
    match fuel with
    | O => stuck
    | S fuel' => let! segment := free_segment segment in free_but_last_loop fuel' segment
    end
  else ret segment.

(** between two requests: the segments go, but for the last one when there is a reserve *)
Definition release_segments (segment : Z) : W unit :=
  if negb (segment =? 0) then
    let! fuel := words_fuel in
    let! n := rd (reserve_size_field heap) in
    if negb (n =? 0) then
      let! segment := free_but_last_loop fuel segment in
      wr (segments_list heap) segment
    else
      let! segment := free_segment segment in
      free_segments_loop fuel segment ;;;
      wr (segments_list heap) 0
  else ret tt.

Definition compact_storage : W unit :=
  let! cs := rd (compact_size heap) in
  let! rp := rd (real_peak heap) in
  if negb (cs =? 0) && (rp >? cs) then storage_compact else ret tt.

(** the counters of the heap that is left *)
Definition reset_counters : W unit :=
  let! segment := rd (segments_list heap) in
  (if negb (segment =? 0) then
     let! n := rd (segment_size_field segment) in
     wr (real_size heap) n ;;;
     wr (real_peak heap) n
   else
     wr (real_size heap) 0 ;;;
     wr (real_peak heap) 0) ;;;
  wr (heap_size heap) 0 ;;;
  wr (peak heap) 0.

(** the segment that is left becomes a free block *)
Definition free_remaining : W unit :=
  let! segment := rd (segments_list heap) in
  if negb (segment =? 0) then
    let b := segment + ZEND_MM_ALIGNED_SEGMENT_SIZE in
    let! n := rd (segment_size_field segment) in
    let block_size := n - ZEND_MM_ALIGNED_SEGMENT_SIZE - ZEND_MM_ALIGNED_HEADER_SIZE in
    ZEND_MM_MARK_FIRST_BLOCK b ;;;
    ZEND_MM_LAST_BLOCK (ZEND_MM_BLOCK_AT b block_size) ;;;
    ZEND_MM_BLOCK b ZEND_MM_FREE_BLOCK block_size ;;;
    zend_mm_add_to_free_list heap b
  else ret tt.

(** a new reserve *)
Definition allocate_reserve : W unit :=
  let! n := rd (reserve_size_field heap) in
  if negb (n =? 0) then
    let! p := _zend_mm_alloc_int heap ZEND_MM_STORAGE_ALLOC ZEND_MM_STORAGE_FREE zend_error n in
    wr (reserve heap) p
  else ret tt.

Definition zend_mm_shutdown (full_shutdown : bool) : W unit :=
  let! u := rd (use_zend_alloc heap) in
  if u =? 0 then (if full_shutdown then free heap else ret tt)
  else
    let! r := rd (reserve heap) in
    (if negb (r =? 0) then wr (reserve heap) 0 else ret tt) ;;;
    let! i := rd (internal heap) in
    let! segment := rd (segments_list heap) in
    if full_shutdown then
      let! fuel := words_fuel in
      free_segments_loop fuel segment ;;;
      wr (segments_list heap) 0 ;;;
      storage_dtor ;;;
      (if i =? 0 then free heap else ret tt)
    else
      release_segments segment ;;;
      compact_storage ;;;
      zend_mm_init heap ;;;
      reset_counters ;;;
      free_remaining ;;;
      allocate_reserve ;;;
      wr (overflow heap) 0.

End heap.
