(* ===== verification/MmBits.v ===== *)
(** * The arithmetic of the memory manager

    The bits of sizes, which index the buckets and lead down the trees, and the rounding of
    requests. *)

From S2P Require Import Prelude MmModel.
Local Open Scope Z_scope.

Lemma u64_spec z n : Z.testbit (u64 z) n = (n <? 64) && Z.testbit z n.
Proof. unfold u64. apply Z.testbit_mod_pow2. lia. Qed.

(** ** The highest and the lowest bit *)

Lemma high_bit_loop_log2 fuel s n : 0 < s < 2 ^ Z.of_nat fuel → high_bit_loop fuel s n = n + Z.log2 s + 1.
Proof.
  revert s n. induction fuel as [|fuel IH]; intros s n Hs; [cbn in Hs; lia|]. cbn [high_bit_loop].
  destruct (Z.eqb_spec s 0) as [|_]; [lia|]. cbn [negb]. destruct (decide (s = 1)) as [->|Hne].
  { change (Z.shiftr 1 1) with 0. destruct fuel; reflexivity || (cbn; lia). }
  assert (0 < Z.shiftr s 1 < 2 ^ Z.of_nat fuel).
  { rewrite Z.shiftr_div_pow2 by lia. split; [apply Z.div_str_pos; lia|]. apply Z.div_lt_upper_bound; [lia|].
    rewrite <-Z.pow_add_r by lia. replace (1 + Z.of_nat fuel) with (Z.of_nat (S fuel)) by lia. lia. }
  rewrite IH by done. rewrite Z.log2_shiftr by lia. pose proof (Z.log2_le_mono 2 s ltac:(lia)). change (Z.log2 2) with 1 in *. lia.
Qed.

(** the C text finds what [bsr] does *)
Lemma high_bit_log2 s : 0 < s < 2 ^ 64 → zend_mm_high_bit s = Z.log2 s.
Proof. intros Hs. unfold zend_mm_high_bit. rewrite high_bit_loop_log2 by done. lia. Qed.

Lemma high_bit_bounds s : 0 < s < 2 ^ 64 →
  0 ≤ zend_mm_high_bit s < 64 ∧ 2 ^ zend_mm_high_bit s ≤ s < 2 ^ (zend_mm_high_bit s + 1).
Proof.
  intros Hs. rewrite high_bit_log2 by done. pose proof (Z.log2_spec s ltac:(lia)). pose proof (Z.log2_nonneg s).
  split; [split; [done|]|done]. apply Z.log2_lt_pow2; lia.
Qed.

(** a nibble that is not 0 has a lowest bit, which the table gives *)
Lemma low_bit_nibble c : 0 ≤ c < 16 →
  let n := default 0 (low_bit_offset !! Z.to_nat c) in
  (n = 4 ∧ c = 0) ∨ (0 ≤ n < 4 ∧ Z.testbit c n = true).
Proof.
  intros Hc. assert (c ∈ seqZ 0 16) as Hin by (apply elem_of_seqZ; lia). clear Hc. revert c Hin. apply Forall_forall. vm_decide.
Qed.

Lemma low_bit_loop_spec fuel s i : 0 < s → s < 16 ^ Z.of_nat (S fuel) →
  ∃ n, low_bit_loop fuel s i = i + n ∧ 0 ≤ n ∧ Z.testbit s n = true.
Proof.
  revert s i. induction fuel as [|fuel IH]; intros s i Hs Hb; cbn [low_bit_loop];
    assert (Hc : 0 ≤ Z.land s 15 < 16) by (change 15 with (Z.ones 4); rewrite Z.land_ones by lia; apply Z.mod_pos_bound; lia);
    assert (Hbit : ∀ k, 0 ≤ k < 4 → Z.testbit (Z.land s 15) k = Z.testbit s k)
      by (intros k Hk; change 15 with (Z.ones 4); rewrite Z.land_spec, Z.ones_spec_low, andb_true_r by lia; done);
    generalize (low_bit_nibble _ Hc); cbv zeta; generalize (default 0 (low_bit_offset !! Z.to_nat (Z.land s 15))); intros b Hb'.
  - destruct Hb' as [[_ H0]|[H1 H2]].
    + change 15 with (Z.ones 4) in H0. rewrite Z.land_ones, Z.mod_small in H0 by lia. lia.
    + exists b. split; [done|]. split; [lia|]. by rewrite <-Hbit by lia.
  - destruct Hb' as [[H4 H0]|[H1 H2]].
    + rewrite H4, Z.eqb_refl. change 15 with (Z.ones 4) in H0. rewrite Z.land_ones in H0 by lia. change (2 ^ 4) with 16 in H0.
      pose proof (Z.div_mod s 16 ltac:(lia)).
      destruct (IH (Z.shiftr s 4) (i + 4)) as (m & Hm & Hm0 & Hmt).
      * rewrite Z.shiftr_div_pow2 by lia. change (2 ^ 4) with 16. lia.
      * rewrite Z.shiftr_div_pow2 by lia. apply Z.div_lt_upper_bound; [lia|]. change (2 ^ 4) with (16 ^ 1). rewrite <-Z.pow_add_r by lia.
        by replace (1 + Z.of_nat (S fuel)) with (Z.of_nat (S (S fuel))) by lia.
      * exists (4 + m). split; [lia|]. split; [lia|]. rewrite Z.shiftr_spec in Hmt by lia. by replace (4 + m) with (m + 4) by lia.
    + destruct (Z.eqb_spec b 4); [lia|]. exists b. split; [done|]. split; [lia|]. by rewrite <-Hbit by lia.
Qed.

Lemma low_bit_spec s : 0 < s < 2 ^ 64 → 0 ≤ zend_mm_low_bit s < 64 ∧ Z.testbit s (zend_mm_low_bit s) = true.
Proof.
  intros Hs. destruct (low_bit_loop_spec 15 s 0 ltac:(lia) ltac:(change (16 ^ Z.of_nat 16) with (2 ^ 64); lia)) as (n & Hn & Hn0 & Ht).
  unfold zend_mm_low_bit. rewrite Hn, Z.add_0_l. split; [|done]. split; [done|]. destruct (Z.lt_ge_cases n 64) as [|Hge]; [done|].
  rewrite Z.bits_above_log2 in Ht; [done|lia|]. assert (Z.log2 s < 64) by (apply Z.log2_lt_pow2; lia). lia.
Qed.

(** ** The bit that a tree branches on *)

(** [m] when [k] bits of the size are left *)
Definition bits_left (s k : Z) : Z := u64 (Z.shiftl s (64 - k)).

Lemma bits_left_next s k : 0 < k ≤ 64 → u64 (Z.shiftl (bits_left s k) 1) = bits_left s (k - 1).
Proof.
  intros Hk. unfold bits_left, u64. rewrite !Z.shiftl_mul_pow2 by lia. rewrite Z.mul_mod_idemp_l by lia. f_equal.
  rewrite <-Z.mul_assoc, <-Z.pow_add_r by lia. do 2 f_equal. lia.
Qed.

Lemma bits_left_top s k : 0 < k ≤ 64 → Z.testbit (bits_left s k) 63 = Z.testbit s (k - 1).
Proof. intros Hk. unfold bits_left. rewrite u64_spec, Z.shiftl_spec by lia. by replace (63 - (64 - k)) with (k - 1) by lia. Qed.

Lemma child_index m : Z.land (Z.shiftr m 63) 1 = Z.b2z (Z.testbit m 63).
Proof. change 1 with (Z.ones 1). rewrite Z.land_ones, <-Z.bit0_mod, Z.shiftr_spec by lia. done. Qed.

Lemma low_bit_set m : negb (Z.land m 1 =? 0) = Z.testbit m 0.
Proof.
  change 1 with (Z.ones 1). rewrite Z.land_ones, <-Z.bit0_mod by lia. by destruct (Z.testbit m 0).
Qed.

Lemma top_bit_clear m : 0 ≤ m → (Z.land m (bit 63) =? 0) = negb (Z.testbit m 63).
Proof.
  intros Hm. unfold bit. destruct (Z.testbit m 63) eqn:E; cbn [negb].
  - apply Z.eqb_neq. intros H. apply (f_equal (λ z, Z.testbit z 63)) in H. rewrite Z.land_spec, E in H. done.
  - apply Z.eqb_eq, Z.bits_inj'. intros n Hn. rewrite Z.land_spec, Z.bits_0, Z.shiftl_1_l, Z.pow2_bits_eqb by lia.
    destruct (Z.eqb_spec 63 n) as [<-|]; [by rewrite E|apply andb_false_r].
Qed.

(** of the sizes from [lo], a multiple of [2 ^ (k + 1)], those with bit [k] are the upper half *)
Lemma branch_bit lo k s : 0 ≤ k → (2 ^ (k + 1) | lo) → lo ≤ s < lo + 2 ^ (k + 1) → Z.testbit s k = (lo + 2 ^ k <=? s).
Proof.
  intros Hk [q ->] Hs. rewrite Z.pow_add_r in * by lia. change (2 ^ 1) with 2 in *. pose proof (Z.pow_pos_nonneg 2 k ltac:(lia) Hk) as Hp.
  apply Z.b2z_inj. rewrite Z.testbit_spec' by done. destruct (Z.leb_spec (q * (2 ^ k * 2) + 2 ^ k) s); cbn [Z.b2z].
  - rewrite <-(Z.div_unique s (2 ^ k) (2 * q + 1) (s - (2 * q + 1) * 2 ^ k)) by nia. rewrite Z.mul_comm, Z.add_comm, Z.mod_add by lia. done.
  - rewrite <-(Z.div_unique s (2 ^ k) (2 * q) (s - 2 * q * 2 ^ k)) by nia. rewrite Z.mul_comm, Z.mod_mul by lia. done.
Qed.

(** ** Sizes of blocks *)

(** a size that a block can have *)
Definition good_size (s : Z) : Prop := 32 ≤ s < 2 ^ 64 ∧ (8 | s).

Lemma small_size s : ZEND_MM_SMALL_SIZE s = (s <? 544).
Proof. reflexivity. Qed.

Lemma bucket_index s : good_size s → s < 544 → 0 ≤ ZEND_MM_BUCKET_INDEX s < 64 ∧ s = 32 + 8 * ZEND_MM_BUCKET_INDEX s.
Proof.
  intros [Hs [q Hq]] Hlt. unfold ZEND_MM_BUCKET_INDEX, ZEND_MM_ALIGNMENT_LOG2. change (Z.shiftr ZEND_MM_ALIGNED_MIN_HEADER_SIZE 3) with 4.
  rewrite Z.shiftr_div_pow2 by lia. change (2 ^ 3) with 8. rewrite Hq, Z.div_mul by lia. lia.
Qed.

Lemma size_index s : good_size s →
  let i := ZEND_MM_LARGE_BUCKET_INDEX s in 0 ≤ i < 64 ∧ 2 ^ i ≤ s < 2 ^ i + 2 ^ i.
Proof.
  intros [Hs _] i. destruct (high_bit_bounds s ltac:(lia)) as [Hi Hb]. fold (ZEND_MM_LARGE_BUCKET_INDEX s) in *. fold i in Hi, Hb.
  split; [done|]. rewrite Z.pow_add_r in Hb by lia. change (2 ^ 1) with 2 in Hb. lia.
Qed.

Lemma aligned_size z : 0 ≤ z ≤ 2 ^ 64 - 8 → z ≤ ZEND_MM_ALIGNED_SIZE z < z + 8 ∧ (8 | ZEND_MM_ALIGNED_SIZE z).
Proof.
  intros Hz. unfold ZEND_MM_ALIGNED_SIZE, ZEND_MM_ALIGNMENT.
  replace (Z.land (z + 8 - 1) (Z.lnot (8 - 1))) with (Z.ldiff (z + 7) (Z.ones 3)) by (rewrite Z.ldiff_land; f_equal; lia).
  rewrite Z.ldiff_ones_r, Z.shiftr_div_pow2, Z.shiftl_mul_pow2 by lia. change (2 ^ 3) with 8.
  pose proof (Z.div_mod (z + 7) 8 ltac:(lia)). pose proof (Z.mod_pos_bound (z + 7) 8 ltac:(lia)).
  rewrite u64_small by lia. split; [lia|]. by exists ((z + 7) / 8).
Qed.

(** a request that does not wrap around gets a block with room for it and the header; one
    that does gets a size that is smaller than it *)
Lemma true_size_spec n : 0 ≤ n < 2 ^ 64 →
  (n + 16 ≤ ZEND_MM_TRUE_SIZE n ∧ good_size (ZEND_MM_TRUE_SIZE n)) ∨ ZEND_MM_TRUE_SIZE n < 32 ∧ ZEND_MM_TRUE_SIZE n < n.
Proof.
  intros Hn. unfold ZEND_MM_TRUE_SIZE. change ZEND_MM_MIN_SIZE with 16. change ZEND_MM_ALIGNED_MIN_HEADER_SIZE with 32.
  change ZEND_MM_ALIGNED_HEADER_SIZE with 16. change END_MAGIC_SIZE with 0. rewrite Z.add_0_r. destruct (Z.ltb_spec n 16).
  { left. unfold good_size. split; [lia|]. split; [lia|by exists 4]. }
  destruct (Z.le_gt_cases (n + 16) (2 ^ 64 - 8)).
  - left. rewrite u64_small by lia. destruct (aligned_size (n + 16) ltac:(lia)) as [H1 H2]. unfold good_size. split; [lia|]. split; [|done].
    split; [lia|]. destruct H2 as [q Hq]. lia.
  - right. destruct (Z.lt_ge_cases (n + 16) (2 ^ 64)).
    + assert (Hz : n + 16 ∈ seqZ (2 ^ 64 - 7) 7) by (apply elem_of_seqZ; lia).
      assert (HF : Forall (λ z, ZEND_MM_ALIGNED_SIZE (u64 z) = 0) (seqZ (2 ^ 64 - 7) 7)) by vm_decide.
      rewrite Forall_forall in HF. rewrite (HF _ Hz). lia.
    + assert (Hz : u64 (n + 16) = n + 16 - 2 ^ 64).
      { unfold u64. rewrite <-(Z.mod_add (n + 16) (-1)), Z.mod_small by lia. lia. }
      rewrite Hz. destruct (aligned_size (n + 16 - 2 ^ 64)) as [Ha _]; lia.
Qed.

(** ** Bitmaps *)

Definition bitmap_ok (m : Z) : Prop := 0 ≤ m < 2 ^ 64.

Lemma bitmap_intro m : (∀ j, 64 ≤ j → Z.testbit m j = false) → bitmap_ok m.
Proof.
  intros H. unfold bitmap_ok. replace m with (u64 m); [apply u64_range|]. apply Z.bits_inj'. intros n Hn. rewrite u64_spec.
  destruct (Z.ltb_spec n 64); [done|]. by rewrite H by done.
Qed.

Lemma bitmap_high m j : bitmap_ok m → 64 ≤ j → Z.testbit m j = false.
Proof. intros Hm Hj. rewrite <-(u64_small m) by done. rewrite u64_spec. by destruct (Z.ltb_spec j 64); [lia|]. Qed.

Lemma bit_spec i j : 0 ≤ i → Z.testbit (bit i) j = bool_decide (i = j).
Proof.
  intros Hi. unfold bit. rewrite Z.shiftl_1_l. destruct (Z.lt_ge_cases j 0).
  - rewrite Z.testbit_neg_r by done. case_bool_decide; lia || done.
  - rewrite Z.pow2_bits_eqb by done. case_bool_decide; destruct (Z.eqb_spec i j); done.
Qed.

Lemma set_bit_spec m i j : 0 ≤ i → Z.testbit (Z.lor m (bit i)) j = bool_decide (i = j) || Z.testbit m j.
Proof. intros Hi. by rewrite Z.lor_spec, bit_spec, orb_comm by done. Qed.

Lemma clear_bit_spec m i j : 0 ≤ i → 0 ≤ j → Z.testbit (Z.land m (Z.lnot (bit i))) j = negb (bool_decide (i = j)) && Z.testbit m j.
Proof. intros Hi Hj. by rewrite Z.land_spec, Z.lnot_spec, bit_spec, andb_comm by done. Qed.

Lemma set_bit_ok m i : bitmap_ok m → 0 ≤ i < 64 → bitmap_ok (Z.lor m (bit i)).
Proof. intros Hm Hi. apply bitmap_intro. intros j Hj. rewrite set_bit_spec, (bitmap_high m) by (done || lia). case_bool_decide; [lia|done]. Qed.

Lemma clear_bit_ok m i : bitmap_ok m → 0 ≤ i → bitmap_ok (Z.land m (Z.lnot (bit i))).
Proof. intros Hm Hi. apply bitmap_intro. intros j Hj. by rewrite clear_bit_spec, (bitmap_high m), andb_false_r by (done || lia). Qed.

Lemma large_index_unique i s : 0 ≤ i < 64 → 2 ^ i ≤ s < 2 ^ i + 2 ^ i → ZEND_MM_LARGE_BUCKET_INDEX s = i.
Proof.
  intros Hi Hs. assert (2 ^ (i + 1) = 2 ^ i + 2 ^ i) by (rewrite Z.pow_add_r by lia; lia).
  assert (2 ^ (i + 1) ≤ 2 ^ 64) by (apply Z.pow_le_mono_r; lia). pose proof (Z.pow_pos_nonneg 2 i ltac:(lia) ltac:(lia)).
  unfold ZEND_MM_LARGE_BUCKET_INDEX. rewrite high_bit_log2 by lia. apply Z.log2_unique; [lia|]. rewrite Z.add_1_r in *. lia.
Qed.

(** the bitmap from bit [i] on *)
Lemma bitmap_shift m i : bitmap_ok m → 0 ≤ i → bitmap_ok (Z.shiftr m i).
Proof. intros Hm Hi. apply bitmap_intro. intros j Hj. rewrite Z.shiftr_spec by lia. apply bitmap_high; [done|lia]. Qed.

Lemma bitmap_first m i : bitmap_ok m → 0 ≤ i → Z.shiftr m i ≠ 0 →
  let j := i + zend_mm_low_bit (Z.shiftr m i) in i ≤ j < 64 ∧ Z.testbit m j = true.
Proof.
  intros Hm Hi Hne j. pose proof (bitmap_shift m i Hm Hi) as [H0 H1]. destruct (low_bit_spec (Z.shiftr m i) ltac:(lia)) as [Hl Ht].
  rewrite Z.shiftr_spec, Z.add_comm in Ht by lia. fold j in Ht. split; [|done]. split; [lia|].
  destruct (Z.lt_ge_cases j 64) as [|Hge]; [done|]. by rewrite bitmap_high in Ht.
Qed.

Lemma bitmap_none m i j : 0 ≤ i ≤ j → Z.shiftr m i = 0 → Z.testbit m j = false.
Proof. intros Hj Hz. replace j with (j - i + i) by lia. rewrite <-Z.shiftr_spec by lia. by rewrite Hz, Z.bits_0. Qed.
