(* ===== verification/MmRepr.v ===== *)
(** * What the words of the memory manager's heap say

    Rings of blocks, trees of large blocks, lists of small ones and of rests, as predicates
    on memory: [free_lists F] owns the blocks [F], a list of addresses and sizes, but for
    their words [info_prev], which belong to the layout of the segments. *)

From iris.proofmode Require Import proofmode.
From S2P Require Import Prelude WordLogic MmModel.
Local Open Scope Z_scope.

(** ** Regions *)

(** [n] words from [a], whatever they hold *)
Fixpoint region (a : Z) (n : nat) : hpropI :=
  match n with O => emp | S n' => (∃ v, a ↦ v) ∗ region (a + 8) n' end%I.

(** the bytes from [a] to [z] *)
Definition span (a z : Z) : hpropI := region a (Z.to_nat ((z - a) / 8)).

Lemma region_app a m n : region a (m + n) ⊣⊢ region a m ∗ region (a + 8 * Z.of_nat m) n.
Proof.
  revert a. induction m as [|m IH]; intros a; cbn [region Nat.add].
  - by rewrite left_id Z.add_0_r.
  - rewrite IH -(assoc bi_sep). by replace (a + 8 + 8 * Z.of_nat m) with (a + 8 * Z.of_nat (S m)) by lia.
Qed.

Lemma span_split a b z : a ≤ b ≤ z → (8 | b - a) → (8 | z - b) → span a z ⊣⊢ span a b ∗ span b z.
Proof.
  intros Hb [p Hp] [q Hq]. unfold span. rewrite Hp Hq. replace (z - a) with ((p + q) * 8) by lia.
  rewrite !Z.div_mul; [|lia..]. rewrite Z2Nat.inj_add; [|lia..]. rewrite region_app Z2Nat.id; [|lia]. by replace (a + 8 * p) with b by lia.
Qed.

Lemma span_nil a : span a a ⊣⊢ emp.
Proof. unfold span. by rewrite Z.sub_diag. Qed.

Lemma span_word a : span a (a + 8) ⊣⊢ ∃ v, a ↦ v.
Proof. unfold span. replace (a + 8 - a) with 8 by lia. change (Z.to_nat (8 / 8)) with 1%nat. cbn [region]. by rewrite right_id. Qed.

(** the first word of a span *)
Lemma span_cons a z : a + 8 ≤ z → (8 | z - a) → span a z ⊣⊢ (∃ v, a ↦ v) ∗ span (a + 8) z.
Proof.
  intros Hz [q Hq]. rewrite (span_split a (a + 8) z); [by rewrite span_word|lia|by exists 1; lia|exists (q - 1); lia].
Qed.

(** ** Regions with their words *)

Fixpoint words_at (a : Z) (vs : list Z) : hpropI :=
  match vs with [] => emp | v :: vs' => a ↦ v ∗ words_at (a + 8) vs' end%I.

Lemma words_at_app a vs1 vs2 : words_at a (vs1 ++ vs2) ⊣⊢ words_at a vs1 ∗ words_at (a + 8 * Z.of_nat (length vs1)) vs2.
Proof.
  revert a. induction vs1 as [|v vs1 IH]; intros a; cbn [words_at app length]; [by rewrite left_id Z.add_0_r|].
  rewrite IH assoc. by rewrite (_ : a + 8 + 8 * Z.of_nat (length vs1) = a + 8 * Z.of_nat (S (length vs1))); [|lia].
Qed.

Lemma region_words_at a n : region a n ⊣⊢ ∃ vs, ⌜length vs = n⌝ ∗ words_at a vs.
Proof.
  revert a. induction n as [|n IH]; intros a; cbn [region].
  - iSplit; [iIntros "_"; iExists []; by iSplit|by iIntros "_"].
  - rewrite IH. iSplit.
    + iIntros "[[%v H1] (%vs & <- & H2)]". iExists (v :: vs). cbn [words_at length]. by iFrame.
    + iIntros "(%vs & %Hlen & H)". destruct vs as [|v vs]; [done|]. cbn [words_at length] in *. iDestruct "H" as "[H1 H2]". iSplitL "H1"; [by iExists _|]. iExists vs. iFrame. iPureIntro. lia.
Qed.

(** the words of a span *)
Lemma span_words_at a z : a ≤ z → (8 | z - a) → span a z ⊣⊢ ∃ vs : list Z, ⌜z = (a + 8 * Z.of_nat (length vs))%Z⌝ ∗ words_at a vs.
Proof.
  intros Hz [q Hq]. unfold span. rewrite Hq Z.div_mul; [|lia]. rewrite region_words_at. f_equiv. intros vs. f_equiv. apply bi.pure_proper. lia.
Qed.

Lemma words_at_span a (vs : list Z) z : z = a + 8 * Z.of_nat (length vs) → words_at a vs ⊢ span a z.
Proof. intros ->. rewrite span_words_at; [|lia|exists (Z.of_nat (length vs)); lia]. iIntros "H". iExists vs. by iFrame. Qed.

(** the first words and the others *)
Lemma words_at_split a z (vs : list Z) : 0 ≤ z → z ≤ 8 * Z.of_nat (length vs) → (8 | z) →
  ∃ vs1 vs2, vs = vs1 ++ vs2 ∧ z = 8 * Z.of_nat (length vs1) ∧ (words_at a vs ⊣⊢ words_at a vs1 ∗ words_at (a + z) vs2).
Proof.
  intros H0 Hz [q ->]. exists (take (Z.to_nat q) vs), (drop (Z.to_nat q) vs). assert (Hlen : q * 8 = 8 * Z.of_nat (length (take (Z.to_nat q) vs))) by (rewrite length_take; lia).
  split; [by rewrite take_drop|]. split; [done|]. rewrite -{1}(take_drop (Z.to_nat q) vs) words_at_app. by rewrite Hlen.
Qed.

(** ** Rings *)

Definition link (a b : Z) : hpropI := next_free_block a ↦ b ∗ prev_free_block b ↦ a.

(** the links from [a] along [l] to [z] *)
Fixpoint path (a : Z) (l : list Z) (z : Z) : hpropI :=
  match l with [] => link a z | x :: l' => link a x ∗ path x l' z end.
Definition ring (a : Z) (l : list Z) : hpropI := path a l a.

Lemma path_app a l1 q l2 z : path a (l1 ++ q :: l2) z ⊣⊢ path a l1 q ∗ path q l2 z.
Proof. revert a. induction l1 as [|x l1 IH]; intros a; cbn [app path]; [done|]. by rewrite IH assoc. Qed.

Lemma path_head a l z :
  path a l z ⊢ next_free_block a ↦ hd z l ∗ prev_free_block (hd z l) ↦ a ∗
    (∀ a', next_free_block a' ↦ hd z l -∗ prev_free_block (hd z l) ↦ a' -∗ path a' l z).
Proof.
  destruct l as [|x l]; cbn [path hd].
  - iIntros "[$ $]". iIntros (a') "H1 H2". iFrame.
  - iIntros "[[$ $] H]". iIntros (a') "H1 H2". iFrame.
Qed.

(** the neighbours of [q], and the links without it *)
Lemma path_unlink a l1 q l2 z :
  path a l1 q ∗ path q l2 z ⊢ let p := default a (last l1) in let n := hd z l2 in
    prev_free_block q ↦ p ∗ next_free_block q ↦ n ∗ next_free_block p ↦ q ∗ prev_free_block n ↦ q ∗
    (next_free_block p ↦ n -∗ prev_free_block n ↦ p -∗ path a (l1 ++ l2) z).
Proof.
  revert a. induction l1 as [|x l1 IH]; intros a.
  - cbn [path app last default]. iIntros "[[$ $] H]". iDestruct (path_head with "H") as "($ & $ & H)".
    iIntros "H1 H2". iApply ("H" with "H1 H2").
  - cbn [path app]. replace (default a (last (x :: l1))) with (default x (last l1)) by (rewrite last_cons; by destruct (last l1)).
    iIntros "[[$ H1] H2]". iDestruct (IH with "[$H1 $H2]") as "($ & $ & $ & $ & H)". iExact "H".
Qed.

(** reading the links of [q] *)
Lemma path_read a l1 q l2 z :
  path a (l1 ++ q :: l2) z ⊢ let p := default a (last l1) in let n := hd z l2 in
    prev_free_block q ↦ p ∗ next_free_block q ↦ n ∗
    (prev_free_block q ↦ p -∗ next_free_block q ↦ n -∗ path a (l1 ++ q :: l2) z).
Proof.
  cbv zeta. rewrite path_app. revert a. induction l1 as [|x l1 IH]; intros a.
  - cbn [path app last default]. iIntros "[[H1 $] H]". iDestruct (path_head with "H") as "($ & H2 & H)".
    iIntros "H3 H4". iFrame "H1 H3". iApply ("H" with "H4 H2").
  - cbn [path app]. replace (default a (last (x :: l1))) with (default x (last l1)) by (rewrite last_cons; by destruct (last l1)).
    iIntros "[[$ H1] H2]". iDestruct (IH with "[$H1 $H2]") as "($ & $ & H)". iExact "H".
Qed.

Lemma path_insert_head a l z :
  path a l z ⊢ let n := hd z l in next_free_block a ↦ n ∗ prev_free_block n ↦ a ∗
    (∀ q, next_free_block a ↦ q -∗ prev_free_block q ↦ a -∗ next_free_block q ↦ n -∗ prev_free_block n ↦ q -∗ path a (q :: l) z).
Proof.
  iIntros "H". iDestruct (path_head with "H") as "($ & $ & H)". iIntros (q) "H1 H2 H3 H4". cbn [path]. iFrame "H1 H2". iApply ("H" with "H3 H4").
Qed.

Lemma path_insert_last a l z :
  path a l z ⊢ let p := default a (last l) in next_free_block p ↦ z ∗ prev_free_block z ↦ p ∗
    (∀ q, next_free_block p ↦ q -∗ prev_free_block q ↦ p -∗ next_free_block q ↦ z -∗ prev_free_block z ↦ q -∗ path a (l ++ [q]) z).
Proof.
  revert a. induction l as [|x l IH]; intros a.
  - cbn. iIntros "[$ $]". iIntros (q) "H1 H2 H3 H4". iFrame.
  - cbn [path app]. replace (default a (last (x :: l))) with (default x (last l)) by (rewrite last_cons; by destruct (last l)).
    iIntros "[$ H]". iDestruct (IH with "H") as "($ & $ & H)". iExact "H".
Qed.

(** the first block of a ring can be any of its last *)
Lemma ring_rotate a l x : ring a (l ++ [x]) ⊣⊢ ring x (a :: l).
Proof. unfold ring. rewrite path_app. cbn [path]. by rewrite comm. Qed.
