(* ===== verification/MmTrie.v ===== *)
(** * The trees of large blocks

    A bucket of large blocks is a binary tree: a node is a block, its subtrees branch on the
    next bit of the size, and the blocks of one size form a ring, of which one is in the
    tree.  Insertion, removal and search do what they promise. *)

From iris.proofmode Require Import proofmode.
From S2P Require Import Prelude WordLogic MmModel MmBits MmRepr.
Local Open Scope Z_scope.

(** ** Trees *)

(** a block with its size, the others of its size, and the subtrees *)
Inductive tree : Type :=
| Leaf
| Node (b s : Z) (rs : list Z) (t0 t1 : tree).

#[export] Instance tree_eq_dec : EqDecision tree.
Proof. solve_decision. Defined.

Definition top (t : tree) : Z := match t with Leaf => 0 | Node b _ _ _ _ => b end.

Fixpoint elements (t : tree) : list (Z * Z) :=
  match t with
  | Leaf => []
  | Node b s rs t0 t1 => (b, s) :: ((λ q, (q, s)) <$> rs) ++ elements t0 ++ elements t1
  end.

(** sizes from [lo], of which the first [k] bits differ; the smaller half is on the left *)
Fixpoint tree_ok (k : nat) (lo : Z) (t : tree) {struct t} : Prop :=
  match t with
  | Leaf => True
  | Node b s rs t0 t1 =>
      Forall (λ q, 0 < q) (b :: rs) ∧ good_size s ∧ 544 ≤ s ∧ lo ≤ s < lo + 2 ^ Z.of_nat k ∧
      match k with
      | O => t0 = Leaf ∧ t1 = Leaf
      | S k' => tree_ok k' lo t0 ∧ tree_ok k' (lo + 2 ^ Z.of_nat k') t1
      end
  end.

(** a block of a ring that is not in the tree *)
Definition member (s q : Z) : hpropI := info_size q ↦ s ∗ parent q ↦ 0 ∗ span (q + 40) (q + s).

(** the tree that the slot holds *)
Fixpoint tree_at (slot : Z) (t : tree) : hpropI :=
  match t with
  | Leaf => slot ↦ 0
  | Node b s rs t0 t1 =>
      slot ↦ b ∗ info_size b ↦ s ∗ parent b ↦ slot ∗ ring b rs ∗ ([∗ list] q ∈ rs, member s q) ∗ span (b + 56) (b + s) ∗
      tree_at (child b 0) t0 ∗ tree_at (child b 1) t1
  end%I.

Lemma tree_at_top slot t : tree_at slot t ⊢ slot ↦ top t ∗ (slot ↦ top t -∗ tree_at slot t).
Proof. destruct t as [|b s rs t0 t1]; cbn [tree_at top]; iIntros "H"; [iFrame; eauto|iDestruct "H" as "[$ H]"; iIntros "H1"; iFrame]. Qed.

Lemma top_0 k lo t : tree_ok k lo t → (top t =? 0) = bool_decide (t = Leaf).
Proof. destruct t as [|b s rs t0 t1]; cbn [tree_ok top]; [done|]. intros [Hb _]. apply Forall_cons_1 in Hb as [Hb _]. rewrite bool_decide_eq_false_2 //. destruct (Z.eqb_spec b 0); lia. Qed.

(** ** The words of a large block *)

Section words.
Context (b s : Z).
Hypothesis Hs : good_size s.

Local Lemma divides z : 0 ≤ z → (8 | z) → (8 | b + s - (b + z)).
Proof using Hs. intros _ [q ->]. destruct Hs as [_ [p ->]]. exists (p - q). lia. Qed.

Lemma links_words : span (b + 16) (b + s) ⊣⊢ (∃ v, prev_free_block b ↦ v) ∗ (∃ v, next_free_block b ↦ v) ∗ span (b + 32) (b + s).
Proof using Hs.
  unfold prev_free_block, next_free_block. assert (32 ≤ s) by (destruct Hs; lia).
  rewrite (span_cons (b + 16)); [|lia|apply divides; [lia|by exists 2]].
  replace (b + 16 + 8) with (b + 24) by lia. rewrite (span_cons (b + 24)); [|lia|apply divides; [lia|by exists 3]].
  by replace (b + 24 + 8) with (b + 32) by lia.
Qed.

Hypothesis Hlarge : 544 ≤ s.

Lemma children_words : span (b + 40) (b + s) ⊣⊢ (∃ v, child b 0 ↦ v) ∗ (∃ v, child b 1 ↦ v) ∗ span (b + 56) (b + s).
Proof using Hs Hlarge.
  unfold child. rewrite (span_cons (b + 40)); [|lia|apply divides; [lia|by exists 5]].
  replace (b + 40 + 8) with (b + 48) by lia. rewrite (span_cons (b + 48)); [|lia|apply divides; [lia|by exists 6]].
  by replace (b + 48 + 8) with (b + 56) by lia; replace (b + 40 + 8 * 1) with (b + 48) by lia; replace (b + 40 + 8 * 0) with (b + 40) by lia.
Qed.

Lemma parent_word : span (b + 32) (b + s) ⊣⊢ (∃ v, parent b ↦ v) ∗ span (b + 40) (b + s).
Proof using Hs Hlarge.
  unfold parent. rewrite (span_cons (b + 32)); [|lia|apply divides; [lia|by exists 4]]. by replace (b + 32 + 8) with (b + 40) by lia.
Qed.

End words.

(** ** Insertion *)

(** a block that is to go into a tree *)
Definition loose (b s : Z) : hpropI :=
  info_size b ↦ s ∗ (∃ v, parent b ↦ v) ∗ (∃ v, prev_free_block b ↦ v) ∗ (∃ v, next_free_block b ↦ v) ∗
  child b 0 ↦ 0 ∗ child b 1 ↦ 0 ∗ span (b + 56) (b + s).

Lemma new_node slot v b s (Φ : unit → hpropI) Ψ :
  slot ↦ v -∗ loose b s -∗ (tree_at slot (Node b s [] Leaf Leaf) -∗ Φ tt) -∗
  wp (wr slot b ;;; wr (parent b) slot ;;; wr (next_free_block b) b ;;; wr (prev_free_block b) b)%eff Φ Ψ.
Proof.
  iIntros "Hslot (Hs & [% Hpar] & [% Hprev] & [% Hnext] & Hc0 & Hc1 & Hrest) HΦ".
  wp_store "Hslot". wp_store "Hpar". wp_store "Hnext". wp_store "Hprev". iApply "HΦ". cbn [tree_at big_sepL]. unfold ring. cbn [path]. unfold link. iFrame.
Qed.

Lemma add_to_tree_loop_spec fuel k lo slot t b s (Φ : unit → hpropI) Ψ :
  tree_ok k lo t → t ≠ Leaf → (2 ^ Z.of_nat k | lo) → lo ≤ s < lo + 2 ^ Z.of_nat k → (k < fuel)%nat → (k ≤ 64)%nat →
  0 < b → good_size s → 544 ≤ s →
  tree_at slot t -∗ loose b s -∗
  (∀ t', ⌜tree_ok k lo t' ∧ t' ≠ Leaf ∧ elements t' ≡ₚ (b, s) :: elements t⌝ -∗ tree_at slot t' -∗ Φ tt) -∗
  wp (add_to_tree_loop fuel b s (bits_left s (Z.of_nat k)) slot) Φ Ψ.
Proof.
  revert k lo slot t Φ. induction fuel as [|fuel IH]; intros k lo slot t Φ Hok Hne Hlo Hs Hf Hk Hb Hgood Hlarge; [lia|].
  destruct t as [|b' s' rs t0 t1]; [done|]. iIntros "Ht Hb HΦ". cbn [add_to_tree_loop]. iDestruct "Ht" as "(Hslot & Hs' & Hpar & Hring & Hmem & Hrest & H0 & H1)".
  wp_load "Hslot". unfold ZEND_MM_FREE_BLOCK_SIZE. wp_load "Hs'". destruct (Z.eqb_spec s' s) as [->|Hss]; cbn [negb].
  - (* the ring *)
    iDestruct (path_insert_head with "Hring") as "(Hn & Hp & Hring)". wp_load "Hn".
    iDestruct "Hb" as "(Hs & [% Hbpar] & [% Hprev] & [% Hnext] & Hc0 & Hc1 & Hbrest)".
    wp_store "Hp". wp_store "Hn". wp_store "Hnext". wp_store "Hprev". wp_store "Hbpar".
    iApply ("HΦ" $! (Node b' s (b :: rs) t0 t1)).
    + iPureIntro. cbn [tree_ok] in Hok |- *. rewrite !Forall_cons in Hok |- *. split; [naive_solver|]. split; [done|]. cbn [elements fmap list_fmap app]. by rewrite Permutation_swap.
    + cbn [tree_at big_sepL]. iFrame "Hslot Hs' Hpar Hmem Hrest H0 H1". iSplitL "Hn Hprev Hnext Hp Hring"; [by iApply ("Hring" with "Hn Hprev Hnext Hp")|].
      iFrame "Hs Hbpar". iApply children_words; [done..|]. iFrame.
  - (* a subtree *)
    cbn [tree_ok] in Hok. destruct Hok as (Hb' & Hg' & Hl' & Hs' & Hsub). destruct k as [|k].
    { cbn in Hs, Hs'. lia. }
    change (ZEND_MM_NUM_BUCKETS - 1) with 63. rewrite child_index bits_left_top; [|lia]. replace (Z.of_nat (S k) - 1) with (Z.of_nat k) by lia.
    assert (Hpow : 2 ^ Z.of_nat (S k) = 2 * 2 ^ Z.of_nat k) by (rewrite Nat2Z.inj_succ Z.pow_succ_r //; lia).
    assert (Hbelow : ∀ lo' c tc Φ', tree_ok k lo' tc → (2 ^ Z.of_nat k | lo') → lo' ≤ s < lo' + 2 ^ Z.of_nat k →
      tree_at (child b' c) tc -∗ loose b s -∗
      (∀ t', ⌜tree_ok k lo' t' ∧ t' ≠ Leaf ∧ elements t' ≡ₚ (b, s) :: elements tc⌝ -∗ tree_at (child b' c) t' -∗ Φ' tt) -∗
      wp (let! q := rd (child b' c) in
          if q =? 0 then wr (child b' c) b ;;; wr (parent b) (child b' c) ;;; wr (next_free_block b) b ;;; wr (prev_free_block b) b
          else add_to_tree_loop fuel b s (u64 (Z.shiftl (bits_left s (Z.of_nat (S k))) 1)) (child b' c))%eff Φ' Ψ).
    { iIntros (lo' c tc Φ' Hokc Hloc Hsc) "Hc Hb HΦ". iDestruct (tree_at_top with "Hc") as "[Htop Hc]". wp_load "Htop".
      rewrite (top_0 k lo'); [|done]. case_bool_decide as Htc.
      - iApply (new_node with "Htop Hb"). iApply "HΦ". iPureIntro. rewrite Htc. cbn [tree_ok elements fmap list_fmap app].
        split; [|done]. split; [by apply Forall_cons_2|]. split; [done|]. split; [done|]. split; [done|]. by destruct k.
      - rewrite bits_left_next; [|lia]. replace (Z.of_nat (S k) - 1) with (Z.of_nat k) by lia.
        iApply (IH k lo' with "[Hc Htop] Hb HΦ"); try done; [lia|lia|]. by iApply "Hc". }
    clear IH. assert (Hlo' : (2 ^ Z.of_nat k | lo)) by (destruct Hlo as [q ->]; exists (q * 2); lia).
    rewrite (branch_bit lo); [|lia|by replace (Z.of_nat k + 1) with (Z.of_nat (S k)) by lia..].
    destruct Hsub as [Hok0 Hok1]. destruct (Z.leb_spec (lo + 2 ^ Z.of_nat k) s) as [Hge|Hlt]; cbn [Z.b2z].
    + iApply (Hbelow (lo + 2 ^ Z.of_nat k) 1 t1 with "H1 Hb"); [done|by apply Z.divide_add_r; [done|exists 1; lia]|lia|].
      iIntros (t1' (Hok1' & _ & Hel)) "H1". iApply ("HΦ" $! (Node b' s' rs t0 t1')); [|by iFrame].
      iPureIntro. cbn [tree_ok elements]. split; [done|]. split; [done|]. rewrite Hel. solve_Permutation.
    + iApply (Hbelow lo 0 t0 with "H0 Hb"); [done|done|lia|].
      iIntros (t0' (Hok0' & _ & Hel)) "H0". iApply ("HΦ" $! (Node b' s' rs t0' t1)); [|by iFrame].
      iPureIntro. cbn [tree_ok elements]. split; [done|]. split; [done|]. rewrite Hel. solve_Permutation.
Qed.

(** ** Removal *)

(** a block that is in no list any more *)
Definition freed (b s : Z) : hpropI := info_size b ↦ s ∗ span (b + 16) (b + s).

Lemma freed_intro b s : good_size s → 544 ≤ s →
  info_size b ↦ s -∗ (∃ v, parent b ↦ v) -∗ (∃ v, prev_free_block b ↦ v) -∗ (∃ v, next_free_block b ↦ v) -∗
  (∃ v, child b 0 ↦ v) -∗ (∃ v, child b 1 ↦ v) -∗ span (b + 56) (b + s) -∗ freed b s.
Proof.
  iIntros (Hs Hl) "$ H1 H2 H3 H4 H5 H6". rewrite links_words; [|done]. rewrite parent_word; [|done..]. rewrite children_words; [|done..]. iFrame.
Qed.

Lemma check_tree_spec b slot (Φ : unit → hpropI) Ψ :
  parent b ↦ slot -∗ slot ↦ b -∗ (parent b ↦ slot -∗ slot ↦ b -∗ Φ tt) -∗ wp (ZEND_MM_CHECK_TREE b) Φ Ψ.
Proof.
  iIntros "H1 H2 HΦ". unfold ZEND_MM_CHECK_TREE. wp_load "H1". wp_load "H2". rewrite Z.eqb_refl. cbn [negb]. wp_ret. iApply ("HΦ" with "H1 H2").
Qed.

Lemma move_child_spec k lo b prev i t v (Φ : unit → hpropI) Ψ :
  tree_ok k lo t → tree_at (child b i) t -∗ child prev i ↦ v -∗
  ((∃ v, child b i ↦ v) -∗ tree_at (child prev i) t -∗ Φ tt) -∗ wp (move_child b prev i) Φ Ψ.
Proof.
  iIntros (Hok) "Ht Hp HΦ". unfold move_child. destruct t as [|c s rs t0 t1]; cbn [tree_at].
  - wp_load "Ht". wp_store "Hp". wp_ret. iApply ("HΦ" with "[$Ht] Hp").
  - iDestruct "Ht" as "(Hslot & Hs & Hpar & H)". wp_load "Hslot". wp_store "Hp".
    destruct Hok as [[Hc _]%Forall_cons_1 _]. destruct (Z.eqb_spec c 0); [lia|]. cbn [negb]. wp_bind. iApply (check_tree_spec with "Hpar Hslot"). iIntros "Hpar Hslot".
    wp_store "Hpar". iApply ("HΦ" with "[$Hslot]"). iFrame.
Qed.

(** [prev] takes the place of [b] *)
Lemma subst_block_spec k lo k' lo' slot b prev t0 t1 v v0 v1 (Φ : unit → hpropI) Ψ :
  tree_ok k lo t0 → tree_ok k' lo' t1 →
  slot ↦ b -∗ parent b ↦ slot -∗ tree_at (child b 0) t0 -∗ tree_at (child b 1) t1 -∗
  parent prev ↦ v -∗ child prev 0 ↦ v0 -∗ child prev 1 ↦ v1 -∗
  (slot ↦ prev -∗ parent prev ↦ slot -∗ tree_at (child prev 0) t0 -∗ tree_at (child prev 1) t1 -∗
   parent b ↦ slot -∗ (∃ v, child b 0 ↦ v) -∗ (∃ v, child b 1 ↦ v) -∗ Φ tt) -∗
  wp (subst_block b prev) Φ Ψ.
Proof.
  iIntros (H0 H1) "Hslot Hpar H0 H1 Hp Hc0 Hc1 HΦ". unfold subst_block.
  wp_bind. iApply (check_tree_spec with "Hpar Hslot"). iIntros "Hpar Hslot". wp_load "Hpar". wp_store "Hslot". wp_load "Hpar". wp_store "Hp".
  wp_bind. iApply (move_child_spec with "H0 Hc0"); [done|]. iIntros "Hb0 H0". iApply (move_child_spec with "H1 Hc1"); [done|]. iIntros "Hb1 H1".
  iApply ("HΦ" with "Hslot Hp H0 H1 Hpar Hb0 Hb1").
Qed.

Lemma last_child_spec b k k' lo lo' t0 t1 (Φ : Z → hpropI) Ψ : tree_ok k lo t0 → tree_ok k' lo' t1 →
  tree_at (child b 1) t1 -∗ (tree_at (child b 1) t1 -∗ Φ (child b (if decide (t1 = Leaf) then 0 else 1))) -∗ wp (last_child b) Φ Ψ.
Proof.
  iIntros (H0 H1) "H HΦ". unfold last_child. iDestruct (tree_at_top with "H") as "[Ht H]". wp_load "Ht". rewrite (top_0 k' lo'); [|done]. wp_ret.
  iSpecialize ("H" with "Ht"). iSpecialize ("HΦ" with "H"). case_bool_decide; cbn [negb]; by destruct (decide (t1 = Leaf)).
Qed.

(** the facts of a node *)
Definition node_ok (k : nat) (lo b s : Z) (rs : list Z) : Prop :=
  Forall (λ q, 0 < q) (b :: rs) ∧ good_size s ∧ 544 ≤ s ∧ lo ≤ s < lo + 2 ^ Z.of_nat k.

Lemma node_ok_sub k lo b s rs k' lo' :
  node_ok k' lo' b s rs → lo ≤ lo' → lo' + 2 ^ Z.of_nat k' ≤ lo + 2 ^ Z.of_nat k → node_ok k lo b s rs.
Proof. unfold node_ok. intros (? & ? & ? & ?) ??. do 3 (split; [done|]). lia. Qed.

Lemma pow_succ_nat k : 2 ^ Z.of_nat (S k) = 2 * 2 ^ Z.of_nat k.
Proof. rewrite Nat2Z.inj_succ Z.pow_succ_r //. lia. Qed.

(** a leaf of the tree, the slot that holds it, and the tree without it *)
Lemma leaf_loop_spec fuel k lo slot t (Φ : Z * Z → hpropI) Ψ :
  tree_ok k lo t → t ≠ Leaf → (k < fuel)%nat →
  tree_at slot t -∗
  (∀ q s rs slot', ⌜node_ok k lo q s rs⌝ -∗ tree_at slot' (Node q s rs Leaf Leaf) -∗
    (slot' ↦ 0 -∗ ∃ t', ⌜tree_ok k lo t' ∧ elements t ≡ₚ elements (Node q s rs Leaf Leaf) ++ elements t'⌝ ∗ tree_at slot t') -∗
    Φ (q, slot')) -∗
  wp (leaf_loop fuel (top t) slot) Φ Ψ.
Proof.
  revert k lo slot t Φ. induction fuel as [|fuel IH]; intros k lo slot t Φ Hok Hne Hf; [lia|].
  destruct t as [|b s rs t0 t1]; [done|]. iIntros "Ht HΦ". cbn [leaf_loop top].
  iDestruct "Ht" as "(Hslot & Hs & Hpar & Hring & Hmem & Hrest & H0 & H1)".
  assert (Hnode : node_ok k lo b s rs) by (destruct Hok as (? & ? & ? & ? & _); done).
  assert (Hsub : ∃ k0 lo0 lo1, tree_ok k0 lo0 t0 ∧ tree_ok k0 lo1 t1 ∧ (k = S k0 ∧ lo0 = lo ∧ lo1 = lo + 2 ^ Z.of_nat k0 ∨ t0 = Leaf ∧ t1 = Leaf)).
  { destruct Hok as (_ & _ & _ & _ & Hok). destruct k as [|k].
    - destruct Hok as [-> ->]. exists 0%nat, 0, 0. do 2 (split; [done|]). by right.
    - destruct Hok. exists k, lo, (lo + 2 ^ Z.of_nat k). do 2 (split; [done|]). by left. }
  destruct Hsub as (k0 & lo0 & lo1 & Hok0 & Hok1 & Hcase).
  wp_bind. iApply (last_child_spec with "H1"); [exact Hok0|exact Hok1|]. iIntros "H1". destruct (decide (t1 = Leaf)) as [->|Hne1].
  - iDestruct (tree_at_top with "H0") as "[Htop H0]". wp_load "Htop". rewrite (top_0 k0 lo0); [|done]. iSpecialize ("H0" with "Htop").
    case_bool_decide as Ht0; cbn [negb].
    + subst t0. wp_ret. iApply ("HΦ" $! b s rs slot with "[//] [$Hslot $Hs $Hpar $Hring $Hmem $Hrest $H0 $H1]").
      iIntros "Hslot". iExists Leaf. iFrame. iPureIntro. split; [done|]. cbn [elements]. by rewrite !app_nil_r.
    + destruct Hcase as [(-> & -> & ->)|[? _]]; [|done]. iApply (IH k0 with "H0"); [done|done|lia|].
      iIntros (q s' rs' slot' Hq) "Hleaf H0". iApply ("HΦ" with "[%] Hleaf").
      { apply (node_ok_sub _ _ _ _ _ _ _ Hq); [lia|rewrite pow_succ_nat; lia]. }
      iIntros "Hslot'". iDestruct ("H0" with "Hslot'") as (t0' [Hok0' Hel]) "H0". iExists (Node b s rs t0' Leaf). iFrame. iPureIntro.
      split; [cbn [tree_ok] in Hok |- *; naive_solver|]. cbn [elements] in *. rewrite Hel. solve_Permutation.
  - destruct Hcase as [(-> & -> & ->)|[_ ?]]; [|done]. iDestruct (tree_at_top with "H1") as "[Htop H1]". wp_load "Htop". rewrite (top_0 k0 (lo + 2 ^ Z.of_nat k0)); [|done].
    iSpecialize ("H1" with "Htop"). rewrite bool_decide_eq_false_2; [|done]. cbn [negb]. iApply (IH k0 with "H1"); [done|done|lia|].
    iIntros (q s' rs' slot' Hq) "Hleaf H1". iApply ("HΦ" with "[%] Hleaf").
    { apply (node_ok_sub _ _ _ _ _ _ _ Hq); [pose proof (Z.pow_nonneg 2 (Z.of_nat k0)); lia|rewrite pow_succ_nat; lia]. }
    iIntros "Hslot'". iDestruct ("H1" with "Hslot'") as (t1' [Hok1' Hel]) "H1". iExists (Node b s rs t0 t1'). iFrame. iPureIntro.
    split; [cbn [tree_ok] in Hok |- *; naive_solver|]. cbn [elements] in *. rewrite Hel. solve_Permutation.
Qed.

Section remove.
Context (heap : Z).
Local Abbreviation root s := (large_free_buckets heap (ZEND_MM_LARGE_BUCKET_INDEX s)).

(** the bitmap when the tree of the slot is [t'] *)
Definition bitmap_without (slot s : Z) (t' : tree) (bm : Z) : Z :=
  if decide (slot = root s ∧ t' = Leaf) then Z.land bm (Z.lnot (bit (ZEND_MM_LARGE_BUCKET_INDEX s))) else bm.

Lemma bitmap_without_node slot s t' bm : t' ≠ Leaf → bitmap_without slot s t' bm = bm.
Proof. intros H. unfold bitmap_without. rewrite decide_False //. naive_solver. Qed.

Lemma remove_tree_node_spec k lo slot b s t0 t1 bm (Φ : unit → hpropI) Ψ :
  tree_ok k lo (Node b s [] t0 t1) → (k < 65)%nat →
  tree_at slot (Node b s [] t0 t1) -∗ large_free_bitmap heap ↦ bm -∗
  (∀ t', ⌜tree_ok k lo t' ∧ elements t0 ++ elements t1 ≡ₚ elements t'⌝ -∗ tree_at slot t' -∗
    large_free_bitmap heap ↦ bitmap_without slot s t' bm -∗ freed b s -∗ Φ tt) -∗
  wp (remove_tree_node heap b) Φ Ψ.
Proof.
  iIntros (Hok Hk) "(Hslot & Hs & Hpar & Hring & _ & Hrest & H0 & H1) Hbm HΦ". unfold remove_tree_node.
  assert (Hsub : ∃ k0 lo0 lo1, tree_ok k0 lo0 t0 ∧ tree_ok k0 lo1 t1 ∧ (k = S k0 ∧ lo0 = lo ∧ lo1 = lo + 2 ^ Z.of_nat k0 ∨ t0 = Leaf ∧ t1 = Leaf)).
  { destruct Hok as (_ & _ & _ & _ & Hok). destruct k as [|k].
    - destruct Hok as [-> ->]. exists 0%nat, 0, 0. do 2 (split; [done|]). by right.
    - destruct Hok. exists k, lo, (lo + 2 ^ Z.of_nat k). do 2 (split; [done|]). by left. }
  destruct Hok as (Hb & Hg & Hl & Hlo & _). destruct Hsub as (k0 & lo0 & lo1 & Hok0 & Hok1 & Hcase).
  unfold ring. cbn [path]. iDestruct "Hring" as "[Hnext Hprev]".
  wp_bind. iApply (last_child_spec with "H1"); [exact Hok0|exact Hok1|]. iIntros "H1".
  destruct (decide (t1 = Leaf)) as [->|Hne1]; [destruct (decide (t0 = Leaf)) as [->|Hne0]|].
  - (* no children *)
    cbn [tree_at]. wp_load "H0". unfold ZEND_MM_FREE_BLOCK_SIZE. wp_load "Hs". wp_bind. iApply (check_tree_spec with "Hpar Hslot"). iIntros "Hpar Hslot".
    wp_load "Hpar". wp_store "Hslot". wp_load "Hpar". iSpecialize ("HΦ" $! Leaf with "[//] Hslot"). unfold bitmap_without.
    iAssert (freed b s) with "[Hs Hpar Hprev Hnext H0 H1 Hrest]" as "Hfreed"; [by iApply (freed_intro with "Hs [$Hpar] [$Hprev] [$Hnext] [$H0] [$H1] Hrest")|].
    destruct (Z.eqb_spec slot (root s)) as [Heq|Hne].
    + rewrite decide_True //. wp_load "Hbm". wp_store "Hbm". iApply ("HΦ" with "Hbm Hfreed").
    + rewrite decide_False; [|naive_solver]. wp_ret. iApply ("HΦ" with "Hbm Hfreed").
  - (* a leaf on the left takes its place *)
    destruct Hcase as [(-> & -> & ->)|[? _]]; [|done]. iDestruct (tree_at_top with "H0") as "[Htop H0]". wp_load "Htop". rewrite (top_0 k0 lo); [|done].
    iSpecialize ("H0" with "Htop"). rewrite bool_decide_eq_false_2; [|done]. wp_bind. iApply (leaf_loop_spec with "H0"); [done|done|lia|].
    iIntros (q s' rs' slot' (Hq & Hq1 & Hq2 & Hq3)) "(Hslot' & Hqs & Hqpar & Hqring & Hqmem & Hqrest & Hq0 & Hq1) H0". wp_store "Hslot'".
    iDestruct ("H0" with "Hslot'") as (t0' [Hok0' Hel]) "H0".
    iApply (subst_block_spec with "Hslot Hpar H0 H1 Hqpar Hq0 Hq1"); [done|done|].
    iIntros "Hslot Hqpar H0 H1 Hpar Hb0 Hb1". iSpecialize ("HΦ" $! (Node q s' rs' t0' Leaf)). rewrite bitmap_without_node; [|done].
    iApply ("HΦ" with "[%] [$Hslot $Hqs $Hqpar $Hqring $Hqmem $Hqrest $H0 $H1] Hbm [Hs Hpar Hprev Hnext Hb0 Hb1 Hrest]").
    + split; [|cbn [elements] in *; rewrite Hel; solve_Permutation]. split; [done|]. do 2 (split; [done|]). split; [rewrite pow_succ_nat; lia|done].
    + by iApply (freed_intro with "Hs [$Hpar] [$Hprev] [$Hnext] Hb0 Hb1 Hrest").
  - (* one on the right *)
    destruct Hcase as [(-> & -> & ->)|[_ ?]]; [|done]. iDestruct (tree_at_top with "H1") as "[Htop H1]". wp_load "Htop". rewrite (top_0 k0 (lo + 2 ^ Z.of_nat k0)); [|done].
    iSpecialize ("H1" with "Htop"). rewrite bool_decide_eq_false_2; [|done]. wp_bind. iApply (leaf_loop_spec with "H1"); [done|done|lia|].
    iIntros (q s' rs' slot' (Hq & Hq1 & Hq2 & Hq3)) "(Hslot' & Hqs & Hqpar & Hqring & Hqmem & Hqrest & Hq0 & Hq1) H1". wp_store "Hslot'".
    iDestruct ("H1" with "Hslot'") as (t1' [Hok1' Hel]) "H1".
    iApply (subst_block_spec with "Hslot Hpar H0 H1 Hqpar Hq0 Hq1"); [done|done|].
    iIntros "Hslot Hqpar H0 H1 Hpar Hb0 Hb1". iSpecialize ("HΦ" $! (Node q s' rs' t0 t1')). rewrite bitmap_without_node; [|done].
    iApply ("HΦ" with "[%] [$Hslot $Hqs $Hqpar $Hqring $Hqmem $Hqrest $H0 $H1] Hbm [Hs Hpar Hprev Hnext Hb0 Hb1 Hrest]").
    + split; [|cbn [elements] in *; rewrite Hel; solve_Permutation]. split; [done|]. do 2 (split; [done|]).
      split; [pose proof (Z.pow_nonneg 2 (Z.of_nat k0)); rewrite pow_succ_nat; lia|done].
    + by iApply (freed_intro with "Hs [$Hpar] [$Hprev] [$Hnext] Hb0 Hb1 Hrest").
Qed.

(** a block that is not alone in its ring *)
Lemma unlink_spec a l1 q l2 z (Φ : unit → hpropI) Ψ :
  path a l1 q -∗ path q l2 z -∗
  (prev_free_block q ↦ default a (last l1) -∗ next_free_block q ↦ hd z l2 -∗ path a (l1 ++ l2) z -∗
    wp (unlinked heap q (default a (last l1)) (hd z l2)) Φ Ψ) -∗
  wp (zend_mm_remove_from_free_list heap q) Φ Ψ.
Proof.
  iIntros "H1 H2 HΦ". iDestruct (path_unlink with "[$H1 $H2]") as "(Hprev & Hnext & Hp & Hn & Hpath)". unfold zend_mm_remove_from_free_list.
  wp_load "Hprev". wp_load "Hnext". iDestruct (points_to_ne with "[$Hnext $Hp]") as %Hne.
  destruct (Z.eqb_spec (default a (last l1)) q) as [Heq|_]; [by rewrite Heq in Hne|].
  wp_load "Hp". rewrite Z.eqb_refl. cbn [negb]. wp_load "Hn". rewrite Z.eqb_refl. cbn [negb]. wp_store "Hp". wp_store "Hn".
  iApply ("HΦ" with "Hprev Hnext"). iApply ("Hpath" with "Hp Hn").
Qed.

(** the slots of a tree are not [r], the root of some bucket *)
Fixpoint slots_below (r : Z) (t : tree) : Prop :=
  match t with
  | Leaf => True
  | Node b _ _ t0 t1 => (child b 0 ≠ r ∧ slots_below r t0) ∧ (child b 1 ≠ r ∧ slots_below r t1)
  end.

Lemma slots_below_intro r v slot t : r ↦ v ∗ tree_at slot t ⊢ ⌜slot ≠ r ∧ slots_below r t⌝.
Proof.
  revert slot. induction t as [|b s rs t0 IH0 t1 IH1]; intros slot; cbn [tree_at slots_below].
  - iIntros "[H1 H2]". iDestruct (points_to_ne with "[$H1 $H2]") as %Hne. iPureIntro. split; [by intros ->|done].
  - iIntros "[Hr (Hslot & _ & _ & _ & _ & _ & H0 & H1)]". iDestruct (points_to_ne with "[$Hr $Hslot]") as %Hne.
    iDestruct (IH0 with "[$Hr $H0]") as %H0. iDestruct (IH1 with "[$Hr $H1]") as %H1. iPureIntro. split; [by intros ->|done].
Qed.

Lemma slots_below_root slot t : tree_at slot t ⊢ ⌜slots_below slot t⌝.
Proof.
  destruct t as [|b s rs t0 t1]; cbn [tree_at slots_below]; [by iIntros "_"|].
  iIntros "(Hslot & _ & _ & _ & _ & _ & H0 & H1)". iDestruct (slots_below_intro with "[$Hslot $H0]") as %H0.
  by iDestruct (slots_below_intro with "[$Hslot $H1]") as %H1.
Qed.

Lemma member_freed b s v : good_size s → 544 ≤ s →
  info_size b ↦ s -∗ parent b ↦ v -∗ span (b + 40) (b + s) -∗ (∃ v, prev_free_block b ↦ v) -∗ (∃ v, next_free_block b ↦ v) -∗ freed b s.
Proof. iIntros (Hs Hl) "$ H1 H2 H3 H4". rewrite links_words; [|done]. rewrite parent_word; [|done..]. iFrame. Qed.

(** the block of a tree node that has others of its size: one of them takes its place *)
Lemma remove_head_spec k lo slot b s rs x t0 t1 bm (Φ : unit → hpropI) Ψ :
  tree_ok k lo (Node b s (rs ++ [x]) t0 t1) → 1 < slot →
  tree_at slot (Node b s (rs ++ [x]) t0 t1) -∗ large_free_bitmap heap ↦ bm -∗
  (tree_at slot (Node x s rs t0 t1) -∗ large_free_bitmap heap ↦ bm -∗ freed b s -∗ Φ tt) -∗
  wp (zend_mm_remove_from_free_list heap b) Φ Ψ.
Proof.
  iIntros (Hok Hslot) "(Hslot & Hs & Hpar & Hring & Hmem & Hrest & H0 & H1) Hbm HΦ".
  rewrite ring_rotate. unfold ring. change (b :: rs) with ([] ++ b :: rs). rewrite path_app. iDestruct "Hring" as "[Hr1 Hr2]".
  destruct Hok as (Hb & Hg & Hl & Hlo & Hsub).
  assert (Hsub' : ∃ k0 lo0 lo1, tree_ok k0 lo0 t0 ∧ tree_ok k0 lo1 t1).
  { destruct k as [|k]; [destruct Hsub as [-> ->]; by exists 0%nat, 0, 0|destruct Hsub; by eexists _, _, _]. }
  destruct Hsub' as (k0 & lo0 & lo1 & Hok0 & Hok1).
  iApply (unlink_spec with "Hr1 Hr2"). iIntros "Hprev Hnext Hring". cbn [last default app].
  unfold unlinked, ZEND_MM_FREE_BLOCK_SIZE. wp_load "Hs". rewrite small_size. destruct (Z.ltb_spec s 544); [lia|]. wp_load "Hpar".
  unfold ZEND_MM_REST_BLOCK. destruct (Z.eqb_spec slot 1); [lia|]. destruct (Z.eqb_spec slot 0); [lia|]. cbn [negb].
  rewrite big_sepL_app big_sepL_singleton. iDestruct "Hmem" as "[Hmem (Hxs & Hxpar & Hxrest)]". rewrite children_words; [|done..].
  iDestruct "Hxrest" as "([% Hx0] & [% Hx1] & Hxrest)". iApply (subst_block_spec with "Hslot Hpar H0 H1 Hxpar Hx0 Hx1"); [done|done|].
  iIntros "Hslot Hxpar H0 H1 Hpar Hb0 Hb1". iApply ("HΦ" with "[$Hslot $Hxs $Hxpar $Hring $Hmem $Hxrest $H0 $H1] Hbm").
  by iApply (freed_intro with "Hs [$Hpar] [$Hprev] [$Hnext] Hb0 Hb1 Hrest").
Qed.

(** another block of the ring *)
Lemma remove_member_spec b s r1 q r2 bm (Φ : unit → hpropI) Ψ : good_size s → 544 ≤ s →
  ring b (r1 ++ q :: r2) -∗ member s q -∗ large_free_bitmap heap ↦ bm -∗
  (ring b (r1 ++ r2) -∗ large_free_bitmap heap ↦ bm -∗ freed q s -∗ Φ tt) -∗
  wp (zend_mm_remove_from_free_list heap q) Φ Ψ.
Proof.
  iIntros (Hg Hl) "Hring (Hs & Hpar & Hrest) Hbm HΦ". unfold ring. rewrite path_app. iDestruct "Hring" as "[Hr1 Hr2]".
  iApply (unlink_spec with "Hr1 Hr2"). iIntros "Hprev Hnext Hring".
  unfold unlinked, ZEND_MM_FREE_BLOCK_SIZE. wp_load "Hs". rewrite small_size. destruct (Z.ltb_spec s 544); [lia|]. wp_load "Hpar". wp_ret.
  iApply ("HΦ" with "Hring Hbm"). by iApply (member_freed with "Hs Hpar Hrest [$Hprev] [$Hnext]").
Qed.

Lemma tree_remove k lo slot t b s bm (Φ : unit → hpropI) Ψ :
  tree_ok k lo t → (k < 65)%nat → 1 < slot → slots_below (root s) t → (b, s) ∈ elements t →
  tree_at slot t -∗ large_free_bitmap heap ↦ bm -∗
  (∀ t', ⌜tree_ok k lo t' ∧ elements t ≡ₚ (b, s) :: elements t'⌝ -∗ tree_at slot t' -∗
    large_free_bitmap heap ↦ bitmap_without slot s t' bm -∗ freed b s -∗ Φ tt) -∗
  wp (zend_mm_remove_from_free_list heap b) Φ Ψ.
Proof.
  revert k lo slot Φ. induction t as [|b' s' rs t0 IH0 t1 IH1]; intros k lo slot Φ Hok Hk Hslot Hbelow Hin; [by apply not_elem_of_nil in Hin|].
  iIntros "Ht Hbm HΦ". cbn [elements] in Hin. rewrite elem_of_cons !elem_of_app in Hin.
  destruct Hin as [[= -> ->]|[Hin|[Hin|Hin]]].
  - (* the node *)
    destruct rs as [|x rs _] using rev_ind.
    + unfold zend_mm_remove_from_free_list. iDestruct "Ht" as "(Hslot & Hs & Hpar & [Hnext Hprev] & Hmem)".
      wp_load "Hprev". wp_load "Hnext". rewrite !Z.eqb_refl. cbn [negb].
      iApply (remove_tree_node_spec with "[$Hslot $Hs $Hpar $Hmem $Hnext $Hprev] Hbm"); [done|done|].
      iIntros (t' [Hok' Hel]) "Ht Hbm Hfreed". iApply ("HΦ" with "[%] Ht Hbm Hfreed"). split; [done|]. cbn [elements fmap list_fmap app]. by rewrite Hel.
    + iApply (remove_head_spec with "Ht Hbm"); [done|done|]. iIntros "Ht Hbm Hfreed". iSpecialize ("HΦ" $! (Node x s' rs t0 t1)).
      rewrite bitmap_without_node; [|done]. iApply ("HΦ" with "[%] Ht Hbm Hfreed"). split.
      { cbn [tree_ok] in Hok |- *. rewrite Forall_cons Forall_app in Hok. rewrite Forall_cons. rewrite Forall_singleton in Hok. naive_solver. }
      cbn [elements]. rewrite fmap_app. cbn [fmap list_fmap]. solve_Permutation.
  - (* its ring *)
    apply list_elem_of_fmap in Hin as (q & [= -> ->] & Hq). apply list_elem_of_split in Hq as (r1 & r2 & ->).
    iDestruct "Ht" as "(Hslot & Hs & Hpar & Hring & Hmem & Hrest & H0 & H1)". rewrite big_sepL_app big_sepL_cons. iDestruct "Hmem" as "(Hm1 & Hq & Hm2)".
    assert (good_size s' ∧ 544 ≤ s') as [Hg Hl] by (destruct Hok as (? & ? & ? & _); done).
    iApply (remove_member_spec with "Hring Hq Hbm"); [done|done|]. iIntros "Hring Hbm Hfreed". iSpecialize ("HΦ" $! (Node b' s' (r1 ++ r2) t0 t1)).
    rewrite bitmap_without_node; [|done]. iApply ("HΦ" with "[%] [$Hslot $Hs $Hpar $Hring $Hm1 $Hm2 $Hrest $H0 $H1] Hbm Hfreed"). split.
    { cbn [tree_ok] in Hok |- *. rewrite Forall_cons Forall_app Forall_cons in Hok. rewrite Forall_cons Forall_app. naive_solver. }
    cbn [elements]. rewrite !fmap_app. cbn [fmap list_fmap]. solve_Permutation.
  - (* the left subtree *)
    iDestruct "Ht" as "(Hslot & Hs & Hpar & Hring & Hmem & Hrest & H0 & H1)". destruct Hok as (Hb & Hg & Hl & Hlo & Hsub).
    destruct k as [|k]; [destruct Hsub as [-> _]; by apply not_elem_of_nil in Hin|]. destruct Hsub as [Hok0 Hok1]. destruct Hbelow as [[Hne Hbelow] _].
    iApply (IH0 k with "H0 Hbm"); [done|lia|apply Forall_cons_1 in Hb as [Hb _]; unfold child; lia|done|done|]. iIntros (t0' [Hok0' Hel]) "H0 Hbm Hfreed". iSpecialize ("HΦ" $! (Node b' s' rs t0' t1)).
    rewrite bitmap_without_node; [|done]. unfold bitmap_without. rewrite decide_False; [|naive_solver].
    iApply ("HΦ" with "[%] [$Hslot $Hs $Hpar $Hring $Hmem $Hrest $H0 $H1] Hbm Hfreed"). split; [done|]. cbn [elements]. rewrite Hel. solve_Permutation.
  - (* the right one *)
    iDestruct "Ht" as "(Hslot & Hs & Hpar & Hring & Hmem & Hrest & H0 & H1)". destruct Hok as (Hb & Hg & Hl & Hlo & Hsub).
    destruct k as [|k]; [destruct Hsub as [_ ->]; by apply not_elem_of_nil in Hin|]. destruct Hsub as [Hok0 Hok1]. destruct Hbelow as [_ [Hne Hbelow]].
    iApply (IH1 k with "H1 Hbm"); [done|lia|apply Forall_cons_1 in Hb as [Hb _]; unfold child; lia|done|done|]. iIntros (t1' [Hok1' Hel]) "H1 Hbm Hfreed". iSpecialize ("HΦ" $! (Node b' s' rs t0 t1')).
    rewrite bitmap_without_node; [|done]. unfold bitmap_without. rewrite decide_False; [|naive_solver].
    iApply ("HΦ" with "[%] [$Hslot $Hs $Hpar $Hring $Hmem $Hrest $H0 $H1] Hbm Hfreed"). split; [done|]. cbn [elements]. rewrite Hel. solve_Permutation.
Qed.

End remove.

(** ** Search *)

Inductive sub (t : tree) : tree → Prop :=
| sub_refl : sub t t
| sub_0 b s rs t0 t1 : sub t t0 → sub t (Node b s rs t0 t1)
| sub_1 b s rs t0 t1 : sub t t1 → sub t (Node b s rs t0 t1).

Lemma sub_children b s rs t0 t1 T : sub (Node b s rs t0 t1) T → sub t0 T ∧ sub t1 T.
Proof.
  induction T as [|b' s' rs' t0' IH0 t1' IH1]; intros H; inversion H; subst.
  - split; [apply sub_0|apply sub_1]; apply sub_refl.
  - destruct IH0; [done|]. by split; apply sub_0.
  - destruct IH1; [done|]. by split; apply sub_1.
Qed.

Lemma sub_elements t T x : sub t T → x ∈ elements t → x ∈ elements T.
Proof. induction 1; [done|..]; intros Hx; cbn [elements]; rewrite elem_of_cons !elem_of_app; naive_solver. Qed.

Lemma head_element b s rs t0 t1 : (hd b rs, s) ∈ elements (Node b s rs t0 t1).
Proof. cbn [elements]. rewrite elem_of_cons elem_of_app. destruct rs as [|q rs]; cbn [hd fmap list_fmap]; [by left|right; left; apply list_elem_of_here]. Qed.

Lemma elements_range k lo t b s : tree_ok k lo t → (b, s) ∈ elements t → lo ≤ s < lo + 2 ^ Z.of_nat k ∧ good_size s ∧ 544 ≤ s ∧ 0 < b.
Proof.
  revert k lo. induction t as [|b' s' rs t0 IH0 t1 IH1]; intros k lo Hok Hin; [by apply not_elem_of_nil in Hin|].
  cbn [elements] in Hin. rewrite elem_of_cons !elem_of_app in Hin. destruct Hok as (Hb & Hg & Hl & Hlo & Hsub). rewrite Forall_cons in Hb.
  destruct Hin as [[= -> ->]|[Hin|Hin]]; [naive_solver| |].
  - apply list_elem_of_fmap in Hin as (q & [= -> ->] & Hq). destruct Hb as [_ Hb]. rewrite Forall_forall in Hb. naive_solver.
  - destruct k as [|k]; [destruct Hsub as [-> ->]; destruct Hin as [Hin|Hin]; by apply not_elem_of_nil in Hin|].
    destruct Hsub as [Hok0 Hok1]. pose proof (pow_succ_nat k). pose proof (Z.pow_nonneg 2 (Z.of_nat k)).
    destruct Hin as [Hin|Hin]; [destruct (IH0 _ _ Hok0 Hin) as [? ?]|destruct (IH1 _ _ Hok1 Hin) as [? ?]]; (split; [lia|done]).
Qed.

Section read.
Context (T : tree) (slot b s : Z) (rs : list Z) (t0 t1 : tree).
Hypothesis Hsub : sub (Node b s rs t0 t1) T.

Lemma sub_access t : sub t T → tree_at slot T ⊢ ∃ slot', tree_at slot' t ∗ (tree_at slot' t -∗ tree_at slot T).
Proof using Type.
  clear Hsub. intros H. revert slot. induction H as [|b' s' rs' t0' t1' H IH|b' s' rs' t0' t1' H IH]; intros slot'; iIntros "Ht".
  - iExists slot'. iFrame. by iIntros "$".
  - iDestruct "Ht" as "(H1 & H2 & H3 & H4 & H5 & H6 & H7 & H8)". iDestruct (IH with "H7") as (slot'') "[Ht H7]". iExists slot''. iFrame "Ht".
    iIntros "Ht". iSpecialize ("H7" with "Ht"). iFrame.
  - iDestruct "Ht" as "(H1 & H2 & H3 & H4 & H5 & H6 & H7 & H8)". iDestruct (IH with "H8") as (slot'') "[Ht H8]". iExists slot''. iFrame "Ht".
    iIntros "Ht". iSpecialize ("H8" with "Ht"). iFrame.
Qed.

Lemma read_size Φ Ψ : tree_at slot T -∗ (tree_at slot T -∗ Φ s) -∗ wp (ZEND_MM_FREE_BLOCK_SIZE b) Φ Ψ.
Proof using Hsub.
  iIntros "Ht HΦ". iDestruct (sub_access _ Hsub with "Ht") as (slot') "[(H1 & H2 & H3) Ht]". unfold ZEND_MM_FREE_BLOCK_SIZE. wp_load "H2".
  iApply "HΦ". iApply "Ht". iFrame.
Qed.

Lemma read_next Φ Ψ : tree_at slot T -∗ (tree_at slot T -∗ Φ (hd b rs)) -∗ wp (rd (next_free_block b)) Φ Ψ.
Proof using Hsub.
  iIntros "Ht HΦ". iDestruct (sub_access _ Hsub with "Ht") as (slot') "[(H1 & H2 & H3 & H4 & H5) Ht]". unfold ring.
  iDestruct (path_head with "H4") as "(Hn & Hp & H4)". wp_load "Hn". iApply "HΦ". iApply "Ht". iFrame. iApply ("H4" with "Hn Hp").
Qed.

Lemma read_child_0 Φ Ψ : tree_at slot T -∗ (tree_at slot T -∗ Φ (top t0)) -∗ wp (rd (child b 0)) Φ Ψ.
Proof using Hsub.
  iIntros "Ht HΦ". iDestruct (sub_access _ Hsub with "Ht") as (slot') "[(H1 & H2 & H3 & H4 & H5 & H6 & H7 & H8) Ht]".
  iDestruct (tree_at_top with "H7") as "[Hw H7]". wp_load "Hw". iSpecialize ("H7" with "Hw"). iApply "HΦ". iApply "Ht". iFrame.
Qed.

Lemma read_child_1 Φ Ψ : tree_at slot T -∗ (tree_at slot T -∗ Φ (top t1)) -∗ wp (rd (child b 1)) Φ Ψ.
Proof using Hsub.
  iIntros "Ht HΦ". iDestruct (sub_access _ Hsub with "Ht") as (slot') "[(H1 & H2 & H3 & H4 & H5 & H6 & H7 & H8) Ht]".
  iDestruct (tree_at_top with "H8") as "[Hw H8]". wp_load "Hw". iSpecialize ("H8" with "Hw"). iApply "HΦ". iApply "Ht". iFrame.
Qed.

End read.

Section search.
Context (T : tree) (slot ts : Z).

(** the best fit so far *)
Definition fits (bf bs : Z) : Prop :=
  (bf = 0 ∧ bs = SIZE_MAX) ∨ (0 < bf ∧ ts ≤ bs ∧ ∃ rs t0 t1, sub (Node bf bs rs t0 t1) T).
(** a subtree whose blocks are all larger *)
Definition larger (t : tree) : Prop :=
  t = Leaf ∨ (sub t T ∧ ∃ k lo, (k < 65)%nat ∧ tree_ok k lo t ∧ ts < lo).

(** one more candidate *)
Lemma fits_update (b s bf bs : Z) (test : bool) rs t0 t1 :
  fits bf bs → sub (Node b s rs t0 t1) T → 0 < b → good_size s → (test = true → ts ≤ s) → (ts ≤ s → s ≠ ts → test = true) → s ≠ ts →
  let '(bf', bs') := if test && (s <? bs) then (b, s) else (bf, bs) in
  fits bf' bs' ∧ (bf' = 0 → bf = 0 ∧ s < ts).
Proof using Type.
  intros Hf Hsub Hb [Hg [q Hq]] Ht1 Ht2 Hne. destruct test; cbn [andb]; [destruct (Z.ltb_spec s bs)|].
  - split; [right; split; [done|]; split; [by apply Ht1|by eexists _, _, _]|lia].
  - split; [done|]. intros ->. destruct Hf as [[_ ->]|[? _]]; [|lia]. unfold SIZE_MAX in *. lia.
  - split; [done|]. intros ->. split; [done|]. destruct (Z.lt_ge_cases s ts) as [|Hge]; [done|]. by specialize (Ht2 Hge Hne).
Qed.

Definition path_post (t tr : tree) (bf : Z) (r : Z + Z * Z * Z) : Prop :=
  match r with
  | inl q => (q, ts) ∈ elements T
  | inr (bf', bs', rst') =>
      fits bf' bs' ∧ (∀ b, (b, ts) ∉ elements t) ∧
      ∃ tr', rst' = top tr' ∧ larger tr' ∧ (tr' = Leaf → tr = Leaf ∧ (bf' = 0 → bf = 0 ∧ ∀ b s, (b, s) ∈ elements t → s < ts))
  end.

Lemma search_path_spec fuel k lo t tr bf bs Φ Ψ :
  sub t T → t ≠ Leaf → tree_ok k lo t → (2 ^ Z.of_nat k | lo) → lo ≤ ts < lo + 2 ^ Z.of_nat k → (k ≤ 64)%nat → (k < fuel)%nat →
  fits bf bs → larger tr →
  tree_at slot T -∗ (∀ r, ⌜path_post t tr bf r⌝ -∗ tree_at slot T -∗ Φ r) -∗
  wp (search_path_loop fuel ts (bits_left ts (Z.of_nat k)) (top t) bf bs (top tr)) Φ Ψ.
Proof using Type.
  revert k lo t tr bf bs. induction fuel as [|fuel IH]; intros k lo t tr bf bs Hsub Hne Hok Hlo Hts Hk Hf Hfits Hlarger; [lia|].
  destruct t as [|p s rs t0 t1]; [done|]. iIntros "HT HΦ". cbn [search_path_loop top]. wp_bind. iApply (read_size with "HT"); [done|]. iIntros "HT".
  destruct (Z.eqb_spec s ts) as [->|Hss].
  { wp_bind. iApply (read_next with "HT"); [done|]. iIntros "HT". wp_ret. iApply ("HΦ" with "[%] HT"). cbn. eapply sub_elements; [done|apply head_element]. }
  destruct (sub_children _ _ _ _ _ _ Hsub) as [Hsub0 Hsub1]. pose proof Hok as (Hb & Hg & Hl & Hs & Hchildren). apply Forall_cons_1 in Hb as [Hb _].
  destruct k as [|k]; [cbn in Hts, Hs; lia|]. destruct Hchildren as [Hok0 Hok1]. pose proof (pow_succ_nat k) as Hpow.
  pose proof (fits_update p s bf bs (s >=? ts) rs t0 t1 Hfits Hsub Hb Hg ltac:(lia) ltac:(lia) Hss) as Hbest.
  destruct (if (s >=? ts) && (s <? bs) then (p, s) else (bf, bs)) as [bf1 bs1]. destruct Hbest as [Hfits1 Hbf1].
  change (bit (ZEND_MM_NUM_BUCKETS - 1)) with (bit 63). rewrite top_bit_clear; [|apply u64_range]. rewrite bits_left_top; [|lia].
  replace (Z.of_nat (S k) - 1) with (Z.of_nat k) by lia. rewrite (branch_bit lo); [|lia|by replace (Z.of_nat k + 1) with (Z.of_nat (S k)) by lia..].
  rewrite bits_left_next; [|lia]. replace (Z.of_nat (S k) - 1) with (Z.of_nat k) by lia.
  assert (Hlo' : (2 ^ Z.of_nat k | lo)) by (destruct Hlo as [q ->]; exists (q * 2); lia).
  assert (Hring : ∀ b s', (b, s') ∈ elements (Node p s rs t0 t1) → s' = s ∨ (b, s') ∈ elements t0 ∨ (b, s') ∈ elements t1).
  { intros b s' Hin. cbn [elements] in Hin. rewrite elem_of_cons !elem_of_app list_elem_of_fmap in Hin. naive_solver. }
  assert (Hr0 : ∀ b s', (b, s') ∈ elements t0 → s' < lo + 2 ^ Z.of_nat k) by (intros b s' Hin; destruct (elements_range _ _ _ _ _ Hok0 Hin); lia).
  assert (Hr1 : ∀ b s', (b, s') ∈ elements t1 → lo + 2 ^ Z.of_nat k ≤ s') by (intros b s' Hin; destruct (elements_range _ _ _ _ _ Hok1 Hin); lia).
  destruct (Z.leb_spec (lo + 2 ^ Z.of_nat k) ts) as [Hge|Hlt]; cbn [negb].
  - (* right *)
    wp_bind. iApply (read_child_1 with "HT"); [done|]. iIntros "HT". rewrite (top_0 k (lo + 2 ^ Z.of_nat k)); [|done]. case_bool_decide as Ht1; cbn [negb].
    + wp_ret. iApply ("HΦ" with "[%] HT"). split; [done|]. subst t1. split.
      * intros b Hin. destruct (Hring _ _ Hin) as [|[Hin0|Hin1]]; [lia| |by apply not_elem_of_nil in Hin1]. specialize (Hr0 _ _ Hin0). lia.
      * exists tr. split; [done|]. split; [done|]. intros ->. split; [done|]. intros Hbf. split; [naive_solver|].
        intros b s' Hin. destruct (Hring _ _ Hin) as [->|[Hin0|Hin1]]; [naive_solver|specialize (Hr0 _ _ Hin0); lia|by apply not_elem_of_nil in Hin1].
    + iApply (IH k (lo + 2 ^ Z.of_nat k) t1 tr bf1 bs1 with "HT"); try done; [by apply Z.divide_add_r; [done|exists 1; lia]|lia..|].
      iIntros (r Hpost) "HT". iApply ("HΦ" with "[%] HT"). destruct r as [q|[[bf' bs'] rst']]; [done|].
      destruct Hpost as (Hf' & Hex & tr' & Htr' & Hlarger' & Hcomplete). split; [done|]. split.
      * intros b Hin. destruct (Hring _ _ Hin) as [|[Hin0|Hin1]]; [lia| |by eapply Hex]. specialize (Hr0 _ _ Hin0). lia.
      * exists tr'. split; [done|]. split; [done|]. intros Hl'. destruct (Hcomplete Hl') as [Htr Hc]. split; [done|]. intros Hbf. destruct (Hc Hbf) as [Hz Hall].
        split; [naive_solver|]. intros b s' Hin. destruct (Hring _ _ Hin) as [->|[Hin0|Hin1]]; [naive_solver|specialize (Hr0 _ _ Hin0); lia|by eapply Hall].
  - (* left, and what is on the right is larger *)
    wp_bind. iApply (read_child_1 with "HT"); [done|]. iIntros "HT". wp_bind. iApply (read_child_0 with "HT"); [done|]. iIntros "HT".
    rewrite (top_0 k (lo + 2 ^ Z.of_nat k) t1); [|done]. rewrite (top_0 k lo t0); [|done].
    set (tr1 := if decide (t1 = Leaf) then tr else t1).
    replace (if negb (bool_decide (t1 = Leaf)) then top t1 else top tr) with (top tr1) by (unfold tr1; case_bool_decide; by destruct (decide (t1 = Leaf))).
    assert (Hlarger1 : larger tr1).
    { unfold tr1. destruct (decide (t1 = Leaf)); [done|]. right. split; [done|]. exists k, (lo + 2 ^ Z.of_nat k). split; [lia|]. by split. }
    assert (Htr1 : tr1 = Leaf → t1 = Leaf ∧ tr = Leaf) by (unfold tr1; destruct (decide (t1 = Leaf)); naive_solver).
    case_bool_decide as Ht0; cbn [negb].
    + wp_ret. iApply ("HΦ" with "[%] HT"). split; [done|]. subst t0. split.
      * intros b Hin. destruct (Hring _ _ Hin) as [|[Hin0|Hin1]]; [lia|by apply not_elem_of_nil in Hin0|]. specialize (Hr1 _ _ Hin1). lia.
      * exists tr1. split; [done|]. split; [done|]. intros Hl'. destruct (Htr1 Hl') as [-> ->]. split; [done|]. intros Hbf. split; [naive_solver|].
        intros b s' Hin. destruct (Hring _ _ Hin) as [->|[Hin0|Hin1]]; [naive_solver|by apply not_elem_of_nil in Hin0|by apply not_elem_of_nil in Hin1].
    + iApply (IH k lo t0 tr1 bf1 bs1 with "HT"); try done; [lia..|].
      iIntros (r Hpost) "HT". iApply ("HΦ" with "[%] HT"). destruct r as [q|[[bf' bs'] rst']]; [done|].
      destruct Hpost as (Hf' & Hex & tr' & Htr' & Hlarger' & Hcomplete). split; [done|]. split.
      * intros b Hin. destruct (Hring _ _ Hin) as [|[Hin0|Hin1]]; [lia|by eapply Hex|]. specialize (Hr1 _ _ Hin1). lia.
      * exists tr'. split; [done|]. split; [done|]. intros Hl'. destruct (Hcomplete Hl') as [Htr Hc]. destruct (Htr1 Htr) as [-> ->]. split; [done|]. intros Hbf.
        destruct (Hc Hbf) as [Hz Hall]. split; [naive_solver|].
        intros b s' Hin. destruct (Hring _ _ Hin) as [->|[Hin0|Hin1]]; [naive_solver|by eapply Hall|by apply not_elem_of_nil in Hin1].
Qed.

(** the loop over the rest: it may miss the best fit, but finds one when there is one *)
Lemma search_rest_spec fuel k lo t bf bs Φ Ψ :
  (t = Leaf ∨ sub t T ∧ tree_ok k lo t ∧ ts < lo ∧ (k < fuel)%nat) → fits bf bs →
  tree_at slot T -∗
  (∀ bf', ⌜(∃ bs', fits bf' bs') ∧ (bf' = 0 → t = Leaf ∧ bf = 0)⌝ -∗ tree_at slot T -∗ Φ (inr bf')) -∗
  wp (search_rest_loop fuel ts (top t) bf bs) Φ Ψ.
Proof using Type.
  revert k lo t bf bs. induction fuel as [|fuel IH]; intros k lo t bf bs Hcase Hfits; iIntros "HT HΦ".
  all: destruct Hcase as [->|(Hsub & Hok & Hts & Hf)]; [cbn; wp_ret; iApply ("HΦ" with "[%] HT"); split; [by exists bs|done]|]; try lia.
  destruct t as [|p s rs t0 t1]; [cbn; wp_ret; iApply ("HΦ" with "[%] HT"); split; [by exists bs|done]|].
  destruct (sub_children _ _ _ _ _ _ Hsub) as [Hsub0 Hsub1]. pose proof Hok as (Hb & Hg & Hl & Hs & Hchildren). apply Forall_cons_1 in Hb as [Hb _].
  cbn [search_rest_loop top]. destruct (Z.eqb_spec p 0); [lia|]. wp_bind. iApply (read_size with "HT"); [done|]. iIntros "HT".
  destruct (Z.eqb_spec s ts); [lia|].
  pose proof (fits_update p s bf bs (s >? ts) rs t0 t1 Hfits Hsub Hb Hg ltac:(lia) ltac:(lia) ltac:(done)) as Hbest.
  destruct (if (s >? ts) && (s <? bs) then (p, s) else (bf, bs)) as [bf1 bs1]. destruct Hbest as [Hfits1 Hbf1].
  assert (Hnext : ∃ k' lo', tree_ok k' lo' t0 ∧ (t1 = Leaf ∨ sub t1 T ∧ tree_ok k' (lo' + 2 ^ Z.of_nat k') t1 ∧ ts < lo' + 2 ^ Z.of_nat k' ∧ (k' < fuel)%nat)).
  { destruct k as [|k]; [destruct Hchildren as [-> ->]; exists 0%nat, 0; split; [done|by left]|].
    destruct Hchildren as [Hok0 Hok1]. exists k, lo. split; [done|]. right. split; [done|]. split; [done|]. split; [|lia]. pose proof (Z.pow_nonneg 2 (Z.of_nat k)). lia. }
  destruct Hnext as (k' & lo' & Hok0 & Hnext). unfold next_smaller. wp_bind. wp_bind. iApply (read_child_0 with "HT"); [done|]. iIntros "HT".
  rewrite (top_0 k' lo'); [|done]. case_bool_decide as Ht0; cbn [negb].
  - iApply (read_child_0 with "HT"); [done|]. iIntros "HT". iApply (IH 0%nat 0 t0 with "HT"); [by left|done|]. iIntros (bf' [Hf' Hc]) "HT".
    iApply ("HΦ" with "[%] HT"). split; [done|]. intros ->. destruct (Hc eq_refl) as [_ Hz]. destruct (Hbf1 Hz). lia.
  - iApply (read_child_1 with "HT"); [done|]. iIntros "HT". iApply (IH k' (lo' + 2 ^ Z.of_nat k') t1 with "HT"); [done|done|]. iIntros (bf' [Hf' Hc]) "HT".
    iApply ("HΦ" with "[%] HT"). split; [done|]. intros ->. destruct (Hc eq_refl) as [_ Hz]. destruct (Hbf1 Hz). lia.
Qed.

(** the loop over a tree whose blocks all fit *)
Lemma search_smallest_spec fuel k lo p s rs t0 t1 b sb rsb t0b t1b Φ Ψ :
  sub (Node p s rs t0 t1) T → tree_ok k lo (Node p s rs t0 t1) → (k ≤ fuel)%nat → sub (Node b sb rsb t0b t1b) T →
  tree_at slot T -∗
  (∀ b' s' rs' t0' t1', ⌜sub (Node b' s' rs' t0' t1') T⌝ -∗ tree_at slot T -∗ Φ b') -∗
  wp (search_smallest_loop fuel p b) Φ Ψ.
Proof using Type.
  revert k lo p s rs t0 t1 b sb rsb t0b t1b. induction fuel as [|fuel IH]; intros k lo p s rs t0 t1 b sb rsb t0b t1b Hsub Hok Hf Hbest; iIntros "HT HΦ";
    destruct (sub_children _ _ _ _ _ _ Hsub) as [Hsub0 Hsub1]; destruct Hok as (Hb & Hg & Hl & Hs & Hchildren);
    cbn [search_smallest_loop]; unfold next_smaller; wp_bind; wp_bind; (iApply (read_child_0 with "HT"); [done|]); iIntros "HT".
  - destruct k as [|k]; [|lia]. destruct Hchildren as [-> ->]. cbn [top Z.eqb negb]. iApply (read_child_0 with "HT"); [done|]. iIntros "HT". cbn [top Z.eqb]. wp_ret.
    by iApply ("HΦ" with "[%] HT").
  - assert (Hnext : ∃ k' lo', tree_ok k' lo' t0 ∧ tree_ok k' (lo' + 2 ^ Z.of_nat k') t1 ∧ (t1 = Leaf ∨ (k' ≤ fuel)%nat)).
    { destruct k as [|k]; [destruct Hchildren as [-> ->]; exists 0%nat, 0; do 2 (split; [done|]); by left|].
      destruct Hchildren. exists k, lo. do 2 (split; [done|]). right. lia. }
    destruct Hnext as (k' & lo' & Hok0 & Hok1 & Hnext). rewrite (top_0 k' lo'); [|done]. case_bool_decide as Ht0; cbn [negb].
    + iApply (read_child_0 with "HT"); [done|]. iIntros "HT". subst t0. cbn [top Z.eqb]. wp_ret. by iApply ("HΦ" with "[%] HT").
    + iApply (read_child_1 with "HT"); [done|]. iIntros "HT". rewrite (top_0 k' (lo' + 2 ^ Z.of_nat k')); [|done]. case_bool_decide as Ht1.
      * wp_ret. by iApply ("HΦ" with "[%] HT").
      * destruct Hnext as [|Hk']; [done|]. destruct t1 as [|p1 s1 rs1 t10 t11]; [done|]. cbn [top].
        wp_bind. iApply (read_size with "HT"); [done|]. iIntros "HT". wp_bind. iApply (read_size with "HT"); [done|]. iIntros "HT".
        destruct (s1 <? sb); iApply (IH k' with "HT HΦ"); done.
Qed.

End search.
