(* ===== verification/MmFree.v ===== *)
(** * The free blocks of the memory manager

    [free_lists F] owns the free blocks [F]: the buckets of small blocks, the trees of large
    ones, the list of rests, and the bitmaps that say which buckets are not empty. *)

From iris.proofmode Require Import proofmode.
From S2P Require Import Prelude WordLogic MmModel MmBits MmRepr MmTrie.
Local Open Scope Z_scope.

(** ** Lists of buckets *)

Section buckets.
Context {A B : Type} (f : nat → A → list B).

Lemma concat_imap_focus l i x : l !! i = Some x →
  ∃ E, concat (imap f l) ≡ₚ f i x ++ E ∧ ∀ y, concat (imap f (<[i := y]> l)) ≡ₚ f i y ++ E.
Proof using Type.
  intros Hi. exists (concat (imap f (take i l)) ++ concat (imap (f ∘ (λ j, i + S j)%nat) (drop (S i) l))).
  assert (Hlen : length (take i l) = i) by (apply lookup_lt_Some in Hi; rewrite length_take; lia).
  split; [rewrite -{1}(take_drop_middle l i x Hi)|intros y; rewrite insert_take_drop; [|by eapply lookup_lt_Some]];
    rewrite imap_app concat_app imap_cons concat_cons Hlen; cbn [compose]; rewrite Nat.add_0_r; solve_Permutation.
Qed.

Lemma elem_of_concat_imap l y : y ∈ concat (imap f l) ↔ ∃ i x, l !! i = Some x ∧ y ∈ f i x.
Proof using Type.
  rewrite list_elem_of_In in_concat. setoid_rewrite <-list_elem_of_In. split.
  - intros (z & Hz & Hy). apply elem_of_lookup_imap in Hz as (i & x & -> & Hx). by exists i, x.
  - intros (i & x & Hx & Hy). exists (f i x). split; [|done]. apply elem_of_lookup_imap. by exists i, x.
Qed.

End buckets.

Section free.
Context (heap : Z).
Hypothesis heap_pos : 0 < heap.

Local Abbreviation sentinel i := (ZEND_MM_SMALL_FREE_BUCKET heap i).
Local Abbreviation rests_at := (ZEND_MM_REST_BUCKET heap).
Local Abbreviation root i := (large_free_buckets heap i).

Lemma sentinel_prev i : prev_free_block (sentinel i) = free_buckets heap (i * 2).
Proof using Type. unfold prev_free_block, ZEND_MM_SMALL_FREE_BUCKET, free_buckets, sizeof_small_free_block. lia. Qed.
Lemma sentinel_next i : next_free_block (sentinel i) = free_buckets heap (i * 2 + 1).
Proof using Type. unfold next_free_block, ZEND_MM_SMALL_FREE_BUCKET, free_buckets, sizeof_small_free_block. lia. Qed.
Lemma rests_prev : prev_free_block rests_at = rest_buckets heap 0.
Proof using Type. unfold prev_free_block, ZEND_MM_REST_BUCKET, rest_buckets, sizeof_small_free_block. lia. Qed.
Lemma rests_next : next_free_block rests_at = rest_buckets heap 1.
Proof using Type. unfold next_free_block, ZEND_MM_REST_BUCKET, rest_buckets, sizeof_small_free_block. lia. Qed.

(** ** The state *)

Definition small_size_of (i : nat) : Z := 32 + 8 * Z.of_nat i.
Definition small_body (s q : Z) : hpropI := info_size q ↦ s ∗ span (q + 32) (q + s).
Definition small_at (i : nat) (l : list Z) : hpropI :=
  ring (sentinel (Z.of_nat i)) l ∗ [∗ list] q ∈ l, small_body (small_size_of i) q.
Definition tree_in (i : nat) (t : tree) : hpropI := tree_at (root (Z.of_nat i)) t.
Definition rest_body (x : Z * Z) : hpropI :=
  info_size x.1 ↦ x.2 ∗ if x.2 <? 544 then span (x.1 + 32) (x.1 + x.2) else (parent x.1 ↦ 1 ∗ span (x.1 + 40) (x.1 + x.2))%I.
Definition rests_in (l : list (Z * Z)) : hpropI := ring rests_at l.*1 ∗ [∗ list] x ∈ l, rest_body x.

(** the large ones among the rests *)
Definition large_rests (l : list (Z * Z)) : Z := Z.of_nat (length (filter (λ x, 544 ≤ x.2) l)).

Record free_state : Type := FreeState {
  f_bitmap : Z;
  f_large_bitmap : Z;
  f_smalls : list (list Z);
  f_trees : list tree;
  f_rests : list (Z * Z)
}.

Definition small_elements (i : nat) (l : list Z) : list (Z * Z) := (λ q, (q, small_size_of i)) <$> l.
Definition free_elements (f : free_state) : list (Z * Z) :=
  concat (imap small_elements (f_smalls f)) ++ concat (imap (λ _, elements) (f_trees f)) ++ f_rests f.

(** The bit of a small bucket may be clear though there are blocks in it, when a rest of
    that size is taken off; the bits of the trees are exact. *)
Record free_ok (f : free_state) : Prop := FreeOk {
  ok_bitmap : bitmap_ok (f_bitmap f);
  ok_large_bitmap : bitmap_ok (f_large_bitmap f);
  ok_smalls : length (f_smalls f) = 64%nat;
  ok_trees : length (f_trees f) = 64%nat;
  ok_small_bits i : Z.testbit (f_bitmap f) (Z.of_nat i) = true → f_smalls f !! i ≠ Some [];
  ok_tree i t : f_trees f !! i = Some t →
    tree_ok i (2 ^ Z.of_nat i) t ∧ (Z.testbit (f_large_bitmap f) (Z.of_nat i) = true ↔ t ≠ Leaf);
  ok_rests : large_rests (f_rests f) ≤ 16;
  ok_blocks b s : (b, s) ∈ free_elements f → 0 < b ∧ good_size s
}.

Definition free_words (f : free_state) : hpropI :=
  free_bitmap heap ↦ f_bitmap f ∗ large_free_bitmap heap ↦ f_large_bitmap f ∗ rest_count heap ↦ large_rests (f_rests f) ∗
  ([∗ list] i ↦ l ∈ f_smalls f, small_at i l) ∗ ([∗ list] i ↦ t ∈ f_trees f, tree_in i t) ∗ rests_in (f_rests f).

Definition free_lists (F : list (Z * Z)) : hpropI := ∃ f, ⌜free_ok f ∧ F ≡ₚ free_elements f⌝ ∗ free_words f.

#[export] Instance free_lists_proper : Proper ((≡ₚ) ==> (⊢)) free_lists.
Proof using Type. intros F F' HF. iIntros "(%f & [%Hok %Hel] & H)". iExists f. iFrame. iPureIntro. split; [done|]. by rewrite -HF. Qed.

Lemma free_lists_perm F F' : F ≡ₚ F' → free_lists F ⊢ free_lists F'.
Proof using Type. by intros ->. Qed.

(** ** Blocks of the state *)

Lemma rest_body_freed b s : good_size s → rest_body (b, s) ∗ (∃ v, prev_free_block b ↦ v) ∗ (∃ v, next_free_block b ↦ v) ⊢ freed b s.
Proof using Type.
  iIntros (Hs) "([$ H] & H1 & H2)". rewrite links_words; [|done]. iFrame "H1 H2". cbn [fst snd]. destruct (Z.ltb_spec s 544); [done|].
  rewrite parent_word; [|done..]. iDestruct "H" as "[H1 $]". by iExists _.
Qed.

Lemma small_body_freed b s : good_size s → small_body s b ∗ (∃ v, prev_free_block b ↦ v) ∗ (∃ v, next_free_block b ↦ v) ⊢ freed b s.
Proof using Type. iIntros (Hs) "([$ H] & H1 & H2)". rewrite links_words; [|done]. iFrame. Qed.

Lemma freed_small b s : good_size s → freed b s ⊢ small_body s b ∗ (∃ v, prev_free_block b ↦ v) ∗ (∃ v, next_free_block b ↦ v).
Proof using Type. iIntros (Hs) "[$ H]". rewrite links_words; [|done]. iDestruct "H" as "($ & $ & $)". Qed.

(** the ends of a ring, as its first block sees them *)
Lemma ring_ends a l :
  ring a l ⊢ let p := default a (last l) in let n := hd a l in
    prev_free_block a ↦ p ∗ next_free_block a ↦ n ∗ (prev_free_block a ↦ p -∗ next_free_block a ↦ n -∗ ring a l).
Proof using Type.
  destruct l as [|x l _] using rev_ind.
  - unfold ring, link. cbn. iIntros "[$ $]". iIntros "$ $".
  - cbv zeta. rewrite last_snoc ring_rotate. cbn [default]. iIntros "H". unfold ring. iDestruct (path_read x [] a l x with "H") as "($ & Hn & H)". cbn [last default].
    replace (hd a (l ++ [x])) with (hd x l) by (by destruct l). iFrame.
Qed.

(** the word [info_size] of a free block *)
Lemma tree_size k lo slot t b s : tree_ok k lo t → (b, s) ∈ elements t →
  tree_at slot t ⊢ info_size b ↦ s ∗ (info_size b ↦ s -∗ tree_at slot t).
Proof using Type.
  revert k lo slot. induction t as [|b' s' rs t0 IH0 t1 IH1]; intros k lo slot Hok Hin; [by apply not_elem_of_nil in Hin|].
  cbn [elements] in Hin. rewrite elem_of_cons !elem_of_app in Hin. iIntros "(H1 & H2 & H3 & H4 & H5 & H6 & H7 & H8)".
  destruct Hin as [[= -> ->]|[Hin|Hin]].
  - iFrame "H2". iIntros "H2". iFrame.
  - apply list_elem_of_fmap in Hin as (q & [= -> ->] & Hq). apply list_elem_of_lookup in Hq as [i Hi].
    iDestruct (big_sepL_lookup_acc with "H5") as "[(H9 & H10) H5]"; [done|]. iFrame "H9". iIntros "H9". iSpecialize ("H5" with "[$H9 $H10]"). iFrame.
  - destruct Hok as (_ & _ & _ & _ & Hsub). destruct k as [|k]; [destruct Hsub as [-> ->]; destruct Hin as [Hin|Hin]; by apply not_elem_of_nil in Hin|].
    destruct Hsub as [Hok0 Hok1]. destruct Hin as [Hin|Hin].
    + iDestruct (IH0 with "H7") as "[$ H7]"; [done|done|]. iIntros "H". iSpecialize ("H7" with "H"). iFrame.
    + iDestruct (IH1 with "H8") as "[$ H8]"; [done|done|]. iIntros "H". iSpecialize ("H8" with "H"). iFrame.
Qed.

Lemma free_elements_cases f b s : (b, s) ∈ free_elements f →
  (∃ i l, f_smalls f !! i = Some l ∧ b ∈ l ∧ s = small_size_of i) ∨
  (∃ i t, f_trees f !! i = Some t ∧ (b, s) ∈ elements t) ∨ (b, s) ∈ f_rests f.
Proof using Type.
  unfold free_elements. rewrite !elem_of_app !elem_of_concat_imap. intros [(i & l & Hl & Hin)|[(i & t & Ht & Hin)|Hin]]; [left|right; left|by right; right].
  - apply list_elem_of_fmap in Hin as (q & [= -> ->] & Hq). by exists i, l.
  - by exists i, t.
Qed.

Lemma free_lists_lookup F b s : (b, s) ∈ F →
  free_lists F ⊢ ⌜0 < b ∧ good_size s⌝ ∗ info_size b ↦ s ∗ (info_size b ↦ s -∗ free_lists F).
Proof using Type.
  iIntros (Hin) "(%f & [%Hok %Hel] & H)". rewrite Hel in Hin. iSplit; [iPureIntro; by apply (ok_blocks f)|].
  iAssert (info_size b ↦ s ∗ (info_size b ↦ s -∗ free_words f))%I with "[H]" as "[$ H]".
  - iDestruct "H" as "(H1 & H2 & H3 & H4 & H5 & H6)". destruct (free_elements_cases _ _ _ Hin) as [(i & l & Hl & Hb & ->)|[(i & t & Ht & Hb)|Hb]].
    + iDestruct (big_sepL_lookup_acc with "H4") as "[[H7 H8] H4]"; [done|]. apply list_elem_of_lookup in Hb as [j Hj].
      iDestruct (big_sepL_lookup_acc with "H8") as "[[H9 H10] H8]"; [done|]. iFrame "H9". iIntros "H9". iSpecialize ("H8" with "[$H9 $H10]").
      iSpecialize ("H4" with "[$H7 $H8]"). iFrame.
    + destruct (ok_tree _ Hok _ _ Ht) as [Htok _]. iDestruct (big_sepL_lookup_acc with "H5") as "[H7 H5]"; [done|].
      iDestruct (tree_size with "H7") as "[$ H7]"; [done|done|]. iIntros "H". iSpecialize ("H5" with "[H7 H]"); [by iApply "H7"|]. iFrame.
    + iDestruct "H6" as "[H7 H8]". apply list_elem_of_lookup in Hb as [j Hj]. iDestruct (big_sepL_lookup_acc with "H8") as "[[H9 H10] H8]"; [done|].
      cbn [fst snd]. iFrame "H9". iIntros "H9". iSpecialize ("H8" with "[$H9 $H10]"). iFrame.
  - iIntros "H1". iExists f. iSplit; [done|]. by iApply "H".
Qed.

(** ** One bucket of the state *)

Definition with_small (f : free_state) (i : nat) (l : list Z) (m : Z) : free_state :=
  FreeState m (f_large_bitmap f) (<[i := l]> (f_smalls f)) (f_trees f) (f_rests f).
Definition with_tree (f : free_state) (i : nat) (t : tree) (m : Z) : free_state :=
  FreeState (f_bitmap f) m (f_smalls f) (<[i := t]> (f_trees f)) (f_rests f).
Definition with_rests (f : free_state) (l : list (Z * Z)) : free_state :=
  FreeState (f_bitmap f) (f_large_bitmap f) (f_smalls f) (f_trees f) l.

Lemma small_focus f i l : f_smalls f !! i = Some l →
  free_words f ⊢ free_bitmap heap ↦ f_bitmap f ∗ small_at i l ∗
    (∀ l' m, free_bitmap heap ↦ m -∗ small_at i l' -∗ free_words (with_small f i l' m)).
Proof using Type.
  iIntros (Hi) "($ & H2 & H3 & H4 & H5 & H6)". iDestruct (big_sepL_insert_acc with "H4") as "[$ H4]"; [done|].
  iIntros (l' m) "H1 H". iSpecialize ("H4" with "H"). iFrame.
Qed.

Lemma tree_focus f i t : f_trees f !! i = Some t →
  free_words f ⊢ large_free_bitmap heap ↦ f_large_bitmap f ∗ tree_in i t ∗
    (∀ t' m, large_free_bitmap heap ↦ m -∗ tree_in i t' -∗ free_words (with_tree f i t' m)).
Proof using Type.
  iIntros (Hi) "(H1 & $ & H3 & H4 & H5 & H6)". iDestruct (big_sepL_insert_acc with "H5") as "[$ H5]"; [done|].
  iIntros (t' m) "H2 H". iSpecialize ("H5" with "H"). iFrame.
Qed.

Lemma with_small_elements f i l : f_smalls f !! i = Some l →
  ∃ E, free_elements f ≡ₚ small_elements i l ++ E ∧ ∀ l' m, free_elements (with_small f i l' m) ≡ₚ small_elements i l' ++ E.
Proof using Type.
  intros Hi. destruct (concat_imap_focus small_elements (f_smalls f) i l Hi) as (E & H1 & H2). unfold free_elements, with_small. cbn [f_smalls f_trees f_rests].
  exists (E ++ concat (imap (λ _, elements) (f_trees f)) ++ f_rests f). split; [by rewrite H1 -app_assoc|]. intros l' m. by rewrite H2 -app_assoc.
Qed.

Lemma with_tree_elements f i t : f_trees f !! i = Some t →
  ∃ E, free_elements f ≡ₚ elements t ++ E ∧ ∀ t' m, free_elements (with_tree f i t' m) ≡ₚ elements t' ++ E.
Proof using Type.
  intros Hi. destruct (concat_imap_focus (λ _, elements) (f_trees f) i t Hi) as (E & H1 & H2). unfold free_elements, with_tree. cbn [f_smalls f_trees f_rests].
  exists (concat (imap small_elements (f_smalls f)) ++ E ++ f_rests f). split; [rewrite H1; solve_Permutation|]. intros t' m. rewrite H2. solve_Permutation.
Qed.

(** a state with at most one more block is as good *)
Lemma blocks_ok f f' b s : free_ok f → 0 < b → good_size s → free_elements f' ⊆+ (b, s) :: free_elements f →
  ∀ b' s', (b', s') ∈ free_elements f' → 0 < b' ∧ good_size s'.
Proof using Type.
  intros Hok Hb Hs Hsub b' s' Hin. apply (elem_of_submseteq _ _ _ Hin) in Hsub. apply elem_of_cons in Hsub as [[= -> ->]|Hin']; [done|]. by apply (ok_blocks f).
Qed.

Lemma with_small_ok f i l l' m b s : free_ok f → f_smalls f !! i = Some l → bitmap_ok m →
  (∀ j : nat, j ≠ i → Z.testbit m (Z.of_nat j) = true → Z.testbit (f_bitmap f) (Z.of_nat j) = true) →
  (Z.testbit m (Z.of_nat i) = true → l' ≠ []) → 0 < b → good_size s →
  free_elements (with_small f i l' m) ⊆+ (b, s) :: free_elements f → free_ok (with_small f i l' m).
Proof using Type.
  intros Hok Hi Hm Hbits Hbit Hb Hs Hsub. constructor; cbn [with_small f_bitmap f_large_bitmap f_smalls f_trees f_rests]; try done; try by apply Hok.
  - by rewrite length_insert ok_smalls.
  - intros j Hj. destruct (decide (j = i)) as [->|Hne].
    + rewrite list_lookup_insert_eq; [|by eapply lookup_lt_Some]. intros [= Hl]. by apply Hbit.
    + rewrite list_lookup_insert_ne //. by apply (ok_small_bits f), Hbits.
  - by apply (blocks_ok f _ b s).
Qed.

Lemma with_tree_ok f i t t' m b s : free_ok f → f_trees f !! i = Some t → bitmap_ok m →
  (∀ j : nat, j ≠ i → Z.testbit m (Z.of_nat j) = Z.testbit (f_large_bitmap f) (Z.of_nat j)) →
  tree_ok i (2 ^ Z.of_nat i) t' → (Z.testbit m (Z.of_nat i) = true ↔ t' ≠ Leaf) → 0 < b → good_size s →
  free_elements (with_tree f i t' m) ⊆+ (b, s) :: free_elements f → free_ok (with_tree f i t' m).
Proof using Type.
  intros Hok Hi Hm Hbits Ht' Hbit Hb Hs Hsub. constructor; cbn [with_tree f_bitmap f_large_bitmap f_smalls f_trees f_rests]; try done; try by apply Hok.
  - by rewrite length_insert ok_trees.
  - intros j u. destruct (decide (j = i)) as [->|Hne].
    + rewrite list_lookup_insert_eq; [|by eapply lookup_lt_Some]. by intros [= <-].
    + rewrite list_lookup_insert_ne // Hbits //. apply (ok_tree f Hok).
  - by apply (blocks_ok f _ b s).
Qed.

Lemma small_index s : good_size s → s < 544 → ∃ i : nat, ZEND_MM_BUCKET_INDEX s = Z.of_nat i ∧ (i < 64)%nat ∧ small_size_of i = s.
Proof using Type.
  intros Hs Hlt. destruct (bucket_index s Hs Hlt) as [Hi He]. exists (Z.to_nat (ZEND_MM_BUCKET_INDEX s)).
  unfold small_size_of. rewrite Z2Nat.id; [|lia]. split; [done|]. split; [lia|]. by rewrite -He.
Qed.

Lemma large_bucket s : good_size s → ∃ i : nat, ZEND_MM_LARGE_BUCKET_INDEX s = Z.of_nat i ∧ (i < 64)%nat ∧
  2 ^ Z.of_nat i ≤ s < 2 ^ Z.of_nat i + 2 ^ Z.of_nat i.
Proof using Type.
  intros Hs. destruct (size_index s Hs) as [Hi Hb]. exists (Z.to_nat (ZEND_MM_LARGE_BUCKET_INDEX s)). rewrite Z2Nat.id; [|lia]. split; [done|]. split; [lia|done].
Qed.

(** ** Adding a block *)

(** [f'] is [f] with one more block, which is not a rest *)
Definition added (f : free_state) (b s : Z) (f' : free_state) : Prop :=
  free_ok f' ∧ free_elements f' ≡ₚ (b, s) :: free_elements f ∧ f_rests f' = f_rests f.

Lemma add_to_small_spec f b s (Φ : unit → hpropI) Ψ : free_ok f → 0 < b → good_size s → s < 544 →
  freed b s -∗ free_words f -∗ (∀ f', ⌜added f b s f'⌝ -∗ free_words f' -∗ Φ tt) -∗ wp (add_to_small heap b s) Φ Ψ.
Proof using Type.
  iIntros (Hok Hb Hs Hlt) "Hb Hf HΦ". destruct (small_index s Hs Hlt) as (i & Hi & Hi64 & Hsi).
  destruct (lookup_lt_is_Some_2 (f_smalls f) i) as [l Hl]; [by rewrite (ok_smalls f Hok)|].
  iDestruct (small_focus with "Hf") as "(Hm & [Hring Hbodies] & Hf)"; [done|]. unfold add_to_small. rewrite Hi.
  iDestruct (ring_ends with "Hring") as "(Hp & Hn & Hring)". wp_load "Hp". iSpecialize ("Hring" with "Hp Hn").
  set (m' := if default (sentinel (Z.of_nat i)) (last l) =? sentinel (Z.of_nat i) then Z.lor (f_bitmap f) (bit (Z.of_nat i)) else f_bitmap f).
  iApply wp_bind_intro. iApply (wp_wand _ (λ _, free_bitmap heap ↦ m')%I _ Ψ with "[Hm]").
  { unfold m'. destruct (_ =? _); [wp_load "Hm"; wp_store "Hm"; iExact "Hm"|wp_ret; iExact "Hm"]. }
  iSplit; [|by iIntros "$"]. iIntros ([]) "Hm". iDestruct (path_insert_head with "Hring") as "(Hn & Hp & Hring)". wp_load "Hn".
  rewrite freed_small; [|done]. iDestruct "Hb" as "(Hbody & [% Hbp] & [% Hbn])". wp_store "Hbp". wp_store "Hbn". wp_store "Hp". wp_store "Hn".
  destruct (with_small_elements f i l Hl) as (E & HE1 & HE2). iApply ("HΦ" $! (with_small f i (b :: l) m')); [iPureIntro; split; [|split; [|done]]|].
  - apply (with_small_ok f i l _ _ b s); try done.
    + unfold m'. destruct (_ =? _); [apply set_bit_ok; [apply Hok|lia]|apply Hok].
    + intros j Hj. unfold m'. destruct (_ =? _); [|done]. rewrite set_bit_spec; [|lia]. rewrite bool_decide_eq_false_2; [done|lia].
    + rewrite HE2 HE1. unfold small_elements. rewrite fmap_cons Hsi. reflexivity.
  - rewrite HE2 HE1. unfold small_elements. rewrite fmap_cons Hsi. reflexivity.
  - iApply ("Hf" with "Hm"). unfold small_at. cbn [big_sepL]. rewrite Hsi. iFrame "Hbody Hbodies". iApply ("Hring" with "Hn Hbp Hbn Hp").
Qed.

Lemma add_to_large_spec f b s (Φ : unit → hpropI) Ψ : free_ok f → 0 < b → good_size s → 544 ≤ s →
  freed b s -∗ free_words f -∗ (∀ f', ⌜added f b s f'⌝ -∗ free_words f' -∗ Φ tt) -∗ wp (add_to_large heap b s) Φ Ψ.
Proof using heap_pos.
  iIntros (Hok Hb Hs Hl) "Hb Hf HΦ". destruct (large_bucket s Hs) as (i & Hi & Hi64 & Hsi).
  destruct (lookup_lt_is_Some_2 (f_trees f) i) as [t Ht]; [by rewrite (ok_trees f Hok)|].
  iDestruct (tree_focus with "Hf") as "(Hm & Ht & Hf)"; [done|]. destruct (ok_tree f Hok i t Ht) as [Htok Hbit].
  unfold add_to_large. rewrite Hi. iDestruct "Hb" as "[Hbs Hb]". rewrite links_words; [|done]. rewrite parent_word; [|done..]. rewrite children_words; [|done..].
  iDestruct "Hb" as "(Hbp & Hbn & Hpar & [% Hc0] & [% Hc1] & Hrest)". wp_store "Hc1". wp_store "Hc0".
  iAssert (loose b s) with "[Hbs Hbp Hbn Hpar Hc0 Hc1 Hrest]" as "Hb"; [iFrame|].
  unfold tree_in. iDestruct (tree_at_top with "Ht") as "[Htop Ht]". wp_load "Htop". rewrite (top_0 i (2 ^ Z.of_nat i) t); [|done].
  destruct (with_tree_elements f i t Ht) as (E & HE1 & HE2). case_bool_decide as Hleaf.
  - iClear "Ht". subst t. iDestruct "Hb" as "(Hs & [% Hpar] & [% Hprev] & [% Hnext] & Hc0 & Hc1 & Hrest)".
    wp_store "Htop". wp_store "Hpar". wp_store "Hnext". wp_store "Hprev". wp_load "Hm". wp_store "Hm".
    iApply ("HΦ" $! (with_tree f i (Node b s [] Leaf Leaf) (Z.lor (f_large_bitmap f) (bit (Z.of_nat i))))); [iPureIntro; split; [|split; [|done]]|].
    + apply (with_tree_ok f i Leaf _ _ b s); try done.
      * apply set_bit_ok; [apply Hok|lia].
      * intros j Hj. rewrite set_bit_spec; [|lia]. by rewrite bool_decide_eq_false_2; [|lia].
      * split; [by apply Forall_cons_2|]. do 3 (split; [done|]). by destruct i.
      * rewrite set_bit_spec; [|lia]. by rewrite bool_decide_eq_true_2.
      * by rewrite HE2 HE1.
    + by rewrite HE2 HE1.
    + iApply ("Hf" with "Hm"). cbn [tree_at big_sepL]. unfold ring. cbn [path]. unfold link. iFrame.
  - change (u64 (Z.shiftl s (ZEND_MM_NUM_BUCKETS - Z.of_nat i))) with (bits_left s (Z.of_nat i)).
    iApply (add_to_tree_loop_spec 65 i (2 ^ Z.of_nat i) _ t with "[Ht Htop] Hb"); try done; [lia|lia|by iApply "Ht"|].
    iIntros (t' (Htok' & Hne' & Hel')) "Ht". iApply ("HΦ" $! (with_tree f i t' (f_large_bitmap f))); [iPureIntro; split; [|split; [|done]]|].
    + apply (with_tree_ok f i t _ _ b s); try done; [apply Hok|by rewrite Hbit|]. by rewrite HE2 HE1 Hel'.
    + by rewrite HE2 HE1 Hel'.
    + iApply ("Hf" with "Hm Ht").
Qed.

Lemma add_to_free_list_state f b s (Φ : unit → hpropI) Ψ : free_ok f → 0 < b → good_size s →
  freed b s -∗ free_words f -∗ (∀ f', ⌜added f b s f'⌝ -∗ free_words f' -∗ Φ tt) -∗ wp (zend_mm_add_to_free_list heap b) Φ Ψ.
Proof using heap_pos.
  iIntros (Hok Hb Hs) "[Hbs Hb] Hf HΦ". unfold zend_mm_add_to_free_list, ZEND_MM_FREE_BLOCK_SIZE. wp_load "Hbs". rewrite small_size.
  destruct (Z.ltb_spec s 544); cbn [negb].
  - iApply (add_to_small_spec with "[$Hbs $Hb] Hf HΦ"); done.
  - iApply (add_to_large_spec with "[$Hbs $Hb] Hf HΦ"); done.
Qed.

Lemma add_to_free_list_spec F b s (Φ : unit → hpropI) Ψ : 0 < b → good_size s →
  freed b s -∗ free_lists F -∗ (free_lists ((b, s) :: F) -∗ Φ tt) -∗ wp (zend_mm_add_to_free_list heap b) Φ Ψ.
Proof using heap_pos.
  iIntros (Hb Hs) "Hb (%f & [%Hok %Hel] & Hf) HΦ". iApply (add_to_free_list_state with "Hb Hf"); [done..|]. iIntros (f' (Hok' & Hel' & _)) "Hf".
  iApply "HΦ". iExists f'. iFrame. iPureIntro. split; [done|]. by rewrite Hel Hel'.
Qed.

(** ** Removing a block *)

Definition cleared (m : Z) (i : nat) : Z := Z.land m (Z.lnot (bit (Z.of_nat i))).

(** the bit of a small bucket is cleared when the bucket got empty, or looks like it *)
Lemma unlinked_small_spec b s p n i l m (Φ : unit → hpropI) Ψ : s < 544 → ZEND_MM_BUCKET_INDEX s = Z.of_nat i →
  ring (sentinel (Z.of_nat i)) l -∗ info_size b ↦ s -∗ free_bitmap heap ↦ m -∗
  (∀ m', ⌜(m' = m ∨ m' = cleared m i) ∧ (l = [] → p = n → m' = cleared m i)⌝ -∗
    ring (sentinel (Z.of_nat i)) l -∗ info_size b ↦ s -∗ free_bitmap heap ↦ m' -∗ Φ tt) -∗
  wp (unlinked heap b p n) Φ Ψ.
Proof using Type.
  iIntros (Hlt Hi) "Hring Hs Hm HΦ". unfold unlinked, ZEND_MM_FREE_BLOCK_SIZE. wp_load "Hs". rewrite small_size. destruct (Z.ltb_spec s 544); [|lia].
  destruct (Z.eqb_spec p n) as [Hpn|Hpn].
  - wp_load "Hs". rewrite Hi. iDestruct (ring_ends with "Hring") as "(Hp & Hn & Hring)". rewrite sentinel_prev sentinel_next. wp_load "Hp". wp_load "Hn".
    iSpecialize ("Hring" with "Hp Hn"). destruct (Z.eqb_spec (default (sentinel (Z.of_nat i)) (last l)) (hd (sentinel (Z.of_nat i)) l)) as [He|He].
    + wp_load "Hm". wp_store "Hm". iApply ("HΦ" with "[%] Hring Hs Hm"). split; [by right|done].
    + wp_ret. iApply ("HΦ" with "[%] Hring Hs Hm"). split; [by left|]. by intros ->.
  - wp_ret. iApply ("HΦ" with "[%] Hring Hs Hm"). split; [by left|done].
Qed.

Lemma cleared_ok m m' i : bitmap_ok m → m' = m ∨ m' = cleared m i → bitmap_ok m'.
Proof using Type. intros Hm [->| ->]; [done|]. apply clear_bit_ok; [done|lia]. Qed.

Lemma cleared_bits m m' i j : m' = m ∨ m' = cleared m i → Z.testbit m' (Z.of_nat j) = true → Z.testbit m (Z.of_nat j) = true.
Proof using Type. intros [->| ->]; [done|]. unfold cleared. rewrite clear_bit_spec; [|lia..]. by intros [_ ?]%andb_true_iff. Qed.

Lemma remove_from_small_spec f i l b (Φ : unit → hpropI) Ψ : free_ok f → f_smalls f !! i = Some l → b ∈ l →
  free_words f -∗
  (∀ f', ⌜free_ok f' ∧ free_elements f ≡ₚ (b, small_size_of i) :: free_elements f'⌝ -∗ free_words f' -∗ freed b (small_size_of i) -∗ Φ tt) -∗
  wp (zend_mm_remove_from_free_list heap b) Φ Ψ.
Proof using Type.
  iIntros (Hok Hl Hb) "Hf HΦ". assert (Hi64 : (i < 64)%nat) by (rewrite -(ok_smalls f Hok); by eapply lookup_lt_Some).
  destruct (with_small_elements f i l Hl) as (E & HE1 & HE2). assert (Hin : (b, small_size_of i) ∈ free_elements f).
  { rewrite HE1 elem_of_app. left. apply list_elem_of_fmap. by exists b. }
  destruct (ok_blocks f Hok _ _ Hin) as [Hpos Hgood]. apply list_elem_of_split in Hb as (l1 & l2 & ->).
  iDestruct (small_focus with "Hf") as "(Hm & [Hring Hbodies] & Hf)"; [done|]. unfold ring. rewrite path_app. iDestruct "Hring" as "[Hr1 Hr2]".
  rewrite big_sepL_app big_sepL_cons. iDestruct "Hbodies" as "(Hb1 & [Hs Hrest] & Hb2)".
  iApply (unlink_spec with "Hr1 Hr2"). iIntros "Hprev Hnext Hring".
  iApply (unlinked_small_spec _ _ _ _ i (l1 ++ l2) with "Hring Hs Hm"); [unfold small_size_of; lia| |].
  { destruct (small_index (small_size_of i) Hgood) as (i' & -> & _ & Hs); [unfold small_size_of; lia|]. unfold small_size_of in Hs. lia. }
  iIntros (m' [Hm' Hempty]) "Hring Hs Hm". iApply ("HΦ" $! (with_small f i (l1 ++ l2) m') with "[%] [Hf Hm Hring Hb1 Hb2]").
  - assert (HE : free_elements f ≡ₚ (b, small_size_of i) :: free_elements (with_small f i (l1 ++ l2) m')).
    { rewrite HE1 HE2. unfold small_elements. rewrite !fmap_app fmap_cons. solve_Permutation. }
    split; [|exact HE]. apply (with_small_ok f i (l1 ++ b :: l2) _ _ b (small_size_of i)); try done.
    + eapply cleared_ok; [apply Hok|done].
    + intros j _. by apply (cleared_bits _ _ i).
    + intros Hbit Hnil. apply app_eq_nil in Hnil as [-> ->]. rewrite (Hempty eq_refl eq_refl) in Hbit. unfold cleared in Hbit.
      rewrite clear_bit_spec in Hbit; [|lia..]. by rewrite bool_decide_eq_true_2 in Hbit.
    + rewrite HE. do 2 apply submseteq_cons. reflexivity.
  - iApply ("Hf" with "Hm"). unfold small_at. rewrite big_sepL_app. iFrame.
  - iApply small_body_freed; [done|]. iFrame.
Qed.

Lemma remove_from_tree_spec f i t b s (Φ : unit → hpropI) Ψ : free_ok f → f_trees f !! i = Some t → (b, s) ∈ elements t →
  free_words f -∗
  (∀ f', ⌜free_ok f' ∧ free_elements f ≡ₚ (b, s) :: free_elements f'⌝ -∗ free_words f' -∗ freed b s -∗ Φ tt) -∗
  wp (zend_mm_remove_from_free_list heap b) Φ Ψ.
Proof using heap_pos.
  iIntros (Hok Ht Hb) "Hf HΦ". assert (Hi64 : (i < 64)%nat) by (rewrite -(ok_trees f Hok); by eapply lookup_lt_Some).
  destruct (ok_tree f Hok i t Ht) as [Htok Hbit]. destruct (elements_range _ _ _ _ _ Htok Hb) as (Hrange & Hgood & Hl & Hpos).
  destruct (with_tree_elements f i t Ht) as (E & HE1 & HE2). pose proof (large_index_unique (Z.of_nat i) s ltac:(lia) Hrange) as Hindex.
  iDestruct (tree_focus with "Hf") as "(Hm & Ht & Hf)"; [done|]. unfold tree_in. iDestruct (slots_below_root with "Ht") as %Hbelow.
  iApply (tree_remove heap i (2 ^ Z.of_nat i) _ t b s with "Ht Hm"); [done|lia|unfold large_free_buckets; lia|by rewrite Hindex|done|]. iIntros (t' [Htok' Hel]) "Ht Hm Hfreed".
  iApply ("HΦ" $! (with_tree f i t' (bitmap_without heap (root (Z.of_nat i)) s t' (f_large_bitmap f))) with "[%] [Hf Hm Ht] Hfreed"); [|iApply ("Hf" with "Hm Ht")].
  assert (HE : ∀ m, free_elements f ≡ₚ (b, s) :: free_elements (with_tree f i t' m)) by (intros m; by rewrite HE1 HE2 Hel).
  split; [|apply HE]. assert (Hne : t ≠ Leaf) by (intros ->; by apply not_elem_of_nil in Hb).
  unfold bitmap_without. rewrite Hindex. destruct (decide (_ ∧ t' = Leaf)) as [[_ Hleaf]|Hnot].
  - apply (with_tree_ok f i t _ _ b s); try done.
    + apply clear_bit_ok; [apply Hok|lia].
    + intros j Hj. rewrite clear_bit_spec; [|lia..]. by rewrite bool_decide_eq_false_2; [|lia].
    + rewrite clear_bit_spec; [|lia..]. by rewrite bool_decide_eq_true_2.
    + rewrite (HE (Z.land (f_large_bitmap f) (Z.lnot (bit (Z.of_nat i))))). do 2 apply submseteq_cons. reflexivity.
  - apply (with_tree_ok f i t _ _ b s); try done; [apply Hok|naive_solver|].
    rewrite (HE (f_large_bitmap f)). do 2 apply submseteq_cons. reflexivity.
Qed.

Lemma large_rests_app l l' : large_rests (l ++ l') = large_rests l + large_rests l'.
Proof using Type. unfold large_rests. rewrite filter_app length_app. lia. Qed.

Lemma large_rests_cons b s l : large_rests ((b, s) :: l) = (if s <? 544 then 0 else 1) + large_rests l.
Proof using Type. unfold large_rests. rewrite filter_cons. cbn [snd]. destruct (Z.ltb_spec s 544); case_decide; cbn [length]; lia. Qed.

Lemma large_rests_pos l : 0 ≤ large_rests l.
Proof using Type. unfold large_rests. lia. Qed.

Lemma with_rests_ok f l b s : free_ok f → large_rests l ≤ 16 → 0 < b → good_size s →
  free_elements (with_rests f l) ⊆+ (b, s) :: free_elements f → free_ok (with_rests f l).
Proof using Type.
  intros Hok Hl Hb Hs Hsub. constructor; cbn [with_rests f_bitmap f_large_bitmap f_smalls f_trees f_rests]; try done; try by apply Hok.
  by apply (blocks_ok f _ b s).
Qed.

Lemma remove_from_rests_spec f b s (Φ : unit → hpropI) Ψ : free_ok f → (b, s) ∈ f_rests f →
  free_words f -∗
  (∀ f', ⌜free_ok f' ∧ free_elements f ≡ₚ (b, s) :: free_elements f'⌝ -∗ free_words f' -∗ freed b s -∗ Φ tt) -∗
  wp (zend_mm_remove_from_free_list heap b) Φ Ψ.
Proof using Type.
  iIntros (Hok Hb) "Hf HΦ". assert (Hin : (b, s) ∈ free_elements f) by (unfold free_elements; rewrite !elem_of_app; auto).
  destruct (ok_blocks f Hok _ _ Hin) as [Hpos Hgood]. pose proof (ok_rests f Hok) as Hcount. apply list_elem_of_split in Hb as (r1 & r2 & Hr).
  rewrite Hr large_rests_app large_rests_cons in Hcount. pose proof (large_rests_pos r1). pose proof (large_rests_pos r2).
  iDestruct "Hf" as "(H1 & H2 & H3 & H4 & H5 & [Hring Hbodies])". rewrite Hr fmap_app fmap_cons big_sepL_app big_sepL_cons. cbn [fst].
  unfold ring. rewrite path_app. iDestruct "Hring" as "[Hr1 Hr2]". iDestruct "Hbodies" as "(Hb1 & [Hs Hrest] & Hb2)". cbn [fst snd].
  iApply (unlink_spec with "Hr1 Hr2"). iIntros "Hprev Hnext Hring". rewrite -fmap_app.
  assert (HE : ∀ g, f_smalls g = f_smalls f → f_trees g = f_trees f → free_elements f ≡ₚ (b, s) :: free_elements (with_rests g (r1 ++ r2))).
  { intros g Hg1 Hg2. unfold free_elements. cbn [with_rests f_smalls f_trees f_rests]. rewrite Hg1 Hg2 Hr. solve_Permutation. }
  destruct (Z.lt_ge_cases s 544) as [Hlt|Hge].
  - destruct (small_index s Hgood Hlt) as (i & Hi & Hi64 & Hsi). destruct (lookup_lt_is_Some_2 (f_smalls f) i) as [l Hl]; [by rewrite (ok_smalls f Hok)|].
    iDestruct (big_sepL_lookup_acc with "H4") as "[[Hl Hlb] H4]"; [done|].
    iApply (unlinked_small_spec _ _ _ _ i l with "Hl Hs H1"); [done|done|]. iIntros (m' [Hm' _]) "Hl Hs H1". iSpecialize ("H4" with "[$Hl $Hlb]").
    set (g := FreeState m' (f_large_bitmap f) (f_smalls f) (f_trees f) (f_rests f)). iApply ("HΦ" $! (with_rests g (r1 ++ r2)) with "[%] [H1 H2 H3 H4 H5 Hring Hb1 Hb2]").
    + split; [|by apply HE]. assert (Hg : free_ok g).
      { constructor; [eapply cleared_ok; [apply (ok_bitmap f Hok)|done]|apply (ok_large_bitmap f Hok)|apply (ok_smalls f Hok)|apply (ok_trees f Hok)|
          |apply (ok_tree f Hok)|apply (ok_rests f Hok)|apply (ok_blocks f Hok)]. intros j Hj. apply (ok_small_bits f Hok). by eapply cleared_bits. }
      apply (with_rests_ok g _ b s); try done; [rewrite large_rests_app; destruct (s <? 544); lia|]. change (free_elements g) with (free_elements f).
      rewrite (HE g); [|done..]. do 2 apply submseteq_cons. reflexivity.
    + unfold free_words. cbn [with_rests g f_bitmap f_large_bitmap f_smalls f_trees f_rests]. rewrite large_rests_app large_rests_cons large_rests_app.
      destruct (Z.ltb_spec s 544); [|lia]. rewrite Z.add_0_l. unfold rests_in. rewrite big_sepL_app. iFrame.
    + iApply rest_body_freed; [done|]. unfold rest_body. cbn [fst snd]. iFrame.
  - destruct (Z.ltb_spec s 544) as [|_]; [lia|]. iDestruct "Hrest" as "[Hpar Hrest]".
    unfold unlinked, ZEND_MM_FREE_BLOCK_SIZE. wp_load "Hs". rewrite small_size. destruct (Z.ltb_spec s 544); [lia|]. wp_load "Hpar".
    change (1 =? ZEND_MM_REST_BLOCK) with true. wp_load "H3". wp_store "H3".
    iApply ("HΦ" $! (with_rests f (r1 ++ r2)) with "[%] [H1 H2 H3 H4 H5 Hring Hb1 Hb2]").
    + split; [|by apply HE]. apply (with_rests_ok f _ b s); try done; [rewrite large_rests_app; lia|].
      rewrite (HE f); [|done..]. do 2 apply submseteq_cons. reflexivity.
    + unfold free_words. cbn [with_rests f_bitmap f_large_bitmap f_smalls f_trees f_rests]. rewrite !large_rests_app large_rests_cons.
      destruct (Z.ltb_spec s 544); [lia|]. rewrite s32_small; [|lia]. replace (large_rests r1 + (1 + large_rests r2) - 1) with (large_rests r1 + large_rests r2) by lia.
      unfold rests_in. rewrite big_sepL_app. iFrame.
    + iApply rest_body_freed; [done|]. unfold rest_body. cbn [fst snd]. destruct (Z.ltb_spec s 544); [lia|]. iFrame.
Qed.

Lemma remove_from_free_list_spec F b s (Φ : unit → hpropI) Ψ :
  free_lists ((b, s) :: F) -∗ (free_lists F -∗ freed b s -∗ Φ tt) -∗ wp (zend_mm_remove_from_free_list heap b) Φ Ψ.
Proof using heap_pos.
  iIntros "(%f & [%Hok %Hel] & Hf) HΦ". assert (Hin : (b, s) ∈ free_elements f) by (rewrite -Hel; apply list_elem_of_here).
  iAssert (∀ f', ⌜free_ok f' ∧ free_elements f ≡ₚ (b, s) :: free_elements f'⌝ -∗ free_words f' -∗ freed b s -∗ Φ tt)%I with "[HΦ]" as "HΦ".
  { iIntros (f' [Hok' Hel']) "Hf". iApply "HΦ". iExists f'. iFrame. iPureIntro. split; [done|]. apply (Permutation_cons_inv (a := (b, s))). by rewrite Hel Hel'. }
  destruct (free_elements_cases _ _ _ Hin) as [(i & l & Hl & Hb & ->)|[(i & t & Ht & Hb)|Hb]].
  - by iApply (remove_from_small_spec with "Hf HΦ").
  - by iApply (remove_from_tree_spec with "Hf HΦ").
  - by iApply (remove_from_rests_spec with "Hf HΦ").
Qed.

(** ** The list of rests *)

Lemma evict_rests_spec fuel f (Φ : unit → hpropI) Ψ : free_ok f → (length (f_rests f) < fuel)%nat →
  free_words f -∗
  (∀ f', ⌜free_ok f' ∧ free_elements f' ≡ₚ free_elements f ∧ large_rests (f_rests f') < 16⌝ -∗ free_words f' -∗ Φ tt) -∗
  wp (evict_rests_loop heap fuel) Φ Ψ.
Proof using heap_pos.
  revert f. induction fuel as [|fuel IH]; intros f Hok Hf; [lia|]. iIntros "Hf HΦ". cbn [evict_rests_loop].
  iDestruct "Hf" as "(H1 & H2 & H3 & H4 & H5 & H6)". wp_load "H3". unfold ZEND_MM_MAX_REST_BLOCKS. destruct (Z.geb_spec (large_rests (f_rests f)) 16).
  2: { wp_ret. iApply ("HΦ" with "[%]"); [by split|]. iFrame. }
  destruct (f_rests f) as [|[b s] l] eqn:Hr; [change (large_rests []) with 0 in *; lia|]. iDestruct "H6" as "[Hring Hbodies]". rewrite fmap_cons big_sepL_cons. cbn [fst].
  iDestruct "Hbodies" as "[[Hs Hrest] Hbodies]". cbn [fst snd]. change (b :: l.*1) with ([] ++ b :: l.*1). unfold ring. rewrite path_app. iDestruct "Hring" as "[Hr1 Hr2]".
  iDestruct (path_unlink with "[$Hr1 $Hr2]") as "(Hp & Hn & Hpn & Hnp & Hring)". cbn [last default app]. rewrite -rests_next. wp_load "Hpn".
  unfold ZEND_MM_FREE_BLOCK_SIZE. wp_load "Hs". rewrite small_size.
  iApply wp_bind_intro. iApply (wp_wand _ (λ _, rest_count heap ↦ large_rests l)%I _ Ψ with "[H3]").
  { pose proof (ok_rests f Hok) as Hc. rewrite Hr in Hc. rewrite large_rests_cons in Hc |- *. pose proof (large_rests_pos l). destruct (Z.ltb_spec s 544); cbn [negb].
    - wp_ret. by rewrite Z.add_0_l.
    - wp_load "H3". wp_store "H3". rewrite s32_small; [|lia]. by replace (1 + large_rests l - 1) with (large_rests l) by lia. }
  iSplit; [|by iIntros "$"]. iIntros ([]) "H3". wp_load "Hp". wp_load "Hn". wp_store "Hpn". wp_store "Hnp". iSpecialize ("Hring" with "Hpn Hnp").
  assert (Hin : (b, s) ∈ free_elements f) by (unfold free_elements; rewrite Hr !elem_of_app; right; right; apply list_elem_of_here).
  destruct (ok_blocks f Hok _ _ Hin) as [Hpos Hgood].
  iAssert (freed b s) with "[Hs Hrest Hp Hn]" as "Hfreed"; [iApply rest_body_freed; [done|]; unfold rest_body; cbn [fst snd]; iFrame|].
  assert (Hok' : free_ok (with_rests f l)).
  { apply (with_rests_ok f _ b s); try done.
    - pose proof (ok_rests f Hok) as Hc. rewrite Hr large_rests_cons in Hc. destruct (s <? 544); lia.
    - unfold free_elements. cbn [with_rests f_smalls f_trees f_rests]. rewrite Hr. apply submseteq_cons. do 2 apply submseteq_skips_l. by apply submseteq_cons. }
  iApply wp_bind_intro. iApply (add_to_free_list_state (with_rests f l) with "Hfreed [$H1 $H2 $H3 $H4 $H5 $Hring $Hbodies]"); [done..|].
  iIntros (f' (Hok'' & Hel & Hrests)) "Hf". iApply (IH with "Hf"); [done|rewrite Hrests; cbn [with_rests f_rests length] in *; lia|].
  iIntros (f'' (Hok3 & Hel3 & Hlt)) "Hf". iApply ("HΦ" with "[%] Hf"). split; [done|]. split; [|done]. rewrite Hel3 Hel.
  unfold free_elements. cbn [with_rests f_smalls f_trees f_rests]. rewrite Hr. solve_Permutation.
Qed.

Lemma rests_words l : rests_in l ⊢ [∗ list] a ∈ info_size <$> l.*1, ∃ v, a ↦ v.
Proof using Type.
  iIntros "[_ H]". rewrite !big_sepL_fmap. iApply (big_sepL_mono with "H"). iIntros (k x _) "[H _]". by iExists _.
Qed.

Lemma rests_fuel f (Φ : nat → hpropI) Ψ :
  free_words f -∗ (∀ n, ⌜(length (f_rests f) < n)%nat⌝ -∗ free_words f -∗ Φ n) -∗ wp words_fuel Φ Ψ.
Proof using Type.
  iIntros "Hf HΦ". iApply (wp_fuel (info_size <$> (f_rests f).*1) with "Hf").
  - iIntros "(_ & _ & _ & _ & _ & H)". by iApply rests_words.
  - iIntros (n). rewrite !length_fmap. iIntros (Hn) "Hf". by iApply ("HΦ" with "[//] Hf").
Qed.

Lemma add_to_rest_list_spec F b s (Φ : unit → hpropI) Ψ : 0 < b → good_size s →
  freed b s -∗ free_lists F -∗ (free_lists ((b, s) :: F) -∗ Φ tt) -∗ wp (zend_mm_add_to_rest_list heap b) Φ Ψ.
Proof using heap_pos.
  iIntros (Hb Hs) "Hb (%f & [%Hok %Hel] & Hf) HΦ". unfold zend_mm_add_to_rest_list.
  iApply wp_bind_intro. iApply (rests_fuel with "Hf"). iIntros (n Hn) "Hf". iApply wp_bind_intro. iApply (evict_rests_spec with "Hf"); [done|done|].
  iIntros (f' (Hok' & Hel' & Hlt)) "(H1 & H2 & H3 & H4 & H5 & [Hring Hbodies])". iDestruct "Hb" as "[Hbs Hb]". unfold ZEND_MM_FREE_BLOCK_SIZE. wp_load "Hbs".
  rewrite links_words; [|done]. iDestruct "Hb" as "([% Hp] & [% Hn] & Hrest)". rewrite small_size.
  iApply wp_bind_intro. iApply (wp_wand _ (λ _, rest_body (b, s) ∗ rest_count heap ↦ large_rests (f_rests f' ++ [(b, s)]))%I _ Ψ with "[Hbs Hrest H3]").
  { rewrite large_rests_app large_rests_cons. change (large_rests []) with 0. pose proof (large_rests_pos (f_rests f')). unfold rest_body. cbn [fst snd].
    destruct (Z.ltb_spec s 544); cbn [negb].
    - wp_ret. replace (large_rests (f_rests f') + (0 + 0)) with (large_rests (f_rests f')) by lia. iFrame.
    - rewrite parent_word; [|done..]. iDestruct "Hrest" as "[[% Hpar] Hrest]". wp_store "Hpar". wp_load "H3". wp_store "H3".
      rewrite s32_small; [|lia]. replace (large_rests (f_rests f') + (1 + 0)) with (large_rests (f_rests f') + 1) by lia. iFrame. }
  iSplit; [|by iIntros "$"]. iIntros ([]) "[Hbody H3]".
  iDestruct (path_insert_last with "Hring") as "(Hpn & Hnp & Hring)". rewrite -rests_prev. wp_load "Hnp". wp_load "Hpn". wp_store "Hp". wp_store "Hn". wp_store "Hnp". wp_store "Hpn".
  iApply "HΦ". iExists (with_rests f' (f_rests f' ++ [(b, s)])). assert (HE : free_elements (with_rests f' (f_rests f' ++ [(b, s)])) ≡ₚ (b, s) :: free_elements f').
  { unfold free_elements. cbn [with_rests f_smalls f_trees f_rests]. solve_Permutation. }
  iSplit; [iPureIntro; split|].
  - apply (with_rests_ok f' _ b s); try done; [|by rewrite HE]. rewrite large_rests_app large_rests_cons. change (large_rests []) with 0. destruct (s <? 544); lia.
  - by rewrite Hel HE Hel'.
  - iFrame "H1 H2 H3 H4 H5". unfold rests_in. cbn [with_rests f_rests]. rewrite fmap_app big_sepL_app big_sepL_singleton. iFrame "Hbodies Hbody".
    iApply ("Hring" with "Hpn Hp Hn Hnp").
Qed.

End free.
