(* ===== verification/MmSearch.v ===== *)
(** * Searching the free blocks of the memory manager

    What the searches of [_zend_mm_alloc_int] find: in the buckets of small blocks, in the
    trees of large ones, and in the list of rests. *)

From iris.proofmode Require Import proofmode.
From S2P Require Import Prelude WordLogic MmModel MmBits MmRepr MmTrie MmFree.
Local Open Scope Z_scope.

Section search.
Context (heap : Z).

Local Abbreviation sentinel i := (ZEND_MM_SMALL_FREE_BUCKET heap i).
Local Abbreviation rests_at := (ZEND_MM_REST_BUCKET heap).
Local Abbreviation root i := (large_free_buckets heap i).
Local Abbreviation free_words := (free_words heap).

(** the blocks of the trees *)
Definition tree_blocks (f : free_state) : list (Z * Z) := concat (imap (λ _, elements) (f_trees f)).

(** [q] is a block of [l] that is large enough, and of the very size if there is one *)
Definition good_fit (l : list (Z * Z)) (ts q : Z) : Prop :=
  ∃ s, (q, s) ∈ l ∧ ts ≤ s ∧ ((∃ b, (b, ts) ∈ l) → s = ts).
(** no block of [l] is large enough *)
Definition no_fit (l : list (Z * Z)) (ts : Z) : Prop := ∀ b s, (b, s) ∈ l → s < ts.
(** [q] is a block of [l] that is large enough, and none of those is smaller *)
Definition best_fit (l : list (Z * Z)) (ts q s : Z) : Prop :=
  (q, s) ∈ l ∧ ts ≤ s ∧ ∀ b s', (b, s') ∈ l → ts ≤ s' → s ≤ s'.

(** ** One tree *)

Lemma search_bucket_spec (i : nat) t ts Φ Ψ :
  tree_ok i (2 ^ Z.of_nat i) t → t ≠ Leaf → (i < 64)%nat → 2 ^ Z.of_nat i ≤ ts < 2 ^ Z.of_nat i + 2 ^ Z.of_nat i →
  tree_at (root (Z.of_nat i)) t -∗
  (∀ r, ⌜match r with Some q => good_fit (elements t) ts q | None => no_fit (elements t) ts end⌝ -∗ tree_at (root (Z.of_nat i)) t -∗ Φ r) -∗
  wp (search_bucket heap ts (Z.of_nat i)) Φ Ψ.
Proof using Type.
  iIntros (Hok Hne Hi Hts) "Ht HΦ". unfold search_bucket. iDestruct (tree_at_top with "Ht") as "[Htop Ht]". wp_load "Htop". iSpecialize ("Ht" with "Htop").
  wp_bind. change (u64 (Z.shiftl ts (ZEND_MM_NUM_BUCKETS - Z.of_nat i))) with (bits_left ts (Z.of_nat i)).
  iApply (search_path_spec t (root (Z.of_nat i)) ts 65 i (2 ^ Z.of_nat i) t Leaf 0 SIZE_MAX with "Ht"); try done; [constructor|lia|lia|by left|by left|].
  iIntros (r Hr) "Ht". destruct r as [q|[[bf bs] rst]].
  - wp_ret. iApply ("HΦ" with "[%] Ht"). by exists ts.
  - destruct Hr as (Hfits & Hex & tr & -> & Hlarger & Hnone). wp_bind.
    assert (Hcase : ∃ k lo, tr = Leaf ∨ sub tr t ∧ tree_ok k lo tr ∧ ts < lo ∧ (k < 65)%nat).
    { destruct Hlarger as [->|(Hs & k & lo & ? & ? & ?)]; [exists 0%nat, 0; by left|exists k, lo; by right]. }
    destruct Hcase as (k & lo & Hcase). iApply (search_rest_spec t _ ts 65 k lo tr bf bs with "Ht"); [done..|]. iIntros (bf' [[bs' Hfits'] Hz]) "Ht".
    destruct Hfits' as [[-> _]|(Hpos & Hle & rs & t0 & t1 & Hsub)].
    + cbn [Z.eqb negb]. wp_ret. iApply ("HΦ" with "[%] Ht"). destruct (Hz eq_refl) as [Htr ->]. destruct (Hnone Htr) as [_ Hall]. by destruct (Hall eq_refl).
    + destruct (Z.eqb_spec bf' 0); [lia|]. cbn [negb]. wp_bind. iApply (read_next t _ _ _ _ _ _ Hsub with "Ht"). iIntros "Ht". wp_ret. iApply ("HΦ" with "[%] Ht").
      exists bs'. split; [eapply sub_elements; [done|apply head_element]|]. split; [done|]. intros [b Hb]. by apply Hex in Hb.
Qed.

(** ** All trees *)

Lemma tree_blocks_lookup f i t b s : f_trees f !! i = Some t → (b, s) ∈ elements t → (b, s) ∈ tree_blocks f.
Proof using Type. intros Ht Hb. apply elem_of_concat_imap. by exists i, t. Qed.

Lemma tree_blocks_cases f b s : free_ok f → (b, s) ∈ tree_blocks f →
  ∃ i t, f_trees f !! i = Some t ∧ (b, s) ∈ elements t ∧ t ≠ Leaf ∧ (i < 64)%nat ∧ 2 ^ Z.of_nat i ≤ s < 2 ^ Z.of_nat i + 2 ^ Z.of_nat i.
Proof using Type.
  intros Hok (i & t & Ht & Hb)%elem_of_concat_imap. exists i, t. do 2 (split; [done|]). split; [intros ->; by apply not_elem_of_nil in Hb|].
  destruct (ok_tree f Hok i t Ht) as [Htok _]. destruct (elements_range _ _ _ _ _ Htok Hb) as [Hs _].
  split; [rewrite -(ok_trees f Hok); by eapply lookup_lt_Some|done].
Qed.

(** two buckets have no size in common, and their order is that of the sizes *)
Lemma pow_bucket (i j : nat) s ts :
  2 ^ Z.of_nat i ≤ s < 2 ^ Z.of_nat i + 2 ^ Z.of_nat i → 2 ^ Z.of_nat j ≤ ts < 2 ^ Z.of_nat j + 2 ^ Z.of_nat j →
  ((i < j)%nat → s < ts) ∧ ((j < i)%nat → ts < s).
Proof using Type.
  intros Hs Hts. split; intros Hlt.
  - assert (2 ^ Z.of_nat (S i) ≤ 2 ^ Z.of_nat j) by (apply Z.pow_le_mono_r; lia). rewrite pow_succ_nat in H. lia.
  - assert (2 ^ Z.of_nat (S j) ≤ 2 ^ Z.of_nat i) by (apply Z.pow_le_mono_r; lia). rewrite pow_succ_nat in H. lia.
Qed.

Lemma same_bucket (i j : nat) s :
  2 ^ Z.of_nat i ≤ s < 2 ^ Z.of_nat i + 2 ^ Z.of_nat i → 2 ^ Z.of_nat j ≤ s < 2 ^ Z.of_nat j + 2 ^ Z.of_nat j → i = j.
Proof using Type. intros Hs Hs'. destruct (pow_bucket i j s s Hs Hs') as [H1 H2]. destruct (Nat.lt_trichotomy i j) as [Hlt|[Heq|Hlt]]; [specialize (H1 Hlt)|done|specialize (H2 Hlt)]; lia. Qed.

(** no tree of bucket [i] or more: nothing fits *)
Lemma no_larger_tree f (i : nat) ts k : free_ok f → 2 ^ Z.of_nat i ≤ ts < 2 ^ Z.of_nat i + 2 ^ Z.of_nat i →
  Z.of_nat i ≤ k → Z.shiftr (f_large_bitmap f) k = 0 →
  (∀ j t b s, Z.of_nat i ≤ Z.of_nat j < k → f_trees f !! j = Some t → (b, s) ∈ elements t → s < ts) → no_fit (tree_blocks f) ts.
Proof using Type.
  intros Hok Hts Hk Hz Hmid b s Hb. destruct (tree_blocks_cases f b s Hok Hb) as (j & t & Ht & Hin & Hne & Hj & Hs).
  destruct (Z.lt_ge_cases (Z.of_nat j) (Z.of_nat i)) as [Hlt|Hge]; [apply (pow_bucket j i s ts); [done..|lia]|].
  destruct (Z.lt_ge_cases (Z.of_nat j) k) as [Hlt|Hge']; [by eapply Hmid|]. destruct (ok_tree f Hok j t Ht) as [_ Hbit].
  apply Hbit in Hne. rewrite (bitmap_none _ k) in Hne; [done|lia|done].
Qed.

Lemma search_larger_spec f (i : nat) k ts Φ Ψ : free_ok f → 2 ^ Z.of_nat i ≤ ts < 2 ^ Z.of_nat i + 2 ^ Z.of_nat i →
  Z.of_nat i ≤ k → Z.shiftr (f_large_bitmap f) k ≠ 0 →
  (k = Z.of_nat i → Z.testbit (f_large_bitmap f) k = false) →
  (∀ t b, f_trees f !! i = Some t → (b, ts) ∉ elements t) →
  free_words f -∗ (∀ q, ⌜good_fit (tree_blocks f) ts q⌝ -∗ free_words f -∗ Φ q) -∗
  wp (search_larger heap (Z.shiftr (f_large_bitmap f) k) k) Φ Ψ.
Proof using Type.
  iIntros (Hok Hts Hk Hnz Hclear Hex) "Hf HΦ". destruct (bitmap_first _ k (ok_large_bitmap f Hok) ltac:(lia) Hnz) as [Hj Hbit].
  set (j := k + zend_mm_low_bit (Z.shiftr (f_large_bitmap f) k)) in *.
  assert (Hij : Z.of_nat i < j). { destruct (Z.eq_dec j (Z.of_nat i)); [|lia]. assert (Hjk : j = k) by lia. rewrite Hjk Hclear in Hbit; [done|lia]. }
  destruct (lookup_lt_is_Some_2 (f_trees f) (Z.to_nat j)) as [t Ht]; [rewrite (ok_trees f Hok); lia|].
  destruct (ok_tree f Hok _ _ Ht) as [Htok Hleaf]. rewrite Z2Nat.id in Hleaf; [|lia]. apply Hleaf in Hbit as Hne.
  iDestruct "Hf" as "(H1 & H2 & H3 & H4 & H5 & H6)". iDestruct (big_sepL_lookup_acc with "H5") as "[Ht H5]"; [done|].
  unfold search_larger. fold j. unfold tree_in. rewrite Z2Nat.id; [|lia]. destruct t as [|p s rs t0 t1]; [done|].
  iDestruct (tree_at_top with "Ht") as "[Htop Ht]". wp_load "Htop". iSpecialize ("Ht" with "Htop"). cbn [top]. wp_bind.
  iApply (search_smallest_spec _ (root j) 65 (Z.to_nat j) _ p s rs t0 t1 p s rs t0 t1 with "Ht"); [constructor|done|lia|constructor|].
  iIntros (b' s' rs' t0' t1' Hsub) "Ht". iApply (read_next _ _ _ _ _ _ _ Hsub with "Ht"). iIntros "Ht". iSpecialize ("H5" with "Ht").
  iApply ("HΦ" with "[%] [$H1 $H2 $H3 $H4 $H5 $H6]"). assert (Hin : (hd b' rs', s') ∈ elements (Node p s rs t0 t1)) by (eapply sub_elements; [done|apply head_element]).
  destruct (elements_range _ _ _ _ _ Htok Hin) as [Hs' _]. exists s'. split; [by eapply tree_blocks_lookup|].
  assert (ts < s') by (apply (pow_bucket (Z.to_nat j) i s' ts); [done..|lia]). split; [lia|]. intros [b Hb].
  destruct (tree_blocks_cases f b ts Hok Hb) as (i' & t' & Ht' & Hb' & _ & Hi' & Hts'). rewrite (same_bucket i' i ts Hts' Hts) in Ht'. by eapply Hex in Hb'.
Qed.

Lemma search_large_block_state f ts Φ Ψ : free_ok f → good_size ts →
  free_words f -∗
  (∀ q, ⌜(q = 0 ∧ no_fit (tree_blocks f) ts) ∨ good_fit (tree_blocks f) ts q⌝ -∗ free_words f -∗ Φ q) -∗
  wp (zend_mm_search_large_block heap ts) Φ Ψ.
Proof using Type.
  iIntros (Hok Hg) "Hf HΦ". destruct (large_bucket ts Hg) as (i & Hi & Hi64 & Hts). unfold zend_mm_search_large_block. rewrite Hi.
  iDestruct "Hf" as "(H1 & H2 & H3)". wp_load "H2". iAssert (free_words f) with "[$H1 $H2 $H3]" as "Hf".
  destruct (Z.eqb_spec (Z.shiftr (f_large_bitmap f) (Z.of_nat i)) 0) as [Hz|Hnz].
  { wp_ret. iApply ("HΦ" with "[%] Hf"). left. split; [done|]. apply (no_larger_tree f i ts (Z.of_nat i)); try done. intros; lia. }
  rewrite low_bit_set Z.shiftr_spec; [|lia]. rewrite Z.add_0_l. destruct (Z.testbit _ _) eqn:Hbit.
  2: { iApply (search_larger_spec f i (Z.of_nat i) ts with "Hf"); [done..|lia|done| | |].
       - done.
       - intros t b Ht Hb. destruct (ok_tree f Hok i t Ht) as [_ Hleaf]. rewrite Hbit in Hleaf. destruct (decide (t = Leaf)) as [->|Hne]; [by apply not_elem_of_nil in Hb|]. by apply Hleaf in Hne.
       - iIntros (q Hq) "Hf". iApply ("HΦ" with "[%] Hf"). by right. }
  destruct (lookup_lt_is_Some_2 (f_trees f) i) as [t Ht]; [by rewrite (ok_trees f Hok)|]. destruct (ok_tree f Hok i t Ht) as [Htok Hleaf]. apply Hleaf in Hbit as Hne.
  iDestruct "Hf" as "(H1 & H2 & H3 & H4 & H5 & H6)". iDestruct (big_sepL_lookup_acc with "H5") as "[Ht H5]"; [done|]. wp_bind.
  iApply (search_bucket_spec i t ts with "Ht"); [done..|]. iIntros (r Hr) "Ht". iSpecialize ("H5" with "Ht").
  iAssert (free_words f) with "[$H1 $H2 $H3 $H4 $H5 $H6]" as "Hf". destruct r as [q|].
  - wp_ret. iApply ("HΦ" with "[%] Hf"). right. destruct Hr as (s & Hin & Hle & Hexact). exists s. split; [by eapply tree_blocks_lookup|]. split; [done|].
    intros [b Hb]. destruct (tree_blocks_cases f b ts Hok Hb) as (i' & t' & Ht' & Hb' & _ & _ & Hts'). apply Hexact.
    rewrite (same_bucket i' i ts Hts' Hts) in Ht'. simplify_eq. by exists b.
  - rewrite Z.shiftr_shiftr; [|lia]. assert (Hex : ∀ t' b, f_trees f !! i = Some t' → (b, ts) ∉ elements t').
    { intros t' b ? Hb. simplify_eq. specialize (Hr b ts Hb). lia. }
    destruct (Z.eqb_spec (Z.shiftr (f_large_bitmap f) (Z.of_nat i + 1)) 0) as [Hz'|Hnz'].
    + wp_ret. iApply ("HΦ" with "[%] Hf"). left. split; [done|]. apply (no_larger_tree f i ts (Z.of_nat i + 1)); try done; [lia|].
      intros j t' b s Hj Ht' Hb. assert (j = i) as -> by lia. simplify_eq. by eapply Hr.
    + iApply (search_larger_spec f i (Z.of_nat i + 1) ts with "Hf"); [done..|lia|done|lia|done|].
      iIntros (q Hq) "Hf". iApply ("HΦ" with "[%] Hf"). by right.
Qed.

(** ** Small blocks *)

Lemma search_bitmap_state f (i : nat) Φ Ψ : free_ok f → (i < 64)%nat → Z.shiftr (f_bitmap f) (Z.of_nat i) ≠ 0 →
  let j := Z.of_nat i + zend_mm_low_bit (Z.shiftr (f_bitmap f) (Z.of_nat i)) in
  free_words f -∗
  (∀ q s, ⌜(q, s) ∈ free_elements f ∧ small_size_of i ≤ s⌝ -∗ free_words f -∗ Φ q) -∗
  wp (rd (free_buckets heap (j * 2))) Φ Ψ.
Proof using Type.
  iIntros (Hok Hi Hnz j) "Hf HΦ". destruct (bitmap_first _ (Z.of_nat i) (ok_bitmap f Hok) ltac:(lia) Hnz) as [Hj Hbit]. fold j in Hj, Hbit.
  clearbody j. destruct (Z_of_nat_complete j ltac:(lia)) as [n ->].
  destruct (lookup_lt_is_Some_2 (f_smalls f) n) as [l Hl]; [rewrite (ok_smalls f Hok); lia|].
  assert (Hne : l ≠ []). { intros ->. by apply (ok_small_bits f Hok n). }
  iDestruct "Hf" as "(H1 & H2 & H3 & H4 & H5)". iDestruct (big_sepL_lookup_acc with "H4") as "[[Hring Hbodies] H4]"; [done|].
  iDestruct (ring_ends with "Hring") as "(Hp & Hn & Hring)". rewrite sentinel_prev. wp_load "Hp". iSpecialize ("Hring" with "Hp Hn"). iSpecialize ("H4" with "[$Hring $Hbodies]").
  destruct l as [|q l _] using rev_ind; [done|]. rewrite last_snoc. cbn [default].
  iApply ("HΦ" $! q (small_size_of n) with "[%] [$H1 $H2 $H3 $H4 $H5]"). split; [|unfold small_size_of; lia].
  unfold free_elements. rewrite elem_of_app elem_of_concat_imap. left. exists n, (l ++ [q]). split; [done|].
  apply list_elem_of_fmap. exists q. split; [done|]. rewrite elem_of_app. right. apply list_elem_of_here.
Qed.

(** ** The rests *)

(** the candidate after the blocks [l] *)
Definition candidate (l : list (Z * Z)) (ts bf bs : Z) : Prop := (bf = 0 ∧ bs = SIZE_MAX ∧ no_fit l ts) ∨ best_fit l ts bf bs.

Lemma candidate_step l ts bf bs b s : candidate l ts bf bs → good_size s → s ≠ ts →
  let '(bf', bs') := if (s >? ts) && (s <? bs) then (b, s) else (bf, bs) in candidate ((b, s) :: l) ts bf' bs'.
Proof using Type.
  intros Hc [Hs [q Hq]] Hne. destruct (Z.gtb_spec s ts); cbn [andb]; [destruct (Z.ltb_spec s bs)|].
  - right. split; [apply list_elem_of_here|]. split; [lia|]. intros b' s' [[= -> ->]|Hin]%elem_of_cons Hle; [done|].
    destruct Hc as [(_ & _ & Hnone)|(_ & _ & Hbest)]; [specialize (Hnone _ _ Hin)|specialize (Hbest _ _ Hin Hle)]; lia.
  - destruct Hc as [(_ & -> & _)|(Hin & Hle & Hbest)]; [unfold SIZE_MAX in *; lia|]. right. split; [by apply elem_of_cons; right|]. split; [done|].
    intros b' s' [[= -> ->]|Hin']%elem_of_cons Hle'; [done|]. by apply (Hbest b').
  - destruct Hc as [(-> & -> & Hnone)|(Hin & Hle & Hbest)]; [left; do 2 (split; [done|])|right; split; [by apply elem_of_cons; right|split; [done|]]];
      intros b' s' [[= -> ->]|Hin']%elem_of_cons; [lia|by apply (Hnone b')|lia|by apply (Hbest b')].
Qed.

Lemma ring_member_ne a l q : q ∈ l → ring a l ⊢ ⌜q ≠ a⌝.
Proof using Type.
  intros (l1 & l2 & ->)%list_elem_of_split. unfold ring. rewrite path_app. iIntros "[H1 H2]".
  iDestruct (path_insert_last with "H1") as "(_ & H1 & _)". iDestruct (path_insert_last with "H2") as "(_ & H2 & _)".
  iDestruct (points_to_ne with "[$H1 $H2]") as %Hne. iPureIntro. intros ->. done.
Qed.

Lemma search_rests_spec f fuel l1 l2 ts bf bs Φ Ψ : free_ok f → f_rests f = l1 ++ l2 → (length l1 < fuel)%nat → candidate l2 ts bf bs →
  free_words f -∗
  (∀ q, ⌜(q = 0 ∧ no_fit (f_rests f) ts) ∨ ∃ s, best_fit (f_rests f) ts q s⌝ -∗ free_words f -∗ Φ q) -∗
  wp (search_rests_loop heap fuel ts (default rests_at (last l1.*1)) bf bs) Φ Ψ.
Proof using Type.
  revert l2 bf bs fuel. induction l1 as [|[b s] l1 IH] using rev_ind; intros l2 bf bs fuel Hok Hl Hf Hc; iIntros "Hf HΦ".
  { destruct fuel as [|fuel]; [cbn in Hf; lia|]. cbn [search_rests_loop fmap list_fmap last default]. rewrite Z.eqb_refl. cbn [negb]. wp_ret.
    iApply ("HΦ" with "[%] Hf"). rewrite Hl. destruct Hc as [(-> & _ & Hnone)|Hbest]; [by left|]. right. by exists bs. }
  rewrite length_app in Hf. cbn [length] in Hf. destruct fuel as [|fuel]; [lia|]. rewrite fmap_app last_snoc. cbn [fst from_option id search_rests_loop].
  rewrite -app_assoc in Hl. cbn [app] in Hl. assert (Hin : (b, s) ∈ free_elements f).
  { unfold free_elements. rewrite Hl !elem_of_app. right. right. right. apply list_elem_of_here. }
  destruct (ok_blocks f Hok _ _ Hin) as [Hpos Hgood]. iDestruct "Hf" as "(H1 & H2 & H3 & H4 & H5 & [Hring Hbodies])".
  iAssert ⌜b ≠ rests_at⌝%I as %Hne. { iApply (ring_member_ne with "Hring"). rewrite Hl fmap_app fmap_cons elem_of_app. right. apply list_elem_of_here. }
  destruct (Z.eqb_spec b rests_at); [done|]. cbn [negb]. rewrite Hl big_sepL_app big_sepL_cons. iDestruct "Hbodies" as "(Hb1 & [Hs Hb] & Hb2)". cbn [fst snd].
  unfold ZEND_MM_FREE_BLOCK_SIZE. wp_load "Hs". destruct (Z.eqb_spec s ts) as [->|Hss].
  { wp_ret. iApply ("HΦ" $! b with "[%] [-]"); [right; exists ts; split; [rewrite elem_of_app; right; apply list_elem_of_here|by split]|].
    unfold MmFree.free_words, rests_in. rewrite Hl fmap_app fmap_cons big_sepL_app big_sepL_cons. iFrame. }
  rewrite fmap_app fmap_cons. unfold ring. cbn [fst]. iDestruct (path_read with "Hring") as "(Hp & Hn & Hring)".
  pose proof (candidate_step _ _ _ _ b s Hc Hgood Hss) as Hc'. destruct (if (s >? ts) && (s <? bs) then (b, s) else (bf, bs)) as [bf' bs'].
  wp_load "Hp". iSpecialize ("Hring" with "Hp Hn"). iApply (IH ((b, s) :: l2) bf' bs' fuel Hok Hl with "[-HΦ]"); [lia|done| |by rewrite Hl].
  unfold MmFree.free_words, rests_in. rewrite Hl fmap_app fmap_cons big_sepL_app big_sepL_cons. iFrame.
Qed.

End search.
