(* ===== verification/MmLayout.v ===== *)
(** * The layout of the memory manager's segments

    A segment is a row of blocks, free and used, between its header and a guard.  The words
    [info_size] and [info_prev] of a block are the tag of the block and of the one before
    it; that of a free block belongs to the free lists. *)

From iris.proofmode Require Import proofmode.
From S2P Require Import Prelude WordLogic MmModel MmBits MmRepr MmTrie MmFree.
Local Open Scope Z_scope.

(** ** Blocks in a row *)

Inductive chunk : Type :=
| Free (s : Z)
| Used (s : Z).

Definition chunk_size (c : chunk) : Z := match c with Free s | Used s => s end.
Definition is_free (c : chunk) : bool := match c with Free _ => true | Used _ => false end.
(** the word [info_size] of the block *)
Definition chunk_tag (c : chunk) : Z := match c with Free s => s | Used s => s + 1 end.
Definition chunk_ok (c : chunk) : Prop := good_size (chunk_size c).

Fixpoint total (bs : list chunk) : Z := match bs with [] => 0 | c :: bs' => chunk_size c + total bs' end.
(** the tag of the last block, [w] when there is none *)
Fixpoint tag (w : Z) (bs : list chunk) : Z := match bs with [] => w | c :: bs' => tag (chunk_tag c) bs' end.

(** the free and the used blocks of a row from [b] *)
Fixpoint frees (b : Z) (bs : list chunk) : list (Z * Z) :=
  match bs with
  | [] => []
  | Free s :: bs' => (b, s) :: frees (b + s) bs'
  | Used s :: bs' => frees (b + s) bs'
  end.
Fixpoint useds (b : Z) (bs : list chunk) : list (Z * Z) :=
  match bs with
  | [] => []
  | Free s :: bs' => useds (b + s) bs'
  | Used s :: bs' => (b, s) :: useds (b + s) bs'
  end.

Lemma total_app bs1 bs2 : total (bs1 ++ bs2) = total bs1 + total bs2.
Proof. induction bs1 as [|c bs1 IH]; cbn [total app]; lia. Qed.
Lemma tag_app w bs1 bs2 : tag w (bs1 ++ bs2) = tag (tag w bs1) bs2.
Proof. revert w. induction bs1 as [|c bs1 IH]; intros w; [done|]. apply IH. Qed.
Lemma frees_app b bs1 bs2 : frees b (bs1 ++ bs2) = frees b bs1 ++ frees (b + total bs1) bs2.
Proof.
  revert b. induction bs1 as [|[s|s] bs1 IH]; intros b; cbn [frees app total chunk_size]; [by rewrite Z.add_0_r|..];
    rewrite IH Z.add_assoc; done.
Qed.
Lemma useds_app b bs1 bs2 : useds b (bs1 ++ bs2) = useds b bs1 ++ useds (b + total bs1) bs2.
Proof.
  revert b. induction bs1 as [|[s|s] bs1 IH]; intros b; cbn [useds app total chunk_size]; [by rewrite Z.add_0_r|..];
    rewrite IH Z.add_assoc; done.
Qed.

Lemma frees_split b bs x s : (x, s) ∈ frees b bs → ∃ bs1 bs2, bs = bs1 ++ Free s :: bs2 ∧ x = b + total bs1.
Proof.
  revert b. induction bs as [|[s'|s'] bs IH]; intros b Hx; cbn [frees] in Hx; [by apply not_elem_of_nil in Hx|..].
  - apply elem_of_cons in Hx as [[= -> ->]|Hx]; [exists [], bs; split; [done|cbn; lia]|].
    destruct (IH _ Hx) as (bs1 & bs2 & -> & ->). exists (Free s' :: bs1), bs2. split; [done|cbn; lia].
  - destruct (IH _ Hx) as (bs1 & bs2 & -> & ->). exists (Used s' :: bs1), bs2. split; [done|cbn; lia].
Qed.
Lemma useds_split b bs x s : (x, s) ∈ useds b bs → ∃ bs1 bs2, bs = bs1 ++ Used s :: bs2 ∧ x = b + total bs1.
Proof.
  revert b. induction bs as [|[s'|s'] bs IH]; intros b Hx; cbn [useds] in Hx; [by apply not_elem_of_nil in Hx|..].
  - destruct (IH _ Hx) as (bs1 & bs2 & -> & ->). exists (Free s' :: bs1), bs2. split; [done|cbn; lia].
  - apply elem_of_cons in Hx as [[= -> ->]|Hx]; [exists [], bs; split; [done|cbn; lia]|].
    destruct (IH _ Hx) as (bs1 & bs2 & -> & ->). exists (Used s' :: bs1), bs2. split; [done|cbn; lia].
Qed.

Lemma total_ok bs : Forall chunk_ok bs → 0 ≤ total bs ∧ (8 | total bs).
Proof.
  induction 1 as [|c bs [Hc Hd] _ [IH1 IH2]]; cbn [total]; [split; [done|by exists 0]|]. split; [lia|by apply Z.divide_add_r].
Qed.

(** ** What the tags say *)

Section tags.
Context (c : chunk).
Hypothesis Hc : chunk_ok c.

Lemma tag_divides : ∃ q, chunk_size c = q * 8 ∧ 4 ≤ q.
Proof using Hc. destruct Hc as [Hs [q Hq]]. exists q. split; [done|lia]. Qed.

Lemma tag_free_bit : (Z.land (chunk_tag c) ZEND_MM_USED_BLOCK =? 0) = is_free c.
Proof using Hc.
  destruct tag_divides as (q & Hq & _). unfold ZEND_MM_USED_BLOCK. change 1 with (Z.ones 1). rewrite Z.land_ones //. change (2 ^ 1) with 2.
  destruct c as [s|s]; cbn [chunk_tag chunk_size is_free] in *; apply Z.eqb_eq || apply Z.eqb_neq; subst s.
  - apply Z.mod_divide; [lia|]. exists (q * 4). lia.
  - rewrite (_ : q * 8 + 1 = 1 + q * 4 * 2); [|lia]. by rewrite Z.mod_add.
Qed.

Lemma tag_low : chunk_tag c mod 4 = if is_free c then 0 else 1.
Proof using Hc.
  destruct tag_divides as (q & Hq & _). destruct c as [s|s]; cbn [chunk_tag chunk_size is_free] in *; subst s.
  - apply Z.mod_divide; [lia|]. exists (q * 2). lia.
  - rewrite (_ : q * 8 + 1 = 1 + q * 2 * 4); [|lia]. by rewrite Z.mod_add.
Qed.

Lemma tag_size : Z.land (chunk_tag c) (Z.lnot ZEND_MM_TYPE_MASK) = chunk_size c.
Proof using Hc.
  unfold ZEND_MM_TYPE_MASK. change 3 with (Z.ones 2). rewrite -Z.ldiff_land Z.ldiff_ones_r // Z.shiftr_div_pow2 // Z.shiftl_mul_pow2 //. change (2 ^ 2) with 4.
  pose proof (Z.div_mod (chunk_tag c) 4 ltac:(lia)) as Hdiv. rewrite tag_low in Hdiv. destruct c as [s|s]; cbn [chunk_tag chunk_size is_free] in *; lia.
Qed.

Lemma tag_not_guard : (Z.land (chunk_tag c) ZEND_MM_TYPE_MASK =? ZEND_MM_GUARD_BLOCK) = false.
Proof using Hc.
  unfold ZEND_MM_TYPE_MASK. change 3 with (Z.ones 2). rewrite Z.land_ones //. change (2 ^ 2) with 4. rewrite tag_low. by destruct (is_free c).
Qed.

Lemma tag_not_first : (chunk_tag c =? ZEND_MM_GUARD_BLOCK) = false.
Proof using Hc. destruct tag_divides as (q & Hq & ?). apply Z.eqb_neq. unfold ZEND_MM_GUARD_BLOCK. destruct c; cbn [chunk_tag chunk_size] in *; lia. Qed.

End tags.

Lemma lor_tag s : good_size s → Z.lor ZEND_MM_USED_BLOCK s = chunk_tag (Used s).
Proof.
  intros [Hs [q ->]]. cbn [chunk_tag]. unfold ZEND_MM_USED_BLOCK. assert (Hland : Z.land (q * 8) 1 = 0).
  { change 1 with (Z.ones 1). rewrite Z.land_ones //. change (2 ^ 1) with 2. apply Z.mod_divide; [lia|]. exists (q * 4). lia. }
  rewrite Z.lor_comm -Z.lxor_lor //. by rewrite -Z.add_nocarry_lxor.
Qed.

(** ** A row in memory *)

Fixpoint headers (b w : Z) (bs : list chunk) : hpropI :=
  match bs with
  | [] => emp
  | c :: bs' =>
      info_prev b ↦ w ∗ (if is_free c then emp else info_size b ↦ chunk_tag c) ∗ headers (b + chunk_size c) (chunk_tag c) bs'
  end%I.

(** [ZEND_MM_GUARD_BLOCK], of the size of a header *)
Definition guard (b w : Z) : hpropI := info_size b ↦ 19 ∗ info_prev b ↦ w.
Definition chain (b w : Z) (bs : list chunk) : hpropI := headers b w bs ∗ guard (b + total bs) (tag w bs).

Lemma headers_app b w bs1 bs2 : headers b w (bs1 ++ bs2) ⊣⊢ headers b w bs1 ∗ headers (b + total bs1) (tag w bs1) bs2.
Proof.
  revert b w. induction bs1 as [|c bs1 IH]; intros b w; cbn [headers app total tag]; [by rewrite left_id Z.add_0_r|].
  rewrite IH Z.add_assoc. by rewrite -!assoc.
Qed.

Lemma chain_app b w bs1 bs2 : chain b w (bs1 ++ bs2) ⊣⊢ headers b w bs1 ∗ chain (b + total bs1) (tag w bs1) bs2.
Proof. unfold chain. rewrite headers_app total_app tag_app Z.add_assoc. by rewrite assoc. Qed.

(** the word [info_prev] of the first block or of the guard *)
Lemma chain_prev b w bs : chain b w bs ⊢ info_prev b ↦ w ∗ (∀ w', info_prev b ↦ w' -∗ chain b w' bs).
Proof.
  unfold chain. destruct bs as [|c bs]; cbn [headers total tag].
  - rewrite Z.add_0_r. iIntros "(_ & H1 & $)". iIntros (w') "$". iFrame.
  - iIntros "[($ & H1 & H2) H3]". iIntros (w') "$". iFrame.
Qed.

(** the word [info_size] of it *)
Definition first_tag (bs : list chunk) : Z := match bs with [] => 19 | c :: _ => chunk_tag c end.

Section lists.
Context (heap : Z).
Local Abbreviation free_lists := (free_lists heap).

Lemma chain_size b w bs F : frees b bs ⊆ F →
  chain b w bs ∗ free_lists F ⊢ info_size b ↦ first_tag bs ∗ (info_size b ↦ first_tag bs -∗ chain b w bs ∗ free_lists F).
Proof using Type.
  intros HF. unfold chain. destruct bs as [|[s|s] bs]; cbn [headers total tag first_tag is_free chunk_tag chunk_size].
  - rewrite Z.add_0_r. iIntros "[(_ & $ & H) HF]". iIntros "$". iFrame.
  - iIntros "[[(H1 & _ & H2) H3] HF]". iDestruct (free_lists_lookup with "HF") as "(_ & $ & HF)"; [apply HF; cbn; apply list_elem_of_here|].
    iIntros "H4". iFrame. by iApply "HF".
  - iIntros "[[(H1 & $ & H2) H3] HF]". iIntros "$". iFrame.
Qed.

(** the word [info_size] of the block before *)
Lemma headers_size b w bs c F : frees b (bs ++ [c]) ⊆ F →
  headers b w (bs ++ [c]) ∗ free_lists F ⊢
    info_size (b + total bs) ↦ chunk_tag c ∗ (info_size (b + total bs) ↦ chunk_tag c -∗ headers b w (bs ++ [c]) ∗ free_lists F).
Proof using Type.
  intros HF. rewrite headers_app. cbn [headers]. destruct c as [s|s]; cbn [is_free chunk_tag].
  - iIntros "[(H1 & H2 & H3) HF]". iDestruct (free_lists_lookup with "HF") as "(_ & $ & HF)".
    { apply HF. rewrite frees_app elem_of_app. right. apply list_elem_of_here. }
    iIntros "H4". iFrame. by iApply "HF".
  - iIntros "[(H1 & H2 & $ & H3) HF]". iIntros "$". iFrame.
Qed.

(** ** A block taken out of its row

    [hole a bs1 s bs2 G]: the row of the blocks [bs1] from [a], then [s] bytes that are
    neither a free nor a used block, then the blocks [bs2]; [G] are free blocks of other rows. *)

Definition hole_free (a : Z) (bs1 : list chunk) (s : Z) (bs2 : list chunk) (G : list (Z * Z)) : list (Z * Z) :=
  frees a bs1 ++ frees (a + total bs1 + s) bs2 ++ G.
Definition hole (a : Z) (bs1 : list chunk) (s : Z) (bs2 : list chunk) (G : list (Z * Z)) : hpropI :=
  let b := a + total bs1 in
  headers a ZEND_MM_GUARD_BLOCK bs1 ∗ info_prev b ↦ tag ZEND_MM_GUARD_BLOCK bs1 ∗ (∃ v, info_size b ↦ v) ∗ span (b + 16) (b + s) ∗
  (∃ w, chain (b + s) w bs2) ∗ free_lists (hole_free a bs1 s bs2 G).

(** the same without the words of the block but its tag, which its owner has *)
Definition gap (a : Z) (bs1 : list chunk) (s : Z) (bs2 : list chunk) (G : list (Z * Z)) : hpropI :=
  let b := a + total bs1 in
  headers a ZEND_MM_GUARD_BLOCK bs1 ∗ info_prev b ↦ tag ZEND_MM_GUARD_BLOCK bs1 ∗ (∃ v, info_size b ↦ v) ∗
  (∃ w, chain (b + s) w bs2) ∗ free_lists (hole_free a bs1 s bs2 G).

Lemma hole_gap a bs1 s bs2 G : hole a bs1 s bs2 G ⊣⊢ gap a bs1 s bs2 G ∗ span (a + total bs1 + 16) (a + total bs1 + s).
Proof using Type. unfold hole, gap. iSplit; [iIntros "($ & $ & $ & $ & $ & $)"|iIntros "(($ & $ & $ & $ & $) & $)"]. Qed.

Record hole_ok (a : Z) (bs1 : list chunk) (s : Z) (bs2 : list chunk) : Prop := HoleOk {
  hole_pos : 0 < a;
  hole_before : Forall chunk_ok bs1;
  hole_size : good_size s;
  hole_after : Forall chunk_ok bs2;
  hole_bound : total bs1 + s + total bs2 < 2 ^ 63
}.

Definition last_free (bs : list chunk) : bool := match last bs with Some c => is_free c | None => false end.
Definition first_free (bs : list chunk) : bool := match bs with c :: _ => is_free c | [] => false end.

Lemma block_span b s : 16 ≤ s → (8 | s) → (∃ v, info_size b ↦ v) ∗ (∃ v, info_prev b ↦ v) ∗ span (b + 16) (b + s) ⊣⊢ span b (b + s).
Proof using Type.
  intros Hs [q ->]. unfold info_size, info_prev. rewrite (span_cons b); [|lia|by exists q; lia]. rewrite (span_cons (b + 8)); [|lia|exists (q - 1); lia].
  by rewrite (_ : b + 8 + 8 = b + 16); [|lia].
Qed.

Lemma words_span x b s : x ≤ b → (8 | b - x) → good_size s →
  span x b ∗ (∃ v, info_size b ↦ v) ∗ (∃ v, info_prev b ↦ v) ∗ span (b + 16) (b + s) ⊣⊢ span x (b + s).
Proof using Type.
  intros Hx Hd [Hs Hq]. rewrite block_span; [|lia|done]. rewrite (span_split x b (b + s)); [done|lia|done|]. by rewrite (_ : b + s - b = s); [|lia].
Qed.

(** the tag of the block before the hole *)
Lemma tag_last bs : Forall chunk_ok bs → (bs = [] ∧ tag ZEND_MM_GUARD_BLOCK bs = 3) ∨ ∃ bs' c, bs = bs' ++ [c] ∧ chunk_ok c ∧ tag ZEND_MM_GUARD_BLOCK bs = chunk_tag c.
Proof using Type.
  intros Hbs. destruct bs as [|c bs _] using rev_ind; [by left|]. right. exists bs, c. rewrite tag_app. apply Forall_app in Hbs as [_ Hc]. apply Forall_cons_1 in Hc as [Hc _]. done.
Qed.

Lemma tag_first bs : Forall chunk_ok bs → (tag ZEND_MM_GUARD_BLOCK bs =? ZEND_MM_GUARD_BLOCK) = bool_decide (bs = []).
Proof using Type.
  intros Hbs. destruct (tag_last bs Hbs) as [[-> _]|(bs' & c & -> & Hc & ->)]; [done|]. rewrite tag_not_first // bool_decide_eq_false_2 //. by destruct bs'.
Qed.

Lemma tag_last_free bs : Forall chunk_ok bs → (Z.land (tag ZEND_MM_GUARD_BLOCK bs) ZEND_MM_USED_BLOCK =? 0) = last_free bs.
Proof using Type.
  intros Hbs. destruct (tag_last bs Hbs) as [[-> _]|(bs' & c & -> & Hc & ->)]; [done|]. unfold last_free. by rewrite last_snoc tag_free_bit.
Qed.

Lemma first_tag_guard bs : Forall chunk_ok bs → (Z.land (first_tag bs) ZEND_MM_TYPE_MASK =? ZEND_MM_GUARD_BLOCK) = bool_decide (bs = []).
Proof using Type. intros Hbs. destruct bs as [|c l]; cbn [first_tag]; [done|]. apply Forall_cons_1 in Hbs as [Hc _]. by rewrite tag_not_guard. Qed.

Lemma first_tag_free bs : Forall chunk_ok bs → (Z.land (first_tag bs) ZEND_MM_USED_BLOCK =? 0) = first_free bs.
Proof using Type. intros Hbs. destruct bs as [|c l]; cbn [first_tag]; [done|]. apply Forall_cons_1 in Hbs as [Hc _]. by rewrite tag_free_bit. Qed.

Section hole.
Context (a s : Z) (bs1 bs2 : list chunk) (G : list (Z * Z)).
Hypothesis Hok : hole_ok a bs1 s bs2.
Local Abbreviation b := (a + total bs1).

Lemma gap_next_size (Φ : Z → hpropI) Ψ :
  gap a bs1 s bs2 G -∗ (gap a bs1 s bs2 G -∗ Φ (first_tag bs2)) -∗ wp (rd (info_size (b + s))) Φ Ψ.
Proof using Type.
  iIntros "(H1 & H2 & H3 & [%w H5] & H6) HΦ". iDestruct (chain_size _ _ _ (hole_free a bs1 s bs2 G) with "[$H5 $H6]") as "[H7 H5]".
  { intros x Hx. unfold hole_free. rewrite !elem_of_app. auto. }
  wp_load "H7". iDestruct ("H5" with "H7") as "[H5 H6]". iApply "HΦ". iFrame.
Qed.

Lemma gap_prev_tag (Φ : Z → hpropI) Ψ :
  gap a bs1 s bs2 G -∗ (gap a bs1 s bs2 G -∗ Φ (tag ZEND_MM_GUARD_BLOCK bs1)) -∗ wp (rd (info_prev b)) Φ Ψ.
Proof using Type. iIntros "(H1 & H2 & H3) HΦ". wp_load "H2". iApply "HΦ". iFrame. Qed.

Lemma gap_next_free_spec (Φ : bool → hpropI) Ψ :
  gap a bs1 s bs2 G -∗ (gap a bs1 s bs2 G -∗ Φ (first_free bs2)) -∗ wp (ZEND_MM_IS_FREE_BLOCK (b + s)) Φ Ψ.
Proof using Hok.
  iIntros "H HΦ". unfold ZEND_MM_IS_FREE_BLOCK. wp_bind. iApply (gap_next_size with "H"). iIntros "H". wp_ret. rewrite first_tag_free; [by iApply "HΦ"|by eapply hole_after].
Qed.

Lemma gap_next_guard_spec (Φ : bool → hpropI) Ψ :
  gap a bs1 s bs2 G -∗ (gap a bs1 s bs2 G -∗ Φ (bool_decide (bs2 = []))) -∗ wp (ZEND_MM_IS_GUARD_BLOCK (b + s)) Φ Ψ.
Proof using Hok.
  iIntros "H HΦ". unfold ZEND_MM_IS_GUARD_BLOCK. wp_bind. iApply (gap_next_size with "H"). iIntros "H". wp_ret. rewrite first_tag_guard; [by iApply "HΦ"|by eapply hole_after].
Qed.

Lemma gap_prev_free_spec (Φ : bool → hpropI) Ψ :
  gap a bs1 s bs2 G -∗ (gap a bs1 s bs2 G -∗ Φ (last_free bs1)) -∗ wp (ZEND_MM_PREV_BLOCK_IS_FREE b) Φ Ψ.
Proof using Hok.
  iIntros "H HΦ". unfold ZEND_MM_PREV_BLOCK_IS_FREE. wp_bind. iApply (gap_prev_tag with "H"). iIntros "H". wp_ret. rewrite tag_last_free; [by iApply "HΦ"|by eapply hole_before].
Qed.

Lemma gap_first_spec (Φ : bool → hpropI) Ψ :
  gap a bs1 s bs2 G -∗ (gap a bs1 s bs2 G -∗ Φ (bool_decide (bs1 = []))) -∗ wp (ZEND_MM_IS_FIRST_BLOCK b) Φ Ψ.
Proof using Hok.
  iIntros "H HΦ". unfold ZEND_MM_IS_FIRST_BLOCK. wp_bind. iApply (gap_prev_tag with "H"). iIntros "H". wp_ret. rewrite tag_first; [by iApply "HΦ"|by eapply hole_before].
Qed.

(** what is read of a gap is read of a hole *)
Lemma hole_read {A} (m : W A) (v : A) :
  (∀ (Φ : A → hpropI) Ψ, gap a bs1 s bs2 G -∗ (gap a bs1 s bs2 G -∗ Φ v) -∗ wp m Φ Ψ) →
  ∀ (Φ : A → hpropI) Ψ, hole a bs1 s bs2 G -∗ (hole a bs1 s bs2 G -∗ Φ v) -∗ wp m Φ Ψ.
Proof using Type. intros Hm Φ Ψ. rewrite hole_gap. iIntros "[H Hs] HΦ". iApply (Hm with "H"). iIntros "H". iApply "HΦ". iFrame. Qed.

Lemma hole_next_size (Φ : Z → hpropI) Ψ :
  hole a bs1 s bs2 G -∗ (hole a bs1 s bs2 G -∗ Φ (first_tag bs2)) -∗ wp (rd (info_size (b + s))) Φ Ψ.
Proof using Type. apply hole_read, gap_next_size. Qed.
Lemma hole_prev_tag (Φ : Z → hpropI) Ψ :
  hole a bs1 s bs2 G -∗ (hole a bs1 s bs2 G -∗ Φ (tag ZEND_MM_GUARD_BLOCK bs1)) -∗ wp (rd (info_prev b)) Φ Ψ.
Proof using Type. apply hole_read, gap_prev_tag. Qed.
Lemma next_free_spec (Φ : bool → hpropI) Ψ :
  hole a bs1 s bs2 G -∗ (hole a bs1 s bs2 G -∗ Φ (first_free bs2)) -∗ wp (ZEND_MM_IS_FREE_BLOCK (b + s)) Φ Ψ.
Proof using Hok. apply hole_read, gap_next_free_spec. Qed.
Lemma next_guard_spec (Φ : bool → hpropI) Ψ :
  hole a bs1 s bs2 G -∗ (hole a bs1 s bs2 G -∗ Φ (bool_decide (bs2 = []))) -∗ wp (ZEND_MM_IS_GUARD_BLOCK (b + s)) Φ Ψ.
Proof using Hok. apply hole_read, gap_next_guard_spec. Qed.
Lemma prev_free_spec (Φ : bool → hpropI) Ψ :
  hole a bs1 s bs2 G -∗ (hole a bs1 s bs2 G -∗ Φ (last_free bs1)) -∗ wp (ZEND_MM_PREV_BLOCK_IS_FREE b) Φ Ψ.
Proof using Hok. apply hole_read, gap_prev_free_spec. Qed.
Lemma first_spec (Φ : bool → hpropI) Ψ :
  hole a bs1 s bs2 G -∗ (hole a bs1 s bs2 G -∗ Φ (bool_decide (bs1 = []))) -∗ wp (ZEND_MM_IS_FIRST_BLOCK b) Φ Ψ.
Proof using Hok. apply hole_read, gap_first_spec. Qed.

End hole.
End lists.
