(* ===== verification/MmHole.v ===== *)
(** * Joining and splitting blocks

    The steps of [free_block], [free_cached_block] and [split_block] on a block that is out
    of its row: its free neighbours join it, or a part of it goes back. *)

From iris.proofmode Require Import proofmode.
From S2P Require Import Prelude WordLogic MmModel MmBits MmRepr MmTrie MmFree MmLayout.
Local Open Scope Z_scope.

Section hole.
Context (heap : Z).
Hypothesis heap_pos : 0 < heap.
Local Abbreviation free_lists := (free_lists heap).
Local Abbreviation hole := (hole heap).
Local Abbreviation gap := (gap heap).

(** ** The neighbours *)

Lemma next_size_spec a s bs1 s2 bs2 G (Φ : Z → hpropI) Ψ :
  hole a bs1 s (Free s2 :: bs2) G -∗ (hole a bs1 s (Free s2 :: bs2) G -∗ Φ s2) -∗ wp (ZEND_MM_FREE_BLOCK_SIZE (a + total bs1 + s)) Φ Ψ.
Proof using Type. iIntros "H HΦ". unfold ZEND_MM_FREE_BLOCK_SIZE. by iApply (hole_next_size with "H"). Qed.

Lemma prev_block_spec a s s1 bs1 bs2 G (Φ : Z → hpropI) Ψ : good_size s1 →
  hole a (bs1 ++ [Free s1]) s bs2 G -∗ (hole a (bs1 ++ [Free s1]) s bs2 G -∗ Φ (a + total bs1)) -∗
  wp (ZEND_MM_PREV_BLOCK (a + total (bs1 ++ [Free s1]))) Φ Ψ.
Proof using Type.
  iIntros (Hs) "H HΦ". unfold ZEND_MM_PREV_BLOCK. wp_bind. iApply (hole_prev_tag with "H"). iIntros "H". wp_ret.
  rewrite tag_app. cbn [tag]. rewrite tag_size //. unfold ZEND_MM_BLOCK_AT. rewrite total_app. cbn [total chunk_size].
  rewrite (_ : a + (total bs1 + (s1 + 0)) + - s1 = a + total bs1); [|lia]. by iApply "HΦ".
Qed.

Lemma prev_size_spec a s s1 bs1 bs2 G (Φ : Z → hpropI) Ψ :
  hole a (bs1 ++ [Free s1]) s bs2 G -∗ (hole a (bs1 ++ [Free s1]) s bs2 G -∗ Φ s1) -∗
  wp (ZEND_MM_FREE_BLOCK_SIZE (a + total bs1)) Φ Ψ.
Proof using Type.
  iIntros "(H1 & H2 & H3 & H4 & H5 & H6) HΦ". unfold ZEND_MM_FREE_BLOCK_SIZE.
  iDestruct (headers_size heap _ _ _ _ (hole_free a (bs1 ++ [Free s1]) s bs2 G) with "[$H1 $H6]") as "[H7 H1]".
  { intros x Hx. unfold hole_free. rewrite elem_of_app. auto. }
  cbn [chunk_tag]. wp_load "H7". iDestruct ("H1" with "H7") as "[H1 H6]". iApply "HΦ". iFrame.
Qed.

(** the free block after the hole is taken off the free lists: it is part of the hole *)
Lemma gap_remove_next_spec a s bs1 s2 bs2 G (Φ : unit → hpropI) Ψ : hole_ok a bs1 s (Free s2 :: bs2) →
  gap a bs1 s (Free s2 :: bs2) G -∗
  (info_size (a + total bs1 + s) ↦ s2 -∗
   (info_size (a + total bs1 + s) ↦ s2 -∗ gap a bs1 (s + s2) bs2 G ∗ span (a + total bs1 + s) (a + total bs1 + (s + s2))) -∗ Φ tt) -∗
  wp (zend_mm_remove_from_free_list heap (a + total bs1 + s)) Φ Ψ.
Proof using heap_pos.
  iIntros (Hok) "(H1 & H2 & H3 & [%w H5] & H6) HΦ". destruct Hok as [_ _ _ Hafter _]. apply Forall_cons_1 in Hafter as [Hs2 _].
  unfold chunk_ok in Hs2. cbn [chunk_size] in Hs2. set (b := a + total bs1) in *.
  iApply (remove_from_free_list_spec heap heap_pos (frees a bs1 ++ frees (b + s + s2) bs2 ++ G) (b + s) s2 with "[H6]").
  { iApply (free_lists_perm with "H6"). unfold hole_free. fold b. cbn [frees]. solve_Permutation. }
  iIntros "H6 [H7 H8]". unfold chain. cbn [headers is_free chunk_tag chunk_size total tag]. iDestruct "H5" as "[(H9 & _ & H10) H11]".
  iApply ("HΦ" with "H7"). iIntros "H7". unfold MmLayout.gap, hole_free. fold b. rewrite !Z.add_assoc. iSplitR "H7 H8 H9".
  - iFrame.
  - rewrite -(block_span (b + s)); [|destruct Hs2; lia|apply Hs2]. iFrame.
Qed.

Lemma remove_next_spec a s bs1 s2 bs2 G (Φ : unit → hpropI) Ψ : hole_ok a bs1 s (Free s2 :: bs2) →
  hole a bs1 s (Free s2 :: bs2) G -∗
  (info_size (a + total bs1 + s) ↦ s2 -∗ (info_size (a + total bs1 + s) ↦ s2 -∗ hole a bs1 (s + s2) bs2 G) -∗ Φ tt) -∗
  wp (zend_mm_remove_from_free_list heap (a + total bs1 + s)) Φ Ψ.
Proof using heap_pos.
  iIntros (Hok) "H HΦ". rewrite !hole_gap. iDestruct "H" as "[H Hs]". iApply (gap_remove_next_spec with "H"); [done|]. iIntros "H1 H". iApply ("HΦ" with "H1").
  iIntros "H1". iDestruct ("H" with "H1") as "[$ H]". destruct Hok as [_ _ [Hs [q ->]] Hafter _]. apply Forall_cons_1 in Hafter as [[Hs2 [q2 Hq2]] _]. cbn [chunk_size] in *. subst s2.
  rewrite (span_split (a + total bs1 + 16) (a + total bs1 + q * 8) (a + total bs1 + (q * 8 + q2 * 8))); [iFrame|lia|exists (q - 2); lia|exists q2; lia].
Qed.

(** and the one before it *)
Lemma remove_prev_spec a s s1 bs1 bs2 G (Φ : unit → hpropI) Ψ : hole_ok a (bs1 ++ [Free s1]) s bs2 →
  hole a (bs1 ++ [Free s1]) s bs2 G -∗
  (info_size (a + total bs1) ↦ s1 -∗ (info_size (a + total bs1) ↦ s1 -∗ hole a bs1 (s1 + s) bs2 G) -∗ Φ tt) -∗
  wp (zend_mm_remove_from_free_list heap (a + total bs1)) Φ Ψ.
Proof using heap_pos.
  iIntros (Hok) "(H1 & H2 & H3 & H4 & H5 & H6) HΦ". destruct Hok as [_ Hbefore Hs _ _]. apply Forall_app in Hbefore as [_ Hs1]. apply Forall_cons_1 in Hs1 as [Hs1 _].
  unfold chunk_ok in Hs1. cbn [chunk_size] in Hs1. set (b := a + total bs1) in *.
  unfold hole_free. rewrite !total_app. cbn [total chunk_size]. rewrite (_ : a + (total bs1 + (s1 + 0)) = b + s1); [|lia].
  iApply (remove_from_free_list_spec heap heap_pos (frees a bs1 ++ frees (b + s1 + s) bs2 ++ G) b s1 with "[H6]").
  { iApply (free_lists_perm with "H6"). rewrite frees_app. fold b. cbn [frees]. solve_Permutation. }
  iIntros "H6 [H7 H8]". rewrite headers_app. cbn [headers is_free]. fold b. iDestruct "H1" as "(H1 & H9 & _)".
  iApply ("HΦ" with "H7"). iIntros "H7". unfold MmLayout.hole, hole_free. fold b. rewrite !Z.add_assoc.
  iSplitL "H1"; [iExact "H1"|]. iSplitL "H9"; [iExact "H9"|]. iSplitL "H7"; [by iExists _|]. iSplitL "H2 H3 H4 H8"; [|iFrame].
  rewrite -(words_span (b + 16) (b + s1) s); [|destruct Hs1; lia| |done]; [iFrame|]. destruct Hs1 as [_ [q ->]]. exists (q - 2). lia.
Qed.

(** ** Back into the row *)

(** the block of the hole marked as free, before it is in a free list *)
Definition marked (a : Z) (bs1 : list chunk) (s : Z) (bs2 : list chunk) (G : list (Z * Z)) : hpropI :=
  let b := a + total bs1 in
  headers a ZEND_MM_GUARD_BLOCK bs1 ∗ info_prev b ↦ tag ZEND_MM_GUARD_BLOCK bs1 ∗ freed b s ∗ chain (b + s) s bs2 ∗ free_lists (hole_free a bs1 s bs2 G).

Lemma marked_prev_tag a bs1 s bs2 G :
  marked a bs1 s bs2 G ⊢ info_prev (a + total bs1) ↦ tag ZEND_MM_GUARD_BLOCK bs1 ∗ (info_prev (a + total bs1) ↦ tag ZEND_MM_GUARD_BLOCK bs1 -∗ marked a bs1 s bs2 G).
Proof using Type. iIntros "(H1 & $ & H2)". iIntros "$". iFrame. Qed.

Lemma marked_size a bs1 s bs2 G : marked a bs1 s bs2 G ⊢ info_size (a + total bs1) ↦ s ∗ (info_size (a + total bs1) ↦ s -∗ marked a bs1 s bs2 G).
Proof using Type. iIntros "(H1 & H2 & [$ H3] & H4 & H5)". iIntros "H6". iFrame. Qed.

Lemma marked_next_size a bs1 s bs2 G :
  marked a bs1 s bs2 G ⊢ info_size (a + total bs1 + s) ↦ first_tag bs2 ∗ (info_size (a + total bs1 + s) ↦ first_tag bs2 -∗ marked a bs1 s bs2 G).
Proof using Type.
  iIntros "(H1 & H2 & H3 & H5 & H6)". iDestruct (chain_size _ _ _ _ (hole_free a bs1 s bs2 G) with "[$H5 $H6]") as "[$ H5]".
  { intros x Hx. unfold hole_free. rewrite !elem_of_app. auto. }
  iIntros "H7". iDestruct ("H5" with "H7") as "[H5 H6]". iFrame.
Qed.

Lemma marked_is_hole a bs1 s bs2 G : marked a bs1 s bs2 G ⊢ hole a bs1 s bs2 G.
Proof using Type. iIntros "(H1 & H2 & [H3 H4] & H5 & H6)". iFrame. Qed.

Lemma mark_free_spec a s bs1 bs2 G (Φ : unit → hpropI) Ψ : hole_ok a bs1 s bs2 →
  hole a bs1 s bs2 G -∗ (marked a bs1 s bs2 G -∗ Φ tt) -∗ wp (ZEND_MM_BLOCK (a + total bs1) ZEND_MM_FREE_BLOCK s) Φ Ψ.
Proof using Type.
  iIntros (Hok) "(H1 & H2 & [%v H3] & H4 & [%w H5] & H6) HΦ". unfold ZEND_MM_BLOCK, ZEND_MM_BLOCK_AT. rewrite (Z.lor_0_l s : Z.lor ZEND_MM_FREE_BLOCK s = s).
  wp_store "H3". iDestruct (chain_prev with "H5") as "[H7 H5]". wp_store "H7". iApply "HΦ". iSpecialize ("H5" with "H7"). iFrame.
Qed.

(** a block of the row put on a free list: the row is whole again *)
Definition row (a : Z) (bs : list chunk) (G : list (Z * Z)) : hpropI := chain a ZEND_MM_GUARD_BLOCK bs ∗ free_lists (frees a bs ++ G).

Lemma marked_row a s bs1 bs2 G :
  marked a bs1 s bs2 G ⊢ freed (a + total bs1) s ∗ free_lists (hole_free a bs1 s bs2 G) ∗
    (free_lists ((a + total bs1, s) :: hole_free a bs1 s bs2 G) -∗ row a (bs1 ++ Free s :: bs2) G).
Proof using Type.
  iIntros "(H1 & H2 & $ & H4 & $)". iIntros "H5". unfold row. iSplitR "H5".
  - rewrite chain_app. unfold chain. cbn [headers is_free total tag chunk_tag chunk_size]. rewrite !Z.add_assoc. iDestruct "H4" as "[$ $]". iFrame.
  - iApply (free_lists_perm with "H5"). unfold hole_free. rewrite frees_app. cbn [frees]. solve_Permutation.
Qed.

Lemma add_marked_spec a s bs1 bs2 G (Φ : unit → hpropI) Ψ : hole_ok a bs1 s bs2 →
  marked a bs1 s bs2 G -∗ (row a (bs1 ++ Free s :: bs2) G -∗ Φ tt) -∗ wp (zend_mm_add_to_free_list heap (a + total bs1)) Φ Ψ.
Proof using heap_pos.
  iIntros (Hok) "H HΦ". pose proof (total_ok _ (hole_before _ _ _ _ Hok)) as [Ht _]. pose proof (hole_pos _ _ _ _ Hok). iDestruct (marked_row with "H") as "(H1 & H2 & H3)".
  iApply (add_to_free_list_spec with "H1 H2"); [done|lia|apply Hok|]. iIntros "H2". iApply "HΦ". by iApply "H3".
Qed.

Lemma rest_marked_spec a s bs1 bs2 G (Φ : unit → hpropI) Ψ : hole_ok a bs1 s bs2 →
  marked a bs1 s bs2 G -∗ (row a (bs1 ++ Free s :: bs2) G -∗ Φ tt) -∗ wp (zend_mm_add_to_rest_list heap (a + total bs1)) Φ Ψ.
Proof using heap_pos.
  iIntros (Hok) "H HΦ". pose proof (total_ok _ (hole_before _ _ _ _ Hok)) as [Ht _]. pose proof (hole_pos _ _ _ _ Hok). iDestruct (marked_row with "H") as "(H1 & H2 & H3)".
  iApply (add_to_rest_list_spec with "H1 H2"); [done|lia|apply Hok|]. iIntros "H2". iApply "HΦ". by iApply "H3".
Qed.

(** the whole hole becomes a used block *)
Lemma gap_fill_spec a s bs1 bs2 G (Φ : unit → hpropI) Ψ : hole_ok a bs1 s bs2 →
  gap a bs1 s bs2 G -∗ (row a (bs1 ++ Used s :: bs2) G -∗ Φ tt) -∗ wp (ZEND_MM_BLOCK (a + total bs1) ZEND_MM_USED_BLOCK s) Φ Ψ.
Proof using Type.
  iIntros (Hok) "(H1 & H2 & [%v H3] & [%w H5] & H6) HΦ". unfold ZEND_MM_BLOCK, ZEND_MM_BLOCK_AT. rewrite lor_tag; [|apply Hok].
  wp_store "H3". iDestruct (chain_prev with "H5") as "[H7 H5]". wp_store "H7". iSpecialize ("H5" with "H7"). iApply "HΦ". unfold row. iSplitR "H6".
  - rewrite chain_app. unfold chain. cbn [headers is_free total tag chunk_tag chunk_size]. rewrite !Z.add_assoc. iDestruct "H5" as "[$ $]". iFrame.
  - iApply (free_lists_perm with "H6"). unfold hole_free. by rewrite frees_app -app_assoc.
Qed.

Lemma fill_used_spec a s bs1 bs2 G (Φ : unit → hpropI) Ψ : hole_ok a bs1 s bs2 →
  hole a bs1 s bs2 G -∗ (row a (bs1 ++ Used s :: bs2) G -∗ span (a + total bs1 + 16) (a + total bs1 + s) -∗ Φ tt) -∗
  wp (ZEND_MM_BLOCK (a + total bs1) ZEND_MM_USED_BLOCK s) Φ Ψ.
Proof using Type. rewrite hole_gap. iIntros (Hok) "[H Hs] HΦ". iApply (gap_fill_spec with "H"); [done|]. iIntros "H". iApply ("HΦ" with "H Hs"). Qed.

(** its first part does, and the rest of it is the hole *)
Lemma gap_split_spec a s r bs1 bs2 G (Φ : unit → hpropI) Ψ : good_size s → good_size r →
  gap a bs1 (s + r) bs2 G -∗ span (a + total bs1 + s) (a + total bs1 + (s + r)) -∗ (hole a (bs1 ++ [Used s]) r bs2 G -∗ Φ tt) -∗
  wp (ZEND_MM_BLOCK (a + total bs1) ZEND_MM_USED_BLOCK s) Φ Ψ.
Proof using Type.
  iIntros (Hs Hr) "(H1 & H2 & [%v H3] & [%w H5] & H6) H4 HΦ". unfold ZEND_MM_BLOCK, ZEND_MM_BLOCK_AT. rewrite lor_tag //. wp_store "H3". set (b := a + total bs1).
  rewrite Z.add_assoc. rewrite -(block_span (b + s) r); [|destruct Hr; lia|apply Hr].
  iDestruct "H4" as "(H7 & [% H8] & H9)". wp_store "H8". iApply "HΦ".
  unfold MmLayout.hole, hole_free. rewrite total_app headers_app tag_app frees_app. cbn [total tag frees headers is_free chunk_size chunk_tag].
  rewrite (_ : a + (total bs1 + (s + 0)) = b + s); [|lia]. fold b. rewrite right_id Z.add_assoc app_nil_r. iFrame.
Qed.

Lemma split_used_spec a s r bs1 bs2 G (Φ : unit → hpropI) Ψ : good_size s → good_size r →
  hole a bs1 (s + r) bs2 G -∗ (hole a (bs1 ++ [Used s]) r bs2 G -∗ span (a + total bs1 + 16) (a + total bs1 + s) -∗ Φ tt) -∗
  wp (ZEND_MM_BLOCK (a + total bs1) ZEND_MM_USED_BLOCK s) Φ Ψ.
Proof using Type.
  rewrite hole_gap. iIntros (Hs Hr) "[H Hs] HΦ". pose proof Hs as [Hs0 [q Hq]]. pose proof Hr as [Hr0 [q' Hq']].
  rewrite (span_split _ (a + total bs1 + s)); [|lia|exists (q - 2); lia|exists q'; lia].
  iDestruct "Hs" as "[Hs1 Hs2]". iApply (gap_split_spec with "H Hs2"); [done..|]. iIntros "H". iApply ("HΦ" with "H Hs1").
Qed.

End hole.
