(* ===== verification/MmJoin.v ===== *)
(** * A used block joined with its free neighbours

    The two halves of [free_block] and [free_cached_block]: the hole that a block leaves
    grows over the free blocks beside it.  In a row without two free blocks in sequence
    the result has no free neighbour. *)

From iris.proofmode Require Import proofmode.
From S2P Require Import Prelude WordLogic MmModel MmBits MmRepr MmTrie MmFree MmLayout MmHole.
Local Open Scope Z_scope.

(** ** No two free blocks in sequence *)

Fixpoint coalesced (bs : list chunk) : Prop :=
  match bs with [] => True | c :: bs' => ¬ (is_free c ∧ first_free bs') ∧ coalesced bs' end.

Lemma first_free_app c bs1 bs2 : first_free ((c :: bs1) ++ bs2) = is_free c.
Proof. done. Qed.

Lemma last_free_cons c c' bs : last_free (c :: c' :: bs) = last_free (c' :: bs).
Proof. done. Qed.

Lemma coalesced_app bs1 bs2 : coalesced (bs1 ++ bs2) ↔ coalesced bs1 ∧ coalesced bs2 ∧ ¬ (last_free bs1 ∧ first_free bs2).
Proof.
  induction bs1 as [|c bs1 IH]; [cbn; naive_solver|]. cbn [app coalesced]. rewrite IH. destruct bs1 as [|c' bs1].
  - cbn [app first_free coalesced last_free last]. unfold last_free. cbn. naive_solver.
  - rewrite last_free_cons first_free_app. cbn [first_free]. naive_solver.
Qed.

(** ** The growth of the hole *)

(** [l] free blocks *)
Definition all_free (l : list chunk) : Prop := Forall (λ c, is_free c) l.

Lemma useds_free b l : all_free l → useds b l = [].
Proof. intros Hl. revert b. induction Hl as [|[s|s] l Hc _ IH]; intros b; cbn [useds]; [done|by rewrite IH|done]. Qed.

Definition grown_right (s : Z) (bs2 : list chunk) (s' : Z) (bs2' : list chunk) : Prop :=
  first_free bs2' = false ∧ ∃ r, all_free r ∧ bs2 = r ++ bs2' ∧ s' = s + total r.
Definition grown_left (bs1 : list chunk) (s : Z) (bs1' : list chunk) (s' : Z) : Prop :=
  last_free bs1' = false ∧ ∃ l, all_free l ∧ bs1 = bs1' ++ l ∧ s' = total l + s.

(** the two sides in the other order *)
Lemma grown_swap bs1 s bs1' s1 bs2 s' bs2' : grown_left bs1 s bs1' s1 → grown_right s1 bs2 s' bs2' →
  ∃ s2, grown_right s bs2 s2 bs2' ∧ grown_left bs1 s2 bs1' s'.
Proof.
  intros (Hf1 & l & Hl & -> & ->) (Hf2 & r & Hr & -> & ->). exists (s + total r). split; (split; [done|]).
  - by exists r.
  - exists l. do 2 (split; [done|]). lia.
Qed.

Lemma good_size_sum s t : good_size s → 0 ≤ t → (8 | t) → s + t < 2 ^ 64 → good_size (s + t).
Proof. intros [Hs Hd] Ht Hdt Hlt. split; [lia|by apply Z.divide_add_r]. Qed.

Lemma hole_grown_right a bs1 s bs2 s' bs2' : hole_ok a bs1 s bs2 → grown_right s bs2 s' bs2' → hole_ok a bs1 s' bs2'.
Proof.
  intros [Ha H1 Hs H2 Hb] (_ & r & _ & -> & ->). apply Forall_app in H2 as [Hr H2]. rewrite total_app in Hb.
  pose proof (total_ok _ Hr) as [Hr0 Hr8]. pose proof (total_ok _ H1) as [H10 _]. pose proof (total_ok _ H2) as [H20 _].
  constructor; try done; [apply good_size_sum; try done; lia|lia].
Qed.

Lemma hole_grown_left a bs1 s bs2 bs1' s' : hole_ok a bs1 s bs2 → grown_left bs1 s bs1' s' → hole_ok a bs1' s' bs2.
Proof.
  intros [Ha H1 Hs H2 Hb] (_ & l & _ & -> & ->). apply Forall_app in H1 as [H1 Hl]. rewrite total_app in Hb.
  pose proof (total_ok _ Hl) as [Hl0 Hl8]. pose proof (total_ok _ H1) as [H10 _]. pose proof (total_ok _ H2) as [H20 _].
  constructor; try done; [rewrite Z.add_comm; apply good_size_sum; try done; lia|lia].
Qed.

Lemma grown_right_cases s bs2 : coalesced bs2 →
  (first_free bs2 = false ∧ grown_right s bs2 s bs2) ∨ ∃ s2 bs2', bs2 = Free s2 :: bs2' ∧ grown_right s bs2 (s + s2) bs2'.
Proof.
  intros Hc. destruct bs2 as [|[s2|s2] bs2].
  - left. split; [done|]. split; [done|]. exists []. cbn. split; [constructor|]. split; [done|lia].
  - right. exists s2, bs2. split; [done|]. destruct Hc as [Hc _]. split; [destruct (first_free bs2); naive_solver|]. exists [Free s2]. cbn.
    split; [by repeat constructor|]. split; [done|lia].
  - left. split; [done|]. split; [done|]. exists []. cbn. split; [constructor|]. split; [done|lia].
Qed.

Lemma grown_left_cases bs1 s : coalesced bs1 →
  (last_free bs1 = false ∧ grown_left bs1 s bs1 s) ∨ ∃ s1 bs1', bs1 = bs1' ++ [Free s1] ∧ grown_left bs1 s bs1' (s1 + s).
Proof.
  intros Hc. assert (Hnil : ∀ l, last_free l = false → grown_left l s l s).
  { intros l Hl. split; [done|]. exists []. rewrite app_nil_r. split; [constructor|]. split; [done|cbn; lia]. }
  destruct bs1 as [|c bs1 _] using rev_ind; [left; split; [done|by apply Hnil]|]. destruct c as [s1|s1].
  - right. exists s1, bs1. split; [done|]. apply coalesced_app in Hc as (_ & _ & Hc). split; [destruct (last_free bs1); naive_solver|].
    exists [Free s1]. split; [by repeat constructor|]. split; [done|cbn; lia].
  - assert (Hl : last_free (bs1 ++ [Used s1]) = false) by (unfold last_free; by rewrite last_snoc). left. split; [done|by apply Hnil].
Qed.

Section join.
Context (heap : Z).
Hypothesis heap_pos : 0 < heap.
Local Abbreviation hole := (hole heap).

Lemma hole_u64 a s bs1 bs2 s' : hole_ok a bs1 s bs2 → s = s' → u64 s' = s'.
Proof using Type. intros [_ _ [Hs _] _ _] <-. apply u64_small. lia. Qed.

(** the block after it, in [free_block] *)
Lemma join_next_spec a s bs1 bs2 G (Φ : Z → hpropI) Ψ : hole_ok a bs1 s bs2 → coalesced bs2 →
  let next_block := a + total bs1 + s in
  hole a bs1 s bs2 G -∗
  (∀ s' bs2', ⌜grown_right s bs2 s' bs2'⌝ -∗ hole a bs1 s' bs2' G -∗ Φ s') -∗
  wp (if first_free bs2 then zend_mm_remove_from_free_list heap next_block ;;; let! x := ZEND_MM_FREE_BLOCK_SIZE next_block in ret (u64 (s + x))
      else ret s)%eff Φ Ψ.
Proof using heap_pos.
  iIntros (Hok Hc next_block) "H HΦ".
  destruct (grown_right_cases s bs2 Hc) as [[-> Hg]|(s2 & bs2' & -> & Hg)].
  - wp_ret. by iApply ("HΦ" with "[%] H").
  - cbn [first_free is_free]. wp_bind. iApply (remove_next_spec with "H"); [done..|]. iIntros "H1 H". unfold ZEND_MM_FREE_BLOCK_SIZE. wp_load "H1". wp_ret.
    rewrite (hole_u64 _ _ _ _ _ (hole_grown_right _ _ _ _ _ _ Hok Hg)) //. iApply ("HΦ" with "[//]"). by iApply "H".
Qed.

(** in [free_cached_block] *)
Lemma join_next_cached_spec a s bs1 bs2 G (Φ : Z → hpropI) Ψ : hole_ok a bs1 s bs2 → coalesced bs2 →
  let next_block := a + total bs1 + s in
  hole a bs1 s bs2 G -∗
  (∀ s' bs2', ⌜grown_right s bs2 s' bs2'⌝ -∗ hole a bs1 s' bs2' G -∗ Φ s') -∗
  wp (if first_free bs2 then let! x := ZEND_MM_FREE_BLOCK_SIZE next_block in zend_mm_remove_from_free_list heap next_block ;;; ret (u64 (s + x))
      else ret s)%eff Φ Ψ.
Proof using heap_pos.
  iIntros (Hok Hc next_block) "H HΦ".
  destruct (grown_right_cases s bs2 Hc) as [[-> Hg]|(s2 & bs2' & -> & Hg)].
  - wp_ret. by iApply ("HΦ" with "[%] H").
  - cbn [first_free is_free]. wp_bind. iApply (next_size_spec with "H"). iIntros "H". wp_bind. iApply (remove_next_spec with "H"); [done..|]. iIntros "H1 H". wp_ret.
    rewrite (hole_u64 _ _ _ _ _ (hole_grown_right _ _ _ _ _ _ Hok Hg)) //. iApply ("HΦ" with "[//]"). by iApply "H".
Qed.

(** the block before it *)
Lemma join_prev_spec a s bs1 bs2 G (Φ : Z * Z → hpropI) Ψ : hole_ok a bs1 s bs2 → coalesced bs1 →
  let mm_block := a + total bs1 in
  hole a bs1 s bs2 G -∗
  (∀ bs1' s', ⌜grown_left bs1 s bs1' s'⌝ -∗ hole a bs1' s' bs2 G -∗ Φ (a + total bs1', s')) -∗
  wp (if last_free bs1 then
        let! mm_block := ZEND_MM_PREV_BLOCK mm_block in
        zend_mm_remove_from_free_list heap mm_block ;;;
        let! x := ZEND_MM_FREE_BLOCK_SIZE mm_block in ret (mm_block, u64 (s + x))
      else ret (mm_block, s))%eff Φ Ψ.
Proof using heap_pos.
  iIntros (Hok Hc mm_block) "H HΦ".
  destruct (grown_left_cases bs1 s Hc) as [[-> Hg]|(s1 & bs1' & -> & Hg)].
  - wp_ret. by iApply ("HΦ" with "[%] H").
  - unfold last_free. rewrite last_snoc. cbn [is_free]. pose proof (hole_before _ _ _ _ Hok) as Hb. apply Forall_app in Hb as [_ Hb]. apply Forall_cons_1 in Hb as [Hb _].
    wp_bind. iApply (prev_block_spec with "H"); [exact Hb|]. iIntros "H". wp_bind. iApply (remove_prev_spec with "H"); [done..|]. iIntros "H1 H".
    unfold ZEND_MM_FREE_BLOCK_SIZE. wp_load "H1". wp_ret. rewrite (hole_u64 _ _ _ _ (s + s1) (hole_grown_left _ _ _ _ _ _ Hok Hg)); [|lia].
    rewrite (Z.add_comm s). iApply ("HΦ" with "[//]"). by iApply "H".
Qed.

Lemma join_prev_cached_spec a s bs1 bs2 G (Φ : Z * Z → hpropI) Ψ : hole_ok a bs1 s bs2 → coalesced bs1 →
  let mm_block := a + total bs1 in
  hole a bs1 s bs2 G -∗
  (∀ bs1' s', ⌜grown_left bs1 s bs1' s'⌝ -∗ hole a bs1' s' bs2 G -∗ Φ (a + total bs1', s')) -∗
  wp (if last_free bs1 then
        let! mm_block := ZEND_MM_PREV_BLOCK mm_block in
        let! x := ZEND_MM_FREE_BLOCK_SIZE mm_block in
        zend_mm_remove_from_free_list heap mm_block ;;; ret (mm_block, u64 (s + x))
      else ret (mm_block, s))%eff Φ Ψ.
Proof using heap_pos.
  iIntros (Hok Hc mm_block) "H HΦ".
  destruct (grown_left_cases bs1 s Hc) as [[-> Hg]|(s1 & bs1' & -> & Hg)].
  - wp_ret. by iApply ("HΦ" with "[%] H").
  - unfold last_free. rewrite last_snoc. cbn [is_free]. pose proof (hole_before _ _ _ _ Hok) as Hb. apply Forall_app in Hb as [_ Hb]. apply Forall_cons_1 in Hb as [Hb _].
    wp_bind. iApply (prev_block_spec with "H"); [exact Hb|]. iIntros "H". wp_bind. iApply (prev_size_spec with "H"). iIntros "H".
    wp_bind. iApply (remove_prev_spec with "H"); [done..|]. iIntros "H1 H". wp_ret.
    rewrite (hole_u64 _ _ _ _ (s + s1) (hole_grown_left _ _ _ _ _ _ Hok Hg)); [|lia]. rewrite (Z.add_comm s). iApply ("HΦ" with "[//]"). by iApply "H".
Qed.

End join.
