(* ===== verification/MmSegments.v ===== *)
(** * The segments of the memory manager

    What the manager relies on from its storage, the list of the segments with the rows of
    their blocks, and [zend_mm_del_segment]. *)

From iris.proofmode Require Import proofmode.
From S2P Require Import Prelude WordLogic MmModel MmBits MmRepr MmTrie MmFree MmLayout MmHole MmJoin.
Local Open Scope Z_scope.

(** ** The storage

    [ZEND_MM_STORAGE_ALLOC] gives [NULL], or memory below the end of the address space of
    a process; [ZEND_MM_STORAGE_FREE] takes it back, with its size in its first word.
    [ZEND_MM_STORAGE_REALLOC] makes a segment larger, where it is or elsewhere, with its words;
    up to [storage_capacity] it does not fail, beyond nothing is known of it.  What the storage
    itself needs of a segment is [storage_part].  It may be compacted, which the heap does not
    see, and destroyed. *)

Class Storage := {
  storage_alloc : Z → W Z;
  storage_free : Z → W unit;
  storage_realloc : Z → Z → W Z;
  storage_compact : W unit;
  storage_dtor : W unit;
  storage_inv : hpropI;
  storage_part : Z → Z → hpropI;
  storage_capacity : Z;
  storage_alloc_spec n (Φ : Z → hpropI) Ψ : 0 < n < 2 ^ 64 → (8 | n) →
    storage_inv -∗
    (∀ p, storage_inv -∗ (⌜p = 0⌝ ∨ ⌜0 < p ∧ (8 | p) ∧ p + n ≤ 2 ^ 47⌝ ∗ span p (p + n) ∗ storage_part p n) -∗ Φ p) -∗
    wp (storage_alloc n) Φ Ψ;
  storage_free_spec a n (Φ : unit → hpropI) Ψ : 16 ≤ n → (8 | n) →
    storage_inv -∗ segment_size_field a ↦ n -∗ span (a + 8) (a + n) -∗ storage_part a n -∗ (storage_inv -∗ Φ tt) -∗
    wp (storage_free a) Φ Ψ;
  storage_realloc_spec a n m (vs : list Z) (Φ : Z → hpropI) Ψ : 16 ≤ n ≤ m → (8 | n) → (8 | m) → n = 8 + 8 * Z.of_nat (length vs) → m ≤ storage_capacity →
    storage_inv -∗ segment_size_field a ↦ n -∗ words_at (a + 8) vs -∗ storage_part a n -∗
    (∀ p, ⌜0 < p ∧ (8 | p) ∧ p + m ≤ 2 ^ 47⌝ -∗ storage_inv -∗ segment_size_field p ↦ n -∗ words_at (p + 8) vs -∗ span (p + n) (p + m) -∗ storage_part p m -∗ Φ p) -∗
    wp (storage_realloc a m) Φ Ψ;
  storage_compact_spec (Φ : unit → hpropI) Ψ : storage_inv -∗ (storage_inv -∗ Φ tt) -∗ wp storage_compact Φ Ψ;
  storage_dtor_spec (Φ : unit → hpropI) Ψ : storage_inv -∗ Φ tt -∗ wp storage_dtor Φ Ψ
}.

(** ** The list of the segments *)

Section list.
Context {storage : Storage}.

(** the slot holds the list of the segments, addresses and sizes *)
Fixpoint seg_list (slot : Z) (l : list (Z * Z)) : hpropI :=
  match l with
  | [] => slot ↦ 0
  | (a, n) :: l' => slot ↦ a ∗ segment_size_field a ↦ n ∗ storage_part a n ∗ seg_list (next_segment a) l'
  end%I.

(** the part of it before the slot [slot'] *)
Fixpoint seg_path (slot : Z) (l : list (Z * Z)) (slot' : Z) : hpropI :=
  match l with
  | [] => ⌜slot = slot'⌝
  | (a, n) :: l' => slot ↦ a ∗ segment_size_field a ↦ n ∗ storage_part a n ∗ seg_path (next_segment a) l' slot'
  end%I.

Lemma seg_list_app slot l1 l2 : seg_list slot (l1 ++ l2) ⊣⊢ ∃ slot', seg_path slot l1 slot' ∗ seg_list slot' l2.
Proof using Type.
  revert slot. induction l1 as [|[a n] l1 IH]; intros slot; cbn [app seg_list seg_path].
  - iSplit; [iIntros "H"; iExists slot; by iFrame|by iIntros "(%slot' & -> & $)"].
  - rewrite IH. iSplit; [iIntros "($ & $ & $ & $)"|iIntros "(%slot' & ($ & $ & $ & $) & $)"].
Qed.

Lemma seg_path_words slot l slot' : seg_path slot l slot' ⊢ [∗ list] a ∈ l.*1, ∃ v, a ↦ v.
Proof using Type.
  revert slot. induction l as [|[a n] l IH]; intros slot; cbn [seg_path fmap list_fmap big_sepL]; [by iIntros "_"|].
  iIntros "(_ & H1 & _ & H2)". iDestruct (IH with "H2") as "$". by iExists _.
Qed.

(** another segment is not in it *)
Lemma seg_path_fresh slot l slot' a n : seg_path slot l slot' ∗ segment_size_field a ↦ n ⊢ ⌜a ∉ l.*1⌝.
Proof using Type.
  revert slot. induction l as [|[a' n'] l IH]; intros slot; cbn [seg_path fmap list_fmap fst]; [iIntros "_"; iPureIntro; apply not_elem_of_nil|].
  iIntros "((_ & H1 & _ & H2) & H3)". iAssert ⌜a ≠ a'⌝%I as %Hne; [iApply points_to_ne; iFrame "H3 H1"|]. iDestruct (IH with "[$H2 $H3]") as %Hl.
  iPureIntro. by rewrite not_elem_of_cons.
Qed.

Lemma find_segment_spec fuel slot l slot' a (Φ : Z → hpropI) Ψ : (length l ≤ fuel)%nat → a ∉ l.*1 →
  seg_path slot l slot' -∗ slot' ↦ a -∗ (seg_path slot l slot' -∗ slot' ↦ a -∗ Φ slot') -∗ wp (find_segment_loop fuel a slot) Φ Ψ.
Proof using Type.
  revert fuel slot. induction l as [|[a' n'] l IH]; intros fuel slot Hf Ha; cbn [seg_path]; iIntros "H1 H2 HΦ".
  - iDestruct "H1" as %<-. assert (Hloop : find_segment_loop fuel a slot = (let! s := rd slot in if negb (s =? a) then match fuel with O => stuck | S fuel' => find_segment_loop fuel' a (next_segment s) end else ret slot)%eff) by (by destruct fuel).
    rewrite Hloop. wp_load "H2". rewrite Z.eqb_refl. cbn [negb]. wp_ret. by iApply ("HΦ" with "[//] H2").
  - destruct fuel as [|fuel]; [cbn in Hf; lia|]. cbn [fmap list_fmap fst] in Ha. apply not_elem_of_cons in Ha as [Hne Ha]. cbn [find_segment_loop].
    iDestruct "H1" as "(H1 & H3 & H4 & H5)". wp_load "H1". destruct (Z.eqb_spec a' a); [done|]. cbn [negb]. iApply (IH with "H5 H2"); [cbn in Hf; lia|done|].
    iIntros "H5 H2". iApply ("HΦ" with "[H1 H3 H4 H5] H2"). iFrame.
Qed.

(** the slot that holds the segment [a] *)
Lemma find_in_list_spec {A} slot l1 a n l2 (k : Z → W A) (Φ : A → hpropI) Ψ :
  seg_list slot (l1 ++ (a, n) :: l2) -∗
  (∀ slot', seg_path slot l1 slot' -∗ seg_list slot' ((a, n) :: l2) -∗ wp (k slot') Φ Ψ) -∗
  wp (let! fuel := words_fuel in let! p := find_segment_loop fuel a slot in k p)%eff Φ Ψ.
Proof using Type.
  iIntros "H HΦ". rewrite seg_list_app. iDestruct "H" as (slot') "[H1 H2]". wp_bind. iApply (wp_fuel l1.*1 with "H1"); [apply seg_path_words|].
  iIntros (fuel Hf) "H1". rewrite length_fmap in Hf. cbn [seg_list]. iDestruct "H2" as "(H2 & H3 & H4)". iDestruct (seg_path_fresh with "[$H1 $H3]") as %Ha.
  wp_bind. iApply (find_segment_spec with "H1 H2"); [lia|done|]. iIntros "H1 H2". iApply ("HΦ" with "H1"). iFrame.
Qed.

Lemma seg_list_top slot' l : seg_list slot' l ⊢ ∃ v, slot' ↦ v ∗ (∀ slot'', slot'' ↦ v -∗ seg_list slot'' l).
Proof using Type. destruct l as [|[a n] l]; cbn [seg_list]; [iIntros "$"; by iIntros (slot'') "$"|]. iIntros "($ & $ & $ & $)". by iIntros (slot'') "$". Qed.

End list.

(** ** Segments and their rows *)

Abbreviation segment := (Z * list chunk)%type.
(** the first block of the segment *)
Definition first_block (a : Z) : Z := a + 16.
Definition seg_size (bs : list chunk) : Z := total bs + 32.
Definition seg_entry (x : segment) : Z * Z := (x.1, seg_size x.2).
Definition seg_frees (x : segment) : list (Z * Z) := frees (first_block x.1) x.2.
Definition seg_useds (x : segment) : list (Z * Z) := useds (first_block x.1) x.2.
Definition all_frees (S : list segment) : list (Z * Z) := concat (seg_frees <$> S).
Definition all_useds (S : list segment) : list (Z * Z) := concat (seg_useds <$> S).
Fixpoint seg_total (S : list segment) : Z := match S with [] => 0 | x :: S' => seg_size x.2 + seg_total S' end.

(** blocks, no two free ones in sequence *)
Record seg_ok (x : segment) : Prop := SegOk {
  seg_pos : 0 < x.1;
  seg_aligned : (8 | x.1);
  seg_chunks : Forall chunk_ok x.2;
  seg_coalesced : coalesced x.2;
  seg_filled : x.2 ≠ [];
  seg_bound : x.1 + seg_size x.2 ≤ 2 ^ 47
}.

Lemma all_frees_app S1 S2 : all_frees (S1 ++ S2) = all_frees S1 ++ all_frees S2.
Proof. unfold all_frees. by rewrite fmap_app concat_app. Qed.
Lemma all_useds_app S1 S2 : all_useds (S1 ++ S2) = all_useds S1 ++ all_useds S2.
Proof. unfold all_useds. by rewrite fmap_app concat_app. Qed.
Lemma seg_total_app S1 S2 : seg_total (S1 ++ S2) = seg_total S1 + seg_total S2.
Proof. induction S1 as [|x S1 IH]; cbn [app seg_total]; lia. Qed.
Lemma seg_total_pos S : Forall seg_ok S → 0 ≤ seg_total S.
Proof. induction 1 as [|x S Hx _ IH]; cbn [seg_total]; [done|]. pose proof (total_ok _ (seg_chunks _ Hx)) as [? _]. unfold seg_size. lia. Qed.

Lemma all_frees_split S b s : (b, s) ∈ all_frees S →
  ∃ S1 a bs1 bs2 S2, S = S1 ++ (a, bs1 ++ Free s :: bs2) :: S2 ∧ b = first_block a + total bs1.
Proof.
  unfold all_frees. rewrite list_elem_of_In in_concat. intros (l & Hl & Hb). apply list_elem_of_In, list_elem_of_fmap in Hl as ([a bs] & -> & Hx). apply list_elem_of_In in Hb.
  apply frees_split in Hb as (bs1 & bs2 & Hbs & ->). cbn [fst snd] in *. subst bs. apply list_elem_of_split in Hx as (S1 & S2 & ->). by exists S1, a, bs1, bs2, S2.
Qed.
Lemma all_useds_split S b s : (b, s) ∈ all_useds S →
  ∃ S1 a bs1 bs2 S2, S = S1 ++ (a, bs1 ++ Used s :: bs2) :: S2 ∧ b = first_block a + total bs1.
Proof.
  unfold all_useds. rewrite list_elem_of_In in_concat. intros (l & Hl & Hb). apply list_elem_of_In, list_elem_of_fmap in Hl as ([a bs] & -> & Hx). apply list_elem_of_In in Hb.
  apply useds_split in Hb as (bs1 & bs2 & Hbs & ->). cbn [fst snd] in *. subst bs. apply list_elem_of_split in Hx as (S1 & S2 & ->). by exists S1, a, bs1, bs2, S2.
Qed.

Section segments.
Context (heap : Z).
Hypothesis heap_pos : 0 < heap.
Context {storage : Storage}.
Local Abbreviation slot := (segments_list heap).
Local Abbreviation free_lists := (free_lists heap).

Definition seg_row (x : segment) : hpropI := chain (first_block x.1) ZEND_MM_GUARD_BLOCK x.2.
Definition segments (S : list segment) : hpropI :=
  seg_list slot (seg_entry <$> S) ∗ ([∗ list] x ∈ S, seg_row x) ∗ free_lists (all_frees S).

(** the segments, but for the row of the one at [a] and for the free blocks *)
Definition beside (S1 : list segment) (a n : Z) (S2 : list segment) : hpropI :=
  seg_list slot ((seg_entry <$> S1) ++ (a, n) :: (seg_entry <$> S2)) ∗ [∗ list] x ∈ S1 ++ S2, seg_row x.

Lemma segments_open S1 a bs S2 :
  segments (S1 ++ (a, bs) :: S2) ⊣⊢ beside S1 a (seg_size bs) S2 ∗ row heap (first_block a) bs (all_frees (S1 ++ S2)).
Proof using Type.
  unfold segments, beside, row. rewrite fmap_app fmap_cons !big_sepL_app big_sepL_cons. unfold seg_entry at 2, seg_row at 2. cbn [fst snd].
  assert (HF : all_frees (S1 ++ (a, bs) :: S2) ≡ₚ frees (first_block a) bs ++ all_frees (S1 ++ S2)).
  { unfold all_frees. rewrite !fmap_app fmap_cons !concat_app concat_cons. unfold seg_frees at 2. cbn [fst snd]. solve_Permutation. }
  iSplit.
  - iIntros "($ & ($ & $ & $) & H)". iApply (free_lists_perm with "H"). exact HF.
  - iIntros "(($ & $ & $) & $ & H)". iApply (free_lists_perm with "H"). symmetry. exact HF.
Qed.

(** ** Giving a segment back *)

(** the words of a segment without used blocks, but for that of its size *)
Lemma seg_span a s v v1 v2 : good_size s →
  next_segment a ↦ v -∗ info_prev (a + 16) ↦ v1 -∗ (∃ v, info_size (a + 16) ↦ v) -∗ span (a + 16 + 16) (a + 16 + s) -∗ guard (a + 16 + s) v2 -∗
  span (a + 8) (a + (s + 32)).
Proof using Type.
  iIntros ([Hs Hd]) "H1 H2 H3 H4 [H5 H6]". assert (Hd' : (8 | 16 + s + 16)) by (apply Z.divide_add_r; [apply Z.divide_add_r; [by exists 2|done]|by exists 2]).
  rewrite (span_cons (a + 8)); [|lia|destruct Hd' as [q Hq]; exists (q - 1); lia]. iSplitL "H1"; [by iExists _|]. rewrite (_ : a + 8 + 8 = a + 16); [|lia].
  rewrite (span_split (a + 16) (a + 16 + s)); [|lia|by rewrite (_ : a + 16 + s - (a + 16) = s); [|lia]|exists 2; lia]. iSplitL "H2 H3 H4".
  - rewrite -block_span; [|lia|done]. iFrame.
  - rewrite (_ : a + (s + 32) = a + 16 + s + 16); [|lia]. rewrite -block_span; [|lia|by exists 2]. rewrite span_nil. iFrame.
Qed.

Lemma del_segment_spec S1 a s S2 r (Φ : unit → hpropI) Ψ : good_size s → s < 2 ^ 47 →
  beside S1 a (s + 32) S2 -∗ hole heap (first_block a) [] s [] (all_frees (S1 ++ S2)) -∗ real_size heap ↦ r -∗ storage_inv -∗
  (segments (S1 ++ S2) -∗ real_size heap ↦ u64 (r - (s + 32)) -∗ storage_inv -∗ Φ tt) -∗
  wp (zend_mm_del_segment heap storage_free a) Φ Ψ.
Proof using Type.
  iIntros (Hs Hlt) "[H1 H2] (_ & H3 & H4 & H5 & [%w [_ H6]] & H7) Hr Hst HΦ". unfold zend_mm_del_segment.
  iApply (find_in_list_spec with "H1"). iIntros (slot') "H1 (H8 & H9 & Hp & H10)".
  iDestruct (seg_list_top with "H10") as (v) "[H10 H11]". wp_load "H10". wp_store "H8". wp_load "Hr". wp_load "H9". wp_store "Hr".
  cbn [total tag]. unfold first_block. rewrite !Z.add_0_r. iDestruct (seg_span with "H10 H3 H4 H5 H6") as "H6"; [done|].
  iApply (storage_free_spec with "Hst H9 H6 Hp"); [destruct Hs; lia|apply Z.divide_add_r; [apply Hs|by exists 4]|]. iIntros "Hst".
  iApply ("HΦ" with "[-Hr Hst] Hr Hst"). unfold segments. rewrite fmap_app seg_list_app. iFrame "H2 H7". iExists slot'. iFrame "H1". by iApply "H11".
Qed.

End segments.
