(* ===== verification/MmRelease.v ===== *)
(** * Giving a block back to the free lists or its segment to the storage

    [free_block], the part of [_zend_mm_free_int] that does not use the cache, and the
    steps of [free_cached_block] that follow the reading of the block. *)

From iris.proofmode Require Import proofmode.
From S2P Require Import Prelude WordLogic MmModel MmBits MmRepr MmTrie MmFree MmLayout MmHole MmJoin MmSegments.
Local Open Scope Z_scope.

(** ** The segments without the block *)

Record released (b s : Z) (S S' : list segment) : Prop := Released {
  released_ok : Forall seg_ok S';
  released_useds : all_useds S ≡ₚ (b, s) :: all_useds S';
  released_total : seg_total S' ≤ seg_total S
}.

Lemma seg_ok_hole a bs1 c bs2 : seg_ok (a, bs1 ++ c :: bs2) → hole_ok (first_block a) bs1 (chunk_size c) bs2.
Proof.
  intros [Ha _ Hbs _ _ Hb]. cbn [fst snd] in *. unfold first_block, seg_size in *. apply Forall_app in Hbs as [H1 [Hc H2]%Forall_cons_1].
  rewrite total_app in Hb. cbn [total] in Hb. constructor; try done; lia.
Qed.

Lemma seg_ok_coalesced a bs1 c bs2 : seg_ok (a, bs1 ++ c :: bs2) → coalesced bs1 ∧ coalesced bs2.
Proof. intros [_ _ _ Hc _ _]. cbn [snd] in Hc. apply coalesced_app in Hc as (H1 & [_ H2] & _). done. Qed.

(** the row with the block and what is left of it *)
Section grown.
Context (a s : Z) (bs1 bs2 : list chunk) (s1 s' : Z) (bs1' bs2' : list chunk).
Hypothesis Hseg : seg_ok (a, bs1 ++ Used s :: bs2).
Hypothesis Hright : grown_right s bs2 s1 bs2'.
Hypothesis Hleft : grown_left bs1 s1 bs1' s'.

Lemma grown_total : seg_size (bs1 ++ Used s :: bs2) = seg_size (bs1' ++ Free s' :: bs2').
Proof using Hright Hleft.
  clear Hseg. destruct Hright as (_ & r & _ & -> & ->). destruct Hleft as (_ & l & _ & -> & ->). unfold seg_size. rewrite !total_app. cbn [total chunk_size]. rewrite total_app. lia.
Qed.

Lemma grown_useds : useds (first_block a) (bs1 ++ Used s :: bs2) ≡ₚ (first_block a + total bs1, s) :: useds (first_block a) (bs1' ++ Free s' :: bs2').
Proof using Hright Hleft.
  clear Hseg. destruct Hright as (_ & r & Hr & -> & ->). destruct Hleft as (_ & l & Hl & -> & ->). rewrite !useds_app. cbn [useds]. rewrite useds_app (useds_free _ l Hl) (useds_free _ r Hr) !total_app.
  rewrite (_ : first_block a + total bs1' + (total l + (s + total r)) = first_block a + (total bs1' + total l) + s + total r); [|lia]. cbn [app]. rewrite app_nil_r. solve_Permutation.
Qed.

Lemma grown_hole : hole_ok (first_block a) bs1' s' bs2'.
Proof using Hseg Hright Hleft. eapply hole_grown_left; [|done]. eapply hole_grown_right; [|done]. exact (seg_ok_hole a bs1 (Used s) bs2 Hseg). Qed.

Lemma grown_seg : seg_ok (a, bs1' ++ Free s' :: bs2').
Proof using Hseg Hright Hleft.
  pose proof grown_total as Ht. destruct grown_hole as [_ H1 Hs H2 _]. destruct Hseg as [Ha Ha8 _ Hc _ Hb]. cbn [fst snd] in *.
  apply coalesced_app in Hc as (Hc1 & [_ Hc2] & _). destruct Hright as (Hf2 & r & _ & -> & _). destruct Hleft as (Hf1 & l & _ & -> & _).
  apply coalesced_app in Hc1 as (Hc1 & _ & _). apply coalesced_app in Hc2 as (_ & Hc2 & _). constructor; cbn [fst snd]; try done.
  - apply Forall_app. split; [done|]. by constructor.
  - apply coalesced_app. split; [done|]. cbn [coalesced first_free is_free]. rewrite Hf1 Hf2. naive_solver.
  - by destruct bs1'.
  - by rewrite -Ht.
Qed.

Lemma released_added S1 S2 : Forall seg_ok (S1 ++ (a, bs1 ++ Used s :: bs2) :: S2) →
  released (first_block a + total bs1) s (S1 ++ (a, bs1 ++ Used s :: bs2) :: S2) (S1 ++ (a, bs1' ++ Free s' :: bs2') :: S2).
Proof using Hseg Hright Hleft.
  pose proof grown_seg as Hnew. pose proof grown_useds as Hu. pose proof grown_total as Ht. intros [HS1 [_ HS2]%Forall_cons_1]%Forall_app. constructor.
  - apply Forall_app. split; [done|]. by constructor.
  - rewrite !all_useds_app. unfold all_useds. rewrite !fmap_cons !concat_cons. unfold seg_useds at 2 6. cbn [fst snd]. rewrite Hu. solve_Permutation.
  - rewrite !seg_total_app. cbn [seg_total snd]. rewrite Ht. lia.
Qed.

Lemma released_deleted S1 S2 : Forall seg_ok (S1 ++ (a, bs1 ++ Used s :: bs2) :: S2) → bs1' = [] → bs2' = [] →
  released (first_block a + total bs1) s (S1 ++ (a, bs1 ++ Used s :: bs2) :: S2) (S1 ++ S2) ∧
  seg_total (S1 ++ (a, bs1 ++ Used s :: bs2) :: S2) = seg_total (S1 ++ S2) + (s' + 32).
Proof using Hseg Hright Hleft.
  pose proof grown_useds as Hu. pose proof grown_total as Ht. pose proof (hole_size _ _ _ _ grown_hole) as [Hs' _]. intros [HS1 [_ HS2]%Forall_cons_1]%Forall_app -> ->.
  assert (Htot : seg_total (S1 ++ (a, bs1 ++ Used s :: bs2) :: S2) = seg_total (S1 ++ S2) + (s' + 32)).
  { rewrite !seg_total_app. cbn [seg_total snd]. rewrite Ht. unfold seg_size. cbn [app total chunk_size]. lia. }
  split; [|done]. constructor; [by apply Forall_app| |lia].
  rewrite !all_useds_app. unfold all_useds. rewrite fmap_cons concat_cons. unfold seg_useds at 2. cbn [fst snd]. rewrite Hu. cbn [app useds]. solve_Permutation.
Qed.

End grown.

(** ** The operations *)

Section release.
Context (heap : Z).
Hypothesis heap_pos : 0 < heap.
Context {storage : Storage}.
Local Abbreviation hole := (hole heap).
Local Abbreviation segments := (segments heap).
Local Abbreviation beside := (beside heap).

(** a used block of a row: its tag, and the hole that it leaves *)
Lemma take_used_gap a s bs1 bs2 G :
  row heap a (bs1 ++ Used s :: bs2) G ⊢ info_size (a + total bs1) ↦ chunk_tag (Used s) ∗ (∀ v, info_size (a + total bs1) ↦ v -∗ gap heap a bs1 s bs2 G).
Proof using Type.
  unfold row. rewrite chain_app. unfold chain. cbn [headers is_free total tag chunk_size]. rewrite !Z.add_assoc. iIntros "[(H1 & (H2 & $ & H3) & H4) H5]".
  iIntros (v) "H6". unfold gap. iFrame. iApply (free_lists_perm with "H5"). unfold hole_free. by rewrite frees_app -app_assoc.
Qed.

Lemma take_used a s bs1 bs2 G :
  row heap a (bs1 ++ Used s :: bs2) G ⊢ info_size (a + total bs1) ↦ chunk_tag (Used s) ∗
    (∀ v, info_size (a + total bs1) ↦ v -∗ span (a + total bs1 + 16) (a + total bs1 + s) -∗ hole a bs1 s bs2 G).
Proof using Type. rewrite take_used_gap. iIntros "[$ H]". iIntros (v) "H1 H2". rewrite hole_gap. iSplitR "H2"; [by iApply "H"|iExact "H2"]. Qed.

(** whether a hole is the whole of its segment *)
Lemma whole_spec a s bs1 bs2 G (Φ : bool → hpropI) Ψ : hole_ok a bs1 s bs2 →
  hole a bs1 s bs2 G -∗ (hole a bs1 s bs2 G -∗ Φ (bool_decide (bs1 = [] ∧ bs2 = []))) -∗
  wp (if bool_decide (bs1 = []) then ZEND_MM_IS_GUARD_BLOCK (a + total bs1 + s) else ret false) Φ Ψ.
Proof using Type.
  iIntros (Hok) "H HΦ". destruct (decide (bs1 = [])) as [H1|H1]; [rewrite (bool_decide_eq_true_2 (bs1 = [])) //|rewrite (bool_decide_eq_false_2 (bs1 = [])) //].
  - iApply (next_guard_spec with "H"); [done|]. iIntros "H". iSpecialize ("HΦ" with "H").
    by rewrite (bool_decide_ext (bs1 = [] ∧ bs2 = []) (bs2 = [])); [|naive_solver].
  - wp_ret. iSpecialize ("HΦ" with "H"). rewrite bool_decide_eq_false_2; [done|naive_solver].
Qed.

Section block.
Context (S1 S2 : list segment) (a s : Z) (bs1 bs2 : list chunk) (s1 s' : Z) (bs1' bs2' : list chunk).
Local Abbreviation S := (S1 ++ (a, bs1 ++ Used s :: bs2) :: S2).
Local Abbreviation b := (first_block a + total bs1).
Local Abbreviation G := (all_frees (S1 ++ S2)).
Hypothesis HS : Forall seg_ok S.
Hypothesis Hlimit : seg_total S < 2 ^ 64.
Hypothesis Hright : grown_right s bs2 s1 bs2'.
Hypothesis Hleft : grown_left bs1 s1 bs1' s'.

Lemma block_seg_ok : seg_ok (a, bs1 ++ Used s :: bs2).
Proof using HS. apply Forall_app in HS as [_ [? _]%Forall_cons_1]. done. Qed.

(** the segment is given back *)
Lemma release_segment_spec (Φ : unit → hpropI) Ψ : bs1' = [] → bs2' = [] →
  beside S1 a (seg_size (bs1 ++ Used s :: bs2)) S2 -∗ hole (first_block a) bs1' s' bs2' G -∗
  real_size heap ↦ seg_total S -∗ storage_inv -∗
  (∀ S', ⌜released b s S S'⌝ -∗ segments S' -∗ real_size heap ↦ seg_total S' -∗ storage_inv -∗ Φ tt) -∗
  wp (zend_mm_del_segment heap storage_free (first_block a + total bs1' - ZEND_MM_ALIGNED_SEGMENT_SIZE)) Φ Ψ.
Proof using HS Hlimit Hright Hleft.
  pose proof (grown_total s bs1 bs2 s1 s' bs1' bs2' Hright Hleft) as Ht. pose proof (grown_hole a s bs1 bs2 s1 s' bs1' bs2' block_seg_ok Hright Hleft) as Hh.
  pose proof (released_deleted a s bs1 bs2 s1 s' bs1' bs2' block_seg_ok Hright Hleft S1 S2 HS) as Hrel. pose proof (seg_bound _ block_seg_ok) as Hb. pose proof (seg_pos _ block_seg_ok) as Hpos.
  pose proof (hole_size _ _ _ _ Hh) as [Hs' _]. iIntros (-> ->) "H1 H2 H3 H4 HΦ". destruct (Hrel eq_refl eq_refl) as [Hr Htot]. pose proof (seg_total_pos _ (released_ok _ _ _ _ Hr)) as Hnn. cbn [fst snd] in Hb, Hpos. rewrite Ht in Hb |- *. unfold seg_size in Hb.
  cbn [total app chunk_size] in Hb |- *. rewrite (_ : first_block a + 0 - ZEND_MM_ALIGNED_SEGMENT_SIZE = a); [|unfold first_block; change ZEND_MM_ALIGNED_SEGMENT_SIZE with 16; lia].
  iApply (del_segment_spec heap S1 a s' S2 with "[H1] H2 H3 H4"); [apply Hh|lia|unfold seg_size; cbn [total chunk_size]; by rewrite Z.add_0_r|].
  iIntros "H1 H2 H3". iApply ("HΦ" with "[//] H1 [H2] H3"). rewrite Htot u64_small; [|lia]. by rewrite (_ : seg_total (S1 ++ S2) + (s' + 32) - (s' + 32) = seg_total (S1 ++ S2)); [|lia].
Qed.

(** the block goes to the free lists *)
Lemma release_block_spec (Φ : unit → hpropI) Ψ :
  beside S1 a (seg_size (bs1 ++ Used s :: bs2)) S2 -∗ marked heap (first_block a) bs1' s' bs2' G -∗ real_size heap ↦ seg_total S -∗
  (∀ S', ⌜released b s S S'⌝ -∗ segments S' -∗ real_size heap ↦ seg_total S' -∗ Φ tt) -∗
  wp (zend_mm_add_to_free_list heap (first_block a + total bs1')) Φ Ψ.
Proof using HS Hright Hleft heap_pos.
  pose proof (grown_total s bs1 bs2 s1 s' bs1' bs2' Hright Hleft) as Ht. pose proof (grown_hole a s bs1 bs2 s1 s' bs1' bs2' block_seg_ok Hright Hleft) as Hh.
  pose proof (released_added a s bs1 bs2 s1 s' bs1' bs2' block_seg_ok Hright Hleft S1 S2 HS) as Hrel.
  iIntros "H1 H2 H3 HΦ". iApply (add_marked_spec with "H2"); [done..|]. iIntros "H2".
  iApply ("HΦ" $! (S1 ++ (a, bs1' ++ Free s' :: bs2') :: S2) with "[%] [H1 H2] [H3]"); [by apply Hrel|rewrite segments_open -Ht; iFrame|].
  rewrite !seg_total_app. cbn [seg_total snd]. by rewrite Ht.
Qed.

End block.

Lemma free_block_spec S1 S2 a s bs1 bs2 v (Φ : unit → hpropI) Ψ :
  let S := S1 ++ (a, bs1 ++ Used s :: bs2) :: S2 in let b := first_block a + total bs1 in
  Forall seg_ok S → seg_total S < 2 ^ 64 →
  segments S -∗ span (b + 16) (b + s) -∗ real_size heap ↦ seg_total S -∗ heap_size heap ↦ v -∗ storage_inv -∗
  (∀ S', ⌜released b s S S'⌝ -∗ segments S' -∗ real_size heap ↦ seg_total S' -∗ heap_size heap ↦ u64 (v - s) -∗ storage_inv -∗ Φ tt) -∗
  wp (free_block heap storage_free b s) Φ Ψ.
Proof using heap_pos.
  iIntros (S b HS Hlimit) "H1 H2 H3 H4 H5 HΦ". pose proof (block_seg_ok S1 S2 a s bs1 bs2 HS) as Hseg. destruct (seg_ok_coalesced _ _ _ _ Hseg) as [Hc1 Hc2].
  pose proof (seg_ok_hole _ _ _ _ Hseg) as Hh. cbn [chunk_size] in Hh. unfold S. rewrite segments_open. iDestruct "H1" as "[H1 H6]".
  iDestruct (take_used with "H6") as "[H7 H6]". iDestruct ("H6" with "H7 H2") as "H2". unfold free_block. wp_load "H4". wp_store "H4".
  unfold ZEND_MM_BLOCK_AT. wp_bind. iApply (next_free_spec with "H2"); [done|]. iIntros "H2".
  wp_bind. iApply (join_next_spec with "H2"); [done..|]. iIntros (s1 bs2' Hright) "H2". pose proof (hole_grown_right _ _ _ _ _ _ Hh Hright) as Hh1.
  wp_bind. iApply (prev_free_spec with "H2"); [done|]. iIntros "H2".
  wp_bind. iApply (join_prev_spec with "H2"); [done..|]. iIntros (bs1' s' Hleft) "H2". wp_simpl. pose proof (hole_grown_left _ _ _ _ _ _ Hh1 Hleft) as Hh'.
  wp_bind. iApply (first_spec with "H2"); [done|]. iIntros "H2". wp_bind. iApply (whole_spec with "H2"); [done|]. iIntros "H2". case_bool_decide as Hwhole.
  - destruct Hwhole as [He1 He2]. iApply (release_segment_spec with "H1 H2 H3 H5"); [done..|]. iIntros (S' Hr) "H1 H2 H3". iApply ("HΦ" with "[//] H1 H2 H4 H3").
  - wp_bind. iApply (mark_free_spec with "H2"); [done|]. iIntros "H2". iApply (release_block_spec with "H1 H2 H3"); [done..|].
    iIntros (S' Hr) "H1 H2". iApply ("HΦ" with "[//] H1 H2 H4 H5").
Qed.

(** ** A block of the cache *)

Lemma block_size_spec b c (Φ : Z → hpropI) Ψ : chunk_ok c →
  info_size b ↦ chunk_tag c -∗ (info_size b ↦ chunk_tag c -∗ Φ (chunk_size c)) -∗ wp (ZEND_MM_BLOCK_SIZE b) Φ Ψ.
Proof using Type. iIntros (Hc) "H HΦ". unfold ZEND_MM_BLOCK_SIZE. wp_load "H". wp_ret. rewrite tag_size //. by iApply "HΦ". Qed.

Lemma next_block_spec b c (Φ : Z → hpropI) Ψ : chunk_ok c →
  info_size b ↦ chunk_tag c -∗ (info_size b ↦ chunk_tag c -∗ Φ (b + chunk_size c)) -∗ wp (ZEND_MM_NEXT_BLOCK b) Φ Ψ.
Proof using Type.
  iIntros (Hc) "H HΦ". unfold ZEND_MM_NEXT_BLOCK. wp_bind. iApply (block_size_spec with "H"); [done|]. iIntros "H". wp_ret. by iApply "HΦ".
Qed.

(** whether the marked block is the whole of its segment, as the cache asks *)
Lemma whole_marked_spec a s bs1 bs2 G (Φ : bool → hpropI) Ψ : hole_ok a bs1 s bs2 →
  marked heap a bs1 s bs2 G -∗ (marked heap a bs1 s bs2 G -∗ Φ (bool_decide (bs1 = [] ∧ bs2 = []))) -∗
  wp (if bool_decide (bs1 = []) then let! next := ZEND_MM_NEXT_BLOCK (a + total bs1) in ZEND_MM_IS_GUARD_BLOCK next else ret false)%eff Φ Ψ.
Proof using Type.
  iIntros (Hok) "H HΦ". destruct (decide (bs1 = [])) as [H1|H1]; [rewrite (bool_decide_eq_true_2 (bs1 = [])) //|rewrite (bool_decide_eq_false_2 (bs1 = [])) //].
  - iDestruct (marked_size with "H") as "[H2 H]". wp_bind. iApply (next_block_spec _ (Free s) with "H2"); [apply Hok|]. iIntros "H2". iSpecialize ("H" with "H2").
    iDestruct (marked_next_size with "H") as "[H2 H]". unfold ZEND_MM_IS_GUARD_BLOCK. cbn [chunk_size]. wp_load "H2". iSpecialize ("H" with "H2"). wp_ret.
    rewrite first_tag_guard; [|apply Hok]. iSpecialize ("HΦ" with "H"). by rewrite (bool_decide_ext (bs1 = [] ∧ bs2 = []) (bs2 = [])); [|naive_solver].
  - wp_ret. iSpecialize ("HΦ" with "H"). rewrite bool_decide_eq_false_2; [done|naive_solver].
Qed.

Lemma free_cached_block_spec S1 S2 a s bs1 bs2 q c (Φ : Z → hpropI) Ψ :
  let S := S1 ++ (a, bs1 ++ Used s :: bs2) :: S2 in let b := first_block a + total bs1 in
  Forall seg_ok S → seg_total S < 2 ^ 64 →
  segments S -∗ prev_free_block b ↦ q -∗ span (b + 24) (b + s) -∗ real_size heap ↦ seg_total S -∗ cached heap ↦ c -∗ storage_inv -∗
  (∀ S', ⌜released b s S S'⌝ -∗ segments S' -∗ real_size heap ↦ seg_total S' -∗ cached heap ↦ u32 (c - s) -∗ storage_inv -∗ Φ q) -∗
  wp (free_cached_block heap storage_free b) Φ Ψ.
Proof using heap_pos.
  iIntros (S b HS Hlimit) "H1 Hq H2 H3 H4 H5 HΦ". pose proof (block_seg_ok S1 S2 a s bs1 bs2 HS) as Hseg. destruct (seg_ok_coalesced _ _ _ _ Hseg) as [Hc1 Hc2].
  pose proof (seg_ok_hole _ _ _ _ Hseg) as Hh. cbn [chunk_size] in Hh. pose proof (hole_size _ _ _ _ Hh) as Hs. unfold S. rewrite segments_open. iDestruct "H1" as "[H1 H6]".
  iDestruct (take_used with "H6") as "[H7 H6]". unfold free_cached_block. wp_bind. iApply (block_size_spec _ (Used s) with "H7"); [done|]. iIntros "H7".
  wp_load "Hq". wp_bind. iApply (next_block_spec _ (Used s) with "H7"); [done|]. iIntros "H7". cbn [chunk_size]. wp_load "H4". wp_store "H4".
  iDestruct ("H6" with "H7 [Hq H2]") as "H2".
  { fold b. rewrite (span_cons (b + 16)); [|destruct Hs; lia|destruct Hs as [_ [k ->]]; exists (k - 2); lia]. rewrite (_ : b + 16 + 8 = b + 24); [|lia]. iFrame. }
  wp_bind. iApply (prev_free_spec with "H2"); [done|]. iIntros "H2".
  wp_bind. iApply (join_prev_cached_spec with "H2"); [done..|]. iIntros (bs1' s1 Hleft1) "H2". pose proof (hole_grown_left _ _ _ _ _ _ Hh Hleft1) as Hh1. wp_simpl.
  assert (Hnext : b + s = first_block a + total bs1' + s1).
  { destruct Hleft1 as (_ & l & _ & -> & ->). unfold b. rewrite total_app. lia. }
  rewrite Hnext. wp_bind. iApply (next_free_spec with "H2"); [done|]. iIntros "H2".
  wp_bind. iApply (join_next_cached_spec with "H2"); [done..|]. iIntros (s' bs2' Hright1) "H2". pose proof (hole_grown_right _ _ _ _ _ _ Hh1 Hright1) as Hh'.
  destruct (grown_swap _ _ _ _ _ _ _ Hleft1 Hright1) as (s2 & Hright & Hleft). wp_bind. iApply (mark_free_spec with "H2"); [done|]. iIntros "H2".
  iDestruct (marked_prev_tag with "H2") as "[H7 H2]". unfold ZEND_MM_IS_FIRST_BLOCK. wp_bind. wp_load "H7". iSpecialize ("H2" with "H7"). wp_ret. rewrite tag_first; [|apply Hh'].
  wp_bind. iApply (whole_marked_spec with "H2"); [done|]. iIntros "H2". case_bool_decide as Hwhole.
  - destruct Hwhole as [He1 He2]. iDestruct (marked_is_hole with "H2") as "H2". wp_bind. iApply (release_segment_spec with "H1 H2 H3 H5"); [done..|].
    iIntros (S' Hr) "H1 H2 H3". wp_ret. iApply ("HΦ" with "[//] H1 H2 H4 H3").
  - wp_bind. iApply (release_block_spec with "H1 H2 H3"); [done..|]. iIntros (S' Hr) "H1 H2". wp_ret. iApply ("HΦ" with "[//] H1 H2 H4 H5").
Qed.

End release.
