(* ===== verification/MmHeap.v ===== *)
(** * The heap of the memory manager

    [heap_live L] owns the heap whose blocks in use by the program are [L], addresses and
    sizes: the segments, the free lists, the cache and the counters.  Freeing a block, and
    the cache. *)

From iris.proofmode Require Import proofmode.
From S2P Require Import Prelude WordLogic MmModel MmBits MmRepr MmTrie MmFree MmLayout MmHole MmJoin MmSegments MmRelease.
Local Open Scope Z_scope.

(** ** The cache *)

(** the blocks of a list, linked by [prev_free_block] *)
Fixpoint cache_list (s : Z) (l : list Z) : hpropI :=
  match l with
  | [] => emp
  | q :: l' => prev_free_block q ↦ hd 0 l' ∗ span (q + 24) (q + s) ∗ cache_list s l'
  end%I.

Definition cached_blocks (Cs : list (list Z)) : list (Z * Z) := concat (imap small_elements Cs).
(** the contents of blocks *)
Definition bodies (L : list (Z * Z)) : hpropI := [∗ list] x ∈ L, span (x.1 + 16) (x.1 + x.2).
Fixpoint sizes (l : list (Z * Z)) : Z := match l with [] => 0 | x :: l' => x.2 + sizes l' end.

Lemma bodies_perm L L' : L ≡ₚ L' → bodies L ⊢ bodies L'.
Proof. intros HL. unfold bodies. by rewrite HL. Qed.
Lemma bodies_app L L' : bodies (L ++ L') ⊣⊢ bodies L ∗ bodies L'.
Proof. apply big_sepL_app. Qed.

Lemma sizes_app l1 l2 : sizes (l1 ++ l2) = sizes l1 + sizes l2.
Proof. induction l1 as [|x l1 IH]; cbn [app sizes]; lia. Qed.

(** the counter without a block, with one more, and with one that has another size *)
Lemma counted_free d s n : u64 (u64 (d + (s + n)) - s) = u64 (d + n).
Proof. unfold u64. rewrite Zminus_mod_idemp_l. f_equal. lia. Qed.
Lemma u64_idem n : u64 (u64 n) = u64 n.
Proof. apply Zmod_mod. Qed.
Lemma counted_more d s n : u64 (u64 (d + n) + s) = u64 (d + (s + n)).
Proof. unfold u64. rewrite Zplus_mod_idemp_l. f_equal. lia. Qed.
Lemma counted_resized d s s' n : u64 (u64 (d + (s + n)) + (s' - s)) = u64 (d + (s' + n)).
Proof. unfold u64. rewrite Zplus_mod_idemp_l. f_equal. lia. Qed.

#[export] Instance sizes_proper : Proper ((≡ₚ) ==> (=)) sizes.
Proof. intros l l'. induction 1 as [|x l l' _ IH|x y l|l1 l2 l3 _ IH1 _ IH2]; cbn [sizes] in *; lia. Qed.

Lemma small_elements_cons i q l : small_elements i (q :: l) = (q, small_size_of i) :: small_elements i l.
Proof. done. Qed.

Lemma sizes_small i l : 0 ≤ sizes (small_elements i l).
Proof. induction l as [|q l IH]; [done|]. rewrite small_elements_cons. cbn [sizes snd]. unfold small_size_of in *. lia. Qed.

Lemma sizes_cached Cs : 0 ≤ sizes (cached_blocks Cs).
Proof.
  assert (H : Forall (λ x, 0 ≤ x.2) (cached_blocks Cs)).
  { apply Forall_forall. intros [b s] Hb. apply elem_of_concat_imap in Hb as (i & l & _ & Hb). apply list_elem_of_fmap in Hb as (q & [= -> ->] & _). cbn [snd]. unfold small_size_of. lia. }
  induction H; cbn [sizes]; lia.
Qed.

(** the largest value of [heap->limit], that of the start *)
Abbreviation largest_limit := (2 ^ 62).

Section heap.
Context (heap block_size lim : Z).
Hypothesis heap_pos : 0 < heap.
Context {storage : Storage}.
Local Abbreviation segments := (segments heap).

Definition cache_at (i : nat) (l : list Z) : hpropI := cache heap (Z.of_nat i) ↦ hd 0 l ∗ cache_list (small_size_of i) l.
Definition caches (Cs : list (list Z)) : hpropI := [∗ list] i ↦ l ∈ Cs, cache_at i l.

(** ** The heap *)

Record heap_ok (S : list segment) (Cs : list (list Z)) (L : list (Z * Z)) : Prop := HeapOk {
  heap_segments : Forall seg_ok S;
  heap_caches : length Cs = 64%nat;
  heap_useds : all_useds S ≡ₚ L ++ cached_blocks Cs;
  heap_total : seg_total S ≤ largest_limit;
  heap_cached : sizes (cached_blocks Cs) < ZEND_MM_CACHE_SIZE + ZEND_MM_MAX_SMALL_SIZE
}.

(** [heap->size] counts the blocks in use and those of the cache, and [drift] bytes besides *)
Definition counters (drift : Z) (S : list segment) (Cs : list (list Z)) : hpropI :=
  real_size heap ↦ seg_total S ∗ cached heap ↦ sizes (cached_blocks Cs) ∗ (∃ l, ⌜0 ≤ l ≤ lim⌝ ∗ limit heap ↦ l) ∗ block_size_field heap ↦ block_size ∗
  heap_size heap ↦ u64 (drift + sizes (all_useds S)) ∗ (∃ v, peak heap ↦ v) ∗ (∃ v, real_peak heap ↦ v).

Definition heap_at (drift : Z) (S : list segment) (Cs : list (list Z)) (L : list (Z * Z)) : hpropI :=
  ⌜heap_ok S Cs L⌝ ∗ segments S ∗ caches Cs ∗ counters drift S Cs ∗ storage_inv.
Definition heap_live (drift : Z) (L : list (Z * Z)) : hpropI := ∃ S Cs, heap_at drift S Cs L.

Lemma heap_live_perm drift L L' : L ≡ₚ L' → heap_live drift L ⊢ heap_live drift L'.
Proof using Type.
  intros HL. iIntros "(%S & %Cs & %Hok & H)". iExists S, Cs. iFrame. iPureIntro. destruct Hok as [? ? Hu ? ?]. constructor; try done. by rewrite Hu HL.
Qed.

(** the blocks in use *)
Lemma used_ok S b s : Forall seg_ok S → (b, s) ∈ all_useds S → 0 < b ∧ (8 | b) ∧ good_size s.
Proof using Type.
  intros HS Hb. destruct (all_useds_split _ _ _ Hb) as (S1 & a & bs1 & bs2 & S2 & -> & ->). apply Forall_app in HS as [_ [Hseg _]%Forall_cons_1].
  pose proof (seg_ok_hole _ _ _ _ Hseg) as [_ H1 Hs _ _]. pose proof (total_ok _ H1) as [Ht Ht8]. destruct Hseg as [Ha Ha8 _ _ _ _]. cbn [fst] in *. unfold first_block.
  split; [lia|]. split; [apply Z.divide_add_r; [apply Z.divide_add_r; [done|by exists 2]|done]|done].
Qed.

Lemma used_size S b s : (b, s) ∈ all_useds S → segments S ⊢ info_size b ↦ chunk_tag (Used s) ∗ (info_size b ↦ chunk_tag (Used s) -∗ segments S).
Proof using Type.
  intros Hb. destruct (all_useds_split _ _ _ Hb) as (S1 & a & bs1 & bs2 & S2 & -> & ->). rewrite segments_open. unfold row. rewrite chain_app. unfold chain. cbn [headers is_free].
  iIntros "($ & (H1 & (H2 & $ & H3) & H4) & H5)". iIntros "H6". iFrame.
Qed.

(** ** The blocks of a list of the cache *)

Lemma cache_list_words s l : cache_list s l ⊢ [∗ list] a ∈ prev_free_block <$> l, ∃ v, a ↦ v.
Proof using Type. induction l as [|q l IH]; cbn [cache_list fmap list_fmap big_sepL]; [done|]. rewrite IH. iIntros "(H1 & _ & $)". by iExists _. Qed.

Lemma free_cache_list_spec fuel i l S M c (Φ : unit → hpropI) Ψ :
  Forall seg_ok S → seg_total S < 2 ^ 64 → all_useds S ≡ₚ M ++ small_elements i l → 0 ≤ c → c + sizes (small_elements i l) < 2 ^ 32 → (length l ≤ fuel)%nat →
  segments S -∗ cache_list (small_size_of i) l -∗ real_size heap ↦ seg_total S -∗ cached heap ↦ (c + sizes (small_elements i l)) -∗ storage_inv -∗
  (∀ S', ⌜Forall seg_ok S' ∧ all_useds S' ≡ₚ M ∧ seg_total S' ≤ seg_total S⌝ -∗
    segments S' -∗ real_size heap ↦ seg_total S' -∗ cached heap ↦ c -∗ storage_inv -∗ Φ tt) -∗
  wp (free_cache_list_loop heap storage_free fuel (hd 0 l)) Φ Ψ.
Proof using heap_pos.
  revert l S. induction fuel as [|fuel IH]; intros l S HS Htot Hu Hc Hlt Hf; (destruct l as [|q l]; [|try (cbn in Hf; lia)]); iIntros "H1 H2 H3 H4 H5 HΦ".
  1, 2: cbn [free_cache_list_loop hd Z.eqb negb]; wp_ret; iApply ("HΦ" with "[%] H1 H3 [H4] H5"); [split; [done|]; by rewrite Hu app_nil_r|]; cbn; by rewrite Z.add_0_r.
  assert (Hin : (q, small_size_of i) ∈ all_useds S) by (rewrite Hu elem_of_app; right; apply list_elem_of_here).
  destruct (used_ok S _ _ HS Hin) as (Hq & _ & Hs). destruct (all_useds_split _ _ _ Hin) as (S1 & a & bs1 & bs2 & S2 & -> & ->).
  cbn [free_cache_list_loop hd cache_list]. iDestruct "H2" as "(H6 & H7 & H2)". destruct (Z.eqb_spec (first_block a + total bs1) 0); [lia|]. cbn [negb].
  wp_bind. iApply (free_cached_block_spec with "H1 H6 H7 H3 H4 H5"); [done..|]. iIntros (S' [HS' Hu' Htot']) "H1 H3 H4 H5".
  pose proof (sizes_small i l) as Hnn. rewrite small_elements_cons in Hu, Hlt |- *. cbn [sizes snd] in Hlt |- *.
  assert (0 ≤ small_size_of i) by (unfold small_size_of; lia).
  rewrite (_ : u32 (c + (small_size_of i + sizes (small_elements i l)) - small_size_of i) = c + sizes (small_elements i l)); [|unfold u32; rewrite Z.mod_small; lia].
  iApply (IH with "H1 H2 H3 H4 H5"); [done|lia| |done|lia|cbn in Hf; lia|].
  { apply (Permutation_cons_inv (a := (first_block a + total bs1, small_size_of i))). rewrite -Hu' Hu. solve_Permutation. }
  iIntros (S'' (HS'' & Hu'' & Htot'')) "H1 H3 H4 H5". iApply ("HΦ" with "[%] H1 H3 H4 H5"). split; [done|]. split; [done|lia].
Qed.

(** ** One list of the cache *)

Lemma cache_focus Cs i l : Cs !! i = Some l → caches Cs ⊢ cache_at i l ∗ (∀ l', cache_at i l' -∗ caches (<[i := l']> Cs)).
Proof using Type. intros Hi. unfold caches. by apply big_sepL_insert_acc. Qed.

Lemma cached_focus Cs i l : Cs !! i = Some l →
  ∃ E, cached_blocks Cs ≡ₚ small_elements i l ++ E ∧ (∀ l', cached_blocks (<[i := l']> Cs) ≡ₚ small_elements i l' ++ E) ∧ 0 ≤ sizes E.
Proof using Type.
  intros Hi. destruct (concat_imap_focus small_elements Cs i l Hi) as (E & H1 & H2). exists E. split; [done|]. split; [done|].
  pose proof (sizes_cached (<[i := []]> Cs)) as Hnn. unfold cached_blocks in Hnn. by rewrite H2 in Hnn.
Qed.

Lemma sizes_insert Cs i l l' : Cs !! i = Some l →
  sizes (cached_blocks (<[i := l']> Cs)) = sizes (cached_blocks Cs) - sizes (small_elements i l) + sizes (small_elements i l').
Proof using Type. intros Hi. destruct (cached_focus Cs i l Hi) as (E & H1 & H2 & _). rewrite H1 H2 !sizes_app. lia. Qed.

(** the heap with another list in the cache *)
Lemma heap_ok_cache S Cs L i l l' S' L' : Cs !! i = Some l → heap_ok S Cs L → Forall seg_ok S' → seg_total S' ≤ largest_limit →
  (∀ E, all_useds S ≡ₚ L ++ small_elements i l ++ E → all_useds S' ≡ₚ L' ++ small_elements i l' ++ E) →
  sizes (cached_blocks (<[i := l']> Cs)) < ZEND_MM_CACHE_SIZE + ZEND_MM_MAX_SMALL_SIZE →
  heap_ok S' (<[i := l']> Cs) L'.
Proof using Type.
  intros Hi [HS Hlen Hu Htot Hc] HS' Htot' HU Hsz. destruct (cached_focus Cs i l Hi) as (E & H1 & H2 & _). constructor; try done.
  - by rewrite length_insert.
  - rewrite H2. apply HU. by rewrite -H1.
Qed.

(** a block out of the cache, and into it *)
Lemma heap_ok_pop S Cs L i q l : Cs !! i = Some (q :: l) → heap_ok S Cs L →
  heap_ok S (<[i := l]> Cs) ((q, small_size_of i) :: L) ∧ sizes (cached_blocks (<[i := l]> Cs)) = sizes (cached_blocks Cs) - small_size_of i.
Proof using Type.
  intros Hi Hok. assert (Hsz : sizes (cached_blocks (<[i := l]> Cs)) = sizes (cached_blocks Cs) - small_size_of i).
  { rewrite (sizes_insert _ _ _ _ Hi) small_elements_cons. cbn [sizes snd]. lia. }
  split; [|done]. pose proof (heap_cached _ _ _ Hok). apply (heap_ok_cache S Cs L i (q :: l) l S _ Hi Hok); [apply Hok|apply Hok| |].
  - intros E ->. rewrite small_elements_cons. solve_Permutation.
  - rewrite Hsz. unfold small_size_of in *. lia.
Qed.

Lemma heap_ok_push S Cs L i b l : Cs !! i = Some l → heap_ok S Cs ((b, small_size_of i) :: L) →
  sizes (cached_blocks Cs) + small_size_of i < ZEND_MM_CACHE_SIZE + ZEND_MM_MAX_SMALL_SIZE →
  heap_ok S (<[i := b :: l]> Cs) L ∧ sizes (cached_blocks (<[i := b :: l]> Cs)) = sizes (cached_blocks Cs) + small_size_of i.
Proof using Type.
  intros Hi Hok Hroom. assert (Hsz : sizes (cached_blocks (<[i := b :: l]> Cs)) = sizes (cached_blocks Cs) + small_size_of i).
  { rewrite (sizes_insert _ _ _ _ Hi) small_elements_cons. cbn [sizes snd]. lia. }
  split; [|done]. apply (heap_ok_cache S Cs _ i l (b :: l) S L Hi Hok); [apply Hok|apply Hok| |by rewrite Hsz].
  intros E ->. rewrite small_elements_cons. solve_Permutation.
Qed.

(** the words of a cached block *)
Lemma cached_span q s : good_size s → (∃ v, prev_free_block q ↦ v) ∗ span (q + 24) (q + s) ⊣⊢ span (q + 16) (q + s).
Proof using Type.
  intros [Hs [k ->]]. rewrite (span_cons (q + 16)); [|lia|exists (k - 2); lia]. by rewrite (_ : q + 16 + 8 = q + 24); [|lia].
Qed.

(** ** Freeing *)

(** a used block put at the head of its list *)
Lemma push_spec {A} Cs i b l (m : W A) (Φ : A → hpropI) Ψ : Cs !! i = Some l → good_size (small_size_of i) →
  caches Cs -∗ span (b + 16) (b + small_size_of i) -∗ (caches (<[i := b :: l]> Cs) -∗ wp m Φ Ψ) -∗
  wp (let! c := rd (cache heap (Z.of_nat i)) in wr (prev_free_block b) c ;;; wr (cache heap (Z.of_nat i)) b ;;; m)%eff Φ Ψ.
Proof using Type.
  iIntros (Hl Hs) "H1 H2 HΦ". iDestruct (cache_focus with "H1") as "[[H3 H4] H1]"; [done|]. rewrite -cached_span //. iDestruct "H2" as "[[% H2] H5]".
  wp_load "H3". wp_store "H2". wp_store "H3". iApply "HΦ". iApply "H1". unfold cache_at. cbn [hd cache_list]. iFrame.
Qed.

Lemma put_in_cache_spec S Cs L b s (Φ : unit → hpropI) Ψ : heap_ok S Cs ((b, s) :: L) → s < ZEND_MM_MAX_SMALL_SIZE → sizes (cached_blocks Cs) < ZEND_MM_CACHE_SIZE →
  segments S -∗ caches Cs -∗ cached heap ↦ sizes (cached_blocks Cs) -∗ span (b + 16) (b + s) -∗
  (∀ Cs', ⌜heap_ok S Cs' L⌝ -∗ segments S -∗ caches Cs' -∗ cached heap ↦ sizes (cached_blocks Cs') -∗ Φ tt) -∗
  wp (put_in_cache heap b s) Φ Ψ.
Proof using Type.
  iIntros (Hok Hlt Hroom) "H1 H2 H3 H4 HΦ". change ZEND_MM_MAX_SMALL_SIZE with 544 in Hlt. pose proof (heap_useds _ _ _ Hok) as Hu.
  destruct (used_ok S b s (heap_segments _ _ _ Hok)) as (Hb & _ & Hs); [rewrite Hu; apply list_elem_of_here|]. destruct (small_index s Hs Hlt) as (i & Hi & Hi64 & Hsi).
  destruct (lookup_lt_is_Some_2 Cs i) as [l Hl]; [by rewrite (heap_caches _ _ _ Hok)|]. subst s. pose proof (sizes_cached Cs) as Hnn.
  destruct (heap_ok_push S Cs L i b l Hl Hok) as [Hok' Hsz]; [change ZEND_MM_MAX_SMALL_SIZE with 544; lia|].
  unfold put_in_cache. rewrite Hi. iApply (push_spec with "H2 H4"); [done..|]. iIntros "H2". wp_load "H3". iApply (wp_store with "H3"). iIntros "H3".
  rewrite u32_small; [|change ZEND_MM_CACHE_SIZE with 262144 in Hroom; destruct Hs; lia]. rewrite -Hsz. by iApply ("HΦ" with "[//] H1 H2 H3").
Qed.

Lemma free_int_spec drift L b s (Φ : unit → hpropI) Ψ :
  heap_live drift ((b, s) :: L) -∗ span (b + 16) (b + s) -∗ (heap_live drift L -∗ Φ tt) -∗ wp (_zend_mm_free_int heap storage_free (b + 16)) Φ Ψ.
Proof using heap_pos.
  iIntros "(%S & %Cs & %Hok & H1 & H2 & (H3 & H4 & H5 & H6 & H7 & H8 & H9) & H10) Hb HΦ".
  pose proof (heap_useds _ _ _ Hok) as Hu. pose proof (heap_segments _ _ _ Hok) as HS. assert (Hin : (b, s) ∈ all_useds S) by (rewrite Hu; apply list_elem_of_here).
  destruct (used_ok S b s HS Hin) as (Hpos & _ & Hs). unfold _zend_mm_free_int. destruct (Z.eqb_spec (b + 16) 0); [lia|].
  change ZEND_MM_ALIGNED_HEADER_SIZE with 16. unfold ZEND_MM_HEADER_OF, ZEND_MM_BLOCK_AT. change ZEND_MM_ALIGNED_HEADER_SIZE with 16. rewrite (_ : b + 16 + - (16) = b); [|lia].
  iDestruct (used_size with "H1") as "[Hs H1]"; [done|]. wp_bind. iApply (block_size_spec _ (Used s) with "Hs"); [done|]. iIntros "Hs". iSpecialize ("H1" with "Hs").
  wp_load "H4". cbn [chunk_size]. rewrite small_size. destruct (Z.ltb_spec s 544) as [Hlt|Hge]; cbn [andb]; [destruct (Z.ltb_spec (sizes (cached_blocks Cs)) ZEND_MM_CACHE_SIZE)|].
  { iApply (put_in_cache_spec with "H1 H2 H4 Hb"); [done..|]. iIntros (Cs' Hok') "H1 H2 H4". iApply "HΦ". iExists S, Cs'. by iFrame. }
  all: destruct (all_useds_split _ _ _ Hin) as (S1 & a & bs1 & bs2 & S2 & -> & ->); pose proof (heap_total _ _ _ Hok) as Htot;
    iApply (free_block_spec with "H1 Hb H3 H7 H10"); [done..|lia|]; iIntros (S' [HS' Hu' Htot']) "H1 H3 H7 H10"; iApply "HΦ"; iExists S', Cs; rewrite Hu' counted_free; iFrame;
    iPureIntro; destruct Hok as [_ ? _ _ ?]; constructor; try done; [|lia]; rewrite Hu' in Hu; by apply Permutation_cons_inv in Hu.
Qed.

(** ** Emptying the cache *)

(** the step of one list *)
Lemma free_cache_bucket_spec S Cs L i l (Φ : unit → hpropI) Ψ : heap_ok S Cs L → Cs !! i = Some l →
  segments S -∗ cache_at i l -∗ (∀ l', cache_at i l' -∗ caches (<[i := l']> Cs)) -∗
  real_size heap ↦ seg_total S -∗ cached heap ↦ sizes (cached_blocks Cs) -∗ storage_inv -∗
  (∀ S', ⌜heap_ok S' (<[i := []]> Cs) L ∧ seg_total S' ≤ seg_total S⌝ -∗
    segments S' -∗ caches (<[i := []]> Cs) -∗ real_size heap ↦ seg_total S' -∗ cached heap ↦ sizes (cached_blocks (<[i := []]> Cs)) -∗ storage_inv -∗ Φ tt) -∗
  wp (if negb (hd 0 l =? 0) then
        let! fuel := words_fuel in free_cache_list_loop heap storage_free fuel (hd 0 l) ;;; wr (cache heap (Z.of_nat i)) 0
      else ret tt)%eff Φ Ψ.
Proof using heap_pos.
  iIntros (Hok Hl) "H1 [H6 H7] H2 H3 H4 H5 HΦ". pose proof (heap_useds _ _ _ Hok) as Hu. pose proof (heap_segments _ _ _ Hok) as HS. pose proof (heap_total _ _ _ Hok) as Htot.
  destruct (cached_focus Cs i l Hl) as (E & HE1 & HE2 & HE). assert (HuE : all_useds S ≡ₚ (L ++ E) ++ small_elements i l) by (rewrite Hu HE1; solve_Permutation).
  destruct l as [|q l].
  { cbn [hd Z.eqb negb]. wp_ret. iSpecialize ("H2" $! [] with "[$H6 $H7]"). rewrite list_insert_id //. by iApply ("HΦ" $! S with "[//] H1 H2 H3 H4 H5"). }
  assert (Hq : (q, small_size_of i) ∈ all_useds S) by (rewrite HuE small_elements_cons elem_of_app; right; apply list_elem_of_here).
  destruct (used_ok S _ _ HS Hq) as (Hpos & _). cbn [hd]. destruct (Z.eqb_spec q 0); [lia|]. cbn [negb]. wp_bind.
  iApply (wp_fuel (prev_free_block <$> q :: l) with "H7"); [apply cache_list_words|]. iIntros (fuel Hfuel) "H7". rewrite length_fmap in Hfuel.
  pose proof (heap_cached _ _ _ Hok) as Hsz. rewrite HE1 sizes_app in Hsz |- *. rewrite Z.add_comm in Hsz |- *. wp_bind.
  iApply (free_cache_list_spec _ _ _ _ (L ++ E) (sizes E) with "H1 H7 H3 H4 H5"); [done|lia|done|done| |lia|].
  { change (ZEND_MM_CACHE_SIZE + ZEND_MM_MAX_SMALL_SIZE) with 262688 in Hsz. lia. }
  iIntros (S' (HS' & Hu' & Htot')) "H1 H3 H4 H5". wp_store "H6". iApply ("HΦ" $! S' with "[%] H1 [H2 H6] H3 [H4] H5").
  - split; [|done]. apply (heap_ok_cache S Cs L i (q :: l) [] S' L Hl Hok); [done|lia| |].
    + intros E' HE'. rewrite Hu' /=. apply (Permutation_app_inv_r (small_elements i (q :: l))). rewrite -HuE HE'. solve_Permutation.
    + pose proof (sizes_small i (q :: l)). rewrite HE2 /=. lia.
  - iApply "H2". unfold cache_at. cbn [hd cache_list]. iFrame.
  - by rewrite HE2.
Qed.

Lemma free_cache_loop_spec n i S Cs L (Φ : unit → hpropI) Ψ : heap_ok S Cs L → (i + n = 64)%nat →
  segments S -∗ caches Cs -∗ real_size heap ↦ seg_total S -∗ cached heap ↦ sizes (cached_blocks Cs) -∗ storage_inv -∗
  (∀ S' Cs', ⌜heap_ok S' Cs' L ∧ seg_total S' ≤ seg_total S ∧ (∀ j, Cs' !! j = Cs !! j ∨ Cs' !! j = Some []) ∧ ∀ j, (i ≤ j < 64)%nat → Cs' !! j = Some []⌝ -∗
    segments S' -∗ caches Cs' -∗ real_size heap ↦ seg_total S' -∗ cached heap ↦ sizes (cached_blocks Cs') -∗ storage_inv -∗ Φ tt) -∗
  wp (free_cache_loop heap storage_free n (Z.of_nat i)) Φ Ψ.
Proof using heap_pos.
  revert i S Cs. induction n as [|n IH]; intros i S Cs Hok Hn; iIntros "H1 H2 H3 H4 H5 HΦ"; cbn [free_cache_loop].
  { wp_ret. iApply ("HΦ" with "[%] H1 H2 H3 H4 H5"). split; [done|]. split; [done|]. split; [auto|lia]. }
  destruct (lookup_lt_is_Some_2 Cs i) as [l Hl]; [rewrite (heap_caches _ _ _ Hok); lia|].
  iDestruct (cache_focus with "H2") as "[[H6 H7] H2]"; [done|]. wp_load "H6". wp_bind.
  iApply (free_cache_bucket_spec with "H1 [$H6 $H7] H2 H3 H4 H5"); [done..|]. iIntros (S1 [Hok1 Htot1]) "H1 H2 H3 H4 H5".
  rewrite (_ : Z.of_nat i + 1 = Z.of_nat (Datatypes.S i)); [|lia]. iApply (IH with "H1 H2 H3 H4 H5"); [done|lia|]. iIntros (S' Cs' (Hok' & Htot' & Hold & Hempty)) "H1 H2 H3 H4 H5".
  iApply ("HΦ" with "[%] H1 H2 H3 H4 H5"). assert (Hlt : (i < length Cs)%nat) by (by eapply lookup_lt_Some). split; [done|]. split; [lia|]. split.
  - intros j. destruct (Hold j) as [Hj|Hj]; [|by right]. destruct (decide (j = i)) as [->|Hne]; [right; by rewrite Hj list_lookup_insert_eq|left; by rewrite Hj list_lookup_insert_ne].
  - intros j Hj. destruct (decide (j = i)) as [->|Hne]; [|apply Hempty; lia]. destruct (Hold i) as [Hi|Hi]; [by rewrite Hi list_lookup_insert_eq|done].
Qed.

(** the blocks of the cache are free afterwards; [heap->size] still counts them *)
Lemma free_cache_spec drift S Cs L (Φ : unit → hpropI) Ψ : heap_ok S Cs L →
  segments S -∗ caches Cs -∗ counters drift S Cs -∗ storage_inv -∗
  (∀ drift' S', heap_at drift' S' (replicate 64 []) L -∗ Φ tt) -∗ wp (zend_mm_free_cache heap storage_free) Φ Ψ.
Proof using heap_pos.
  iIntros (Hok) "H1 H2 (H3 & H4 & H5 & H7 & H8 & H9) H6 HΦ". iApply (free_cache_loop_spec 64 0 with "H1 H2 H3 H4 H6"); [done..|].
  iIntros (S' Cs' (Hok' & _ & _ & Hempty)) "H1 H2 H3 H4 H6". assert (Cs' = replicate 64 []) as ->.
  { apply list_eq. intros j. destruct (decide (j < 64)%nat) as [Hj|Hj]; [rewrite Hempty; [by rewrite lookup_replicate_2|lia]|].
    rewrite !lookup_ge_None_2 //; [rewrite length_replicate; lia|rewrite (heap_caches _ _ _ Hok'); lia]. }
  iApply ("HΦ" $! (drift + sizes (all_useds S) - sizes (all_useds S')) S'). unfold heap_at, counters. rewrite (_ : drift + sizes (all_useds S) - sizes (all_useds S') + sizes (all_useds S') = drift + sizes (all_useds S)); [|lia]. iFrame. done.
Qed.

End heap.
