(* ===== verification/MmApart.v ===== *)
(** * The heap taken apart

    The words of the free lists, of the cache and of the segments, whatever they hold: what is
    left to [zend_mm_shutdown] of a heap whose blocks have all been given up. *)

From iris.proofmode Require Import proofmode.
From S2P Require Import Prelude WordLogic MmModel MmBits MmRepr MmTrie MmFree MmLayout MmHole MmJoin MmSegments MmRelease MmHeap.
Local Open Scope Z_scope.

(** free blocks, whatever list they are in *)
Definition freeds (F : list (Z * Z)) : hpropI := [∗ list] x ∈ F, freed x.1 x.2.

(** ** Rings and trees *)

Lemma path_apart a l z : path a l z ⊢ (∃ v, next_free_block a ↦ v) ∗ (∃ v, prev_free_block z ↦ v) ∗
  [∗ list] q ∈ l, (∃ v, prev_free_block q ↦ v) ∗ (∃ v, next_free_block q ↦ v).
Proof.
  revert a. induction l as [|x l IH]; intros a; cbn [path big_sepL]; unfold link.
  - iIntros "[H1 H2]". iSplitL "H1"; [by iExists _|]. iSplitL "H2"; [by iExists _|done].
  - rewrite IH. iIntros "[[H1 H2] (H3 & $ & $)]". iSplitL "H1"; [by iExists _|]. iFrame "H3". by iExists _.
Qed.

Lemma tree_apart k lo slot t : tree_ok k lo t → tree_at slot t ⊢ (∃ v, slot ↦ v) ∗ freeds (elements t).
Proof.
  unfold freeds. revert k lo slot. induction t as [|b s rs t0 IH0 t1 IH1]; intros k lo slot; cbn [tree_ok tree_at elements].
  - iIntros (_) "H". iSplitL "H"; [by iExists _|done].
  - intros ([Hb Hrs]%Forall_cons_1 & Hs & Hl & _ & Hsub). assert (Hsub' : ∃ k' lo0 lo1, tree_ok k' lo0 t0 ∧ tree_ok k' lo1 t1).
    { destruct k as [|k]; [destruct Hsub as [-> ->]; by exists O, 0, 0|destruct Hsub; by eauto]. }
    destruct Hsub' as (k' & lo0 & lo1 & H0 & H1). rewrite (IH0 _ _ _ H0) (IH1 _ _ _ H1) big_sepL_cons !big_sepL_app big_sepL_fmap. cbn [fst snd].
    iIntros "(Hslot & H1 & H2 & H3 & H4 & H5 & [H6 $] & [H7 $])". iSplitL "Hslot"; [by iExists _|]. unfold ring. rewrite path_apart. iDestruct "H3" as "(Hn & Hp & Hl)". iSplitL "H1 H2 H5 H6 H7 Hn Hp".
    + iApply (member_freed with "H1 H2 [H5 H6 H7] Hp Hn"); [done..|]. rewrite children_words; [|done..]. iFrame.
    + iCombine "H4 Hl" as "H". rewrite -big_sepL_sep. iApply (big_sepL_mono with "H"). iIntros (i q _) "((H1 & H2 & H3) & H4 & H5)". by iApply (member_freed with "H1 H2 H3 H4 H5").
Qed.

Lemma big_sepL_concat {A B} (Φ : B → hpropI) (f : nat → A → list B) l : ([∗ list] i ↦ x ∈ l, [∗ list] y ∈ f i x, Φ y) ⊢ [∗ list] y ∈ concat (imap f l), Φ y.
Proof.
  revert f. induction l as [|x l IH]; intros f; cbn [big_sepL]; [done|]. rewrite imap_cons concat_cons big_sepL_app. iIntros "[$ H]". iApply (IH (f ∘ S)). iExact "H".
Qed.

Lemma small_size_good i : (i < 64)%nat → good_size (small_size_of i).
Proof. intros Hi. unfold small_size_of. split; [lia|]. exists (4 + Z.of_nat i). lia. Qed.

Section apart.
Context (heap : Z).
Context {storage : Storage}.

(** ** The free lists *)

(** words in a row, two for each entry of a list, or one *)
Lemma pair_words {A} (l : list A) a : ([∗ list] j ↦ _ ∈ l, (∃ v, (a + 16 * Z.of_nat j) ↦ v) ∗ (∃ v, (a + 16 * Z.of_nat j + 8) ↦ v)) ⊢ span a (a + 16 * Z.of_nat (length l)).
Proof using Type.
  revert a. induction l as [|x l IH]; intros a; cbn [big_sepL length]; [by rewrite Z.add_0_r span_nil|].
  rewrite Z.add_0_r. rewrite (span_cons a); [|lia|exists (2 * Z.of_nat (S (length l))); lia]. rewrite (span_cons (a + 8)); [|lia|exists (2 * Z.of_nat (length l) + 1); lia].
  iIntros "[[$ $] H]". rewrite (_ : a + 16 * Z.of_nat (S (length l)) = a + 16 + 16 * Z.of_nat (length l)); [|lia]. rewrite (_ : a + 8 + 8 = a + 16); [|lia].
  iApply IH. iApply (big_sepL_mono with "H"). iIntros (j y _) "H". by rewrite (_ : a + 16 * Z.of_nat (S j) = a + 16 + 16 * Z.of_nat j); [|lia].
Qed.

Lemma single_words {A} (l : list A) a : ([∗ list] j ↦ _ ∈ l, ∃ v, (a + 8 * Z.of_nat j) ↦ v) ⊢ span a (a + 8 * Z.of_nat (length l)).
Proof using Type.
  revert a. induction l as [|x l IH]; intros a; cbn [big_sepL length]; [by rewrite Z.add_0_r span_nil|].
  rewrite Z.add_0_r. rewrite (span_cons a); [|lia|exists (Z.of_nat (S (length l))); lia]. iIntros "[$ H]". rewrite (_ : a + 8 * Z.of_nat (S (length l)) = a + 8 + 8 * Z.of_nat (length l)); [|lia].
  iApply IH. iApply (big_sepL_mono with "H"). iIntros (j y _) "H". by rewrite (_ : a + 8 * Z.of_nat (S j) = a + 8 + 8 * Z.of_nat j); [|lia].
Qed.

Lemma small_apart i l : (i < 64)%nat → small_at heap i l ⊢
  ((∃ v, free_buckets heap (2 * Z.of_nat i) ↦ v) ∗ (∃ v, free_buckets heap (2 * Z.of_nat i + 1) ↦ v)) ∗ freeds (small_elements i l).
Proof using Type.
  intros Hi. unfold small_at, ring, freeds, small_elements. rewrite path_apart sentinel_prev sentinel_next big_sepL_fmap. cbn [fst snd]. rewrite (Z.mul_comm 2). iIntros "[($ & $ & H1) H2]".
  iCombine "H2 H1" as "H". rewrite -big_sepL_sep. iApply (big_sepL_mono with "H"). iIntros (j q _) "H". by iApply (small_body_freed with "H"); apply small_size_good.
Qed.

Lemma rests_apart l : Forall (λ x, good_size x.2) l → rests_in heap l ⊢ (∃ v, rest_buckets heap 0 ↦ v) ∗ (∃ v, rest_buckets heap 1 ↦ v) ∗ freeds l.
Proof using Type.
  intros Hl. unfold rests_in, ring, freeds. rewrite path_apart rests_prev rests_next big_sepL_fmap. iIntros "[($ & $ & H1) H2]".
  iCombine "H2 H1" as "H". rewrite -big_sepL_sep. iApply (big_sepL_mono with "H"). iIntros (j [b s] Hj) "H". iApply (rest_body_freed with "H"). by apply (Forall_lookup_1 _ _ _ _ Hl) in Hj.
Qed.

Lemma free_apart F : free_lists heap F ⊢ (∃ v, free_bitmap heap ↦ v) ∗ (∃ v, large_free_bitmap heap ↦ v) ∗
  span (free_buckets heap 0) (free_buckets heap 128) ∗ span (large_free_buckets heap 0) (large_free_buckets heap 64) ∗
  (∃ v, rest_buckets heap 0 ↦ v) ∗ (∃ v, rest_buckets heap 1 ↦ v) ∗ (∃ v, rest_count heap ↦ v) ∗ freeds F.
Proof using Type.
  iIntros "(%f & [%Hok %Hel] & H1 & H2 & H3 & H4 & H5 & H6)". iSplitL "H1"; [by iExists _|]. iSplitL "H2"; [by iExists _|].
  rewrite rests_apart; [|apply Forall_forall; intros [b s] Hx; apply (ok_blocks f Hok b); unfold free_elements; rewrite !elem_of_app; by right; right].
  iDestruct "H6" as "($ & $ & H6)". iAssert (([∗ list] j ↦ _ ∈ f_smalls f, (∃ v, (free_buckets heap 0 + 16 * Z.of_nat j) ↦ v) ∗ (∃ v, (free_buckets heap 0 + 16 * Z.of_nat j + 8) ↦ v)) ∗
    freeds (concat (imap small_elements (f_smalls f))))%I with "[H4]" as "[H4 H7]".
  { unfold freeds. rewrite -big_sepL_concat -big_sepL_sep. iApply (big_sepL_mono with "H4"). iIntros (i l Hi%lookup_lt_Some) "H". rewrite small_apart; [|by rewrite (ok_smalls f Hok) in Hi].
    unfold free_buckets. rewrite (_ : heap + 664 + 8 * (2 * Z.of_nat i) = heap + 664 + 8 * 0 + 16 * Z.of_nat i); [|lia]. rewrite (_ : heap + 664 + 8 * (2 * Z.of_nat i + 1) = heap + 664 + 8 * 0 + 16 * Z.of_nat i + 8); [|lia]. done. }
  iAssert (([∗ list] j ↦ _ ∈ f_trees f, ∃ v, (large_free_buckets heap 0 + 8 * Z.of_nat j) ↦ v) ∗ freeds (concat (imap (λ _, elements) (f_trees f))))%I with "[H5]" as "[H5 H8]".
  { unfold freeds. rewrite -big_sepL_concat -big_sepL_sep. iApply (big_sepL_mono with "H5"). iIntros (i t Hi) "H". unfold tree_in. destruct (ok_tree f Hok i t Hi) as [Ht _]. rewrite (tree_apart _ _ _ _ Ht).
    unfold large_free_buckets. by rewrite (_ : heap + 1688 + 8 * Z.of_nat i = heap + 1688 + 8 * 0 + 8 * Z.of_nat i); [|lia]. }
  rewrite pair_words single_words (ok_smalls f Hok) (ok_trees f Hok). rewrite (_ : free_buckets heap 0 + 16 * Z.of_nat 64 = free_buckets heap 128); [|unfold free_buckets; lia].
  rewrite (_ : large_free_buckets heap 0 + 8 * Z.of_nat 64 = large_free_buckets heap 64); [|unfold large_free_buckets; lia]. iFrame "H4 H5". iSplitL "H3"; [by iExists _|].
  unfold freeds. rewrite Hel. unfold free_elements. rewrite !big_sepL_app. iFrame.
Qed.

(** ** The cache *)

Lemma cache_apart i l : (i < 64)%nat → cache_list (small_size_of i) l ⊢ bodies (small_elements i l).
Proof using Type.
  intros Hi. unfold bodies. induction l as [|q l IH]; cbn [cache_list small_elements fmap list_fmap big_sepL]; [done|]. rewrite IH. iIntros "(H1 & H2 & $)".
  cbn [fst snd]. rewrite -cached_span; [|by apply small_size_good]. iFrame "H2". by iExists _.
Qed.

Lemma caches_apart Cs : length Cs = 64%nat → caches heap Cs ⊢ span (cache heap 0) (cache heap 64) ∗ bodies (cached_blocks Cs).
Proof using Type.
  intros Hlen. unfold caches, bodies, cached_blocks. rewrite -big_sepL_concat. iIntros "H".
  iAssert (([∗ list] j ↦ _ ∈ Cs, ∃ v, (cache heap 0 + 8 * Z.of_nat j) ↦ v) ∗ [∗ list] i ↦ l ∈ Cs, bodies (small_elements i l))%I with "[H]" as "[H $]".
  { rewrite -big_sepL_sep. iApply (big_sepL_mono with "H"). iIntros (i l Hi%lookup_lt_Some) "[H1 H2]". rewrite cache_apart; [|by rewrite Hlen in Hi]. iFrame "H2".
    iExists _. unfold cache. by rewrite (_ : heap + 152 + 8 * 0 + 8 * Z.of_nat i = heap + 152 + 8 * Z.of_nat i); [|lia]. }
  rewrite single_words Hlen. by rewrite (_ : cache heap 0 + 8 * Z.of_nat 64 = cache heap 64); [|unfold cache; lia].
Qed.

(** ** The segments *)

Lemma headers_apart b w bs : Forall chunk_ok bs → headers b w bs ∗ freeds (frees b bs) ∗ bodies (useds b bs) ⊢ span b (b + total bs).
Proof using Type.
  unfold freeds, bodies. intros Hbs. revert b w. induction Hbs as [|c bs Hc Hbs IH]; intros b w; cbn [headers frees useds total]; [rewrite Z.add_0_r span_nil; by iIntros "_"|].
  pose proof Hc as [Hc0 Hc8]. destruct (total_ok bs Hbs) as [Ht0 Ht8]. rewrite (span_split b (b + chunk_size c)); [|lia|by rewrite (_ : b + chunk_size c - b = chunk_size c); [|lia]|by rewrite (_ : b + (chunk_size c + total bs) - (b + chunk_size c) = total bs); [|lia]].
  rewrite Z.add_assoc. destruct c as [s|s]; cbn [is_free chunk_size chunk_tag big_sepL fst snd] in *.
  - iIntros "((H1 & _ & H2) & [[H3 H4] H5] & H6)". iSplitL "H1 H3 H4"; [rewrite -block_span; [|lia|done]; iFrame "H4"; iSplitL "H3"; by iExists _|]. iApply IH. iFrame.
  - iIntros "((H1 & H3 & H2) & H5 & [H4 H6])". iSplitL "H1 H3 H4"; [rewrite -block_span; [|lia|done]; iFrame "H4"; iSplitL "H3"; by iExists _|]. iApply IH. iFrame.
Qed.

(** what follows the two words of its header *)
Lemma segment_apart a bs : seg_ok (a, bs) → seg_row (a, bs) ∗ freeds (seg_frees (a, bs)) ∗ bodies (seg_useds (a, bs)) ⊢ span (a + 16) (a + seg_size bs).
Proof using Type.
  intros Hx. unfold seg_row, seg_frees, seg_useds, chain, first_block, seg_size. cbn [fst snd]. iIntros "([H1 [H2 H3]] & H4 & H5)". iDestruct (headers_apart with "[$H1 $H4 $H5]") as "H1"; [apply (seg_chunks _ Hx)|].
  pose proof (total_ok bs (seg_chunks _ Hx)) as [Ht0 Ht8]. rewrite (_ : a + (total bs + 32) = a + 16 + total bs + 16); [|lia].
  rewrite (span_split (a + 16) (a + 16 + total bs) (a + 16 + total bs + 16)); [|lia|by rewrite Z.add_simpl_l|exists 2; lia].
  iFrame "H1". rewrite -block_span; [|lia|by exists 2]. rewrite span_nil. iSplitL "H2"; [by iExists _|]. iSplitL "H3"; [by iExists _|done].
Qed.

Lemma rows_apart S : Forall seg_ok S → ([∗ list] x ∈ S, seg_row x) ∗ freeds (all_frees S) ∗ bodies (all_useds S) ⊢ [∗ list] x ∈ S, span (x.1 + 16) (x.1 + seg_size x.2).
Proof using Type.
  induction 1 as [|[a bs] S Hx _ IH]; cbn [big_sepL fst snd]; [by iIntros "_"|]. unfold all_frees, all_useds, freeds, bodies. rewrite !fmap_cons !concat_cons !big_sepL_app -segment_apart // -IH.
  iIntros "([$ $] & [$ $] & [$ $])".
Qed.

(** ** The whole heap *)

(** the words that [zend_mm_init] sets *)
Definition lists_memory : hpropI :=
  (∃ v, free_bitmap heap ↦ v) ∗ (∃ v, large_free_bitmap heap ↦ v) ∗ (∃ v, cached heap ↦ v) ∗
  span (cache heap 0) (cache heap 64) ∗ span (free_buckets heap 0) (free_buckets heap 128) ∗ span (large_free_buckets heap 0) (large_free_buckets heap 64) ∗
  (∃ v, rest_buckets heap 0 ↦ v) ∗ (∃ v, rest_buckets heap 1 ↦ v) ∗ (∃ v, rest_count heap ↦ v).

(** and those that [zend_mm_shutdown] sets, or leaves *)
Definition counters_memory (block_size lim : Z) : hpropI :=
  (∃ v, real_size heap ↦ v) ∗ (∃ l, ⌜0 ≤ l ≤ lim⌝ ∗ limit heap ↦ l) ∗ block_size_field heap ↦ block_size ∗
  (∃ v, heap_size heap ↦ v) ∗ (∃ v, peak heap ↦ v) ∗ (∃ v, real_peak heap ↦ v).

(** the segments in a chain from [v], with all that is in them *)
Fixpoint seg_chain (v : Z) (l : list (Z * Z)) : hpropI :=
  match l with
  | [] => ⌜v = 0⌝
  | (a, n) :: l' =>
      ⌜v = a ∧ 0 < a ∧ (8 | a) ∧ a + n ≤ 2 ^ 47 ∧ 64 ≤ n ∧ (8 | n)⌝ ∗ segment_size_field a ↦ n ∗ storage_part a n ∗ span (a + 16) (a + n) ∗
      ∃ v', next_segment a ↦ v' ∗ seg_chain v' l'
  end%I.

Lemma segments_chain slot S : Forall seg_ok S →
  seg_list slot (seg_entry <$> S) ∗ ([∗ list] x ∈ S, span (x.1 + 16) (x.1 + seg_size x.2)) ⊢ ∃ v, slot ↦ v ∗ seg_chain v (seg_entry <$> S).
Proof using Type.
  intros HS. revert slot. induction HS as [|[a bs] S Hx _ IH]; intros slot; cbn [fmap list_fmap seg_list seg_chain big_sepL seg_entry fst snd].
  - iIntros "[H _]". iExists 0. by iFrame.
  - iIntros "((H1 & H2 & H3 & H4) & H5 & H6)". iDestruct (IH with "[$H4 $H6]") as (v) "[H4 H6]". iExists a. iFrame. iPureIntro.
    destruct Hx as [Ha Ha8 Hbs _ Hne Hb]. cbn [fst snd] in *. destruct (total_ok bs Hbs) as [_ Ht8]. split; [done|]. split; [done|]. split; [done|]. split; [done|]. unfold seg_size. split; [|by apply Z.divide_add_r; [|exists 4]].
    destruct bs as [|c bs]; [done|]. apply Forall_cons_1 in Hbs as [[Hc _] Hbs]. destruct (total_ok bs Hbs) as [Ht _]. cbn [total]. lia.
Qed.

Lemma live_apart block_size lim drift L : heap_live heap block_size lim drift L ∗ bodies L ⊢
  ∃ l, ⌜∀ x, x ∈ l → x.2 ≤ largest_limit⌝ ∗ (∃ v, segments_list heap ↦ v ∗ seg_chain v l) ∗ lists_memory ∗ counters_memory block_size lim ∗ storage_inv.
Proof using Type.
  iIntros "[(%S & %Cs & %Hok & (H1 & H2 & H3) & H4 & (H5 & H6 & H7 & H8 & H9 & H10 & H11) & H12) H13]". destruct Hok as [HS Hlen Hu Htot _].
  iDestruct (free_apart with "H3") as "(F1 & F2 & F3 & F4 & F5 & F6 & F7 & H3)". rewrite caches_apart; [|done]. iDestruct "H4" as "[F8 H4]".
  iDestruct (bodies_perm _ (all_useds S) with "[H4 H13]") as "H4"; [symmetry; exact Hu|rewrite bodies_app; iFrame|]. iDestruct (rows_apart with "[$H2 $H3 $H4]") as "H2"; [done|].
  iExists (seg_entry <$> S). iSplit.
  { iPureIntro. clear -Htot HS. induction HS as [|y S Hy HS' IH]; intros x Hx; [by apply not_elem_of_nil in Hx|]. cbn [seg_total] in Htot. pose proof (seg_total_pos S HS').
    pose proof (total_ok _ (seg_chunks _ Hy)) as [? _]. apply elem_of_cons in Hx as [->|Hx]; [cbn [seg_entry snd]; lia|]. apply IH; [unfold seg_size in *; lia|done]. }
  iSplitL "H1 H2"; [by iApply segments_chain; [|iFrame]|]. unfold lists_memory, counters_memory. iFrame.
Qed.

End apart.
