(* ===== verification/MmTake.v ===== *)
(** * Taking a free block, or a new segment, and splitting it

    The last part of [_zend_mm_alloc_int]: the block found leaves the free lists, or a new
    segment is its only block; it becomes used, and the rest of it a free block. *)

From iris.proofmode Require Import proofmode.
From S2P Require Import Prelude WordLogic MmModel MmBits MmRepr MmTrie MmFree MmLayout MmHole MmJoin MmSegments MmRelease.
Local Open Scope Z_scope.

(** ** The segment with a hole that is to be filled *)

Record open_ok (a : Z) (bs1 : list chunk) (s : Z) (bs2 : list chunk) : Prop := OpenOk {
  open_pos : 0 < a;
  open_aligned : (8 | a);
  open_before : Forall chunk_ok bs1;
  open_size : good_size s;
  open_after : Forall chunk_ok bs2;
  open_coalesced : coalesced bs1 ∧ coalesced bs2;
  open_next : first_free bs2 = false;
  open_bound : a + (total bs1 + s + total bs2 + 32) ≤ 2 ^ 47
}.

Lemma open_hole a bs1 s bs2 : open_ok a bs1 s bs2 → hole_ok (first_block a) bs1 s bs2.
Proof. intros [Ha _ H1 Hs H2 _ _ Hb]. unfold first_block. constructor; try done; lia. Qed.

Lemma seg_ok_open a bs1 s bs2 : seg_ok (a, bs1 ++ Free s :: bs2) → open_ok a bs1 s bs2.
Proof.
  intros Hseg. pose proof (seg_ok_hole _ _ _ _ Hseg) as [_ H1 Hs H2 _]. pose proof (seg_ok_coalesced _ _ _ _ Hseg) as Hc. destruct Hseg as [Ha Ha8 _ Hco _ Hb]. cbn [fst snd] in *.
  constructor; try done.
  - apply coalesced_app in Hco as (_ & [Hco _] & _). cbn [is_free] in Hco. destruct (first_free bs2); naive_solver.
  - unfold seg_size in Hb. rewrite total_app in Hb. cbn [total chunk_size] in *. lia.
Qed.

(** the hole filled by a used block, or by a used and a free one *)
Lemma open_filled a bs1 s bs2 : open_ok a bs1 s bs2 → seg_ok (a, bs1 ++ Used s :: bs2).
Proof.
  intros [Ha Ha8 H1 Hs H2 [Hc1 Hc2] Hn Hb]. constructor; cbn [fst snd]; try done.
  - apply Forall_app. split; [done|]. by constructor.
  - apply coalesced_app. split; [done|]. cbn [coalesced first_free is_free]. naive_solver.
  - by destruct bs1.
  - unfold seg_size. rewrite total_app. cbn [total chunk_size]. lia.
Qed.

Lemma open_split a bs1 s r bs2 : open_ok a bs1 (s + r) bs2 → good_size s → good_size r → open_ok a (bs1 ++ [Used s]) r bs2 ∧ seg_ok (a, bs1 ++ Used s :: Free r :: bs2).
Proof.
  intros [Ha Ha8 H1 _ H2 [Hc1 Hc2] Hn Hb] Hs Hr. split; constructor; cbn [fst snd]; try done.
  - apply Forall_app. split; [done|]. by constructor.
  - split; [|done]. apply coalesced_app. split; [done|]. cbn. naive_solver.
  - rewrite total_app. cbn [total chunk_size]. lia.
  - apply Forall_app. split; [done|]. repeat (constructor; [done|]). done.
  - apply coalesced_app. split; [done|]. cbn [coalesced first_free is_free]. rewrite Hn. naive_solver.
  - by destruct bs1.
  - unfold seg_size. rewrite total_app. cbn [total chunk_size]. lia.
Qed.

(** the segments of [S1] and [S2] with a segment [a] whose used blocks are those of [bs1] and
    [bs2], at their places, and one more *)
Definition open_useds (S1 S2 : list segment) (a : Z) (bs1 : list chunk) (s : Z) (bs2 : list chunk) : list (Z * Z) :=
  all_useds S1 ++ useds (first_block a) bs1 ++ useds (first_block a + total bs1 + s) bs2 ++ all_useds S2.

Lemma open_useds_free S1 S2 a bs1 s bs2 : all_useds (S1 ++ (a, bs1 ++ Free s :: bs2) :: S2) = open_useds S1 S2 a bs1 s bs2.
Proof. rewrite all_useds_app. unfold all_useds, open_useds. rewrite fmap_cons concat_cons. unfold seg_useds at 2. cbn [fst snd]. rewrite useds_app. cbn [useds]. by rewrite -app_assoc. Qed.

Lemma open_useds_filled S1 S2 a bs1 s bs2 :
  all_useds (S1 ++ (a, bs1 ++ Used s :: bs2) :: S2) ≡ₚ (first_block a + total bs1, s) :: open_useds S1 S2 a bs1 s bs2.
Proof. rewrite all_useds_app. unfold all_useds, open_useds. rewrite fmap_cons concat_cons. unfold seg_useds at 2. cbn [fst snd]. rewrite useds_app. cbn [useds]. solve_Permutation. Qed.

Lemma open_useds_split S1 S2 a bs1 s r bs2 :
  all_useds (S1 ++ (a, bs1 ++ Used s :: Free r :: bs2) :: S2) ≡ₚ (first_block a + total bs1, s) :: open_useds S1 S2 a bs1 (s + r) bs2.
Proof.
  rewrite all_useds_app. unfold all_useds, open_useds. rewrite fmap_cons concat_cons. unfold seg_useds at 2. cbn [fst snd]. rewrite useds_app. cbn [useds].
  rewrite !Z.add_assoc. solve_Permutation.
Qed.

(** what is left of a block is large enough for another *)
Lemma good_size_rest s ts : good_size s → good_size ts → 32 ≤ s - ts → ∃ r, s = ts + r ∧ good_size r ∧ ts + r - ts = r.
Proof.
  intros [Hs Hs8] [Hts Hts8] Hle. exists (s - ts). split; [lia|]. split; [|lia]. split; [lia|by apply Z.divide_sub_r].
Qed.

Section take.
Context (heap : Z).
Hypothesis heap_pos : 0 < heap.
Context {storage : Storage}.
Local Abbreviation hole := (hole heap).
Local Abbreviation segments := (segments heap).
Local Abbreviation beside := (beside heap).
Local Abbreviation row := (row heap).

(** ** The links of a block *)

Lemma row_size a bs1 bs2 G : row a (bs1 ++ bs2) G ⊢ info_size (a + total bs1) ↦ first_tag bs2 ∗ (info_size (a + total bs1) ↦ first_tag bs2 -∗ row a (bs1 ++ bs2) G).
Proof using Type.
  unfold MmHole.row. rewrite chain_app. iIntros "[[H1 H2] H3]". iDestruct (chain_size with "[$H2 $H3]") as "[$ H2]".
  { intros x Hx. rewrite frees_app !elem_of_app. auto. }
  iIntros "H4". iDestruct ("H2" with "H4") as "[$ $]". done.
Qed.

Lemma row_prev a bs1 bs2 G :
  row a (bs1 ++ bs2) G ⊢ info_prev (a + total bs1) ↦ tag ZEND_MM_GUARD_BLOCK bs1 ∗ (info_prev (a + total bs1) ↦ tag ZEND_MM_GUARD_BLOCK bs1 -∗ row a (bs1 ++ bs2) G).
Proof using Type.
  unfold MmHole.row. rewrite chain_app. iIntros "[[H1 H2] H3]". iDestruct (chain_prev with "H2") as "[$ H2]". iIntros "H4". iSpecialize ("H2" with "H4"). iFrame.
Qed.

(** the block after the first of [bs2] *)
Lemma row_next_prev a bs1 c bs2 G :
  row a (bs1 ++ c :: bs2) G ⊢ info_prev (a + total bs1 + chunk_size c) ↦ chunk_tag c ∗ (info_prev (a + total bs1 + chunk_size c) ↦ chunk_tag c -∗ row a (bs1 ++ c :: bs2) G).
Proof using Type.
  pose proof (row_prev a (bs1 ++ [c]) bs2 G) as H. rewrite total_app tag_app -app_assoc in H. cbn [total tag app] in H.
  by rewrite (_ : a + (total bs1 + (chunk_size c + 0)) = a + total bs1 + chunk_size c) in H; [|lia].
Qed.

Lemma row_next_size a bs1 c bs2 G :
  row a (bs1 ++ c :: bs2) G ⊢ info_size (a + total bs1 + chunk_size c) ↦ first_tag bs2 ∗ (info_size (a + total bs1 + chunk_size c) ↦ first_tag bs2 -∗ row a (bs1 ++ c :: bs2) G).
Proof using Type.
  pose proof (row_size a (bs1 ++ [c]) bs2 G) as H. rewrite total_app -app_assoc in H. cbn [total app] in H.
  by rewrite (_ : a + (total bs1 + (chunk_size c + 0)) = a + total bs1 + chunk_size c) in H; [|lia].
Qed.

Lemma check_linkage_spec a bs1 s bs2 G (Φ : unit → hpropI) Ψ : Forall chunk_ok bs1 →
  row a (bs1 ++ Free s :: bs2) G -∗ (row a (bs1 ++ Free s :: bs2) G -∗ Φ tt) -∗ wp (ZEND_MM_CHECK_BLOCK_LINKAGE (a + total bs1)) Φ Ψ.
Proof using Type.
  iIntros (Hbs) "H HΦ". unfold ZEND_MM_CHECK_BLOCK_LINKAGE, ZEND_MM_FREE_BLOCK_SIZE, ZEND_MM_BLOCK_AT.
  iDestruct (row_size with "H") as "[H1 H]". cbn [first_tag chunk_tag]. wp_load "H1". wp_load "H1". iSpecialize ("H" with "H1").
  iDestruct (row_next_prev with "H") as "[H1 H]". cbn [chunk_size chunk_tag]. wp_load "H1". iSpecialize ("H" with "H1"). rewrite Z.eqb_refl. cbn [negb].
  unfold ZEND_MM_IS_FIRST_BLOCK. wp_bind. iDestruct (row_prev with "H") as "[H1 H]". wp_load "H1". iSpecialize ("H" with "H1"). wp_ret.
  destruct (tag_last bs1 Hbs) as [[-> _]|(bs1' & c & -> & Hc & Ht)]; [wp_ret; by iApply "HΦ"|]. rewrite Ht tag_not_first //. cbn [negb].
  unfold ZEND_MM_PREV_BLOCK. wp_bind. iDestruct (row_prev with "H") as "[H1 H]". wp_load "H1". iSpecialize ("H" with "H1"). wp_ret. rewrite Ht tag_size //. unfold ZEND_MM_BLOCK_AT.
  rewrite (_ : a + total (bs1' ++ [c]) + - chunk_size c = a + total bs1'); [|rewrite total_app; cbn [total]; lia].
  assert (Happ : (bs1' ++ [c]) ++ Free s :: bs2 = bs1' ++ c :: Free s :: bs2) by (by rewrite -app_assoc). rewrite Happ.
  iDestruct (row_size a bs1' (c :: Free s :: bs2) with "H") as "[H1 H]". cbn [first_tag]. wp_load "H1". iSpecialize ("H" with "H1"). rewrite -Happ.
  iDestruct (row_prev a (bs1' ++ [c]) with "H") as "[H1 H]". wp_load "H1". iSpecialize ("H" with "H1"). rewrite Ht Z.eqb_refl. cbn [negb]. wp_ret. by iApply "HΦ".
Qed.

(** a free block off the free lists, still marked as free *)
Lemma take_free_spec a bs1 s bs2 G (Φ : unit → hpropI) Ψ :
  row a (bs1 ++ Free s :: bs2) G -∗ (marked heap a bs1 s bs2 G -∗ Φ tt) -∗ wp (zend_mm_remove_from_free_list heap (a + total bs1)) Φ Ψ.
Proof using heap_pos.
  iIntros "[H1 H2] HΦ". iApply (remove_from_free_list_spec heap heap_pos (hole_free a bs1 s bs2 G) (a + total bs1) s with "[H2]").
  { iApply (free_lists_perm with "H2"). unfold hole_free. rewrite frees_app. cbn [frees]. solve_Permutation. }
  iIntros "H2 H3". iApply "HΦ". rewrite chain_app. unfold chain at 1. cbn [headers is_free total tag chunk_tag chunk_size]. rewrite !Z.add_assoc.
  iDestruct "H1" as "(H1 & (H5 & _ & H6) & H7)". unfold marked, chain. iFrame.
Qed.

Lemma take_block_spec S1 a bs1 s bs2 S2 (Φ : Z → hpropI) Ψ : let S := S1 ++ (a, bs1 ++ Free s :: bs2) :: S2 in Forall seg_ok S →
  segments S -∗
  (⌜open_ok a bs1 s bs2⌝ -∗ beside S1 a (total bs1 + s + total bs2 + 32) S2 -∗ hole (first_block a) bs1 s bs2 (all_frees (S1 ++ S2)) -∗ Φ s) -∗
  wp (take_block heap (first_block a + total bs1)) Φ Ψ.
Proof using heap_pos.
  iIntros (S HS) "H HΦ". apply Forall_app in HS as [_ [Hseg _]%Forall_cons_1]. pose proof (seg_ok_open _ _ _ _ Hseg) as Hopen.
  unfold S. rewrite segments_open. iDestruct "H" as "[H1 H2]". unfold take_block. wp_bind. iApply (check_linkage_spec with "H2"); [apply Hopen|]. iIntros "H2".
  wp_bind. iApply (take_free_spec with "H2"). iIntros "H2". iDestruct (marked_size with "H2") as "[H3 H2]". unfold ZEND_MM_FREE_BLOCK_SIZE. wp_load "H3". iSpecialize ("H2" with "H3").
  iApply ("HΦ" with "[//] [H1] [H2]"); [|by iApply marked_is_hole]. unfold seg_size. rewrite total_app. cbn [total chunk_size]. by rewrite Z.add_assoc.
Qed.

(** ** Filling the hole *)

(** [S] has the used block [b] of [s] bytes, besides [U] *)
Record filled (b s : Z) (U : list (Z * Z)) (n : Z) (S : list segment) : Prop := Filled {
  filled_ok : Forall seg_ok S;
  filled_useds : all_useds S ≡ₚ (b, s) :: U;
  filled_total : seg_total S = n
}.

Section fill.
Context (S1 S2 : list segment) (a : Z) (bs1 bs2 : list chunk).
Hypothesis HS1 : Forall seg_ok S1.
Hypothesis HS2 : Forall seg_ok S2.
Local Abbreviation b := (first_block a + total bs1).
Local Abbreviation G := (all_frees (S1 ++ S2)).
Local Abbreviation around s := (beside S1 a (total bs1 + s + total bs2 + 32) S2).
Local Abbreviation total_with s := (seg_total (S1 ++ S2) + (total bs1 + s + total bs2 + 32)).

Lemma filled_full s : open_ok a bs1 s bs2 → filled b s (open_useds S1 S2 a bs1 s bs2) (total_with s) (S1 ++ (a, bs1 ++ Used s :: bs2) :: S2).
Proof using HS1 HS2.
  intros Hopen. constructor.
  - apply Forall_app. split; [done|]. constructor; [by apply open_filled|done].
  - apply open_useds_filled.
  - rewrite !seg_total_app. cbn [seg_total snd]. unfold seg_size. rewrite total_app. cbn [total chunk_size]. lia.
Qed.

Lemma filled_split s r : open_ok a bs1 (s + r) bs2 → good_size s → good_size r →
  filled b s (open_useds S1 S2 a bs1 (s + r) bs2) (total_with (s + r)) (S1 ++ (a, bs1 ++ Used s :: Free r :: bs2) :: S2).
Proof using HS1 HS2.
  intros Hopen Hs Hr. destruct (open_split _ _ _ _ _ Hopen Hs Hr) as [_ Hseg]. constructor.
  - apply Forall_app. split; [done|]. by constructor.
  - apply open_useds_split.
  - rewrite !seg_total_app. cbn [seg_total snd]. unfold seg_size. rewrite total_app. cbn [total chunk_size]. lia.
Qed.

Lemma fill_segments_spec s (Φ : unit → hpropI) Ψ : open_ok a bs1 s bs2 →
  around s -∗ gap heap (first_block a) bs1 s bs2 G -∗ (segments (S1 ++ (a, bs1 ++ Used s :: bs2) :: S2) -∗ Φ tt) -∗
  wp (ZEND_MM_BLOCK b ZEND_MM_USED_BLOCK s) Φ Ψ.
Proof using Type.
  iIntros (Hopen) "H1 H2 HΦ". iApply (gap_fill_spec with "H2"); [by apply open_hole|]. iIntros "H2". iApply "HΦ". rewrite segments_open.
  unfold seg_size. rewrite total_app. cbn [total chunk_size]. rewrite Z.add_assoc. iFrame.
Qed.

(** the first part used, the second marked as free *)
Lemma split_marked_spec {A} s r (m : W A) (Φ : A → hpropI) Ψ : open_ok a bs1 (s + r) bs2 → good_size s → good_size r →
  gap heap (first_block a) bs1 (s + r) bs2 G -∗ span (b + s) (b + (s + r)) -∗ (marked heap (first_block a) (bs1 ++ [Used s]) r bs2 G -∗ wp m Φ Ψ) -∗
  wp (ZEND_MM_BLOCK b ZEND_MM_USED_BLOCK s ;;; ZEND_MM_BLOCK (ZEND_MM_BLOCK_AT b s) ZEND_MM_FREE_BLOCK r ;;; m)%eff Φ Ψ.
Proof using Type.
  iIntros (Hopen Hs Hr) "H1 H2 HΦ". destruct (open_split _ _ _ _ _ Hopen Hs Hr) as [Hopen' _]. wp_bind. iApply (gap_split_spec with "H1 H2"); [done..|]. iIntros "H1".
  unfold ZEND_MM_BLOCK_AT. rewrite (_ : b + s = first_block a + total (bs1 ++ [Used s])); [|rewrite total_app; cbn [total chunk_size]; lia].
  wp_bind. iApply (mark_free_spec with "H1"); [by apply open_hole|done].
Qed.

(** which goes to the free lists, or to the rests *)
Lemma put_marked_spec (rest : bool) s r (Φ : unit → hpropI) Ψ : open_ok a bs1 (s + r) bs2 → good_size s → good_size r →
  around (s + r) -∗ marked heap (first_block a) (bs1 ++ [Used s]) r bs2 G -∗ (segments (S1 ++ (a, bs1 ++ Used s :: Free r :: bs2) :: S2) -∗ Φ tt) -∗
  wp (if rest then zend_mm_add_to_rest_list heap (ZEND_MM_BLOCK_AT b s) else zend_mm_add_to_free_list heap (ZEND_MM_BLOCK_AT b s)) Φ Ψ.
Proof using heap_pos.
  iIntros (Hopen Hs Hr) "H1 H2 HΦ". destruct (open_split _ _ _ _ _ Hopen Hs Hr) as [Hopen' _]. unfold ZEND_MM_BLOCK_AT.
  rewrite (_ : b + s = first_block a + total (bs1 ++ [Used s])); [|rewrite total_app; cbn [total chunk_size]; lia].
  iAssert (row (first_block a) ((bs1 ++ [Used s]) ++ Free r :: bs2) G -∗ Φ tt)%I with "[H1 HΦ]" as "HΦ".
  { iIntros "H2". iApply "HΦ". rewrite segments_open. unfold seg_size. rewrite !total_app -app_assoc. cbn [total chunk_size app]. rewrite !Z.add_assoc. iFrame. }
  pose proof (open_hole _ _ _ _ Hopen'). destruct rest; [by iApply (rest_marked_spec with "H2")|by iApply (add_marked_spec with "H2")].
Qed.

Lemma split_block_spec s ts n (keep_rest : bool) (Φ : Z → hpropI) Ψ : open_ok a bs1 s bs2 → good_size ts → ts ≤ s →
  around s -∗ hole (first_block a) bs1 s bs2 G -∗ heap_size heap ↦ n -∗ (∃ v, peak heap ↦ v) -∗
  (∀ S ts', ⌜filled b ts' (open_useds S1 S2 a bs1 s bs2) (total_with s) S ∧ ts ≤ ts'⌝ -∗
    segments S -∗ span (b + 16) (b + ts') -∗ heap_size heap ↦ u64 (n + ts') -∗ (∃ v, peak heap ↦ v) -∗ Φ (b + 16)) -∗
  wp (split_block heap b s ts keep_rest) Φ Ψ.
Proof using heap_pos HS1 HS2.
  iIntros (Hopen Hts Hle) "H1 H2 H3 [%v2 H4] HΦ". unfold split_block. pose proof (open_size _ _ _ _ Hopen) as Hs.
  rewrite u64_small; [|destruct Hs, Hts; lia]. change ZEND_MM_ALIGNED_MIN_HEADER_SIZE with 32. rewrite hole_gap. iDestruct "H2" as "[H2 H5]".
  iApply wp_bind_intro. iApply (wp_wand _ (λ ts', ∃ S, ⌜filled b ts' (open_useds S1 S2 a bs1 s bs2) (total_with s) S ∧ ts ≤ ts'⌝ ∗ segments S ∗ span (b + 16) (b + ts'))%I _ Ψ with "[H1 H2 H5]").
  - destruct (Z.ltb_spec (s - ts) 32).
    + wp_bind. iApply (fill_segments_spec with "H1 H2"); [done|]. iIntros "H1". wp_ret. iExists _. iFrame. iPureIntro. split; [by apply filled_full|done].
    + destruct (good_size_rest s ts) as (r & -> & Hr & Hrest); [done..|]. rewrite Hrest.
      rewrite (span_split (b + 16) (b + ts)); [|destruct Hts, Hr; lia|destruct Hts as [_ [q ->]]; exists (q - 2); lia|destruct Hr as [_ [q ->]]; exists q; lia]. iDestruct "H5" as "[H5 H6]".
      iApply (split_marked_spec with "H2 H6"); [done..|]. iIntros "H2". wp_bind. rewrite if_negb. iApply (put_marked_spec with "H1 H2"); [done..|]. iIntros "H1". wp_ret.
      iExists _. iFrame. iPureIntro. split; [by apply filled_split|done].
  - iSplit; [|by iIntros "$"]. iIntros (ts') "(%S & [%Hf %Hle'] & H1 & H2)". wp_load "H3". wp_store "H3". wp_load "H4". wp_load "H3".
    iApply wp_bind_intro. iApply (wp_wand _ (λ _, heap_size heap ↦ u64 (n + ts') ∗ ∃ v, peak heap ↦ v)%I _ Ψ with "[H3 H4]").
    { destruct (_ <? _); [wp_store "H4"; iFrame|wp_ret; iFrame]. }
    iSplit; [|by iIntros "$"]. iIntros ([]) "[H3 H4]". wp_ret. iApply ("HΦ" with "[//] H1 H2 H3 H4").
Qed.

End fill.

End take.
