(* ===== verification/MmAlloc.v ===== *)
(** * Allocating

    [_zend_mm_alloc_int]: the searches, a new segment, and the error when there is no memory.
    [mm L] owns the whole heap, with the reserve for the error. *)

From iris.proofmode Require Import proofmode.
From S2P Require Import Prelude WordLogic MmModel MmBits MmRepr MmTrie MmFree MmSearch MmLayout MmHole MmJoin MmSegments MmRelease MmHeap MmTake.
Local Open Scope Z_scope.

(** ** The size of a new segment *)

Lemma round_down x k : 0 ≤ k → Z.land x (Z.lnot (2 ^ k - 1)) = x / 2 ^ k * 2 ^ k.
Proof. intros Hk. rewrite (_ : 2 ^ k - 1 = Z.ones k); [|rewrite Z.ones_equiv; lia]. rewrite -Z.ldiff_land Z.ldiff_ones_r // Z.shiftr_div_pow2 // Z.shiftl_mul_pow2 //. Qed.

Lemma u64_wrap z : 2 ^ 64 ≤ z < 2 ^ 65 → u64 z = z - 2 ^ 64.
Proof. intros Hz. unfold u64. symmetry. apply (Z.mod_unique _ _ 1); lia. Qed.

(** too large for the arithmetic, or large enough for the block and multiple of a word *)
Lemma new_segment_size_spec k ts : 5 ≤ k ≤ 62 → good_size ts →
  let ss := (new_segment_size (2 ^ k) ts).1 in ss < ts ∨ ts + 32 ≤ ss < 2 ^ 64 ∧ (8 | ss).
Proof.
  intros Hk [Hs Hd]. assert (H5 : 2 ^ 5 ≤ 2 ^ k) by (apply Z.pow_le_mono_r; lia). assert (H62 : 2 ^ k ≤ 2 ^ 62) by (apply Z.pow_le_mono_r; lia).
  assert (H8 : (8 | 2 ^ k)). { exists (2 ^ (k - 3)). change 8 with (2 ^ 3). rewrite -Z.pow_add_r; [f_equal; lia|lia..]. }
  unfold new_segment_size. change ZEND_MM_ALIGNED_SEGMENT_SIZE with 16. change ZEND_MM_ALIGNED_HEADER_SIZE with 16. rewrite (u64_small (2 ^ k - (16 + 16))); [|lia].
  destruct (Z.gtb_spec ts (2 ^ k - (16 + 16))) as [Hgt|Hle]; cbn [fst]; [|right; split; [lia|done]]. rewrite round_down; [|lia].
  pose proof (Z.mul_div_le (u64 (u64 (ts + 16 + 16) + (2 ^ k - 1))) (2 ^ k) ltac:(lia)) as Hle. rewrite Z.mul_comm in Hle.
  pose proof (Z.mul_succ_div_gt (u64 (u64 (ts + 16 + 16) + (2 ^ k - 1))) (2 ^ k) ltac:(lia)) as Hgt'.
  destruct (Z.lt_ge_cases (ts + 16 + 16) (2 ^ 64)) as [Hlt|Hge].
  - rewrite (u64_small (ts + 16 + 16)) in Hle, Hgt' |- *; [|lia..]. destruct (Z.lt_ge_cases (ts + 16 + 16 + (2 ^ k - 1)) (2 ^ 64)) as [Hlt'|Hge'].
    + rewrite u64_small in Hle, Hgt' |- *; [|lia..]. right. split; [lia|]. by apply Z.divide_mul_r.
    + rewrite u64_wrap in Hle, Hgt' |- *; [|lia..]. left. lia.
  - rewrite (u64_wrap (ts + 16 + 16)) in Hle, Hgt' |- *; [|lia..]. rewrite u64_small in Hle, Hgt' |- *; [|lia..]. left. lia.
Qed.

Section alloc.
Context (heap lim k : Z).
Hypothesis heap_pos : 0 < heap.
Hypothesis block_size_ok : 5 ≤ k ≤ 62.
Hypothesis lim_ok : 0 ≤ lim ≤ largest_limit.
Context {storage : Storage}.
Variable zend_error : W unit.

Local Abbreviation block_size := (2 ^ k).
Local Abbreviation free_lists := (free_lists heap).
Local Abbreviation hole := (hole heap).
Local Abbreviation segments := (segments heap).
Local Abbreviation beside := (beside heap).
Local Abbreviation caches := (caches heap).
Local Abbreviation counters := (counters heap block_size lim).
Local Abbreviation heap_at := (heap_at heap block_size lim).
Local Abbreviation heap_live := (heap_live heap block_size lim).
Local Abbreviation safe_error := (zend_mm_safe_error heap storage_free zend_error).

(** what an allocation may do instead of returning *)
Local Abbreviation failing L Ψ := (∀ drift (Φ : unit → hpropI), heap_live drift L -∗ wp safe_error Φ Ψ)%I.

(** ** Searching *)

Lemma free_lists_pos F b s : (b, s) ∈ F → free_lists F ⊢ ⌜0 < b ∧ good_size s⌝.
Proof using Type. iIntros (Hin) "H". by iDestruct (free_lists_lookup with "H") as "[% _]". Qed.

(** [zend_mm_search_large_block], then the rests when a new segment is not allowed *)
Lemma search_large_spec F ts r l (Φ : Z → hpropI) Ψ : good_size ts →
  free_lists F -∗ real_size heap ↦ r -∗ limit heap ↦ l -∗ block_size_field heap ↦ block_size -∗
  (∀ q, ⌜q = 0 ∨ 0 < q ∧ ∃ s, (q, s) ∈ F ∧ ts ≤ s⌝ -∗ free_lists F -∗ real_size heap ↦ r -∗ limit heap ↦ l -∗ block_size_field heap ↦ block_size -∗ Φ q) -∗
  wp (search_large heap ts) Φ Ψ.
Proof using Type.
  iIntros (Hts) "(%f & [%Hok %Hel] & Hf) H1 H2 H3 HΦ". unfold search_large. wp_bind. iApply (search_large_block_state with "Hf"); [done..|].
  iIntros (q Hq) "Hf". assert (Hin : ∀ s, (q, s) ∈ free_elements f → (q, s) ∈ F ∧ 0 < q) by (intros s Hs; split; [by rewrite Hel|by destruct (ok_blocks f Hok _ _ Hs)]).
  destruct Hq as [[-> _]|(s & Hs & Hle & _)].
  - cbn [Z.eqb]. wp_load "H1". wp_load "H2". wp_load "H3". destruct (r >=? u64 (l - block_size)).
    + iDestruct "Hf" as "(F1 & F2 & F3 & F4 & F5 & [Hring Hbodies])". iDestruct (ring_ends with "Hring") as "(Hp & Hn & Hring)". rewrite rests_prev. wp_load "Hp".
      iSpecialize ("Hring" with "Hp Hn"). iAssert (free_words heap f) with "[$F1 $F2 $F3 $F4 $F5 $Hring $Hbodies]" as "Hf".
      wp_bind. iApply (rests_fuel with "Hf"). iIntros (n Hn) "Hf".
      iApply (search_rests_spec heap f n (f_rests f) [] with "Hf"); [done|by rewrite app_nil_r|done| |].
      { left. split; [done|]. split; [done|]. intros b s Hb. by apply not_elem_of_nil in Hb. }
      iIntros (q Hq) "Hf". iApply ("HΦ" with "[%] [Hf] H1 H2 H3"); [|iExists f; by iFrame]. destruct Hq as [[-> _]|(s & Hs & Hle & _)]; [by left|right].
      assert (Hs' : (q, s) ∈ free_elements f) by (unfold free_elements; rewrite !elem_of_app; right; by right). split; [by destruct (ok_blocks f Hok _ _ Hs')|]. exists s. by rewrite Hel.
    + wp_ret. iApply ("HΦ" with "[%] [Hf] H1 H2 H3"); [by left|iExists f; by iFrame].
  - assert (Hs' : (q, s) ∈ free_elements f) by (unfold free_elements; rewrite !elem_of_app; right; left; exact Hs). destruct (Hin s Hs') as [HinF Hpos].
    destruct (Z.eqb_spec q 0); [lia|]. wp_ret. iApply ("HΦ" with "[%] [Hf] H1 H2 H3"); [|iExists f; by iFrame]. right. split; [done|]. by exists s.
Qed.

(** the cache, and the buckets of small blocks *)
Lemma search_small_spec drift L n ts (Φ : search → hpropI) Ψ : good_size ts → n ≤ ts → ts < ZEND_MM_MAX_SMALL_SIZE →
  heap_live drift L -∗
  (∀ r, match r with
        | Returned p => ⌜0 < p - 16 ∧ (8 | p)⌝ ∗ heap_live drift ((p - 16, ts) :: L) ∗ span p (p - 16 + ts)
        | Found q => ∃ S Cs s, ⌜(q, s) ∈ all_frees S ∧ ts ≤ s⌝ ∗ heap_at drift S Cs L
        | NotFound => heap_live drift L
        end -∗ Φ r) -∗
  wp (search_small heap storage_free zend_error n ts) Φ Ψ.
Proof using Type.
  iIntros (Hts Hn Hlt) "(%S & %Cs & %Hok & H1 & H2 & (H3 & H4 & H5) & H6) HΦ". change ZEND_MM_MAX_SMALL_SIZE with 544 in Hlt. destruct (small_index ts Hts Hlt) as (i & Hi & Hi64 & Hsi).
  unfold search_small. destruct (Z.ltb_spec ts n); [lia|]. rewrite Hi. destruct (lookup_lt_is_Some_2 Cs i) as [l Hl]; [by rewrite (heap_caches _ _ _ Hok)|].
  iDestruct (cache_focus with "H2") as "[[H7 H8] H2]"; [done|]. wp_load "H7". destruct l as [|q l]; cbn [hd Z.eqb negb].
  - iSpecialize ("H2" $! [] with "[$H7 $H8]"). rewrite list_insert_id //. iDestruct "H1" as "(H7 & H8 & (%f & [%Hfok %Hel] & Hf))".
    iDestruct "Hf" as "[F1 F2]". wp_load "F1". iAssert (free_words heap f) with "[$F1 $F2]" as "Hf".
    destruct (Z.eqb_spec (Z.shiftr (f_bitmap f) (Z.of_nat i)) 0) as [Hz|Hnz]; cbn [negb].
    + wp_ret. iApply "HΦ". iExists S, Cs. iFrame. by iSplit.
    + wp_bind. iApply (search_bitmap_state with "Hf"); [done..|]. iIntros (q s [Hin Hle]) "Hf". wp_ret. iApply "HΦ". iExists S, Cs, s. iFrame. iSplit; [iPureIntro; split; [by rewrite Hel|lia]|]. by iSplit.
  - destruct (heap_ok_pop S Cs L i q l Hl Hok) as [Hok' Hsz]. rewrite Hsi in Hok' Hsz. pose proof (heap_useds _ _ _ Hok') as Hu. pose proof (heap_cached _ _ _ Hok) as Hc. pose proof (sizes_cached (<[i:=l]> Cs)) as Hnn.
    destruct (used_ok S q ts (heap_segments _ _ _ Hok')) as (Hpos & Hal & _); [rewrite Hu; apply list_elem_of_here|]. destruct (Z.eqb_spec q 0); [lia|]. cbn [negb cache_list]. iDestruct "H8" as "(H8 & H9 & H10)".
    wp_load "H8". wp_store "H7". wp_load "H4". wp_store "H4". wp_ret. change (ZEND_MM_DATA_OF q) with (q + 16). iApply "HΦ". rewrite (_ : q + 16 - 16 = q); [|lia].
    iSplit; [iPureIntro; split; [done|apply Z.divide_add_r; [done|by exists 2]]|]. rewrite -cached_span // -Hsi. iFrame "H9". iSplitR "H8"; [|by iExists _].
    rewrite Hsi. change (ZEND_MM_CACHE_SIZE + ZEND_MM_MAX_SMALL_SIZE) with 262688 in Hc. destruct Hts as [Hts _]. rewrite u32_small; [|lia]. rewrite -Hsz.
    iExists S, (<[i := l]> Cs). unfold MmHeap.heap_at, MmHeap.counters. iFrame. iSplit; [done|]. iApply "H2". unfold MmHeap.cache_at. rewrite Hsi. iFrame.
Qed.

(** ** A new segment *)

(** the counters while the segment is not yet in the list *)
Definition seg_counters (drift r : Z) (S : list segment) (Cs : list (list Z)) : hpropI :=
  real_size heap ↦ r ∗ cached heap ↦ sizes (cached_blocks Cs) ∗ (∃ l, ⌜0 ≤ l ≤ lim⌝ ∗ limit heap ↦ l) ∗ block_size_field heap ↦ block_size ∗
  heap_size heap ↦ u64 (drift + sizes (all_useds S)) ∗ (∃ v, peak heap ↦ v) ∗ (∃ v, real_peak heap ↦ v).

(** the cache is emptied before the error *)
Lemma no_memory_spec {A} (m : W A) drift S Cs L (Φ : A → hpropI) Ψ : heap_ok S Cs L →
  segments S -∗ caches Cs -∗ counters drift S Cs -∗ storage_inv -∗ (∀ drift', heap_live drift' L -∗ wp m Φ Ψ) -∗
  wp (zend_mm_free_cache heap storage_free ;;; m)%eff Φ Ψ.
Proof using heap_pos lim_ok.
  iIntros (Hok) "H1 H2 H3 H4 Hm". wp_bind. iApply (free_cache_spec with "H1 H2 H3 H4"); [done|done|]. iIntros (drift' S') "H". iApply "Hm". by iExists S', _.
Qed.

(** the memory of a segment, after the words of its header, as one hole *)
Lemma rest_hole a s G : 32 ≤ s → (8 | s) →
  span (a + 16) (a + (s + 32)) -∗ free_lists G -∗
  (∃ v, info_prev (a + 16) ↦ v) ∗ (∃ v, info_size (a + 16 + s) ↦ v) ∗
  (info_prev (a + 16) ↦ ZEND_MM_GUARD_BLOCK -∗ info_size (a + 16 + s) ↦ 19 -∗ hole (first_block a) [] s [] G).
Proof using Type.
  iIntros (Hs [q Hq]) "H HF". rewrite (_ : a + (s + 32) = a + 16 + s + 16); [|lia]. rewrite (span_split (a + 16) (a + 16 + s)); [|lia|exists q; lia|exists 2; lia].
  iDestruct "H" as "[H1 H2]". rewrite -(block_span (a + 16 + s)); [|lia|by exists 2]. iDestruct "H2" as "($ & [%w H3] & _)".
  rewrite -(block_span (a + 16)); [|lia|by exists q]. iDestruct "H1" as "(H4 & $ & H5)".
  iIntros "H6 H7". unfold MmLayout.hole, hole_free, first_block. cbn [headers total tag frees app]. rewrite !Z.add_0_r. iFrame "H4 H5 H6 HF".
  iExists w. unfold chain, guard. cbn [headers total tag]. rewrite Z.add_0_r. iFrame.
Qed.

(** the memory of the storage as a segment of one hole *)
Lemma segment_hole a s G : 32 ≤ s → (8 | s) →
  span a (a + (s + 32)) -∗ free_lists G -∗
  (∃ v, segment_size_field a ↦ v) ∗ (∃ v, next_segment a ↦ v) ∗ (∃ v, info_prev (a + 16) ↦ v) ∗ (∃ v, info_size (a + 16 + s) ↦ v) ∗
  (info_prev (a + 16) ↦ ZEND_MM_GUARD_BLOCK -∗ info_size (a + 16 + s) ↦ 19 -∗ hole (first_block a) [] s [] G).
Proof using Type.
  iIntros (Hs Hs8) "H HF". destruct Hs8 as [q Hq]. rewrite (span_cons a); [|lia|exists (q + 4); lia]. rewrite (span_cons (a + 8)); [|lia|exists (q + 3); lia]. rewrite (_ : a + 8 + 8 = a + 16); [|lia].
  iDestruct "H" as "($ & $ & H)". by iApply (rest_hole with "H HF"); [|exists q].
Qed.

Lemma new_segment_spec drift S Cs L ts (Φ : option (Z * Z * bool) → hpropI) Ψ : heap_ok S Cs L → good_size ts →
  segments S -∗ caches Cs -∗ counters drift S Cs -∗ storage_inv -∗
  ((∀ a s keep, ⌜open_ok a [] s [] ∧ ts ≤ s ∧ seg_total S + (s + 32) ≤ largest_limit⌝ -∗
     beside [] a (s + 32) S -∗ hole (first_block a) [] s [] (all_frees S) -∗ caches Cs -∗ seg_counters drift (seg_total S + (s + 32)) S Cs -∗ storage_inv -∗
     Φ (Some (first_block a, s, keep))) ∧ failing L Ψ) -∗
  wp (new_segment heap storage_alloc storage_free zend_error ts) Φ Ψ.
Proof using heap_pos block_size_ok lim_ok.
  iIntros (Hok Hts) "H1 H2 (H3 & H4 & (%l & %Hl & H5) & H6 & H7 & H8 & [%rp H9]) H10 HΦ". unfold new_segment. wp_load "H6".
  pose proof (new_segment_size_spec k ts block_size_ok Hts) as Hsize. destruct (new_segment_size block_size ts) as [ss keep]. cbn [fst] in Hsize.
  wp_load "H3". wp_load "H5". pose proof (seg_total_pos _ (heap_segments _ _ _ Hok)) as Hnn. pose proof (heap_total _ _ _ Hok) as Htot. pose proof Hts as [Hts0 _].
  destruct ((ss <? ts) || (u64 (seg_total S + ss) >? l)) eqn:Hfail.
  { iDestruct "HΦ" as "[_ HE]". wp_bind. iApply (no_memory_spec with "H1 H2 [$H3 $H4 H5 $H6 $H7 $H8 H9] H10 [HE]"); [done|iSplitL "H5"; by iExists _; iFrame|iIntros (drift') "H"; iApply ("HE" with "H")]. }
  apply orb_false_iff in Hfail as [Hss Hlim]. destruct Hsize as [|(Hge & Hss8)]; [lia|].
  wp_bind. wp_ret. wp_bind. iApply (storage_alloc_spec with "H10"); [lia|done|].
  iIntros (a) "H10 H11". iDestruct "H11" as "[->|(%Ha & H11 & Hp)]"; cbn [Z.eqb].
  { iDestruct "HΦ" as "[_ HE]". iApply (no_memory_spec with "H1 H2 [$H3 $H4 H5 $H6 $H7 $H8 H9] H10 [HE]"); [done|iSplitL "H5"; by iExists _; iFrame|]. iIntros (drift') "H". wp_bind. iApply ("HE" with "H"). }
  destruct Ha as (Ha & Ha8 & Hab). destruct (Z.eqb_spec a 0); [lia|]. rewrite u64_small in Hlim; [|lia]. wp_load "H3". wp_store "H3". wp_load "H3". rewrite (u64_small (seg_total S + ss)); [|lia]. wp_load "H9".
  iApply wp_bind_intro. iApply (wp_wand _ (λ _, ∃ v, real_peak heap ↦ v)%I _ Ψ with "[H9]").
  { destruct (seg_total S + ss >? rp).
    - wp_store "H9". by iExists _.
    - wp_ret. by iExists _. }
  iSplit; [|iIntros "H"; iExact "H"]. iIntros ([]) "H9". assert (Hs : ∃ s, ss = s + 32 ∧ 32 ≤ s ∧ (8 | s)).
  { exists (ss - 32). split; [lia|]. split; [lia|]. apply Z.divide_sub_r; [done|by exists 4]. }
  destruct Hs as (s & -> & Hs & Hs8). iDestruct "H1" as "(H12 & H13 & H14)". iDestruct (segment_hole with "H11 H14") as "([% H15] & [% H16] & [% H17] & [% H18] & H11)"; [done..|].
  wp_store "H15". iDestruct (seg_list_top with "H12") as (hd) "[H19 H12]". wp_load "H19". wp_store "H16". wp_store "H19". change ZEND_MM_ALIGNED_SEGMENT_SIZE with 16. change ZEND_MM_ALIGNED_HEADER_SIZE with 16.
  unfold ZEND_MM_MARK_FIRST_BLOCK. wp_store "H17". unfold ZEND_MM_LAST_BLOCK, ZEND_MM_BLOCK_AT. rewrite (_ : s + 32 - 16 - 16 = s); [|lia]. change (Z.lor ZEND_MM_GUARD_BLOCK ZEND_MM_ALIGNED_HEADER_SIZE) with 19. wp_store "H18". wp_ret.
  iDestruct ("H11" with "H17 H18") as "H11". iDestruct "HΦ" as "[HΦ _]". iApply ("HΦ" $! a s keep with "[%] [Hp H12 H13 H15 H16 H19] H11 H2 [$H3 $H4 H5 $H6 $H7 $H8 $H9] H10"); [|..|by iExists _; iFrame].
  - split; [|lia]. constructor; try done; [split; [lia|done]|cbn [total]; lia].
  - unfold MmSegments.beside. cbn [app fmap list_fmap seg_list]. iFrame. by iApply "H12".
Qed.

(** ** The block found *)

(** a block that [_zend_mm_alloc_int] may give *)
Definition given (n p s : Z) : Prop := 0 < p ∧ (8 | p) ∧ good_size s ∧ ZEND_MM_TRUE_SIZE n ≤ s ∧ n + ZEND_MM_ALIGNED_HEADER_SIZE ≤ s.

(** from the split of a block of the segments *)
Lemma split_heap S0 Cs L U b ts' m S : heap_ok S0 Cs L → U ≡ₚ all_useds S0 → m ≤ largest_limit → filled b ts' U m S → heap_ok S Cs ((b, ts') :: L).
Proof using Type.
  intros [_ Hlen Hu _ Hc] HU Hm [HS HuS Htot]. constructor; try done; [|lia]. by rewrite HuS HU Hu.
Qed.

Lemma split_counted drift S0 U b ts' m S : U ≡ₚ all_useds S0 → filled b ts' U m S → u64 (u64 (drift + sizes (all_useds S0)) + ts') = u64 (drift + sizes (all_useds S)).
Proof using Type. intros HU [_ HuS _]. by rewrite HuS HU counted_more. Qed.

Lemma filled_given b ts' U m S n ts : Forall seg_ok S → filled b ts' U m S → ts = ZEND_MM_TRUE_SIZE n → n + 16 ≤ ts → ts ≤ ts' → given n (b + 16) ts'.
Proof using Type.
  intros HS [_ HuS _] -> Hn Hle. destruct (used_ok S b ts' HS) as (Hb & Hb8 & Hs); [rewrite HuS; apply list_elem_of_here|].
  split; [lia|]. split; [apply Z.divide_add_r; [done|by exists 2]|]. split; [done|]. split; [done|]. change ZEND_MM_ALIGNED_HEADER_SIZE with 16. lia.
Qed.

(** a block of the free lists *)
Lemma alloc_found_spec drift S Cs L n ts q s (Φ : Z → hpropI) Ψ : good_size ts → ts = ZEND_MM_TRUE_SIZE n → n + 16 ≤ ts → ts ≤ s → (q, s) ∈ all_frees S →
  heap_at drift S Cs L -∗
  (∀ p s', ⌜given n p s'⌝ -∗ heap_live drift ((p - 16, s') :: L) -∗ span p (p - 16 + s') -∗ Φ p) -∗
  wp (let! bs := take_block heap q in split_block heap q bs ts false)%eff Φ Ψ.
Proof using heap_pos.
  iIntros (Hts Hn0 Hn Hle Hin) "(%Hok & H1 & H2 & (H3 & H4 & H5 & H6 & H7 & H8 & H9) & H10) HΦ". pose proof (heap_segments _ _ _ Hok) as HS. pose proof (heap_total _ _ _ Hok) as Htot.
  destruct (all_frees_split _ _ _ Hin) as (S1 & a & bs1 & bs2 & S2 & -> & ->). wp_bind. iApply (take_block_spec with "H1"); [done..|]. iIntros (Hopen) "H1 H11".
  pose proof HS as HS'. apply Forall_app in HS' as [HS1 [_ HS2]%Forall_cons_1]. iApply (split_block_spec with "H1 H11 H7 H8"); [done..|].
  iIntros (S' ts' [Hf Hle']) "H1 H11 H7 H8". assert (Htot' : seg_total (S1 ++ S2) + (total bs1 + s + total bs2 + 32) = seg_total (S1 ++ (a, bs1 ++ Free s :: bs2) :: S2)).
  { rewrite !seg_total_app. cbn [seg_total snd]. unfold seg_size. rewrite total_app. cbn [total chunk_size]. lia. }
  rewrite Htot' in Hf. pose proof (filled_total _ _ _ _ _ Hf) as HT. iApply ("HΦ" with "[%] [-H11] [H11]"); [by eapply (filled_given _ _ _ _ S'); [apply Hf|..]| |];
    (rewrite (_ : first_block a + total bs1 + 16 - 16 = first_block a + total bs1); [|lia]); [|done].
  iExists S', Cs. iSplit; [iPureIntro; eapply (split_heap _ _ _ (open_useds S1 S2 a bs1 s bs2)); [exact Hok|by rewrite open_useds_free|exact Htot|exact Hf]|]. unfold MmHeap.counters. rewrite HT. iFrame. erewrite split_counted; [done| |exact Hf]. by rewrite open_useds_free.
Qed.

(** a new segment *)
Lemma alloc_segment_spec drift S Cs L n ts (Φ : Z → hpropI) Ψ : heap_ok S Cs L → good_size ts → ts = ZEND_MM_TRUE_SIZE n → n + 16 ≤ ts →
  segments S -∗ caches Cs -∗ counters drift S Cs -∗ storage_inv -∗
  ((∀ p s', ⌜given n p s'⌝ -∗ heap_live drift ((p - 16, s') :: L) -∗ span p (p - 16 + s') -∗ Φ p) ∧ failing L Ψ) -∗
  wp (let! r := new_segment heap storage_alloc storage_free zend_error ts in
      match r with None => ret 0 | Some (best_fit, bs, keep_rest) => split_block heap best_fit bs ts keep_rest end)%eff Φ Ψ.
Proof using heap_pos block_size_ok lim_ok.
  iIntros (Hok Hts Hn0 Hn) "H1 H2 H3 H4 HΦ". wp_bind. iApply (new_segment_spec with "H1 H2 H3 H4"); [done..|]. iSplit; [|iDestruct "HΦ" as "[_ $]"].
  iDestruct "HΦ" as "[HΦ _]". iIntros (a s keep (Hopen & Hle & Htot)) "H1 H11 H2 (H3 & H4 & H5 & H6 & H7 & H8 & H9) H10".
  rewrite (_ : first_block a = first_block a + total []); [|cbn [total]; lia]. rewrite (_ : s + 32 = total [] + s + total [] + 32); [|cbn [total]; lia].
  iApply (split_block_spec heap heap_pos [] S a [] [] with "H1 [H11] H7 H8"); [done|apply Hok|done|done|done|by rewrite Z.add_0_r|].
  iIntros (S' ts' [Hf Hle']) "H1 H11 H7 H8". cbn [app total] in *. rewrite (_ : 0 + s + 0 + 32 = s + 32) in Hf; [|lia]. pose proof (filled_total _ _ _ _ _ Hf) as HT.
  iApply ("HΦ" with "[%] [-H11] [H11]"); [by eapply (filled_given _ _ _ _ S'); [apply Hf|..]| |];
    (rewrite (_ : first_block a + 0 + 16 - 16 = first_block a + 0); [|lia]); [|done].
  iExists S', Cs. iSplit; [iPureIntro; eapply (split_heap _ _ _ (open_useds [] S a [] s [])); [exact Hok|done|exact Htot|exact Hf]|]. unfold MmHeap.counters. rewrite HT (_ : 0 + s + 0 + 32 = s + 32); [|lia]. iFrame. erewrite split_counted; [done| |exact Hf]. done.
Qed.

(** ** The whole heap *)

(** the reserve, a block that the error for lack of memory gives back *)
Definition mm_at (drift : Z) (L : list (Z * Z)) : hpropI :=
  ∃ r o, reserve heap ↦ r ∗ overflow heap ↦ o ∗
    ((⌜r = 0⌝ ∗ heap_live drift L) ∨ ∃ s, ⌜0 < r⌝ ∗ heap_live (drift - s) ((r - 16, s) :: L) ∗ span r (r - 16 + s)).
Definition mm (L : list (Z * Z)) : hpropI := ∃ drift, mm_at drift L.
(** the heap with some more blocks in use, and their contents *)
Definition grown (L : list (Z * Z)) : hpropI := ∃ L', mm (L' ++ L) ∗ bodies L'.

Lemma mm_at_perm drift L L' : L ≡ₚ L' → mm_at drift L ⊢ mm_at drift L'.
Proof using Type.
  intros HL. iIntros "(%r & %o & H1 & H2 & H3)". iExists r, o. iFrame. iDestruct "H3" as "[[% H3]|(%s & % & H3 & H4)]"; [iLeft; iSplit; [done|]; by iApply (heap_live_perm with "H3")|].
  iRight. iExists s. iFrame. iSplit; [done|]. iApply (heap_live_perm with "H3"). by rewrite HL.
Qed.

Lemma mm_perm L L' : L ≡ₚ L' → mm L ⊢ mm L'.
Proof using Type. intros HL. iIntros "[%drift H]". iExists drift. by iApply mm_at_perm. Qed.

Lemma mm_free_spec drift L b s (Φ : unit → hpropI) Ψ :
  mm_at drift ((b, s) :: L) -∗ span (b + 16) (b + s) -∗ (mm_at drift L -∗ Φ tt) -∗ wp (_zend_mm_free_int heap storage_free (b + 16)) Φ Ψ.
Proof using heap_pos lim_ok.
  iIntros "(%r & %o & H1 & H2 & H3) Hb HΦ". iDestruct "H3" as "[[% H3]|(%s' & % & H3 & H4)]".
  - iApply (free_int_spec with "H3 Hb"); [done|]. iIntros "H3". iApply "HΦ". iExists r, o. iFrame. iLeft. by iFrame.
  - iApply (free_int_spec heap block_size lim heap_pos (drift - s') ((r - 16, s') :: L) with "[H3] Hb"); [iApply (heap_live_perm with "H3"); by apply Permutation_swap|].
    iIntros "H3". iApply "HΦ". iExists r, o. iFrame. iRight. iExists s'. by iFrame.
Qed.

Lemma wp_try m (Φ : unit → hpropI) Ψ : wp m Φ (Φ tt) ⊢ wp (zend_try_end m) Φ Ψ.
Proof using Type.
  split. intros w H f Hf. specialize (H f Hf). unfold zend_try_end, outcome_ok in *. by destruct (m (w ∪ f)) as [[] w'|w'|].
Qed.

Section error.
(** the handlers of errors may allocate, and do not free what they did not allocate *)
Hypothesis zend_error_spec : ∀ L, mm L ⊢ wp zend_error (λ _, grown L) (grown L).

Lemma safe_error_spec L (Φ : unit → hpropI) : mm L -∗ wp safe_error Φ (grown L).
Proof using heap_pos lim_ok zend_error_spec.
  iIntros "(%drift & %r & %o & H1 & H2 & H3)". unfold zend_mm_safe_error. wp_load "H1".
  iApply wp_bind_intro. iApply (wp_wand _ (λ _, reserve heap ↦ 0 ∗ ∃ drift', heap_live drift' L)%I _ (grown L) with "[H1 H3]").
  { iDestruct "H3" as "[[-> H3]|(%s & % & H3 & H4)]".
    - cbn [Z.eqb negb]. wp_ret. iFrame.
    - destruct (Z.eqb_spec r 0); [lia|]. cbn [negb]. wp_bind. assert (∃ b, r = b + 16) as [b ->] by (exists (r - 16); lia). rewrite (_ : b + 16 - 16 = b); [|lia].
      iApply (free_int_spec with "H3 H4"); [done|]. iIntros "H3". wp_store "H1". iFrame. }
  iSplit; [|by iIntros "$"]. iIntros ([]) "[H1 [%drift' H3]]". wp_load "H2".
  iApply wp_bind_intro. iApply (wp_wand _ (λ _, grown L) _ (grown L) with "[H1 H2 H3]").
  { destruct (o =? 0).
    - wp_store "H2". iApply wp_try. iApply (wp_wand with "[H1 H2 H3]"); [iApply zend_error_spec; iExists drift', 0, 1; iFrame; iLeft; by iFrame|]. iSplit; [|by iIntros "$"]. by iIntros ([]) "$".
    - wp_store "H2". iExists []. iSplitL; [|by unfold bodies]. iExists drift', 0, 2. iFrame. iLeft. by iFrame. }
  iSplit; [|by iIntros "$"]. iIntros ([]) "H". by iApply wp_bailout.
Qed.

(** ** [_zend_mm_alloc_int]

    A block of the size asked for or more, or the error; there is no other outcome. *)

Lemma heap_alloc_spec drift L n (Φ : Z → hpropI) Ψ : 0 ≤ n < 2 ^ 64 →
  heap_live drift L -∗
  ((∀ p s, ⌜given n p s⌝ -∗ heap_live drift ((p - 16, s) :: L) -∗ span p (p - 16 + s) -∗ Φ p) ∧ failing L Ψ) -∗
  wp (_zend_mm_alloc_int heap storage_alloc storage_free zend_error n) Φ Ψ.
Proof using heap_pos block_size_ok lim_ok.
  iIntros (Hn) "H HΦ". unfold _zend_mm_alloc_int. destruct (true_size_spec n Hn) as [[Hge Hts]|[Hlt Hlt']].
  2: { rewrite small_size. destruct (Z.ltb_spec (ZEND_MM_TRUE_SIZE n) 544); [|lia]. iDestruct "HΦ" as "[_ HE]". wp_bind. unfold search_small.
       destruct (Z.ltb_spec (ZEND_MM_TRUE_SIZE n) n); [|lia]. wp_bind. by iApply "HE". }
  remember (ZEND_MM_TRUE_SIZE n) as ts eqn:Ets.
  iApply wp_bind_intro. iApply (wp_wand _ (λ r, match r with
        | Returned p => ⌜0 < p - 16 ∧ (8 | p)⌝ ∗ heap_live drift ((p - 16, ts) :: L) ∗ span p (p - 16 + ts)
        | Found q => ∃ S Cs s, ⌜(q, s) ∈ all_frees S ∧ ts ≤ s⌝ ∗ heap_at drift S Cs L
        | NotFound => heap_live drift L
        end)%I _ False with "[H]").
  { rewrite small_size. destruct (Z.ltb_spec ts 544); [|by wp_ret]. iApply (search_small_spec with "H"); [done|lia|done|]. iIntros (r) "$". }
  iSplit; [|by iIntros "%"]. iIntros (r) "H". destruct r as [p|q|].
  - iDestruct "H" as "(%Hp & H1 & H2)". wp_ret. iDestruct "HΦ" as "[HΦ _]". iApply ("HΦ" with "[%] H1 H2"). destruct Hp. split; [lia|]. split; [done|]. split; [done|]. change ZEND_MM_ALIGNED_HEADER_SIZE with 16. lia.
  - iDestruct "H" as "(%S & %Cs & %s & [%Hin %Hle] & H)". iDestruct "HΦ" as "[HΦ _]". by iApply (alloc_found_spec with "H HΦ").
  - iDestruct "H" as "(%S & %Cs & %Hok & (H1 & H2 & H3) & H4 & (H5 & H6 & (%l & %Hl & H7) & H8 & H9) & H10)".
    wp_bind. iApply (search_large_spec with "H3 H5 H7 H8"); [done|]. iIntros (q Hq) "H3 H5 H7 H8". destruct Hq as [->|(Hq & s & Hin & Hle)].
    + cbn [Z.eqb]. by iApply (alloc_segment_spec with "[$H1 $H2 $H3] H4 [$H5 $H6 $H7 $H8 $H9] H10 HΦ").
    + destruct (Z.eqb_spec q 0); [lia|]. iDestruct "HΦ" as "[HΦ _]". iApply (alloc_found_spec with "[H1 H2 H3 H4 H5 H6 H7 H8 H9 H10] HΦ"); [done..|]. iFrame. done.
Qed.

Lemma mm_alloc_spec drift L n (Φ : Z → hpropI) Ψ : 0 ≤ n < 2 ^ 64 →
  mm_at drift L -∗
  ((∀ p s, ⌜given n p s⌝ -∗ mm_at drift ((p - 16, s) :: L) -∗ span p (p - 16 + s) -∗ Φ p) ∧ (grown L -∗ Ψ)) -∗
  wp (_zend_mm_alloc_int heap storage_alloc storage_free zend_error n) Φ Ψ.
Proof using heap_pos block_size_ok lim_ok zend_error_spec.
  iIntros (Hn) "(%r & %o & H1 & H2 & H3) HΦ".
  assert (Hfail : ∀ Φ' : unit → hpropI, mm L -∗ (grown L -∗ Ψ) -∗ wp safe_error Φ' Ψ).
  { intros Φ'. iIntros "H HΨ". iApply (wp_wand _ Φ' _ (grown L) with "[H]"); [by iApply safe_error_spec|]. iSplit; [by iIntros (a) "$"|done]. }
  iDestruct "H3" as "[[-> H3]|(%s & %Hr & H3 & H4)]".
  - iApply (heap_alloc_spec with "H3"); [done|]. iSplit; [iDestruct "HΦ" as "[HΦ _]"|iDestruct "HΦ" as "[_ HΨ]"].
    + iIntros (p s Hp) "H3 H4". iApply ("HΦ" with "[//] [H1 H2 H3] H4"). iExists 0, o. iFrame. iLeft. by iFrame.
    + iIntros (drift' Φ') "H3". iApply (Hfail with "[H1 H2 H3] HΨ"). iExists drift', 0, o. iFrame. iLeft. by iFrame.
  - iApply (heap_alloc_spec with "H3"); [done|]. iSplit; [iDestruct "HΦ" as "[HΦ _]"|iDestruct "HΦ" as "[_ HΨ]"].
    + iIntros (p s' Hp) "H3 H5". iApply ("HΦ" with "[//] [H1 H2 H3 H4] H5"). iExists r, o. iFrame. iRight. iExists s. iFrame. iSplit; [done|].
      iApply (heap_live_perm with "H3"). apply Permutation_swap.
    + iIntros (drift' Φ') "H3". iApply (Hfail with "[H1 H2 H3 H4] HΨ"). iExists (drift' + s), r, o. iFrame. iRight. iExists s. rewrite Z.add_simpl_r. by iFrame.
Qed.

End error.
End alloc.
