(* ===== verification/MmResize.v ===== *)
(** * Reallocation in place, and through the cache

    The branches of [_zend_mm_realloc_int] that keep the block where it is, smaller or larger,
    and the one that takes a block of the cache. *)

From iris.proofmode Require Import proofmode.
From S2P Require Import Prelude WordLogic MmModel MmBits MmRepr MmTrie MmFree MmSearch MmLayout MmHole MmJoin MmSegments MmRelease MmHeap MmTake MmAlloc MmReallocModel.
Local Open Scope Z_scope.

(** ** Contents *)

Lemma memcpy_spec src dst vs (Φ : unit → hpropI) Ψ :
  words_at src vs -∗ region dst (length vs) -∗ (words_at src vs -∗ words_at dst vs -∗ Φ tt) -∗ wp (memcpy_words (length vs) dst src) Φ Ψ.
Proof.
  revert src dst Φ. induction vs as [|v vs IH]; intros src dst Φ; iIntros "H1 H2 HΦ"; cbn [words_at region length memcpy_words].
  - wp_ret. by iApply ("HΦ" with "H1 H2").
  - iDestruct "H1" as "[H3 H1]". iDestruct "H2" as "[[% H4] H2]". wp_load "H3". wp_store "H4". iApply (IH with "H1 H2"). iIntros "H1 H2". iApply ("HΦ" with "[$H3 $H1] [$H4 $H2]").
Qed.

(** the contents of a block of [s] bytes *)
Definition contents (b s : Z) (vs : list Z) : hpropI := ⌜(s - 16 = 8 * Z.of_nat (length vs))%Z⌝ ∗ words_at (b + 16) vs.

Lemma contents_span b s vs : contents b s vs ⊢ span (b + 16) (b + s).
Proof. iIntros "[%Hlen H]". iApply (words_at_span with "H"). lia. Qed.

Lemma span_contents b s : good_size s → span (b + 16) (b + s) ⊢ ∃ vs, contents b s vs.
Proof.
  intros [Hs [q Hq]]. rewrite span_words_at; [|lia|exists (q - 2); lia]. iIntros "(%vs & %Hlen & H)". iExists vs. iFrame. iPureIntro. lia.
Qed.

(** one is the other, as far as both go *)
Definition same_contents (vs vs' : list Z) : Prop := take (length vs') vs = take (length vs) vs'.

Lemma same_contents_app vs vs' : same_contents vs (vs ++ vs').
Proof. unfold same_contents. rewrite length_app take_app_length. apply take_ge. lia. Qed.
Lemma same_contents_prefix vs vs' : same_contents (vs ++ vs') vs.
Proof. unfold same_contents. rewrite length_app take_app_length. rewrite take_ge; [done|lia]. Qed.

(** a block that grows, or shrinks, in place *)
Lemma contents_grow b s s' vs : good_size s → good_size s' → s ≤ s' →
  contents b s vs ∗ span (b + s) (b + s') ⊢ ∃ vs', ⌜same_contents vs vs'⌝ ∗ contents b s' vs'.
Proof.
  intros [Hs [q Hq]] [Hs' [q' Hq']] Hle. rewrite (span_words_at (b + s)); [|lia|exists (q' - q); lia]. iIntros "[[%Hlen H1] (%vs' & %Hlen' & H2)]".
  iExists (vs ++ vs'). iSplit; [iPureIntro; apply same_contents_app|]. unfold contents. rewrite length_app words_at_app. iSplit; [iPureIntro; lia|]. iFrame "H1".
  by rewrite (_ : b + 16 + 8 * Z.of_nat (length vs) = b + s); [|lia].
Qed.

Lemma contents_shrink b s s' vs : good_size s → good_size s' → s' ≤ s →
  contents b s vs ⊢ ∃ vs', ⌜same_contents vs vs'⌝ ∗ contents b s' vs' ∗ span (b + s') (b + s).
Proof.
  intros [Hs [q Hq]] [Hs' [q' Hq']] Hle. iIntros "[%Hlen H]".
  destruct (words_at_split (b + 16) (s' - 16) vs) as (vs1 & vs2 & -> & Hlen1 & Hsplit); [lia|lia|exists (q' - 2); lia|]. rewrite Hsplit length_app in Hlen |- *. iDestruct "H" as "[H1 H2]".
  iExists vs1. iSplit; [iPureIntro; apply same_contents_prefix|]. iFrame "H1". iSplit; [done|]. rewrite (_ : b + 16 + (s' - 16) = b + s'); [|lia]. iApply (words_at_span with "H2"). lia.
Qed.

(** ** The segments with a block of another size *)

(** the used block of [s] bytes at [b] has [s'] *)
Definition resized (b s s' : Z) (S S' : list segment) : Prop := ∃ U, all_useds S ≡ₚ (b, s) :: U ∧ filled b s' U (seg_total S) S'.

Section resize.
Context (heap : Z).
Hypothesis heap_pos : 0 < heap.
Context {storage : Storage}.
Local Abbreviation segments := (segments heap).
Local Abbreviation beside := (beside heap).
Local Abbreviation row := (row heap).

Section block.
Context (a s : Z) (bs1 bs2 : list chunk) (S1 S2 : list segment).
Local Abbreviation S := (S1 ++ (a, bs1 ++ Used s :: bs2) :: S2).
Local Abbreviation b := (first_block a + total bs1).
Local Abbreviation G := (all_frees (S1 ++ S2)).
Hypothesis HS : Forall seg_ok S.

Lemma block_ok : Forall seg_ok S1 ∧ Forall seg_ok S2 ∧ hole_ok (first_block a) bs1 s bs2 ∧ coalesced bs1 ∧ coalesced bs2.
Proof using HS.
  pose proof HS as HS0. apply Forall_app in HS0 as [HS1 [Hseg HS2]%Forall_cons_1]. pose proof (seg_ok_hole _ _ _ _ Hseg) as Hh. destruct (seg_ok_coalesced _ _ _ _ Hseg). done.
Qed.

Lemma resized_same : resized b s s S S.
Proof using HS.
  exists (open_useds S1 S2 a bs1 s bs2). pose proof (open_useds_filled S1 S2 a bs1 s bs2) as Hu. split; [done|]. by constructor.
Qed.

(** the block grown over free blocks after it *)
Lemma grown_open s1 bs2' : grown_right s bs2 s1 bs2' → open_ok a bs1 s1 bs2' ∧
  seg_size (bs1 ++ Used s :: bs2) = total bs1 + s1 + total bs2' + 32 ∧ all_useds S ≡ₚ (b, s) :: open_useds S1 S2 a bs1 s1 bs2'.
Proof using HS.
  intros Hg. destruct block_ok as (_ & _ & Hh & Hc1 & Hc2). pose proof (hole_grown_right _ _ _ _ _ _ Hh Hg) as [_ H1 Hs1 H2 Hb].
  pose proof HS as HS0. apply Forall_app in HS0 as [_ [[Ha Ha8 _ _ _ Hbound] _]%Forall_cons_1]. cbn [fst snd] in *.
  destruct Hg as (Hf & r & Hr & -> & ->). assert (Hsize : seg_size (bs1 ++ Used s :: r ++ bs2') = total bs1 + (s + total r) + total bs2' + 32).
  { unfold seg_size. rewrite total_app. cbn [total chunk_size]. rewrite total_app. lia. }
  split; [constructor; try done|split; [done|]].
  - split; [done|]. by apply coalesced_app in Hc2 as (_ & Hc2 & _).
  - by rewrite Hsize in Hbound.
  - rewrite all_useds_app. unfold all_useds, open_useds. rewrite fmap_cons concat_cons. unfold seg_useds at 2. cbn [fst snd]. rewrite useds_app. cbn [useds].
    rewrite useds_app (useds_free _ r Hr). rewrite (_ : first_block a + total bs1 + (s + total r) = first_block a + total bs1 + s + total r); [|lia]. cbn [app]. solve_Permutation.
Qed.

Lemma grown_seg_total s1 bs2' : grown_right s bs2 s1 bs2' → seg_total S = seg_total (S1 ++ S2) + (total bs1 + s1 + total bs2' + 32).
Proof using HS. intros Hg. destruct (grown_open _ _ Hg) as (_ & Hsize & _). rewrite !seg_total_app. cbn [seg_total snd]. rewrite Hsize. lia. Qed.

(** and filled again, whole or with a free block after it *)
Lemma resized_full s1 bs2' : grown_right s bs2 s1 bs2' → resized b s s1 S (S1 ++ (a, bs1 ++ Used s1 :: bs2') :: S2).
Proof using HS.
  intros Hg. destruct (grown_open _ _ Hg) as (Hopen & _ & Hu). destruct block_ok as (HS1 & HS2 & _). eexists. split; [exact Hu|].
  rewrite (grown_seg_total _ _ Hg). by apply filled_full.
Qed.

Lemma resized_split s1 ts r bs2' : grown_right s bs2 s1 bs2' → s1 = ts + r → good_size ts → good_size r →
  resized b s ts S (S1 ++ (a, bs1 ++ Used ts :: Free r :: bs2') :: S2).
Proof using HS.
  intros Hg -> Hts Hr. destruct (grown_open _ _ Hg) as (Hopen & _ & Hu). destruct block_ok as (HS1 & HS2 & _). eexists. split; [exact Hu|].
  rewrite (grown_seg_total _ _ Hg). by apply filled_split.
Qed.

End block.

(** ** The block after it *)

Lemma next_used_free_spec a s bs1 bs2 G (Φ : bool → hpropI) Ψ : Forall chunk_ok bs2 →
  row a (bs1 ++ Used s :: bs2) G -∗ (row a (bs1 ++ Used s :: bs2) G -∗ Φ (first_free bs2)) -∗ wp (ZEND_MM_IS_FREE_BLOCK (a + total bs1 + s)) Φ Ψ.
Proof using Type.
  iIntros (Hbs) "H HΦ". unfold ZEND_MM_IS_FREE_BLOCK. iDestruct (row_next_size with "H") as "[H1 H]". cbn [chunk_size]. wp_load "H1". iSpecialize ("H" with "H1"). wp_ret.
  rewrite first_tag_free //. by iApply "HΦ".
Qed.

Lemma next_used_size_spec a s bs1 s2 bs2 G (Φ : Z → hpropI) Ψ :
  row a (bs1 ++ Used s :: Free s2 :: bs2) G -∗ (row a (bs1 ++ Used s :: Free s2 :: bs2) G -∗ Φ s2) -∗ wp (ZEND_MM_FREE_BLOCK_SIZE (a + total bs1 + s)) Φ Ψ.
Proof using Type.
  iIntros "H HΦ". unfold ZEND_MM_FREE_BLOCK_SIZE. iDestruct (row_next_size with "H") as "[H1 H]". cbn [chunk_size first_tag chunk_tag]. wp_load "H1". iApply "HΦ". by iApply "H".
Qed.

(** out of the free lists *)
Lemma take_next_spec a s bs1 s2 bs2 G (Φ : unit → hpropI) Ψ :
  row a (bs1 ++ Used s :: Free s2 :: bs2) G -∗ (marked heap a (bs1 ++ [Used s]) s2 bs2 G -∗ Φ tt) -∗
  wp (zend_mm_remove_from_free_list heap (a + total bs1 + s)) Φ Ψ.
Proof using heap_pos.
  rewrite (_ : bs1 ++ Used s :: Free s2 :: bs2 = (bs1 ++ [Used s]) ++ Free s2 :: bs2); [|by rewrite -app_assoc].
  rewrite (_ : a + total bs1 + s = a + total (bs1 ++ [Used s])); [|rewrite total_app; cbn [total chunk_size]; lia]. apply take_free_spec, heap_pos.
Qed.

(** part of the used one, whose words are not here *)
Lemma marked_gap a s bs1 s2 bs2 G : good_size s2 →
  marked heap a (bs1 ++ [Used s]) s2 bs2 G ⊢ gap heap a bs1 (s + s2) bs2 G ∗ span (a + total bs1 + s) (a + total bs1 + (s + s2)).
Proof using Type.
  intros [Hs2 Hd]. unfold marked, gap, hole_free, freed. rewrite headers_app total_app tag_app frees_app. cbn [headers total tag frees is_free chunk_size chunk_tag app].
  rewrite (_ : a + (total bs1 + (s + 0)) = a + total bs1 + s); [|lia]. rewrite (_ : a + total bs1 + (s + s2) = a + total bs1 + s + s2); [|lia]. rewrite app_nil_r.
  iIntros "(($ & $ & H1 & _) & H2 & [H3 H4] & H5 & $)". iSplitL "H1 H5"; [iSplitL "H1"; by iExists _|].
  rewrite -block_span; [|lia|done]. iSplitL "H3"; [by iExists _|]. iFrame "H4". by iExists _.
Qed.

Lemma used_gap a s bs1 bs2 G : row a (bs1 ++ Used s :: bs2) G ⊢ gap heap a bs1 s bs2 G.
Proof using Type. rewrite take_used_gap. iIntros "[H1 H2]". by iApply "H2". Qed.

(** ** Shrinking *)

Lemma grown_rest a ts r bs1 bs2 s1 bs2' : 0 ≤ ts → good_size r → hole_ok a bs1 (ts + r) bs2 → grown_right (ts + r) bs2 s1 bs2' → ∃ r1, s1 = ts + r1 ∧ r ≤ r1 ∧ good_size r1.
Proof using Type.
  intros Hts0 Hr Hh Hg. pose proof (hole_before _ _ _ _ Hh) as H1. pose proof (hole_bound _ _ _ _ Hh) as Hb. pose proof (hole_size _ _ _ _ Hh) as [Hs _]. pose proof (hole_after _ _ _ _ Hh) as H2.
  destruct Hg as (_ & l & _ & -> & ->). apply Forall_app in H2 as [Hl H2]. pose proof (total_ok _ H1) as [? _]. pose proof (total_ok _ Hl) as [Hl0 Hl8]. pose proof (total_ok _ H2) as [? _]. rewrite total_app in Hb.
  exists (r + total l). split; [lia|]. split; [lia|]. apply good_size_sum; [done..|lia].
Qed.

Lemma span_join b ts r r1 : good_size r → good_size r1 → r ≤ r1 →
  span (b + ts) (b + (ts + r)) ∗ span (b + (ts + r)) (b + (ts + r1)) ⊢ span (b + ts) (b + (ts + r1)).
Proof using Type.
  intros [Hr [q ->]] [Hr1 [q1 ->]] Hle. rewrite -(span_split (b + ts) (b + (ts + q * 8))); [done|lia|exists q; lia|exists (q1 - q); lia].
Qed.

(** the part that is given up grows over the free block after it *)
Lemma shrink_next_spec {A} a s bs1 bs2 G rem (k : Z → W A) (Φ : A → hpropI) Ψ : hole_ok a bs1 s bs2 → coalesced bs2 → 0 ≤ rem ≤ s →
  let next_block := a + total bs1 + s in
  row a (bs1 ++ Used s :: bs2) G -∗
  (∀ s1 bs2', ⌜grown_right s bs2 s1 bs2'⌝ -∗ gap heap a bs1 s1 bs2' G -∗ span (a + total bs1 + s) (a + total bs1 + s1) -∗ wp (k (rem + (s1 - s))) Φ Ψ) -∗
  wp (let! nf := ZEND_MM_IS_FREE_BLOCK next_block in
      let! remaining_size :=
        (if (nf : bool) then
           let! x := ZEND_MM_FREE_BLOCK_SIZE next_block in zend_mm_remove_from_free_list heap next_block ;;; ret (u64 (rem + x))
         else ret rem) in
      k remaining_size)%eff Φ Ψ.
Proof using heap_pos.
  iIntros (Hok Hc Hrem next_block) "H HΦ". pose proof (hole_after _ _ _ _ Hok) as H2. wp_bind. iApply (next_used_free_spec with "H"); [done|]. iIntros "H".
  destruct (grown_right_cases s bs2 Hc) as [[-> Hg]|(s2 & bs2' & -> & Hg)].
  - wp_ret. rewrite used_gap. iSpecialize ("HΦ" with "[//] H"). rewrite span_nil Z.sub_diag Z.add_0_r. by iApply "HΦ".
  - cbn [first_free is_free]. apply Forall_cons_1 in H2 as [H2 _]. wp_bind. wp_bind. iApply (next_used_size_spec with "H"). iIntros "H". wp_bind. iApply (take_next_spec with "H"). iIntros "H". wp_ret.
    rewrite marked_gap //. iDestruct "H" as "[H1 H2]". pose proof (hole_grown_right _ _ _ _ _ _ Hok Hg) as [_ _ [Hs _] _ _]. destruct H2 as [H2 _]. cbn [chunk_size] in H2. rewrite u64_small; [|lia].
    iSpecialize ("HΦ" with "[//] H1 H2"). by rewrite (_ : s + s2 - s = s2); [|lia].
Qed.

(** ** Growing *)

Lemma span_halves b s ts r : good_size s → good_size ts → good_size r → s ≤ ts → span (b + s) (b + (ts + r)) ⊢ span (b + s) (b + ts) ∗ span (b + ts) (b + (ts + r)).
Proof using Type.
  intros [Hs [q ->]] [Hts [q1 ->]] [Hr [q2 ->]] Hle. rewrite -(span_split (b + q * 8) (b + q1 * 8)); [done|lia|exists (q1 - q); lia|exists q2; lia].
Qed.

Lemma count_growth_spec ts s n (Φ : unit → hpropI) Ψ :
  heap_size heap ↦ n -∗ (∃ v, peak heap ↦ v) -∗ (heap_size heap ↦ u64 (n + (ts - s)) -∗ (∃ v, peak heap ↦ v) -∗ Φ tt) -∗ wp (count_growth heap ts s) Φ Ψ.
Proof using Type.
  iIntros "H1 [% H2] HΦ". unfold count_growth. wp_load "H1". wp_store "H1". rewrite (_ : n + ts - s = n + (ts - s)); [|lia]. wp_load "H2". wp_load "H1". destruct (_ <? _).
  - iApply (wp_store with "H2"). iIntros "H2". iApply ("HΦ" with "H1 [H2]"). by iExists _.
  - wp_ret. iApply ("HΦ" with "H1 [H2]"). by iExists _.
Qed.

(** whether the block that grew is the first of its segment, and the free one the last *)
Lemma marked_first_spec a bs1 c r bs2 G (Φ : bool → hpropI) Ψ : Forall chunk_ok bs1 →
  marked heap a (bs1 ++ [c]) r bs2 G -∗ (marked heap a (bs1 ++ [c]) r bs2 G -∗ Φ (bool_decide (bs1 = []))) -∗ wp (ZEND_MM_IS_FIRST_BLOCK (a + total bs1)) Φ Ψ.
Proof using Type.
  unfold marked. rewrite headers_app. cbn [headers]. iIntros (Hbs) "((H1 & H2 & H3) & H4) HΦ". unfold ZEND_MM_IS_FIRST_BLOCK. wp_load "H2". wp_ret. rewrite tag_first //. iApply "HΦ". iFrame.
Qed.

Lemma marked_guard_spec a bs1 ts r bs2 G (first : bool) (Φ : bool → hpropI) Ψ : let l := bs1 ++ [Used ts] in
  marked heap a l r bs2 G -∗ (∀ whole, marked heap a l r bs2 G -∗ Φ whole) -∗
  wp (if first then ZEND_MM_IS_GUARD_BLOCK (ZEND_MM_BLOCK_AT (ZEND_MM_BLOCK_AT (a + total bs1) ts) r) else ret false) Φ Ψ.
Proof using Type.
  iIntros (l) "H HΦ". destruct first; [|wp_ret; by iApply "HΦ"]. unfold ZEND_MM_IS_GUARD_BLOCK, ZEND_MM_BLOCK_AT.
  iDestruct (marked_next_size with "H") as "[H1 H]". unfold l at 1 2. rewrite total_app. cbn [total chunk_size]. rewrite (_ : a + (total bs1 + (ts + 0)) + r = a + total bs1 + ts + r); [|lia].
  wp_load "H1". wp_ret. iApply "HΦ". by iApply "H".
Qed.

Section block.
Context (a s : Z) (bs1 bs2 : list chunk) (S1 S2 : list segment) (p ts : Z) (vs : list Z).
Local Abbreviation S := (S1 ++ (a, bs1 ++ Used s :: bs2) :: S2).
Local Abbreviation b := (first_block a + total bs1).
Local Abbreviation G := (all_frees (S1 ++ S2)).
Hypothesis HS : Forall seg_ok S.
Variable n : Z.
Hypothesis Hts : good_size ts.
Hypothesis Hn : u64 n = n.

(** what the block is after a reallocation in place *)
Local Abbreviation in_place Φ := (∀ S' s' vs', ⌜resized b s s' S S' ∧ ts ≤ s' ∧ same_contents vs vs'⌝ -∗
  segments S' -∗ contents b s' vs' -∗ heap_size heap ↦ u64 (n + (s' - s)) -∗ (∃ v, peak heap ↦ v) -∗ Φ p)%I.

Lemma realloc_shrink_spec (Φ : Z → hpropI) Ψ : ts ≤ s →
  segments S -∗ contents b s vs -∗ heap_size heap ↦ n -∗ (∃ v, peak heap ↦ v) -∗ in_place Φ -∗ wp (realloc_shrink heap p b ts s) Φ Ψ.
Proof using heap_pos HS Hts Hn.
  iIntros (Hle) "H1 H2 H3 H4 HΦ". unfold realloc_shrink, ZEND_MM_BLOCK_AT. change ZEND_MM_ALIGNED_MIN_HEADER_SIZE with 32.
  destruct (block_ok _ _ _ _ _ _ HS) as (HS1 & HS2 & Hh & _ & Hc2). pose proof (hole_size _ _ _ _ Hh) as Hs. rewrite u64_small; [|destruct Hs, Hts; lia]. destruct (Z.geb_spec (s - ts) 32) as [Hge|Hlt].
  - destruct (good_size_rest s ts Hs Hts Hge) as (r & -> & Hr & Hrest). rewrite Hrest. rewrite segments_open. iDestruct "H1" as "[H1 H5]". wp_bind.
    iApply (shrink_next_spec with "H5"); [done..|destruct Hts, Hr; lia|]. iIntros (s1 bs2' Hg) "H5 H6".
    destruct (grown_open _ _ _ _ _ _ HS _ _ Hg) as (Hopen & Hsize & _). rewrite Hsize. assert (Hts0 : 0 ≤ ts) by (destruct Hts; lia). destruct (grown_rest _ _ _ _ _ _ _ Hts0 Hr Hh Hg) as (r1 & -> & Hle1 & Hr1). rewrite (_ : r + (ts + r1 - (ts + r)) = r1); [|lia].
    iDestruct (contents_shrink _ _ ts with "H2") as (vs' Hvs) "[H2 H7]"; [done..|destruct Hr; lia|]. iDestruct (span_join with "[$H7 $H6]") as "H7"; [done..|].
    iApply (split_marked_spec with "H5 H7"); [done..|]. iIntros "H5". wp_bind. iApply (put_marked_spec heap heap_pos S1 S2 a bs1 bs2' false with "H1 H5"); [done..|]. iIntros "H1".
    wp_load "H3". wp_store "H3". wp_ret. iApply ("HΦ" with "[%] H1 H2 H3 H4"). split; [by eapply resized_split|done].
  - wp_ret. wp_ret. iApply ("HΦ" with "[%] H1 H2 [H3] H4"); [|by rewrite Z.sub_diag Z.add_0_r Hn]. split; [by apply resized_same|]. split; [done|]. unfold same_contents. by rewrite !take_ge.
Qed.

Lemma realloc_grow_spec s2 bs2' (Φ : Z → hpropI) Ψ : bs2 = Free s2 :: bs2' → s ≤ ts ≤ s + s2 →
  segments S -∗ contents b s vs -∗ heap_size heap ↦ n -∗ (∃ v, peak heap ↦ v) -∗ in_place Φ -∗ wp (realloc_grow heap p b (b + s) ts s) Φ Ψ.
Proof using heap_pos HS Hts.
  iIntros (Hbs2 Hle) "H1 H2 H3 H4 HΦ". destruct (block_ok _ _ _ _ _ _ HS) as (HS1 & HS2 & Hh & _ & Hc2). pose proof (hole_size _ _ _ _ Hh) as Hs. pose proof (hole_after _ _ _ _ Hh) as Hok2.
  assert (Hg : grown_right s bs2 (s + s2) bs2') by (destruct (grown_right_cases s bs2 Hc2) as [[Hf _]|(s2' & l & Heq & Hg)]; [by rewrite Hbs2 in Hf|rewrite Hbs2 in Heq; injection Heq as -> ->; done]).
  destruct (grown_open _ _ _ _ _ _ HS _ _ Hg) as (Hopen & Hsize & _). pose proof (open_size _ _ _ _ Hopen) as Hs1.
  unfold realloc_grow. change ZEND_MM_ALIGNED_MIN_HEADER_SIZE with 32. rewrite segments_open Hsize. iDestruct "H1" as "[H1 H5]". rewrite {1}Hbs2. wp_bind. iApply (next_used_size_spec with "H5"). iIntros "H5".
  rewrite (u64_small (s + s2)); [|destruct Hs1; lia]. rewrite (u64_small (s + s2 - ts)); [|destruct Hs1, Hs; lia].
  wp_bind. iApply (take_next_spec with "H5"). iIntros "H5". rewrite marked_gap; [|by rewrite Hbs2 in Hok2; apply Forall_cons_1 in Hok2 as [? _]]. iDestruct "H5" as "[H5 H6]".
  iApply wp_bind_intro. iApply (wp_wand _ (λ ts', ∃ S' vs', ⌜resized b s ts' S S' ∧ ts ≤ ts' ∧ same_contents vs vs'⌝ ∗ segments S' ∗ contents b ts' vs')%I _ Ψ with "[H1 H2 H5 H6]").
  - destruct (Z.ltb_spec (s + s2 - ts) 32) as [Hlt|Hge].
    + wp_bind. iApply (fill_segments_spec with "H1 H5"); [done|]. iIntros "H1". wp_ret. iDestruct (contents_grow with "[$H2 $H6]") as (vs' Hvs) "H2"; [done..|lia|].
      iExists _, vs'. iFrame. iPureIntro. split; [by apply resized_full|]. split; [lia|done].
    + destruct (good_size_rest _ ts Hs1 Hts Hge) as (r & Hr0 & Hr & Hrest). rewrite Hr0 Hrest in Hopen |- *.
      iDestruct (span_halves with "H6") as "[H6 H7]"; [exact Hs|exact Hts|exact Hr|lia|]. iDestruct (contents_grow with "[$H2 $H6]") as (vs' Hvs) "H2"; [done..|lia|].
      iApply (split_marked_spec with "H5 H7"); [done..|]. iIntros "H5". wp_bind. iApply (marked_first_spec with "H5"); [apply Hh|]. iIntros "H5".
      wp_bind. iApply (marked_guard_spec with "H5"). iIntros (whole) "H5". wp_bind. iApply (put_marked_spec with "H1 H5"); [done..|]. iIntros "H1". wp_ret.
      iExists _, vs'. iFrame. iPureIntro. split; [by eapply resized_split|done].
  - iSplit; [|by iIntros "$"]. iIntros (ts') "(%S' & %vs' & %H & H1 & H2)". wp_bind. iApply (count_growth_spec with "H3 H4"). iIntros "H3 H4". wp_ret. by iApply ("HΦ" with "[//] H1 H2 H3 H4").
Qed.

End block.
End resize.
