(* ===== verification/MmRegrow.v ===== *)
(** * A segment made larger

    The code at [realloc_segment] in [_zend_mm_realloc_int]: a segment with one used block goes
    to the storage, with the free block after it out of the free lists, and comes back larger,
    where it was or elsewhere. *)

From iris.proofmode Require Import proofmode.
From S2P Require Import Prelude WordLogic MmModel MmBits MmRepr MmTrie MmFree MmLayout MmHole MmJoin MmSegments MmRelease MmTake MmReallocModel MmResize.
Local Open Scope Z_scope.

(** the free block after the used one, if there is one *)
Definition rest_blocks (r : option Z) : list chunk := match r with Some s2 => [Free s2] | None => [] end.

Section regrow.
Context (heap : Z).
Hypothesis heap_pos : 0 < heap.
Context {storage : Storage}.
Local Abbreviation segments := (segments heap).
Local Abbreviation beside := (beside heap).
Local Abbreviation free_lists := (free_lists heap).
Local Abbreviation slot := (segments_list heap).

(** the row of the only used block, [r] out of the free lists *)
Definition lone (b s : Z) (r : option Z) (G : list (Z * Z)) : hpropI :=
  match r with Some s2 => marked heap b [Used s] s2 [] G | None => row heap b [Used s] G end.

(** put back where it was *)
Lemma lone_restore {A} S1 a s r S2 (m : W A) (Φ : A → hpropI) Ψ : let S := S1 ++ (a, Used s :: rest_blocks r) :: S2 in Forall seg_ok S →
  beside S1 a (seg_size (Used s :: rest_blocks r)) S2 -∗ lone (first_block a) s r (all_frees (S1 ++ S2)) -∗ (segments S -∗ wp m Φ Ψ) -∗
  wp (let! nf := ZEND_MM_IS_FREE_BLOCK (first_block a + s) in
      (if (nf : bool) then zend_mm_add_to_free_list heap (first_block a + s) else ret tt) ;;; m)%eff Φ Ψ.
Proof using heap_pos.
  iIntros (S HS) "H1 H2 HΦ". unfold S. rewrite segments_open. assert (Hok : hole_ok (first_block a) [] s (rest_blocks r)).
  { apply Forall_app in HS as [_ [Hseg _]%Forall_cons_1]. exact (seg_ok_hole a [] (Used s) _ Hseg). }
  pose proof Hok as [Ha _ Hs H2 Hb]. cbn [total] in Hb. destruct r as [s2|]; cbn [lone rest_blocks total chunk_size] in *.
  - apply Forall_cons_1 in H2 as [H2 _]. iDestruct (marked_size with "H2") as "[H3 H2]". cbn [total chunk_size]. rewrite Z.add_0_r. unfold ZEND_MM_IS_FREE_BLOCK. wp_bind. wp_load "H3". iSpecialize ("H2" with "H3"). wp_ret.
    rewrite (tag_free_bit (Free s2)) //. cbn [is_free]. wp_bind. rewrite (_ : first_block a + s = first_block a + total [Used s]); [|cbn; lia].
    iApply (add_marked_spec with "H2"); [done| |]. { constructor; [done|by apply Forall_singleton|exact H2|by apply Forall_nil|cbn [total chunk_size]; lia]. }
    iIntros "H2". iApply "HΦ". iFrame.
  - wp_bind. rewrite (_ : first_block a + s = first_block a + total [] + s); [|cbn; lia]. iApply (next_used_free_spec heap (first_block a) s [] [] with "H2"); [done|]. iIntros "H2". cbn [first_free]. wp_bind. wp_ret. iApply "HΦ". iFrame.
Qed.

(** the words of the row *)
Lemma lone_words a s r G : chunk_ok (Used s) → Forall chunk_ok (rest_blocks r) → let b := first_block a in
  lone b s r G ⊢ info_size b ↦ (s + 1) ∗ info_prev b ↦ ZEND_MM_GUARD_BLOCK ∗ span (b + s) (a + seg_size (Used s :: rest_blocks r)) ∗ free_lists G.
Proof using Type.
  intros Hs Hr. cbv zeta. unfold seg_size, first_block. destruct r as [s2|]; cbn [lone rest_blocks total chunk_size] in *.
  - apply Forall_cons_1 in Hr as [[Hs2 [q Hq]] _]. cbn [chunk_size] in *. unfold marked, freed, chain, guard, hole_free. cbn [headers total tag frees is_free chunk_size chunk_tag app]. rewrite !Z.add_0_r.
    iIntros "(($ & $ & _) & H2 & [H3 H4] & [_ [H5 H6]] & $)". rewrite (_ : a + (s + s2 + 32) = a + 16 + s + s2 + 16); [|lia].
    rewrite (span_split (a + 16 + s) (a + 16 + s + s2)); [|lia|exists q; lia|exists 2; lia]. iSplitL "H2 H3 H4".
    + rewrite -block_span; [|lia|by exists q]. iFrame "H4". iSplitL "H3"; by iExists _.
    + rewrite -block_span; [|lia|by exists 2]. rewrite span_nil. iSplitL "H5"; [by iExists _|]. iSplitL "H6"; [by iExists _|done].
  - unfold row, chain, guard. cbn [headers total tag frees is_free chunk_size chunk_tag app]. rewrite !Z.add_0_r. iIntros "[[($ & $ & _) [H5 H6]] $]".
    rewrite (_ : a + (s + 32) = a + 16 + s + 16); [|lia]. rewrite -block_span; [|lia|by exists 2]. rewrite span_nil. iSplitL "H5"; [by iExists _|]. iSplitL "H6"; [by iExists _|done].
Qed.

(** the row in a segment of [m] bytes, before its new end is set up *)
Definition refit (p s m : Z) (G : list (Z * Z)) : hpropI :=
  (∃ v, info_size (first_block p) ↦ v) ∗ info_prev (first_block p) ↦ ZEND_MM_GUARD_BLOCK ∗ span (first_block p + s) (p + m) ∗ free_lists G.

Lemma resize_segment_spec a s r G m vs link (Φ : Z → hpropI) Ψ : let n := seg_size (Used s :: rest_blocks r) in
  chunk_ok (Used s) → Forall chunk_ok (rest_blocks r) → n ≤ m → (8 | m) → m ≤ storage_capacity →
  storage_inv -∗ segment_size_field a ↦ n -∗ next_segment a ↦ link -∗ storage_part a n -∗ lone (first_block a) s r G -∗ contents (first_block a) s vs -∗
  (∀ p, ⌜0 < p ∧ (8 | p) ∧ p + m ≤ 2 ^ 47⌝ -∗ storage_inv -∗ segment_size_field p ↦ n -∗ next_segment p ↦ link -∗ storage_part p m -∗
    refit p s m G -∗ contents (first_block p) s vs -∗ Φ p) -∗
  wp (storage_realloc a m) Φ Ψ.
Proof using Type.
  iIntros (n Hs Hr Hnm Hm8 Hm) "H1 H2 H3 H4 H5 [%Hlen H6] HΦ". pose proof (total_ok _ Hr) as [Hr0 Hr8]. assert (Hn : n = s + total (rest_blocks r) + 32) by (unfold n, seg_size; cbn [total chunk_size]; lia).
  destruct Hs as [Hs0 Hs8] eqn:Hs'. clear Hs'. cbn [chunk_size] in Hs0, Hs8. iDestruct (lone_words with "H5") as "(H5 & H7 & H8 & HG)"; [done..|]. unfold refit, first_block in *. fold n.
  rewrite (span_words_at (a + 16 + s)); [|lia|rewrite (_ : a + n - (a + 16 + s) = total (rest_blocks r) + 16); [apply Z.divide_add_r; [done|by exists 2]|lia]]. iDestruct "H8" as (ws Hws) "H8".
  iApply (storage_realloc_spec a n m (link :: s + 1 :: ZEND_MM_GUARD_BLOCK :: vs ++ ws) with "H1 H2 [H3 H5 H6 H7 H8] H4"); [lia| |done| |done|..].
  { rewrite Hn. apply Z.divide_add_r; [by apply Z.divide_add_r|by exists 4]. }
  { cbn [length]. rewrite length_app. lia. }
  { cbn [words_at]. rewrite words_at_app. rewrite (_ : a + 8 + 8 + 8 + 8 = a + 16 + 16); [|lia]. rewrite (_ : a + 16 + 16 + 8 * Z.of_nat (length vs) = a + 16 + s); [|lia].
    unfold next_segment, info_size, info_prev. rewrite (_ : a + 8 + 8 = a + 16); [|lia]. iFrame. }
  iIntros (p Hp) "H1 H2 H3 H5 H4". cbn [words_at]. rewrite words_at_app. rewrite (_ : p + 8 + 8 + 8 + 8 = p + 16 + 16); [|lia]. rewrite (_ : p + 16 + 16 + 8 * Z.of_nat (length vs) = p + 16 + s); [|lia].
  rewrite (_ : p + 8 + 8 = p + 16); [|lia]. iDestruct "H3" as "(H6 & H7 & H8 & H9 & H10)". iApply ("HΦ" with "[//] H1 H2 H6 H4 [-H9] [$H9]"); [|done].
  iSplitL "H7"; [by iExists _|]. iFrame "H8 HG". rewrite (span_split (p + 16 + s) (p + n)); [|lia| |].
  - iFrame "H5". iApply (words_at_span with "H10"). lia.
  - rewrite (_ : p + n - (p + 16 + s) = total (rest_blocks r) + 16); [apply Z.divide_add_r; [done|by exists 2]|lia].
  - rewrite (_ : p + m - (p + n) = m - n); [apply Z.divide_sub_r; [done|]|lia]. rewrite Hn. apply Z.divide_add_r; [by apply Z.divide_add_r|by exists 4].
Qed.

(** the new end *)
Lemma fill_segment_spec S1 S2 p s m ts vs (Φ : Z → hpropI) Ψ : let b := first_block p in
  Forall seg_ok S1 → Forall seg_ok S2 → 0 < p → (8 | p) → p + m ≤ 2 ^ 47 → (8 | m) → good_size s → good_size ts → s ≤ ts → ts + 32 ≤ m →
  beside S1 p m S2 -∗ refit p s m (all_frees (S1 ++ S2)) -∗ contents b s vs -∗
  (∀ ts' S' vs', ⌜filled b ts' (all_useds (S1 ++ S2)) (seg_total (S1 ++ S2) + m) S' ∧ ts ≤ ts' ∧ same_contents vs vs'⌝ -∗ segments S' -∗ contents b ts' vs' -∗ Φ ts') -∗
  wp (fill_segment heap b m ts) Φ Ψ.
Proof using heap_pos.
  iIntros (b HS1 HS2 Hp Hp8 Hpm Hm8 Hs Hts Hle Hm) "H1 (H2 & H3 & H4 & HG) H5 HΦ". assert (Hs1 : ∃ s1, m = s1 + 32 ∧ good_size s1).
  { exists (m - 32). split; [lia|]. destruct Hts as [Hts _]. split; [lia|]. apply Z.divide_sub_r; [done|by exists 4]. }
  destruct Hs1 as (s1 & -> & Hs1). pose proof Hs as [Hs0 [q Hq]]. pose proof Hs1 as [Hs10 [q1 Hq1]]. pose proof Hts as [Hts0 _].
  unfold fill_segment. change ZEND_MM_ALIGNED_SEGMENT_SIZE with 16. change ZEND_MM_ALIGNED_HEADER_SIZE with 16. change ZEND_MM_ALIGNED_MIN_HEADER_SIZE with 32.
  rewrite (_ : s1 + 32 - 16 - 16 = s1); [|lia]. rewrite (u64_small s1); [|lia]. rewrite u64_small; [|lia].
  rewrite (span_split (b + s) (b + s1)); [|unfold b, first_block; lia|exists (q1 - q); lia|exists 2; unfold b, first_block; lia]. iDestruct "H4" as "[H4 H6]".
  rewrite (_ : p + (s1 + 32) = b + s1 + 16); [|unfold b, first_block; lia]. rewrite -(block_span (b + s1)); [|lia|by exists 2]. iDestruct "H6" as "([% H6] & [%w H7] & _)".
  unfold ZEND_MM_LAST_BLOCK, ZEND_MM_BLOCK_AT at 1. change (Z.lor ZEND_MM_GUARD_BLOCK ZEND_MM_ALIGNED_HEADER_SIZE) with 19. wp_store "H6".
  assert (Hopen : open_ok p [] s1 []) by (constructor; try done; cbn [total]; lia).
  assert (Hfill : open_useds S1 S2 p [] s1 [] = all_useds (S1 ++ S2)) by (by rewrite all_useds_app).
  rewrite (_ : s1 + 32 = total [] + s1 + total [] + 32); [|cbn [total]; lia]. rewrite (_ : b = first_block p + total []); [|cbn [total]; unfold b; lia].
  iAssert (gap heap (first_block p) [] s1 [] (all_frees (S1 ++ S2))) with "[H2 H3 H6 H7 HG]" as "H2".
  { unfold gap, hole_free, chain, guard. cbn [headers total tag frees app]. rewrite !Z.add_0_r. iFrame. }
  destruct (Z.ltb_spec (s1 - ts) 32) as [Hlt|Hge].
  - wp_bind. iApply (fill_segments_spec with "H1 H2"); [done|]. iIntros "H1". wp_ret. iDestruct (contents_grow with "[$H5 $H4]") as (vs' Hvs) "H5"; [done..|lia|].
    iApply ("HΦ" with "[%] H1 H5"). split; [|split; [lia|done]]. rewrite -Hfill. by apply filled_full.
  - destruct (good_size_rest _ ts Hs1 Hts Hge) as (r & -> & Hr & Hrest). rewrite Hrest.
    iDestruct (span_halves with "H4") as "[H4 H6]"; [exact Hs|exact Hts|exact Hr|done|]. iDestruct (contents_grow with "[$H5 $H4]") as (vs' Hvs) "H5"; [done..|].
    iApply (split_marked_spec with "H2 H6"); [done..|]. iIntros "H2". wp_bind. iApply (put_marked_spec heap heap_pos S1 S2 p [] [] true with "H1 H2"); [done..|]. iIntros "H1". wp_ret.
    iApply ("HΦ" with "[%] H1 H5"). split; [|done]. rewrite -Hfill. by apply filled_split.
Qed.

(** the segment in its list, at its new place *)
Lemma relink_spec l1 slot' a p v (Φ : Z → hpropI) Ψ : a ∉ l1.*1 →
  seg_path slot l1 slot' -∗ slot' ↦ a -∗ info_prev (first_block p) ↦ v -∗
  (seg_path slot l1 slot' -∗ slot' ↦ p -∗ (∃ v', info_prev (first_block p) ↦ v' ∗ ⌜v' = v ∨ v' = ZEND_MM_GUARD_BLOCK⌝) -∗ Φ (first_block p)) -∗
  wp (if negb (p =? a) then
        replace_segment heap a p ;;;
        let mm_block := p + ZEND_MM_ALIGNED_SEGMENT_SIZE in ZEND_MM_MARK_FIRST_BLOCK mm_block ;;; ret mm_block
      else ret (first_block a))%eff Φ Ψ.
Proof using Type.
  iIntros (Ha) "H1 H2 H3 HΦ". destruct (Z.eqb_spec p a) as [->|Hne]; cbn [negb].
  - wp_ret. iApply ("HΦ" with "H1 H2"). iExists v. iFrame. by iLeft.
  - unfold replace_segment. wp_bind. wp_bind. iApply (wp_fuel l1.*1 with "H1"); [apply seg_path_words|]. iIntros (fuel Hf) "H1". rewrite length_fmap in Hf.
    wp_bind. iApply (find_segment_spec with "H1 H2"); [lia|done|]. iIntros "H1 H2". iApply (wp_store with "H2"). iIntros "H2". change (p + ZEND_MM_ALIGNED_SEGMENT_SIZE) with (first_block p).
    unfold ZEND_MM_MARK_FIRST_BLOCK. wp_store "H3". wp_ret. iApply ("HΦ" with "H1 H2"). iExists _. iFrame. by iRight.
Qed.

End regrow.
