(* ===== verification/MmRealloc.v ===== *)
(** * Reallocation

    [_zend_mm_realloc_int]: its branches that move the block, through the cache, with its
    segment or by a new allocation, and the whole.  The contents of the block are those of
    the old one, as far as both go. *)

From iris.proofmode Require Import proofmode.
From S2P Require Import Prelude WordLogic MmModel MmBits MmRepr MmTrie MmFree MmSearch MmLayout MmHole MmJoin MmSegments MmRelease MmHeap MmTake MmAlloc MmReallocModel MmResize MmRegrow.
Local Open Scope Z_scope.

(** the size of a segment for a block that is not absurdly large *)
Lemma new_segment_size_bound k ts : 5 ≤ k ≤ 62 → good_size ts → ts ≤ 2 ^ 62 + 64 →
  let ss := (new_segment_size (2 ^ k) ts).1 in ts + 32 ≤ ss < 3 * 2 ^ 62 ∧ (8 | ss).
Proof.
  intros Hk Hts Hle. pose proof (new_segment_size_spec k ts Hk Hts) as Hspec. cbv zeta in *. assert (H62 : 2 ^ k ≤ 2 ^ 62) by (apply Z.pow_le_mono_r; lia). assert (H5 : 2 ^ 5 ≤ 2 ^ k) by (apply Z.pow_le_mono_r; lia).
  assert (Hss : ts ≤ (new_segment_size (2 ^ k) ts).1 < 3 * 2 ^ 62); [|lia || (destruct Hspec as [|[? ?]]; [lia|split; [lia|done]])]. clear Hspec. destruct Hts as [Hts _].
  unfold new_segment_size. change ZEND_MM_ALIGNED_SEGMENT_SIZE with 16. change ZEND_MM_ALIGNED_HEADER_SIZE with 16. rewrite (u64_small (2 ^ k - (16 + 16))); [|lia].
  destruct (Z.gtb_spec ts (2 ^ k - (16 + 16))) as [Hgt|Hno]; cbn [fst]; [|lia]. rewrite round_down; [|lia].
  rewrite (u64_small (ts + 16 + 16)); [|lia]. rewrite u64_small; [|lia].
  pose proof (Z.mul_div_le (ts + 16 + 16 + (2 ^ k - 1)) (2 ^ k) ltac:(lia)). pose proof (Z.mul_succ_div_gt (ts + 16 + 16 + (2 ^ k - 1)) (2 ^ k) ltac:(lia)). lia.
Qed.

(** ** Copying *)

Lemma memcpy_contents b s q ts vs (Φ : unit → hpropI) Ψ : good_size s → good_size ts → s ≤ ts →
  contents b s vs -∗ span (q + 16) (q + ts) -∗ (∀ vs', ⌜same_contents vs vs'⌝ -∗ contents b s vs -∗ contents q ts vs' -∗ Φ tt) -∗
  wp (memcpy (q + 16) (b + 16) (s - ZEND_MM_ALIGNED_HEADER_SIZE)) Φ Ψ.
Proof.
  iIntros (Hs Hts Hle) "[%Hlen H1] H2 HΦ". unfold memcpy. change ZEND_MM_ALIGNED_HEADER_SIZE with 16. rewrite Hlen Z.mul_comm Z.div_mul; [|lia]. rewrite Nat2Z.id.
  pose proof Hs as [Hs0 [k Hk]]. pose proof Hts as [Hts0 [k' Hk']].
  rewrite (span_split (q + 16) (q + s)); [|lia|exists (k - 2); lia|exists (k' - k); lia]. iDestruct "H2" as "[H2 H3]".
  iApply (memcpy_spec with "H1 [H2]"). { unfold span. rewrite (_ : q + s - (q + 16) = Z.of_nat (length vs) * 8); [|lia]. rewrite Z.div_mul; [|lia]. by rewrite Nat2Z.id. }
  iIntros "H1 H2". iDestruct (contents_grow q s ts vs with "[$H2 $H3]") as (vs' Hvs) "H2"; [done..|]. iApply ("HΦ" with "[//] [$H1] H2"). done.
Qed.

Section realloc.
Context (heap lim k : Z).
Hypothesis heap_pos : 0 < heap.
Hypothesis block_size_ok : 5 ≤ k ≤ 62.
Hypothesis lim_ok : 0 ≤ lim ≤ largest_limit.
Context {storage : Storage}.
Variable zend_error : W unit.

Local Abbreviation block_size := (2 ^ k).
Local Abbreviation free_lists := (free_lists heap).
Local Abbreviation segments := (segments heap).
Local Abbreviation beside := (beside heap).
Local Abbreviation caches := (caches heap).
Local Abbreviation counters := (counters heap block_size lim).
Local Abbreviation heap_at := (heap_at heap block_size lim).
Local Abbreviation heap_live := (heap_live heap block_size lim).
Local Abbreviation safe_error := (zend_mm_safe_error heap storage_free zend_error).

(** what a reallocation may do instead of returning: the block is as it was *)
Local Abbreviation failing_with b s vs L Ψ := (∀ drift (Φ : unit → hpropI), heap_live drift ((b, s) :: L) -∗ contents b s vs -∗ wp safe_error Φ Ψ)%I.
(** the block where it now is *)
Local Abbreviation reallocated drift vs n L Φ := (∀ p s' vs', ⌜given n p s' ∧ same_contents vs vs'⌝ -∗ heap_live drift ((p - 16, s') :: L) -∗ contents (p - 16) s' vs' -∗ Φ p)%I.

Lemma heap_ok_perm S Cs L L' : L ≡ₚ L' → heap_ok S Cs L → heap_ok S Cs L'.
Proof using Type. intros HL [? ? Hu ? ?]. constructor; try done. by rewrite Hu HL. Qed.

(** ** A block of the cache *)

Lemma realloc_cached_spec drift S Cs L b s ts i q l vs (Φ : Z → hpropI) Ψ :
  heap_ok S Cs ((b, s) :: L) → Cs !! i = Some (q :: l) → small_size_of i = ts → s < ts → good_size s → good_size ts → ts < 544 → ZEND_MM_BUCKET_INDEX ts = i →
  segments S -∗ caches Cs -∗ counters drift S Cs -∗ storage_inv -∗ contents b s vs -∗
  (∀ vs', ⌜same_contents vs vs'⌝ -∗ heap_live drift ((q, ts) :: L) -∗ contents q ts vs' -∗ Φ (q + 16)) -∗
  wp (realloc_cached heap (b + 16) b ts s q) Φ Ψ.
Proof using Type.
  iIntros (Hok Hl Hsi Hlt Hs Hts Hsmall Hi) "H1 H2 (H3 & H4 & H5) H6 H7 HΦ". unfold realloc_cached. rewrite Hi. change (ZEND_MM_DATA_OF q) with (q + 16).
  destruct (heap_ok_pop S Cs _ i q l Hl Hok) as [Hok1 Hsz1]. apply (heap_ok_perm _ _ _ ((b, s) :: (q, ts) :: L)) in Hok1; [|rewrite Hsi; apply Permutation_swap].
  destruct (small_index s Hs ltac:(lia)) as (j & Hj & Hj64 & Hsj). destruct (lookup_lt_is_Some_2 (<[i:=l]> Cs) j) as [l' Hl']; [by rewrite (heap_caches _ _ _ Hok1)|].
  pose proof (heap_cached _ _ _ Hok) as Hc. change (ZEND_MM_CACHE_SIZE + ZEND_MM_MAX_SMALL_SIZE) with 262688 in Hc. pose proof (sizes_cached (<[i:=l]> Cs)) as Hnn. destruct Hs as [Hs0 Hs8].
  destruct (heap_ok_push S _ ((q, ts) :: L) j b l' Hl') as [Hok2 Hsz2]; [by rewrite Hsj|change (ZEND_MM_CACHE_SIZE + ZEND_MM_MAX_SMALL_SIZE) with 262688; lia|].
  iDestruct (cache_focus with "H2") as "[[H8 H9] H2]"; [done|]. cbn [hd cache_list]. iDestruct "H9" as "(H9 & H10 & H11)". wp_load "H9". wp_store "H8". iDestruct ("H2" $! l with "[$H8 $H11]") as "H2".
  iAssert (span (q + 16) (q + ts)) with "[H9 H10]" as "H9"; [rewrite -cached_span // Hsi; iFrame "H10"; by iExists _|].
  wp_bind. iApply (memcpy_contents with "H7 H9"); [done..|lia|]. iIntros (vs' Hvs) "H7 H9". wp_load "H4". wp_store "H4". rewrite Hj contents_span.
  iApply (push_spec with "H2 [H7]"); [exact Hl'|by rewrite Hsj|by rewrite Hsj|]. iIntros "H2". wp_ret. iApply ("HΦ" with "[//] [-H9] H9"). iExists S, _. iFrame "H1 H2 H6". iSplit; [done|].
  unfold MmHeap.counters. iFrame "H3 H5". rewrite Hsz2 Hsz1 Hsj Hsi. rewrite u32_small; [|lia]. by rewrite (_ : sizes (cached_blocks Cs) - (ts - s) = sizes (cached_blocks Cs) - ts + s); [|lia].
Qed.

(** ** A new block *)

Lemma realloc_move_spec drift L b s n vs (Φ : Z → hpropI) Ψ : 0 ≤ n < 2 ^ 64 → good_size s → s ≤ ZEND_MM_TRUE_SIZE n →
  heap_live drift ((b, s) :: L) -∗ contents b s vs -∗ (reallocated drift vs n L Φ ∧ failing_with b s vs L Ψ) -∗
  wp (realloc_move heap storage_alloc storage_free zend_error (b + 16) s n) Φ Ψ.
Proof using heap_pos block_size_ok lim_ok.
  iIntros (Hn Hs Hle) "H1 H2 HΦ". unfold realloc_move. wp_bind. iApply (heap_alloc_spec with "H1"); [done..|]. iSplit; [iDestruct "HΦ" as "[HΦ _]"|iDestruct "HΦ" as "[_ HE]"].
  - iIntros (p s' Hp) "H1 H3". pose proof Hp as (Hpos & _ & Hs' & Hts & _). assert (∃ q, p = q + 16) as [q ->] by (exists (p - 16); lia). rewrite (_ : q + 16 - 16 = q); [|lia].
    wp_bind. iApply (memcpy_contents with "H2 H3"); [done..|lia|]. iIntros (vs' Hvs) "H2 H3".
    iDestruct (heap_live_perm _ _ _ _ _ ((b, s) :: (q, s') :: L) with "H1") as "H1"; [apply Permutation_swap|]. rewrite contents_span.
    wp_bind. iApply (free_int_spec with "H1 H2"); [done|]. iIntros "H1". wp_ret. iApply ("HΦ" with "[//] [H1] [H3]"); by rewrite (_ : q + 16 - 16 = q); [|lia].
  - iIntros (drift' Φ') "H". iApply ("HE" with "H H2").
Qed.

(** ** With its segment *)

Lemma lone_useds S1 a s r S2 : all_useds (S1 ++ (a, Used s :: rest_blocks r) :: S2) ≡ₚ (first_block a, s) :: all_useds (S1 ++ S2).
Proof using Type.
  rewrite !all_useds_app. unfold all_useds. rewrite fmap_cons concat_cons. unfold seg_useds at 2. cbn [fst snd useds]. destruct r as [s2|]; cbn [rest_blocks useds]; solve_Permutation.
Qed.

Lemma resized_counted drift S b s b' s' U n S' : all_useds S ≡ₚ (b, s) :: U → filled b' s' U n S' →
  u64 (u64 (drift + sizes (all_useds S)) + (s' - s)) = u64 (drift + sizes (all_useds S')).
Proof using Type. intros HU [_ HuS _]. rewrite HU HuS. apply counted_resized. Qed.

(** the segment after the storage made it larger *)
Lemma regrown_spec drift S1 a s r S2 Cs L n ts m p link slot' vs (Φ : Z → hpropI) Ψ :
  let S := S1 ++ (a, Used s :: rest_blocks r) :: S2 in let old := seg_size (Used s :: rest_blocks r) in
  heap_ok S Cs ((first_block a, s) :: L) → ts = ZEND_MM_TRUE_SIZE n → n + 16 ≤ ts → good_size ts → s ≤ ts → ts + 32 ≤ m → (8 | m) → 0 < p ∧ (8 | p) ∧ p + m ≤ 2 ^ 47 →
  seg_total S + m - old ≤ largest_limit → a ∉ (seg_entry <$> S1).*1 →
  seg_path (segments_list heap) (seg_entry <$> S1) slot' -∗ slot' ↦ a -∗ segment_size_field p ↦ old -∗ next_segment p ↦ link -∗ storage_part p m -∗
  (∀ sl, sl ↦ link -∗ seg_list sl (seg_entry <$> S2)) -∗ ([∗ list] x ∈ S1 ++ S2, seg_row x) -∗
  refit heap p s m (all_frees (S1 ++ S2)) -∗ contents (first_block p) s vs -∗ caches Cs -∗ counters drift S Cs -∗ storage_inv -∗
  reallocated drift vs n L Φ -∗
  wp (let! rs := rd (real_size heap) in
      let! old := rd (segment_size_field p) in
      wr (real_size heap) (u64 (rs + (m - old))) ;;;
      let! rs := rd (real_size heap) in
      let! rp := rd (real_peak heap) in
      (if rs >? rp then wr (real_peak heap) rs else ret tt) ;;;
      wr (segment_size_field p) m ;;;
      let! mm_block :=
        (if negb (p =? a) then
           replace_segment heap a p ;;;
           let mm_block := p + ZEND_MM_ALIGNED_SEGMENT_SIZE in ZEND_MM_MARK_FIRST_BLOCK mm_block ;;; ret mm_block
         else ret (first_block a)) in
      let! true_size := fill_segment heap mm_block m ts in
      count_growth heap true_size s ;;;
      ret (ZEND_MM_DATA_OF mm_block))%eff Φ Ψ.
Proof using heap_pos block_size_ok lim_ok.
  iIntros (S old Hok Hn0 Hn Hts Hle Hm Hm8 (Hp & Hp8 & Hpm) Hlim Ha) "H1 H2 H3 H4 H5 H6 H7 H8 H9 H10 (H11 & H12 & H13 & H14 & H15 & H16 & [%rp H17]) H18 HΦ".
  pose proof (heap_segments _ _ _ Hok) as HS. apply Forall_app in HS as [HS1 [Hseg HS2]%Forall_cons_1]. assert (Hs : good_size s) by (by pose proof (seg_chunks _ Hseg) as [? _]%Forall_cons_1).
  assert (Htot : seg_total S = seg_total (S1 ++ S2) + old) by (unfold S, old; rewrite !seg_total_app; cbn [seg_total snd]; lia).
  assert (Hnn : 0 ≤ seg_total (S1 ++ S2)) by (apply seg_total_pos, Forall_app; done). pose proof Hts as [Hts0 _].
  wp_load "H11". wp_load "H3". wp_store "H11". rewrite (_ : seg_total S + (m - old) = seg_total (S1 ++ S2) + m); [|lia]. rewrite (u64_small (seg_total (S1 ++ S2) + m)); [|lia]. wp_load "H11". wp_load "H17".
  iApply wp_bind_intro. iApply (wp_wand _ (λ _, ∃ v, real_peak heap ↦ v)%I _ Ψ with "[H17]"). { destruct (_ >? rp); [wp_store "H17"; by iExists _|wp_ret; by iExists _]. }
  iSplit; [|by iIntros "$"]. iIntros ([]) "H17". wp_store "H3". iDestruct "H8" as "(H8 & H19 & H20)". wp_bind. iApply (relink_spec with "H1 H2 H19"); [done|]. iIntros "H1 H2 (%v & H19 & %Hv)".
  assert (v = ZEND_MM_GUARD_BLOCK) as -> by tauto. wp_bind. iApply (fill_segment_spec heap heap_pos S1 S2 p s m ts vs with "[H1 H2 H3 H4 H5 H6 H7] [$H8 $H19 $H20] H9"); [done..|lia|done|done|done|done|done| |].
  { unfold MmSegments.beside. rewrite seg_list_app. iFrame "H7". iExists slot'. iFrame "H1". cbn [seg_list]. iFrame. by iApply "H6". }
  iIntros (ts' S' vs' (Hf & Hle' & Hvs)) "H1 H2". wp_bind. iApply (count_growth_spec with "H15 H16"). iIntros "H15 H16". wp_ret. change (ZEND_MM_DATA_OF (first_block p)) with (first_block p + 16).
  pose proof (filled_total _ _ _ _ _ Hf) as HT. iApply ("HΦ" $! _ ts' vs' with "[%] [-H2] [H2]"); [split; [by eapply (filled_given _ _ _ _ S'); [apply Hf|..]|done]| |];
    (rewrite (_ : first_block p + 16 - 16 = first_block p); [|lia]); [|done].
  iExists S', Cs. unfold MmHeap.heap_at, MmHeap.counters. pose proof (resized_counted drift S _ _ _ _ _ _ _ (lone_useds S1 a s r S2) Hf) as HC. rewrite HT HC. iFrame. iPureIntro.
  destruct Hok as [_ Hlen Hu _ Hc]. constructor; try done; [apply Hf| |lia].
  rewrite (filled_useds _ _ _ _ _ Hf). cbn [app]. f_equiv. apply (Permutation_cons_inv (a := (first_block a, s))). rewrite -[X in _ ≡ₚ X]Hu. by rewrite lone_useds.
Qed.

Lemma realloc_segment_spec drift S1 a s r S2 Cs L n ts vs (Φ : Z → hpropI) Ψ : let S := S1 ++ (a, Used s :: rest_blocks r) :: S2 in
  heap_ok S Cs ((first_block a, s) :: L) → lim ≤ storage_capacity → ts = ZEND_MM_TRUE_SIZE n → n + 16 ≤ ts → good_size ts → ts ≤ 2 ^ 62 + 64 → s + total (rest_blocks r) ≤ ts →
  beside S1 a (seg_size (Used s :: rest_blocks r)) S2 -∗ lone heap (first_block a) s r (all_frees (S1 ++ S2)) -∗ caches Cs -∗ counters drift S Cs -∗ storage_inv -∗ contents (first_block a) s vs -∗
  (reallocated drift vs n L Φ ∧ failing_with (first_block a) s vs L Ψ) -∗
  wp (realloc_segment heap storage_free storage_realloc zend_error (first_block a) (first_block a + s) ts s) Φ Ψ.
Proof using heap_pos block_size_ok lim_ok.
  iIntros (S Hok Hcap Hn0 Hn Hts Hbig Hle) "H1 H2 H3 (H4 & H5 & (%l & %Hl & H6) & H7 & H8) H9 H10 HΦ".
  pose proof (heap_segments _ _ _ Hok) as HS. pose proof (heap_total _ _ _ Hok) as Htot. pose proof (new_segment_size_bound k ts block_size_ok Hts Hbig) as Hss. cbv zeta in Hss.
  pose proof HS as HS0. apply Forall_app in HS0 as [HS1 [Hseg HS2]%Forall_cons_1]. pose proof (seg_chunks _ Hseg) as [Hs Hr]%Forall_cons_1. cbn [snd] in Hs, Hr. set (old := seg_size (Used s :: rest_blocks r)) in *.
  assert (Hold : old = s + total (rest_blocks r) + 32) by (unfold old, seg_size; cbn [total chunk_size]; lia). assert (HtotS : seg_total S = seg_total (S1 ++ S2) + old) by (unfold S, old; rewrite !seg_total_app; cbn [seg_total snd]; lia).
  assert (Hnn : 0 ≤ seg_total (S1 ++ S2)) by (apply seg_total_pos, Forall_app; done). unfold realloc_segment. wp_load "H7". destruct (new_segment_size block_size ts) as [m keep]. cbn [fst] in Hss. destruct Hss as [Hm Hm8].
  rewrite (_ : first_block a - ZEND_MM_ALIGNED_SEGMENT_SIZE = a); [|unfold first_block; change ZEND_MM_ALIGNED_SEGMENT_SIZE with 16; lia].
  wp_load "H4". iDestruct "H1" as "[H1 Hrows]". rewrite seg_list_app. iDestruct "H1" as (slot') "[H1 (H11 & H12 & H13 & H14)]". wp_load "H12". wp_load "H6". cbn [fst]. destruct Hts as [Hts0 Hts8]. destruct Hs as [Hs0 Hs8] eqn:HsE. clear HsE. cbn [chunk_size] in Hs0. pose proof (total_ok _ Hr) as [Hr0 _].
  rewrite (u64_small (seg_total S + m - old)); [|lia]. destruct ((m <? ts) || (seg_total S + m - old >? l)) eqn:Hfail.
  { iDestruct "HΦ" as "[_ HE]". iApply (lone_restore heap heap_pos S1 a s r S2 with "[H1 Hrows H11 H12 H13 H14] H2"); [done|unfold MmSegments.beside; rewrite seg_list_app; iFrame; iExists slot'; iFrame|].
    iIntros "H1". iApply (no_memory_spec with "H1 H3 [H4 H5 H6 H7 H8] H9"); [done..|unfold MmHeap.counters; by iFrame|]. iIntros (drift') "H". wp_bind. iApply ("HE" with "H H10"). }
  apply orb_false_iff in Hfail as [_ Hlim]. iDestruct "HΦ" as "[HΦ _]". iDestruct (seg_path_fresh with "[$H1 $H12]") as %Ha. iDestruct (seg_list_top with "H14") as (link) "[H14 H15]".
  wp_bind. iApply (resize_segment_spec with "H9 H12 H14 H13 H2 H10"); [done|done|fold old; lia|done|lia|]. iIntros (p Hp) "H9 H12 H14 H13 H2 H10". destruct (Z.eqb_spec p 0); [lia|].
  iApply (regrown_spec with "H1 H11 H12 H14 H13 H15 Hrows H2 H10 H3 [H4 H5 H6 H7 H8] H9 HΦ"); [done|done|done|done|lia|lia|done|done|fold S; fold old; lia|done|].
  unfold MmHeap.counters. by iFrame.
Qed.

(** ** In place *)

Lemma resized_heap S Cs L b s s' S' : heap_ok S Cs ((b, s) :: L) → resized b s s' S S' → heap_ok S' Cs ((b, s') :: L) ∧ seg_total S' = seg_total S.
Proof using Type.
  intros [_ Hlen Hu Htot Hc] (U & HU & [HS' HuS' Htot']). split; [|done]. constructor; try done; [|lia]. rewrite HuS'. cbn [app]. f_equiv.
  apply (Permutation_cons_inv (a := (b, s))). by rewrite -HU Hu.
Qed.

Lemma in_place_live drift S Cs L b s n ts vs (Φ : Z → hpropI) : heap_ok S Cs ((b, s) :: L) → ts = ZEND_MM_TRUE_SIZE n → n + 16 ≤ ts →
  caches Cs -∗ real_size heap ↦ seg_total S -∗ cached heap ↦ sizes (cached_blocks Cs) -∗ (∃ l, ⌜0 ≤ l ≤ lim⌝ ∗ limit heap ↦ l) -∗ block_size_field heap ↦ block_size -∗
  (∃ v, real_peak heap ↦ v) -∗ storage_inv -∗ reallocated drift vs n L Φ -∗
  (∀ S' s' vs', ⌜resized b s s' S S' ∧ ts ≤ s' ∧ same_contents vs vs'⌝ -∗ segments S' -∗ contents b s' vs' -∗ heap_size heap ↦ u64 (u64 (drift + sizes (all_useds S)) + (s' - s)) -∗ (∃ v, peak heap ↦ v) -∗ Φ (b + 16)).
Proof using Type.
  iIntros (Hok Hn0 Hn) "H1 H2 H3 H4 H5 H6 H7 HΦ". iIntros (S' s' vs' (Hr & Hle & Hvs)) "H8 H9 H10 H11". destruct (resized_heap _ _ _ _ _ _ _ Hok Hr) as [Hok' Ht]. destruct Hr as (U & HU & Hf).
  iApply ("HΦ" with "[%] [-H9] [H9]"); [split; [by eapply (filled_given _ _ _ _ S'); [apply Hok'|..]|done]| |]; (rewrite (_ : b + 16 - 16 = b); [|lia]); [|done].
  iExists S', Cs. unfold MmHeap.heap_at, MmHeap.counters. rewrite Ht (resized_counted _ _ _ _ _ _ _ _ _ HU Hf). by iFrame.
Qed.

(** ** The growth of a block that the cache cannot serve *)

Lemma row_assoc a s s2 bs1 bs2 G : row heap a (bs1 ++ Used s :: Free s2 :: bs2) G = row heap a ((bs1 ++ [Used s]) ++ Free s2 :: bs2) G.
Proof using Type. by rewrite -app_assoc. Qed.

Lemma row_guard_spec a bs1 bs2 G (Φ : bool → hpropI) Ψ : Forall chunk_ok bs2 →
  row heap a (bs1 ++ bs2) G -∗ (row heap a (bs1 ++ bs2) G -∗ Φ (bool_decide (bs2 = []))) -∗ wp (ZEND_MM_IS_GUARD_BLOCK (a + total bs1)) Φ Ψ.
Proof using Type.
  iIntros (H2) "H HΦ". unfold ZEND_MM_IS_GUARD_BLOCK. iDestruct (row_size with "H") as "[H3 H]". wp_load "H3". iSpecialize ("H" with "H3"). wp_ret. rewrite first_tag_guard //. by iApply "HΦ".
Qed.

(** whether the block is the first of its segment, and what follows [bs2] the guard *)
Lemma whole_used_spec {A} a bs1 l bs2 G (m : W bool) (f : bool → W A) (Φ : A → hpropI) Ψ : Forall chunk_ok bs1 → let R := row heap a (bs1 ++ l) G in
  (∀ (Φ' : bool → hpropI) Ψ', R -∗ (R -∗ Φ' (bool_decide (bs2 = @nil chunk))) -∗ wp m Φ' Ψ') →
  R -∗ (R -∗ wp (f (bool_decide (bs1 = [] ∧ bs2 = []))) Φ Ψ) -∗
  wp (let! first := ZEND_MM_IS_FIRST_BLOCK (a + total bs1) in
      let! whole := (if (first : bool) then m else ret false) in f whole)%eff Φ Ψ.
Proof using Type.
  intros H1 R Hm. iIntros "H HΦ". unfold ZEND_MM_IS_FIRST_BLOCK. wp_bind. iDestruct (row_prev with "H") as "[H3 H]". wp_load "H3". iSpecialize ("H" with "H3"). wp_ret. rewrite tag_first //.
  destruct (decide (bs1 = [])) as [He|He]; [rewrite (bool_decide_eq_true_2 (bs1 = [])) //|rewrite (bool_decide_eq_false_2 (bs1 = [])) //].
  - wp_bind. iApply (Hm with "H"). iIntros "H". iSpecialize ("HΦ" with "H"). by rewrite (bool_decide_ext (bs1 = [] ∧ bs2 = []) (bs2 = [])); [|split; [by intros [_ ?]|done]].
  - wp_bind. wp_ret. iSpecialize ("HΦ" with "H"). rewrite bool_decide_eq_false_2; [done|by intros [? _]].
Qed.

(** a free block after it *)
Lemma realloc_large_free_spec drift S1 a bs1 s s2 bs2 S2 Cs L n ts vs (Φ : Z → hpropI) Ψ :
  let S := S1 ++ (a, bs1 ++ Used s :: Free s2 :: bs2) :: S2 in let b := first_block a + total bs1 in
  heap_ok S Cs ((b, s) :: L) → lim ≤ storage_capacity → 0 ≤ n < 2 ^ 64 → ts = ZEND_MM_TRUE_SIZE n → n + 16 ≤ ts → good_size ts → ts ≤ 2 ^ 62 + 64 → s ≤ ts →
  segments S -∗ caches Cs -∗ counters drift S Cs -∗ storage_inv -∗ contents b s vs -∗ (reallocated drift vs n L Φ ∧ failing_with b s vs L Ψ) -∗
  wp (realloc_large heap storage_alloc storage_free storage_realloc zend_error (b + 16) b ts s n) Φ Ψ.
Proof using heap_pos block_size_ok lim_ok.
  iIntros (S b Hok Hcap Hn Hn0 Hn1 Hts Hbig Hle) "H1 H2 H3 H4 H5 HΦ". pose proof (heap_segments _ _ _ Hok) as HS. destruct (block_ok a s bs1 (Free s2 :: bs2) S1 S2 HS) as (HS1 & HS2 & Hh & _ & Hc2).
  pose proof Hh as [_ Hb1 Hs Hb2 Hbound]. apply Forall_cons_1 in Hb2 as [Hs2 Hb2]. pose proof (total_ok _ Hb1) as [Hnn1 _]. pose proof (total_ok _ Hb2) as [Hnn2 _]. pose proof Hs as [Hs0 _]. pose proof Hs2 as [Hs20 _]. cbn [chunk_size total] in *.
  unfold realloc_large, ZEND_MM_BLOCK_AT. unfold S. rewrite segments_open. iDestruct "H1" as "[H1 H6]".
  wp_bind. iApply (next_used_free_spec with "H6"); [by constructor|]. iIntros "H6". cbn [first_free is_free]. rewrite row_assoc.
  rewrite {1}(_ : b + s = first_block a + total (bs1 ++ [Used s])); [|rewrite total_app; cbn [total chunk_size]; unfold b; lia]. wp_bind. iApply (check_linkage_spec with "H6"); [apply Forall_app; split; [done|by apply Forall_singleton]|]. iIntros "H6". rewrite -row_assoc.
  wp_bind. iApply (next_used_size_spec with "H6"). iIntros "H6". rewrite u64_small; [|lia]. destruct (Z.geb_spec (s + s2) ts) as [Hge|Hlt].
  - iDestruct "H3" as "(H7 & H8 & H9 & H10 & H11 & H12 & H13)". iDestruct "HΦ" as "[HΦ _]".
    iApply (realloc_grow_spec heap heap_pos a s bs1 (Free s2 :: bs2) S1 S2 (b + 16) ts vs HS _ Hts s2 bs2 with "[H1 H6] H5 H11 H12"); [done|lia|rewrite segments_open; iFrame|].
    iApply (in_place_live with "H2 H7 H8 H9 H10 H13 H4 HΦ"); done.
  - iApply (whole_used_spec _ _ _ bs2 with "H6"); [done| |].
    { intros Φ' Ψ'. iIntros "H6 HΦ'". wp_bind. iApply (next_used_size_spec with "H6"). iIntros "H6". rewrite (_ : bs1 ++ Used s :: Free s2 :: bs2 = (bs1 ++ [Used s; Free s2]) ++ bs2); [|by rewrite -app_assoc].
      rewrite (_ : first_block a + total bs1 + s + s2 = first_block a + total (bs1 ++ [Used s; Free s2])); [|rewrite total_app; cbn [total chunk_size]; lia]. by iApply (row_guard_spec with "H6"). }
    iIntros "H6". case_bool_decide as Hwhole.
    + destruct Hwhole as [-> ->]. wp_bind. iApply (take_next_spec with "H6"); [done|]. iIntros "H6". unfold b in *. cbn [total app] in *. rewrite Z.add_0_r in Hok |- *.
      iApply (realloc_segment_spec drift S1 a s (Some s2) S2 with "H1 H6 H2 H3 H4 H5 HΦ"); [done..|cbn [rest_blocks total chunk_size]; lia].
    + iApply (realloc_move_spec with "[H1 H2 H3 H4 H6] H5 HΦ"); [done|done|lia|]. iExists S, Cs. unfold MmHeap.heap_at. iFrame "H2 H3 H4". iSplit; [done|]. unfold S. rewrite segments_open. iFrame.
Qed.

(** no free block after it *)
Lemma realloc_large_used_spec drift S1 a bs1 s bs2 S2 Cs L n ts vs (Φ : Z → hpropI) Ψ :
  let S := S1 ++ (a, bs1 ++ Used s :: bs2) :: S2 in let b := first_block a + total bs1 in
  heap_ok S Cs ((b, s) :: L) → first_free bs2 = false → lim ≤ storage_capacity → 0 ≤ n < 2 ^ 64 → ts = ZEND_MM_TRUE_SIZE n → n + 16 ≤ ts → good_size ts → ts ≤ 2 ^ 62 + 64 → s ≤ ts →
  segments S -∗ caches Cs -∗ counters drift S Cs -∗ storage_inv -∗ contents b s vs -∗ (reallocated drift vs n L Φ ∧ failing_with b s vs L Ψ) -∗
  wp (realloc_large heap storage_alloc storage_free storage_realloc zend_error (b + 16) b ts s n) Φ Ψ.
Proof using heap_pos block_size_ok lim_ok.
  iIntros (S b Hok Hf Hcap Hn Hn0 Hn1 Hts Hbig Hle) "H1 H2 H3 H4 H5 HΦ". pose proof (heap_segments _ _ _ Hok) as HS. destruct (block_ok a s bs1 bs2 S1 S2 HS) as (HS1 & HS2 & Hh & _ & _).
  pose proof Hh as [_ Hb1 Hs Hb2 _]. unfold realloc_large, ZEND_MM_BLOCK_AT. unfold S. rewrite segments_open. iDestruct "H1" as "[H1 H6]".
  wp_bind. iApply (next_used_free_spec with "H6"); [done|]. iIntros "H6". rewrite Hf. iApply (whole_used_spec _ _ _ bs2 with "H6"); [done| |].
  { intros Φ' Ψ'. iIntros "H6 HΦ'". rewrite (_ : bs1 ++ Used s :: bs2 = (bs1 ++ [Used s]) ++ bs2); [|by rewrite -app_assoc].
    rewrite (_ : b + s = first_block a + total (bs1 ++ [Used s])); [|rewrite total_app; cbn [total chunk_size]; unfold b; lia]. by iApply (row_guard_spec with "H6"). }
  iIntros "H6". case_bool_decide as Hwhole.
  - destruct Hwhole as [-> ->]. unfold b in *. cbn [total app] in *. rewrite Z.add_0_r in Hok |- *. iApply (realloc_segment_spec drift S1 a s None S2 with "H1 H6 H2 H3 H4 H5 HΦ"); [done..|cbn [rest_blocks total]; lia].
  - iApply (realloc_move_spec with "[H1 H2 H3 H4 H6] H5 HΦ"); [done|done|lia|]. iExists S, Cs. unfold MmHeap.heap_at. iFrame "H2 H3 H4". iSplit; [done|]. unfold S. rewrite segments_open. iFrame.
Qed.

(** ** [_zend_mm_realloc_int] *)

(** the first block of the list of its size in the cache, or [NULL] *)
Lemma cache_head_spec Cs ts (Φ : Z → hpropI) Ψ : length Cs = 64%nat → good_size ts →
  caches Cs -∗
  (∀ q, ⌜q = 0 ∨ ts < 544 ∧ ∃ i q' l, Cs !! i = Some (q' :: l) ∧ q = q' ∧ small_size_of i = ts ∧ ZEND_MM_BUCKET_INDEX ts = i⌝ -∗ caches Cs -∗ Φ q) -∗
  wp (if ZEND_MM_SMALL_SIZE ts then rd (cache heap (ZEND_MM_BUCKET_INDEX ts)) else ret 0) Φ Ψ.
Proof using Type.
  iIntros (Hlen Hts) "H HΦ". rewrite small_size. destruct (Z.ltb_spec ts 544) as [Hlt|_]; [|wp_ret; iApply ("HΦ" with "[%] H"); by left].
  destruct (small_index ts Hts Hlt) as (i & Hi & Hi64 & Hsi). destruct (lookup_lt_is_Some_2 Cs i) as [l Hl]; [by rewrite Hlen|]. rewrite Hi.
  iDestruct (cache_focus with "H") as "[[H1 H2] H]"; [done|]. wp_load "H1". iSpecialize ("H" $! l with "[$H1 $H2]"). rewrite list_insert_id //. iApply ("HΦ" with "[%] H").
  destruct l as [|q l]; [by left|]. right. split; [done|]. by exists i, q, l.
Qed.

(** a request that the arithmetic of segments can take, or one that wraps around at once *)
Definition fair_request (n : Z) : Prop := 0 ≤ n ≤ 2 ^ 62 ∨ n < 2 ^ 64 ∧ 0 ≤ n ∧ ZEND_MM_TRUE_SIZE n < n.

Lemma fair_size n : fair_request n → 0 ≤ n < 2 ^ 64 ∧ (ZEND_MM_TRUE_SIZE n < n ∨ n + 16 ≤ ZEND_MM_TRUE_SIZE n ≤ 2 ^ 62 + 64 ∧ good_size (ZEND_MM_TRUE_SIZE n)).
Proof using Type.
  intros [Hn|(? & ? & ?)]; [|split; [lia|by left]]. split; [lia|]. destruct (true_size_spec n ltac:(lia)) as [[Hge Hts]|[_ ?]]; [|by left]. right. split; [|done]. split; [done|].
  unfold ZEND_MM_TRUE_SIZE. change ZEND_MM_MIN_SIZE with 16. change ZEND_MM_ALIGNED_MIN_HEADER_SIZE with 32. change ZEND_MM_ALIGNED_HEADER_SIZE with 16. change END_MAGIC_SIZE with 0.
  destruct (n <? 16); [lia|]. rewrite u64_small; [|lia]. pose proof (aligned_size (n + 16 + 0) ltac:(lia)). lia.
Qed.

Lemma heap_realloc_spec drift L b s n vs (Φ : Z → hpropI) Ψ : lim ≤ storage_capacity → fair_request n →
  heap_live drift ((b, s) :: L) -∗ contents b s vs -∗ (reallocated drift vs n L Φ ∧ failing_with b s vs L Ψ) -∗
  wp (_zend_mm_realloc_int heap storage_alloc storage_free storage_realloc zend_error (b + 16) n) Φ Ψ.
Proof using heap_pos block_size_ok lim_ok.
  iIntros (Hcap Hfair) "(%S & %Cs & %Hok & H1 & H2 & H3 & H4) H5 HΦ". destruct (fair_size n Hfair) as [Hn Hts].
  pose proof (heap_useds _ _ _ Hok) as Hu. pose proof (heap_segments _ _ _ Hok) as HS. assert (Hin : (b, s) ∈ all_useds S) by (rewrite Hu; apply list_elem_of_here).
  destruct (used_ok S b s HS Hin) as (Hpos & _ & Hs). unfold _zend_mm_realloc_int. destruct (Z.eqb_spec (b + 16) 0); [lia|].
  unfold ZEND_MM_HEADER_OF, ZEND_MM_BLOCK_AT. change ZEND_MM_ALIGNED_HEADER_SIZE with 16. rewrite (_ : b + 16 + - (16) = b); [|lia].
  iDestruct (used_size with "H1") as "[Hs H1]"; [done|]. wp_bind. iApply (block_size_spec _ (Used s) with "Hs"); [done|]. iIntros "Hs". iSpecialize ("H1" with "Hs"). cbn [chunk_size].
  destruct (Z.ltb_spec (ZEND_MM_TRUE_SIZE n) n) as [Hover|Hfit].
  { iDestruct "HΦ" as "[_ HE]". wp_bind. iApply ("HE" with "[H1 H2 H3 H4] H5"). iExists S, Cs. by iFrame. }
  destruct Hts as [|[[Hge Hbig] Hts]]; [lia|]. remember (ZEND_MM_TRUE_SIZE n) as ts eqn:Ets. destruct (all_useds_split _ _ _ Hin) as (S1 & a & bs1 & bs2 & S2 & -> & ->). destruct (Z.leb_spec ts s) as [Hle|Hgt].
  - iDestruct "H3" as "(H7 & H8 & H9 & H10 & H11 & H12 & H13)". iDestruct "HΦ" as "[HΦ _]". iApply (realloc_shrink_spec with "H1 H5 H11 H12"); [first [done|apply u64_idem]..|].
    iApply (in_place_live with "H2 H7 H8 H9 H10 H13 H4 HΦ"); done.
  - wp_bind. iApply (cache_head_spec with "H2"); [apply Hok|done|]. iIntros (q Hq) "H2". destruct Hq as [->|(Hsmall & i & q' & l & Hl & -> & Hsi & Hi)].
    + cbn [Z.eqb negb]. destruct (first_free bs2) eqn:Hf.
      * destruct bs2 as [|[s2|s2] bs2]; [done| |done]. iApply (realloc_large_free_spec with "H1 H2 H3 H4 H5 HΦ"); try done; lia.
      * iApply (realloc_large_used_spec with "H1 H2 H3 H4 H5 HΦ"); try done; lia.
    + destruct (heap_ok_pop _ Cs _ i q' l Hl Hok) as [Hok' _]. destruct (used_ok _ q' (small_size_of i) HS) as (Hq & _); [rewrite (heap_useds _ _ _ Hok'); apply list_elem_of_here|].
      destruct (Z.eqb_spec q' 0); [lia|]. cbn [negb]. iDestruct "HΦ" as "[HΦ _]". iApply (realloc_cached_spec with "H1 H2 H3 H4 H5"); [done..|].
      iIntros (vs' Hvs) "H1 H2". iApply ("HΦ" $! _ ts vs' with "[%] [H1] [H2]"); [|by rewrite (_ : q' + 16 - 16 = q'); [|lia]..]. split; [|done]. split; [lia|].
      destruct (used_ok _ q' (small_size_of i) HS) as (_ & Hal & _); [rewrite (heap_useds _ _ _ Hok'); apply list_elem_of_here|]. split; [apply Z.divide_add_r; [done|by exists 2]|].
      split; [done|]. change ZEND_MM_ALIGNED_HEADER_SIZE with 16. split; [lia|done].
Qed.

(** ** The whole heap *)

Section error.
Hypothesis zend_error_spec : ∀ L, mm heap lim k L ⊢ wp zend_error (λ _, grown heap lim k L) (grown heap lim k L).

Lemma mm_realloc_spec drift L b s n vs (Φ : Z → hpropI) Ψ : lim ≤ storage_capacity → fair_request n →
  mm_at heap lim k drift ((b, s) :: L) -∗ contents b s vs -∗
  ((∀ p s' vs', ⌜given n p s' ∧ same_contents vs vs'⌝ -∗ mm_at heap lim k drift ((p - 16, s') :: L) -∗ contents (p - 16) s' vs' -∗ Φ p) ∧
   (grown heap lim k ((b, s) :: L) -∗ contents b s vs -∗ Ψ)) -∗
  wp (_zend_mm_realloc_int heap storage_alloc storage_free storage_realloc zend_error (b + 16) n) Φ Ψ.
Proof using heap_pos block_size_ok lim_ok zend_error_spec.
  iIntros (Hcap Hn) "(%r & %o & H1 & H2 & H3) H5 HΦ".
  assert (Hfail : ∀ Φ' : unit → hpropI, mm heap lim k ((b, s) :: L) -∗ contents b s vs -∗ (grown heap lim k ((b, s) :: L) -∗ contents b s vs -∗ Ψ) -∗ wp safe_error Φ' Ψ).
  { intros Φ'. iIntros "H H5 HΨ". iApply (wp_wand _ Φ' _ (grown heap lim k ((b, s) :: L)) with "[H]"); [by iApply safe_error_spec|]. iSplit; [by iIntros (a) "$"|].
    iIntros "H". iApply ("HΨ" with "H H5"). }
  iDestruct "H3" as "[[-> H3]|(%s0 & %Hr & H3 & H4)]".
  - iApply (heap_realloc_spec with "H3 H5"); [done..|]. iSplit; [iDestruct "HΦ" as "[HΦ _]"|iDestruct "HΦ" as "[_ HΨ]"].
    + iIntros (p s' vs' Hp) "H3 H4". iApply ("HΦ" with "[//] [H1 H2 H3] H4"). iExists 0, o. iFrame. iLeft. by iFrame.
    + iIntros (drift' Φ') "H3 H5". iApply (Hfail with "[H1 H2 H3] H5 HΨ"). iExists drift', 0, o. iFrame. iLeft. by iFrame.
  - iDestruct (heap_live_perm _ _ _ _ _ ((b, s) :: (r - 16, s0) :: L) with "H3") as "H3"; [apply Permutation_swap|].
    iApply (heap_realloc_spec with "H3 H5"); [done..|]. iSplit; [iDestruct "HΦ" as "[HΦ _]"|iDestruct "HΦ" as "[_ HΨ]"].
    + iIntros (p s' vs' Hp) "H3 H5". iApply ("HΦ" with "[//] [H1 H2 H3 H4] H5"). iExists r, o. iFrame. iRight. iExists s0. iFrame. iSplit; [done|].
      iApply (heap_live_perm with "H3"). apply Permutation_swap.
    + iIntros (drift' Φ') "H3 H5". iApply (Hfail with "[H1 H2 H3 H4] H5 HΨ"). iExists (drift' + s0), r, o. iFrame. iRight. iExists s0. rewrite Z.add_simpl_r. iFrame. iSplit; [done|]. iApply (heap_live_perm with "H3"). apply Permutation_swap.
Qed.

End error.
End realloc.
