(* ===== verification/MmApi.v ===== *)
(** * The allocation manager on its heap

    The functions that the engine calls, when the heap is in use: allocation with the check
    for overflow and with zeros, the limit, the sizes. *)

From iris.proofmode Require Import proofmode.
From S2P Require Import Prelude WordLogic MmModel MmBits MmRepr MmTrie MmFree MmSearch MmLayout MmHole MmJoin MmSegments MmRelease MmHeap MmTake MmAlloc MmReallocModel MmResize MmRegrow MmRealloc.
Local Open Scope Z_scope.

(** ** Sizes *)

(** the instructions: no overflow of the sum, and the sum *)
Lemma address_parts nmemb size offset : 0 ≤ nmemb < 2 ^ 64 → 0 ≤ size < 2 ^ 64 → 0 ≤ offset < 2 ^ 64 →
  let rax := u64 (nmemb * size) in let n := nmemb * size + offset in
  u64 (nmemb * size / 2 ^ 64 + (rax + offset) / 2 ^ 64) = n / 2 ^ 64 ∧ u64 (rax + offset) = n mod 2 ^ 64.
Proof.
  intros Hn Hs Ho rax n. pose proof (Z.div_mod (nmemb * size) (2 ^ 64) ltac:(lia)) as Hdm. fold (u64 (nmemb * size)) in Hdm. fold rax in Hdm.
  assert (Hrax : 0 ≤ rax < 2 ^ 64) by apply u64_range. set (q := nmemb * size / 2 ^ 64) in *. assert (Hsplit : n = (rax + offset) + q * 2 ^ 64) by (unfold n; lia).
  assert (Hq : n / 2 ^ 64 = q + (rax + offset) / 2 ^ 64) by (rewrite Hsplit Z.div_add; lia). split.
  - rewrite -Hq u64_small; [done|]. assert (n < 2 ^ 64 * 2 ^ 64) by (unfold n; nia). split; [apply Z.div_pos; unfold n; nia|]. apply Z.div_lt_upper_bound; lia.
  - unfold u64. by rewrite Hsplit Z.mod_add; [|lia].
Qed.

(** ** Clearing *)

Lemma clear_words_spec n p vs (Φ : unit → hpropI) Ψ : length vs = n →
  words_at p vs -∗ (words_at p (replicate n 0) -∗ Φ tt) -∗ wp (clear_words n p) Φ Ψ.
Proof.
  revert n p Φ. induction vs as [|v vs IH]; intros n p Φ <-; iIntros "H HΦ"; cbn [words_at length clear_words replicate].
  - wp_ret. by iApply "HΦ".
  - iDestruct "H" as "[H1 H2]". wp_store "H1". iApply (IH with "H2"); [done|]. iIntros "H2". iApply "HΦ". iFrame.
Qed.

(** the words of [vs'] below [size] bytes are 0 *)
Definition cleared (size : Z) (vs : list Z) : Prop := ∀ j : nat, 8 * (Z.of_nat j + 1) ≤ size → vs !! j = Some 0.

Lemma cleared_app size vs : cleared size (replicate (Z.to_nat (size / 8)) 0 ++ vs).
Proof.
  intros j Hj. assert (Z.of_nat j < size / 8) by (pose proof (Z.div_le_lower_bound size 8 (Z.of_nat j + 1)); lia).
  rewrite lookup_app_l; [apply lookup_replicate_2; lia|rewrite length_replicate; lia].
Qed.

Lemma memset_zero_spec p size vs (Φ : unit → hpropI) Ψ : 0 ≤ size ≤ 8 * Z.of_nat (length vs) →
  words_at p vs -∗ (∀ vs', ⌜length vs' = length vs ∧ cleared size vs'⌝ -∗ words_at p vs' -∗ Φ tt) -∗ wp (memset_zero p size) Φ Ψ.
Proof.
  iIntros (Hsize) "H HΦ". unfold memset_zero. set (n := Z.to_nat (size / 8)). pose proof (Z.div_mod size 8 ltac:(lia)) as Hdm. pose proof (Z.mod_pos_bound size 8 ltac:(lia)) as Hmod.
  pose proof (Z.div_pos size 8) as Hq. assert (Hlen : length (take n vs) = n) by (rewrite length_take; lia). rewrite -{1}(take_drop n vs) words_at_app Hlen. iDestruct "H" as "[H1 H2]".
  wp_bind. iApply (clear_words_spec with "H1"); [done|]. iIntros "H1". destruct (Z.eqb_spec (8 * (size mod 8)) 0).
  - wp_ret. iApply ("HΦ" $! (replicate n 0 ++ drop n vs) with "[%] [H1 H2]"); [|rewrite words_at_app length_replicate; iFrame]. split; [|apply cleared_app]. rewrite length_app length_replicate length_drop. lia.
  - assert (is_Some (vs !! n)) as [v Hv] by (apply lookup_lt_is_Some_2; lia). rewrite (drop_S _ _ _ Hv). cbn [words_at]. iDestruct "H2" as "[H2 H3]".
    rewrite (_ : 8 * Z.of_nat n = 8 * (size / 8)); [|lia]. wp_load "H2". iApply (wp_store with "H2"). iIntros "H2".
    iApply ("HΦ" $! (replicate n 0 ++ _ :: drop (S n) vs) with "[%] [H1 H2 H3]").
    + split; [|apply cleared_app]. rewrite length_app length_replicate. cbn [length]. rewrite length_drop. lia.
    + rewrite words_at_app length_replicate. cbn [words_at]. rewrite (_ : 8 * Z.of_nat n = 8 * (size / 8)); [|lia]. iFrame.
Qed.

Section api.
Context (heap k : Z).
Hypothesis heap_pos : 0 < heap.
Context {storage : Storage}.

(** ** Under the reserve *)

(** the heap with its reserve is a heap of which the reserve is one more block *)
Lemma mm_live lim drift L : mm_at heap lim k drift L ⊢
  ∃ d L0, ⌜(d + sizes L0 = drift + sizes L)%Z ∧ L ⊆ L0⌝ ∗ heap_live heap (2 ^ k) lim d L0 ∗ (∀ lim', heap_live heap (2 ^ k) lim' d L0 -∗ mm_at heap lim' k drift L).
Proof using Type.
  iIntros "(%r & %o & H1 & H2 & [[-> H3]|(%s & %Hr & H3 & H4)])".
  - iExists drift, L. iSplit; [done|]. iFrame "H3". iIntros (lim') "H3". iExists 0, o. iFrame. iLeft. by iFrame.
  - iExists _, _. iSplit; [|iFrame "H3"].
    + iPureIntro. cbn [sizes snd]. split; [lia|]. intros x Hx. by right.
    + iIntros (lim') "H3". iExists r, o. iFrame. iRight. iExists s. by iFrame.
Qed.

(** the counters, for any limit *)
Lemma mm_counters lim drift L : mm_at heap lim k drift L ⊢
  ∃ S Cs d, ⌜(d + sizes (all_useds S) = drift + sizes L + sizes (cached_blocks Cs))%Z⌝ ∗ counters heap (2 ^ k) lim d S Cs ∗
    (∀ lim', counters heap (2 ^ k) lim' d S Cs -∗ mm_at heap lim' k drift L).
Proof using Type.
  rewrite mm_live. iIntros "(%d & %L0 & [%Hd _] & (%S & %Cs & %Hok & H1 & H2 & H3 & H4) & H)". iExists S, Cs, d. iFrame "H3". iSplit.
  - iPureIntro. rewrite (heap_useds _ _ _ Hok) sizes_app. lia.
  - iIntros (lim') "H3". iApply "H". iExists S, Cs. by iFrame.
Qed.

Lemma counters_limit_spec lim lim' d S Cs x (Φ : unit → hpropI) Ψ : 0 ≤ x → Z.max x (2 ^ k) ≤ lim' →
  counters heap (2 ^ k) lim d S Cs -∗ (counters heap (2 ^ k) lim' d S Cs -∗ Φ tt) -∗ wp (zend_set_memory_limit heap x) Φ Ψ.
Proof using Type.
  iIntros (Hx Hlim) "(H1 & H2 & (%l & _ & H3) & H4 & H5) H". unfold zend_set_memory_limit. wp_load "H4".
  pose proof (Z.pow_nonneg 2 k). destruct (Z.geb_spec x (2 ^ k)); [|wp_load "H4"]; iApply (wp_store with "H3"); iIntros "H3"; iApply "H"; iFrame; iPureIntro; lia.
Qed.

Lemma set_memory_limit_spec lim lim' drift L x (Φ : unit → hpropI) Ψ : 0 ≤ x → Z.max x (2 ^ k) ≤ lim' →
  mm_at heap lim k drift L -∗ (mm_at heap lim' k drift L -∗ Φ tt) -∗ wp (zend_set_memory_limit heap x) Φ Ψ.
Proof using Type.
  iIntros (Hx Hlim) "H HΦ". iDestruct (mm_counters with "H") as (S Cs d _) "[H1 H]". iApply (counters_limit_spec with "H1"); [done..|]. iIntros "H1". iApply "HΦ". by iApply "H".
Qed.

(** the usage is the sizes of the blocks in use, and the drift *)
Lemma memory_usage_spec lim drift L (Φ : Z → hpropI) Ψ :
  mm_at heap lim k drift L -∗ (mm_at heap lim k drift L -∗ Φ (u64 (drift + sizes L))) -∗ wp (zend_memory_usage heap false) Φ Ψ.
Proof using Type.
  iIntros "H HΦ". iDestruct (mm_counters with "H") as (S Cs d Hd) "[(H1 & H2 & H3 & H4 & H5 & H6) H]". unfold zend_memory_usage. wp_load "H5". wp_load "H2". wp_ret.
  rewrite (_ : u64 (u64 (d + sizes (all_useds S)) - sizes (cached_blocks Cs)) = u64 (drift + sizes L)).
  - iApply "HΦ". iApply "H". iFrame.
  - unfold u64. rewrite Zminus_mod_idemp_l. f_equal. lia.
Qed.

Lemma real_usage_spec lim drift L (Φ : Z → hpropI) Ψ :
  mm_at heap lim k drift L -∗ (∀ n, ⌜0 ≤ n ≤ largest_limit⌝ -∗ mm_at heap lim k drift L -∗ Φ n) -∗ wp (zend_memory_usage heap true) Φ Ψ.
Proof using Type.
  iIntros "H HΦ". iDestruct (mm_live with "H") as (d L0 _) "[(%S & %Cs & %Hok & H1 & H2 & (H3 & H4) & H5) H]". unfold zend_memory_usage. iApply (wp_load with "H3"). iIntros "H3".
  iApply "HΦ"; [iPureIntro; split; [apply seg_total_pos; apply Hok|apply Hok]|]. iApply "H". iExists S, Cs. by iFrame.
Qed.

Lemma mm_used_size lim drift L b s : (b, s) ∈ L → mm_at heap lim k drift L ⊢ ⌜good_size s⌝.
Proof using Type.
  iIntros (Hin) "H". iDestruct (mm_live with "H") as (d L0 [_ HL]) "[(%S & %Cs & %Hok & _) _]". iPureIntro. apply (used_ok S b s (heap_segments _ _ _ Hok)).
  rewrite (heap_useds _ _ _ Hok) elem_of_app. left. by apply HL.
Qed.

(** the size of a block in use *)
Lemma block_size_in_use lim drift L b s (Φ : Z → hpropI) Ψ : (b, s) ∈ L →
  mm_at heap lim k drift L -∗ (mm_at heap lim k drift L -∗ Φ s) -∗ wp (_zend_mm_block_size (b + 16)) Φ Ψ.
Proof using Type.
  iIntros (Hin) "H HΦ". iDestruct (mm_live with "H") as (d L0 [_ HL]) "[(%S & %Cs & %Hok & H1 & H2) H]". assert (Hu : (b, s) ∈ all_useds S) by (rewrite (heap_useds _ _ _ Hok) elem_of_app; left; by apply HL).
  destruct (used_ok S b s (heap_segments _ _ _ Hok) Hu) as (Hpos & _ & Hs). unfold _zend_mm_block_size. destruct (Z.eqb_spec (b + 16) 0); [lia|].
  unfold ZEND_MM_HEADER_OF, ZEND_MM_BLOCK_AT. change ZEND_MM_ALIGNED_HEADER_SIZE with 16. rewrite (_ : b + 16 + - (16) = b); [|lia].
  iDestruct (used_size with "H1") as "[H3 H1]"; [done|]. iApply (block_size_spec _ (Used s) with "H3"); [done|]. iIntros "H3". iApply "HΦ". iApply "H". iExists S, Cs. iFrame. iSplit; [done|]. by iApply "H1".
Qed.

End api.
