(* ===== verification/MmProgram.v ===== *)
(** * Programs on the allocation manager

    A program holds the pointers of its blocks, writes and reads the words of them, and asks
    for blocks of other sizes.  It runs as it would on blocks that know their contents. *)

From iris.proofmode Require Import proofmode.
From S2P Require Import Prelude WordLogic MmModel MmBits MmRepr MmTrie MmFree MmSearch MmLayout MmHole MmJoin MmSegments MmRelease MmHeap MmTake MmAlloc MmReallocModel MmResize MmRegrow MmRealloc MmApi.
Local Open Scope Z_scope.
Local Open Scope effect_scope.

Inductive op : Type :=
| Emalloc (n : Z)
| Safe_emalloc (nmemb size offset : Z)
| Ecalloc (nmemb size : Z)
| Efree (i : nat)
| Erealloc (i : nat) (n : Z)
| Store (i j : nat) (v : Z)
| Load (i j : nat)
| Set_limit (n : Z).

(** ** The blocks of the specification *)

(** the size asked for, and the words of the block that have been written *)
Record ablock : Type := ABlock { asked : Z; known : gmap nat Z }.
(** word [j] of a block of [n] bytes *)
Definition within (n : Z) (j : nat) : Prop := 8 * (Z.of_nat j + 1) ≤ n.
#[export] Instance within_dec n j : Decision (within n j).
Proof. unfold within. apply _. Defined.

Definition zero_words (n : Z) : gmap nat Z := list_to_map ((λ j, (j, 0)) <$> seq 0 (Z.to_nat (n / 8))).
Definition resize (n : Z) (x : ablock) : ablock := ABlock n (filter (λ e, within n e.1) (known x)).
Definition write (j : nat) (v : Z) (x : ablock) : ablock := ABlock (asked x) (<[j := v]> (known x)).

(** the blocks after a call, and what a read says *)
Definition spec_step (o : op) (xs : list ablock) : list ablock * list (option Z) :=
  match o with
  | Emalloc n => (ABlock n ∅ :: xs, [])
  | Safe_emalloc nmemb size offset => (ABlock (nmemb * size + offset) ∅ :: xs, [])
  | Ecalloc nmemb size => (ABlock (nmemb * size) (zero_words (nmemb * size)) :: xs, [])
  | Efree i => (delete i xs, [])
  | Erealloc i n => (alter (resize n) i xs, [])
  | Store i j v => (alter (write j v) i xs, [])
  | Load i j => (xs, match xs !! i with Some x => [known x !! j] | None => [] end)
  | Set_limit _ => (xs, [])
  end.
Fixpoint spec_run (ops : list op) (xs : list ablock) : list ablock * list (option Z) :=
  match ops with
  | [] => (xs, [])
  | o :: ops' => let '(xs, out) := spec_step o xs in let '(xs, outs) := spec_run ops' xs in (xs, out ++ outs)
  end.

(** a value that was read, and the one of the specification if it has one *)
Definition agrees (e : option Z) (v : Z) : Prop := e = None ∨ e = Some v.

Definition size_t (n : Z) : Prop := 0 ≤ n < 2 ^ 64.

(** ** The program *)

Section program.
Context (heap lim k : Z).
Context {storage : Storage}.
Variable zend_error : W unit.
Variable zend_error_noreturn : W unit.
Variable _malloc : Z → W Z.
Variable _free : Z → W unit.
Variable _realloc : Z → Z → W Z.

Local Abbreviation emalloc := (_emalloc heap storage_alloc storage_free zend_error _malloc).
Local Abbreviation efree := (_efree heap storage_free _free).
Local Abbreviation erealloc := (_erealloc heap storage_alloc storage_free storage_realloc zend_error _realloc).
Local Abbreviation safe_emalloc := (_safe_emalloc heap storage_alloc storage_free zend_error _malloc zend_error_noreturn).
Local Abbreviation ecalloc := (_ecalloc heap storage_alloc storage_free zend_error _malloc zend_error_noreturn).
Local Abbreviation set_memory_limit := (zend_set_memory_limit heap).

(** a call, with the pointers of the blocks of the program: the pointers after, and what was read *)
Definition step (o : op) (ps : list Z) : W (list Z * list Z) :=
  match o with
  | Emalloc n => let! p := emalloc n in ret (p :: ps, [])
  | Safe_emalloc nmemb size offset => let! p := safe_emalloc nmemb size offset in ret (p :: ps, [])
  | Ecalloc nmemb size => let! p := ecalloc nmemb size in ret (p :: ps, [])
  | Efree i => match ps !! i with Some p => efree p ;;; ret (delete i ps, []) | None => ret (ps, []) end
  | Erealloc i n => match ps !! i with Some p => let! q := erealloc p n in ret (<[i := q]> ps, []) | None => ret (ps, []) end
  | Store i j v => match ps !! i with Some p => wr (p + 8 * Z.of_nat j) v ;;; ret (ps, []) | None => ret (ps, []) end
  | Load i j => match ps !! i with Some p => let! v := rd (p + 8 * Z.of_nat j) in ret (ps, [v]) | None => ret (ps, []) end
  | Set_limit n => set_memory_limit n ;;; ret (ps, [])
  end.
Fixpoint run (ops : list op) (ps : list Z) : W (list Z * list Z) :=
  match ops with
  | [] => ret (ps, [])
  | o :: ops' => let! '(ps, out) := step o ps in let! '(ps, outs) := run ops' ps in ret (ps, out ++ outs)
  end.

(** what the program must keep to: words within the size asked for, limits up to [lim] *)
Definition op_ok (o : op) (xs : list ablock) : Prop :=
  match o with
  | Emalloc n => size_t n
  | Safe_emalloc nmemb size offset => size_t nmemb ∧ size_t size ∧ size_t offset
  | Ecalloc nmemb size => size_t nmemb ∧ size_t size
  | Efree _ => True
  | Erealloc _ n => fair_request n ∧ lim ≤ storage_capacity
  | Store i j _ | Load i j => ∀ x, xs !! i = Some x → within (asked x) j
  | Set_limit n => 0 ≤ n ∧ Z.max n (2 ^ k) ≤ lim
  end.
Fixpoint ops_ok (ops : list op) (xs : list ablock) : Prop :=
  match ops with [] => True | o :: ops' => op_ok o xs ∧ ops_ok ops' (spec_step o xs).1 end.

(** ** The heap with the blocks of a program *)

Definition engine (drift : Z) (L : list (Z * Z)) : hpropI := use_zend_alloc heap ↦ 1 ∗ mm_at heap lim k drift L.
(** after a call was bailed out, with the blocks [L] of the program *)
Definition bailed (L : list (Z * Z)) : hpropI := ∃ L' drift, engine drift (L' ++ L) ∗ bodies L'.
(** a heap with blocks that nobody uses any more *)
Definition abandoned : hpropI := ∃ L drift, engine drift L ∗ bodies L.

(** a block of the program: its pointer, the size that the heap knows, and what the program knows *)
Record held : Type := Held { held_ptr : Z; held_size : Z; held_block : ablock }.
Definition held_header (x : held) : Z * Z := (held_ptr x - 16, held_size x).
Definition knows (m : gmap nat Z) (vs : list Z) : Prop := ∀ j v, m !! j = Some v → vs !! j = Some v.
Definition held_words (x : held) : hpropI :=
  ∃ vs, ⌜given (asked (held_block x)) (held_ptr x) (held_size x) ∧ knows (known (held_block x)) vs⌝ ∗ contents (held_ptr x - 16) (held_size x) vs.
(** the heap and the blocks of the program, all of them its own *)
Definition program_heap (drift : Z) (bl : list held) : hpropI := engine drift (held_header <$> bl) ∗ [∗ list] x ∈ bl, held_words x.

Lemma program_heap_perm drift bl bl' : bl ≡ₚ bl' → program_heap drift bl ⊢ program_heap drift bl'.
Proof using Type.
  intros Hbl. iIntros "[[H0 H1] H2]". iSplitL "H0 H1"; [|by rewrite (big_opL_permutation _ _ _ Hbl)]. iFrame "H0". iApply (mm_at_perm with "H1"). by rewrite Hbl.
Qed.

(** ** The calls *)

Hypothesis heap_pos : 0 < heap.
Hypothesis block_size_ok : 5 ≤ k ≤ 62.
Hypothesis lim_ok : 0 ≤ lim ≤ largest_limit.
Hypothesis zend_error_spec : ∀ L, mm heap lim k L ⊢ wp zend_error (λ _, grown heap lim k L) (grown heap lim k L).
Hypothesis zend_error_noreturn_spec : ∀ L, mm heap lim k L ⊢ wp zend_error_noreturn (λ _, False) (grown heap lim k L).

Lemma engine_bailed L : use_zend_alloc heap ↦ 1 -∗ grown heap lim k L -∗ bailed L.
Proof using Type. iIntros "H0 (%L' & [%drift H] & H1)". iExists L', drift. iFrame. Qed.

Lemma bailed_abandoned L : bailed L -∗ bodies L -∗ abandoned.
Proof using Type. iIntros "(%L' & %drift & H & H1) H2". iExists (L' ++ L), drift. rewrite bodies_app. iFrame. Qed.

Lemma emalloc_spec drift L n (Φ : Z → hpropI) Ψ : size_t n →
  engine drift L -∗
  ((∀ p s vs, ⌜given n p s⌝ -∗ engine drift ((p - 16, s) :: L) -∗ contents (p - 16) s vs -∗ Φ p) ∧ (bailed L -∗ Ψ)) -∗
  wp (emalloc n) Φ Ψ.
Proof using heap_pos block_size_ok lim_ok zend_error_spec.
  iIntros (Hn) "[H0 H] HΦ". unfold _emalloc. wp_load "H0". cbn [Z.eqb]. iApply (mm_alloc_spec with "H"); [done..|].
  iSplit; [iDestruct "HΦ" as "[HΦ _]"|iDestruct "HΦ" as "[_ HΨ]"].
  - iIntros (p s Hp) "H1 H2". pose proof (span_contents (p - 16) s) as Hc. rewrite Z.sub_add in Hc. iDestruct (Hc with "H2") as (vs) "H2"; [apply Hp|]. iApply ("HΦ" with "[//] [$H0 $H1] H2").
  - iIntros "H". iApply "HΨ". iApply (engine_bailed with "H0 H").
Qed.

Lemma safe_address_spec drift L nmemb size offset (Φ : Z → hpropI) Ψ : size_t nmemb → size_t size → size_t offset →
  engine drift L -∗
  ((⌜size_t (nmemb * size + offset)⌝ -∗ engine drift L -∗ Φ (nmemb * size + offset)) ∧ (bailed L -∗ Ψ)) -∗
  wp (safe_address zend_error_noreturn nmemb size offset) Φ Ψ.
Proof using zend_error_noreturn_spec.
  iIntros (Hn Hs Ho) "H HΦ". unfold safe_address. destruct (address_parts nmemb size offset Hn Hs Ho) as [-> ->]. set (n := nmemb * size + offset).
  assert (Hn0 : 0 ≤ n) by (unfold size_t, n in *; nia). pose proof (Z.div_mod n (2 ^ 64) ltac:(lia)) as Hdm. pose proof (Z.mod_pos_bound n (2 ^ 64) ltac:(lia)). destruct (Z.eqb_spec (n / 2 ^ 64) 0) as [Hz|Hz]; cbn [negb].
  - wp_ret. iDestruct "HΦ" as "[HΦ _]". rewrite (_ : n mod 2 ^ 64 = n); [|lia]. iApply ("HΦ" with "[%] H"). unfold size_t. lia.
  - iDestruct "H" as "[H0 H]". iDestruct "HΦ" as "[_ HΨ]". wp_bind. iApply (wp_wand with "[H]"); [iApply zend_error_noreturn_spec; by iExists drift|].
    iSplit; [by iIntros (a) "%"|]. iIntros "H". iApply "HΨ". iApply (engine_bailed with "H0 H").
Qed.

Lemma safe_emalloc_spec drift L nmemb size offset (Φ : Z → hpropI) Ψ : size_t nmemb → size_t size → size_t offset →
  engine drift L -∗
  ((∀ p s vs, ⌜size_t (nmemb * size + offset) ∧ given (nmemb * size + offset) p s⌝ -∗ engine drift ((p - 16, s) :: L) -∗ contents (p - 16) s vs -∗ Φ p) ∧ (bailed L -∗ Ψ)) -∗
  wp (safe_emalloc nmemb size offset) Φ Ψ.
Proof using heap_pos block_size_ok lim_ok zend_error_spec zend_error_noreturn_spec.
  iIntros (Hn Hs Ho) "H HΦ". unfold _safe_emalloc. wp_bind. iApply (safe_address_spec with "H"); [done..|]. iSplit; [|iDestruct "HΦ" as "[_ $]"].
  iIntros (Hsize) "H". iApply (emalloc_spec with "H"); [done|]. iSplit; [iDestruct "HΦ" as "[HΦ _]"|iDestruct "HΦ" as "[_ $]"].
  iIntros (p s vs Hp) "H1 H2". by iApply ("HΦ" with "[%] H1 H2").
Qed.

Lemma ecalloc_spec drift L nmemb size (Φ : Z → hpropI) Ψ : size_t nmemb → size_t size →
  engine drift L -∗
  ((∀ p s vs, ⌜given (nmemb * size) p s ∧ cleared (nmemb * size) vs⌝ -∗ engine drift ((p - 16, s) :: L) -∗ contents (p - 16) s vs -∗ Φ p) ∧ (bailed L -∗ Ψ)) -∗
  wp (ecalloc nmemb size) Φ Ψ.
Proof using heap_pos block_size_ok lim_ok zend_error_spec zend_error_noreturn_spec.
  iIntros (Hn Hs) "H HΦ". unfold _ecalloc. wp_bind. iApply (safe_emalloc_spec with "H"); [done..|]. rewrite Z.add_0_r. iSplit; [iDestruct "HΦ" as "[HΦ _]"|iDestruct "HΦ" as "[_ $]"].
  iIntros (p s vs [Hsize Hp]) "H1 [%Hlen H2]". pose proof Hp as (Hpos & _ & _ & _ & Hle). change ZEND_MM_ALIGNED_HEADER_SIZE with 16 in Hle. destruct (Z.eqb_spec p 0); [lia|].
  rewrite (Z.mul_comm size) u64_small //. rewrite (_ : p - 16 + 16 = p); [|lia]. wp_bind. iApply (memset_zero_spec with "H2"); [unfold size_t in Hsize; lia|].
  iIntros (vs' [Hlen' Hz]) "H2". wp_ret. iApply ("HΦ" with "[//] H1"). unfold contents. rewrite (_ : p - 16 + 16 = p); [|lia]. iFrame. by rewrite Hlen'.
Qed.

Lemma efree_spec drift L p s vs (Φ : unit → hpropI) Ψ :
  engine drift ((p - 16, s) :: L) -∗ contents (p - 16) s vs -∗ (engine drift L -∗ Φ tt) -∗ wp (efree p) Φ Ψ.
Proof using heap_pos lim_ok.
  iIntros "[H0 H] H1 HΦ". unfold _efree. wp_load "H0". cbn [Z.eqb]. rewrite contents_span.
  pose proof (mm_free_spec heap lim k heap_pos lim_ok drift L (p - 16) s Φ Ψ) as Hf. rewrite Z.sub_add in Hf |- *. iApply (Hf with "H H1"). iIntros "H". iApply "HΦ". iFrame.
Qed.

Lemma erealloc_spec drift L p s n vs (Φ : Z → hpropI) Ψ : lim ≤ storage_capacity → fair_request n →
  engine drift ((p - 16, s) :: L) -∗ contents (p - 16) s vs -∗
  ((∀ q s' vs', ⌜given n q s' ∧ same_contents vs vs'⌝ -∗ engine drift ((q - 16, s') :: L) -∗ contents (q - 16) s' vs' -∗ Φ q) ∧ (bailed ((p - 16, s) :: L) -∗ contents (p - 16) s vs -∗ Ψ)) -∗
  wp (erealloc p n) Φ Ψ.
Proof using heap_pos block_size_ok lim_ok zend_error_spec.
  iIntros (Hcap Hn) "[H0 H] H1 HΦ". unfold _erealloc. wp_load "H0". cbn [Z.eqb]. pose proof (mm_realloc_spec heap lim k heap_pos block_size_ok lim_ok zend_error zend_error_spec drift L (p - 16) s n vs Φ Ψ Hcap Hn) as Hr. rewrite Z.sub_add in Hr.
  iApply (Hr with "H H1"). iSplit; [iDestruct "HΦ" as "[HΦ _]"|iDestruct "HΦ" as "[_ HΨ]"].
  - iIntros (q s' vs' Hq) "H1 H2". iApply ("HΦ" with "[//] [$H0 $H1] H2").
  - iIntros "H H1". iApply ("HΨ" with "[H0 H] H1"). iApply (engine_bailed with "H0 H").
Qed.

(** ** The blocks of the program *)

Lemma program_push drift p s n m vs bl : given n p s → knows m vs →
  engine drift ((p - 16, s) :: (held_header <$> bl)) -∗ contents (p - 16) s vs -∗ ([∗ list] x ∈ bl, held_words x) -∗
  program_heap drift (Held p s (ABlock n m) :: bl).
Proof using Type. iIntros (Hp Hm) "H1 H2 H3". unfold program_heap. rewrite fmap_cons big_sepL_cons. iFrame "H1 H3". iExists vs. by iFrame. Qed.

Lemma insert_perm {A} (l : list A) i x y : l !! i = Some x → <[i := y]> l ≡ₚ y :: delete i l.
Proof using Type.
  intros Hi. pose proof (lookup_lt_Some _ _ _ Hi). rewrite insert_take_drop // delete_take_drop. solve_Permutation.
Qed.

Lemma alter_insert {A} (f : A → A) (l : list A) i x : l !! i = Some x → alter f i l = <[i := f x]> l.
Proof using Type. revert i. induction l as [|y l IH]; intros [|i] Hi; [done..| |]; cbn in *; [by injection Hi as ->|]. f_equal. by apply IH. Qed.

Lemma alter_none {A} (f : A → A) (l : list A) i : l !! i = None → alter f i l = l.
Proof using Type. revert i. induction l as [|y l IH]; intros [|i] Hi; cbn in *; [done..|]. f_equal. by apply IH. Qed.

Lemma delete_none {A} (l : list A) i : l !! i = None → delete i l = l.
Proof using Type. revert i. induction l as [|x l IH]; intros [|i] H; cbn in *; [done..|]. f_equal. by apply IH. Qed.

(** each block has room for what was asked, and its header *)
Lemma held_sizes bl : ([∗ list] x ∈ bl, held_words x) ⊢ ⌜Forall (λ x, asked (held_block x) + ZEND_MM_ALIGNED_HEADER_SIZE ≤ held_size x) bl⌝.
Proof using Type.
  induction bl as [|x bl IH]; cbn [big_sepL]; [iIntros "_"; iPureIntro; constructor|]. rewrite IH. iIntros "[(%vs & [%Hp _] & _) %Hbl]". iPureIntro. constructor; [apply Hp|done].
Qed.

Lemma held_bodies bl : ([∗ list] x ∈ bl, held_words x) ⊢ bodies (held_header <$> bl).
Proof using Type. unfold bodies. rewrite big_sepL_fmap. apply big_sepL_mono. iIntros (i x _) "(%vs & _ & H)". by iApply contents_span. Qed.

(** block [i], apart from the others, and with another in its place *)
Lemma program_focus drift bl i x : bl !! i = Some x → program_heap drift bl ⊢
  engine drift (held_header x :: (held_header <$> delete i bl)) ∗ held_words x ∗ [∗ list] y ∈ delete i bl, held_words y.
Proof using Type. intros Hi. rewrite (program_heap_perm _ _ _ (delete_Permutation _ _ _ Hi)). unfold program_heap. rewrite fmap_cons big_sepL_cons. iIntros "($ & $ & $)". Qed.

Lemma program_replace drift bl i x p s n m vs : bl !! i = Some x → given n p s → knows m vs →
  engine drift ((p - 16, s) :: (held_header <$> delete i bl)) -∗ contents (p - 16) s vs -∗ ([∗ list] y ∈ delete i bl, held_words y) -∗
  program_heap drift (<[i := Held p s (ABlock n m)]> bl).
Proof using Type.
  iIntros (Hi Hp Hm) "H1 H2 H3". iApply program_heap_perm; [symmetry; by apply (insert_perm _ _ x)|]. by iApply (program_push with "H1 H2 H3").
Qed.

(** ** What the program knows *)

Lemma knows_empty vs : knows ∅ vs.
Proof using Type. intros j v Hj. by rewrite lookup_empty in Hj. Qed.

Lemma knows_zeros n vs : 0 ≤ n → cleared n vs → knows (zero_words n) vs.
Proof using Type.
  intros Hn Hz j v Hj%elem_of_list_to_map_2. apply list_elem_of_fmap in Hj as (j' & [= -> ->] & Hj'%elem_of_seq). apply Hz.
  pose proof (Z.mul_div_le n 8). pose proof (Z.div_pos n 8). lia.
Qed.

Lemma knows_resized n m vs vs' : n ≤ 8 * Z.of_nat (length vs') → same_contents vs vs' → knows m vs → knows (filter (λ e, within n e.1) m) vs'.
Proof using Type.
  intros Hn Hsame Hm j v [Hj Hw]%map_lookup_filter_Some. apply Hm in Hj. cbn [fst] in Hw. unfold within in Hw. unfold same_contents in Hsame.
  assert (H1 : take (length vs') vs !! j = Some v) by (rewrite lookup_take_lt; [done|lia]). rewrite Hsame in H1. by apply lookup_take_Some in H1 as [? _].
Qed.

Lemma knows_written j v m vs : (j < length vs)%nat → knows m vs → knows (<[j := v]> m) (<[j := v]> vs).
Proof using Type.
  intros Hj Hm j' v' H. destruct (decide (j = j')) as [->|Hne].
  - rewrite lookup_insert_eq in H. injection H as ->. by apply list_lookup_insert_eq.
  - rewrite lookup_insert_ne // in H. rewrite list_lookup_insert_ne //. by apply Hm.
Qed.

(** word [j] of the contents *)
Lemma contents_word b s (vs : list Z) j v : vs !! j = Some v →
  contents b s vs ⊢ (b + 16 + 8 * Z.of_nat j) ↦ v ∗ (∀ v', (b + 16 + 8 * Z.of_nat j) ↦ v' -∗ contents b s (<[j := v']> vs)).
Proof using Type.
  intros Hj. assert (Hw : ∀ a, words_at a vs ⊢ (a + 8 * Z.of_nat j) ↦ v ∗ (∀ v', (a + 8 * Z.of_nat j) ↦ v' -∗ words_at a (<[j := v']> vs))).
  { revert j Hj. induction vs as [|w vs IH]; intros [|j] Hj a; [done..| |]; cbn [words_at].
    - injection Hj as ->. rewrite Z.add_0_r. iIntros "[$ H]". iIntros (v') "$". done.
    - rewrite (IH j Hj). rewrite (_ : a + 8 + 8 * Z.of_nat j = a + 8 * Z.of_nat (S j)); [|lia]. iIntros "($ & $ & H)". iIntros (v') "H1". by iApply "H". }
  iIntros "[%Hlen H]". rewrite Hw. iDestruct "H" as "[$ H]". iIntros (v') "H1". iSplit; [iPureIntro; by rewrite length_insert|]. by iApply "H".
Qed.

(** ** Programs *)

(** what the calls [ops] leave, as the specification says, unless they are bailed out *)
Local Abbreviation runs drift expected Φ Ψ := (((∀ bl' out, ⌜held_block <$> bl' = expected.1 ∧ Forall2 agrees expected.2 out⌝ -∗
  program_heap drift bl' -∗ Φ (held_ptr <$> bl', out)) ∧ (abandoned -∗ Ψ)))%I.

Lemma replaced (bl : list held) (i : nat) x y (f : ablock → ablock) : bl !! i = Some x → held_block y = f (held_block x) →
  held_block <$> <[i := y]> bl = alter f i (held_block <$> bl).
Proof using Type. intros Hx Hy. rewrite list_fmap_insert Hy. symmetry. apply alter_insert. by rewrite list_lookup_fmap Hx. Qed.

Lemma step_alloc_spec drift bl o m x (Φ : list Z * list Z → hpropI) Ψ :
  spec_step o (held_block <$> bl) = (x :: (held_block <$> bl), []) →
  (∀ (Φ' : Z → hpropI) Ψ', engine drift (held_header <$> bl) -∗
    ((∀ p s vs, ⌜given (asked x) p s ∧ knows (known x) vs⌝ -∗ engine drift ((p - 16, s) :: (held_header <$> bl)) -∗ contents (p - 16) s vs -∗ Φ' p) ∧ (bailed (held_header <$> bl) -∗ Ψ')) -∗ wp m Φ' Ψ') →
  program_heap drift bl -∗ runs drift (spec_step o (held_block <$> bl)) Φ Ψ -∗ wp (let! p := m in ret (p :: (held_ptr <$> bl), [])) Φ Ψ.
Proof using Type.
  iIntros (Ho Hm) "[H1 H2] HΦ". wp_bind. iApply (Hm with "H1"). iSplit; [iDestruct "HΦ" as "[HΦ _]"|iDestruct "HΦ" as "[_ HΨ]"; iIntros "H"; iApply "HΨ"; iApply (bailed_abandoned with "H"); by iApply held_bodies].
  iIntros (p s vs [Hp Hk]) "H1 H3". wp_ret. destruct x as [n kn]. iApply ("HΦ" $! (Held p s (ABlock n kn) :: bl) [] with "[%]"); [by rewrite Ho|]. by iApply (program_push with "H1 H3 H2").
Qed.

Lemma step_erealloc_spec drift bl i n x (Φ : list Z * list Z → hpropI) Ψ : lim ≤ storage_capacity → fair_request n → bl !! i = Some x →
  program_heap drift bl -∗ runs drift (spec_step (Erealloc i n) (held_block <$> bl)) Φ Ψ -∗
  wp (let! q := erealloc (held_ptr x) n in ret (<[i := q]> (held_ptr <$> bl), [])) Φ Ψ.
Proof using heap_pos block_size_ok lim_ok zend_error_spec.
  iIntros (Hcap Hn Hx) "H HΦ". iDestruct (program_focus with "H") as "(H1 & (%vs & [%Hp %Hk] & H2) & H3)"; [done|]. wp_bind. iApply (erealloc_spec with "H1 H2"); [done..|].
  iSplit; [iDestruct "HΦ" as "[HΦ _]"|iDestruct "HΦ" as "[_ HΨ]"; iIntros "H H2"; iApply "HΨ"; iApply (bailed_abandoned with "H"); rewrite held_bodies contents_span; iFrame].
  iIntros (q s' vs' [Hq Hsame]) "H1 [%Hlen H2]". wp_ret.
  set (y := Held q s' (resize n (held_block x))). rewrite (_ : <[i := q]> (held_ptr <$> bl) = held_ptr <$> <[i := y]> bl); [|by rewrite list_fmap_insert]. iApply ("HΦ" $! (<[i := y]> bl) [] with "[%] [H1 H2 H3]"); [split; [by apply (replaced _ _ x)|done]| ].
  - iApply (program_replace with "H1 [$H2] H3"); [done|done| |done]. apply (knows_resized _ _ vs); [|done|done]. destruct Hq as (_ & _ & _ & _ & Hle). change ZEND_MM_ALIGNED_HEADER_SIZE with 16 in Hle. lia.
Qed.

(** a word of a block *)
Lemma step_word_spec drift bl i j x : bl !! i = Some x → within (asked (held_block x)) j →
  program_heap drift bl ⊢ ∃ v, ⌜agrees (known (held_block x) !! j) v⌝ ∗ (held_ptr x + 8 * Z.of_nat j) ↦ v ∗
    (((held_ptr x + 8 * Z.of_nat j) ↦ v -∗ program_heap drift bl) ∧
     (∀ v', (held_ptr x + 8 * Z.of_nat j) ↦ v' -∗ program_heap drift (<[i := Held (held_ptr x) (held_size x) (write j v' (held_block x))]> bl))).
Proof using Type.
  iIntros (Hx Hw) "H". iDestruct (program_focus with "H") as "(H1 & (%vs & [%Hp %Hk] & H2) & H3)"; [done|]. pose proof Hp as (_ & _ & _ & _ & Hle). change ZEND_MM_ALIGNED_HEADER_SIZE with 16 in Hle.
  iDestruct "H2" as "[%Hlen H2]". assert (Hj : (j < length vs)%nat) by (unfold within in Hw; lia). destruct (lookup_lt_is_Some_2 vs j Hj) as [v Hv]. iExists v.
  iSplit; [iPureIntro; destruct (known (held_block x) !! j) as [v'|] eqn:Hkv; [right; apply Hk in Hkv; congruence|by left]|].
  iDestruct (contents_word with "[$H2]") as "[H2 H4]"; [done|done|]. rewrite Z.sub_add. iFrame "H2". iSplit.
  - iIntros "H2". iDestruct ("H4" with "H2") as "H2". rewrite list_insert_id //. iApply program_heap_perm; [symmetry; by apply delete_Permutation|]. unfold program_heap. rewrite fmap_cons big_sepL_cons. iFrame "H1 H3". iExists vs. by iFrame.
  - iIntros (v') "H2". iDestruct ("H4" with "H2") as "H2". iApply (program_replace with "H1 H2 H3"); [done|done|]. by apply knows_written.
Qed.

(** each call does what the specification says, or the program is bailed out *)
Lemma step_spec drift bl o (Φ : list Z * list Z → hpropI) Ψ : op_ok o (held_block <$> bl) →
  program_heap drift bl -∗ runs drift (spec_step o (held_block <$> bl)) Φ Ψ -∗ wp (step o (held_ptr <$> bl)) Φ Ψ.
Proof using heap_pos block_size_ok lim_ok zend_error_spec zend_error_noreturn_spec.
  intros Hop. destruct o as [n|nmemb size offset|nmemb size|i|i n|i j v|i j|n]; unfold step; cbn [op_ok] in Hop.
  - apply (step_alloc_spec _ _ _ _ (ABlock n ∅)); [done|]. iIntros (Φ' Ψ') "H HΦ". iApply (emalloc_spec with "H"); [done|]. iSplit; [iDestruct "HΦ" as "[HΦ _]"|iDestruct "HΦ" as "[_ $]"].
    iIntros (p s vs Hp). iApply "HΦ". iPureIntro. split; [done|apply knows_empty].
  - destruct Hop as (Hn & Hs & Ho). apply (step_alloc_spec _ _ _ _ (ABlock (nmemb * size + offset) ∅)); [done|]. iIntros (Φ' Ψ') "H HΦ". iApply (safe_emalloc_spec with "H"); [done..|].
    iSplit; [iDestruct "HΦ" as "[HΦ _]"|iDestruct "HΦ" as "[_ $]"]. iIntros (p s vs [_ Hp]). iApply "HΦ". iPureIntro. split; [done|apply knows_empty].
  - destruct Hop as [Hn Hs]. apply (step_alloc_spec _ _ _ _ (ABlock (nmemb * size) (zero_words (nmemb * size)))); [done|]. iIntros (Φ' Ψ') "H HΦ". iApply (ecalloc_spec with "H"); [done..|].
    iSplit; [iDestruct "HΦ" as "[HΦ _]"|iDestruct "HΦ" as "[_ $]"]. iIntros (p s vs [Hp Hz]). iApply "HΦ". iPureIntro. split; [done|]. apply knows_zeros; [unfold size_t in *; nia|done].
  - iIntros "H HΦ". rewrite list_lookup_fmap. destruct (bl !! i) as [x|] eqn:Hx; cbn [fmap option_fmap option_map].
    + iDestruct (program_focus with "H") as "(H1 & (%vs & _ & H2) & H3)"; [done|]. wp_bind. iApply (efree_spec with "H1 H2"). iIntros "H1". wp_ret. iDestruct "HΦ" as "[HΦ _]".
      rewrite -(list_fmap_delete held_ptr). iApply ("HΦ" $! (delete i bl) [] with "[%] [$H1 $H3]"). split; [apply list_fmap_delete|done].
    + wp_ret. iDestruct "HΦ" as "[HΦ _]". iApply ("HΦ" $! bl [] with "[%] H"). split; [|done]. cbn [spec_step fst]. by rewrite delete_none // list_lookup_fmap Hx.
  - destruct Hop as [Hn Hcap]. rewrite list_lookup_fmap. destruct (bl !! i) as [x|] eqn:Hx; cbn [fmap option_fmap option_map]; [by apply step_erealloc_spec|].
    iIntros "H HΦ". wp_ret. iDestruct "HΦ" as "[HΦ _]". iApply ("HΦ" $! bl [] with "[%] H"). split; [|done]. cbn [spec_step fst]. by rewrite alter_none // list_lookup_fmap Hx.
  - iIntros "H HΦ". iDestruct "HΦ" as "[HΦ _]". rewrite list_lookup_fmap in Hop. rewrite list_lookup_fmap. destruct (bl !! i) as [x|] eqn:Hx; cbn [fmap option_fmap option_map] in *.
    + iDestruct (step_word_spec with "H") as (w _) "[H1 [_ H2]]"; [done|by apply Hop|]. wp_store "H1". wp_ret. set (y := Held (held_ptr x) (held_size x) (write j v (held_block x))).
      rewrite (_ : held_ptr <$> bl = held_ptr <$> <[i := y]> bl); [|by rewrite list_fmap_insert list_insert_id // list_lookup_fmap Hx].
      iApply ("HΦ" $! (<[i := y]> bl) [] with "[%]"); [split; [by apply (replaced _ _ x)|done]|]. by iApply "H2".
    + wp_ret. iApply ("HΦ" $! bl [] with "[%] H"). split; [|done]. cbn [spec_step fst]. by rewrite alter_none // list_lookup_fmap Hx.
  - iIntros "H HΦ". iDestruct "HΦ" as "[HΦ _]". cbn [spec_step]. rewrite list_lookup_fmap in Hop. rewrite !list_lookup_fmap. destruct (bl !! i) as [x|] eqn:Hx; cbn [fmap option_fmap option_map] in *.
    + iDestruct (step_word_spec with "H") as (w Hw) "[H1 [H2 _]]"; [done|by apply Hop|]. wp_load "H1". wp_ret. iApply ("HΦ" $! bl [w] with "[%]"); [split; [done|by constructor]|]. by iApply "H2".
    + wp_ret. iApply ("HΦ" $! bl [] with "[%] H"). done.
  - iIntros "[[H0 H1] H2] HΦ". iDestruct "HΦ" as "[HΦ _]". destruct Hop. wp_bind. iApply (set_memory_limit_spec with "H1"); [done..|]. iIntros "H1". wp_ret. iApply ("HΦ" $! bl [] with "[%] [$H0 $H1 $H2]"). done.
Qed.

Lemma run_spec ops drift bl (Φ : list Z * list Z → hpropI) Ψ : ops_ok ops (held_block <$> bl) →
  program_heap drift bl -∗ runs drift (spec_run ops (held_block <$> bl)) Φ Ψ -∗ wp (run ops (held_ptr <$> bl)) Φ Ψ.
Proof using heap_pos block_size_ok lim_ok zend_error_spec zend_error_noreturn_spec.
  revert bl Φ. induction ops as [|o ops IH]; intros bl Φ; cbn [ops_ok run spec_run].
  - iIntros (_) "H HΦ". wp_ret. iDestruct "HΦ" as "[HΦ _]". by iApply ("HΦ" $! bl [] with "[%] H").
  - iIntros ([Hop Hops]) "H HΦ". destruct (spec_step o (held_block <$> bl)) as [xs out] eqn:Hstep. cbn [fst] in Hops. destruct (spec_run ops xs) as [xs' outs] eqn:Hrun.
    wp_bind. iApply (step_spec with "H"); [done|]. rewrite Hstep. iSplit; [|iDestruct "HΦ" as "[_ $]"]. iIntros (bl1 out1 [Hbl1 Hout]) "H". cbn [fst snd] in Hbl1, Hout. subst xs. wp_simpl.
    wp_bind. iApply (IH with "H"); [done|]. rewrite Hrun. iSplit; [|iDestruct "HΦ" as "[_ $]"]. iIntros (bl2 out2 [Hbl2 Hout2]) "H". cbn [fst snd] in Hbl2, Hout2. subst xs'. wp_ret.
    iDestruct "HΦ" as "[HΦ _]". iApply ("HΦ" with "[%] H"). split; [done|]. by apply Forall2_app.
Qed.

End program.
