(* ===== verification/MmStart.v ===== *)
(** * The heap at the start

    [zend_mm_startup_ex] makes the heap of [MmAlloc] in the memory of the structure. *)

From iris.proofmode Require Import proofmode.
From S2P Require Import Prelude WordLogic MmModel MmBits MmRepr MmTrie MmFree MmSearch MmLayout MmHole MmJoin MmSegments MmRelease MmHeap MmTake MmAlloc.
Local Open Scope Z_scope.

Lemma power_bits k : 0 ≤ k < 64 → zend_mm_low_bit (2 ^ k) = zend_mm_high_bit (2 ^ k).
Proof.
  intros Hk. assert (Hin : k ∈ seqZ 0 64) by (apply elem_of_seqZ; lia). clear Hk. revert k Hin. apply Forall_forall. vm_decide.
Qed.

Section start.
Context (heap : Z).
Hypothesis heap_pos : 0 < heap.
Context {storage : Storage}.
Variable zend_error : W unit.

(** ** [zend_mm_init] *)

Definition empty_free : free_state := FreeState 0 0 (replicate 64 []) (replicate 64 Leaf) [].

Lemma empty_free_ok : free_ok empty_free ∧ free_elements empty_free = [].
Proof using Type.
  split; [|done]. constructor; try done.
  - intros i. cbn [empty_free f_bitmap]. by rewrite Z.bits_0.
  - intros i t (-> & Hi)%lookup_replicate. split; [done|]. cbn [empty_free f_large_bitmap]. by rewrite Z.bits_0.
  - intros b s Hb. by apply not_elem_of_nil in Hb.
Qed.

Lemma big_sepL_replicate_S {A} (Φ : nat → A → hpropI) (x : A) n : ([∗ list] i ↦ y ∈ replicate (S n) x, Φ i y) ⊣⊢ ([∗ list] i ↦ y ∈ replicate n x, Φ i y) ∗ Φ n x.
Proof using Type. rewrite replicate_S_end big_sepL_app big_sepL_singleton length_replicate Nat.add_0_r. done. Qed.

Lemma clear_cache_spec n i (Φ : unit → hpropI) Ψ :
  span (cache heap i) (cache heap (i + Z.of_nat n)) -∗
  (([∗ list] j ↦ l ∈ replicate n (@nil Z), cache heap (i + Z.of_nat j) ↦ hd 0 l) -∗ Φ tt) -∗ wp (clear_cache_loop heap n i) Φ Ψ.
Proof using Type.
  revert i Φ. induction n as [|n IH]; intros i Φ; iIntros "H HΦ"; cbn [clear_cache_loop].
  - wp_ret. by iApply "HΦ".
  - rewrite span_cons; [|unfold cache; lia|unfold cache; exists (Z.of_nat (S n)); lia]. iDestruct "H" as "[[% H1] H2]". wp_store "H1".
    iApply (IH (i + 1) with "[H2]").
    { rewrite (_ : cache heap i + 8 = cache heap (i + 1)); [|unfold cache; lia]. by rewrite (_ : i + 1 + Z.of_nat n = i + Z.of_nat (S n)); [|lia]. }
    iIntros "H2". iApply "HΦ". cbn [replicate big_sepL]. rewrite Z.add_0_r. iFrame "H1". iApply (big_sepL_mono with "H2"). iIntros (j y _) "H".
    by rewrite (_ : i + 1 + Z.of_nat j = i + Z.of_nat (S j)); [|lia].
Qed.

(** the sentinels of the small buckets and the roots of the trees *)
Lemma init_buckets_spec n i (Φ : unit → hpropI) Ψ :
  span (free_buckets heap (i * 2)) (free_buckets heap ((i + Z.of_nat n) * 2)) -∗
  span (large_free_buckets heap i) (large_free_buckets heap (i + Z.of_nat n)) -∗
  (([∗ list] j ↦ l ∈ replicate n (@nil Z), ring (ZEND_MM_SMALL_FREE_BUCKET heap (i + Z.of_nat j)) l) -∗
   ([∗ list] j ↦ t ∈ replicate n Leaf, tree_at (large_free_buckets heap (i + Z.of_nat j)) t) -∗ Φ tt) -∗
  wp (init_buckets_loop heap n (ZEND_MM_SMALL_FREE_BUCKET heap i) i) Φ Ψ.
Proof using Type.
  revert i Φ. induction n as [|n IH]; intros i Φ; iIntros "H1 H2 HΦ"; cbn [init_buckets_loop].
  - wp_ret. by iApply "HΦ".
  - rewrite (span_cons (free_buckets heap (i * 2))); [|unfold free_buckets; lia|unfold free_buckets; exists (Z.of_nat (S n) * 2); lia].
    rewrite (span_cons (free_buckets heap (i * 2) + 8)); [|unfold free_buckets; lia|unfold free_buckets; exists (Z.of_nat (S n) * 2 - 1); lia].
    rewrite (span_cons (large_free_buckets heap i)); [|unfold large_free_buckets; lia|unfold large_free_buckets; exists (Z.of_nat (S n)); lia].
    iDestruct "H1" as "([% H3] & [% H4] & H1)". iDestruct "H2" as "[[% H5] H2]".
    rewrite (_ : free_buckets heap (i * 2) + 8 = free_buckets heap (i * 2 + 1)); [|unfold free_buckets; lia]. rewrite -sentinel_prev -sentinel_next. wp_store "H4". wp_store "H3". wp_store "H5".
    rewrite (_ : ZEND_MM_SMALL_FREE_BUCKET heap i + 8 * 2 = ZEND_MM_SMALL_FREE_BUCKET heap (i + 1)); [|unfold ZEND_MM_SMALL_FREE_BUCKET, free_buckets; lia].
    rewrite sentinel_next. rewrite (_ : free_buckets heap (i * 2 + 1) + 8 = free_buckets heap ((i + 1) * 2)); [|unfold free_buckets; lia].
    rewrite (_ : large_free_buckets heap i + 8 = large_free_buckets heap (i + 1)); [|unfold large_free_buckets; lia]. rewrite (_ : i + Z.of_nat (S n) = i + 1 + Z.of_nat n); [|lia].
    iApply (IH (i + 1) with "H1 H2"). iIntros "H1 H2". iApply ("HΦ" with "[H1 H3 H4] [H2 H5]"); cbn [replicate big_sepL]; rewrite Z.add_0_r.
    + rewrite -sentinel_next. iSplitL "H3 H4"; [unfold ring; cbn [path]; unfold link; iFrame|]. iApply (big_sepL_mono with "H1"). iIntros (j y _) "H".
      by rewrite (_ : i + 1 + Z.of_nat j = i + Z.of_nat (S j)); [|lia].
    + iSplitL "H5"; [iExact "H5"|]. iApply (big_sepL_mono with "H2"). iIntros (j y _) "H". by rewrite (_ : i + 1 + Z.of_nat j = i + Z.of_nat (S j)); [|lia].
Qed.
(** ** The words of the structure *)

Lemma region_words a n : region a n ⊣⊢ [∗ list] i ∈ seq 0 n, ∃ v, (a + 8 * Z.of_nat i) ↦ v.
Proof using Type.
  revert a. induction n as [|n IH]; intros a; cbn [region seq big_sepL]; [done|]. rewrite Z.add_0_r IH -seq_shift big_sepL_fmap. f_equiv.
  apply big_sepL_proper. intros j i _. by rewrite (_ : a + 8 + 8 * Z.of_nat i = a + 8 * Z.of_nat (S i)); [|lia].
Qed.

(** [sizeof(zend_mm_heap)] bytes; [overflow] and [internal] share a word of the machine *)
Definition heap_memory : hpropI := span heap (heap + 2224) ∗ ∃ v, internal heap ↦ v.

Lemma heap_memory_split :
  span heap (heap + 2224) ⊢ ([∗ list] i ∈ seq 0 19, ∃ v, (heap + 8 * Z.of_nat i) ↦ v) ∗
    span (cache heap 0) (cache heap 64) ∗ span (free_buckets heap 0) (free_buckets heap 128) ∗ span (large_free_buckets heap 0) (large_free_buckets heap 64) ∗
    (∃ v, rest_buckets heap 0 ↦ v) ∗ (∃ v, rest_buckets heap 1 ↦ v) ∗ ∃ v, rest_count heap ↦ v.
Proof using Type.
  unfold cache, free_buckets, large_free_buckets, rest_buckets, rest_count.
  rewrite (span_split heap (heap + 152)); [|lia|by exists 19; lia|by exists 259; lia]. rewrite (span_split (heap + 152) (heap + 664)); [|lia|by exists 64; lia|by exists 195; lia].
  rewrite (span_split (heap + 664) (heap + 1688)); [|lia|by exists 128; lia|by exists 67; lia]. rewrite (span_split (heap + 1688) (heap + 2200)); [|lia|by exists 64; lia|by exists 3; lia].
  rewrite (span_cons (heap + 2200)); [|lia|by exists 3; lia]. rewrite (span_cons (heap + 2200 + 8)); [|lia|by exists 2; lia]. rewrite (span_cons (heap + 2200 + 8 + 8)); [|lia|by exists 1; lia].
  iIntros "(H1 & H2 & H3 & H4 & H5 & H6 & H7 & _)". iSplitL "H1".
  { rewrite -region_words. unfold span. by rewrite (_ : Z.to_nat ((heap + 152 - heap) / 8) = 19%nat); [|rewrite (_ : heap + 152 - heap = 152); [|lia]]. }
  rewrite (_ : heap + 2200 + 8 + 8 = heap + 2216); [|lia].
  rewrite (_ : heap + 2200 + 8 * 0 = heap + 2200); [|lia]. rewrite (_ : heap + 2200 + 8 * 1 = heap + 2200 + 8); [|lia].
  rewrite (_ : heap + 152 + 8 * 0 = heap + 152); [|lia]. rewrite (_ : heap + 152 + 8 * 64 = heap + 664); [|lia].
  rewrite (_ : heap + 664 + 8 * 0 = heap + 664); [|lia]. rewrite (_ : heap + 664 + 8 * 128 = heap + 1688); [|lia].
  rewrite (_ : heap + 1688 + 8 * 0 = heap + 1688); [|lia]. rewrite (_ : heap + 1688 + 8 * 64 = heap + 2200); [|lia]. iFrame.
Qed.

Lemma init_spec (Φ : unit → hpropI) Ψ :
  (∃ v, free_bitmap heap ↦ v) -∗ (∃ v, large_free_bitmap heap ↦ v) -∗ (∃ v, cached heap ↦ v) -∗
  span (cache heap 0) (cache heap 64) -∗ span (free_buckets heap 0) (free_buckets heap 128) -∗ span (large_free_buckets heap 0) (large_free_buckets heap 64) -∗
  (∃ v, rest_buckets heap 0 ↦ v) -∗ (∃ v, rest_buckets heap 1 ↦ v) -∗ (∃ v, rest_count heap ↦ v) -∗
  (cached heap ↦ 0 -∗ caches heap (replicate 64 []) -∗ free_lists heap [] -∗ Φ tt) -∗
  wp (zend_mm_init heap) Φ Ψ.
Proof using Type.
  iIntros "[% H1] [% H2] [% H3] H4 H5 H6 [% H7] [% H8] [% H9] HΦ". unfold zend_mm_init. wp_store "H1". wp_store "H2". wp_store "H3". change (Z.to_nat ZEND_MM_NUM_BUCKETS) with 64%nat.
  wp_bind. iApply (clear_cache_spec 64 0 with "H4"). iIntros "H4". wp_bind. iApply (init_buckets_spec 64 0 with "H5 H6"). iIntros "H5 H6".
  wp_store "H8". wp_store "H7". wp_store "H9". iApply ("HΦ" with "H3 [H4]").
  - unfold caches. iApply (big_sepL_mono with "H4"). iIntros (j l (-> & _)%lookup_replicate) "H". unfold cache_at. cbn [hd cache_list]. rewrite Z.add_0_l. by iFrame.
  - destruct empty_free_ok as [Hok Hel]. iExists empty_free. rewrite Hel. iSplit; [done|]. unfold free_words. cbn [empty_free f_bitmap f_large_bitmap f_smalls f_trees f_rests].
    change (large_rests []) with 0. iFrame "H1 H2 H9". iSplitL "H5"; [|iSplitL "H6"].
    + iApply (big_sepL_mono with "H5"). iIntros (j l (-> & _)%lookup_replicate) "H". unfold small_at. cbn [big_sepL]. rewrite Z.add_0_l. by iFrame.
    + iApply (big_sepL_mono with "H6"). iIntros (j t _) "H". unfold tree_in. by rewrite Z.add_0_l.
    + unfold rests_in, ring. cbn [fmap list_fmap path big_sepL]. unfold link. rewrite rests_prev rests_next. iFrame.
Qed.

(** ** The heap before its first request *)

Definition start_limit : Z := 2 ^ 62.

(** the words of the structure that only the start and the shutdown look at *)
Definition config (reserve_size : Z) : hpropI := (∃ c, compact_size heap ↦ c) ∗ reserve_size_field heap ↦ reserve_size ∗ ∃ v, internal heap ↦ v.

(** nothing is in use but the reserve, and [heap->size] counts nothing else *)
Definition fresh (lim k reserve_size : Z) : hpropI :=
  use_zend_alloc heap ↦ 1 ∗ overflow heap ↦ 0 ∗ ∃ r, reserve heap ↦ r ∗
    ((⌜reserve_size = 0 ∧ r = 0⌝ ∗ heap_live heap (2 ^ k) lim 0 []) ∨
     ∃ s, ⌜reserve_size ≠ 0 ∧ given reserve_size r s⌝ ∗ heap_live heap (2 ^ k) lim 0 [(r - 16, s)] ∗ span r (r - 16 + s)).

Lemma reserve_spec lim k reserve_size o (Φ : Z → hpropI) Ψ : 5 ≤ k ≤ 62 → 0 ≤ lim ≤ largest_limit → 0 ≤ reserve_size < 2 ^ 64 →
  (∀ L, mm heap lim k L ⊢ wp zend_error (λ _, grown heap lim k L) (grown heap lim k L)) →
  heap_live heap (2 ^ k) lim 0 [] -∗ reserve heap ↦ 0 -∗ overflow heap ↦ o -∗
  ((∀ p s, ⌜given reserve_size p s⌝ -∗ heap_live heap (2 ^ k) lim 0 [(p - 16, s)] -∗ span p (p - 16 + s) -∗ reserve heap ↦ 0 -∗ overflow heap ↦ o -∗ Φ p) ∧ (grown heap lim k [] -∗ Ψ)) -∗
  wp (_zend_mm_alloc_int heap storage_alloc storage_free zend_error reserve_size) Φ Ψ.
Proof using heap_pos.
  iIntros (Hk Hlim Hrs Herr) "H H1 H2 HΦ". iApply (heap_alloc_spec with "H"); [done..|]. iSplit; [iDestruct "HΦ" as "[HΦ _]"|iDestruct "HΦ" as "[_ HΨ]"].
  - iIntros (p s Hp) "H3 H4". iApply ("HΦ" with "[//] H3 H4 H1 H2").
  - iIntros (drift Φ') "H". iApply (wp_wand _ Φ' _ (grown heap lim k []) with "[H H1 H2]").
    { iApply safe_error_spec; [done..|]. iExists drift, 0, o. iFrame. iLeft. by iFrame. }
    iSplit; [by iIntros (a) "$"|done].
Qed.

(** ** [zend_mm_startup_ex] *)

Lemma startup_spec k reserve_size (Φ : unit → hpropI) Ψ : 5 ≤ k ≤ 62 → 0 ≤ reserve_size < 2 ^ 64 →
  (∀ L, mm heap start_limit k L ⊢ wp zend_error (λ _, grown heap start_limit k L) (grown heap start_limit k L)) →
  heap_memory -∗ storage_inv -∗
  ((fresh start_limit k reserve_size -∗ config reserve_size -∗ Φ tt) ∧ (use_zend_alloc heap ↦ 1 -∗ grown heap start_limit k [] -∗ config reserve_size -∗ Ψ)) -∗
  wp (zend_mm_startup_ex heap storage_alloc storage_free zend_error (2 ^ k) reserve_size) Φ Ψ.
Proof using heap_pos.
  iIntros (Hk Hrs Herr) "[H Hint] Hst HΦ". unfold zend_mm_startup_ex. rewrite power_bits; [|lia]. rewrite Z.eqb_refl. cbn [negb].
  iDestruct (heap_memory_split with "H") as "(H & Hcache & Hfree & Hlarge & Hr0 & Hr1 & Hrc)". cbn [seq big_sepL]. rewrite (_ : heap + 8 * Z.of_nat 0 = use_zend_alloc heap); [|unfold use_zend_alloc; lia].
  iDestruct "H" as "([% F0] & _ & _ & _ & F4 & F5 & [% F6] & [% F7] & [% F8] & _ & [% F10] & [% F11] & [% F12] & [% F13] & [% F14] & [% F15] & [% F16] & [% F17] & F18 & _)".
  iDestruct "Hint" as "[% Hint]". wp_store "F6". wp_store "F7". wp_store "F8". wp_bind. iApply (init_spec with "F4 F5 F18 Hcache Hfree Hlarge Hr0 Hr1 Hrc").
  iIntros "F18 Hcache Hfree". wp_store "F0". wp_store "F10". wp_store "F17". wp_store "F11". wp_store "F12". wp_store "F13". wp_store "F14". wp_store "Hint". wp_store "F16". wp_store "F15".
  iAssert (config reserve_size) with "[F7 F15 Hint]" as "Hc"; [iFrame|].
  iAssert (heap_live heap (2 ^ k) start_limit 0 []) with "[F6 F8 F18 Hcache Hfree F10 F11 F12 F13 F14 Hst]" as "H".
  { iExists [], (replicate 64 []). unfold heap_at, segments, counters. cbn [fmap list_fmap seg_list big_sepL seg_total]. iFrame "Hst F18 Hcache Hfree F8 F10 F6 F13 F14 F11".
    iSplit; [iPureIntro; by constructor|]. by iExists _; iFrame "F12". }
  destruct (Z.gtb_spec reserve_size 0) as [Hpos|Hzero].
  - wp_bind. iApply (reserve_spec with "H F16 F17"); [done|done|done|done|]. iSplit; [iDestruct "HΦ" as "[HΦ _]"|iDestruct "HΦ" as "[_ HΨ]"].
    + iIntros (p s Hp) "H1 H2 F16 F17". wp_store "F16". iApply ("HΦ" with "[-Hc] Hc"). iFrame "F0 F17". iExists p. iFrame "F16". iRight. iExists s. iFrame. iPureIntro. split; [lia|done].
    + iIntros "H". iApply ("HΨ" with "F0 H Hc").
  - wp_ret. iDestruct "HΦ" as "[HΦ _]". iApply ("HΦ" with "[-Hc] Hc"). iFrame "F0 F17". iExists 0. iFrame "F16". iLeft. iFrame. iPureIntro. lia.
Qed.

End start.
