(* ===== verification/MmShutdown.v ===== *)
(** * The end of a request

    [zend_mm_shutdown] on a heap whose blocks nobody uses any more: between two requests it
    leaves the heap as the start does, in one of the segments, or without; at the end of the
    process everything goes back. *)

From iris.proofmode Require Import proofmode.
From S2P Require Import Prelude WordLogic MmModel MmShutdownModel MmBits MmRepr MmTrie MmFree MmSearch MmLayout MmHole MmJoin MmSegments MmRelease MmHeap MmApart MmTake MmAlloc MmReallocModel MmResize MmRegrow MmRealloc MmApi MmProgram MmStart.
Local Open Scope Z_scope.

Section shutdown.
Context (heap lim k : Z).
Context {storage : Storage}.
Variable zend_error : W unit.
Variable free : Z → W unit.

(** ** The loops over the segments *)

Lemma seg_chain_words v l : seg_chain v l ⊢ [∗ list] a ∈ l.*1, ∃ v, a ↦ v.
Proof using Type.
  revert v. induction l as [|[a n] l IH]; intros v; cbn [seg_chain fmap list_fmap big_sepL fst]; [by iIntros "_"|].
  iIntros "(_ & H1 & _ & _ & %v' & _ & H2)". rewrite IH. iFrame "H2". by iExists _.
Qed.

Lemma chain_head v a n l : seg_chain v ((a, n) :: l) ⊢ ⌜v = a ∧ v ≠ 0⌝.
Proof using Type. iIntros "[(-> & % & _) _]". iPureIntro. split; [done|lia]. Qed.

Lemma free_segment_spec v x l (Φ : Z → hpropI) Ψ :
  seg_chain v (x :: l) -∗ storage_inv -∗ (∀ v', seg_chain v' l -∗ storage_inv -∗ Φ v') -∗ wp (free_segment storage_free v) Φ Ψ.
Proof using Type.
  destruct x as [a n]. iIntros "[(-> & Ha & Ha8 & Hb & %Hn & %Hn8) (H1 & H2 & H3 & %v' & H4 & H5)] H6 HΦ". unfold free_segment. wp_load "H4".
  wp_bind. iApply (storage_free_spec a n with "H6 H1 [H3 H4] H2"); [lia|done| |].
  - rewrite (span_cons (a + 8)); [|lia|destruct Hn8 as [q ->]; exists (q - 1); lia]. rewrite (_ : a + 8 + 8 = a + 16); [|lia]. iFrame "H3". by iExists _.
  - iIntros "H6". wp_ret. iApply ("HΦ" with "H5 H6").
Qed.

Lemma free_segments_spec fuel v l (Φ : unit → hpropI) Ψ : (length l ≤ fuel)%nat →
  seg_chain v l -∗ storage_inv -∗ (storage_inv -∗ Φ tt) -∗ wp (free_segments_loop storage_free fuel v) Φ Ψ.
Proof using Type.
  revert fuel v. induction l as [|[a n] l IH]; intros fuel v Hf; iIntros "H1 H2 HΦ".
  - iDestruct "H1" as %->. destruct fuel; cbn [free_segments_loop Z.eqb negb]; wp_ret; by iApply "HΦ".
  - iDestruct (chain_head with "H1") as %[_ Hv]. destruct fuel as [|fuel]; [cbn in Hf; lia|]. cbn [free_segments_loop]. destruct (Z.eqb_spec v 0); [done|]. cbn [negb].
    wp_bind. iApply (free_segment_spec with "H1 H2"). iIntros (v') "H1 H2". iApply (IH with "H1 H2 HΦ"). cbn in Hf. lia.
Qed.

(** the last of them stays *)
Lemma free_but_last_spec fuel v x l (Φ : Z → hpropI) Ψ : (length l ≤ fuel)%nat →
  seg_chain v (x :: l) -∗ storage_inv -∗ (∀ v' y, ⌜y ∈ x :: l⌝ -∗ seg_chain v' [y] -∗ storage_inv -∗ Φ v') -∗ wp (free_but_last_loop storage_free fuel v) Φ Ψ.
Proof using Type.
  revert fuel v x. induction l as [|y l IH]; intros fuel v [a n] Hf; iIntros "H1 H2 HΦ".
  - cbn [seg_chain]. iDestruct "H1" as "[%Hv (H3 & H4 & H5 & %v' & H6 & ->)]". destruct Hv as (-> & Hv). assert (Hloop : free_but_last_loop storage_free fuel a = (let! next := rd (next_segment a) in
      if negb (next =? 0) then match fuel with O => stuck | S fuel' => let! s := free_segment storage_free a in free_but_last_loop storage_free fuel' s end else ret a)%eff) by (by destruct fuel).
    rewrite Hloop. wp_load "H6". cbn [Z.eqb negb]. wp_ret. iApply ("HΦ" $! a (a, n) with "[%] [H3 H4 H5 H6] H2"); [apply list_elem_of_here|]. cbn [seg_chain]. iFrame. done.
  - destruct fuel as [|fuel]; [cbn in Hf; lia|]. cbn [free_but_last_loop]. destruct y as [a' n']. iAssert (∃ v', next_segment v ↦ v' ∗ ⌜v' ≠ 0⌝ ∗ (next_segment v ↦ v' -∗ seg_chain v ((a, n) :: (a', n') :: l)))%I with "[H1]" as (v') "(H3 & %Hv' & H1)".
    { cbn [seg_chain]. iDestruct "H1" as "[%Hv (H3 & H4 & H5 & %v' & H6 & [%Hv' H7])]". destruct Hv as (-> & Hv). iExists v'. iFrame "H6". iSplit; [iPureIntro; lia|]. iIntros "H6". iFrame. iSplit; [done|]. by iFrame. }
    wp_load "H3". destruct (Z.eqb_spec v' 0); [done|]. cbn [negb]. iSpecialize ("H1" with "H3"). wp_bind. iApply (free_segment_spec with "H1 H2"). iIntros (v2) "H1 H2".
    iApply (IH with "H1 H2"); [cbn in Hf; lia|]. iIntros (v3 y Hy) "H1 H2". iApply ("HΦ" with "[%] H1 H2"). by apply list_elem_of_further.
Qed.

Lemma fuel_of_chain v l (Φ : nat → hpropI) Ψ :
  seg_chain v l -∗ (∀ n, ⌜(length l < n)%nat⌝ -∗ seg_chain v l -∗ Φ n) -∗ wp words_fuel Φ Ψ.
Proof using Type. iIntros "H HΦ". iApply (wp_fuel l.*1 with "H"); [apply seg_chain_words|]. rewrite length_fmap. iExact "HΦ". Qed.

(** what is left of the segments: one of them, or nothing when there is no reserve *)
Lemma release_segments_spec rs v l (Φ : unit → hpropI) Ψ :
  segments_list heap ↦ v -∗ seg_chain v l -∗ reserve_size_field heap ↦ rs -∗ storage_inv -∗
  (∀ v' l', ⌜(length l' ≤ 1)%nat ∧ l' ⊆ l⌝ -∗ segments_list heap ↦ v' -∗ seg_chain v' l' -∗ reserve_size_field heap ↦ rs -∗ storage_inv -∗ Φ tt) -∗
  wp (release_segments heap storage_free v) Φ Ψ.
Proof using Type.
  iIntros "H1 H2 H3 H4 HΦ". unfold release_segments. destruct l as [|[a n] l].
  - iDestruct "H2" as %->. cbn [Z.eqb negb]. wp_ret. iApply ("HΦ" $! 0 [] with "[%] H1 [//] H3 H4"). split; [cbn; lia|done].
  - iDestruct (chain_head with "H2") as %[_ Hv]. destruct (Z.eqb_spec v 0); [done|]. cbn [negb]. wp_bind. iApply (fuel_of_chain with "H2"). iIntros (fuel Hf) "H2". cbn [length] in Hf. wp_load "H3".
    destruct (rs =? 0); cbn [negb].
    + wp_bind. iApply (free_segment_spec with "H2 H4"). iIntros (v') "H2 H4". wp_bind. iApply (free_segments_spec with "H2 H4"); [lia|]. iIntros "H4".
      iApply (wp_store with "H1"). iIntros "H1". iApply ("HΦ" $! 0 [] with "[%] H1 [//] H3 H4"). split; [cbn; lia|by apply list_subseteq_nil].
    + wp_bind. iApply (free_but_last_spec with "H2 H4"); [lia|]. iIntros (v' y Hy) "H2 H4". iApply (wp_store with "H1"). iIntros "H1". iApply ("HΦ" $! v' [y] with "[%] H1 H2 H3 H4").
      split; [cbn; lia|]. intros x ->%list_elem_of_singleton. done.
Qed.

(** ** What is left *)

Definition chain_total (l : list (Z * Z)) : Z := match l with [] => 0 | x :: _ => x.2 end.

Lemma compact_storage_spec c rp (Φ : unit → hpropI) Ψ :
  compact_size heap ↦ c -∗ real_peak heap ↦ rp -∗ storage_inv -∗
  (compact_size heap ↦ c -∗ real_peak heap ↦ rp -∗ storage_inv -∗ Φ tt) -∗ wp (compact_storage heap storage_compact) Φ Ψ.
Proof using Type.
  iIntros "H1 H2 H3 HΦ". unfold compact_storage. wp_load "H1". wp_load "H2". destruct (negb (c =? 0) && (rp >? c)).
  - iApply (storage_compact_spec with "H3"). iIntros "H3". iApply ("HΦ" with "H1 H2 H3").
  - wp_ret. iApply ("HΦ" with "H1 H2 H3").
Qed.

Lemma reset_counters_spec v l (Φ : unit → hpropI) Ψ :
  segments_list heap ↦ v -∗ seg_chain v l -∗ (∃ v, real_size heap ↦ v) -∗ (∃ v, real_peak heap ↦ v) -∗ (∃ v, heap_size heap ↦ v) -∗ (∃ v, peak heap ↦ v) -∗
  (segments_list heap ↦ v -∗ seg_chain v l -∗ real_size heap ↦ chain_total l -∗ real_peak heap ↦ chain_total l -∗ heap_size heap ↦ 0 -∗ peak heap ↦ 0 -∗ Φ tt) -∗
  wp (reset_counters heap) Φ Ψ.
Proof using Type.
  iIntros "H1 H2 [% H3] [% H4] [% H5] [% H6] HΦ". unfold reset_counters. wp_load "H1".
  iApply wp_bind_intro. iApply (wp_wand _ (λ _, seg_chain v l ∗ real_size heap ↦ chain_total l ∗ real_peak heap ↦ chain_total l)%I _ Ψ with "[H2 H3 H4]").
  { destruct l as [|[a n] l].
    - iDestruct "H2" as %->. cbn [Z.eqb negb]. wp_store "H3". iApply (wp_store with "H4"). iIntros "H4". by iFrame.
    - iDestruct (chain_head with "H2") as %[-> Hv]. destruct (Z.eqb_spec a 0); [done|]. cbn [negb seg_chain]. iDestruct "H2" as "[%Hok [H7 H2]]". wp_load "H7". wp_store "H3". iApply (wp_store with "H4").
      iIntros "H4". cbn [chain_total snd]. by iFrame. }
  iSplit; [|iIntros "H"; iExact "H"]. iIntros ([]) "(H2 & H3 & H4)". wp_store "H5". iApply (wp_store with "H6"). iIntros "H6". iApply ("HΦ" with "H1 H2 H3 H4 H5 H6").
Qed.

Hypothesis heap_pos : 0 < heap.

Lemma free_remaining_spec v l (Φ : unit → hpropI) Ψ : (length l ≤ 1)%nat → (∀ x, x ∈ l → x.2 ≤ largest_limit) →
  segments_list heap ↦ v -∗ seg_chain v l -∗ free_lists heap [] -∗
  (∀ S, ⌜Forall seg_ok S ∧ all_useds S = [] ∧ seg_total S = chain_total l⌝ -∗ segments heap S -∗ Φ tt) -∗ wp (free_remaining heap) Φ Ψ.
Proof using heap_pos.
  iIntros (Hl Hmax) "H1 H2 H3 HΦ". unfold free_remaining. wp_load "H1". destruct l as [|[a n] [|]]; [..|cbn in Hl; lia].
  - iDestruct "H2" as %->. cbn [Z.eqb negb]. wp_ret. iApply ("HΦ" $! [] with "[%]"); [done|]. unfold segments. cbn [fmap list_fmap seg_list big_sepL]. by iFrame.
  - iDestruct (chain_head with "H2") as %[_ Hv]. destruct (Z.eqb_spec v 0); [done|]. cbn [negb seg_chain chain_total snd].
    iDestruct "H2" as "[%Hok (H4 & H5 & H6 & %v' & H7 & ->)]". destruct Hok as (-> & Ha & Ha8 & Hb & Hn & Hn8). assert (Hmax' : n ≤ largest_limit) by (apply (Hmax (a, n)), list_elem_of_here).
    assert (∃ s, n = s + 32 ∧ good_size s) as (s & -> & Hs).
    { exists (n - 32). split; [lia|]. split; [lia|]. apply Z.divide_sub_r; [done|by exists 4]. }
    assert (Hh : hole_ok (first_block a) [] s []) by (constructor; [unfold first_block; lia|done..|cbn [total]; lia]).
    iDestruct (rest_hole heap a s [] with "H6 H3") as "([% H8] & [% H9] & H6)"; [apply Hs..|]. wp_load "H4". change ZEND_MM_ALIGNED_SEGMENT_SIZE with 16. change ZEND_MM_ALIGNED_HEADER_SIZE with 16.
    unfold ZEND_MM_MARK_FIRST_BLOCK. wp_store "H8". unfold ZEND_MM_LAST_BLOCK, ZEND_MM_BLOCK_AT. rewrite (_ : s + 32 - 16 - 16 = s); [|lia]. change (Z.lor ZEND_MM_GUARD_BLOCK ZEND_MM_ALIGNED_HEADER_SIZE) with 19. wp_store "H9".
    iDestruct ("H6" with "H8 H9") as "H6". rewrite (_ : a + 16 = first_block a + total []); [|unfold first_block; cbn [total]; lia]. wp_bind. iApply (mark_free_spec with "H6"); [done|]. iIntros "H6".
    iApply (add_marked_spec with "H6"); [done..|]. iIntros "H6". iApply ("HΦ" $! [(a, [Free s])] with "[%]").
    + split; [|split; [done|cbn [seg_total snd]; unfold seg_size; cbn [total chunk_size]; lia]]. constructor; [|done]. constructor; cbn [fst snd]; [done|done|by constructor|by split; [intros [_ ?]|]|done|unfold seg_size; cbn [total chunk_size]; lia].
    + rewrite (segments_open heap [] a [Free s] []). unfold beside. cbn [app fmap list_fmap seg_list big_sepL]. unfold seg_size. cbn [total chunk_size]. rewrite Z.add_0_r. iFrame.
Qed.

(** ** The whole heap *)

(** a heap without its blocks, and the list of its segments [l] *)
Definition emptied (l : list (Z * Z)) : hpropI :=
  ⌜∀ x, x ∈ l → x.2 ≤ largest_limit⌝ ∗ use_zend_alloc heap ↦ 1 ∗ (∃ r, reserve heap ↦ r) ∗ (∃ o, overflow heap ↦ o) ∗
  (∃ v, segments_list heap ↦ v ∗ seg_chain v l) ∗ lists_memory heap ∗ counters_memory heap (2 ^ k) lim ∗ storage_inv.

Lemma abandoned_emptied : abandoned heap lim k ⊢ ∃ l, emptied l.
Proof using Type.
  iIntros "(%L & %drift & [H0 (%r & %o & H1 & H2 & H3)] & H4)".
  iAssert (∃ d L0, heap_live heap (2 ^ k) lim d L0 ∗ bodies L0)%I with "[H3 H4]" as (d L0) "H".
  { iDestruct "H3" as "[[_ H3]|(%s & _ & H3 & H5)]"; [iExists drift, L; iFrame|]. iExists (drift - s), ((r - 16, s) :: L). iFrame "H3". unfold bodies. cbn [big_sepL fst snd]. rewrite Z.sub_add. iFrame. }
  iDestruct (live_apart with "H") as (l Hl) "(H3 & H4 & H5 & H6)". iExists l. iFrame. done.
Qed.

(** the lists and the counters set again, and what is left of the segments put back *)
Lemma start_again_spec (m : W unit) v l (Φ : unit → hpropI) Ψ : (length l ≤ 1)%nat → (∀ x, x ∈ l → x.2 ≤ largest_limit) →
  segments_list heap ↦ v -∗ seg_chain v l -∗ lists_memory heap -∗ counters_memory heap (2 ^ k) lim -∗ storage_inv -∗
  (heap_live heap (2 ^ k) lim 0 [] -∗ wp m Φ Ψ) -∗
  wp (zend_mm_init heap ;;; reset_counters heap ;;; free_remaining heap ;;; m)%eff Φ Ψ.
Proof using heap_pos.
  iIntros (Hl Hmax) "H1 H2 (F1 & F2 & F3 & F4 & F5 & F6 & F7 & F8 & F9) (C1 & C2 & C3 & C4 & C5 & C6) H3 HΦ".
  wp_bind. iApply (init_spec with "F1 F2 F3 F4 F5 F6 F7 F8 F9"). iIntros "F3 F4 F5".
  wp_bind. iApply (reset_counters_spec with "H1 H2 C1 C6 C4 C5"). iIntros "H1 H2 C1 C6 C4 C5". wp_bind. iApply (free_remaining_spec with "H1 H2 F5"); [done..|].
  iIntros (S (HS & Hu & Htot)) "H1". iApply "HΦ". iExists S, (replicate 64 []). unfold heap_at, counters. rewrite Hu Htot. iFrame "H1 F4 C1 F3 C2 C3 C4 C5 C6 H3".
  iPureIntro. constructor; [done|done|by rewrite Hu| |done]. rewrite Htot. destruct l as [|x l]; [done|]. apply (Hmax x), list_elem_of_here.
Qed.

Section request.
Variable rs : Z.
Hypothesis block_size_ok : 5 ≤ k ≤ 62.
Hypothesis lim_ok : 0 ≤ lim ≤ largest_limit.
Hypothesis reserve_ok : 0 ≤ rs < 2 ^ 64.
Hypothesis zend_error_spec : ∀ L, mm heap lim k L ⊢ wp zend_error (λ _, grown heap lim k L) (grown heap lim k L).

(** a new reserve, and the heap is as good as new *)
Lemma allocate_reserve_spec o (Φ : unit → hpropI) Ψ :
  use_zend_alloc heap ↦ 1 -∗ heap_live heap (2 ^ k) lim 0 [] -∗ reserve heap ↦ 0 -∗ overflow heap ↦ o -∗ config heap rs -∗
  ((fresh heap lim k rs -∗ config heap rs -∗ Φ tt) ∧ (abandoned heap lim k -∗ config heap rs -∗ Ψ)) -∗
  wp (allocate_reserve heap storage_alloc storage_free zend_error ;;; wr (overflow heap) 0)%eff Φ Ψ.
Proof using heap_pos block_size_ok lim_ok reserve_ok zend_error_spec.
  iIntros "H0 H1 H2 H3 (Hc & Hr & Hi) HΦ". unfold allocate_reserve. wp_bind. wp_load "Hr". destruct (Z.eqb_spec rs 0) as [Hz|Hz]; cbn [negb].
  - wp_ret. iApply (wp_store with "H3"). iIntros "H3". iDestruct "HΦ" as "[HΦ _]". iApply ("HΦ" with "[-Hc Hr Hi] [$Hc $Hr $Hi]"). iFrame "H0 H3". iExists 0. iFrame "H2". iLeft. by iFrame.
  - wp_bind. iApply (reserve_spec with "H1 H2 H3"); [done..|]. iSplit; [iDestruct "HΦ" as "[HΦ _]"|iDestruct "HΦ" as "[_ HΨ]"].
    + iIntros (p s Hp) "H1 H4 H2 H3". iApply (wp_store with "H2"). iIntros "H2". iApply (wp_store with "H3"). iIntros "H3".
      iApply ("HΦ" with "[-Hc Hr Hi] [$Hc $Hr $Hi]"). iFrame "H0 H3". iExists p. iFrame "H2". iRight. iExists s. by iFrame.
    + iIntros "(%L' & [%drift H1] & H2)". rewrite app_nil_r. iApply ("HΨ" with "[H0 H1 H2] [$Hc $Hr $Hi]"). iExists L', drift. iFrame.
Qed.

Lemma request_shutdown_spec (Φ : unit → hpropI) Ψ :
  abandoned heap lim k -∗ config heap rs -∗
  ((fresh heap lim k rs -∗ config heap rs -∗ Φ tt) ∧ (abandoned heap lim k -∗ config heap rs -∗ Ψ)) -∗
  wp (zend_mm_shutdown heap storage_alloc storage_free storage_compact storage_dtor zend_error free false) Φ Ψ.
Proof using heap_pos block_size_ok lim_ok reserve_ok zend_error_spec.
  iIntros "H ([%c Hc] & Hr & [%i Hi]) HΦ". iDestruct (abandoned_emptied with "H") as (l) "(%Hmax & H0 & [%r H1] & [%o H2] & (%v & H3 & H4) & H5 & (C1 & C2 & C3 & C4 & C5 & [%rp C6]) & H6)".
  unfold zend_mm_shutdown. wp_load "H0". cbn [Z.eqb]. wp_load "H1".
  iApply wp_bind_intro. iApply (wp_wand _ (λ _, reserve heap ↦ 0)%I _ Ψ with "[H1]").
  { destruct (Z.eqb_spec r 0) as [->|]; cbn [negb]; [by wp_ret|]. iApply (wp_store with "H1"). by iIntros "$". }
  iSplit; [|iIntros "H"; iExact "H"]. iIntros ([]) "H1". wp_load "Hi". wp_load "H3".
  wp_bind. iApply (release_segments_spec with "H3 H4 Hr H6"). iIntros (v' l' [Hl' Hsub]) "H3 H4 Hr H6". wp_bind. iApply (compact_storage_spec with "Hc C6 H6"). iIntros "Hc C6 H6".
  iApply (start_again_spec with "H3 H4 H5 [$C1 $C2 $C3 $C4 $C5 C6] H6"); [done|intros x Hx; by apply Hmax, Hsub|by iExists _|]. iIntros "H". iApply (allocate_reserve_spec with "H0 H H1 H2 [$Hc $Hr $Hi] HΦ").
Qed.

End request.

(** ** The end of the process *)

(** what the manager owned of the structure, for the [free] of the system *)
Definition structure (rs : Z) : hpropI :=
  (∃ v, use_zend_alloc heap ↦ v) ∗ (∃ r, reserve heap ↦ r) ∗ (∃ o, overflow heap ↦ o) ∗ (∃ v, segments_list heap ↦ v) ∗
  lists_memory heap ∗ counters_memory heap (2 ^ k) lim ∗ config heap rs.

Definition system_free_ok (rs : Z) : Prop := ∀ (Φ : unit → hpropI) Ψ, structure rs -∗ Φ tt -∗ wp (free heap) Φ Ψ.

Lemma full_shutdown_spec rs (Φ : unit → hpropI) Ψ : system_free_ok rs →
  abandoned heap lim k -∗ config heap rs -∗ Φ tt -∗
  wp (zend_mm_shutdown heap storage_alloc storage_free storage_compact storage_dtor zend_error free true) Φ Ψ.
Proof using Type.
  iIntros (Hfree) "H (Hc & Hr & [%i Hi]) HΦ". iDestruct (abandoned_emptied with "H") as (l) "(_ & H0 & [%r H1] & H2 & (%v & H3 & H4) & H5 & H6 & H7)".
  unfold zend_mm_shutdown. wp_load "H0". cbn [Z.eqb]. wp_load "H1".
  iApply wp_bind_intro. iApply (wp_wand _ (λ _, reserve heap ↦ 0)%I _ Ψ with "[H1]").
  { destruct (Z.eqb_spec r 0) as [->|]; cbn [negb]; [by wp_ret|]. iApply (wp_store with "H1"). by iIntros "$". }
  iSplit; [|iIntros "H"; iExact "H"]. iIntros ([]) "H1". wp_load "Hi". wp_load "H3". wp_bind. iApply (fuel_of_chain with "H4"). iIntros (fuel Hf) "H4".
  wp_bind. iApply (free_segments_spec with "H4 H7"); [lia|]. iIntros "H7". wp_store "H3". wp_bind. iApply (storage_dtor_spec with "H7"). destruct (i =? 0).
  - iApply (Hfree with "[-HΦ] HΦ"). unfold structure. iFrame.
  - wp_ret. iExact "HΦ".
Qed.

End shutdown.
