(* ===== verification/MmRequests.v ===== *)
(** * Requests

    One process serves one request after the other on the same heap: a program runs, to its
    end or until it is bailed out, and [zend_mm_shutdown] prepares the heap for the next. *)

From iris.proofmode Require Import proofmode.
From S2P Require Import Prelude WordLogic MmModel MmShutdownModel MmBits MmRepr MmTrie MmFree MmSearch MmLayout MmHole MmJoin MmSegments MmRelease MmHeap MmApart MmTake MmAlloc MmReallocModel MmResize MmRegrow MmRealloc MmApi MmProgram MmStart MmShutdown.
Local Open Scope Z_scope.
Local Open Scope effect_scope.

(** [zend_try { m } zend_end_try()], and whether [m] came to its end *)
Definition caught {A} (m : W A) : W (option A) := λ w,
  match m w with Done a w' => Done (Some a) w' | Bailout w' => Done None w' | Stuck => Stuck end.

Lemma wp_caught {A} (m : W A) (Φ : option A → hpropI) Ψ : wp m (λ a, Φ (Some a)) (Φ None) ⊢ wp (caught m) Φ Ψ.
Proof.
  split. intros w H f Hf. specialize (H f Hf). unfold caught, outcome_ok in *. by destruct (m (w ∪ f)) as [a w'|w'|].
Qed.

Section requests.
Context (heap lim k rs : Z).
Context {storage : Storage}.
Variable zend_error : W unit.
Variable zend_error_noreturn : W unit.
Variable _malloc : Z → W Z.
Variable _free : Z → W unit.
Variable _realloc : Z → Z → W Z.
Local Abbreviation run := (run heap zend_error zend_error_noreturn _malloc _free _realloc).
Local Abbreviation shutdown := (zend_mm_shutdown heap storage_alloc storage_free storage_compact storage_dtor zend_error _free).

(** the results of the programs that were not bailed out *)
Fixpoint serve (requests : list (list op)) : W (list (option (list Z * list Z))) :=
  match requests with
  | [] => ret []
  | ops :: requests' =>
      let! r := caught (run ops []) in
      shutdown false ;;;
      let! results := serve requests' in
      ret (r :: results)
  end.

(** the program holds as many blocks as it should, and has read what it should *)
Definition answers (ops : list op) (r : option (list Z * list Z)) : Prop :=
  match r with
  | Some (ps, out) => length ps = length (spec_run ops []).1 ∧ Forall2 agrees (spec_run ops []).2 out
  | None => True
  end.

Hypothesis heap_pos : 0 < heap.
Hypothesis block_size_ok : 5 ≤ k ≤ 62.
Hypothesis lim_ok : 0 ≤ lim ≤ largest_limit.
Hypothesis reserve_ok : 0 ≤ rs < 2 ^ 64.
Hypothesis zend_error_spec : ∀ L, mm heap lim k L ⊢ wp zend_error (λ _, grown heap lim k L) (grown heap lim k L).
Hypothesis zend_error_noreturn_spec : ∀ L, mm heap lim k L ⊢ wp zend_error_noreturn (λ _, False) (grown heap lim k L).

(** what [heap->size] counts of a new heap *)
Definition reserved (n : Z) : Prop := if rs =? 0 then n = 0 else rs + ZEND_MM_ALIGNED_HEADER_SIZE ≤ n.

Lemma fresh_engine : fresh heap lim k rs ⊢ ∃ n, ⌜reserved n⌝ ∗ engine heap lim k n [].
Proof using Type.
  iIntros "(H0 & H1 & %r & H2 & H3)". iDestruct "H3" as "[[[%Hrs ->] H3]|(%s & [%Hrs %Hs] & H3 & H4)]"; apply Z.eqb_eq in Hrs || apply Z.eqb_neq in Hrs.
  - iExists 0. iSplit; [iPureIntro; by rewrite /reserved Hrs|]. iFrame "H0". iExists 0, 0. iFrame. iLeft. by iFrame.
  - iExists s. iSplit; [iPureIntro; rewrite /reserved Hrs; apply Hs|]. iFrame "H0". iExists r, 0. iFrame "H1 H2". iRight. iExists s. rewrite Z.sub_diag. iFrame. iPureIntro. apply Hs.
Qed.

Lemma program_abandoned drift bl : program_heap heap lim k drift bl ⊢ abandoned heap lim k.
Proof using Type. iIntros "[H1 H2]". iExists _, drift. iFrame "H1". by iApply held_bodies. Qed.

Lemma serve_spec requests (Φ : list (option (list Z * list Z)) → hpropI) Ψ : Forall (λ ops, ops_ok lim k ops []) requests →
  fresh heap lim k rs -∗ config heap rs -∗
  ((∀ results, ⌜Forall2 answers requests results⌝ -∗ fresh heap lim k rs -∗ config heap rs -∗ Φ results) ∧ (abandoned heap lim k -∗ config heap rs -∗ Ψ)) -∗
  wp (serve requests) Φ Ψ.
Proof using heap_pos block_size_ok lim_ok reserve_ok zend_error_spec zend_error_noreturn_spec.
  intros Hops. revert Φ. induction Hops as [|ops requests Hop _ IH]; intros Φ; iIntros "H1 H2 HΦ"; cbn [serve].
  - wp_ret. iDestruct "HΦ" as "[HΦ _]". by iApply ("HΦ" with "[%] H1 H2").
  - wp_bind. iApply wp_caught. iDestruct (fresh_engine with "H1") as (n _) "H1".
    assert (Hnext : ∀ r, answers ops r → abandoned heap lim k -∗ config heap rs -∗
      ((∀ results, ⌜Forall2 answers (ops :: requests) results⌝ -∗ fresh heap lim k rs -∗ config heap rs -∗ Φ results) ∧ (abandoned heap lim k -∗ config heap rs -∗ Ψ)) -∗
      wp (shutdown false ;;; let! results := serve requests in ret (r :: results)) Φ Ψ).
    { intros r Hr. iIntros "H1 H2 HΦ". wp_bind. iApply (request_shutdown_spec with "H1 H2"); [done..|]. iSplit; [|iDestruct "HΦ" as "[_ $]"].
      iIntros "H1 H2". wp_bind. iApply (IH with "H1 H2"). iSplit; [|iDestruct "HΦ" as "[_ $]"]. iIntros (results Hres) "H1 H2". wp_ret. iDestruct "HΦ" as "[HΦ _]".
      iApply ("HΦ" with "[%] H1 H2"). by constructor. }
    iApply (run_spec heap lim k zend_error zend_error_noreturn _malloc _free _realloc heap_pos block_size_ok lim_ok zend_error_spec zend_error_noreturn_spec ops n [] with "[H1]"); [done|by iFrame|]. iSplit.
    + iIntros (bl out [Hbl Hout]) "H1". iApply (Hnext with "[H1] H2 HΦ"); [|by iApply program_abandoned]. split; [|done]. by rewrite -Hbl !length_fmap.
    + iIntros "H1". by iApply (Hnext with "H1 H2 HΦ").
Qed.

(** a new heap with a limit *)
Lemma fresh_limit_spec lim' x (Φ : unit → hpropI) Ψ : 0 ≤ x → Z.max x (2 ^ k) ≤ lim' →
  fresh heap lim k rs -∗ (fresh heap lim' k rs -∗ Φ tt) -∗ wp (zend_set_memory_limit heap x) Φ Ψ.
Proof using Type.
  iIntros (Hx Hlim) "(H0 & H1 & %r & H2 & H3) HΦ".
  iDestruct "H3" as "[[% (%S & %Cs & %Hok & H3 & H4 & H5 & H6)]|(%s & %Hs & (%S & %Cs & %Hok & H3 & H4 & H5 & H6) & H7)]"; iApply (counters_limit_spec with "H5"); [done..| |done|done|];
    iIntros "H5"; iApply "HΦ"; iFrame "H0 H1"; iExists r; iFrame "H2"; [iLeft|iRight; iExists s]; (iSplit; [done|]); try iFrame "H7"; iExists S, Cs; by iFrame.
Qed.

End requests.
