(* ===== verification/MmArena.v ===== *)
(** * A storage for the memory manager

    An instance of the interface [Storage], for the examples: memory up to [top], given out
    from the bottom in slots of [slot] bytes, in which a segment can grow; the word at
    [cell] holds the next address.  Nothing given back is used again. *)

From iris.proofmode Require Import proofmode.
From S2P Require Import Prelude WordLogic MmModel MmRepr MmSegments.
Local Open Scope Z_scope.
Local Open Scope effect_scope.

Section arena.
Context (cell top slot : Z).

Definition arena_alloc (n : Z) : W Z :=
  let! b := rd cell in
  if (n >? slot) || (b + slot >? top) then ret 0 else wr cell (b + slot) ;;; ret b.
Definition arena_free (a : Z) : W unit := ret tt.
Definition arena_realloc (a m : Z) : W Z := ret (if m >? slot then 0 else a).
Definition arena_inv : hpropI := (∃ b, ⌜0 < b ∧ (8 | b)⌝ ∗ cell ↦ b ∗ span b top)%I.
(** the rest of the slot *)
Definition arena_part (a n : Z) : hpropI := (⌜0 < a ∧ (8 | a) ∧ n ≤ slot ∧ a + slot ≤ top⌝ ∗ span (a + n) (a + slot))%I.

Hypothesis top_ok : (8 | top) ∧ top ≤ 2 ^ 47 ∧ (8 | slot) ∧ 0 < slot.

Lemma arena_alloc_spec n (Φ : Z → hpropI) Ψ : 0 < n < 2 ^ 64 → (8 | n) →
  arena_inv -∗
  (∀ p, arena_inv -∗ (⌜p = 0⌝ ∨ ⌜0 < p ∧ (8 | p) ∧ p + n ≤ 2 ^ 47⌝ ∗ span p (p + n) ∗ arena_part p n) -∗ Φ p) -∗
  wp (arena_alloc n) Φ Ψ.
Proof using top_ok.
  iIntros (Hn Hn8) "(%b & [%Hb %Hb8] & H1 & H2) HΦ". unfold arena_alloc. wp_load "H1". destruct ((n >? slot) || (b + slot >? top)) eqn:Hfull.
  - wp_ret. iApply ("HΦ" with "[H1 H2]"); [iExists b; by iFrame|by iLeft].
  - destruct top_ok as (Ht8 & Ht & Hs8 & Hs). assert (n ≤ slot ∧ b + slot ≤ top) as [Hns Hroom] by lia. assert (8 | b + slot) by (by apply Z.divide_add_r).
    rewrite (span_split b (b + slot) top); [|lia|by rewrite (_ : b + slot - b = slot); [|lia]|by apply Z.divide_sub_r].
    rewrite (span_split b (b + n) (b + slot)); [|lia|by rewrite (_ : b + n - b = n); [|lia]|rewrite (_ : b + slot - (b + n) = slot - n); [by apply Z.divide_sub_r|lia]].
    iDestruct "H2" as "[[H2 H4] H3]". wp_store "H1". wp_ret. iApply ("HΦ" with "[H1 H3]").
    + iExists (b + slot). iFrame. iPureIntro. split; [lia|done].
    + iRight. iFrame "H2". iSplit; [iPureIntro; split; [done|]; split; [done|lia]|]. iFrame. done.
Qed.

Lemma arena_free_spec a n (Φ : unit → hpropI) Ψ : 16 ≤ n → (8 | n) →
  arena_inv -∗ segment_size_field a ↦ n -∗ span (a + 8) (a + n) -∗ arena_part a n -∗ (arena_inv -∗ Φ tt) -∗ wp (arena_free a) Φ Ψ.
Proof using Type. iIntros (_ _) "H _ _ _ HΦ". wp_ret. by iApply "HΦ". Qed.

Lemma arena_realloc_spec a n m (vs : list Z) (Φ : Z → hpropI) Ψ : 16 ≤ n ≤ m → (8 | n) → (8 | m) → n = 8 + 8 * Z.of_nat (length vs) → m ≤ slot →
  arena_inv -∗ segment_size_field a ↦ n -∗ words_at (a + 8) vs -∗ arena_part a n -∗
  (∀ p, ⌜0 < p ∧ (8 | p) ∧ p + m ≤ 2 ^ 47⌝ -∗ arena_inv -∗ segment_size_field p ↦ n -∗ words_at (p + 8) vs -∗ span (p + n) (p + m) -∗ arena_part p m -∗ Φ p) -∗
  wp (arena_realloc a m) Φ Ψ.
Proof using top_ok.
  iIntros (Hnm Hn8 Hm8 Hlen Hm) "H1 H2 H3 [(%Ha & %Ha8 & _ & %Htop) H4] HΦ". unfold arena_realloc. wp_ret. destruct (Z.gtb_spec m slot); [lia|]. destruct top_ok as (_ & ? & Hs8 & _).
  rewrite (span_split (a + n) (a + m)); [|lia|rewrite (_ : a + m - (a + n) = m - n); [by apply Z.divide_sub_r|lia]|rewrite (_ : a + slot - (a + m) = slot - m); [by apply Z.divide_sub_r|lia]].
  iDestruct "H4" as "[H4 H5]". iApply ("HΦ" with "[%] H1 H2 H3 H4 [H5]"); [split; [done|split; [done|lia]]|]. iFrame. done.
Qed.

Definition arena_handler : W unit := ret tt.
Lemma arena_compact_spec (Φ : unit → hpropI) Ψ : arena_inv -∗ (arena_inv -∗ Φ tt) -∗ wp arena_handler Φ Ψ.
Proof using Type. iIntros "H HΦ". wp_ret. by iApply "HΦ". Qed.
Lemma arena_dtor_spec (Φ : unit → hpropI) Ψ : arena_inv -∗ Φ tt -∗ wp arena_handler Φ Ψ.
Proof using Type. iIntros "_ HΦ". by wp_ret. Qed.

Definition arena : Storage := {|
  storage_alloc := arena_alloc; storage_free := arena_free; storage_realloc := arena_realloc; storage_compact := arena_handler; storage_dtor := arena_handler;
  storage_inv := arena_inv; storage_part := arena_part; storage_capacity := slot;
  storage_alloc_spec := arena_alloc_spec; storage_free_spec := arena_free_spec; storage_realloc_spec := arena_realloc_spec; storage_compact_spec := arena_compact_spec;
  storage_dtor_spec := arena_dtor_spec |}.

End arena.

(** ** Memories of words *)

(** a memory that has the words of [l] *)
Lemma holds_points (l : list (Z * Z)) (w : words) : NoDup l.*1 → (∀ x, x ∈ l → w !! x.1 = Some x.2) → holds ([∗ list] x ∈ l, x.1 ↦ x.2)%I w.
Proof.
  revert w. induction l as [|[a v] l IH]; intros w Hl Hw; [done|]. cbn [fmap list_fmap fst] in Hl. apply NoDup_cons in Hl as [Ha Hl].
  exists {[a := v]}, (delete a w). split; [apply map_disjoint_singleton_l_2, lookup_delete_eq|]. split.
  - rewrite -insert_union_singleton_l insert_delete_id //. apply (Hw (a, v)). apply list_elem_of_here.
  - split; [apply lookup_singleton_eq|]. apply IH; [done|]. intros [a' v'] Hin. cbn [fst snd]. rewrite lookup_delete_ne; [apply (Hw (a', v')); by apply elem_of_cons; right|].
    intros ->. apply Ha, list_elem_of_fmap. by exists (a', v').
Qed.

(** [n] words from [a], all 0 *)
Definition zeros (a : Z) (n : nat) : list (Z * Z) := (λ i, (a + 8 * Z.of_nat i, 0)) <$> seq 0 n.

Lemma zeros_region a n : ([∗ list] x ∈ zeros a n, x.1 ↦ x.2) ⊢ region a n.
Proof.
  unfold zeros. rewrite big_sepL_fmap. cbn [fst snd]. revert a. induction n as [|n IH]; intros a; cbn [seq big_sepL region]; [done|].
  rewrite Z.add_0_r -seq_shift big_sepL_fmap -IH. iIntros "[H1 H2]". iSplitL "H1"; [by iExists _|]. iApply (big_sepL_mono with "H2"). iIntros (k x _) "H".
  by rewrite (_ : a + 8 * Z.of_nat (S x) = a + 8 + 8 * Z.of_nat x); [|lia].
Qed.
