(* ===== verification/MmTheorems.v ===== *)
(** * What the memory manager promises

    The runs of [_zend_mm_alloc_int], [_zend_mm_free_int], [_zend_mm_realloc_int],
    [zend_mm_search_large_block], [zend_mm_startup_ex] and [zend_mm_shutdown] on memories that
    hold a heap, and those of programs and of requests. *)

From iris.proofmode Require Import proofmode.
From S2P Require Import Prelude WordLogic MmModel MmShutdownModel MmBits MmRepr MmTrie MmFree MmSearch MmLayout MmHole MmJoin MmSegments MmRelease MmHeap MmApart MmTake MmAlloc MmReallocModel MmResize MmRegrow MmRealloc MmApi MmProgram MmStart MmShutdown MmRequests MmArena.
Local Open Scope Z_scope.
Local Open Scope effect_scope.

(** ** The theorems *)

(** the parameters that the theorems are about *)
Record settings_ok (heap lim k : Z) (storage : Storage) (zend_error : W unit) : Prop := SettingsOk {
  settings_heap : 0 < heap;
  settings_block_size : 5 ≤ k ≤ 62;
  settings_limit : 0 ≤ lim ≤ largest_limit;
  settings_error L : mm heap lim k L ⊢ wp zend_error (λ _, grown heap lim k L) (grown heap lim k L)
}.

(** the fatal error for sizes that overflow does not return *)
Definition noreturn_ok (heap lim k : Z) {storage : Storage} (zend_error_noreturn : W unit) : Prop :=
  ∀ L, mm heap lim k L ⊢ wp zend_error_noreturn (λ _, False) (grown heap lim k L).

(** C5: [_zend_mm_alloc_int] on a heap whose blocks in use are [L], whatever else [P] the memory
    holds: it returns a pointer, aligned and to a new block with room for [n] bytes, which the
    program owns, or it bails out with the heap as good as before; it never fails otherwise
    (no corruption is reported, no loop runs on), and it leaves [P] alone. *)
Theorem alloc_correct heap lim k (storage : Storage) zend_error drift L n (P : hpropI) w :
  settings_ok heap lim k storage zend_error → size_t n → holds (mm_at heap lim k drift L ∗ P)%I w →
  match _zend_mm_alloc_int heap storage_alloc storage_free zend_error n w with
  | Done p w' => ∃ s, given n p s ∧ holds (mm_at heap lim k drift ((p - 16, s) :: L) ∗ span p (p - 16 + s) ∗ P)%I w'
  | Bailout w' => holds (grown heap lim k L ∗ P)%I w'
  | Stuck => False
  end.
Proof.
  intros [Hh Hk Hlim Herr] Hn Hw.
  assert (Hwp : mm_at heap lim k drift L ∗ P ⊢ wp (_zend_mm_alloc_int heap storage_alloc storage_free zend_error n)
    (λ p, ∃ s, ⌜given n p s⌝ ∗ mm_at heap lim k drift ((p - 16, s) :: L) ∗ span p (p - 16 + s) ∗ P) (grown heap lim k L ∗ P)).
  { iIntros "[H HP]". iApply (mm_alloc_spec with "H"); [done..|]. iSplit.
    - iIntros (p s Hp) "H1 H2". iExists s. by iFrame.
    - iIntros "H". iFrame. }
  apply (wp_run _ _ _ _ w Hwp) in Hw. destruct (_zend_mm_alloc_int _ _ _ _ _ w) as [p w'|w'|]; [|done..].
  apply holds_exist in Hw as [s Hs]. apply holds_pure in Hs. by exists s.
Qed.

(** C6: [_zend_mm_free_int] on a block in use always returns, with the block no longer in use,
    and leaves everything else alone: the other blocks, which the heap does not own, too. *)
Theorem free_correct heap lim k (storage : Storage) zend_error drift L b s (P : hpropI) w :
  settings_ok heap lim k storage zend_error → holds (mm_at heap lim k drift ((b, s) :: L) ∗ span (b + 16) (b + s) ∗ P)%I w →
  ∃ w', _zend_mm_free_int heap storage_free (b + 16) w = Done tt w' ∧ holds (mm_at heap lim k drift L ∗ P)%I w'.
Proof.
  intros [Hh Hk Hlim Herr] Hw. assert (Hwp : mm_at heap lim k drift ((b, s) :: L) ∗ span (b + 16) (b + s) ∗ P ⊢ wp (_zend_mm_free_int heap storage_free (b + 16)) (λ _, mm_at heap lim k drift L ∗ P) False).
  { iIntros "(H1 & H2 & HP)". iApply (mm_free_spec with "H1 H2"); [done..|]. iIntros "H". iFrame. }
  apply (wp_run _ _ _ _ w Hwp) in Hw. destruct (_zend_mm_free_int _ _ _ w) as [[] w'|w'|]; [by exists w'|done..].
Qed.

(** C7: [_zend_mm_realloc_int] on a block in use with the words [vs], where the storage can make
    segments as large as the limit allows: it returns a block with room for [n] bytes, the old
    one larger or smaller, a block of the cache, the same at the new place of its segment, or a
    new one, and its words are those of [vs], as far as both go; or it bails out, the block and
    its words being as before.  The rest [P] of the memory is left alone. *)
Theorem realloc_correct heap lim k (storage : Storage) zend_error drift L b s n vs (P : hpropI) w :
  settings_ok heap lim k storage zend_error → lim ≤ storage_capacity → fair_request n →
  holds (mm_at heap lim k drift ((b, s) :: L) ∗ contents b s vs ∗ P)%I w →
  match _zend_mm_realloc_int heap storage_alloc storage_free storage_realloc zend_error (b + 16) n w with
  | Done p w' => ∃ s' vs', given n p s' ∧ same_contents vs vs' ∧ holds (mm_at heap lim k drift ((p - 16, s') :: L) ∗ contents (p - 16) s' vs' ∗ P)%I w'
  | Bailout w' => holds (grown heap lim k ((b, s) :: L) ∗ contents b s vs ∗ P)%I w'
  | Stuck => False
  end.
Proof.
  intros [Hh Hk Hlim Herr] Hcap Hn Hw.
  assert (Hwp : mm_at heap lim k drift ((b, s) :: L) ∗ contents b s vs ∗ P ⊢ wp (_zend_mm_realloc_int heap storage_alloc storage_free storage_realloc zend_error (b + 16) n)
    (λ p, ∃ s' vs', ⌜given n p s' ∧ same_contents vs vs'⌝ ∗ mm_at heap lim k drift ((p - 16, s') :: L) ∗ contents (p - 16) s' vs' ∗ P)
    (grown heap lim k ((b, s) :: L) ∗ contents b s vs ∗ P)).
  { iIntros "(H1 & H2 & HP)". iApply (mm_realloc_spec with "H1 H2"); [done..|]. iSplit.
    - iIntros (p s' vs' Hp) "H1 H2". iExists s', vs'. by iFrame.
    - iIntros "H1 H2". iFrame. }
  apply (wp_run _ _ _ _ w Hwp) in Hw. destruct (_zend_mm_realloc_int _ _ _ _ _ _ _ w) as [p w'|w'|]; [|done..].
  apply holds_exist in Hw as [s' Hw]. apply holds_exist in Hw as [vs' Hw]. apply holds_pure in Hw as [[] ?]. by exists s', vs'.
Qed.

(** what the runs of programs leave *)
Lemma program_run heap lim k (storage : Storage) zend_error zend_error_noreturn _malloc _free _realloc drift ops (P : hpropI) w :
  settings_ok heap lim k storage zend_error → noreturn_ok heap lim k zend_error_noreturn → ops_ok lim k ops [] →
  holds (program_heap heap lim k drift [] ∗ P)%I w →
  match run heap zend_error zend_error_noreturn _malloc _free _realloc ops [] w with
  | Done r w' => ∃ bl, (held_ptr <$> bl = r.1 ∧ held_block <$> bl = (spec_run ops []).1 ∧ Forall2 agrees (spec_run ops []).2 r.2) ∧
      holds (program_heap heap lim k drift bl ∗ P)%I w'
  | Bailout w' => holds (abandoned heap lim k ∗ P)%I w'
  | Stuck => False
  end.
Proof.
  intros [Hh Hk Hlim Herr] Hnr Hops Hw.
  assert (Hwp : program_heap heap lim k drift [] ∗ P ⊢ wp (run heap zend_error zend_error_noreturn _malloc _free _realloc ops [])
    (λ r, ∃ bl, ⌜held_ptr <$> bl = r.1 ∧ held_block <$> bl = (spec_run ops []).1 ∧ Forall2 agrees (spec_run ops []).2 r.2⌝ ∗ program_heap heap lim k drift bl ∗ P) (abandoned heap lim k ∗ P)).
  { iIntros "[H HP]". iApply (run_spec heap lim k zend_error zend_error_noreturn _malloc _free _realloc Hh Hk Hlim Herr Hnr ops drift [] with "H"); [done|]. iSplit.
    - iIntros (bl out [Hbl Hout]) "H". iExists bl. by iFrame.
    - iIntros "H". iFrame. }
  apply (wp_run _ _ _ _ w Hwp) in Hw. destruct (run _ _ _ _ _ _ _ _ w) as [r w'|w'|]; [|done..].
  apply holds_exist in Hw as [bl Hbl]. apply holds_pure in Hbl. by exists bl.
Qed.

(** C8: A program that calls [emalloc], [safe_emalloc], [ecalloc], [efree], [erealloc] and
    [zend_set_memory_limit], and reads and writes the words of its blocks: each call does what
    it does on blocks that know their sizes and contents, or the program is bailed out.  At the
    end it holds the blocks of the specification, the heap has these in use and no others, what
    was read is what was written last, or 0 after [ecalloc], also across [erealloc], and the
    rest [P] of the memory is as it was. *)
Theorem program_correct heap lim k (storage : Storage) zend_error zend_error_noreturn _malloc _free _realloc drift ops (P : hpropI) w :
  settings_ok heap lim k storage zend_error → noreturn_ok heap lim k zend_error_noreturn → ops_ok lim k ops [] →
  holds (program_heap heap lim k drift [] ∗ P)%I w →
  match run heap zend_error zend_error_noreturn _malloc _free _realloc ops [] w with
  | Done (ps, out) w' => ∃ bl, held_ptr <$> bl = ps ∧ held_block <$> bl = (spec_run ops []).1 ∧ Forall2 agrees (spec_run ops []).2 out ∧
      holds (program_heap heap lim k drift bl ∗ P)%I w'
  | Bailout w' => holds (abandoned heap lim k ∗ P)%I w'
  | Stuck => False
  end.
Proof.
  intros H1 H2 H3 Hw. apply (program_run _ _ _ _ _ _ _malloc _free _realloc _ _ _ _ H1 H2 H3) in Hw. destruct (run _ _ _ _ _ _ _ _ w) as [[ps out] w'|w'|]; [|done..].
  destruct Hw as (bl & (? & ? & ?) & ?). by exists bl.
Qed.

Lemma usage_run heap lim k (storage : Storage) drift L (P : hpropI) w :
  holds (mm_at heap lim k drift L ∗ P)%I w → ∃ w', zend_memory_usage heap false w = Done (u64 (drift + sizes L)) w'.
Proof.
  intros Hw. assert (Hwp : mm_at heap lim k drift L ∗ P ⊢ wp (zend_memory_usage heap false) (λ n, ⌜n = u64 (drift + sizes L)⌝ ∗ emp) False).
  { iIntros "[H _]". iApply (memory_usage_spec with "H"). by iIntros "_". }
  apply (wp_run _ _ _ _ w Hwp) in Hw. destruct (zend_memory_usage _ _ w) as [n w'|w'|]; [|done..]. apply holds_pure in Hw as [-> _]. by exists w'.
Qed.

(** C11: The usage that [zend_memory_usage(0)] reports after a program is the one before it and the
    sizes of the blocks that the program then holds, each of which has room for the bytes asked
    for and its header, whatever the calls of the program were, if it was not bailed out. *)
Theorem memory_usage_correct heap lim k (storage : Storage) zend_error zend_error_noreturn _malloc _free _realloc drift ops (P : hpropI) w :
  settings_ok heap lim k storage zend_error → noreturn_ok heap lim k zend_error_noreturn → ops_ok lim k ops [] →
  holds (program_heap heap lim k drift [] ∗ P)%I w →
  match run heap zend_error zend_error_noreturn _malloc _free _realloc ops [] w with
  | Done (ps, _) w' => ∃ u w1 bl w2, zend_memory_usage heap false w = Done u w1 ∧ held_ptr <$> bl = ps ∧ held_block <$> bl = (spec_run ops []).1 ∧
      zend_memory_usage heap false w' = Done (u64 (u + sizes (held_header <$> bl))) w2 ∧ Forall (λ x, asked (held_block x) + ZEND_MM_ALIGNED_HEADER_SIZE ≤ held_size x) bl
  | Bailout _ => True
  | Stuck => False
  end.
Proof.
  intros H1 H2 H3 Hw. assert (Hu : holds (mm_at heap lim k drift [] ∗ True)%I w) by (revert Hw; apply entails_holds; iIntros "[[[_ H] _] _]"; by iFrame).
  apply usage_run in Hu as [w1 Hu]. apply (program_run _ _ _ _ _ _ _malloc _free _realloc _ _ _ _ H1 H2 H3) in Hw. destruct (run _ _ _ _ _ _ _ _ w) as [[ps out] w'|w'|]; [|done..].
  destruct Hw as (bl & (Hps & Hbl & _) & Hw). assert (Hw' : holds (⌜Forall (λ x, asked (held_block x) + ZEND_MM_ALIGNED_HEADER_SIZE ≤ held_size x) bl⌝ ∗ mm_at heap lim k drift (held_header <$> bl) ∗ True)%I w').
  { revert Hw. apply entails_holds. iIntros "[[[_ H1] H2] _]". iDestruct (held_sizes with "H2") as %?. by iFrame. }
  apply holds_pure in Hw' as [Hsz Hw']. apply usage_run in Hw' as [w2 Hu']. exists (u64 (drift + sizes [])), w1, bl, w2. split; [exact Hu|]. split; [exact Hps|]. split; [exact Hbl|]. split; [|exact Hsz].
  cbn [sizes]. rewrite Hu'. f_equal. unfold u64. rewrite Zplus_mod_idemp_l. f_equal. lia.
Qed.

(** C19: [zend_mm_search_large_block]: an exact fit among the large blocks if there is one, else a
    block that is large enough, and [NULL] only when there is none; the heap stays as it is.
    The walks over the trees end at their leaves. *)
Theorem search_large_correct heap f ts (P : hpropI) w :
  free_ok f → good_size ts → holds (free_words heap f ∗ P)%I w →
  ∃ q w', zend_mm_search_large_block heap ts w = Done q w' ∧ holds (free_words heap f ∗ P)%I w' ∧
    (q = 0 ∧ no_fit (tree_blocks f) ts ∨ good_fit (tree_blocks f) ts q).
Proof.
  intros Hok Hts Hw. assert (Hwp : free_words heap f ∗ P ⊢ wp (zend_mm_search_large_block heap ts)
    (λ q, ⌜q = 0 ∧ no_fit (tree_blocks f) ts ∨ good_fit (tree_blocks f) ts q⌝ ∗ free_words heap f ∗ P) False).
  { iIntros "[H HP]". iApply (search_large_block_state with "H"); [done..|]. iIntros (q Hq) "H". by iFrame. }
  apply (wp_run _ _ _ _ w Hwp) in Hw. destruct (zend_mm_search_large_block _ _ w) as [q w'|w'|]; [|done..].
  apply holds_pure in Hw as [Hq Hw]. by exists q, w'.
Qed.

(** the start of the heap, in a memory that has the structure and what the storage needs *)
Theorem startup_correct heap k (storage : Storage) zend_error reserve_size (P : hpropI) w :
  settings_ok heap start_limit k storage zend_error → size_t reserve_size → holds (heap_memory heap ∗ storage_inv ∗ P)%I w →
  match zend_mm_startup_ex heap storage_alloc storage_free zend_error (2 ^ k) reserve_size w with
  | Done _ w' => holds (fresh heap start_limit k reserve_size ∗ config heap reserve_size ∗ P)%I w'
  | Bailout w' => holds (abandoned heap start_limit k ∗ P)%I w'
  | Stuck => False
  end.
Proof.
  intros [Hh Hk Hlim Herr] Hrs Hw. assert (Hwp : heap_memory heap ∗ storage_inv ∗ P ⊢ wp (zend_mm_startup_ex heap storage_alloc storage_free zend_error (2 ^ k) reserve_size)
    (λ _, fresh heap start_limit k reserve_size ∗ config heap reserve_size ∗ P) (abandoned heap start_limit k ∗ P)).
  { iIntros "(H1 & H2 & HP)". iApply (startup_spec with "H1 H2"); [done..|]. iSplit; [iIntros "H1 H2"; iFrame|].
    iIntros "H0 (%L' & [%drift H] & H1) _". rewrite app_nil_r. iFrame. }
  apply (wp_run _ _ _ _ w Hwp) in Hw. by destruct (zend_mm_startup_ex _ _ _ _ _ _ w) as [[] w'|w'|].
Qed.



(** ** Examples

    The heap at 8, segments of 512 bytes of an arena at 2240, in slots of 1024 bytes, a limit of
    1024 bytes, and no reserve.  The functions of the system are not there. *)

Module sample.

Definition heap : Z := 8.
Definition cell : Z := 2232.
Definition slot : Z := 1024.
Definition top : Z := 2240 + slot * 3.
Definition zend_error : W unit := ret tt.
Definition zend_error_noreturn : W unit := bailout.

Lemma top_ok : (8 | top) ∧ top ≤ 2 ^ 47 ∧ (8 | slot) ∧ 0 < slot.
Proof. split; [by exists 664|]. split; [done|]. split; [by exists 128|done]. Qed.
#[local] Instance storage : Storage := arena cell top slot top_ok.

Lemma settings lim : 0 ≤ lim ≤ largest_limit → settings_ok heap lim 9 storage zend_error.
Proof. intros Hlim. split; [done..|]. intros L. iIntros "H". wp_ret. iExists []. iFrame "H". by unfold bodies. Qed.

Lemma noreturn lim : noreturn_ok heap lim 9 zend_error_noreturn.
Proof. intros L. iIntros "H". iApply wp_bailout. iExists []. iFrame "H". by unfold bodies. Qed.

(** the memory before the start *)
Definition words_before : list (Z * Z) := [(internal heap, 0); (cell, 2240)] ++ zeros heap 278 ++ zeros 2240 384.
Definition before : words := list_to_map words_before.

Lemma before_words : holds (heap_memory heap ∗ cell ↦ 2240 ∗ span 2240 top)%I before.
Proof.
  assert (Hnd : NoDup words_before.*1) by vm_decide.
  assert (H : holds ([∗ list] x ∈ words_before, x.1 ↦ x.2)%I before).
  { apply holds_points; [exact Hnd|]. intros [a v] Hin. by apply elem_of_list_to_map_1. }
  revert H. generalize before. apply entails_holds. unfold words_before. rewrite !big_sepL_app (zeros_region heap 278) (zeros_region 2240 384). cbn [big_sepL fst snd].
  iIntros "((H1 & H2 & _) & H3 & H4)". iSplitL "H1 H3"; [iSplitL "H3"; [iExact "H3"|by iExists _]|]. iSplitL "H2"; [iExact "H2"|iExact "H4"].
Qed.

Lemma before_holds : holds (heap_memory heap ∗ @storage_inv storage ∗ True)%I before.
Proof.
  change (@storage_inv storage) with (arena_inv cell top). generalize before_words. generalize before. apply entails_holds. iIntros "(H & H1 & H2)". iSplitL "H"; [iExact "H"|].
  iSplit; [|done]. iExists 2240. iSplit; [iPureIntro; split; [done|by exists 280]|]. iSplitL "H1"; [iExact "H1"|iExact "H2"].
Qed.

Definition memory_of {A} (o : outcome words A) : words := match o with Done _ w => w | Bailout w => w | Stuck => ∅ end.
Definition result_of (o : outcome words Z) : Z := match o with Done p _ => p | _ => 0 end.
Definition done {A} (o : outcome words A) : bool := match o with Done _ _ => true | _ => false end.

Definition run_start : W unit := zend_mm_startup_ex heap (arena_alloc cell top slot) arena_free zend_error 512 0.
Definition alloc (n : Z) : W Z := _zend_mm_alloc_int heap (arena_alloc cell top slot) arena_free zend_error n.
Definition free (p : Z) : W unit := _zend_mm_free_int heap arena_free p.
Definition realloc (p n : Z) : W Z := _zend_mm_realloc_int heap (arena_alloc cell top slot) arena_free (arena_realloc slot) zend_error p n.
Definition shutdown (full : bool) : W unit := zend_mm_shutdown heap (arena_alloc cell top slot) arena_free arena_handler arena_handler zend_error (λ _, ret tt) full.
(** the memory after the start, with the limit, and after one allocation *)
Definition started : words := memory_of (run_start before).
Definition limited : words := memory_of (zend_set_memory_limit heap slot started).
Definition used : words := memory_of (alloc 100 limited).

Local Abbreviation limited_settings := (settings slot ltac:(vm_compute; split; discriminate)).

Lemma started_holds : holds (fresh heap start_limit 9 0 ∗ config heap 0 ∗ True)%I started.
Proof.
  pose proof (startup_correct heap 9 storage zend_error 0 True before (settings start_limit ltac:(vm_compute; split; discriminate))) as H. specialize (H ltac:(split; done) before_holds).
  assert (Hd : done (run_start before) = true) by (vm_compute; reflexivity). unfold started. change (zend_mm_startup_ex _ _ _ _ _ _) with run_start in H.
  destruct (run_start before) as [[] w|w|]; [exact H|discriminate..].
Qed.

Lemma limited_fresh : holds (fresh heap slot 9 0 ∗ config heap 0 ∗ True)%I limited.
Proof.
  assert (Hwp : fresh heap start_limit 9 0 ∗ config heap 0 ∗ True ⊢ wp (zend_set_memory_limit heap slot) (λ _, fresh heap slot 9 0 ∗ config heap 0 ∗ True) False).
  { iIntros "(H0 & H1 & _)". iApply (fresh_limit_spec heap start_limit 9 0 slot slot with "H0"); [by vm_compute|by vm_compute|]. iIntros "H0". iFrame. }
  pose proof (wp_run _ _ _ _ started Hwp started_holds) as H1. unfold limited. revert H1. destruct (zend_set_memory_limit heap slot started) as [[] w|w|]; [by intros H1|by intros []..].
Qed.

Lemma limited_holds : ∃ drift, holds (engine heap slot 9 drift [] ∗ config heap 0 ∗ True)%I limited.
Proof. apply holds_exist. generalize limited_fresh. apply entails_holds. iIntros "(H1 & H2 & _)". iDestruct (fresh_engine with "H1") as (n _) "H1". iExists n. iFrame. Qed.

Lemma limited_mm : ∃ drift, holds (mm_at heap slot 9 drift [] ∗ True)%I limited.
Proof. destruct limited_holds as [drift H]. exists drift. revert H. apply entails_holds. iIntros "[[_ H] _]". by iFrame. Qed.

Lemma limited_program : ∃ drift, holds (program_heap heap slot 9 drift [] ∗ True)%I limited.
Proof. destruct limited_holds as [drift H]. exists drift. revert H. apply entails_holds. iIntros "[H _]". by iFrame "H". Qed.

Lemma used_holds : ∃ drift s, holds (mm_at heap slot 9 drift [(2256, s)] ∗ span 2272 (2256 + s) ∗ True)%I used.
Proof.
  destruct limited_mm as [drift H0]. exists drift. destruct limited_settings as [Hh Hk Hlim Herr]. assert (Hwp : mm_at heap slot 9 drift [] ∗ True ⊢ wp (alloc 100)
    (λ p, ∃ s, mm_at heap slot 9 drift [(p - 16, s)] ∗ span p (p - 16 + s) ∗ True) True).
  { iIntros "[H _]". iApply (mm_alloc_spec heap slot 9 Hh Hk Hlim zend_error Herr with "H"); [done|]. iSplit; [|by iIntros "_"].
    iIntros (p s Hp) "H1 H2". iExists s. by iFrame. }
  pose proof (wp_run _ _ _ _ limited Hwp H0) as H. assert (Hd : done (alloc 100 limited) = true ∧ result_of (alloc 100 limited) = 2272) by (split; vm_compute; reflexivity).
  unfold used. destruct (alloc 100 limited) as [p w|w|]; [|by destruct Hd..]. destruct Hd as [_ Hp]. change (result_of (Done p w)) with p in Hp. subst p. exact H.
Qed.

Lemma used_contents : ∃ drift s vs, length vs = Z.to_nat ((s - 16) / 8) ∧ holds (mm_at heap slot 9 drift [(2256, s)] ∗ contents 2256 s vs ∗ True)%I used.
Proof.
  destruct used_holds as (drift & s & H). assert (Hs : holds (∃ vs, ⌜length vs = Z.to_nat ((s - 16) / 8)⌝ ∗ mm_at heap slot 9 drift [(2256, s)] ∗ contents 2256 s vs ∗ True)%I used).
  { revert H. apply entails_holds. iIntros "(H1 & H2 & _)". iDestruct (mm_used_size with "H1") as %Hs; [apply list_elem_of_here|]. iDestruct (span_contents 2256 s with "H2") as (vs) "[%Hlen H2]"; [done|].
    iExists vs. iFrame "H1". iSplit; [|iFrame "H2"; done]. iPureIntro. rewrite Hlen Z.mul_comm Z.div_mul; lia. }
  apply holds_exist in Hs as [vs Hs]. apply holds_pure in Hs. by exists drift, s, vs.
Qed.

(** with a block that the program left behind *)
Lemma used_abandoned : holds (abandoned heap slot 9 ∗ config heap 0 ∗ True)%I used.
Proof.
  destruct limited_holds as [drift H0]. destruct limited_settings as [Hh Hk Hlim Herr]. assert (Hwp : engine heap slot 9 drift [] ∗ config heap 0 ∗ True ⊢ wp (alloc 100)
    (λ p, abandoned heap slot 9 ∗ config heap 0 ∗ True) True).
  { iIntros "([H0 H] & H1 & _)". iApply (mm_alloc_spec heap slot 9 Hh Hk Hlim zend_error Herr with "H"); [done|]. iSplit; [|by iIntros "_"].
    iIntros (p s Hp) "H H2". iFrame "H1". iExists [(p - 16, s)], drift. iFrame "H0 H". unfold bodies. cbn [big_sepL fst snd]. rewrite Z.sub_add. iFrame. }
  pose proof (wp_run _ _ _ _ limited Hwp H0) as H. assert (Hd : done (alloc 100 limited) = true) by (vm_compute; reflexivity).
  unfold used. by destruct (alloc 100 limited) as [p w|w|].
Qed.

(** the lists of [zend_mm_init], with one block *)
Definition with_block : words := memory_of ((zend_mm_init heap ;;; wr (info_size 2240) 1056 ;;; zend_mm_add_to_free_list heap 2240) before).

Lemma with_block_holds : ∃ f, free_ok f ∧ free_elements f ≡ₚ [(2240, 1056)] ∧ holds (free_words heap f ∗ True)%I with_block.
Proof.
  assert (Hg : good_size 1056) by (split; [done|by exists 132]).
  assert (Hwp : heap_memory heap ∗ cell ↦ 2240 ∗ span 2240 top ⊢ wp (zend_mm_init heap ;;; wr (info_size 2240) 1056 ;;; zend_mm_add_to_free_list heap 2240)
    (λ _, ∃ f, ⌜free_ok f ∧ free_elements f ≡ₚ [(2240, 1056)]⌝ ∗ free_words heap f ∗ True) False).
  { iIntros "([H _] & _ & H2)". iDestruct (heap_memory_split with "H") as "(H & Hcache & Hfree & Hlarge & Hr0 & Hr1 & Hrc)". cbn [seq big_sepL].
    iDestruct "H" as "(_ & _ & _ & _ & F4 & F5 & _ & _ & _ & _ & _ & _ & _ & _ & _ & _ & _ & _ & F18 & _)".
    wp_bind. iApply (init_spec with "F4 F5 F18 Hcache Hfree Hlarge Hr0 Hr1 Hrc"). iIntros "_ _ (%f & [%Hok %Hel] & Hf)".
    rewrite (span_split 2240 (2240 + 1056) top); [|done|by exists 132|by exists 252]. iDestruct "H2" as "[H2 _]". rewrite -(block_span 2240); [|done|apply Hg].
    iDestruct "H2" as "([% H1] & _ & H2)". wp_store "H1". iApply (add_to_free_list_state with "[$H1 $H2] Hf"); [done..|]. iIntros (f' (Hok' & Hel' & _)) "Hf". iExists f'. iFrame.
    iPureIntro. split; [done|]. by rewrite Hel' -Hel. }
  pose proof (wp_run _ _ _ _ before Hwp before_words) as H.
  assert (Hd : done ((zend_mm_init heap ;;; wr (info_size 2240) 1056 ;;; zend_mm_add_to_free_list heap 2240) before) = true) by (vm_compute; reflexivity).
  unfold with_block. destruct ((zend_mm_init heap ;;; wr (info_size 2240) 1056 ;;; zend_mm_add_to_free_list heap 2240) before) as [u w|w|]; [|discriminate..].
  apply holds_exist in H as [f H]. apply holds_pure in H as [[H1 H2] H]. by exists f.
Qed.

(** two free blocks of the same tree, of 1920 and of 1056 bytes *)
Definition two_blocks : words := memory_of ((zend_mm_init heap ;;;
  wr (info_size 2240) 1920 ;;; zend_mm_add_to_free_list heap 2240 ;;;
  wr (info_size 4160) 1056 ;;; zend_mm_add_to_free_list heap 4160) before).

(** a small free block of 64 bytes, and one in the list of rests that is taken out again *)
Definition rest_removed : words := memory_of ((zend_mm_init heap ;;;
  wr (info_size 2240) 64 ;;; zend_mm_add_to_free_list heap 2240 ;;;
  wr (info_size 2304) 64 ;;; zend_mm_add_to_rest_list heap 2304 ;;;
  zend_mm_remove_from_free_list heap 2304) before).

End sample.

(** the search for the smallest block goes on to the wrong child, and misses it: for 600 bytes
    it finds the block of 1920 *)
Lemma search_not_best :
  sample.result_of (rd (info_size 2240) sample.two_blocks) = 1920 ∧ sample.result_of (rd (info_size 4160) sample.two_blocks) = 1056 ∧
  sample.result_of (zend_mm_search_large_block sample.heap 600 sample.two_blocks) = 2240.
Proof. vm_compute. done. Qed.

(** the removal of the only block of the list of rests takes its list for the bucket of its size:
    the bucket still holds a block, but the bitmap says that it is empty *)
Lemma rest_removal_clears_bitmap :
  sample.result_of (rd (free_buckets sample.heap (ZEND_MM_BUCKET_INDEX 64 * 2)) sample.rest_removed) = 2240 ∧
  sample.result_of (rd (free_bitmap sample.heap) sample.rest_removed) = 0.
Proof. vm_compute. done. Qed.

(** when the storage cannot make the segment larger, the free block after the one reallocated is
    not put back: 600 bytes, of which the system refuses to make 2000, can no longer be freed *)
Lemma realloc_refused_corrupts :
  let w := sample.memory_of (sample.alloc 600 sample.started) in
  sample.result_of (sample.alloc 600 sample.started) = 2272 ∧ sample.done (sample.free 2272 w) = true ∧
  match sample.realloc 2272 2000 w with Bailout w' => sample.free 2272 w' = Stuck | _ => False end.
Proof. vm_compute. done. Qed.

(** an allocation that fails empties the cache, whose blocks stay in the usage: 216 bytes here *)
Lemma cache_stays_counted :
  let usage w := sample.result_of (zend_memory_usage sample.heap false w) in
  let w := sample.memory_of ((let! p := sample.alloc 200 in sample.free p) sample.used) in
  usage w = 120 ∧ match sample.alloc 3000 w with Bailout w' => usage w' = 336 | _ => False end.
Proof. vm_compute. done. Qed.

(** ** Witnesses *)

#[local] Existing Instance sample.storage.

Lemma alloc_correct_witness : ∃ drift,
  match sample.alloc 100 sample.limited with
  | Done p w' => p = 2272 ∧ ∃ s, given 100 p s ∧ holds (mm_at sample.heap sample.slot 9 drift [(p - 16, s)] ∗ span p (p - 16 + s) ∗ True)%I w'
  | _ => False
  end.
Proof.
  destruct sample.limited_mm as [drift H0]. exists drift.
  pose proof (alloc_correct sample.heap sample.slot 9 sample.storage sample.zend_error drift [] 100 True sample.limited (sample.settings sample.slot ltac:(vm_compute; split; discriminate)) ltac:(split; done) H0) as H.
  change (_zend_mm_alloc_int _ _ _ _ _) with (sample.alloc 100) in H.
  assert (Hd : sample.done (sample.alloc 100 sample.limited) = true ∧ sample.result_of (sample.alloc 100 sample.limited) = 2272) by (split; vm_compute; reflexivity).
  destruct (sample.alloc 100 sample.limited) as [p w|w|]; [|destruct Hd; discriminate..]. destruct Hd as [_ Hp]. split; [exact Hp|exact H].
Defined.

Lemma free_correct_witness : ∃ drift w', sample.free (2256 + 16) sample.used = Done tt w' ∧ holds (mm_at sample.heap sample.slot 9 drift [] ∗ True)%I w'.
Proof.
  destruct sample.used_holds as (drift & s & H). change 2272 with (2256 + 16) in H. exists drift.
  exact (free_correct sample.heap sample.slot 9 sample.storage sample.zend_error drift [] 2256 s True sample.used (sample.settings sample.slot ltac:(vm_compute; split; discriminate)) H).
Defined.
Lemma realloc_correct_witness : ∃ drift s vs, length vs = Z.to_nat ((s - 16) / 8) ∧
  match sample.realloc (2256 + 16) 800 sample.used with
  | Done p w' => ∃ s' vs', given 800 p s' ∧ same_contents vs vs' ∧ holds (mm_at sample.heap sample.slot 9 drift [(p - 16, s')] ∗ contents (p - 16) s' vs' ∗ True)%I w'
  | Bailout w' => holds (grown sample.heap sample.slot 9 [(2256, s)] ∗ contents 2256 s vs ∗ True)%I w'
  | Stuck => False
  end.
Proof.
  destruct sample.used_contents as (drift & s & vs & Hlen & H). exists drift, s, vs. split; [exact Hlen|].
  assert (Hn : fair_request 800) by (left; lia). exact (realloc_correct sample.heap sample.slot 9 sample.storage sample.zend_error drift [] 2256 s 800 vs True sample.used (sample.settings sample.slot ltac:(vm_compute; split; discriminate))
    ltac:(reflexivity) Hn H).
Defined.

Definition sample_ops : list op := [Ecalloc 10 10; Store 0 3 77; Erealloc 0 800; Load 0 3; Load 0 0; Emalloc 40; Safe_emalloc 3 8 16; Efree 1; Load 1 3].
Lemma sample_ops_ok : ops_ok sample.slot 9 sample_ops [].
Proof.
  split; [by vm_compute|]. split; [by intros x [= <-]|]. split; [split; [left; lia|by vm_compute]|]. split; [by intros x [= <-]|]. split; [by intros x [= <-]|].
  split; [by vm_compute|]. split; [by vm_compute|]. split; [done|]. split; [by intros x [= <-]|done].
Qed.
Lemma sample_blocks : asked <$> (spec_run sample_ops []).1 = [40; 800] ∧ (spec_run sample_ops []).2 = [Some 77; Some 0; Some 77].
Proof. split; vm_compute; reflexivity. Qed.

Lemma program_correct_witness : ∃ drift,
  match run sample.heap sample.zend_error sample.zend_error_noreturn (λ _, stuck) (λ _, stuck) (λ _ _, stuck) sample_ops [] sample.limited with
  | Done (ps, out) w' => ∃ bl, held_ptr <$> bl = ps ∧ asked ∘ held_block <$> bl = [40; 800] ∧ Forall2 agrees [Some 77; Some 0; Some 77] out ∧
      holds (program_heap sample.heap sample.slot 9 drift bl ∗ True)%I w'
  | Bailout w' => holds (abandoned sample.heap sample.slot 9 ∗ True)%I w'
  | Stuck => False
  end.
Proof.
  destruct sample.limited_program as [drift H0]. exists drift. destruct sample_blocks as [<- <-].
  pose proof (program_correct sample.heap sample.slot 9 sample.storage sample.zend_error sample.zend_error_noreturn (λ _, stuck) (λ _, stuck) (λ _ _, stuck) drift sample_ops True sample.limited
    (sample.settings sample.slot ltac:(vm_compute; split; discriminate)) (sample.noreturn sample.slot) sample_ops_ok H0) as H. revert H.
  destruct (run _ _ _ _ _ _ _ _ _) as [[ps out] w'|w'|]; [|exact (λ H, H)..]. intros (bl & Hps & Hbl & Hrest). exists bl. split; [exact Hps|]. split; [|exact Hrest].
  rewrite -Hbl. apply list_fmap_compose.
Defined.

Lemma memory_usage_correct_witness :
  match run sample.heap sample.zend_error sample.zend_error_noreturn (λ _, stuck) (λ _, stuck) (λ _ _, stuck) sample_ops [] sample.limited with
  | Done (ps, _) w' => ∃ u w1 bl w2, zend_memory_usage sample.heap false sample.limited = Done u w1 ∧ held_ptr <$> bl = ps ∧ held_block <$> bl = (spec_run sample_ops []).1 ∧
      zend_memory_usage sample.heap false w' = Done (u64 (u + sizes (held_header <$> bl))) w2 ∧ Forall (λ x, asked (held_block x) + ZEND_MM_ALIGNED_HEADER_SIZE ≤ held_size x) bl
  | Bailout _ => True
  | Stuck => False
  end.
Proof.
  destruct sample.limited_program as [drift H0].
  exact (memory_usage_correct sample.heap sample.slot 9 sample.storage sample.zend_error sample.zend_error_noreturn (λ _, stuck) (λ _, stuck) (λ _ _, stuck) drift sample_ops True sample.limited
    (sample.settings sample.slot ltac:(vm_compute; split; discriminate)) (sample.noreturn sample.slot) sample_ops_ok H0).
Defined.

Lemma system_free_returns lim rs : system_free_ok sample.heap lim 9 (λ _, ret tt) rs.
Proof. intros Φ Ψ. iIntros "_ HΦ". by wp_ret. Qed.


(** the second request asks for more than there is, and the third is served like the first *)
Definition sample_requests : list (list op) := [sample_ops; [Emalloc 40; Emalloc 8000]; sample_ops].
Lemma sample_requests_ok : Forall (λ ops, ops_ok sample.slot 9 ops []) sample_requests.
Proof. constructor; [exact sample_ops_ok|]. constructor; [repeat split; by vm_compute|]. constructor; [exact sample_ops_ok|done]. Qed.

Local Abbreviation sample_serve := (serve sample.heap sample.zend_error sample.zend_error_noreturn (λ _, stuck) (λ _, stuck) (λ _ _, stuck) sample_requests).
Definition sample_results : list (option (list Z * list Z)) := [Some ([3144; 2272], [77; 0; 77]); None; Some ([5192; 4320], [77; 0; 77])].
Lemma sample_served : match sample_serve sample.limited with Done results _ => results = sample_results | _ => False end.
Proof. vm_compute. done. Qed.


Lemma search_large_correct_witness : ∃ f q w',
  free_elements f ≡ₚ [(2240, 1056)] ∧ zend_mm_search_large_block sample.heap 1000 sample.with_block = Done q w' ∧ holds (free_words sample.heap f ∗ True)%I w' ∧
  (q = 0 ∧ no_fit (tree_blocks f) 1000 ∨ good_fit (tree_blocks f) 1000 q).
Proof.
  destruct sample.with_block_holds as (f & Hok & Hel & H).
  destruct (search_large_correct sample.heap f 1000 True sample.with_block Hok ltac:(split; [done|by exists 125]) H) as (q & w' & Hq). by exists f, q, w'.
Defined.
